(* ===== verification/_CoqProject ===== *)
-Q . S2P
Prelude.v
Format.v
Kernel.v
SimKernel.v
Buffer.v
BufferSpec.v
Objects.v
LogText.v
LogSpec.v
PollerOps.v
ChannelOps.v
ReactorInv.v
PollInv.v
ReactorLife.v
Scenario.v
ReactorSpec.v
LoopOps.v
LoopInv.v
Interleave.v
SocketOps.v
ConnOps.v
ServerOps.v
TurnOps.v
ThreadOps.v
ThreadSpec.v
AddressSpec.v
Frames.v
WorldInv.v
WorldSteps.v
ConnInv.v
HandlerInv.v
LifeInv.v
AcceptInv.v
SystemInv.v
SetupInv.v
EchoServer.v
EchoClient.v
SystemSpec.v
Turns.v
Lifetime.v
ServerSpec.v
ConnSpec.v
LoopSpec.v
EchoSpec.v
ConnFlow.v
EchoRun.v
ServerEnd.v
