(* ===== verification/Prelude.v ===== *)
(** * CuteMuduo: a verification library

    CuteMuduo is a C++ network library in the reactor style: one event loop
    per thread, callbacks for what happens on descriptors, and TCP servers and
    connections on top.  This development models the library
    ([CuteMuduo/src/*.cpp] with the classes of
    [CuteMuduo/include/cutemuduo/*.hpp]) and the echo server and client of
    [tests/], and proves what makes it correct.

    ** The program and its parts

    An [EventLoop] waits in its [EpollPoller] for events, calls
    [Channel::HandleEvent] on the channels that have some, and runs the
    functors that any thread has queued; other threads wake it up through an
    eventfd.  [TcpServer] listens through an [Acceptor] in the main loop, hands
    every new [TcpConnection] to the next loop of its [EventLoopThreadPool],
    whose loops run each in an [EventLoopThread]; a connection reads into and
    writes from its two [Buffer]s and calls the application.

    ** How the code is represented

    A method is a computation in the state monad [M] of this file, with five
    outcomes: a result, [exit], a C++ exception, or undefined behaviour
    ([Undef]: a dangling pointer, an index out of range, an overflow, a
    [printf] whose arguments do not fit the format).  The state is the [World]
    of [Objects]: the objects of the program in one map per class, so that a
    pointer is a key and aliasing is as in the code; the lines logged; the
    calls made to the application; and the state of the kernel.  Lambda
    expressions stored in [std::function]s are constructors with what they
    capture ([callback], [functor], [close_callback]).  Integers keep the width
    of their C++ type where the code can leave it ([u64], [i32], ...).

    The kernel is a parameter: [Kernel] has one operation per system call the
    sources make, [KernelLaws] says what the manual pages promise about them.
    [SimKernel] is a concrete kernel that satisfies the laws, on which the
    witnesses run.  The application is a parameter too: [App] gives for every
    call, and all the calls before it, a program over the interface of the
    library ([client]); [AppOk] says that it uses connections it was told of,
    strings that exist and format strings that fit.  The echo server is such
    an application.

    ** The files

    - [Prelude]: notations, record update, machine integers, lists indexed by
      [Z], the monad and its weakest preconditions [wp].  [Format]: the
      format strings of [printf].
    - [Kernel], [SimKernel]: the operating system, and a concrete one.
    - [Buffer], [BufferSpec]: [buffer.cpp].
    - [Objects]: the data members of all classes, the heap, logging
      ([logger.hpp]).  [LogText], [LogSpec]: [logger.cpp] and
      [timestamp.cpp].
    - [PollerOps], [ChannelOps]: [epoll_poller.cpp], [poller.hpp],
      [channel.cpp].  [ReactorInv], [PollInv], [ReactorLife], [Scenario],
      [ReactorSpec]: the invariant of channels, pollers and interest lists, and
      the theorems on them.
    - [LoopOps], [LoopInv]: [event_loop.cpp].  [Interleave]: the loop as a step
      relation shared with other threads.
    - [SocketOps], [AddressSpec]: [socket.cpp], [inet_address.cpp].
    - [ConnOps]: [tcp_connection.cpp] and the removal of connections from
      [tcp_server.cpp].  [ServerOps]: [acceptor.cpp],
      [event_loop_thread_pool.cpp], [event_loop_thread.cpp],
      [tcp_server.cpp], and what the loops run.  [TurnOps]: a round of a loop
      as the turns of its thread, one callback or functor each.
    - [ThreadOps], [ThreadSpec]: [thread.cpp], [event_loop_thread.cpp] and
      [current_thread.cpp], as steps of two threads.
    - [Frames]: what operations preserve, found by instance resolution;
      [ConnFlow]: what sending leaves alone.
    - [WorldInv], [WorldSteps], [ConnInv], [HandlerInv], [LifeInv],
      [AcceptInv], [SystemInv], [SetupInv]: the invariant [world_ok] of the
      whole program and that every operation keeps it, with any further
      invariant of the application ([Carried]).
    - [EchoServer]: [tests/echo_server.cpp].  [EchoClient]:
      [tests/echo_client.cpp].
    - [SystemSpec], [Turns], [Lifetime], [ServerSpec], [ConnSpec], [LoopSpec],
      [EchoSpec], [EchoRun], [ServerEnd]: the theorems on the whole program and
      its upper layers.

    ** What is shown

    - The program as a whole ([SystemSpec], [Turns]): start-up reaches a good
      world, and from there, in whatever order the threads of the loops and of
      any well-behaved application take turns, nothing has undefined
      behaviour, what was given to a connection to send is not lost or
      reordered, and no connection goes back to an earlier state.  The turns
      of a thread, one after the other, are the round the code of [Loop] makes.
    - Who keeps connections alive ([Lifetime]): the [shared_ptr]s are counted,
      the count never comes down to zero, so that a program without it does
      the same; and connections and their sockets are never let go.
    - The connection ([ConnSpec]): every handler on every branch; a graceful
      shutdown waits for the output.  What a failed [write] leads to depends
      on what logging it does to [errno].
    - The echo server as a whole ([EchoRun]): from [main] on, over any turns
      of its threads, every client is sent what came from it, in order, and
      nothing else; one call of its message callback ([EchoSpec]).  Its client
      shows what was typed, but cannot be quit ([EchoClient]).
    - The loop between threads ([Interleave]): functors run once and in order,
      no wake-up is lost, everything queued is run; the operations of
      [LoopOps] are executions of that relation.  A functor queued just
      before [Quit] can be left unrun.  [Loop] ends when told to ([LoopSpec]).
    - Threads ([ThreadSpec]): [StartLoop] and the destructor of
      [EventLoopThread] come back, but for two races that are exhibited.
    - The server ([ServerSpec]): round robin, names, one loop per thread; its
      destructor ([ServerEnd]) lets every connection go.
    - Buffers ([BufferSpec]) refine a queue of bytes, and stay well-formed
      whatever is asked of them; channels and pollers ([ReactorSpec]) refine
      per-channel automata; addresses ([AddressSpec]) and the time of a log
      line ([LogSpec]) round-trip.

    ** Bounds and fuel

    [Loop] takes as fuel the number of rounds, and so does the loop of the
    echo client, which need not end; nothing else needs any.
    Theorems that need it say so: a loop takes its turn while fewer than
    [2^31] connections were numbered ([room]), since [next_conn_id_] overflows then.
    A [std::vector] that would grow past [PTRDIFF_MAX] raises [length_error];
    memory is otherwise not exhausted.

    ** What is not modelled

    - The setters of a connection are called by its server only, as their
      comments say: the application sets callbacks on the server.
    - Signals: [write] reports [EPIPE], as it does where [SIGPIPE] is ignored;
      the code leaves that to the application.
    - Data races inside one callback: in [Turns] a callback, a functor and a
      call of the application are atomic.  What threads share on purpose - the
      queue of functors, [quit_], the eventfd, [loop_] of [EventLoopThread] -
      has finer step relations of its own in [Interleave] and [ThreadOps].
    - [NonCopyable], which has no behaviour; accessors that only return a
      member are the member. *)

From stdpp Require Export base tactics option list gmap strings numbers.
From Stdlib Require Export ZArith Lia.
From Stdlib Require Export Strings.Byte.
From stdpp Require Export list_basics list_relations list.

#[global] Open Scope Z_scope.
#[global] Unset Program Cases.

(** ** Notations of the development *)

Declare Scope cpp_scope.
Delimit Scope cpp_scope with cpp.
#[global] Open Scope cpp_scope.

(** ** Functional record update

    [Eta R] lists the fields of the record [R] once, as its eta-expansion;
    [r <| f := v |>] is the copy of [r] whose field [f] is [v].  The
    updater is built by abstracting the projection [f r] out of the
    eta-expanded record, so that every other field of the copy is
    syntactically a projection of [r]. *)

Class Eta (R : Type) := eta : R → R.
Class Updater {R A : Type} (field : R → A) := upd : (A → A) → R → R.

Ltac build_updater R field :=
  let e := constr:(_ : Eta R) in
  let h := match field with ?f => f end in
  exact (fun g (r : R) =>
    ltac:(let body := eval hnf in (e r) in
          match eval pattern (field r) in body with
          | ?k _ => let b := eval cbv beta in (k (g (field r))) in exact b
          end)).

#[export] Hint Extern 1 (@Updater ?R ?A ?field) =>
  build_updater R field : typeclass_instances.
Arguments upd {R A} field {Updater} _ _.

(** [upd_simpl] reduces the projections of updated records, and only them:
    [f (r <| f ::= g |>)] to [g (f r)] and [f' (r <| f ::= g |>)] to
    [f' r]. *)
Ltac head_of t := lazymatch t with ?f _ => head_of f | _ => t end.

Ltac upd_reduct p f u g r :=
  let h := head_of p in
  let k := eval cbn [upd h] in (fun g' r' => p (@upd _ _ f u g' r')) in
  let t := lazymatch k with
           | (fun _ r' => p r') => constr:(p r)
           | (fun g' r' => g' (p r')) => constr:(g (p r))
           end in
  eval cbv beta in t.

Ltac upd_simpl_goal :=
  repeat match goal with
  | |- context [?p (@upd _ _ ?f ?u ?g ?r)] =>
      let t := upd_reduct p f u g r in change (p (@upd _ _ f u g r)) with t
  end.

Ltac upd_simpl :=
  upd_simpl_goal;
  repeat match goal with
  | H : context [?p (@upd _ _ ?f ?u ?g ?r)] |- _ =>
      let t := upd_reduct p f u g r in change (p (@upd _ _ f u g r)) with t in H
  end.

Notation "r <| f := v |>" := (upd f (fun _ => v) r)
  (at level 1, f at next level, v at level 200, left associativity,
   format "r  <| f  :=  v |>") : cpp_scope.
Notation "r <| f ::= g |>" := (upd f g r)
  (at level 1, f at next level, g at level 200, left associativity,
   format "r  <| f  ::=  g |>") : cpp_scope.

(** ** Machine integers

    [size_t] and [uint64_t] are integers modulo [2^64], [uint32_t] modulo
    [2^32], [uint16_t] modulo [2^16]; [int] is kept signed, with the
    two's-complement conversion the implementation uses. *)

Definition u64 (z : Z) : Z := z mod 2 ^ 64.
Definition u32 (z : Z) : Z := z mod 2 ^ 32.
Definition u16 (z : Z) : Z := z mod 2 ^ 16.
Definition i32 (z : Z) : Z := (z + 2 ^ 31) mod 2 ^ 32 - 2 ^ 31.
Definition i64 (z : Z) : Z := (z + 2 ^ 63) mod 2 ^ 64 - 2 ^ 63.
Definition INT_MAX : Z := 2 ^ 31 - 1.

(** [PTRDIFF_MAX]: the [max_size()] of a [std::vector<char>]. *)
Definition vec_max_size : Z := 2 ^ 63 - 1.

Lemma u64_small z : 0 ≤ z < 2 ^ 64 → u64 z = z.
Proof. apply Z.mod_small. Qed.

Lemma u64_range z : 0 ≤ u64 z < 2 ^ 64.
Proof. by apply Z.mod_pos_bound. Qed.

Lemma u64_neg z : - 2 ^ 64 ≤ z < 0 → u64 z = z + 2 ^ 64.
Proof.
  intros ?. unfold u64. rewrite <- (Z.mod_add z 1) by done.
  apply Z.mod_small. lia.
Qed.

Lemma u32_small z : 0 ≤ z < 2 ^ 32 → u32 z = z.
Proof. apply Z.mod_small. Qed.

Lemma i32_small z : - 2 ^ 31 ≤ z < 2 ^ 31 → i32 z = z.
Proof. intros ?. unfold i32. rewrite Z.mod_small by lia. lia. Qed.

Lemma i64_small z : - 2 ^ 63 ≤ z < 2 ^ 63 → i64 z = z.
Proof. intros ?. unfold i64. rewrite Z.mod_small by lia. lia. Qed.

Lemma i32_u32 z : - 2 ^ 31 ≤ z < 2 ^ 31 → i32 (u32 z) = z.
Proof.
  intros ?. unfold i32, u32.
  rewrite Zplus_mod_idemp_l, Z.mod_small by lia. lia.
Qed.

(** ** Bytes *)

#[export] Instance byte_eq_dec : EqDecision byte := Byte.byte_eq_dec.
#[export] Instance byte_inhabited : Inhabited byte := populate x00.

(** ** Lists indexed by [Z] *)

Definition zlen {A} (l : list A) : Z := Z.of_nat (length l).
Definition ztake {A} (n : Z) (l : list A) : list A := take (Z.to_nat n) l.
Definition zdrop {A} (n : Z) (l : list A) : list A := drop (Z.to_nat n) l.

(** [zslice i j l] is the range [[i, j)] of [l]. *)
Definition zslice {A} (i j : Z) (l : list A) : list A := ztake (j - i) (zdrop i l).

(** [zsplice i d l] overwrites [l] with [d] from position [i] on; it is
    meant for [i + zlen d ≤ zlen l], where the length is unchanged. *)
Definition zsplice {A} (i : Z) (d l : list A) : list A :=
  ztake i l ++ d ++ zdrop (i + zlen d) l.

Section zlists.
Context {A : Type}.
Implicit Types (l d : list A) (i j n m : Z).

Lemma zlen_nonneg l : 0 ≤ zlen l.
Proof. unfold zlen. lia. Qed.

Lemma zlen_cons x l : zlen (x :: l) = 1 + zlen l.
Proof. unfold zlen. cbn [length]. lia. Qed.

Lemma zlen_app l d : zlen (l ++ d) = zlen l + zlen d.
Proof. unfold zlen. rewrite length_app. lia. Qed.

Lemma zlen_replicate (k : nat) (x : A) : zlen (replicate k x) = Z.of_nat k.
Proof. unfold zlen. by rewrite length_replicate. Qed.

Lemma zlen_ztake n l : 0 ≤ n → zlen (ztake n l) = n `min` zlen l.
Proof. intros ?. unfold zlen, ztake. rewrite length_take. lia. Qed.

Lemma zlen_zdrop n l : 0 ≤ n → zlen (zdrop n l) = (zlen l - n) `max` 0.
Proof. intros ?. unfold zlen, zdrop. rewrite length_drop. lia. Qed.

Lemma zlen_zslice i j l :
  0 ≤ i ≤ j → j ≤ zlen l → zlen (zslice i j l) = j - i.
Proof. intros ??. unfold zslice. rewrite zlen_ztake, zlen_zdrop by lia. lia. Qed.

Lemma zlen_zsplice i d l :
  0 ≤ i → i + zlen d ≤ zlen l → zlen (zsplice i d l) = zlen l.
Proof.
  intros ??. pose proof (zlen_nonneg d). unfold zsplice.
  rewrite !zlen_app, zlen_ztake, zlen_zdrop by lia. lia.
Qed.

Lemma zlen_zero l : zlen l = 0 ↔ l = [].
Proof. unfold zlen. split; [destruct l; cbn; [done | lia] | by intros ->]. Qed.

Lemma ztake_all n l : zlen l ≤ n → ztake n l = l.
Proof. unfold zlen, ztake. intros ?. apply take_ge. lia. Qed.

Lemma zdrop_all n l : zlen l ≤ n → zdrop n l = [].
Proof. unfold zlen, zdrop. intros ?. apply drop_ge. lia. Qed.

Lemma ztake_0 l : ztake 0 l = [].
Proof. done. Qed.

Lemma zdrop_0 l : zdrop 0 l = l.
Proof. done. Qed.

Lemma ztake_zdrop n l : ztake n l ++ zdrop n l = l.
Proof. apply take_drop. Qed.

Lemma zdrop_zdrop n m l : 0 ≤ n → 0 ≤ m → zdrop n (zdrop m l) = zdrop (m + n) l.
Proof. intros ??. unfold zdrop. rewrite drop_drop. f_equal. lia. Qed.

Lemma ztake_app_le n l d : n ≤ zlen l → ztake n (l ++ d) = ztake n l.
Proof. unfold zlen, ztake. intros ?. apply take_app_le. lia. Qed.

Lemma zdrop_app_le n l d : n ≤ zlen l → zdrop n (l ++ d) = zdrop n l ++ d.
Proof. unfold zlen, zdrop. intros ?. apply drop_app_le. lia. Qed.

Lemma ztake_app_ge n l d : zlen l ≤ n → ztake n (l ++ d) = l ++ ztake (n - zlen l) d.
Proof.
  unfold zlen, ztake. intros ?. rewrite take_app_ge by lia.
  do 2 f_equal. lia.
Qed.

Lemma zdrop_app_ge n l d : zlen l ≤ n → zdrop n (l ++ d) = zdrop (n - zlen l) d.
Proof.
  unfold zlen, zdrop. intros ?. rewrite drop_app_ge by lia. f_equal. lia.
Qed.

Lemma ztake_ztake n m l : ztake n (ztake m l) = ztake (n `min` m) l.
Proof. unfold ztake. rewrite take_take. f_equal. lia. Qed.

Lemma zslice_self i l : zslice i i l = [].
Proof. unfold zslice. by rewrite Z.sub_diag. Qed.

Lemma zslice_app i j k l :
  0 ≤ i ≤ j → j ≤ k → zslice i j l ++ zslice j k l = zslice i k l.
Proof.
  intros ??. unfold zslice.
  replace (zdrop j l) with (zdrop (j - i) (zdrop i l))
    by (rewrite zdrop_zdrop by lia; f_equal; lia).
  rewrite <- (ztake_zdrop (j - i) (ztake (k - i) (zdrop i l))). f_equal.
  - rewrite ztake_ztake. f_equal. lia.
  - unfold ztake, zdrop. rewrite skipn_firstn_comm. f_equal. lia.
Qed.

Lemma ztake_zslice n i j l :
  0 ≤ i → 0 ≤ n → i + n ≤ j → ztake n (zslice i j l) = zslice i (i + n) l.
Proof. intros ???. unfold zslice. rewrite ztake_ztake. f_equal. lia. Qed.

Lemma zdrop_zslice n i j l :
  0 ≤ i → 0 ≤ n → zdrop n (zslice i j l) = zslice (i + n) j l.
Proof.
  intros ??. unfold zslice. rewrite <- zdrop_zdrop, Z.sub_add_distr by lia.
  unfold ztake, zdrop. rewrite skipn_firstn_comm. f_equal. lia.
Qed.

Lemma zslice_app_l i j l d : 0 ≤ i ≤ j → j ≤ zlen l → zslice i j (l ++ d) = zslice i j l.
Proof.
  intros ??. unfold zslice. rewrite zdrop_app_le by lia.
  apply ztake_app_le. rewrite zlen_zdrop by lia. lia.
Qed.

Lemma zslice_all i l : 0 ≤ i ≤ zlen l → zslice i (zlen l) l = zdrop i l.
Proof.
  intros ?. unfold zslice. apply ztake_all. rewrite zlen_zdrop by lia. lia.
Qed.

Lemma zslice_zsplice_before i j k d l :
  0 ≤ i ≤ j → j ≤ k → k ≤ zlen l → zslice i j (zsplice k d l) = zslice i j l.
Proof.
  intros ???. unfold zsplice.
  rewrite zslice_app_l by (rewrite ?zlen_ztake by lia; lia).
  unfold zslice, ztake, zdrop. rewrite skipn_firstn_comm, firstn_firstn.
  f_equal. lia.
Qed.

Lemma zslice_zsplice_same k d l :
  0 ≤ k → k + zlen d ≤ zlen l → zslice k (k + zlen d) (zsplice k d l) = d.
Proof.
  intros ??. pose proof (zlen_nonneg d). unfold zsplice, zslice.
  rewrite zdrop_app_ge; rewrite zlen_ztake by lia; [| lia].
  replace (k - k `min` zlen l) with 0 by lia. rewrite zdrop_0, ztake_app_le by lia.
  apply ztake_all. lia.
Qed.
End zlists.

Create Rewrite HintDb zlen.
#[export] Hint Rewrite @zlen_cons @zlen_app @zlen_replicate : zlen.

(** ** Outcomes

    A computation over a state [W] either returns a value and a new state,
    ends the process ([exit(code)], after [LOG_FATAL]), raises a C++
    exception, or has undefined behaviour.  Nothing follows the last three:
    they propagate through [mbind]. *)

Inductive exn := LengthError | BadFunctionCall.
Inductive ub := OutOfBounds | OverlappingCopy | Dangling | BadUnion | IntOverflow | BadFormat.

Inductive outcome (W A : Type) :=
  | Done (a : A) (w : W)
  | Exit (code : Z) (w : W)
  | Throw (e : exn) (w : W)
  | Undef (u : ub).
Arguments Done {W A} a w.
Arguments Exit {W A} code w.
Arguments Throw {W A} e w.
Arguments Undef {W A} u.

Definition M (W A : Type) : Type := W → outcome W A.

#[export] Instance M_ret W : MRet (M W) := λ A a w, Done a w.
#[export] Instance M_bind W : MBind (M W) := λ A B k m w,
  match m w with
  | Done a w' => k a w'
  | Exit c w' => Exit c w'
  | Throw e w' => Throw e w'
  | Undef u => Undef u
  end.

Section effects.
Context {W : Type}.

Definition get : M W W := λ w, Done w w.
Definition gets {A} (f : W → A) : M W A := λ w, Done (f w) w.
Definition modify (f : W → W) : M W unit := λ w, Done tt (f w).
Definition exit {A} (code : Z) : M W A := λ w, Exit code w.
Definition throw {A} (e : exn) : M W A := λ w, Throw e w.
Definition undef {A} (u : ub) : M W A := λ _, Undef u.
Definition when (b : bool) (m : M W unit) : M W unit :=
  if b then m else mret tt.

(** Dereference: the object the projection finds, undefined behaviour when
    there is none. *)
Definition deref {A} (f : W → option A) : M W A := λ w,
  match f w with Some a => Done a w | None => Undef Dangling end.

Lemma bind_assoc {A B C} (m : M W A) (f : A → M W B) (g : B → M W C) w :
  ((m ≫= f) ≫= g) w = (m ≫= (λ a, f a ≫= g)) w.
Proof. unfold mbind, M_bind. by destruct (m w). Qed.

Lemma bind_ext {A B} (m : M W A) (f g : A → M W B) w :
  (∀ a w', f a w' = g a w') → (m ≫= f) w = (m ≫= g) w.
Proof. intros Hfg. unfold mbind, M_bind. by destruct (m w). Qed.

Lemma bind_done {A B} (m : M W A) (f : A → M W B) w b w' :
  (m ≫= f) w = Done b w' → ∃ a w1, m w = Done a w1 ∧ f a w1 = Done b w'.
Proof. unfold mbind, M_bind. destruct (m w); [eauto | done..]. Qed.

(** Run a list of computations in order. *)
Fixpoint sequence_ (ms : list (M W unit)) : M W unit :=
  match ms with
  | [] => mret tt
  | m :: ms => m;; sequence_ ms
  end.

Lemma sequence_app (ms ms' : list (M W unit)) w :
  sequence_ (ms ++ ms') w = (sequence_ ms;; sequence_ ms') w.
Proof.
  revert w. induction ms as [|m ms IH]; intros w; [done |]. cbn.
  unfold mbind, M_bind in *. destruct (m w); [apply IH | done..].
Qed.

Lemma sequence_one (m : M W unit) w : sequence_ [m] w = m w.
Proof. cbn. unfold mbind, M_bind. by destruct (m w) as [[] ?| | |]. Qed.
End effects.

(** ** Weakest preconditions

    [wp X m Q w]: run from [w], [m] has no undefined behaviour; if it
    returns, it returns a value and a state in [Q]; if it ends the process
    or throws, it does so in [X]. *)

Inductive stop := SExit (code : Z) | SThrow (e : exn).

Definition wp {W A} (X : stop → W → Prop) (m : M W A) (Q : A → W → Prop) (w : W) : Prop :=
  match m w with
  | Done a w' => Q a w'
  | Exit c w' => X (SExit c) w'
  | Throw e w' => X (SThrow e) w'
  | Undef _ => False
  end.

Section wp.
Context {W : Type} (X : stop → W → Prop).
Implicit Types w : W.

Lemma wp_ret {A} (a : A) Q w : Q a w → wp X (mret a) Q w.
Proof. done. Qed.

Lemma wp_bind {A B} (m : M W A) (k : A → M W B) Q w :
  wp X m (λ a, wp X (k a) Q) w → wp X (m ≫= k) Q w.
Proof. unfold wp, mbind, M_bind. by destruct (m w). Qed.

Lemma wp_mono {A} (m : M W A) (Q Q' : A → W → Prop) w :
  wp X m Q w → (∀ a w', Q a w' → Q' a w') → wp X m Q' w.
Proof. unfold wp. destruct (m w); eauto. Qed.

Lemma wp_and {A} (m : M W A) (Q Q' : A → W → Prop) w :
  wp X m Q w → wp X m Q' w → wp X m (λ a w', Q a w' ∧ Q' a w') w.
Proof. unfold wp. destruct (m w); auto. Qed.

Lemma wp_eq {A} (m m' : M W A) Q w : m w = m' w → wp X m' Q w → wp X m Q w.
Proof. unfold wp. by intros ->. Qed.

Lemma wp_run {A} (m : M W A) (Q : A → W → Prop) w :
  wp X m (λ a w', m w = Done a w' → Q a w') w → wp X m Q w.
Proof. unfold wp. destruct (m w); auto. Qed.

Lemma wp_get Q w : Q w w → wp X get Q w.
Proof. done. Qed.

Lemma wp_gets {A} (f : W → A) Q w : Q (f w) w → wp X (gets f) Q w.
Proof. done. Qed.

Lemma wp_modify f Q w : Q tt (f w) → wp X (modify f) Q w.
Proof. done. Qed.

Lemma wp_exit {A} c (Q : A → W → Prop) w : X (SExit c) w → wp X (exit c) Q w.
Proof. done. Qed.

Lemma wp_throw {A} e (Q : A → W → Prop) w : X (SThrow e) w → wp X (throw e) Q w.
Proof. done. Qed.

Lemma wp_weaken {A} (X' : stop → W → Prop) (m : M W A) Q w :
  wp X' m Q w → (∀ s w', X' s w' → X s w') → wp X m Q w.
Proof. unfold wp. destruct (m w); eauto. Qed.

Lemma wp_deref {A} (f : W → option A) Q w a :
  f w = Some a → Q a w → wp X (deref f) Q w.
Proof. unfold wp, deref. by intros ->. Qed.

Lemma wp_when b m Q w :
  (b = true → wp X m Q w) → (b = false → Q tt w) → wp X (when b m) Q w.
Proof. destruct b; cbn; auto. Qed.

Lemma wp_if {A} (b : bool) (m1 m2 : M W A) Q w :
  (b = true → wp X m1 Q w) → (b = false → wp X m2 Q w) →
  wp X (if b then m1 else m2) Q w.
Proof. destruct b; auto. Qed.
End wp.

(** The stop condition of code that always returns. *)
Definition no_exit {W} : stop → W → Prop := λ _ _, False.

Lemma wp_done {W A} (m : M W A) Q w :
  wp no_exit m Q w → ∃ a w', m w = Done a w' ∧ Q a w'.
Proof. unfold wp, no_exit. destruct (m w); [eauto | done..]. Qed.

(** [wp_step] runs the next primitive of the computation in the goal;
    [wp_prim] is extended with the primitives of the program's state. *)
Ltac wp_prim := fail.
Ltac wp_step :=
  lazymatch goal with
  | |- wp _ (mbind _ _) _ _ => apply wp_bind
  | |- wp _ (mret _) _ _ => apply wp_ret
  | |- wp _ get _ _ => apply wp_get
  | |- wp _ (gets _) _ _ => apply wp_gets
  | |- wp _ (modify _) _ _ => apply wp_modify
  | |- wp _ (deref _) _ _ => eapply wp_deref; [eassumption |]
  | |- wp _ (when _ _) _ _ => apply wp_when; intros ?
  | |- wp _ (if _ then _ else _) _ _ => apply wp_if; intros ?
  | |- wp _ _ _ _ => wp_prim
  end; cbn beta.
Ltac wp_steps := repeat wp_step.

(** [bool_simpl] turns the boolean tests of the context into propositions. *)
Ltac bool_simpl :=
  repeat match goal with
  | H : (_ <? _) = true |- _ => apply Z.ltb_lt in H
  | H : (_ <? _) = false |- _ => apply Z.ltb_ge in H
  | H : (_ <=? _) = true |- _ => apply Z.leb_le in H
  | H : (_ <=? _) = false |- _ => apply Z.leb_gt in H
  | H : (_ =? _) = true |- _ => apply Z.eqb_eq in H
  | H : (_ =? _) = false |- _ => apply Z.eqb_neq in H
  | H : bool_decide _ = true |- _ => apply bool_decide_eq_true in H
  | H : bool_decide _ = false |- _ => apply bool_decide_eq_false in H
  | H : negb _ = true |- _ => apply negb_true_iff in H
  | H : negb _ = false |- _ => apply negb_false_iff in H
  | H : _ && _ = true |- _ => apply andb_true_iff in H as [? ?]
  | H : _ || _ = false |- _ => apply orb_false_iff in H as [? ?]
  end.
