(* ===== verification/Format.v ===== *)
(** * Formats of [printf] and [snprintf]

    The sources print with format strings.  A call whose arguments do not fit
    its format is undefined behaviour of the C library; [fmt_ok] is the test,
    and every print in the model asks for it.  [render] is the text printed;
    what [%p] prints is up to the C library, and a parameter. *)

From S2P Require Import Prelude.
From Stdlib Require Import Ascii DecimalString.

(** ** Numbers *)

(** [%d] or [%u] of a non-negative number; [%d]. *)
Definition decimal (n : Z) : string := NilZero.string_of_uint (N.to_uint (Z.to_N n)).
Definition decimal_int (n : Z) : string :=
  if n <? 0 then "-" +:+ decimal (- n) else decimal n.

(** [snprintf(buf, size, ...)] keeps at most [size - 1] characters. *)
Definition snprintf (size : nat) (s : string) : string := String.substring 0 (size - 1) s.

(** ** Format strings *)

(** The arguments: [int], [long] or [size_t], a pointer, a C string. *)
Inductive arg := AInt (z : Z) | ALong (z : Z) | APtr (p : nat) | AStr (s : string).

Inductive piece := Lit (c : ascii) | ConvD | ConvLU | ConvP | ConvS.

(** The conversions the sources use; no other is defined here. *)
Fixpoint parse (fmt : string) : option (list piece) :=
  match fmt with
  | EmptyString => Some []
  | String "%" (String "d" rest) => cons ConvD <$> parse rest
  | String "%" (String "p" rest) => cons ConvP <$> parse rest
  | String "%" (String "s" rest) => cons ConvS <$> parse rest
  | String "%" (String "l" (String "u" rest)) => cons ConvLU <$> parse rest
  | String "%" _ => None
  | String c rest => cons (Lit c) <$> parse rest
  end.

(** The pieces find the arguments they ask for, in order. *)
Fixpoint fits (ps : list piece) (args : list arg) : bool :=
  match ps, args with
  | [], [] => true
  | Lit _ :: ps, _ => fits ps args
  | ConvD :: ps, AInt _ :: args | ConvLU :: ps, ALong _ :: args
  | ConvP :: ps, APtr _ :: args | ConvS :: ps, AStr _ :: args => fits ps args
  | _, _ => false
  end.

Definition fmt_ok (fmt : string) (args : list arg) : bool :=
  match parse fmt with Some ps => fits ps args | None => false end.

(** ** The text *)

Section render.
Context (show_ptr : nat → string).

Definition show_arg (a : arg) : string :=
  match a with AInt z => decimal_int z | ALong z => decimal z | APtr p => show_ptr p | AStr s => s end.

Fixpoint render_pieces (ps : list piece) (args : list arg) : string :=
  match ps, args with
  | [], _ => ""
  | Lit c :: ps, _ => String c (render_pieces ps args)
  | _ :: ps, a :: args => show_arg a +:+ render_pieces ps args
  | _ :: _, [] => ""
  end.

Definition render (fmt : string) (args : list arg) : string :=
  match parse fmt with Some ps => render_pieces ps args | None => "" end.
End render.
