(* ===== verification/Kernel.v ===== *)
(** * The operating system, as a parameter

    The program runs on Linux system calls, which are not part of the
    sources.  [Kernel E] is the interface the model is parametric in: [E] is
    the state of everything outside the program, and each call maps its
    arguments and [E] to what it returns and the new [E].  A call's return
    value and the [errno] it leaves are both results, so that the code's own
    tests on them ([n < 0], [errno == EPIPE], ...) are translated as they
    are written; [log_errno] is what the output of a log line, by the C++
    library, makes of [errno] where the code looks at it again.

    [kobs] is what the program can rely on knowing about the kernel: the
    epoll interest lists, the bytes a descriptor has accepted and delivered,
    the write sides that are shut down, and the open descriptors.
    [KernelLaws] states the documented effect of each call on it. *)

From S2P Require Import Prelude.

(** ** Constants of [<sys/epoll.h>] and [<errno.h>] *)

Definition EPOLLIN : Z := 1.
Definition EPOLLPRI : Z := 2.
Definition EPOLLOUT : Z := 4.
Definition EPOLLERR : Z := 8.
Definition EPOLLHUP : Z := 16.

Definition EINTR : Z := 4.
Definition EWOULDBLOCK : Z := 11.
Definition EMFILE : Z := 24.
Definition EPIPE : Z := 32.
Definition ECONNRESET : Z := 104.

Inductive epoll_op := EPOLL_CTL_ADD | EPOLL_CTL_MOD | EPOLL_CTL_DEL.
#[export] Instance epoll_op_eq_dec : EqDecision epoll_op.
Proof. solve_decision. Defined.

(** [epoll_event.data] is a union; the code stores first [fd] and then
    [ptr] in it, the address of a [Channel]. *)
Inductive epoll_data := DataFd (fd : Z) | DataPtr (ptr : nat).
Record epoll_event := mk_event { ev_events : Z; ev_data : epoll_data }.

(** ** What is observed of the kernel *)

Record kobs := mk_kobs {
  k_interest : gmap Z (gmap Z epoll_event);  (* epoll fd ↦ (fd ↦ event) *)
  k_out : gmap Z (list byte);                (* bytes accepted by write(2) *)
  k_in : gmap Z (list byte);                 (* bytes delivered by readv(2) *)
  k_shut : gset Z;                           (* write side shut down *)
  k_open : gset Z;                           (* open descriptors *)
}.
#[global] Instance eta_kobs : Eta kobs := λ o,
  mk_kobs (k_interest o) (k_out o) (k_in o) (k_shut o) (k_open o).

Definition interest (o : kobs) (ep : Z) : gmap Z epoll_event :=
  default ∅ (k_interest o !! ep).
Definition out_stream (o : kobs) (fd : Z) : list byte := default [] (k_out o !! fd).
Definition in_stream (o : kobs) (fd : Z) : list byte := default [] (k_in o !! fd).

Definition add_out (fd : Z) (d : list byte) (o : kobs) : kobs :=
  o <| k_out ::= <[fd := out_stream o fd ++ d]> |>.
Definition add_in (fd : Z) (d : list byte) (o : kobs) : kobs :=
  o <| k_in ::= <[fd := in_stream o fd ++ d]> |>.
Definition set_interest (ep : Z) (m : gmap Z epoll_event) (o : kobs) : kobs :=
  o <| k_interest ::= <[ep := m]> |>.
Definition open_fd (fd : Z) (o : kobs) : kobs :=
  o <| k_open ::= λ s, {[fd]} ∪ s |> <| k_out ::= <[fd := []]> |>
    <| k_in ::= <[fd := []]> |> <| k_shut ::= λ s, s ∖ {[fd]} |>
    <| k_interest ::= delete fd |>.
Definition shut_fd (fd : Z) (o : kobs) : kobs :=
  o <| k_shut ::= λ s, {[fd]} ∪ s |>.
Definition close_fd (fd : Z) (o : kobs) : kobs :=
  o <| k_open ::= λ s, s ∖ {[fd]} |> <| k_interest ::= fmap (delete fd) |>.

(** An IPv4 socket address; the port and the address are in network byte
    order. *)
Record sockaddr_in := mk_sockaddr { sin_family : Z; sin_port : Z; sin_addr : Z }.

(** ** The system calls *)

Class Kernel (E : Type) := {
  observe : E → kobs;
  (** [write(fd, data, zlen data)]: return value, [errno]. *)
  sys_write : Z → list byte → E → Z * Z * E;
  (** [readv(fd, iov, n)] into buffers of the given lengths: return value,
      [errno], the bytes stored, in order, in the buffers. *)
  sys_readv : Z → list Z → E → Z * Z * list byte * E;
  (** [read(fd, &x, n)] into a variable of [n] bytes. *)
  sys_read : Z → Z → E → Z * Z * E;
  sys_epoll_ctl : Z → epoll_op → Z → epoll_event → E → Z * Z * E;
  (** [epoll_wait(ep, events, maxevents, timeout)] *)
  sys_epoll_wait : Z → Z → Z → E → Z * Z * list epoll_event * E;
  sys_shutdown_wr : Z → E → Z * Z * E;
  (** [getsockopt(fd, SOL_SOCKET, SO_ERROR)]: value of the option. *)
  sys_so_error : Z → E → Z * Z * Z * E;
  sys_close : Z → E → E;
  (** [time(NULL)]: seconds since the Epoch. *)
  sys_time : E → Z * E;
  (** The calls that make a descriptor: return value, [errno]. *)
  sys_eventfd : E → Z * Z * E;
  sys_epoll_create1 : E → Z * Z * E;
  sys_socket : E → Z * Z * E;
  (** [accept4(fd, &addr, ...)]: also the address of the peer. *)
  sys_accept4 : Z → E → Z * Z * sockaddr_in * E;
  sys_bind : Z → sockaddr_in → E → Z * Z * E;
  sys_listen : Z → Z → E → Z * Z * E;
  sys_getsockname : Z → E → Z * Z * sockaddr_in * E;
  (** [setsockopt(fd, level, name, &value, sizeof(int))] *)
  sys_setsockopt : Z → Z → Z → Z → E → Z * Z * E;
  (** Not a call of its own: what the writing of a log line leaves in
      [errno], which held the given value before. *)
  log_errno : Z → E → Z * E;
}.

(** The scatter of [readv]: the bytes that go to the first buffer, of length
    [n], and those that go to the next one. *)
Definition scatter (n : Z) (d : list byte) : list byte * list byte :=
  (ztake n d, zdrop n d).

(** What a call that makes a descriptor does: it fails, or returns one that
    was not open. *)
Definition opens (o : kobs) (fd : Z) (o' : kobs) : Prop :=
  (fd = -1 ∧ o' = o) ∨ (0 ≤ fd ∧ (fd ∉ k_open o) ∧ o' = open_fd fd o).

(** ** Documented behaviour *)

Class KernelLaws (E : Type) `{Kernel E} : Prop := {
  write_law fd d e n err e' :
    sys_write fd d e = (n, err, e') →
    (n = -1 ∧ observe e' = observe e) ∨
    (0 ≤ n ≤ zlen d ∧ observe e' = add_out fd (ztake n d) (observe e));
  readv_law fd iov e n err d e' :
    sys_readv fd iov e = (n, err, d, e') →
    (n = -1 ∧ d = [] ∧ observe e' = observe e) ∨
    (0 ≤ n ∧ n = zlen d ∧ n ≤ foldr Z.add 0 iov ∧
     observe e' = add_in fd d (observe e));
  read_law fd k e n err e' :
    sys_read fd k e = (n, err, e') → observe e' = observe e;
  (** [EPOLL_CTL_ADD] fails on what is not an open epoll descriptor ([EBADF])
      and for a registered descriptor ([EEXIST]); another one it registers,
      or fails for want of resources. *)
  epoll_add_law ep fd ev e n err e' :
    sys_epoll_ctl ep EPOLL_CTL_ADD fd ev e = (n, err, e') →
    (n = -1 ∧ observe e' = observe e) ∨
    (n = 0 ∧ ep ∈ k_open (observe e) ∧ interest (observe e) ep !! fd = None ∧
     observe e' = set_interest ep (<[fd := ev]> (interest (observe e) ep)) (observe e));
  epoll_mod_law ep fd ev e n err e' :
    sys_epoll_ctl ep EPOLL_CTL_MOD fd ev e = (n, err, e') →
    (n = -1 ∧ observe e' = observe e) ∨
    (n = 0 ∧ is_Some (interest (observe e) ep !! fd) ∧
     observe e' = set_interest ep (<[fd := ev]> (interest (observe e) ep)) (observe e));
  (** [EPOLL_CTL_DEL] of a registered descriptor of an open epoll descriptor
      succeeds; otherwise it fails ([ENOENT], [EBADF]). *)
  epoll_del_law ep fd ev e n err e' :
    sys_epoll_ctl ep EPOLL_CTL_DEL fd ev e = (n, err, e') →
    (n = -1 ∧ (ep ∈ k_open (observe e) → interest (observe e) ep !! fd = None) ∧
     observe e' = observe e) ∨
    (n = 0 ∧ is_Some (interest (observe e) ep !! fd) ∧
     observe e' = set_interest ep (delete fd (interest (observe e) ep)) (observe e));
  (** [epoll_wait] returns at most [maxevents] entries of the interest list,
      for distinct descriptors, each with some of the events asked for, or
      [EPOLLERR] or [EPOLLHUP]. *)
  epoll_wait_law ep max t e n err evs e' :
    sys_epoll_wait ep max t e = (n, err, evs, e') →
    observe e' = observe e ∧
    ((n = -1 ∧ evs = []) ∨
     (0 ≤ n ≤ max ∧ n = zlen evs ∧
      ∃ fds, NoDup fds ∧ Forall2 (λ ev fd, ∃ reg,
        interest (observe e) ep !! fd = Some reg ∧
        ev_data ev = ev_data reg ∧ 0 ≤ ev_events ev < 2 ^ 31 ∧
        Z.land (ev_events ev)
          (Z.lnot (Z.lor (ev_events reg) (Z.lor EPOLLERR EPOLLHUP))) = 0)
        evs fds));
  shutdown_law fd e n err e' :
    sys_shutdown_wr fd e = (n, err, e') →
    (n = -1 ∧ observe e' = observe e) ∨
    (n = 0 ∧ observe e' = shut_fd fd (observe e));
  so_error_law fd e n err v e' :
    sys_so_error fd e = (n, err, v, e') → observe e' = observe e;
  close_law fd e : observe (sys_close fd e) = close_fd fd (observe e);
  time_law e t e' : sys_time e = (t, e') → observe e' = observe e;
  eventfd_law e fd err e' :
    sys_eventfd e = (fd, err, e') → opens (observe e) fd (observe e');
  epoll_create1_law e fd err e' :
    sys_epoll_create1 e = (fd, err, e') → opens (observe e) fd (observe e');
  socket_law e fd err e' :
    sys_socket e = (fd, err, e') → opens (observe e) fd (observe e');
  accept4_law lfd e fd err a e' :
    sys_accept4 lfd e = (fd, err, a, e') → opens (observe e) fd (observe e');
  bind_law fd a e n err e' : sys_bind fd a e = (n, err, e') → observe e' = observe e;
  listen_law fd k e n err e' : sys_listen fd k e = (n, err, e') → observe e' = observe e;
  getsockname_law fd e n err a e' :
    sys_getsockname fd e = (n, err, a, e') → observe e' = observe e;
  setsockopt_law fd l o v e n err e' :
    sys_setsockopt fd l o v e = (n, err, e') → observe e' = observe e;
  log_errno_law err e err' e' : log_errno err e = (err', e') → observe e' = observe e;
}.
