(* ===== verification/SimKernel.v ===== *)
(** * A concrete kernel

    A scripted kernel that satisfies [KernelLaws]: it keeps the observed
    state itself, and takes from scripts how much each [write] accepts, what
    each [readv] delivers, and what each [epoll_wait] reports.  The theorems
    on the program are proved for every lawful kernel; this one shows that
    the laws can hold and runs the program in the witnesses. *)

From S2P Require Import Prelude Kernel.

Record sim := mk_sim {
  sim_obs : kobs;
  sim_writes : list Z;              (* bytes the next writes accept; negative: -errno *)
  sim_reads : list (Z + list byte); (* errno, or the data delivered *)
  sim_polls : list (gmap Z Z);      (* fd ↦ events *)
}.
#[global] Instance eta_sim : Eta sim := λ s,
  mk_sim (sim_obs s) (sim_writes s) (sim_reads s) (sim_polls s).

Definition empty_obs : kobs := mk_kobs ∅ ∅ ∅ ∅ ∅.
Definition sim_init : sim := mk_sim empty_obs [] [] [].

(** The next entry of a script, [a] once it is used up. *)
Definition pop {A} (a : A) (l : list A) : A * list A :=
  match l with [] => (a, []) | x :: l' => (x, l') end.

Definition sim_write (fd : Z) (d : list byte) (s : sim) : Z * Z * sim :=
  let '(k, ks) := pop (zlen d) (sim_writes s) in
  let s := s <| sim_writes := ks |> in
  if k <? 0 then (-1, - k, s)
  else let n := k `min` zlen d in (n, 0, s <| sim_obs ::= add_out fd (ztake n d) |>).

Definition sim_readv (fd : Z) (iov : list Z) (s : sim) : Z * Z * list byte * sim :=
  let '(r, rs) := pop (inr []) (sim_reads s) in
  let s := s <| sim_reads := rs |> in
  let room := foldr Z.add 0 iov in
  match r with
  | inl err => (-1, err, [], s)
  | inr d =>
      if room <? 0 then (-1, 22, [], s)
      else let d := ztake room d in
           (zlen d, 0, d, s <| sim_obs ::= add_in fd d |>)
  end.

Definition sim_read (fd k : Z) (s : sim) : Z * Z * sim := (k, 0, s).

Definition sim_epoll_ctl (ep : Z) (op : epoll_op) (fd : Z) (ev : epoll_event) (s : sim)
    : Z * Z * sim :=
  let m := interest (sim_obs s) ep in
  if negb (bool_decide (ep ∈ k_open (sim_obs s))) then (-1, 9, s) else
  match op, m !! fd with
  | EPOLL_CTL_ADD, Some _ => (-1, 17, s)
  | EPOLL_CTL_ADD, None | EPOLL_CTL_MOD, Some _ =>
      (0, 0, s <| sim_obs ::= set_interest ep (<[fd := ev]> m) |>)
  | EPOLL_CTL_DEL, Some _ => (0, 0, s <| sim_obs ::= set_interest ep (delete fd m) |>)
  | EPOLL_CTL_MOD, None | EPOLL_CTL_DEL, None => (-1, 2, s)
  end.

Definition sim_report (want : Z) (reg : epoll_event) : epoll_event :=
  mk_event (Z.land (want mod 2 ^ 31) (Z.lor (ev_events reg) (Z.lor EPOLLERR EPOLLHUP)))
    (ev_data reg).

Definition sim_epoll_wait (ep max t : Z) (s : sim) : Z * Z * list epoll_event * sim :=
  let '(p, ps) := pop ∅ (sim_polls s) in
  let s := s <| sim_polls := ps |> in
  if max <=? 0 then (-1, 22, [], s)
  else
    let evs := ztake max (map_to_list (map_zip_with sim_report p (interest (sim_obs s) ep))) in
    (zlen evs, 0, evs.*2, s).

Definition sim_shutdown (fd : Z) (s : sim) : Z * Z * sim :=
  (0, 0, s <| sim_obs ::= shut_fd fd |>).

(** The descriptor the next call that makes one returns. *)
Definition sim_fd (s : sim) : Z :=
  Z.of_N (fresh (Z.to_N <$> elements (k_open (sim_obs s)))).

Definition sim_open (s : sim) : Z * Z * sim :=
  (sim_fd s, 0, s <| sim_obs ::= open_fd (sim_fd s) |>).

(** 127.0.0.1:40000 *)
Definition sim_addr : sockaddr_in := mk_sockaddr 2 16540 16777343.

#[export] Instance sim_kernel : Kernel sim := {|
  observe := sim_obs;
  sys_write := sim_write;
  sys_readv := sim_readv;
  sys_read := sim_read;
  sys_epoll_ctl := sim_epoll_ctl;
  sys_epoll_wait := sim_epoll_wait;
  sys_shutdown_wr := sim_shutdown;
  sys_so_error := λ fd s, (0, 0, 0, s);
  sys_close := λ fd s, s <| sim_obs ::= close_fd fd |>;
  sys_time := λ s, (1700000000, s);
  sys_eventfd := sim_open;
  sys_epoll_create1 := sim_open;
  sys_socket := sim_open;
  sys_accept4 := λ _ s, let '(fd, err, s) := sim_open s in (fd, err, sim_addr, s);
  sys_bind := λ _ _ s, (0, 0, s);
  sys_listen := λ _ _ s, (0, 0, s);
  sys_getsockname := λ _ s, (0, 0, sim_addr, s);
  sys_setsockopt := λ _ _ _ _ s, (0, 0, s);
  log_errno := λ err s, (err, s);
|}.

Lemma sim_fd_fresh s : 0 ≤ sim_fd s ∧ sim_fd s ∉ k_open (sim_obs s).
Proof.
  unfold sim_fd. split; [lia |]. rewrite <- elem_of_elements.
  intros Hin%(list_elem_of_fmap_2 Z.to_N). rewrite N2Z.id in Hin.
  by eapply infinite_is_fresh.
Qed.

Lemma sim_open_opens s fd err s' :
  sim_open s = (fd, err, s') → opens (sim_obs s) fd (sim_obs s').
Proof. intros [= <- <- <-]. right. by destruct (sim_fd_fresh s). Qed.


Lemma sim_report_allowed want reg :
  0 ≤ ev_events (sim_report want reg) < 2 ^ 31 ∧
  Z.land (ev_events (sim_report want reg))
    (Z.lnot (Z.lor (ev_events reg) (Z.lor EPOLLERR EPOLLHUP))) = 0.
Proof.
  cbn [sim_report ev_events]. set (m := Z.lor _ _).
  pose proof (Z.mod_pos_bound want (2 ^ 31) ltac:(lia)) as Hb.
  set (w := want mod 2 ^ 31) in *. split; [split |].
  - apply Z.land_nonneg. lia.
  - replace (Z.land w m) with (Z.land (Z.land w m) (Z.ones 31)).
    + rewrite Z.land_ones by lia. apply Z.mod_pos_bound. lia.
    + rewrite <- Z.land_assoc, (Z.land_comm m), Z.land_assoc. f_equal.
      rewrite Z.land_ones by lia. by apply Z.mod_small.
  - by rewrite <- Z.land_assoc, Z.land_lnot_diag, Z.land_0_r.
Qed.

Lemma sim_epoll_wait_forall (p : gmap Z Z) (m : gmap Z epoll_event) max :
  let l := ztake max (map_to_list (map_zip_with sim_report p m)) in
  NoDup l.*1 ∧
  Forall2 (λ ev fd, ∃ reg, m !! fd = Some reg ∧ ev_data ev = ev_data reg ∧
    0 ≤ ev_events ev < 2 ^ 31 ∧
    Z.land (ev_events ev) (Z.lnot (Z.lor (ev_events reg) (Z.lor EPOLLERR EPOLLHUP))) = 0)
    l.*2 l.*1.
Proof.
  intros l. split.
  - subst l. unfold ztake. rewrite fmap_take.
    eapply sublist_NoDup; [apply (NoDup_fst_map_to_list (map_zip_with sim_report p m)) | apply sublist_take].
  - rewrite Forall2_fmap_l, Forall2_fmap_r. apply Forall_Forall2_diag, Forall_forall.
    intros [fd ev] Hin; cbn [fst snd]. apply elem_of_take in Hin.
    destruct Hin as (i & Hi%list_elem_of_lookup_2 & _).
    apply elem_of_map_to_list in Hi. rewrite map_lookup_zip_with in Hi.
    destruct (p !! fd) as [want|]; [| done]. cbn in Hi.
    destruct (m !! fd) as [reg|] eqn:Hm; [| done]. cbn in Hi. injection Hi as <-.
    exists reg. cbn [fst snd]. split; [done | split; [done | apply sim_report_allowed]].
Qed.

#[export] Instance sim_laws : KernelLaws sim.
Proof.
  split; cbn [observe sys_write sys_readv sys_read sys_epoll_ctl sys_epoll_wait
    sys_shutdown_wr sys_so_error sys_close sys_time sys_eventfd sys_epoll_create1
    sys_socket sys_accept4 sys_bind sys_listen sys_getsockname sys_setsockopt log_errno sim_kernel].
  - intros fd d e n err e'. unfold sim_write. destruct (pop _ _) as [k ks].
    pose proof (zlen_nonneg d). destruct (Z.ltb_spec k 0); intros [= <- <- <-]; [by left |].
    right. split; [lia | done].
  - intros fd iov e n err d e'. unfold sim_readv.
    destruct (pop _ _) as [[z|l] rs]; [intros [= <- <- <- <-]; by left |].
    destruct (Z.ltb_spec (foldr Z.add 0 iov) 0); intros [= <- <- <- <-]; [by left |].
    right. pose proof (zlen_nonneg l). rewrite zlen_ztake by lia. split_and!; try done; lia.
  - intros fd k e n err e' [= <- <- <-]. done.
  - intros ep fd ev e n err e'. unfold sim_epoll_ctl.
    destruct (decide (ep ∈ k_open (sim_obs e))) as [Hep|Hep];
      [rewrite bool_decide_true by done | rewrite bool_decide_false by done];
      cbn [negb]; [| by intros [= <- <- <-]; left].
    destruct (_ !! _) eqn:Hl; intros [= <- <- <-]; [by left | right]. done.
  - intros ep fd ev e n err e'. unfold sim_epoll_ctl.
    destruct (negb _); [by intros [= <- <- <-]; left |].
    destruct (_ !! _) eqn:Hl; intros [= <- <- <-]; [right | by left]. done.
  - intros ep fd ev e n err e'. unfold sim_epoll_ctl.
    destruct (decide (ep ∈ k_open (sim_obs e))) as [Hep|Hep];
      [rewrite bool_decide_true by done | rewrite bool_decide_false by done];
      cbn [negb]; [| by intros [= <- <- <-]; left].
    destruct (_ !! _) eqn:Hl; intros [= <- <- <-]; [right | left]; done.
  - intros ep max t e n err evs e'. unfold sim_epoll_wait.
    destruct (pop _ _) as [p ps].
    destruct (Z.leb_spec max 0); intros [= <- <- <- <-]; (split; [done |]); [by left | right].
    destruct (sim_epoll_wait_forall p (interest (sim_obs e) ep) max) as [Hnd Hall].
    rewrite zlen_ztake by lia. split; [pose proof (zlen_nonneg (map_to_list (map_zip_with sim_report p (interest (sim_obs e) ep)))); cbn; lia |].
    split; [| by eexists].
    unfold zlen. rewrite length_fmap. fold (zlen (ztake max (map_to_list
      (map_zip_with sim_report p (interest (sim_obs e) ep))))).
    by rewrite zlen_ztake by lia.
  - intros fd e n err e' [= <- <- <-]. by right.
  - intros fd e n err v e' [= <- <- <- <-]. done.
  - done.
  - intros e t e' [= <- <-]. done.
  - intros e fd err e'. apply sim_open_opens.
  - intros e fd err e'. apply sim_open_opens.
  - intros e fd err e'. apply sim_open_opens.
  - intros lfd e fd err a e'. destruct (sim_open e) as [[fd1 err1] s1] eqn:Ho.
    intros [= <- <- <- <-]. by eapply sim_open_opens.
  - by intros fd a e n err e' [= <- <- <-].
  - by intros fd k e n err e' [= <- <- <-].
  - by intros fd e n err a e' [= <- <- <- <-].
  - by intros fd l o v e n err e' [= <- <- <-].
  - by intros err e err' e' [= <- <-].
Qed.
