(* ===== verification/Buffer.v ===== *)
(** * Buffer ([buffer.hpp], [buffer.cpp])

    The byte buffer of a connection: a vector and two indices into it.  A
    method is a computation over the buffer it is called on; a [const]
    method that reads no storage is a function of the buffer.  A pointer
    into the storage is its offset from [Begin()].  Reading or writing
    outside the vector is undefined behaviour, and [resize] beyond
    [max_size()] raises [std::length_error]; allocation itself does not
    fail.

    The specification is a queue of bytes: [content] is the abstraction
    function, [wf] the class invariant of the picture in [buffer.hpp]. *)

From S2P Require Import Prelude Kernel.

Module Buffer.

(** ** State *)

Record t := mk {
  buffer_ : list byte;
  reader_index_ : Z;
  writer_index_ : Z;
}.
#[global] Instance eta_t : Eta t := λ b,
  mk (buffer_ b) (reader_index_ b) (writer_index_ b).

Definition kCheapPrepend : Z := 8.
Definition kInitialSize : Z := 1024.
Definition kCRLF : list byte := [x0d; x0a].

(** ** The standard library on the storage *)

(** [std::vector<char>(n)]. *)
Definition vector_of_size (n : Z) : list byte := replicate (Z.to_nat n) x00.

(** [buffer_.resize(n)]. *)
Definition vector_resize (n : Z) : M t unit :=
  if vec_max_size <? n then throw LengthError
  else modify (λ b, b <| buffer_ ::= λ l, ztake n l ++ vector_of_size (n - zlen l) |>).

(** The element-by-element assignments of [std::copy], first to last. *)
Fixpoint copy_forward (n src dst : nat) (l : list byte) : list byte :=
  match n with
  | O => l
  | S n' =>
      copy_forward n' (S src) (S dst)
        match l !! src with Some x => <[dst := x]> l | None => l end
  end.

(** [std::copy(Begin() + first, Begin() + last, Begin() + dest)]. *)
Definition std_copy (first last dest : Z) : M t unit :=
  b ← get;
  let size := zlen (buffer_ b) in
  if (first <=? dest) && (dest <? last) then undef OverlappingCopy
  else if (first <=? last) && (last <=? size) && (dest + (last - first) <=? size) then
    modify (λ b, b <| buffer_ ::=
      copy_forward (Z.to_nat (last - first)) (Z.to_nat first) (Z.to_nat dest) |>)
  else undef OutOfBounds.

(** Copy of bytes from outside into the storage at [Begin() + off]. *)
Definition store (off : Z) (d : list byte) : M t unit :=
  b ← get;
  if off + zlen d <=? zlen (buffer_ b)
  then modify (λ b, b <| buffer_ ::= zsplice off d |>)
  else undef OutOfBounds.

(** The range [[off, off + len)] of the storage, as [std::string] reads it. *)
Definition load (off len : Z) : M t (list byte) :=
  b ← get;
  if (0 <=? len) && (off + len <=? zlen (buffer_ b))
  then mret (zslice off (off + len) (buffer_ b))
  else undef OutOfBounds.

(** [strlen] of the memory [s] points to. *)
Fixpoint strlen (s : list byte) : option Z :=
  match s with
  | [] => None
  | c :: s' => if decide (c = x00) then Some 0 else Z.succ <$> strlen s'
  end.

(** [std::search]: position of the first occurrence of [pat] in [l], the
    length of [l] when there is none. *)
Fixpoint std_search (pat l : list byte) : Z :=
  if decide (pat `prefix_of` l) then 0
  else match l with [] => 0 | _ :: l' => 1 + std_search pat l' end.

(** ** Operations *)

Definition ctor (initial_size : Z) : t :=
  mk (vector_of_size (u64 (kCheapPrepend + initial_size))) kCheapPrepend kCheapPrepend.

Definition ReadableBytes (b : t) : Z := u64 (writer_index_ b - reader_index_ b).
Definition WritableBytes (b : t) : Z := u64 (zlen (buffer_ b) - writer_index_ b).
Definition PrependableBytes (b : t) : Z := reader_index_ b.

Definition Peek (b : t) : Z := reader_index_ b.
Definition BeginWrite (b : t) : Z := writer_index_ b.

Definition RetrieveAll : M t unit :=
  modify (λ b, b <| reader_index_ := kCheapPrepend |> <| writer_index_ := kCheapPrepend |>).

Definition Retrieve (len : Z) : M t unit :=
  b ← get;
  if len <? ReadableBytes b
  then modify (λ b, b <| reader_index_ ::= λ r, u64 (r + len) |>)
  else RetrieveAll.

Definition RetrieveUntil (end_ : Z) : M t unit :=
  b ← get; Retrieve (u64 (end_ - Peek b)).

Definition RetrieveAsString (len : Z) : M t (list byte) :=
  b ← get;
  result ← load (Peek b) len;
  Retrieve len;;
  mret result.

Definition RetrieveAllAsString : M t (list byte) :=
  b ← get; RetrieveAsString (ReadableBytes b).

Definition MakeSpace (len : Z) : M t unit :=
  b ← get;
  if u64 (u64 (PrependableBytes b + WritableBytes b) - kCheapPrepend) <? len
  then vector_resize (u64 (writer_index_ b + len))
  else
    let readable_bytes := ReadableBytes b in
    std_copy (reader_index_ b) (writer_index_ b) kCheapPrepend;;
    modify (λ b, b <| reader_index_ := kCheapPrepend |>);;
    modify (λ b, b <| writer_index_ := u64 (reader_index_ b + readable_bytes) |>).

Definition EnsureWritableBytes (len : Z) : M t unit :=
  b ← get; when (WritableBytes b <? len) (MakeSpace len).

(** [data] is the memory the pointer gives access to. *)
Definition Append (data : list byte) (len : Z) : M t unit :=
  EnsureWritableBytes len;;
  (if len <=? zlen data then mret tt else undef OutOfBounds);;
  b ← get;
  store (BeginWrite b) (ztake len data);;
  modify (λ b, b <| writer_index_ ::= λ i, u64 (i + len) |>).

Definition Append_cstr (data : list byte) : M t unit :=
  match strlen data with
  | None => undef OutOfBounds
  | Some len => Append data len
  end.

Definition ToString : M t (list byte) :=
  b ← get; load (Peek b) (ReadableBytes b).

(** [None] is the null pointer. *)
Definition FindCRLF : M t (option Z) :=
  b ← get;
  range ← load (Peek b) (BeginWrite b - Peek b);
  let crlf := Peek b + std_search kCRLF range in
  mret (if crlf =? BeginWrite b then None else Some crlf).

(** ** System calls on a buffer *)

Definition kExtraBuf : Z := 65536.

Section io.
Context {E : Type} `{Kernel E}.

(** Returns [n], the value left in [*saved_errno], and the environment. *)
Definition ReadFd (fd saved_errno : Z) (e : E) : M t (Z * Z * E) :=
  b ← get;
  let extrabuf := vector_of_size kExtraBuf in
  let writable_bytes := WritableBytes b in
  let iov := if writable_bytes <? kExtraBuf
             then [writable_bytes; kExtraBuf] else [writable_bytes] in
  let '(n, err, d, e') := sys_readv fd iov e in
  let '(d0, d1) := scatter writable_bytes d in
  store (BeginWrite b) d0;;
  let extrabuf := zsplice 0 d1 extrabuf in
  if n <? 0 then mret (n, err, e')
  else if n <=? i64 writable_bytes then
    modify (λ b, b <| writer_index_ ::= λ i, u64 (i + n) |>);;
    mret (n, saved_errno, e')
  else
    modify (λ b, b <| writer_index_ := zlen (buffer_ b) |>);;
    Append extrabuf (u64 (n - writable_bytes));;
    mret (n, saved_errno, e').

Definition WriteFd (fd saved_errno : Z) (e : E) : M t (Z * Z * E) :=
  b ← get;
  d ← load (Peek b) (ReadableBytes b);
  let '(n, err, e') := sys_write fd d e in
  if n <? 0 then mret (n, err, e')
  else Retrieve n;; mret (n, saved_errno, e').
End io.

(** ** Abstraction and invariant *)

Definition content (b : t) : list byte :=
  zslice (reader_index_ b) (writer_index_ b) (buffer_ b).

(** [kCheapPrepend <= readerIndex <= writerIndex <= size]. *)
Record wf (b : t) : Prop := {
  wf_reader : kCheapPrepend ≤ reader_index_ b;
  wf_writer : reader_index_ b ≤ writer_index_ b;
  wf_size : writer_index_ b ≤ zlen (buffer_ b);
  wf_max : zlen (buffer_ b) ≤ vec_max_size;
}.

(** ** Lemmas on the storage *)

Lemma copy_forward_length n src dst l : length (copy_forward n src dst l) = length l.
Proof.
  revert src dst l. induction n as [|n IH]; intros src dst l; cbn; [done |].
  rewrite IH. destruct (l !! src); [apply length_insert | done].
Qed.

(** Copying towards the front, element by element, moves the source range as
    it was before the copy. *)
Lemma copy_forward_lookup n src dst l i :
  (dst < src)%nat → (src + n ≤ length l)%nat →
  copy_forward n src dst l !! i =
    if decide (dst ≤ i < dst + n)%nat then l !! (src + (i - dst))%nat else l !! i.
Proof.
  revert src dst l. induction n as [|n IH]; intros src dst l Hlt Hlen; cbn.
  { rewrite decide_False by lia. done. }
  destruct (lookup_lt_is_Some_2 l src) as [x Hx]; [lia |]. rewrite Hx.
  rewrite IH by (rewrite ?length_insert; lia).
  destruct (decide (S dst ≤ i < S dst + n)%nat).
  - rewrite list_lookup_insert_ne, decide_True by lia. f_equal. lia.
  - destruct (decide (i = dst)) as [->|].
    + rewrite list_lookup_insert_eq, decide_True by lia. rewrite Nat.sub_diag, Nat.add_0_r. done.
    + rewrite list_lookup_insert_ne, decide_False by lia. done.
Qed.

Lemma copy_forward_zsplice first last dest l :
  0 ≤ dest < first → first ≤ last → last ≤ zlen l →
  copy_forward (Z.to_nat (last - first)) (Z.to_nat first) (Z.to_nat dest) l =
    zsplice dest (zslice first last l) l.
Proof.
  intros ???. pose proof (zlen_zslice first last l ltac:(lia) ltac:(lia)) as Hs.
  unfold zlen in *. apply list_eq. intros i.
  rewrite copy_forward_lookup by lia.
  unfold zsplice, zlen. rewrite Hs. unfold zslice, ztake, zdrop in *.
  destruct (decide _).
  - rewrite lookup_app_r by (rewrite length_take; lia).
    rewrite length_take, lookup_app_l by lia.
    rewrite lookup_take_lt, lookup_drop by lia. f_equal. lia.
  - destruct (decide (i < Z.to_nat dest)%nat).
    + rewrite lookup_app_l by (rewrite length_take; lia).
      by rewrite lookup_take_lt by lia.
    + rewrite lookup_app_r by (rewrite length_take; lia). rewrite length_take.
      rewrite lookup_app_r by lia. rewrite lookup_drop. f_equal. lia.
Qed.

Section wp.
Context (X : stop → t → Prop).
Implicit Types (b : t) (d : list byte) (n len : Z).

Lemma wf_bounds b : wf b →
  8 ≤ reader_index_ b ≤ writer_index_ b ∧
  writer_index_ b ≤ zlen (buffer_ b) < 2 ^ 63.
Proof. intros []. unfold kCheapPrepend, vec_max_size in *. lia. Qed.

Lemma ReadableBytes_content b : wf b → ReadableBytes b = zlen (content b).
Proof.
  intros ?%wf_bounds. unfold ReadableBytes, content.
  rewrite zlen_zslice, u64_small by lia. done.
Qed.

Lemma WritableBytes_wf b : wf b → WritableBytes b = zlen (buffer_ b) - writer_index_ b.
Proof. intros ?%wf_bounds. apply u64_small. lia. Qed.

Lemma wp_load off len Q b :
  0 ≤ len → off + len ≤ zlen (buffer_ b) →
  Q (zslice off (off + len) (buffer_ b)) b → wp X (load off len) Q b.
Proof.
  intros ???. unfold load. wp_steps; [done |]. bool_simpl.
  apply andb_false_iff in H2 as [?|?]; bool_simpl; lia.
Qed.

Lemma wp_RetrieveAll Q b :
  wf b →
  (∀ b', wf b' → content b' = [] → buffer_ b' = buffer_ b → Q tt b') →
  wp X RetrieveAll Q b.
Proof.
  intros Hwf HQ. pose proof (wf_bounds b Hwf). unfold RetrieveAll. wp_steps. apply HQ.
  - split; unfold vec_max_size, kCheapPrepend in *; unfold upd; cbn [buffer_ reader_index_ writer_index_]; lia.
  - unfold content. unfold upd; cbn [buffer_ reader_index_ writer_index_]. apply zslice_self.
  - done.
Qed.

Lemma wp_Retrieve n Q b :
  wf b → 0 ≤ n →
  (∀ b', wf b' → content b' = zdrop n (content b) →
         buffer_ b' = buffer_ b → Q tt b') →
  wp X (Retrieve n) Q b.
Proof.
  intros Hwf Hn HQ. pose proof (wf_bounds b Hwf). unfold Retrieve. wp_steps;
    rewrite ReadableBytes_content in H0 by done; bool_simpl.
  - assert (zlen (content b) = writer_index_ b - reader_index_ b) as Hc
      by (apply zlen_zslice; lia).
    apply HQ; [| | done].
    + split; unfold vec_max_size, kCheapPrepend in *; unfold upd; cbn [buffer_ reader_index_ writer_index_]; rewrite ?u64_small; lia.
    + unfold content; unfold upd; cbn [buffer_ reader_index_ writer_index_]. rewrite u64_small by lia. by rewrite zdrop_zslice by lia.
  - apply wp_RetrieveAll; [done |]. intros b' ? Hc ?. apply HQ; [done | | done].
    by rewrite Hc, zdrop_all.
Qed.

Lemma content_zlen b : wf b → zlen (content b) = writer_index_ b - reader_index_ b.
Proof. intros ?%wf_bounds. apply zlen_zslice; lia. Qed.

Lemma wp_store off d Q b :
  off + zlen d ≤ zlen (buffer_ b) →
  Q tt (b <| buffer_ ::= zsplice off d |>) → wp X (store off d) Q b.
Proof. intros ??. unfold store. wp_steps; [done |]. bool_simpl. lia. Qed.

Lemma wp_std_copy first last dest Q b :
  0 ≤ dest < first → first ≤ last → last ≤ zlen (buffer_ b) →
  Q tt (b <| buffer_ ::= λ l, zsplice dest (zslice first last l) l |>) →
  wp X (std_copy first last dest) Q b.
Proof.
  intros ????. unfold std_copy. wp_steps; bool_simpl; [lia | |].
  - unfold upd; cbv beta. rewrite copy_forward_zsplice by lia. done.
  - repeat match goal with
    | H : _ && _ = false |- _ => apply andb_false_iff in H as [?|?]
    end; bool_simpl; lia.
Qed.

(** The size of the storage once [len] more bytes fit in it. *)
Definition grown (len : Z) (b : t) : Z :=
  if (writer_index_ b + len <=? zlen (buffer_ b)) ||
     (kCheapPrepend + zlen (content b) + len <=? zlen (buffer_ b))
  then zlen (buffer_ b) else writer_index_ b + len.

Lemma wp_vector_resize n Q b :
  zlen (buffer_ b) ≤ n ≤ vec_max_size →
  Q tt (b <| buffer_ ::= λ l, l ++ vector_of_size (n - zlen l) |>) →
  wp X (vector_resize n) Q b.
Proof.
  intros [? ?] ?. unfold vector_resize. wp_steps; bool_simpl; [lia |].
  unfold upd; cbv beta. rewrite ztake_all by lia. done.
Qed.

Lemma zlen_vector_of_size n : 0 ≤ n → zlen (vector_of_size n) = n.
Proof. intros ?. unfold vector_of_size. rewrite zlen_replicate. lia. Qed.

Lemma wp_MakeSpace len Q b :
  wf b → WritableBytes b < len → grown len b ≤ vec_max_size →
  (∀ b', wf b' → content b' = content b → len ≤ WritableBytes b' →
         zlen (buffer_ b') = grown len b → Q tt b') →
  wp X (MakeSpace len) Q b.
Proof.
  intros Hwf Hlt Hmax HQ. pose proof (wf_bounds b Hwf). pose proof (content_zlen b Hwf).
  rewrite WritableBytes_wf in Hlt by done.
  unfold MakeSpace, PrependableBytes, grown, vec_max_size, kCheapPrepend in *.
  rewrite orb_comm in *. wp_step. wp_step. rewrite WritableBytes_wf by done.
  rewrite (u64_small (_ + _)), (u64_small (_ - _)) by lia.
  destruct (Z.leb_spec (8 + zlen (content b) + len) (zlen (buffer_ b))); cbn [orb] in *.
  - wp_step; bool_simpl; [lia |]. wp_step. apply wp_std_copy; [lia.. |]. wp_steps.
    unfold upd; cbn [buffer_ reader_index_ writer_index_].
    rewrite ReadableBytes_content, u64_small by done || lia.
    assert (8 + zlen (content b) ≤ zlen (buffer_ b)) as Hfit by lia.
    pose proof (zlen_zsplice 8 (content b) (buffer_ b) ltac:(lia) Hfit) as Hlen.
    set (b' := mk _ _ _). assert (wf b') as Hwf'.
    { subst b'. unfold content in *. split; unfold kCheapPrepend, vec_max_size;
        cbn [buffer_ reader_index_ writer_index_]; lia. }
    apply HQ; [done | | |].
    + subst b'. unfold content at 1. cbn [buffer_ reader_index_ writer_index_].
      apply zslice_zsplice_same; lia.
    + rewrite WritableBytes_wf by done. subst b'. unfold content in *.
      cbn [buffer_ writer_index_]. lia.
    + subst b'. unfold content in *. cbn [buffer_]. lia.
  - destruct (Z.leb_spec (writer_index_ b + len) (zlen (buffer_ b))); [lia |].
    wp_step; bool_simpl; [| lia]. rewrite u64_small by lia.
    apply wp_vector_resize; [unfold vec_max_size; lia |]. unfold upd; cbv beta.
    set (b' := mk _ _ _). assert (zlen (buffer_ b') = writer_index_ b + len) as Hlen.
    { subst b'. cbn [buffer_]. rewrite zlen_app, zlen_vector_of_size by lia. lia. }
    assert (wf b') as Hwf'.
    { split; unfold kCheapPrepend, vec_max_size; rewrite ?Hlen;
        subst b'; cbn [reader_index_ writer_index_]; lia. }
    apply HQ; [done | | | done].
    + subst b'. unfold content. cbn [buffer_ reader_index_ writer_index_].
      apply zslice_app_l; lia.
    + rewrite WritableBytes_wf, Hlen by done. subst b'. cbn [writer_index_]. lia.
Qed.

Lemma wp_EnsureWritableBytes len Q b :
  wf b → grown len b ≤ vec_max_size →
  (∀ b', wf b' → content b' = content b → len ≤ WritableBytes b' →
         zlen (buffer_ b') = grown len b → Q tt b') →
  wp X (EnsureWritableBytes len) Q b.
Proof.
  intros Hwf Hmax HQ. unfold EnsureWritableBytes. wp_steps; bool_simpl.
  - by apply wp_MakeSpace.
  - rewrite WritableBytes_wf in * by done. apply HQ; rewrite ?WritableBytes_wf by done;
      [done | done | lia |].
    unfold grown. destruct (Z.leb_spec (writer_index_ b + len) (zlen (buffer_ b))); [done | lia].
Qed.

Lemma wp_Append d len Q b :
  wf b → 0 ≤ len ≤ zlen d → grown len b ≤ vec_max_size →
  (∀ b', wf b' → content b' = content b ++ ztake len d →
         zlen (buffer_ b') = grown len b → Q tt b') →
  wp X (Append d len) Q b.
Proof.
  intros Hwf Hlen Hmax HQ. unfold Append. wp_step.
  apply wp_EnsureWritableBytes; [done.. |]. intros b1 Hwf1 Hc1 Hw1 Hs1.
  pose proof (wf_bounds b1 Hwf1). rewrite WritableBytes_wf in Hw1 by done.
  assert (zlen (ztake len d) = len) as Hd by (rewrite zlen_ztake by lia; lia).
  wp_step. wp_step; bool_simpl; [| lia]. wp_step. wp_step. wp_step. wp_step.
  unfold BeginWrite. apply wp_store; [lia |]. wp_step.
  unfold upd; cbn [buffer_ reader_index_ writer_index_]. rewrite u64_small by lia.
  pose proof (zlen_zsplice (writer_index_ b1) (ztake len d) (buffer_ b1)
    ltac:(lia) ltac:(lia)) as Hl.
  apply HQ; [| | cbn [buffer_]; lia].
  - split; cbn [buffer_ reader_index_ writer_index_]; rewrite ?Hl;
      unfold kCheapPrepend, vec_max_size; lia.
  - rewrite <- Hc1. unfold content. cbn [buffer_ reader_index_ writer_index_].
    rewrite <- (zslice_app _ (writer_index_ b1)) by lia. f_equal.
    + apply zslice_zsplice_before; lia.
    + replace (writer_index_ b1 + len) with (writer_index_ b1 + zlen (ztake len d)) by lia.
      apply zslice_zsplice_same; lia.
Qed.

(** The bytes fit neither in the storage nor in a vector of [max_size()]. *)
Lemma EnsureWritableBytes_overflow len b :
  wf b → len < 2 ^ 63 → zlen (buffer_ b) < kCheapPrepend + zlen (content b) + len →
  vec_max_size < writer_index_ b + len → EnsureWritableBytes len b = Throw LengthError b.
Proof.
  intros Hwf ???. pose proof (wf_bounds b Hwf). pose proof (content_zlen b Hwf).
  unfold vec_max_size, kCheapPrepend in *.
  unfold EnsureWritableBytes, mbind, M_bind, get, when.
  rewrite WritableBytes_wf by done.
  destruct (Z.ltb_spec (zlen (buffer_ b) - writer_index_ b) len); [| lia].
  unfold MakeSpace, PrependableBytes, kCheapPrepend, mbind, M_bind, get.
  rewrite WritableBytes_wf by done.
  rewrite (u64_small (reader_index_ b + _)), (u64_small (_ + _ - 8)) by lia.
  match goal with |- context [?x <? len] => destruct (Z.ltb_spec x len); [| lia] end.
  unfold vector_resize, vec_max_size. rewrite u64_small by lia.
  match goal with |- context [?x <? ?y] => destruct (Z.ltb_spec x y); [done | lia] end.
Qed.

Lemma Append_overflow d len b :
  wf b → len < 2 ^ 63 → zlen (buffer_ b) < kCheapPrepend + zlen (content b) + len →
  vec_max_size < writer_index_ b + len → Append d len b = Throw LengthError b.
Proof. intros. unfold Append, mbind, M_bind. by rewrite EnsureWritableBytes_overflow. Qed.

(** [grown] is what the storage has to be. *)
Lemma grown_overflow len b : wf b → vec_max_size < grown len b →
  zlen (buffer_ b) < kCheapPrepend + zlen (content b) + len ∧ vec_max_size < writer_index_ b + len.
Proof.
  intros Hwf Hg. pose proof (wf_bounds b Hwf). unfold grown in Hg.
  case_match eqn:Hor; bool_simpl; unfold vec_max_size in *; lia.
Qed.

Lemma wp_Append_or_throw d len Q b :
  wf b → 0 ≤ len ≤ zlen d → len < 2 ^ 63 →
  (vec_max_size < grown len b → X (SThrow LengthError) b) →
  (∀ b', wf b' → content b' = content b ++ ztake len d →
         zlen (buffer_ b') = grown len b → Q tt b') →
  wp X (Append d len) Q b.
Proof.
  intros Hwf Hlen H63 Hthrow HQ.
  destruct (Z.leb_spec (grown len b) vec_max_size) as [Hg|Hg]; [by apply wp_Append |].
  destruct (grown_overflow len b Hwf Hg). unfold wp. rewrite Append_overflow by done. by apply Hthrow.
Qed.

Lemma wp_RetrieveAsString n Q b :
  wf b → 0 ≤ n ≤ zlen (content b) →
  (∀ b', wf b' → content b' = zdrop n (content b) → buffer_ b' = buffer_ b →
         Q (ztake n (content b)) b') →
  wp X (RetrieveAsString n) Q b.
Proof.
  intros Hwf Hn HQ. pose proof (wf_bounds b Hwf). pose proof (content_zlen b Hwf).
  unfold RetrieveAsString, Peek. do 3 wp_step. apply wp_load; [lia.. |].
  wp_step. apply wp_Retrieve; [done | lia |]. intros b' ???. wp_step.
  replace (zslice _ _ _) with (ztake n (content b)); [by apply HQ |].
  unfold content. apply ztake_zslice; lia.
Qed.

Lemma wp_RetrieveAllAsString Q b :
  wf b →
  (∀ b', wf b' → content b' = [] → buffer_ b' = buffer_ b → Q (content b) b') →
  wp X RetrieveAllAsString Q b.
Proof.
  intros Hwf HQ. unfold RetrieveAllAsString. do 2 wp_step.
  rewrite ReadableBytes_content by done.
  apply wp_RetrieveAsString; [done | pose proof (zlen_nonneg (content b)); lia |].
  intros b' ? Hc ?. rewrite ztake_all by lia. apply HQ; [done | | done].
  by rewrite Hc, zdrop_all.
Qed.

Lemma wp_ToString Q b : wf b → Q (content b) b → wp X ToString Q b.
Proof.
  intros Hwf ?. pose proof (wf_bounds b Hwf). pose proof (content_zlen b Hwf).
  unfold ToString, Peek. do 2 wp_step.
  rewrite ReadableBytes_content by done. apply wp_load; [lia.. |].
  replace (_ + _) with (writer_index_ b) by lia. done.
Qed.
End wp.

(** ** [std::search] *)

Lemma std_search_range pat l : 0 ≤ std_search pat l ≤ zlen l.
Proof.
  induction l as [|x l IH]; cbn [std_search]; case_decide;
    rewrite ?zlen_cons; try pose proof (zlen_nonneg l); unfold zlen in *; cbn [length]; lia.
Qed.

Lemma std_search_found pat l :
  pat ≠ [] → std_search pat l < zlen l →
  pat `prefix_of` zdrop (std_search pat l) l.
Proof.
  intros Hpat. induction l as [|x l IH]; cbn [std_search].
  - unfold zlen. cbn [length]. case_decide; lia.
  - case_decide; [done |]. rewrite zlen_cons. intros ?.
    pose proof (std_search_range pat l).
    unfold zdrop in *. rewrite Z2Nat.inj_add by lia. cbn. apply IH. lia.
Qed.

Lemma std_search_first pat l k :
  0 ≤ k < std_search pat l → ¬ pat `prefix_of` zdrop k l.
Proof.
  revert k. induction l as [|x l IH]; intros k; cbn [std_search]; case_decide; try lia.
  intros ?. destruct (decide (k = 0)) as [->|]; [done |].
  replace k with (1 + (k - 1)) by lia. unfold zdrop. rewrite Z2Nat.inj_add by lia.
  apply IH. lia.
Qed.

(** ** System calls on a buffer *)

Section io_laws.
Context {E : Type} `{KernelLaws E} (X : stop → t → Prop).

(** How much [readv] is offered. *)
Definition read_capacity (b : t) : Z :=
  if WritableBytes b <? kExtraBuf then WritableBytes b + kExtraBuf else WritableBytes b.

(** The storage after the kernel has stored [d0] in the writable part. *)
Lemma stored_content b d0 :
  wf b → zlen d0 ≤ WritableBytes b →
  let b' := mk (zsplice (writer_index_ b) d0 (buffer_ b))
               (reader_index_ b) (writer_index_ b + zlen d0) in
  wf b' ∧ content b' = content b ++ d0 ∧ zlen (buffer_ b') = zlen (buffer_ b).
Proof.
  intros Hwf. pose proof (wf_bounds b Hwf). rewrite WritableBytes_wf by done.
  intros Hd b'. subst b'. pose proof (zlen_nonneg d0).
  pose proof (zlen_zsplice (writer_index_ b) d0 (buffer_ b) ltac:(lia) ltac:(lia)) as Hl.
  split_and!; [| | exact Hl].
  - split; cbn [buffer_ reader_index_ writer_index_]; rewrite ?Hl;
      unfold kCheapPrepend, vec_max_size; lia.
  - unfold content. cbn [buffer_ reader_index_ writer_index_].
    rewrite <- (zslice_app _ (writer_index_ b)) by lia. f_equal.
    + apply zslice_zsplice_before; lia.
    + apply zslice_zsplice_same; lia.
Qed.

Lemma zsplice_nil i (l : list byte) : zsplice i [] l = l.
Proof. unfold zsplice, zlen. cbn [length app]. rewrite Z.add_0_r. apply ztake_zdrop. Qed.

Lemma wp_ReadFd fd s e Q b :
  wf b →
  (vec_max_size < zlen (buffer_ b) + kExtraBuf → ∀ b', X (SThrow LengthError) b') →
  (∀ err e', observe e' = observe e → Q (-1, err, e') b) →
  (∀ d e' b', wf b' → content b' = content b ++ d → zlen d ≤ read_capacity b →
     zlen (buffer_ b') ≤ zlen (buffer_ b) + kExtraBuf →
     observe e' = add_in fd d (observe e) → Q (zlen d, s, e') b') →
  wp X (ReadFd fd s e) Q b.
Proof.
  intros Hwf Hroom Herr Hok. pose proof (wf_bounds b Hwf).
  pose proof (WritableBytes_wf b Hwf) as Hw. set (w := WritableBytes b) in *.
  unfold ReadFd. do 2 wp_step. fold w.
  destruct (sys_readv _ _ _) as [[[n err] d] e'] eqn:Hsys.
  apply readv_law in Hsys as [(-> & -> & Ho)|(Hn & -> & Hcap & Ho)]; cbn [scatter].
  { replace (ztake w []) with (@nil byte) by (unfold ztake; by destruct (Z.to_nat w)).
    wp_step. apply wp_store; [unfold BeginWrite, zlen in *; cbn [length]; lia |].
    wp_step; [| bool_simpl; lia]. wp_step. unfold upd; cbv beta. rewrite zsplice_nil.
    destruct b; by apply Herr. }
  assert (zlen d ≤ read_capacity b) as Hd.
  { revert Hcap. unfold read_capacity. fold w.
    destruct (Z.ltb_spec w kExtraBuf); cbn [foldr]; lia. }
  assert (zlen (ztake w d) = w `min` zlen d) as Hd0 by (apply zlen_ztake; lia).
  destruct (stored_content b (ztake w d) Hwf ltac:(lia)) as (Hwf1 & Hc1 & Hs1).
  wp_step. apply wp_store; [unfold BeginWrite; lia |]. unfold upd; cbv beta. unfold BeginWrite.
  wp_step; bool_simpl; [lia |]. rewrite i64_small by lia. wp_step; bool_simpl.
  - rewrite ztake_all in * by lia. do 3 wp_step.
    unfold upd; cbn [buffer_ reader_index_ writer_index_]. rewrite u64_small by lia.
    apply Hok; try done. unfold kExtraBuf. lia.
  - rewrite Hd0 in *. rewrite Z.min_l in * by lia. unfold read_capacity in Hd. fold w in Hd.
    destruct (Z.ltb_spec w kExtraBuf); [| lia].
    assert (zlen (zdrop w d) = zlen d - w) as Hd1 by (rewrite zlen_zdrop by lia; lia).
    assert (zlen (vector_of_size kExtraBuf) = kExtraBuf) as Hx by (apply zlen_vector_of_size; done).
    set (extra := zsplice 0 (zdrop w d) (vector_of_size kExtraBuf)).
    assert (zlen extra = kExtraBuf) as Hlx
      by (subst extra; rewrite zlen_zsplice; lia).
    assert (ztake (zlen d - w) extra = zdrop w d) as Htx.
    { subst extra. rewrite <- Hd1. unfold zsplice. rewrite ztake_0. cbn [app].
      rewrite ztake_app_le, ztake_all by lia. done. }
    do 2 wp_step. unfold upd; cbn [buffer_ reader_index_ writer_index_].
    rewrite u64_small by (unfold kExtraBuf in *; lia).
    cbn [buffer_] in Hs1. rewrite Hs1.
    replace (writer_index_ b + w) with (zlen (buffer_ b)) in * by lia.
    set (b1 := mk _ _ _) in *.
    assert (grown (zlen d - w) b1 ≤ zlen (buffer_ b) + kExtraBuf) as Hg.
    { unfold grown. change (zlen (buffer_ b1)) with
        (zlen (zsplice (writer_index_ b) (ztake w d) (buffer_ b))).
      rewrite Hs1. case_match; unfold b1; cbn [writer_index_]; lia. }
    wp_step. apply wp_Append_or_throw; [done | lia | unfold kExtraBuf in *; lia | intros; apply Hroom; lia |].
    intros b' Hwf' Hc' Hs'. wp_step. apply Hok; [done | | unfold read_capacity; fold w | | done].
    + by rewrite Hc', Hc1, Htx, <- app_assoc, ztake_zdrop.
    + destruct (Z.ltb_spec w kExtraBuf); lia.
    + lia.
Qed.

Lemma wp_WriteFd fd s e Q b :
  wf b →
  (∀ err e', observe e' = observe e → Q (-1, err, e') b) →
  (∀ n e' b', wf b' → 0 ≤ n ≤ zlen (content b) → content b' = zdrop n (content b) →
     buffer_ b' = buffer_ b →
     observe e' = add_out fd (ztake n (content b)) (observe e) → Q (n, s, e') b') →
  wp X (WriteFd fd s e) Q b.
Proof.
  intros Hwf Herr Hok. pose proof (wf_bounds b Hwf). pose proof (content_zlen b Hwf).
  unfold WriteFd, Peek. do 3 wp_step. rewrite ReadableBytes_content by done.
  apply wp_load; [lia.. |]. replace (_ + _) with (writer_index_ b) by lia.
  fold (content b). destruct (sys_write _ _ _) as [[n err] e'] eqn:Hsys.
  apply write_law in Hsys as [[-> Ho]|[Hn Ho]]; (wp_step; bool_simpl; [try lia |]; try lia).
  - wp_step. by apply Herr.
  - wp_step. apply wp_Retrieve; [done | lia |]. intros b' ???. wp_step. by apply Hok.
Qed.
End io_laws.

End Buffer.
