(* ===== verification/BufferSpec.v ===== *)
(** * What [Buffer] promises

    The buffer implements a queue of bytes.  A client of the class sees only
    the bytes it appended, in order, whatever the indices and the storage
    behind them do: [buffer_refines_queue] runs any sequence of calls side by
    side with the queue.  The other theorems bound the storage and describe
    the scattered read, the write, line framing and the error cases. *)

From S2P Require Import Prelude Kernel SimKernel Buffer.

Module BufferSpec.
Import Buffer.

(** ** The queue *)

Inductive cmd :=
  | CAppend (d : list byte)
  | CAppendCstr (d : list byte)
  | CRetrieve (n : Z)
  | CRetrieveAll
  | CRetrieveAsString (n : Z)
  | CRetrieveAllAsString
  | CEnsureWritableBytes (n : Z)
  | CToString.

(** A call on the buffer, with the string it returns ([[]] for [void]). *)
Definition run (c : cmd) : M t (list byte) :=
  match c with
  | CAppend d => Append d (zlen d);; mret []
  | CAppendCstr d => Append_cstr (d ++ [x00]);; mret []
  | CRetrieve n => Retrieve n;; mret []
  | CRetrieveAll => RetrieveAll;; mret []
  | CRetrieveAsString n => RetrieveAsString n
  | CRetrieveAllAsString => RetrieveAllAsString
  | CEnsureWritableBytes n => EnsureWritableBytes n;; mret []
  | CToString => ToString
  end.

(** The same call on the queue: what it returns and the queue afterwards. *)
Definition queue_run (c : cmd) (q : list byte) : list byte * list byte :=
  match c with
  | CAppend d | CAppendCstr d => ([], q ++ d)
  | CRetrieve n => ([], zdrop n q)
  | CRetrieveAll => ([], [])
  | CRetrieveAsString n => (ztake n q, zdrop n q)
  | CRetrieveAllAsString => (q, [])
  | CEnsureWritableBytes _ => ([], q)
  | CToString => (q, q)
  end.

(** What a caller must respect: a string is not taken out longer than what is
    readable, and a C string holds no zero byte. *)
Definition allowed (c : cmd) (q : list byte) : Prop :=
  match c with
  | CRetrieve n | CEnsureWritableBytes n => 0 ≤ n
  | CRetrieveAsString n => 0 ≤ n ≤ zlen q
  | CAppendCstr d => x00 ∉ d
  | _ => True
  end.

(** Bytes a call may add to the storage. *)
Definition cost (c : cmd) : Z :=
  match c with
  | CAppend d | CAppendCstr d => zlen d
  | CEnsureWritableBytes n => n
  | _ => 0
  end.

Fixpoint run_all (cs : list cmd) : M t (list (list byte)) :=
  match cs with
  | [] => mret []
  | c :: cs => s ← run c; ss ← run_all cs; mret (s :: ss)
  end.

Fixpoint queue_run_all (cs : list cmd) (q : list byte) : list (list byte) * list byte :=
  match cs with
  | [] => ([], q)
  | c :: cs =>
      let '(s, q) := queue_run c q in
      let '(ss, q) := queue_run_all cs q in (s :: ss, q)
  end.

Fixpoint all_allowed (cs : list cmd) (q : list byte) : Prop :=
  match cs with
  | [] => True
  | c :: cs => allowed c q ∧ all_allowed cs (queue_run c q).2
  end.

Definition total_cost (cs : list cmd) : Z := foldr (λ c n, cost c + n) 0 cs.

(** ** Refinement *)

Lemma ctor_spec n :
  0 ≤ n → kCheapPrepend + n ≤ vec_max_size →
  wf (ctor n) ∧ content (ctor n) = [] ∧ zlen (buffer_ (ctor n)) = kCheapPrepend + n.
Proof.
  intros ??. unfold vec_max_size, kCheapPrepend in *.
  assert (zlen (buffer_ (ctor n)) = 8 + n) as Hl.
  { unfold ctor. cbn [buffer_]. rewrite u64_small by (unfold kCheapPrepend; lia).
    apply zlen_vector_of_size. unfold kCheapPrepend. lia. }
  split_and!; [| apply zslice_self | exact Hl].
  split; rewrite ?Hl; unfold vec_max_size, ctor; cbn [reader_index_ writer_index_];
    unfold kCheapPrepend; lia.
Qed.

Lemma strlen_terminated d : x00 ∉ d → strlen (d ++ [x00]) = Some (zlen d).
Proof.
  induction d as [|x d IH]; intros Hd; cbn [strlen app]; [done |].
  apply not_elem_of_cons in Hd as [Hx Hd].
  rewrite decide_False, IH by done. cbn. f_equal. rewrite zlen_cons. lia.
Qed.

Lemma grown_le len b : wf b → 0 ≤ len → grown len b ≤ zlen (buffer_ b) + len.
Proof. intros ?%wf_bounds ?. unfold grown. case_match; lia. Qed.

Lemma wp_call c b :
  wf b → allowed c (content b) → zlen (buffer_ b) + cost c ≤ vec_max_size →
  wp no_exit (run c) (λ s b', wf b' ∧ (s, content b') = queue_run c (content b) ∧
    zlen (buffer_ b') ≤ zlen (buffer_ b) + cost c) b.
Proof.
  intros Hwf Hal Hcost.
  assert (∀ len, 0 ≤ len → zlen (buffer_ b) + len ≤ vec_max_size → grown len b ≤ vec_max_size)
    as Hgrown by (intros len ??; pose proof (grown_le len b Hwf); lia).
  destruct c as [d|d|n| |n| |n| ]; cbn [run queue_run allowed cost] in *.
  - pose proof (zlen_nonneg d). pose proof (grown_le (zlen d) b Hwf).
    wp_step. apply wp_Append; [done | lia | auto |]. intros b' ? Hc Hs. wp_step.
    rewrite Hc, Hs, ztake_all by lia. split_and!; [done.. | lia].
  - pose proof (zlen_nonneg d). pose proof (grown_le (zlen d) b Hwf).
    unfold Append_cstr. rewrite strlen_terminated by done.
    wp_step. apply wp_Append; [done | rewrite zlen_app; pose proof (zlen_nonneg [x00]); lia | auto |]. intros b' ? Hc Hs. wp_step.
    rewrite Hc, Hs, ztake_app_le, ztake_all by lia. split_and!; [done.. | lia].
  - wp_step. apply wp_Retrieve; [done.. |]. intros b' ? Hc Hs. wp_step. rewrite Hc, ?Hs. split_and!; [done.. | lia].
  - wp_step. apply wp_RetrieveAll; [done |]. intros b' ? Hc Hs. wp_step. rewrite Hc, ?Hs. split_and!; [done.. | lia].
  - apply wp_RetrieveAsString; [done.. |]. intros b' ? Hc Hs. rewrite Hc, ?Hs. split_and!; [done.. | lia].
  - apply wp_RetrieveAllAsString; [done |]. intros b' ? Hc Hs. rewrite Hc, ?Hs. split_and!; [done.. | lia].
  - pose proof (grown_le n b Hwf).
    wp_step. apply wp_EnsureWritableBytes; [done | auto |]. intros b' ? Hc ? Hs. wp_step.
    rewrite Hc, Hs. split_and!; [done.. | lia].
  - apply wp_ToString; [done |]. split_and!; [done.. | lia].
Qed.

Lemma total_cost_nonneg cs q : all_allowed cs q → 0 ≤ total_cost cs.
Proof.
  revert q. induction cs as [|c cs IH]; intros q; cbn; [done |].
  intros [Ha Hr%IH]. assert (0 ≤ cost c); [| unfold total_cost in *; lia].
  destruct c; cbn in *; try apply zlen_nonneg; done.
Qed.

Lemma wp_run_all cs b :
  wf b → all_allowed cs (content b) → zlen (buffer_ b) + total_cost cs ≤ vec_max_size →
  wp no_exit (run_all cs) (λ ss b', wf b' ∧ (ss, content b') = queue_run_all cs (content b)) b.
Proof.
  revert b. induction cs as [|c cs IH]; intros b Hwf Hal Hcost; cbn [run_all]; [done |].
  cbn [all_allowed] in Hal. destruct Hal as [Hc Hal]. cbn in Hcost.
  pose proof (total_cost_nonneg _ _ Hal). unfold total_cost in *.
  wp_step. eapply wp_mono; [apply wp_call; [done.. | lia] |].
  intros s b1 (Hwf1 & Hq & Hs). cbn [queue_run_all]. rewrite <- Hq in *. cbn [snd] in Hal.
  wp_step. eapply wp_mono; [apply IH; [done.. | lia] |].
  intros ss b' [Hwf' Heq]. wp_step. by rewrite <- Heq.
Qed.

(** ** Properties *)

(** C18: any sequence of calls on a new buffer behaves as on a queue of bytes:
    no call throws or has undefined behaviour (in particular the move inside
    the storage never overlaps the way [std::copy] forbids), the class
    invariant holds at the end, and the strings returned and the readable
    bytes left are exactly those of the queue. *)
Theorem buffer_refines_queue (n : Z) (cs : list cmd)
    (Hn : 0 ≤ n) (Hal : all_allowed cs [])
    (Hmax : kCheapPrepend + n + total_cost cs ≤ vec_max_size) :
  ∃ ss b', run_all cs (ctor n) = Done ss b' ∧ wf b' ∧
    (ss, content b') = queue_run_all cs [].
Proof.
  pose proof (total_cost_nonneg _ _ Hal).
  destruct (ctor_spec n Hn ltac:(lia)) as (Hwf & Hc & Hl).
  rewrite <- Hc in *. apply wp_done, wp_run_all; [done.. | lia].
Qed.

Lemma buffer_refines_queue_witness :
  let cs := [CAppend [x41; x42; x43]; CRetrieve 1; CAppendCstr [x44; x45];
             CRetrieveAsString 2; CEnsureWritableBytes 40; CRetrieveAllAsString] in
  ∃ ss b', run_all cs (ctor 4) = Done ss b' ∧ wf b' ∧
    (ss, content b') = ([[]; []; []; [x42; x43]; []; [x44; x45]], []).
Proof.
  refine (buffer_refines_queue 4 _ _ _ _); [lia | | vm_compute; discriminate].
  cbn [all_allowed allowed queue_run app snd]. split_and!; try done; try (vm_compute; split; discriminate).
  apply (bool_decide_unpack _); vm_compute; exact I.
Defined.

(** C35: the storage never moves more than needed and never shrinks: appending
    bytes that fit behind the reserved prefix, counting the space of what has
    been read, leaves the size of the storage as it is; otherwise it becomes
    exactly what the unread bytes and the new ones end at. *)
Theorem Append_storage (b : t) (d : list byte)
    (Hwf : wf b) (Hmax : writer_index_ b + zlen d ≤ vec_max_size) :
  ∃ b', Append d (zlen d) b = Done tt b' ∧ wf b' ∧ content b' = content b ++ d ∧
    (kCheapPrepend + zlen (content b) + zlen d ≤ zlen (buffer_ b) →
       zlen (buffer_ b') = zlen (buffer_ b)) ∧
    (zlen (buffer_ b) < kCheapPrepend + zlen (content b) + zlen d →
       zlen (buffer_ b') = zlen (buffer_ b) `max` (writer_index_ b + zlen d)).
Proof.
  pose proof (wf_bounds b Hwf). pose proof (zlen_nonneg d).
  destruct (wp_done (Append d (zlen d)) (λ _ b', wf b' ∧ content b' = content b ++ d ∧
    zlen (buffer_ b') = grown (zlen d) b) b) as ([] & b' & Hrun & Hwf' & Hc & Hs).
  { apply wp_Append; [done | lia | unfold grown, vec_max_size in *; case_match; lia |].
    intros b' ? Hc ?. by rewrite Hc, ztake_all by lia. }
  exists b'. split_and!; [done.. | |]; intros ?; rewrite Hs; unfold grown;
    case_match eqn:Hg; try lia.
Qed.

Lemma Append_storage_witness :
  ∃ b', Append [x41; x42] 2 (ctor 1) = Done tt b' ∧ wf b' ∧ content b' = [x41; x42] ∧
    zlen (buffer_ b') = 10.
Proof.
  destruct (ctor_spec 1) as (Hwf & Hc & _); [vm_compute; discriminate.. |].
  destruct (Append_storage (ctor 1) [x41; x42]) as (b' & Hrun & Hwf' & Hc' & _ & Hs);
    [exact Hwf | vm_compute; discriminate |].
  exists b'. split; [exact Hrun |]. split; [exact Hwf' |]. rewrite Hc', Hs by (vm_compute; reflexivity).
  split; reflexivity.
Defined.

(** When the bytes fit neither in the storage, once compacted, nor in a
    grown vector of at most [max_size()] bytes, [Append] raises
    [std::length_error] and leaves the buffer as it was. *)
Theorem Append_too_long (b : t) (d : list byte) (len : Z)
    (Hwf : wf b) (H64 : len < 2 ^ 63)
    (Hfull : zlen (buffer_ b) < kCheapPrepend + zlen (content b) + len)
    (Hlen : vec_max_size < writer_index_ b + len) :
  Append d len b = Throw LengthError b.
Proof. by apply Append_overflow. Qed.

Lemma Append_too_long_witness : Append [x41] (2 ^ 63 - 1) (ctor 1) = Throw LengthError (ctor 1).
Proof.
  destruct (ctor_spec 1) as (Hwf & _); [vm_compute; discriminate.. |].
  apply (Append_too_long (ctor 1) [x41] (2 ^ 63 - 1)); [exact Hwf | reflexivity..].
Defined.

(** ** Whatever the arguments *)

(** What the types of the parameters allow: a length is a [size_t], and what
    is to be appended or reserved has the size of an object. *)
Definition in_range (c : cmd) : Prop :=
  match c with
  | CAppend d | CAppendCstr d => zlen d < 2 ^ 63
  | CEnsureWritableBytes n => 0 ≤ n < 2 ^ 63
  | CRetrieve n | CRetrieveAsString n => 0 ≤ n < 2 ^ 64
  | _ => True
  end.

(** The call reads past the storage. *)
Definition reads_past (c : cmd) (b : t) : Prop :=
  ∃ n, c = CRetrieveAsString n ∧ zlen (buffer_ b) < reader_index_ b + n.

(** The class invariant holds when the call returns; an exception leaves the
    buffer as it was. *)
Definition keeps_wf {A} (past : Prop) (b : t) (r : outcome t A) : Prop :=
  match r with
  | Done _ b' => wf b'
  | Throw e b' => e = LengthError ∧ b' = b
  | Exit _ _ => False
  | Undef u => u = OutOfBounds ∧ past
  end.

Definition or_throws (b : t) : stop → t → Prop := λ s b', s = SThrow LengthError ∧ b' = b.

Lemma keeps_wf_wp {A} past b (m : M t A) : wp (or_throws b) m (λ _ b', wf b') b → keeps_wf past b (m b).
Proof. unfold wp, keeps_wf, or_throws. destruct (m b); [done | by intros [[=] _] | by intros [[= ->] ->] | done]. Qed.

Lemma wp_Ensure_or_throw n b : wf b → 0 ≤ n < 2 ^ 63 → wp (or_throws b) (EnsureWritableBytes n) (λ _ b', wf b') b.
Proof.
  intros Hwf Hn. destruct (Z.leb_spec (grown n b) vec_max_size) as [Hg|Hg].
  { apply wp_EnsureWritableBytes; [done.. |]. by intros. }
  destruct (grown_overflow n b Hwf Hg). unfold wp. rewrite EnsureWritableBytes_overflow by (done || lia). done.
Qed.

Lemma strlen_le d k : strlen (d ++ [x00]) = Some k → 0 ≤ k ≤ zlen d.
Proof.
  revert k. induction d as [|x d IH]; intros k; cbn [strlen app].
  { rewrite decide_True by done. by intros [= <-]. }
  pose proof (zlen_nonneg d). rewrite zlen_cons. case_decide; [intros [= <-]; lia |].
  intros (j & Hj%IH & ->)%fmap_Some. lia.
Qed.

Lemma strlen_some d : is_Some (strlen (d ++ [x00])).
Proof.
  induction d as [|x d [k IH]]; cbn [strlen app]; [by rewrite decide_True |].
  case_decide; [done |]. rewrite IH. by eexists.
Qed.



(** A length that is no object's size: the sum of [writer_index_ + len] wraps
    around, and the storage is cut off before the write index. *)
Lemma EnsureWritableBytes_wraps (b : t) (k : Z) : wf b → 1 ≤ k ≤ writer_index_ b →
  ∃ b', EnsureWritableBytes (2 ^ 64 - k) b = Done tt b' ∧
    writer_index_ b' = writer_index_ b ∧ zlen (buffer_ b') = writer_index_ b - k.
Proof.
  intros Hwf Hk. pose proof (wf_bounds b Hwf). unfold vec_max_size, kCheapPrepend in *.
  unfold EnsureWritableBytes, mbind, M_bind, get, when. rewrite WritableBytes_wf by done.
  destruct (Z.ltb_spec (zlen (buffer_ b) - writer_index_ b) (2 ^ 64 - k)); [| lia].
  unfold MakeSpace, PrependableBytes, kCheapPrepend, mbind, M_bind, get. rewrite WritableBytes_wf by done.
  rewrite (u64_small (reader_index_ b + _)), (u64_small (_ + _ - 8)) by lia.
  match goal with |- context [?x <? 2 ^ 64 - k] => destruct (Z.ltb_spec x (2 ^ 64 - k)); [| lia] end.
  assert (u64 (writer_index_ b + (2 ^ 64 - k)) = writer_index_ b - k) as ->.
  { unfold u64. replace (writer_index_ b + _) with (writer_index_ b - k + 1 * 2 ^ 64) by lia.
    rewrite Z.mod_add by lia. apply Z.mod_small. lia. }
  unfold vector_resize, vec_max_size. destruct (Z.ltb_spec (2 ^ 63 - 1) (writer_index_ b - k)); [lia |].
  eexists. split; [done |]. upd_simpl. split; [done |].
  rewrite zlen_app, zlen_ztake by lia. unfold vector_of_size. rewrite zlen_replicate. lia.
Qed.

(** ** Line framing *)

Lemma wp_FindCRLF Q b :
  wf b →
  Q (let k := std_search kCRLF (content b) in
     if Peek b + k =? BeginWrite b then None else Some (Peek b + k)) b →
  wp no_exit FindCRLF Q b.
Proof.
  intros Hwf HQ. pose proof (wf_bounds b Hwf). unfold FindCRLF, Peek, BeginWrite in *.
  do 3 wp_step. apply wp_load; [lia.. |]. wp_step.
  replace (reader_index_ b + (_ - _)) with (writer_index_ b) by lia. done.
Qed.

(** C32: [FindCRLF] returns the first CR LF among the readable bytes, or null
    when there is none, and [RetrieveUntil] just behind it takes out exactly
    the line and its terminator. *)
Theorem FindCRLF_frames_lines (b : t) (Hwf : wf b) :
  match FindCRLF b with
  | Done (Some p) b1 => b1 = b ∧ ∃ line rest,
      content b = line ++ kCRLF ++ rest ∧ p = Peek b + zlen line ∧
      (∀ k, 0 ≤ k < zlen line → ¬ kCRLF `prefix_of` zdrop k (content b)) ∧
      ∃ b2, RetrieveUntil (p + zlen kCRLF) b = Done tt b2 ∧ wf b2 ∧ content b2 = rest
  | Done None b1 => b1 = b ∧ ∀ k, 0 ≤ k → ¬ kCRLF `prefix_of` zdrop k (content b)
  | _ => False
  end.
Proof.
  pose proof (wf_bounds b Hwf). pose proof (content_zlen b Hwf).
  pose proof (std_search_range kCRLF (content b)).
  set (k := std_search kCRLF (content b)) in *.
  apply (wp_FindCRLF (λ r b1, match r with Some p => _ | None => _ end)); [done |]. fold k.
  unfold Peek, BeginWrite. cbv zeta.
  destruct (Z.eqb_spec (reader_index_ b + k) (writer_index_ b)); (split; [done |]).
  - intros i ? Hp. destruct (decide (i < k)) as [Hi|Hi].
    + eapply std_search_first, Hp. lia.
    + rewrite zdrop_all in Hp by lia. by apply prefix_nil_inv in Hp.
  - destruct (std_search_found kCRLF (content b)) as [rest Hrest]; [done | lia |]. fold k in Hrest.
    assert (zlen (ztake k (content b)) = k) as Hk by (rewrite zlen_ztake; lia).
    exists (ztake k (content b)), rest.
    rewrite Hk, <- Hrest, ztake_zdrop. split_and!; [done | done | |].
    { intros i ? Hp. eapply std_search_first, Hp. done. }
    assert (zlen (zdrop k (content b)) = zlen kCRLF + zlen rest) as Hl
      by (rewrite Hrest, zlen_app; done).
    rewrite zlen_zdrop in Hl by lia. change (zlen kCRLF) with 2 in *. pose proof (zlen_nonneg rest).
    destruct (wp_done (RetrieveUntil (reader_index_ b + k + 2)) (λ _ b2, wf b2 ∧ content b2 = rest) b)
      as ([] & b2 & ? & ? & ?); [| by exists b2].
    unfold RetrieveUntil, Peek. do 2 wp_step. rewrite u64_small by lia.
    apply wp_Retrieve; [done | lia |]. intros b2 ? Hc ?. split; [done |].
    rewrite Hc. replace (_ - _) with (k + 2) by lia. rewrite <- zdrop_zdrop, Hrest by lia.
    by rewrite zdrop_app_ge.
Qed.

Lemma FindCRLF_frames_lines_witness :
  let b := mk (replicate 8 x00 ++ [x41; x0d; x0a; x42]) 8 12 in
  wf b ∧ FindCRLF b = Done (Some 9) b ∧
  ∃ b2, RetrieveUntil 11 b = Done tt b2 ∧ wf b2 ∧ content b2 = [x42].
Proof.
  intros b. assert (wf b) as Hwf by (split; vm_compute; discriminate).
  split; [exact Hwf |]. split; [reflexivity |].
  pose proof (FindCRLF_frames_lines b Hwf) as Hf.
  replace (FindCRLF b) with (@Done t (option Z) (Some 9) b) in Hf by reflexivity.
  destruct Hf as (_ & line & rest & Hc & Hp & _ & b2 & Hr & Hwf2 & Hc2).
  change (9 = 8 + zlen line) in Hp. change ([x41; x0d; x0a; x42] = line ++ kCRLF ++ rest) in Hc.
  exists b2. split; [exact Hr | split; [exact Hwf2 |]]. rewrite Hc2.
  destruct line as [|x [|y line]]; unfold zlen in Hp; cbn [length] in Hp; [lia | | lia].
  cbn in Hc. congruence.
Defined.

(** [RetrieveAsString] does not check its argument: asked for more than is
    readable, it hands out the stale bytes of the storage behind the write
    index, and empties the buffer. *)
Theorem RetrieveAsString_overread (b : t) (n : Z)
    (Hwf : wf b) (Hlo : zlen (content b) < n)
    (Hhi : reader_index_ b + n ≤ zlen (buffer_ b)) :
  ∃ b', RetrieveAsString n b =
    Done (content b ++ zslice (writer_index_ b) (reader_index_ b + n) (buffer_ b)) b' ∧
    wf b' ∧ content b' = [].
Proof.
  pose proof (wf_bounds b Hwf). pose proof (content_zlen b Hwf).
  destruct (wp_done (RetrieveAsString n) (λ s b', s =
    content b ++ zslice (writer_index_ b) (reader_index_ b + n) (buffer_ b) ∧
    wf b' ∧ content b' = []) b) as (s & b' & -> & -> & ?); [| by eexists].
  unfold RetrieveAsString, Peek. do 3 wp_step. apply wp_load; [lia.. |].
  wp_step. apply wp_Retrieve; [done | lia |]. intros b' ? Hc ?. wp_step.
  unfold content at 1. rewrite zslice_app by lia. split_and!; [done | done |].
  by rewrite Hc, zdrop_all by lia.
Qed.

Lemma RetrieveAsString_overread_witness :
  let b := mk (replicate 8 x00 ++ [x41; x42; x53; x54]) 8 10 in
  content b = [x41; x42] ∧
  ∃ b', RetrieveAsString 4 b = Done [x41; x42; x53; x54] b' ∧ wf b' ∧ content b' = [].
Proof.
  intros b. split; [reflexivity |].
  refine (RetrieveAsString_overread b 4 _ _ _); [split; vm_compute; discriminate | reflexivity |].
  vm_compute; discriminate.
Defined.

(** ** Reading and writing a descriptor *)

Section io.
Context {E : Type} `{KernelLaws E}.

(** C33: [ReadFd] appends to the readable bytes exactly what [readv]
    delivered, however it was scattered over the buffer and the stack, and
    returns its length; on an error the buffer is unchanged and the error
    number is reported.  It never offers the kernel less than 64 KiB, and
    never more than the storage and the stack can hold. *)
Theorem ReadFd_appends (b : t) (fd s : Z) (e : E)
    (Hwf : wf b) (Hroom : zlen (buffer_ b) + kExtraBuf ≤ vec_max_size) :
  kExtraBuf ≤ read_capacity b ∧
  ∃ n err e' b', ReadFd fd s e b = Done (n, err, e') b' ∧
    ((n = -1 ∧ b' = b ∧ observe e' = observe e) ∨
     (∃ d, n = zlen d ∧ err = s ∧ zlen d ≤ read_capacity b ∧
        wf b' ∧ content b' = content b ++ d ∧ observe e' = add_in fd d (observe e))).
Proof.
  split.
  { unfold read_capacity. destruct (Z.ltb_spec (WritableBytes b) kExtraBuf); [| lia].
    unfold WritableBytes. pose proof (u64_range (zlen (buffer_ b) - writer_index_ b)). lia. }
  destruct (wp_done (ReadFd fd s e) (λ '(n, err, e') b',
    (n = -1 ∧ b' = b ∧ observe e' = observe e) ∨
    (∃ d, n = zlen d ∧ err = s ∧ zlen d ≤ read_capacity b ∧
       wf b' ∧ content b' = content b ++ d ∧ observe e' = add_in fd d (observe e))) b)
    as ([[n err] e'] & b' & ? & ?); [| by exists n, err, e', b'].
  apply wp_ReadFd; [done | lia | by left |].
  intros d e' b' ?????. right. by exists d.
Qed.

(** C34: [WriteFd] offers all readable bytes to the kernel and takes out
    exactly the prefix it accepted; on an error nothing is taken out. *)
Theorem WriteFd_consumes (b : t) (fd s : Z) (e : E) (Hwf : wf b) :
  ∃ n err e' b', WriteFd fd s e b = Done (n, err, e') b' ∧
    ((n = -1 ∧ b' = b ∧ observe e' = observe e) ∨
     (0 ≤ n ≤ zlen (content b) ∧ err = s ∧ wf b' ∧ content b' = zdrop n (content b) ∧
      observe e' = add_out fd (ztake n (content b)) (observe e))).
Proof.
  destruct (wp_done (WriteFd fd s e) (λ '(n, err, e') b',
    (n = -1 ∧ b' = b ∧ observe e' = observe e) ∨
    (0 ≤ n ≤ zlen (content b) ∧ err = s ∧ wf b' ∧ content b' = zdrop n (content b) ∧
     observe e' = add_out fd (ztake n (content b)) (observe e))) b)
    as ([[n err] e'] & b' & ? & ?); [| by exists n, err, e', b'].
  apply wp_WriteFd; [done | by left |].
  intros n e' b' ?????. by right.
Qed.
End io.

(** 3000 bytes do not fit in a new buffer: the rest comes from the stack. *)
Lemma ReadFd_appends_witness :
  let e := mk_sim empty_obs [] [inr (replicate 3000 x41)] [] in
  ∃ n err e' b', ReadFd 5 0 e (ctor 1024) = Done (n, err, e') b' ∧
    ((n = -1 ∧ b' = ctor 1024 ∧ observe e' = observe e) ∨
     (∃ d, n = zlen d ∧ err = 0 ∧ zlen d ≤ read_capacity (ctor 1024) ∧
        wf b' ∧ content b' = content (ctor 1024) ++ d ∧
        observe e' = add_in 5 d (observe e))).
Proof.
  intros e. destruct (ctor_spec 1024) as (Hwf & _); [vm_compute; discriminate.. |].
  apply (ReadFd_appends (ctor 1024) 5 0 e); [exact Hwf | vm_compute; discriminate].
Defined.

Lemma WriteFd_consumes_witness :
  let b := mk (replicate 8 x00 ++ [x41; x42; x43]) 8 11 in
  let e := mk_sim empty_obs [2] [] [] in
  ∃ n err e' b', WriteFd 5 0 e b = Done (n, err, e') b' ∧
    ((n = -1 ∧ b' = b ∧ observe e' = observe e) ∨
     (0 ≤ n ≤ zlen (content b) ∧ err = 0 ∧ wf b' ∧ content b' = zdrop n (content b) ∧
      observe e' = add_out 5 (ztake n (content b)) (observe e))).
Proof.
  intros b e. apply (WriteFd_consumes b 5 0 e). split; vm_compute; discriminate.
Defined.

End BufferSpec.
