(* ===== verification/Objects.v ===== *)
(** * The objects of the program (the classes of [include/cutemuduo/*.hpp])

    The data members of every class, and the heap that holds the objects:
    a pointer or reference of the program is a key of one of the maps of
    [World], so that aliasing is kept and a dangling pointer is a key that
    is not there.

    A [std::function] is the name of the lambda expression it was made from
    with the values it captures ([callback], [functor], [close_callback]);
    [None] is an empty function.  Callbacks of the application are names
    ([cbid]) whose code is a parameter of the model.  [calls] and [log]
    record the callbacks made to the application and the lines logged,
    newest first. *)

From S2P Require Import Prelude Format Kernel Buffer.

(** ** Logging *)

Inductive LogLevel := INFO | WARNING | ERROR | FATAL | DEBUG.
Inductive out_line :=
  | Log (level : LogLevel) (fmt : string) (args : list arg)
  | Printf (fmt : string) (args : list arg).

(** ** Function objects *)

Abbreviation cbid := nat (only parsing).

Inductive callback :=
  | CbLoopRead (loop : nat)
  | CbAcceptorRead (server : nat)
  | CbConnRead (conn : nat)
  | CbConnWrite (conn : nat)
  | CbConnClose (conn : nat)
  | CbConnError (conn : nat).

Inductive functor :=
  | FnSendInLoop (conn : nat) (msg : list byte)
  | FnSendBuffer (conn : nat) (buffer : nat)     (* the input buffer of [buffer] *)
  | FnShutdownInLoop (conn : nat)
  | FnWriteComplete (conn : nat)
  | FnHighWaterMark (conn : nat) (len : Z)
  | FnConnectEstablished (conn : nat)
  | FnConnectDestroyed (conn : nat)
  | FnRemoveConnectionInLoop (server conn : nat)
  | FnListen (server : nat)
  | FnUser (cb : cbid).

Inductive close_callback :=
  | CloseUser (cb : cbid)
  | CloseRemoveConnection (server : nat) (conn_ptr : nat).

(** ** Classes *)

Module Channel.
Record t := mk {
  loop_ : nat;
  fd_ : Z;
  events_ : Z;
  revents_ : Z;
  index_ : Z;
  read_callback_ : option callback;
  write_callback_ : option callback;
  close_callback_ : option callback;
  error_callback_ : option callback;
  tie_ : option nat;   (* [weak_ptr] to a connection *)
  tied_ : bool;
}.
#[global] Instance eta_t : Eta t := λ c,
  mk (loop_ c) (fd_ c) (events_ c) (revents_ c) (index_ c) (read_callback_ c)
     (write_callback_ c) (close_callback_ c) (error_callback_ c) (tie_ c) (tied_ c).
End Channel.

Module EpollPoller.
Record t := mk {
  channels_ : gmap Z nat;
  epoll_fd_ : Z;
  events_ : list epoll_event;
}.
#[global] Instance eta_t : Eta t := λ p, mk (channels_ p) (epoll_fd_ p) (events_ p).
End EpollPoller.

Module EventLoop.
Record t := mk {
  looping_ : bool;
  quit_ : bool;
  poll_return_time_ : Z;
  active_channels_ : list nat;
  thread_id_ : Z;
  wakeup_fd_ : Z;
  wakeup_channel_ : nat;
  pending_functors_ : list functor;
  calling_pending_functors_ : bool;
}.
#[global] Instance eta_t : Eta t := λ l,
  mk (looping_ l) (quit_ l) (poll_return_time_ l) (active_channels_ l) (thread_id_ l)
     (wakeup_fd_ l) (wakeup_channel_ l) (pending_functors_ l) (calling_pending_functors_ l).
End EventLoop.

Inductive StateE := kConnecting | kConnected | kDisconnecting | kDisconnected.
#[export] Instance StateE_eq_dec : EqDecision StateE.
Proof. solve_decision. Defined.

Module InetAddress.
Record t := mk { addr_ : sockaddr_in }.
#[global] Instance eta_t : Eta t := λ a, mk (addr_ a).
End InetAddress.

(** [context_] is a [std::any]: empty, or a value of the application, by a
    number it has for it. *)
Module TcpConnection.
Record t := mk {
  loop_ : nat;
  name_ : string;
  state_ : StateE;
  reading_ : bool;
  socket_ : Z;
  channel_ : nat;
  local_addr_ : InetAddress.t;
  peer_addr_ : InetAddress.t;
  connection_callback_ : option cbid;
  close_callback_ : option close_callback;
  message_callback_ : option cbid;
  write_complete_callback_ : option cbid;
  high_water_mark_ : Z;
  high_water_mark_callback_ : option cbid;
  input_buffer_ : Buffer.t;
  output_buffer_ : Buffer.t;
  context_ : option nat;
}.
#[global] Instance eta_t : Eta t := λ c,
  mk (loop_ c) (name_ c) (state_ c) (reading_ c) (socket_ c) (channel_ c)
     (local_addr_ c) (peer_addr_ c)
     (connection_callback_ c) (close_callback_ c) (message_callback_ c)
     (write_complete_callback_ c) (high_water_mark_ c) (high_water_mark_callback_ c)
     (input_buffer_ c) (output_buffer_ c) (context_ c).
End TcpConnection.

Module EventLoopThreadPool.
Record t := mk {
  base_loop_ : nat;
  name_ : string;
  started_ : bool;
  num_threads_ : Z;
  next_ : Z;
  threads_ : list string;   (* the threads, by name *)
  loops_ : list nat;
}.
#[global] Instance eta_t : Eta t := λ p,
  mk (base_loop_ p) (name_ p) (started_ p) (num_threads_ p) (next_ p) (threads_ p) (loops_ p).
End EventLoopThreadPool.

(** The acceptor of a server; [new_connection_callback_] can only be the
    server's [NewConnection]. *)
Module Acceptor.
Record t := mk {
  loop_ : nat;
  accept_socket_ : Z;
  accept_channel_ : nat;
  listenning_ : bool;
  new_connection_callback_ : option nat;
}.
#[global] Instance eta_t : Eta t := λ a,
  mk (loop_ a) (accept_socket_ a) (accept_channel_ a) (listenning_ a)
     (new_connection_callback_ a).
End Acceptor.

Module TcpServer.
Record t := mk {
  loop_ : nat;
  ip_port_ : string;
  name_ : string;
  acceptor_ : Acceptor.t;
  thread_pool_ : EventLoopThreadPool.t;
  connection_callback_ : option cbid;
  message_callback_ : option cbid;
  write_complete_callback_ : option cbid;
  thread_init_callback_ : option cbid;
  num_threads_ : Z;
  started_ : Z;
  next_conn_id_ : Z;
  connections_ : gmap string nat;
}.
#[global] Instance eta_t : Eta t := λ s,
  mk (loop_ s) (ip_port_ s) (name_ s) (acceptor_ s) (thread_pool_ s) (connection_callback_ s)
     (message_callback_ s) (write_complete_callback_ s) (thread_init_callback_ s)
     (num_threads_ s) (started_ s) (next_conn_id_ s) (connections_ s).
End TcpServer.

(** ** Calls made to the application *)

Inductive call :=
  | OnConnection (cb : cbid) (conn : nat) (connected : bool)
  | OnMessage (cb : cbid) (conn : nat) (readable : list byte) (receive_time : Z)
  | OnWriteComplete (cb : cbid) (conn : nat)
  | OnHighWaterMark (cb : cbid) (conn : nat) (len : Z)
  | OnClose (cb : cbid) (conn : nat)
  | OnFunctor (cb : cbid)
  | OnThreadInit (cb : cbid) (loop : nat).

(** ** The heap *)

Record World {E : Type} := mk_world {
  env : E;
  tid : Z;                                (* [current_thread::Tid()] *)
  loop_in_this_thread : gmap Z nat;       (* by thread *)
  log : list out_line;
  channels : gmap nat Channel.t;
  pollers : gmap nat EpollPoller.t;       (* by the loop that owns the poller *)
  loops : gmap nat EventLoop.t;
  conns : gmap nat TcpConnection.t;
  servers : gmap nat TcpServer.t;
  calls : list call;
}.
Arguments World E : clear implicits.
#[global] Instance eta_world E : Eta (World E) := λ w,
  mk_world E (env w) (tid w) (loop_in_this_thread w) (log w) (channels w) (pollers w) (loops w) (conns w)
    (servers w) (calls w).

Section primitives.
Context {E : Type} `{Kernel E}.
Abbreviation prog := (M (World E)).

(** A system call. *)
Definition sys {A} (f : E → A * E) : prog A := λ w,
  let '(a, e') := f (env w) in Done a (w <| env := e' |>).

(** Printing with arguments that do not fit the format is undefined. *)
Definition print_line (l : out_line) (fmt : string) (args : list arg) : prog unit :=
  if fmt_ok fmt args then modify (λ w, w <| log ::= cons l |>) else undef BadFormat.

Definition LOG (level : LogLevel) (fmt : string) (args : list arg) : prog unit :=
  print_line (Log level fmt args) fmt args.
Definition LOG_INFO := LOG INFO.
Definition LOG_ERROR := LOG ERROR.
Definition LOG_FATAL (fmt : string) (args : list arg) : prog unit :=
  LOG FATAL fmt args;; exit (-1).
Definition printf (fmt : string) (args : list arg) : prog unit :=
  print_line (Printf fmt args) fmt args.

Definition the_channel (x : nat) : prog Channel.t := deref (λ w, channels w !! x).
Definition the_poller (l : nat) : prog EpollPoller.t := deref (λ w, pollers w !! l).
Definition the_loop (l : nat) : prog EventLoop.t := deref (λ w, loops w !! l).
Definition the_conn (c : nat) : prog TcpConnection.t := deref (λ w, conns w !! c).
Definition the_server (s : nat) : prog TcpServer.t := deref (λ w, servers w !! s).

Definition upd_channel (x : nat) (f : Channel.t → Channel.t) : prog unit :=
  ch ← the_channel x; modify (λ w, w <| channels ::= <[x := f ch]> |>).
Definition upd_poller (l : nat) (f : EpollPoller.t → EpollPoller.t) : prog unit :=
  p ← the_poller l; modify (λ w, w <| pollers ::= <[l := f p]> |>).
Definition upd_loop (l : nat) (f : EventLoop.t → EventLoop.t) : prog unit :=
  lp ← the_loop l; modify (λ w, w <| loops ::= <[l := f lp]> |>).
Definition upd_conn (c : nat) (f : TcpConnection.t → TcpConnection.t) : prog unit :=
  cn ← the_conn c; modify (λ w, w <| conns ::= <[c := f cn]> |>).
Definition upd_server (s : nat) (f : TcpServer.t → TcpServer.t) : prog unit :=
  sv ← the_server s; modify (λ w, w <| servers ::= <[s := f sv]> |>).

Definition record_call (c : call) : prog unit :=
  modify (λ w, w <| calls ::= cons c |>).

(** The process ended by [LOG_FATAL]. *)
Definition fatal_exit (s : stop) (w : World E) : Prop :=
  s = SExit (-1) ∧ ∃ fmt args rest, log w = Log FATAL fmt args :: rest.
End primitives.

(** What is observed of the kernel in a world. *)
Abbreviation obs w := (observe (env w)).

(** ** Running the primitives *)

Section wp_primitives.
Context {E : Type} `{Kernel E} (X : stop → World E → Prop).
Implicit Types w : World E.

Lemma wp_sys {A} (f : E → A * E) Q w :
  (∀ a e', f (env w) = (a, e') → Q a (w <| env := e' |>)) → wp X (sys f) Q w.
Proof. intros HQ. unfold wp, sys. destruct (f (env w)) as [a e'] eqn:Hf. by apply HQ. Qed.

Lemma wp_print_line l fmt args Q w :
  fmt_ok fmt args = true → Q tt (w <| log ::= cons l |>) → wp X (print_line l fmt args) Q w.
Proof. unfold print_line. by intros ->. Qed.

Lemma wp_LOG level fmt args Q w :
  fmt_ok fmt args = true →
  Q tt (w <| log ::= cons (Log level fmt args) |>) → wp X (LOG level fmt args) Q w.
Proof. apply wp_print_line. Qed.

Lemma wp_printf fmt args Q w :
  fmt_ok fmt args = true →
  Q tt (w <| log ::= cons (Printf fmt args) |>) → wp X (printf fmt args) Q w.
Proof. apply wp_print_line. Qed.

Lemma wp_LOG_FATAL fmt args (Q : unit → World E → Prop) w :
  fmt_ok fmt args = true → wp fatal_exit (LOG_FATAL fmt args) Q w.
Proof.
  intros Hf. unfold LOG_FATAL, LOG, print_line. rewrite Hf. split; [done | by eexists _, _, _].
Qed.

Lemma wp_upd_channel x f ch Q w :
  channels w !! x = Some ch →
  Q tt (w <| channels ::= <[x := f ch]> |>) → wp X (upd_channel x f) Q w.
Proof. intros Hx ?. unfold upd_channel, the_channel. wp_step. by eapply wp_deref. Qed.

Lemma wp_upd_poller l f p Q w :
  pollers w !! l = Some p →
  Q tt (w <| pollers ::= <[l := f p]> |>) → wp X (upd_poller l f) Q w.
Proof. intros Hx ?. unfold upd_poller, the_poller. wp_step. by eapply wp_deref. Qed.

Lemma wp_upd_loop l f lp Q w :
  loops w !! l = Some lp →
  Q tt (w <| loops ::= <[l := f lp]> |>) → wp X (upd_loop l f) Q w.
Proof. intros Hx ?. unfold upd_loop, the_loop. wp_step. by eapply wp_deref. Qed.

Lemma wp_upd_conn c f cn Q w :
  conns w !! c = Some cn →
  Q tt (w <| conns ::= <[c := f cn]> |>) → wp X (upd_conn c f) Q w.
Proof. intros Hx ?. unfold upd_conn, the_conn. wp_step. by eapply wp_deref. Qed.

Lemma wp_upd_server s f sv Q w :
  servers w !! s = Some sv →
  Q tt (w <| servers ::= <[s := f sv]> |>) → wp X (upd_server s f) Q w.
Proof. intros Hx ?. unfold upd_server, the_server. wp_step. by eapply wp_deref. Qed.
End wp_primitives.

(** Find an object in a world that was just updated. *)
Ltac find_object :=
  upd_simpl_goal;
  first
    [ eassumption
    | rewrite lookup_insert_eq; reflexivity
    | rewrite lookup_insert_ne by done; find_object ].

Ltac wp_prim ::=
  lazymatch goal with
  | |- wp _ (sys _) _ _ => let Hs := fresh "Hsys" in apply wp_sys; intros ? ? Hs
  | |- wp _ (LOG _ _ _) _ _ => apply wp_LOG; [reflexivity |]
  | |- wp _ (LOG_INFO _ _) _ _ => apply wp_LOG; [reflexivity |]
  | |- wp _ (LOG_ERROR _ _) _ _ => apply wp_LOG; [reflexivity |]
  | |- wp fatal_exit (LOG_FATAL _ _) _ _ => apply wp_LOG_FATAL; reflexivity
  | |- wp _ (printf _ _) _ _ => apply wp_printf; [reflexivity |]
  | |- wp _ (record_call _) _ _ => apply wp_modify
  | |- wp _ (the_channel _) _ _ => eapply wp_deref; [find_object |]
  | |- wp _ (the_poller _) _ _ => eapply wp_deref; [find_object |]
  | |- wp _ (the_loop _) _ _ => eapply wp_deref; [find_object |]
  | |- wp _ (the_conn _) _ _ => eapply wp_deref; [find_object |]
  | |- wp _ (the_server _) _ _ => eapply wp_deref; [find_object |]
  | |- wp _ (upd_channel _ _) _ _ => eapply wp_upd_channel; [find_object |]
  | |- wp _ (upd_poller _ _) _ _ => eapply wp_upd_poller; [find_object |]
  | |- wp _ (upd_loop _ _) _ _ => eapply wp_upd_loop; [find_object |]
  | |- wp _ (upd_conn _ _) _ _ => eapply wp_upd_conn; [find_object |]
  | |- wp _ (upd_server _ _) _ _ => eapply wp_upd_server; [find_object |]
  end; cbn beta; upd_simpl_goal.
