(* ===== verification/LogText.v ===== *)
(** * Logger and Timestamp ([logger.hpp], [logger.cpp], [timestamp.hpp],
    [timestamp.cpp])

    In the [World] a logged line is its level, format and arguments.  Here is
    the text that is printed for it: the logger keeps the level of the line in
    a member of the one [Logger] object, between the two calls a macro makes;
    and a line carries the time, which [localtime] takes apart. *)

From S2P Require Import Prelude Format Kernel Buffer Objects.
From Stdlib Require Import Ascii.

(** ** [Timestamp] *)

Module Timestamp.
Record t := mk { micro_seconds_since_epoch_ : Z }.

Definition ctor0 : t := mk 0.
Definition ctor (microSecondsSinceEpoch : Z) : t := mk microSecondsSinceEpoch.

(** [time(NULL)] counts seconds. *)
Definition Now (time : Z) : t := ctor time.

(** The fields of [struct tm] that are used. *)
Record tm := mk_tm {
  tm_year : Z; tm_mon : Z; tm_mday : Z; tm_hour : Z; tm_min : Z; tm_sec : Z;
}.

(** [%4d] and [%02d]. *)
Fixpoint pad (c : ascii) (width : nat) (s : string) : string :=
  match width with
  | O => s
  | S w => if (String.length s <=? w)%nat then String c (pad c w s) else s
  end.
Definition d4 (n : Z) : string := pad " " 4 (decimal_int n).
Definition d02 (n : Z) : string :=
  if n <? 0 then "-" +:+ pad "0" 1 (decimal (- n)) else pad "0" 2 (decimal n).

(** [localtime] depends on the time zone of the process. *)
Definition ToString (localtime : Z → tm) (ts : t) : string :=
  let tm_time := localtime (micro_seconds_since_epoch_ ts) in
  snprintf 128
    (d4 (tm_year tm_time + 1900) +:+ "/" +:+ d02 (tm_mon tm_time + 1) +:+ "/" +:+ d02 (tm_mday tm_time)
     +:+ " " +:+ d02 (tm_hour tm_time) +:+ ":" +:+ d02 (tm_min tm_time) +:+ ":" +:+ d02 (tm_sec tm_time)).
End Timestamp.

(** ** [Logger] *)

Module Logger.
Record t := mk { log_level_ : LogLevel }.

Definition SetLogLevel (level : LogLevel) (_ : t) : t := mk level.

Definition pre (level : LogLevel) : string :=
  match level with
  | INFO => "[INFO]" | WARNING => "[WARNING]" | ERROR => "[ERROR]" | FATAL => "[FATAL]" | DEBUG => "[DEBUG]"
  end.

Definition newline : string := String (ascii_of_nat 10) "".

(** What [Log] prints at [now]. *)
Definition Log (localtime : Z → Timestamp.tm) (now : Timestamp.t) (msg : string) (l : t) : string :=
  pre (log_level_ l) +:+ Timestamp.ToString localtime now +:+ " : " +:+ msg +:+ newline.

(** A [LOG_...] macro: the level is set, then the line is printed. *)
Definition message (show_ptr : nat → string) (fmt : string) (args : list arg) : string :=
  snprintf 1024 (render show_ptr fmt args).
Definition macro (localtime : Z → Timestamp.tm) (show_ptr : nat → string) (now : Timestamp.t)
    (level : LogLevel) (fmt : string) (args : list arg) (l : t) : string * t :=
  let l := SetLogLevel level l in
  (Log localtime now (message show_ptr fmt args) l, l).

(** ** Two threads that log

    The object is shared and has no lock: between the two calls of one
    thread's macro those of another thread can come. *)
Inductive event :=
  | Set_level (level : LogLevel)     (* SetLogLevel *)
  | Print (msg : string).            (* Log *)

(** The lines printed by a sequence of calls. *)
Fixpoint lines (localtime : Z → Timestamp.tm) (now : Timestamp.t) (es : list event) (l : t) : list string :=
  match es with
  | [] => []
  | Set_level level :: es => lines localtime now es (SetLogLevel level l)
  | Print msg :: es => Log localtime now msg l :: lines localtime now es l
  end.
End Logger.
