(* ===== verification/LogSpec.v ===== *)
(** * What a log line says

    The time of a line can be read back; a line logged by one thread has its
    own level, the message cut to the buffer; with a second thread a line can
    have the level of the other's. *)

From S2P Require Import Prelude Format Kernel Buffer Objects LogText.
From Stdlib Require Import Ascii.

(** ** Reading the time back *)

(** The number a string of digits and leading blanks stands for. *)
Fixpoint number (acc : Z) (s : string) : option Z :=
  match s with
  | EmptyString => Some acc
  | String " " s => number acc s
  | String c s =>
      let d := Z.of_nat (nat_of_ascii c) - 48 in
      if (0 <=? d) && (d <=? 9) then number (acc * 10 + d) s else None
  end.
Definition field (i n : nat) (s : string) : option Z := number 0 (String.substring i n s).

Definition read_time (s : string) : option Timestamp.tm :=
  y ← field 0 4 s; mo ← field 5 2 s; d ← field 8 2 s; h ← field 11 2 s; mi ← field 14 2 s; sec ← field 17 2 s;
  Some (Timestamp.mk_tm (y - 1900) (mo - 1) d h mi sec).

(** The ranges of the fields, for years of four digits ([tm_sec] counts leap
    seconds). *)
Definition tm_ok (x : Timestamp.tm) : Prop :=
  - 900 ≤ Timestamp.tm_year x < 8100 ∧ 0 ≤ Timestamp.tm_mon x < 12 ∧ 1 ≤ Timestamp.tm_mday x < 32 ∧
  0 ≤ Timestamp.tm_hour x < 24 ∧ 0 ≤ Timestamp.tm_min x < 60 ∧ 0 ≤ Timestamp.tm_sec x < 61.

(** A field printed in its width. *)
Definition prints (show : Z → string) (width : nat) (n : Z) : bool :=
  (String.length (show n) =? width)%nat && bool_decide (number 0 (show n) = Some n).

Lemma forallb_range (P : Z → bool) a k n :
  forallb (λ i, P (a + Z.of_nat i)) (seq 0 (Z.to_nat k)) = true → a ≤ n < a + k → P n = true.
Proof.
  intros Hall Hn. rewrite forallb_forall in Hall. specialize (Hall (Z.to_nat (n - a))).
  rewrite Z2Nat.id in Hall by lia. replace (a + (n - a)) with n in Hall by lia. apply Hall, in_seq. lia.
Qed.

Lemma prints_spec show width n :
  prints show width n = true → String.length (show n) = width ∧ number 0 (show n) = Some n.
Proof. unfold prints. intros [?%Nat.eqb_eq ?%bool_decide_eq_true]%andb_true_iff. done. Qed.

Lemma d02_prints n : 0 ≤ n < 100 →
  ∃ a b, Timestamp.d02 n = String a (String b "") ∧ number 0 (String a (String b "")) = Some n.
Proof.
  intros Hn. destruct (prints_spec Timestamp.d02 2 n) as [Hl Hv].
  { apply (forallb_range _ 0 100); [vm_compute; reflexivity | lia]. }
  destruct (Timestamp.d02 n) as [|a [|b [|]]]; try done. by exists a, b.
Qed.

Lemma d4_prints n : 1000 ≤ n < 10000 →
  ∃ a b c d, Timestamp.d4 n = String a (String b (String c (String d ""))) ∧
    number 0 (String a (String b (String c (String d "")))) = Some n.
Proof.
  intros Hn. destruct (prints_spec Timestamp.d4 4 n) as [Hl Hv].
  { apply (forallb_range _ 1000 9000); [vm_compute; reflexivity | lia]. }
  destruct (Timestamp.d4 n) as [|a [|b [|c [|d [|]]]]]; try done. by exists a, b, c, d.
Qed.

(** C37: the time printed in a log line can be read back: for years of four
    digits [Timestamp::ToString] has 19 characters, and each field of what
    [localtime] returned stands at its place. *)
Theorem ToString_roundtrip localtime ts :
  tm_ok (localtime (Timestamp.micro_seconds_since_epoch_ ts)) →
  String.length (Timestamp.ToString localtime ts) = 19%nat ∧
  read_time (Timestamp.ToString localtime ts) = Some (localtime (Timestamp.micro_seconds_since_epoch_ ts)).
Proof.
  unfold Timestamp.ToString. destruct (localtime _) as [y mo d h mi s]. intros (Hy & Hmo & Hd & Hh & Hmi & Hs).
  cbn [Timestamp.tm_year Timestamp.tm_mon Timestamp.tm_mday Timestamp.tm_hour Timestamp.tm_min Timestamp.tm_sec] in *.
  destruct (d4_prints (y + 1900)) as (y1 & y2 & y3 & y4 & -> & Hy'); [lia |].
  destruct (d02_prints (mo + 1)) as (mo1 & mo2 & -> & Hmo'); [lia |].
  destruct (d02_prints d) as (d1 & d2 & -> & Hd'); [lia |].
  destruct (d02_prints h) as (h1 & h2 & -> & Hh'); [lia |].
  destruct (d02_prints mi) as (mi1 & mi2 & -> & Hmi'); [lia |].
  destruct (d02_prints s) as (s1 & s2 & -> & Hs'); [lia |].
  split; [reflexivity |]. unfold read_time, field, snprintf. cbv -[number Z.sub Z.add].
  rewrite Hy', Hmo', Hd', Hh', Hmi', Hs'. do 2 f_equal; lia.
Qed.

(** ** The lines of one thread, and of two *)

Section lines.
Context (localtime : Z → Timestamp.tm) (show_ptr : nat → string) (now : Timestamp.t).

(** The calls of one thread that logs [(level, msg)]s. *)
Definition calls_of (ls : list (LogLevel * string)) : list Logger.event :=
  ls ≫= λ '(level, msg), [Logger.Set_level level; Logger.Print msg].

(** What should be printed. *)
Definition line_of (l : LogLevel * string) : string :=
  Logger.pre l.1 +:+ Timestamp.ToString localtime now +:+ " : " +:+ l.2 +:+ Logger.newline.

Lemma lines_alone ls l : Logger.lines localtime now (calls_of ls) l = line_of <$> ls.
Proof.
  revert l. induction ls as [|[level msg] ls IH]; intros l; [done |].
  cbn [calls_of mbind list_bind app Logger.lines]. rewrite IH. done.
Qed.
End lines.

(** The calls of two threads, in some order. *)
Inductive shuffle {A} : list A → list A → list A → Prop :=
  | shuffle_nil : shuffle [] [] []
  | shuffle_l x xs ys zs : shuffle xs ys zs → shuffle (x :: xs) ys (x :: zs)
  | shuffle_r y xs ys zs : shuffle xs ys zs → shuffle xs (y :: ys) (y :: zs).

(** A line of one thread alone has the level it was logged with; but
    the level is kept in the one [Logger] object between the two calls a macro
    makes, and when another thread logs in between, a line is printed with
    the level of the other thread's: for any two levels there is an order of
    the calls of two threads in which the first thread's line is printed as
    one of the other's level. *)
Theorem level_of_another_thread localtime now a b ma mb l :
  Logger.lines localtime now (calls_of [(a, ma)]) l = [line_of localtime now (a, ma)] ∧
  ∃ es, shuffle (calls_of [(a, ma)]) (calls_of [(b, mb)]) es ∧
    Logger.lines localtime now es l = [line_of localtime now (b, mb); line_of localtime now (b, ma)].
Proof.
  split; [apply lines_alone |].
  exists [Logger.Set_level a; Logger.Set_level b; Logger.Print mb; Logger.Print ma]. split; [| done].
  repeat constructor.
Qed.

(** The buffer of a macro cuts the message. *)
Lemma substring_length n s : (String.length (String.substring 0 n s) ≤ n)%nat.
Proof. revert s. induction n as [|n IH]; intros [|c s]; cbn; [lia.. |]. specialize (IH s). lia. Qed.

Lemma message_length show_ptr fmt args : (String.length (Logger.message show_ptr fmt args) ≤ 1023)%nat.
Proof. apply (substring_length (1024 - 1)). Qed.

(** ** Instances *)

Lemma ToString_roundtrip_witness :
  let localtime := λ _, Timestamp.mk_tm 124 1 29 7 5 9 in
  Timestamp.ToString localtime (Timestamp.Now 0) = "2024/02/29 07:05:09" ∧
  read_time (Timestamp.ToString localtime (Timestamp.Now 0)) = Some (Timestamp.mk_tm 124 1 29 7 5 9).
Proof.
  intros localtime. split; [reflexivity |].
  apply (ToString_roundtrip localtime (Timestamp.Now 0)). unfold tm_ok, localtime. cbn. lia.
Defined.

(** A whole line, and one that is cut to 1023 characters. *)
Example macro_line :
  (Logger.macro (λ _, Timestamp.mk_tm 124 1 29 7 5 9) (λ _, "0x1") (Timestamp.Now 0) ERROR
     "epoll_ctl del error:%d" [AInt (- 1)] (Logger.mk INFO)).1 =
  "[ERROR]2024/02/29 07:05:09 : epoll_ctl del error:-1" +:+ Logger.newline.
Proof. reflexivity. Qed.
