(* ===== verification/PollerOps.v ===== *)
(** * Poller and EpollPoller ([poller.hpp], [epoll_poller.hpp], [epoll_poller.cpp])

    The poller of a loop: which channel it knows under which descriptor
    ([channels_]), and the calls that keep the kernel's interest list in step
    with the channels.  [kNew], [kAdded] and [kDeleted] are the states a
    channel's [index_] goes through.  The accessors of [Channel] the poller
    uses come first. *)

From S2P Require Import Prelude Format Kernel Buffer Objects.

(** ** Accessors of [Channel] *)

Definition kNoneEvent : Z := 0.
Definition IsNoneEvent (ch : Channel.t) : bool := Channel.events_ ch =? kNoneEvent.

(** ** Operations *)

Definition kNew : Z := -1.
Definition kAdded : Z := 1.
Definition kDeleted : Z := 2.
Definition kInitEventListSize : Z := 16.

Section ops.
Context {E : Type} `{Kernel E}.
Abbreviation prog := (M (World E)).

Definition SetRevents (x : nat) (revents : Z) : prog unit :=
  upd_channel x (λ ch, ch <| Channel.revents_ := revents |>).

Definition SetIndex (x : nat) (index : Z) : prog unit :=
  upd_channel x (λ ch, ch <| Channel.index_ := index |>).

(** [Timestamp::Now()]. *)
Definition Timestamp_Now : prog Z := sys sys_time.

(** A new [epoll_event] has unspecified contents; the vector's are zero. *)
Definition zero_event : epoll_event := mk_event 0 (DataFd 0).

Definition ctor (epoll_fd : Z) : EpollPoller.t :=
  EpollPoller.mk ∅ epoll_fd (replicate (Z.to_nat kInitEventListSize) zero_event).

Definition HasChannel (l x : nat) : prog bool :=
  p ← the_poller l;
  ch ← the_channel x;
  mret (match EpollPoller.channels_ p !! Channel.fd_ ch with
        | Some y => bool_decide (y = x)
        | None => false
        end).

(** The union [event.data] is assigned twice: the pointer is what stays. *)
Definition make_event (x : nat) (ch : Channel.t) : epoll_event :=
  let event := mk_event (u32 (Channel.events_ ch)) (DataFd (Channel.fd_ ch)) in
  mk_event (ev_events event) (DataPtr x).

Definition Update (l : nat) (operation : epoll_op) (x : nat) : prog unit :=
  p ← the_poller l;
  ch ← the_channel x;
  let event := make_event x ch in
  '(n, errno) ← sys (sys_epoll_ctl (EpollPoller.epoll_fd_ p) operation (Channel.fd_ ch) event);
  when (n <? 0)
    (if decide (operation = EPOLL_CTL_DEL)
     then LOG_ERROR "epoll_ctl del error:%d\n" [AInt errno]
     else LOG_FATAL "epoll_ctl add/mod error:%d\n" [AInt errno]).

Definition UpdateChannel (l x : nat) : prog unit :=
  ch ← the_channel x;
  let index := Channel.index_ ch in
  if index =? kNew then
    upd_poller l (λ p, p <| EpollPoller.channels_ ::= <[Channel.fd_ ch := x]> |>);;
    SetIndex x kAdded;;
    Update l EPOLL_CTL_ADD x
  else if index =? kDeleted then
    SetIndex x kAdded;;
    Update l EPOLL_CTL_ADD x
  else if IsNoneEvent ch then
    SetIndex x kDeleted;;
    Update l EPOLL_CTL_DEL x
  else Update l EPOLL_CTL_MOD x.

Definition RemoveChannel (l x : nat) : prog unit :=
  ch ← the_channel x;
  upd_poller l (λ p, p <| EpollPoller.channels_ ::= delete (Channel.fd_ ch) |>);;
  when (Channel.index_ ch =? kAdded) (Update l EPOLL_CTL_DEL x);;
  SetIndex x (-1).

(** The loop [for (int i{0}; i < num_events; ++i)], [n] rounds from [i]. *)
Fixpoint fill_active_channels (l i n : nat) (active_channels : list nat) : prog (list nat) :=
  match n with
  | O => mret active_channels
  | S n' =>
      p ← the_poller l;
      match EpollPoller.events_ p !! i with
      | None => undef OutOfBounds
      | Some ev =>
          match ev_data ev with
          | DataFd _ => undef BadUnion
          | DataPtr channel =>
              SetRevents channel (i32 (ev_events ev));;
              fill_active_channels l (S i) n' (active_channels ++ [channel])
          end
      end
  end.

Definition FillActiveChannels (l : nat) (num_events : Z) (active_channels : list nat)
    : prog (list nat) :=
  fill_active_channels l 0 (Z.to_nat num_events) active_channels.

(** [epoll_wait] stores what it reports at the front of [events_]. *)
Definition Poll (l : nat) (timeoutMs : Z) (active_channels : list nat)
    : prog (Z * list nat) :=
  p ← the_poller l;
  let size := zlen (EpollPoller.events_ p) in
  '(num_events, errno, evs) ←
    sys (sys_epoll_wait (EpollPoller.epoll_fd_ p) (i32 size) timeoutMs);
  upd_poller l (λ p, p <| EpollPoller.events_ ::= zsplice 0 evs |>);;
  now ← Timestamp_Now;
  if 0 <? num_events then
    active ← FillActiveChannels l num_events active_channels;
    when (u64 num_events =? size)
      (upd_poller l (λ p, p <| EpollPoller.events_ ::=
         λ evs, evs ++ replicate (Z.to_nat (u64 (size * 2) - size)) zero_event |>));;
    mret (now, active)
  else if num_events =? 0 then mret (now, active_channels)
  else
    when (negb (errno =? EINTR)) (printf "epoll_wait() error:%d\n" [AInt errno]);;
    mret (now, active_channels).

(** [~EpollPoller]. *)
Definition dtor (l : nat) : prog unit :=
  p ← the_poller l;
  sys (λ e, (tt, sys_close (EpollPoller.epoll_fd_ p) e));;
  modify (λ w, w <| pollers ::= delete l |>).
End ops.
