(* ===== verification/ChannelOps.v ===== *)
(** * Channel ([channel.hpp], [channel.cpp])

    A channel is a descriptor, the events it is interested in, the events
    that occurred, and the callbacks to run for them.  Every change of
    interest goes through the loop that owns the channel to its poller
    ([EventLoop::UpdateChannel] and its siblings, [event_loop.cpp]).  What a
    callback does is a parameter here ([call]); the program's own callbacks
    are plugged in where the classes that register them are modelled. *)

From S2P Require Import Prelude Format Kernel Buffer Objects PollerOps.

Definition kReadEvent : Z := Z.lor EPOLLIN EPOLLPRI.
Definition kWriteEvent : Z := EPOLLOUT.

(** [a & b] in a condition. *)
Definition has (a b : Z) : bool := negb (Z.land a b =? 0).

Definition IsWriting (ch : Channel.t) : bool := has (Channel.events_ ch) kWriteEvent.
Definition IsReading (ch : Channel.t) : bool := has (Channel.events_ ch) kReadEvent.

Definition ctor (loop : nat) (fd : Z) : Channel.t :=
  Channel.mk loop fd 0 0 (-1) None None None None None false.

Section ops.
Context {E : Type} `{Kernel E}.
Abbreviation prog := (M (World E)).

(** [new Channel(loop, fd)] *)
Definition new_channel (loop : nat) (fd : Z) : prog nat :=
  w ← get;
  let x := fresh (dom (channels w)) in
  modify (λ w, w <| channels ::= <[x := ctor loop fd]> |>);;
  mret x.

(** [EventLoop::UpdateChannel], [RemoveChannel], [HasChannel]. *)
Definition EventLoop_UpdateChannel (l x : nat) : prog unit := PollerOps.UpdateChannel l x.
Definition EventLoop_RemoveChannel (l x : nat) : prog unit := PollerOps.RemoveChannel l x.
Definition EventLoop_HasChannel (l x : nat) : prog bool := PollerOps.HasChannel l x.

Definition SetReadCallback (x : nat) (cb : option callback) : prog unit :=
  upd_channel x (λ ch, ch <| Channel.read_callback_ := cb |>).
Definition SetWriteCallback (x : nat) (cb : option callback) : prog unit :=
  upd_channel x (λ ch, ch <| Channel.write_callback_ := cb |>).
Definition SetCloseCallback (x : nat) (cb : option callback) : prog unit :=
  upd_channel x (λ ch, ch <| Channel.close_callback_ := cb |>).
Definition SetErrorCallback (x : nat) (cb : option callback) : prog unit :=
  upd_channel x (λ ch, ch <| Channel.error_callback_ := cb |>).

Definition Update (x : nat) : prog unit :=
  ch ← the_channel x; EventLoop_UpdateChannel (Channel.loop_ ch) x.

Definition Remove (x : nat) : prog unit :=
  ch ← the_channel x; EventLoop_RemoveChannel (Channel.loop_ ch) x.

Definition EnableReading (x : nat) : prog unit :=
  upd_channel x (λ ch, ch <| Channel.events_ ::= λ ev, Z.lor ev kReadEvent |>);;
  Update x.

Definition DisableReading (x : nat) : prog unit :=
  upd_channel x (λ ch, ch <| Channel.events_ ::= λ ev, Z.land ev (Z.lnot kReadEvent) |>);;
  Update x.

Definition EnableWriting (x : nat) : prog unit :=
  upd_channel x (λ ch, ch <| Channel.events_ ::= λ ev, Z.lor ev kWriteEvent |>);;
  Update x.

Definition DisableWriting (x : nat) : prog unit :=
  upd_channel x (λ ch, ch <| Channel.events_ ::= λ ev, Z.land ev (Z.lnot kWriteEvent) |>);;
  Update x.

Definition DisableAll (x : nat) : prog unit :=
  upd_channel x (λ ch, ch <| Channel.events_ := kNoneEvent |>);;
  Update x.

Definition Tie (x : nat) (obj : nat) : prog unit :=
  upd_channel x (λ ch, ch <| Channel.tie_ := Some obj |>);;
  upd_channel x (λ ch, ch <| Channel.tied_ := true |>).

(** [tie_.lock()]: the object, if it has not been destroyed. *)
Definition lock (tie : option nat) : prog (option nat) :=
  w ← get;
  mret (c ← tie; if conns w !! c is Some _ then Some c else None).

Section handle.
Context (call : callback → Z → prog unit).

(** [if (cb) cb(...)] *)
Definition call_if (cb : option callback) (receive_time : Z) : prog unit :=
  match cb with Some cb => call cb receive_time | None => mret tt end.

Definition HandleEventWithGuard (x : nat) (receiveTime : Z) : prog unit :=
  ch ← the_channel x;
  LOG_INFO "channel HandleEvent revents: %d\n" [AInt (Channel.revents_ ch)];;
  (ch ← the_channel x;
   when (has (Channel.revents_ ch) EPOLLHUP && negb (has (Channel.revents_ ch) EPOLLIN))
     (call_if (Channel.close_callback_ ch) receiveTime));;
  (ch ← the_channel x;
   when (has (Channel.revents_ ch) EPOLLERR)
     (call_if (Channel.error_callback_ ch) receiveTime));;
  (ch ← the_channel x;
   when (has (Channel.revents_ ch) (Z.lor EPOLLIN EPOLLPRI))
     (call_if (Channel.read_callback_ ch) receiveTime));;
  (ch ← the_channel x;
   when (has (Channel.revents_ ch) EPOLLOUT)
     (call_if (Channel.write_callback_ ch) receiveTime)).

Definition HandleEvent (x : nat) (receive_time : Z) : prog unit :=
  ch ← the_channel x;
  if Channel.tied_ ch then
    guard ← lock (Channel.tie_ ch);
    match guard with
    | None => mret tt
    | Some _ => HandleEventWithGuard x receive_time
    end
  else HandleEventWithGuard x receive_time.
End handle.
End ops.
