(* ===== verification/ReactorInv.v ===== *)
(** * Channels, pollers and the kernel's interest list agree

    [reactor_ok] is the invariant of the three classes together: a
    descriptor is in the interest list of a loop's epoll instance exactly
    when a live channel of that loop is in state [kAdded], and then with the
    events of the channel and its address; it is in [channels_] exactly when
    the channel is [kAdded] or [kDeleted].  [chan_step] describes what an
    operation on a channel changes and what it leaves alone; the callers'
    proofs use nothing else. *)

From S2P Require Import Prelude Format Kernel Buffer Objects PollerOps ChannelOps.

Section invariant.
Context {E : Type} `{Kernel E}.
Implicit Types (w : World E) (o : kobs).

Definition registered (index : Z) : Prop := index = kAdded ∨ index = kDeleted.
#[export] Instance registered_dec index : Decision (registered index).
Proof. unfold registered. apply _. Defined.

Record poller_ok w (l : nat) (p : EpollPoller.t) : Prop := {
  po_interest fd ev :
    interest (obs w) (EpollPoller.epoll_fd_ p) !! fd = Some ev ↔
    ∃ x ch, channels w !! x = Some ch ∧ Channel.loop_ ch = l ∧ Channel.fd_ ch = fd ∧
      Channel.index_ ch = kAdded ∧ ev = make_event x ch;
  po_map fd x :
    EpollPoller.channels_ p !! fd = Some x ↔
    ∃ ch, channels w !! x = Some ch ∧ Channel.loop_ ch = l ∧ Channel.fd_ ch = fd ∧
      registered (Channel.index_ ch);
}.

Record channel_ok w (ch : Channel.t) : Prop := {
  co_poller : is_Some (pollers w !! Channel.loop_ ch);
  co_index : Channel.index_ ch = kNew ∨ registered (Channel.index_ ch);
  co_events : 0 ≤ Channel.events_ ch < 2 ^ 31;
  co_open : Channel.fd_ ch ∈ k_open (obs w);
}.

Record reactor_ok w : Prop := {
  ro_poller l p : pollers w !! l = Some p → poller_ok w l p;
  ro_epoll_fd l l' p p' :
    pollers w !! l = Some p → pollers w !! l' = Some p' →
    EpollPoller.epoll_fd_ p = EpollPoller.epoll_fd_ p' → l = l';
  ro_epoll_open l p : pollers w !! l = Some p → EpollPoller.epoll_fd_ p ∈ k_open (obs w);
  ro_channel x ch : channels w !! x = Some ch → channel_ok w ch;
  ro_fd x y chx chy :
    channels w !! x = Some chx → channels w !! y = Some chy →
    Channel.fd_ chx = Channel.fd_ chy → x = y;
  ro_neg : -1 ∉ k_open (obs w);
}.

(** ** What a channel operation leaves alone *)

Record same_io o o' : Prop := {
  si_out : k_out o' = k_out o;
  si_in : k_in o' = k_in o;
  si_shut : k_shut o' = k_shut o;
  si_open : k_open o' = k_open o;
}.

#[export] Instance same_io_preorder : PreOrder same_io.
Proof.
  split; [done |]. intros o1 o2 o3 [] []. split; congruence.
Qed.

(** Everything but the reactor (the environment's epoll part, the log, the
    channels and the pollers) is the same. *)
Record same_upper w w' : Prop := {
  su_tid : tid w' = tid w;
  su_this : loop_in_this_thread w' = loop_in_this_thread w;
  su_loops : loops w' = loops w;
  su_conns : conns w' = conns w;
  su_servers : servers w' = servers w;
  su_calls : calls w' = calls w;
  su_io : same_io (obs w) (obs w');
}.

#[export] Instance same_upper_preorder : PreOrder same_upper.
Proof.
  split; [done |]. intros w1 w2 w3 [] []. split; try congruence.
  by etrans.
Qed.

Record chan_step w w' (x : nat) (ch' : Channel.t) : Prop := {
  cs_channels : channels w' = <[x := ch']> (channels w);
  cs_upper : same_upper w w';
  cs_pollers l : EpollPoller.epoll_fd_ <$> pollers w' !! l =
                 EpollPoller.epoll_fd_ <$> pollers w !! l;
  cs_ok : reactor_ok w';
}.

(** ** Re-establishing the invariant *)

(** The state [index_] a registered channel goes to when its events become
    [evs]. *)
Definition next_index (index evs : Z) : Z :=
  if (index =? kAdded) && (evs =? kNoneEvent) then kDeleted else kAdded.

Lemma next_index_registered i evs : registered (next_index i evs).
Proof. unfold next_index. case_match; [by right | by left]. Qed.

(** A world that differs from a good one only at channel [x], its poller
    and the interest list is good when the three agree on [x]. *)
Section step.
Context w w' (x : nat) (ch ch' : Channel.t) (p p' : EpollPoller.t).
Context (Hok : reactor_ok w) (Hx : channels w !! x = Some ch)
  (Hp : pollers w !! Channel.loop_ ch = Some p)
  (Hchs : channels w' = <[x := ch']> (channels w))
  (Hps : pollers w' = <[Channel.loop_ ch := p']> (pollers w))
  (Hl : Channel.loop_ ch' = Channel.loop_ ch) (Hfd : Channel.fd_ ch' = Channel.fd_ ch)
  (Hidx : Channel.index_ ch' = kNew ∨ registered (Channel.index_ ch'))
  (Hevs : 0 ≤ Channel.events_ ch' < 2 ^ 31)
  (Hep : EpollPoller.epoll_fd_ p' = EpollPoller.epoll_fd_ p)
  (Hopen : k_open (obs w') = k_open (obs w))
  (Hioth : ∀ ep, ep ≠ EpollPoller.epoll_fd_ p → interest (obs w') ep = interest (obs w) ep)
  (Hifd : ∀ fd, fd ≠ Channel.fd_ ch →
     interest (obs w') (EpollPoller.epoll_fd_ p) !! fd =
     interest (obs w) (EpollPoller.epoll_fd_ p) !! fd)
  (Hmfd : ∀ fd, fd ≠ Channel.fd_ ch →
     EpollPoller.channels_ p' !! fd = EpollPoller.channels_ p !! fd)
  (Hix : ∀ ev, interest (obs w') (EpollPoller.epoll_fd_ p) !! Channel.fd_ ch = Some ev ↔
     Channel.index_ ch' = kAdded ∧ ev = make_event x ch')
  (Hmx : ∀ y, EpollPoller.channels_ p' !! Channel.fd_ ch = Some y ↔
     registered (Channel.index_ ch') ∧ y = x).

Lemma step_channel : channels w' !! x = Some ch'.
Proof. by rewrite Hchs, lookup_insert_eq. Qed.

(** The channels that are not on the descriptor of [x] are the same in
    both worlds, and no other channel is on it. *)
Lemma step_elsewhere y chy :
  Channel.loop_ chy ≠ Channel.loop_ ch ∨ Channel.fd_ chy ≠ Channel.fd_ ch →
  channels w' !! y = Some chy ↔ channels w !! y = Some chy.
Proof.
  intros Hne. rewrite Hchs, lookup_insert. case_decide as Hxy; [subst y | done].
  rewrite Hx. split; intros [= <-]; exfalso; intuition congruence.
Qed.

Lemma step_here y chy :
  channels w' !! y = Some chy → Channel.loop_ chy = Channel.loop_ ch →
  Channel.fd_ chy = Channel.fd_ ch → y = x ∧ chy = ch'.
Proof.
  rewrite Hchs, lookup_insert. case_decide as Hxy; [by intros [= <-] |].
  intros Hy ??. destruct Hxy. symmetry. by eapply (ro_fd w Hok).
Qed.

Lemma step_poller_same : poller_ok w' (Channel.loop_ ch) p'.
Proof.
  pose proof (ro_poller w Hok _ p Hp) as [Hi Hm]. pose proof step_channel.
  split; intros fd.
  - intros ev. rewrite Hep. destruct (decide (fd = Channel.fd_ ch)) as [->|Hne].
    + rewrite Hix. split; [intros [? ->]; by exists x, ch' |].
      intros (y & chy & Hy & ? & ? & ? & ->). by destruct (step_here y chy) as [-> ->].
    + rewrite Hifd, Hi by done. do 2 (apply exist_proper; intros ?).
      split; intros (? & ? & <- & ? & ?); (split_and!; try done; apply step_elsewhere; auto).
  - intros y. destruct (decide (fd = Channel.fd_ ch)) as [->|Hne].
    + rewrite Hmx. split; [intros [? ->]; by exists ch' |].
      intros (chy & Hy & ? & ? & ?). by destruct (step_here y chy) as [-> ->].
    + rewrite Hmfd, Hm by done. apply exist_proper; intros ?.
      split; intros (? & ? & <- & ?); (split_and!; try done; apply step_elsewhere; auto).
Qed.

Lemma step_poller_other l' q :
  l' ≠ Channel.loop_ ch → pollers w !! l' = Some q → poller_ok w' l' q.
Proof.
  intros Hll Hq. pose proof (ro_poller w Hok l' q Hq) as [Hi Hm].
  assert (EpollPoller.epoll_fd_ q ≠ EpollPoller.epoll_fd_ p) as Hepne
    by (intros ?; apply Hll; by eapply (ro_epoll_fd w Hok)).
  split; intros fd.
  - intros ev. rewrite Hioth, Hi by done. do 2 (apply exist_proper; intros ?).
    split; intros (? & <- & ? & ? & ?); (split_and!; try done; apply step_elsewhere; auto).
  - intros y. rewrite Hm. apply exist_proper; intros ?.
    split; intros (? & <- & ? & ?); (split_and!; try done; apply step_elsewhere; auto).
Qed.

Lemma reactor_ok_step : reactor_ok w'.
Proof.
  split.
  - intros l' q. rewrite Hps, lookup_insert. case_decide as Hll.
    + intros [= <-]. subst l'. apply step_poller_same.
    + apply step_poller_other. congruence.
  - intros l1 l2 q1 q2 Hq1 Hq2 Heq. rewrite Hps, lookup_insert in Hq1, Hq2.
    repeat case_decide; simplify_eq; try done;
      eapply (ro_epoll_fd w Hok); eauto; congruence.
  - intros l' q. rewrite Hopen, Hps, lookup_insert. case_decide.
    + intros [= <-]. rewrite Hep. by apply (ro_epoll_open w Hok (Channel.loop_ ch)).
    + apply (ro_epoll_open w Hok).
  - intros y chy Hy. assert (∀ l', is_Some (pollers w !! l') → is_Some (pollers w' !! l')) as Hpl.
    { intros l' ?. rewrite Hps, lookup_insert. by case_decide. }
    rewrite Hchs, lookup_insert in Hy. case_decide; simplify_eq.
    + split; [| done.. |]; [apply Hpl; rewrite Hl; by eexists |].
      rewrite Hopen, Hfd. by eapply co_open, (ro_channel w Hok).
    + destruct (ro_channel w Hok y chy Hy). split; rewrite ?Hopen; auto.
  - intros y1 y2 ch1 ch2 Hy1 Hy2 ?. rewrite Hchs, lookup_insert in Hy1, Hy2.
    repeat case_decide; simplify_eq; try done;
      eapply (ro_fd w Hok); eauto; congruence.
  - rewrite Hopen. apply (ro_neg w Hok).
Qed.
End step.
End invariant.

(** ** The operations *)

Lemma interest_set ep m o ep' :
  interest (set_interest ep m o) ep' = if decide (ep = ep') then m else interest o ep'.
Proof.
  unfold interest, set_interest. unfold upd; cbn [k_interest]. rewrite lookup_insert. by case_decide.
Qed.

Lemma same_io_set_interest ep m o : same_io o (set_interest ep m o).
Proof. done. Qed.

Section ops.
Context {E : Type} `{KernelLaws E}.
Implicit Types w : World E.

Lemma wp_Update_set l op x p ch Q w :
  op ≠ EPOLL_CTL_DEL →
  pollers w !! l = Some p → channels w !! x = Some ch →
  (∀ e', observe e' = set_interest (EpollPoller.epoll_fd_ p)
       (<[Channel.fd_ ch := make_event x ch]> (interest (obs w) (EpollPoller.epoll_fd_ p)))
       (obs w) →
     Q tt (w <| env := e' |>)) →
  wp fatal_exit (PollerOps.Update l op x) Q w.
Proof.
  intros Hop Hp Hx HQ. unfold PollerOps.Update. wp_steps. destruct a as [n errno].
  assert ((n = -1) ∨ (n = 0 ∧ observe e' = set_interest (EpollPoller.epoll_fd_ p)
    (<[Channel.fd_ ch := make_event x ch]> (interest (obs w) (EpollPoller.epoll_fd_ p)))
    (obs w))) as [->|[-> Ho]].
  { destruct op; [| | done].
    - apply epoll_add_law in Hsys as [[-> _]|(-> & _ & _ & ?)]; [by left | by right].
    - apply epoll_mod_law in Hsys as [[-> _]|(-> & _ & ?)]; [by left | by right]. }
  - wp_step; [| done]. rewrite decide_False by done. wp_step.
  - wp_step; [done |]. by apply HQ.
Qed.

Lemma wp_Update_del l x p ch Q w :
  pollers w !! l = Some p → channels w !! x = Some ch →
  EpollPoller.epoll_fd_ p ∈ k_open (obs w) →
  is_Some (interest (obs w) (EpollPoller.epoll_fd_ p) !! Channel.fd_ ch) →
  (∀ e', observe e' = set_interest (EpollPoller.epoll_fd_ p)
       (delete (Channel.fd_ ch) (interest (obs w) (EpollPoller.epoll_fd_ p))) (obs w) →
     Q tt (w <| env := e' |>)) →
  wp fatal_exit (PollerOps.Update l EPOLL_CTL_DEL x) Q w.
Proof.
  intros Hp Hx Hep [ev Hi] HQ. unfold PollerOps.Update. wp_steps. destruct a as [n errno].
  apply epoll_del_law in Hsys as [(_ & Hno & _)|(-> & _ & Ho)];
    [by rewrite (Hno Hep) in Hi |].
  wp_step; [done |]. by apply HQ.
Qed.

(** The interest list of a good world at the descriptor of a channel. *)
Lemma interest_at w x ch p :
  reactor_ok w → channels w !! x = Some ch → pollers w !! Channel.loop_ ch = Some p →
  Channel.index_ ch = kAdded →
  interest (obs w) (EpollPoller.epoll_fd_ p) !! Channel.fd_ ch = Some (make_event x ch).
Proof. intros Hok Hx Hp Hi. apply (po_interest _ _ _ (ro_poller w Hok _ p Hp)). by exists x, ch. Qed.

Lemma interest_none w x ch p :
  reactor_ok w → channels w !! x = Some ch → pollers w !! Channel.loop_ ch = Some p →
  Channel.index_ ch ≠ kAdded →
  interest (obs w) (EpollPoller.epoll_fd_ p) !! Channel.fd_ ch = None.
Proof.
  intros Hok Hx Hp Hi. apply eq_None_not_Some. intros [ev Hev].
  apply (po_interest _ _ _ (ro_poller w Hok _ p Hp)) in Hev as (y & chy & Hy & ? & ? & ? & _).
  assert (y = x) as -> by (by eapply (ro_fd w Hok)). congruence.
Qed.

Lemma map_at w x ch p :
  reactor_ok w → channels w !! x = Some ch → pollers w !! Channel.loop_ ch = Some p →
  registered (Channel.index_ ch) → EpollPoller.channels_ p !! Channel.fd_ ch = Some x.
Proof. intros Hok Hx Hp Hi. apply (po_map _ _ _ (ro_poller w Hok _ p Hp)). by exists ch. Qed.

(** What is left to check when an operation on [x] has set its interest to
    [oi] and its entry in [channels_] to [om]. *)
Lemma chan_step_intro w w' x ch ch' p p' (oi : option epoll_event) (om : option nat) :
  reactor_ok w → channels w !! x = Some ch → pollers w !! Channel.loop_ ch = Some p →
  channels w' = <[x := ch']> (channels w) →
  pollers w' = <[Channel.loop_ ch := p']> (pollers w) →
  same_upper w w' →
  Channel.loop_ ch' = Channel.loop_ ch → Channel.fd_ ch' = Channel.fd_ ch →
  (Channel.index_ ch' = kNew ∨ registered (Channel.index_ ch')) →
  0 ≤ Channel.events_ ch' < 2 ^ 31 →
  EpollPoller.epoll_fd_ p' = EpollPoller.epoll_fd_ p →
  (∀ ep, interest (obs w') ep =
     if decide (EpollPoller.epoll_fd_ p = ep)
     then partial_alter (λ _, oi) (Channel.fd_ ch) (interest (obs w) ep)
     else interest (obs w) ep) →
  EpollPoller.channels_ p' = partial_alter (λ _, om) (Channel.fd_ ch) (EpollPoller.channels_ p) →
  (oi = if decide (Channel.index_ ch' = kAdded) then Some (make_event x ch') else None) →
  (om = if decide (registered (Channel.index_ ch')) then Some x else None) →
  chan_step w w' x ch'.
Proof.
  intros Hok Hx Hp Hchs Hps Hup Hl Hfd Hidx Hevs Hep Hi Hm Hoi Hom. split; [done | done | |].
  - intros l. rewrite Hps, lookup_insert.
    destruct (decide (Channel.loop_ ch = l)) as [<-|]; [| done]. rewrite Hp. cbn. by rewrite Hep.
  - eapply (reactor_ok_step w w' x ch ch' p p'); eauto.
    + apply (si_open _ _ (su_io _ _ Hup)).
    + intros ep Hne. by rewrite Hi, decide_False.
    + intros fd Hne. rewrite Hi, decide_True by done. by rewrite lookup_partial_alter_ne.
    + intros fd Hne. rewrite Hm. by rewrite lookup_partial_alter_ne.
    + intros ev. rewrite Hi, decide_True by done. rewrite lookup_partial_alter_eq, Hoi.
      destruct (decide (_ = kAdded)); [split; [by intros [= <-] | by intros [_ ->]] |].
      split; [done | by intros [? _]].
    + intros y. rewrite Hm, lookup_partial_alter_eq, Hom.
      destruct (decide (registered _)); [split; [by intros [= <-] | by intros [_ ->]] |].
      split; [done | by intros [? _]].
Qed.

(** The interest lists after a change at one descriptor of one of them. *)
Lemma interest_changed ep fd o o' oi :
  o' = set_interest ep (partial_alter (λ _, oi) fd (interest o ep)) o →
  ∀ ep', interest o' ep' =
    if decide (ep = ep') then partial_alter (λ _, oi) fd (interest o ep') else interest o ep'.
Proof. intros -> ep'. rewrite interest_set. by destruct (decide (ep = ep')) as [<-|]. Qed.

(** The four branches of [EpollPoller::UpdateChannel], on a channel whose
    events were just set to [evs]. *)
Section update.
Context (x : nat) (ch : Channel.t) (evs : Z) (Q : unit → World E → Prop) (w : World E)
  (p : EpollPoller.t).
Context (Hok : reactor_ok w) (Hx : channels w !! x = Some ch) (Hevs : 0 ≤ evs < 2 ^ 31)
  (Hp : pollers w !! Channel.loop_ ch = Some p).

#[local] Abbreviation l := (Channel.loop_ ch).
#[local] Abbreviation ep := (EpollPoller.epoll_fd_ p).
#[local] Abbreviation fd := (Channel.fd_ ch).
#[local] Abbreviation ch1 := (ch <| Channel.events_ := evs |>).
#[local] Abbreviation w1 := (w <| channels ::= <[x := ch1]> |>).
#[local] Abbreviation i' := (next_index (Channel.index_ ch) evs).

Context (HQ : ∀ w', chan_step w w' x (ch1 <| Channel.index_ := i' |>) → Q tt w').

Lemma update_done w' p' oi :
  channels w' = <[x := ch1 <| Channel.index_ := i' |>]> (channels w) →
  pollers w' = <[l := p']> (pollers w) → same_upper w w' →
  EpollPoller.epoll_fd_ p' = ep →
  obs w' = set_interest ep (partial_alter (λ _, oi) fd (interest (obs w) ep)) (obs w) →
  EpollPoller.channels_ p' = <[fd := x]> (EpollPoller.channels_ p) →
  oi = (if decide (i' = kAdded) then Some (make_event x (ch1 <| Channel.index_ := i' |>))
        else None) →
  Q tt w'.
Proof.
  intros ????? Hm Hoi. apply HQ.
  eapply (chan_step_intro w w' x ch _ p p' oi (Some x)); try done.
  - right. apply next_index_registered.
  - by apply interest_changed.
  - upd_simpl. rewrite decide_True; [done | apply next_index_registered].
Qed.

(** The side conditions of [update_done] after a call of [epoll_ctl]. *)
Ltac solve_update He' :=
  upd_simpl;
  first [ done | by rewrite insert_insert_eq | by rewrite insert_id
        | split; upd_simpl; try done; rewrite He'; apply same_io_set_interest
        | by rewrite decide_True | by rewrite decide_False ].

Lemma channels_unchanged :
  registered (Channel.index_ ch) → EpollPoller.channels_ p = <[fd := x]> (EpollPoller.channels_ p).
Proof. intros Hr. symmetry. apply insert_id. by apply (map_at w). Qed.

Lemma wp_update_new :
  Channel.index_ ch = kNew →
  wp fatal_exit
    (upd_poller l (λ p, p <| EpollPoller.channels_ ::= <[fd := x]> |>);;
     SetIndex x kAdded;; PollerOps.Update l EPOLL_CTL_ADD x) Q w1.
Proof.
  intros Hi. assert (i' = kAdded) as Hi' by (unfold next_index; by rewrite Hi).
  unfold SetIndex. do 4 wp_step. eapply wp_Update_set; [done | find_object | find_object |].
  intros e' He'. rewrite <- Hi' in *. upd_simpl.
  eapply (update_done _ _ (Some (make_event x (ch1 <| Channel.index_ := i' |>))));
    solve_update He'.
Qed.

Lemma wp_update_readd :
  Channel.index_ ch = kDeleted →
  wp fatal_exit (SetIndex x kAdded;; PollerOps.Update l EPOLL_CTL_ADD x) Q w1.
Proof.
  intros Hi. assert (i' = kAdded) as Hi' by (unfold next_index; by rewrite Hi).
  unfold SetIndex. do 2 wp_step. eapply wp_Update_set; [done | find_object | find_object |].
  intros e' He'. rewrite <- Hi' in *. upd_simpl.
  eapply (update_done _ p (Some (make_event x (ch1 <| Channel.index_ := i' |>))));
    try (apply channels_unchanged; by right); solve_update He'.
Qed.

Lemma wp_update_delete :
  Channel.index_ ch = kAdded → evs = kNoneEvent →
  wp fatal_exit (SetIndex x kDeleted;; PollerOps.Update l EPOLL_CTL_DEL x) Q w1.
Proof.
  intros Hi Hn. assert (i' = kDeleted) as Hi' by (unfold next_index; by rewrite Hi, Hn).
  unfold SetIndex. do 2 wp_step. eapply wp_Update_del; [find_object | find_object | upd_simpl; by eapply (ro_epoll_open w) | |].
  { upd_simpl. eexists. by apply interest_at. }
  assert (i' ≠ kAdded) by (by rewrite Hi').
  intros e' He'. rewrite <- Hi' in *. upd_simpl.
  eapply (update_done _ p None);
    try (apply channels_unchanged; by left); solve_update He'.
Qed.

Lemma wp_update_modify :
  Channel.index_ ch = kAdded → evs ≠ kNoneEvent →
  wp fatal_exit (PollerOps.Update l EPOLL_CTL_MOD x) Q w1.
Proof.
  intros Hi Hn. assert (i' = kAdded) as Hi'.
  { unfold next_index. apply Z.eqb_neq in Hn. by rewrite Hn, andb_false_r. }
  eapply wp_Update_set; [done | find_object | find_object |].
  assert (ch1 <| Channel.index_ := i' |> = ch1) as Hch by (by rewrite Hi', <- Hi).
  intros e' He'. upd_simpl.
  eapply (update_done _ p (Some (make_event x ch1))); rewrite ?Hch.
  - done.
  - upd_simpl. by rewrite insert_id.
  - solve_update He'.
  - done.
  - done.
  - apply channels_unchanged. by left.
  - by rewrite decide_True.
Qed.
End update.

(** [Update] after the events of a channel were set to [evs]. *)
Lemma wp_Channel_Update x ch evs Q w :
  reactor_ok w → channels w !! x = Some ch → 0 ≤ evs < 2 ^ 31 →
  (∀ w', chan_step w w' x (ch <| Channel.events_ := evs |>
       <| Channel.index_ := next_index (Channel.index_ ch) evs |>) → Q tt w') →
  wp fatal_exit (ChannelOps.Update x) Q
    (w <| channels ::= <[x := ch <| Channel.events_ := evs |>]> |>).
Proof.
  intros Hok Hx Hevs HQ. destruct (ro_channel w Hok x ch Hx) as [[p Hp] Hidx _ _].
  unfold ChannelOps.Update, EventLoop_UpdateChannel, UpdateChannel. do 4 wp_step.
  wp_step; bool_simpl; [by eapply wp_update_new |].
  wp_step; bool_simpl; [by eapply wp_update_readd |].
  assert (Channel.index_ ch = kAdded) by (destruct Hidx as [|[]]; done).
  unfold IsNoneEvent. upd_simpl.
  wp_step; bool_simpl; [by eapply wp_update_delete | by eapply wp_update_modify].
Qed.

(** The operations that change the events of a channel. *)
Lemma wp_set_events x ch (f : Z → Z) Q w :
  reactor_ok w → channels w !! x = Some ch → 0 ≤ f (Channel.events_ ch) < 2 ^ 31 →
  (∀ w', chan_step w w' x (ch <| Channel.events_ := f (Channel.events_ ch) |>
       <| Channel.index_ := next_index (Channel.index_ ch) (f (Channel.events_ ch)) |>) →
     Q tt w') →
  wp fatal_exit
    (upd_channel x (λ ch, ch <| Channel.events_ ::= f |>);; ChannelOps.Update x) Q w.
Proof. intros Hok Hx Hf HQ. do 2 wp_step. by eapply wp_Channel_Update. Qed.

(** [Channel::Remove]: [RemoveChannel] leaves neither an entry in
    [channels_] nor an interest. *)
Lemma wp_Channel_Remove x ch Q w :
  reactor_ok w → channels w !! x = Some ch →
  (∀ w', chan_step w w' x (ch <| Channel.index_ := kNew |>) → Q tt w') →
  wp fatal_exit (ChannelOps.Remove x) Q w.
Proof.
  intros Hok Hx HQ. destruct (ro_channel w Hok x ch Hx) as [[p Hp] Hidx Hev _].
  unfold ChannelOps.Remove, EventLoop_RemoveChannel, RemoveChannel, SetIndex.
  do 8 wp_step; bool_simpl.
  - eapply wp_Update_del; [find_object | find_object | upd_simpl; by eapply (ro_epoll_open w) | |].
    { upd_simpl. eexists. by apply interest_at. }
    intros e' He'. wp_step. upd_simpl. apply HQ.
    eapply (chan_step_intro w _ x ch _ p _ None None); try done.
    + split; upd_simpl; try done. rewrite He'. apply same_io_set_interest.
    + by left.
    + by apply interest_changed.
  - wp_step. apply HQ.
    eapply (chan_step_intro w _ x ch _ p _ None None); try done.
    + by left.
    + intros ep. upd_simpl. destruct (decide _) as [<-|]; [| done]. symmetry.
      change (delete (Channel.fd_ ch) (interest (obs w) (EpollPoller.epoll_fd_ p)) =
        interest (obs w) (EpollPoller.epoll_fd_ p)).
      apply delete_id. by eapply (interest_none w).
Qed.
End ops.

(** ** What the invariant depends on *)

(** The members of a channel and of a poller the invariant speaks of. *)
Definition core (ch : Channel.t) : nat * Z * Z * Z :=
  (Channel.loop_ ch, Channel.fd_ ch, Channel.events_ ch, Channel.index_ ch).
Definition poller_core (p : EpollPoller.t) : gmap Z nat * Z :=
  (EpollPoller.channels_ p, EpollPoller.epoll_fd_ p).

Lemma make_event_core x ch ch' : core ch = core ch' → make_event x ch = make_event x ch'.
Proof. unfold core, make_event. intros [=]. cbn [ev_events]. congruence. Qed.

Section core.
Context {E : Type} `{Kernel E}.
Implicit Types w : World E.

Record same_core w w' : Prop := {
  sc_channels x : core <$> channels w' !! x = core <$> channels w !! x;
  sc_pollers l : poller_core <$> pollers w' !! l = poller_core <$> pollers w !! l;
  sc_obs : obs w' = obs w;
}.

#[export] Instance same_core_equivalence : Equivalence same_core.
Proof.
  split.
  - by split.
  - intros w w' []. split; intros; symmetry; auto.
  - intros w1 w2 w3 [] []. split; intros; etrans; eauto.
Qed.

Lemma same_core_channel w w' x ch' :
  same_core w w' → channels w' !! x = Some ch' →
  ∃ ch, channels w !! x = Some ch ∧ core ch = core ch'.
Proof.
  intros Hsc Hx. pose proof (sc_channels _ _ Hsc x) as He. rewrite Hx in He.
  symmetry in He. apply fmap_Some in He as (ch & ? & ?). by exists ch.
Qed.

Lemma same_core_poller w w' l p' :
  same_core w w' → pollers w' !! l = Some p' →
  ∃ p, pollers w !! l = Some p ∧ poller_core p = poller_core p'.
Proof.
  intros Hsc Hl. pose proof (sc_pollers _ _ Hsc l) as He. rewrite Hl in He.
  symmetry in He. apply fmap_Some in He as (p & ? & ?). by exists p.
Qed.

Lemma poller_ok_core w w' l p p' :
  same_core w w' → poller_core p = poller_core p' → poller_ok w l p → poller_ok w' l p'.
Proof.
  intros Hsc Hpc [Hi Hm]. injection Hpc as Hc1 Hc2.
  assert (∀ x P, (∃ ch, channels w !! x = Some ch ∧ P (core ch)) ↔
                 (∃ ch, channels w' !! x = Some ch ∧ P (core ch))) as Hex.
  { intros x P. split; intros (ch & Hx & HP);
      [eapply (same_core_channel w' w) in Hx | eapply (same_core_channel w w') in Hx];
      try done; destruct Hx as (ch0 & ? & Heq); exists ch0; by rewrite Heq. }
  split; intros fd.
  - intros ev. rewrite (sc_obs _ _ Hsc), <- Hc2, Hi. apply exist_proper. intros x.
    apply (Hex x (λ '(l', fd', evs, i), l' = l ∧ fd' = fd ∧ i = kAdded ∧
      ev = mk_event (u32 evs) (DataPtr x))).
  - intros x. rewrite <- Hc1, Hm.
    apply (Hex x (λ '(l', fd', _, i), l' = l ∧ fd' = fd ∧ registered i)).
Qed.

Lemma reactor_ok_core w w' : same_core w w' → reactor_ok w → reactor_ok w'.
Proof.
  intros Hsc [Hpo Hef Heo Hch Hfd Hneg]. split.
  - intros l p' (p & Hp & ?)%(same_core_poller _ _ _ _ Hsc). eapply poller_ok_core; eauto.
  - intros l l' p1' p2' (p1 & Hp1 & [= _ Hc1])%(same_core_poller _ _ _ _ Hsc)
      (p2 & Hp2 & [= _ Hc2])%(same_core_poller _ _ _ _ Hsc) ?. eapply Hef; eauto. congruence.
  - intros l p' (p & Hp & [= _ <-])%(same_core_poller _ _ _ _ Hsc).
    rewrite (sc_obs _ _ Hsc). by eapply Heo.
  - intros x ch' (ch & Hx & [= Hl Hf He Hi])%(same_core_channel _ _ _ _ Hsc).
    destruct (Hch x ch Hx) as [[p Hp] ???].
    split; rewrite <- ?Hl, <- ?Hf, <- ?He, <- ?Hi, ?(sc_obs _ _ Hsc); try done.
    pose proof (sc_pollers _ _ Hsc (Channel.loop_ ch)) as Hq. rewrite Hp in Hq.
    apply fmap_Some in Hq as (p' & ? & _). by eexists.
  - intros x y chx' chy' (chx & Hx & [= ? ? ? ?])%(same_core_channel _ _ _ _ Hsc)
      (chy & Hy & [= ? ? ? ?])%(same_core_channel _ _ _ _ Hsc) ?.
    eapply Hfd; eauto; congruence.
  - by rewrite (sc_obs _ _ Hsc).
Qed.

(** A channel updated in members the invariant does not speak of. *)
Lemma same_core_upd w x ch ch' :
  channels w !! x = Some ch → core ch' = core ch →
  same_core w (w <| channels ::= <[x := ch']> |>).
Proof.
  intros Hx Hc. split; [| done | done]. intros y. upd_simpl. rewrite lookup_insert.
  destruct (decide (x = y)) as [<-|]; [| done]. rewrite Hx. cbn. by rewrite Hc.
Qed.
End core.

(** ** Bounds of event masks *)

Lemma mask_bound a : 0 ≤ a < 2 ^ 31 ↔ 0 ≤ a ∧ Z.shiftr a 31 = 0.
Proof.
  rewrite Z.shiftr_div_pow2 by done. split; intros [? Ha]; split; try done.
  - by apply Z.div_small.
  - apply Z.div_small_iff in Ha; [| done]. lia.
Qed.

Lemma lor_mask_bound a b : 0 ≤ a < 2 ^ 31 → 0 ≤ b < 2 ^ 31 → 0 ≤ Z.lor a b < 2 ^ 31.
Proof.
  rewrite !mask_bound. intros [? Ha] [? Hb].
  by rewrite Z.lor_nonneg, Z.shiftr_lor, Ha, Hb.
Qed.

Lemma land_mask_bound a b : 0 ≤ a < 2 ^ 31 → 0 ≤ Z.land a b < 2 ^ 31.
Proof.
  rewrite !mask_bound. intros [? Ha].
  rewrite Z.land_nonneg, Z.shiftr_land, Ha, Z.land_0_l. auto.
Qed.
