(* ===== verification/PollInv.v ===== *)
(** * What [EpollPoller::Poll] hands to the loop

    In a good world the events [epoll_wait] stores are those of live channels
    of the poller's loop.  [wp_Poll] says what is left of [Poll] for its
    callers: which channels it adds to the list of active ones, and the
    [revents_] it gives them. *)

From S2P Require Import Prelude Format Kernel Buffer Objects PollerOps ChannelOps ReactorInv.

(** The event reported for a channel is one of those it asked for, or an
    error or a hang-up. *)
Definition reportable (events revents : Z) : Prop :=
  0 ≤ revents < 2 ^ 31 ∧
  Z.land revents (Z.lnot (Z.lor events (Z.lor EPOLLERR EPOLLHUP))) = 0.

(** [channels_] after the [revents_] of the listed channels were set. *)
Fixpoint set_revents (revs : list (nat * Z)) (m : gmap nat Channel.t) : gmap nat Channel.t :=
  match revs with
  | [] => m
  | (x, r) :: revs => set_revents revs (alter (λ ch, ch <| Channel.revents_ := r |>) x m)
  end.

Lemma set_revents_lookup_ne revs m x :
  x ∉ revs.*1 → set_revents revs m !! x = m !! x.
Proof.
  revert m. induction revs as [|[y r] revs IH]; intros m; cbn; [done |].
  intros [? ?]%not_elem_of_cons. rewrite IH by done. by rewrite lookup_alter_ne.
Qed.

Lemma set_revents_lookup revs m x r :
  NoDup revs.*1 → (x, r) ∈ revs →
  set_revents revs m !! x = (λ ch, ch <| Channel.revents_ := r |>) <$> m !! x.
Proof.
  revert m. induction revs as [|[y s] revs IH]; intros m; cbn; [by intros ? ?%not_elem_of_nil |].
  intros [Hy Hnd]%NoDup_cons [[= -> ->]|Hin]%elem_of_cons.
  - rewrite set_revents_lookup_ne by done. by rewrite lookup_alter_eq.
  - rewrite IH by done. rewrite lookup_alter_ne; [done |].
    intros ->. apply Hy. apply list_elem_of_fmap. by exists (x, r).
Qed.

Lemma set_revents_fmap {B} (g : Channel.t → B) revs m x :
  (∀ ch r, g (ch <| Channel.revents_ := r |>) = g ch) →
  g <$> set_revents revs m !! x = g <$> m !! x.
Proof.
  intros Hg. revert m. induction revs as [|[y s] revs IH]; intros m; cbn; [done |].
  rewrite IH, lookup_alter. case_decide; [subst y | done].
  destruct (m !! x); cbn; [by rewrite Hg | done].
Qed.

(** The events of [evs] are those of the channels listed in [revs]. *)
Definition carries (ev : epoll_event) (xr : nat * Z) : Prop :=
  ev_data ev = DataPtr xr.1 ∧ i32 (ev_events ev) = xr.2.

Lemma alter_insert_eq {A} (f : A → A) (m : gmap nat A) x a :
  m !! x = Some a → alter f x m = <[x := f a]> m.
Proof.
  intros Hx. apply map_eq. intros y. rewrite lookup_alter, lookup_insert.
  case_decide; [subst y; by rewrite Hx | done].
Qed.

Section poll.
Context {E : Type} `{KernelLaws E}.
Implicit Types w : World E.

Lemma wp_fill_active X l revs : ∀ i p evs active Q w,
  pollers w !! l = Some p → Forall2 carries evs revs →
  Forall (λ xr, is_Some (channels w !! xr.1)) revs →
  ztake (zlen evs) (zdrop (Z.of_nat i) (EpollPoller.events_ p)) = evs →
  Q (active ++ revs.*1) (w <| channels ::= set_revents revs |>) →
  wp X (fill_active_channels l i (length evs) active) Q w.
Proof.
  induction revs as [|[x r] revs IH]; intros i p evs active Q w Hp Hc Hlive Hevs HQ.
  - apply Forall2_nil_inv_r in Hc as ->. cbn [length fill_active_channels fmap list_fmap] in *. wp_step. rewrite app_nil_r in HQ. by destruct w.
  - apply Forall2_cons_inv_r in Hc as (ev & evs' & [Hd He] & Hc & ->).
    apply Forall_cons in Hlive as [[ch Hx] Hlive]. cbn [length fill_active_channels fst snd] in *.
    wp_step. wp_step. unfold ztake, zdrop, zlen in Hevs. rewrite !Nat2Z.id in Hevs.
    cbn [length take] in Hevs.
    destruct (drop i (EpollPoller.events_ p)) as [|ev' rest] eqn:Hdrop; [done |].
    injection Hevs as -> Htake.
    assert (EpollPoller.events_ p !! i = Some ev) as ->.
    { rewrite <- (Nat.add_0_r i), <- lookup_drop, Hdrop. done. }
    rewrite Hd. unfold SetRevents. wp_step. wp_step. eapply IH; [find_object | done | | |].
    + eapply Forall_impl; [exact Hlive |]. intros [y s] Hy. cbn [fst] in *. upd_simpl.
      rewrite lookup_insert. by case_decide.
    + unfold ztake, zdrop, zlen. rewrite !Nat2Z.id.
      replace (drop (S i) (EpollPoller.events_ p)) with rest; [done |].
      by rewrite <- Nat.add_1_r, <- drop_drop, Hdrop.
    + rewrite <- app_assoc. cbn [app fmap list_fmap fst] in HQ. rewrite He.
      replace (_ <| channels ::= set_revents revs |>)
        with (w <| channels ::= set_revents ((x, r) :: revs) |>); [done |].
      unfold upd. cbn. f_equal. by rewrite (alter_insert_eq _ _ _ ch).
Qed.

(** An entry of the list of events: a live channel of the loop, in the
    poller, with events that may be reported for it. *)
Definition reported w (l : nat) (xr : nat * Z) : Prop :=
  ∃ ch, channels w !! xr.1 = Some ch ∧ Channel.loop_ ch = l ∧
    Channel.index_ ch = kAdded ∧ reportable (Channel.events_ ch) xr.2.

(** What [Poll] changes. *)
Record polled w w' (revs : list (nat * Z)) : Prop := {
  pd_channels : channels w' = set_revents revs (channels w);
  pd_core : same_core w w';
  pd_upper : same_upper w w';
  pd_log : log w `suffix_of` log w';
}.

(** The entries of an interest list belong to distinct live channels. *)
Lemma reported_events w l p evs fds :
  reactor_ok w → pollers w !! l = Some p → NoDup fds →
  Forall2 (λ ev fd, ∃ reg, interest (obs w) (EpollPoller.epoll_fd_ p) !! fd = Some reg ∧
    ev_data ev = ev_data reg ∧ 0 ≤ ev_events ev < 2 ^ 31 ∧
    Z.land (ev_events ev)
      (Z.lnot (Z.lor (ev_events reg) (Z.lor EPOLLERR EPOLLHUP))) = 0) evs fds →
  ∃ revs, Forall2 carries evs revs ∧ NoDup revs.*1 ∧ Forall (reported w l) revs ∧
    ∀ x, x ∈ revs.*1 → ∃ ch, channels w !! x = Some ch ∧ Channel.fd_ ch ∈ fds.
Proof.
  intros Hok Hp. revert evs. induction fds as [|fd fds IH]; intros evs Hnd Hall.
  { apply Forall2_nil_inv_r in Hall as ->. exists []. split_and!; try constructor.
    by intros x ?%not_elem_of_nil. }
  apply NoDup_cons in Hnd as [Hfd Hnd].
  apply Forall2_cons_inv_r in Hall as (ev & evs' & (reg & Hreg & Hd & Hb & Hm) & Hall & ->).
  destruct (IH evs' Hnd Hall) as (revs & Hc & Hndr & Hrep & Hsub).
  apply (po_interest _ _ _ (ro_poller w Hok l p Hp)) in Hreg
    as (x & ch & Hx & Hl & Hf & Hi & ->). cbn [make_event ev_data ev_events] in *.
  pose proof (co_events _ _ (ro_channel w Hok x ch Hx)) as Hev.
  rewrite u32_small in Hm by lia.
  exists ((x, ev_events ev) :: revs). split_and!.
  - constructor; [| done]. split; [done |]. apply i32_small. cbn [snd]. lia.
  - cbn. apply NoDup_cons. split; [| done]. intros (chx & Hx' & Hin)%Hsub. congruence.
  - constructor; [| done]. by exists ch.
  - cbn. intros y [->|(chy & ? & ?)%Hsub]%elem_of_cons.
    + exists ch. split; [done |]. apply elem_of_cons. auto.
    + exists chy. split; [done |]. apply elem_of_cons. auto.
Qed.

Lemma polled_core w w' revs :
  channels w' = set_revents revs (channels w) →
  (∀ l, poller_core <$> pollers w' !! l = poller_core <$> pollers w !! l) →
  obs w' = obs w → same_core w w'.
Proof.
  intros Hc Hp Ho. split; [| done | done]. intros x. rewrite Hc. by apply set_revents_fmap.
Qed.

Lemma poller_core_insert w l p p' l' :
  pollers w !! l = Some p → poller_core p' = poller_core p →
  poller_core <$> <[l := p']> (pollers w) !! l' = poller_core <$> pollers w !! l'.
Proof.
  intros Hp Hc. rewrite lookup_insert. destruct (decide (l = l')) as [<-|]; [| done].
  rewrite Hp. cbn. by rewrite Hc.
Qed.

Lemma zsplice_0_take d (evs : list epoll_event) :
  zlen d ≤ zlen evs → ztake (zlen d) (zdrop (Z.of_nat 0) (zsplice 0 d evs)) = d.
Proof.
  intros ?. unfold zsplice. rewrite ztake_0, zdrop_0. cbn [app].
  rewrite ztake_app_le by lia. by rewrite ztake_all by lia.
Qed.

Lemma polled_intro w w' revs l p p' :
  pollers w !! l = Some p → pollers w' = <[l := p']> (pollers w) →
  poller_core p' = poller_core p → channels w' = set_revents revs (channels w) →
  obs w' = obs w → same_upper w w' → log w `suffix_of` log w' → polled w w' revs.
Proof.
  intros Hp Hps Hc Hchs Ho Hup Hlog. split; [done | | done | done]. apply (polled_core _ _ revs); try done.
  intros l'. rewrite Hps. by apply poller_core_insert with p.
Qed.

Lemma wp_Poll X l p t active Q w :
  reactor_ok w → pollers w !! l = Some p →
  (∀ now revs w', polled w w' revs → NoDup revs.*1 → Forall (reported w l) revs →
     Q (now, active ++ revs.*1) w') →
  wp X (Poll l t active) Q w.
Proof.
  intros Hok Hp HQ. unfold Poll, Timestamp_Now.
  do 4 wp_step. destruct a as [[n err] evs].
  apply epoll_wait_law in Hsys as [Ho Hn]. do 4 wp_step. apply time_law in Hsys.
  upd_simpl. assert (Ho' : observe e'0 = obs w) by congruence.
  assert (∀ now, Q (now, active) (w <| env := e' |>
    <| pollers ::= <[l := p <| EpollPoller.events_ ::= zsplice 0 evs |>]> |> <| env := e'0 |>))
    as Hnone.
  { intros now. specialize (HQ now []). rewrite app_nil_r in HQ. apply HQ; [| constructor..].
    eapply (polled_intro _ _ _ l p); [done.. | | by exists []]. split; upd_simpl; try done. by rewrite Ho'. }
  wp_step; bool_simpl; [| wp_step; [by wp_step |]; wp_step; wp_step; [wp_step |]; wp_step].
  - destruct Hn as [[-> _]|(Hn & -> & fds & Hnd & Hall)]; [lia |].
    destruct (reported_events w l p evs fds Hok Hp Hnd Hall) as (revs & Hc & Hndr & Hrep & _).
    assert (zlen evs ≤ zlen (EpollPoller.events_ p)) as Hle.
    { pose proof (zlen_nonneg (EpollPoller.events_ p)). unfold i32 in Hn.
      pose proof (Z.mod_le (zlen (EpollPoller.events_ p) + 2 ^ 31) (2 ^ 32)). lia. }
    wp_step. unfold FillActiveChannels, zlen at 1. rewrite Nat2Z.id.
    eapply wp_fill_active with (revs := revs); [find_object | done | | by apply zsplice_0_take |].
    { eapply Forall_impl; [exact Hrep |]. intros xr (ch & Hx & _). by exists ch. }
    upd_simpl. wp_step. wp_step; [wp_step |]; wp_step; (apply HQ; [| done..]).
    + eapply (polled_intro _ _ _ l p); upd_simpl;
        [done | by rewrite insert_insert_eq | done.. | | by exists []]. split; upd_simpl; try done. by rewrite Ho'.
    + eapply (polled_intro _ _ _ l p); upd_simpl; [done.. | | by exists []]. split; upd_simpl; try done. by rewrite Ho'.
  - specialize (HQ a []). rewrite app_nil_r in HQ. apply HQ; [| constructor..].
    eapply (polled_intro _ _ _ l p); [done.. | | upd_simpl; by apply suffix_cons_r].
    split; upd_simpl; try done. by rewrite Ho'.
  - apply Hnone.
Qed.
End poll.
