(* ===== verification/ReactorLife.v ===== *)
(** * Making and destroying channels, pollers and descriptors

    [ReactorInv] keeps the set of channels and pollers fixed.  Here are the
    lemmas for the operations that change it, and for the calls of the
    environment that do not concern epoll. *)

From S2P Require Import Prelude Format Kernel Buffer Objects PollerOps ChannelOps ReactorInv.

Section life.
Context {E : Type} `{Kernel E}.
Implicit Types w : World E.

(** The environment changed, but the interest lists of the program did not,
    and its descriptors are still open. *)
Lemma reactor_ok_env w w' :
  reactor_ok w → channels w' = channels w → pollers w' = pollers w →
  (∀ l p, pollers w !! l = Some p →
     interest (obs w') (EpollPoller.epoll_fd_ p) = interest (obs w) (EpollPoller.epoll_fd_ p) ∧
     EpollPoller.epoll_fd_ p ∈ k_open (obs w')) →
  (∀ x ch, channels w !! x = Some ch → Channel.fd_ ch ∈ k_open (obs w')) →
  -1 ∉ k_open (obs w') →
  reactor_ok w'.
Proof.
  intros [Hpo Hef Heo Hch Hfd _] Hc Hp Hi Ho Hneg. split; rewrite ?Hc, ?Hp; try done.
  - intros l p Hl. destruct (Hi l p Hl) as [Hi' _]. destruct (Hpo l p Hl) as [Ha Hb].
    split; intros; rewrite ?Hi', Hc; [apply Ha | apply Hb].
  - intros l p Hl. apply (Hi l p Hl).
  - intros x ch Hx. destruct (Hch x ch Hx). split; rewrite ?Hp; eauto.
Qed.

(** The common case: the epoll part of the environment is the same. *)
Lemma reactor_ok_obs w w' :
  reactor_ok w → channels w' = channels w → pollers w' = pollers w →
  k_interest (obs w') = k_interest (obs w) → k_open (obs w') = k_open (obs w) →
  reactor_ok w'.
Proof.
  intros Hok Hc Hp Hi Ho. apply (reactor_ok_env w); [done.. | | |].
  - intros l p Hl. unfold interest. rewrite Hi, Ho. split; [done |]. by apply (ro_epoll_open w Hok l).
  - intros x ch Hx. rewrite Ho. by eapply co_open, ro_channel.
  - rewrite Ho. apply Hok.
Qed.

(** A world with no objects. *)
Definition no_objects w : Prop := channels w = ∅ ∧ pollers w = ∅ ∧ -1 ∉ k_open (obs w).

Lemma reactor_ok_empty w : no_objects w → reactor_ok w.
Proof. intros (Hc & Hp & Hn). split; [intros *; rewrite ?Hc, ?Hp, lookup_empty; done.. | done]. Qed.

Lemma interest_open_fd o fd ep :
  ep ∈ k_open o → fd ∉ k_open o → interest (open_fd fd o) ep = interest o ep.
Proof.
  intros ??. unfold interest, open_fd. upd_simpl. rewrite lookup_delete_ne; [done | by intros ->].
Qed.

Lemma interest_close_fd o fd ep :
  interest o ep !! fd = None → interest (close_fd fd o) ep = interest o ep.
Proof.
  unfold interest, close_fd. upd_simpl. rewrite lookup_fmap.
  destruct (k_interest o !! ep); cbn; [by intros ?%delete_id | done].
Qed.

(** A descriptor was opened. *)
Lemma reactor_ok_open w w' fd :
  reactor_ok w → channels w' = channels w → pollers w' = pollers w →
  0 ≤ fd → fd ∉ k_open (obs w) → obs w' = open_fd fd (obs w) → reactor_ok w'.
Proof.
  intros Hok Hc Hp Hpos Hfd Ho. apply (reactor_ok_env w); [done.. | | |]; rewrite Ho.
  - intros l p Hl. pose proof (ro_epoll_open w Hok l p Hl).
    split; [by apply interest_open_fd |]. unfold open_fd. upd_simpl. set_solver.
  - intros x ch Hx. pose proof (co_open _ _ (ro_channel w Hok x ch Hx)).
    unfold open_fd. upd_simpl. set_solver.
  - pose proof (ro_neg w Hok). unfold open_fd. upd_simpl.
    intros [?%elem_of_singleton|?]%elem_of_union; [lia | done].
Qed.

(** A descriptor that is neither a poller's nor a channel's was closed. *)
Lemma reactor_ok_close w w' fd :
  reactor_ok w → channels w' = channels w → pollers w' = pollers w →
  (∀ l p, pollers w !! l = Some p → EpollPoller.epoll_fd_ p ≠ fd) →
  (∀ x ch, channels w !! x = Some ch → Channel.fd_ ch ≠ fd) →
  obs w' = close_fd fd (obs w) → reactor_ok w'.
Proof.
  intros Hok Hc Hp Hpf Hcf Ho. apply (reactor_ok_env w); [done.. | | |]; rewrite Ho.
  - intros l p Hl. pose proof (ro_epoll_open w Hok l p Hl). pose proof (Hpf l p Hl).
    split; [| unfold close_fd; upd_simpl; set_solver].
    apply interest_close_fd, eq_None_not_Some. intros [ev Hev].
    apply (po_interest _ _ _ (ro_poller w Hok l p Hl)) in Hev as (x & ch & Hx & _ & Hfd & _).
    by eapply Hcf.
  - intros x ch Hx. pose proof (co_open _ _ (ro_channel w Hok x ch Hx)).
    pose proof (Hcf x ch Hx). unfold close_fd. upd_simpl.
    apply elem_of_difference. by rewrite elem_of_singleton.
  - unfold close_fd. upd_simpl. intros [Hin _]%elem_of_difference. by apply (ro_neg w Hok).
Qed.

(** A new poller, on an epoll instance with an empty interest list. *)
Lemma reactor_ok_add_poller w l p :
  reactor_ok w → pollers w !! l = None → EpollPoller.channels_ p = ∅ →
  interest (obs w) (EpollPoller.epoll_fd_ p) = ∅ →
  EpollPoller.epoll_fd_ p ∈ k_open (obs w) →
  (∀ l' p', pollers w !! l' = Some p' →
     EpollPoller.epoll_fd_ p' ≠ EpollPoller.epoll_fd_ p) →
  reactor_ok (w <| pollers ::= <[l := p]> |>).
Proof.
  intros Hok Hl Hm Hi Ho Hne.
  assert (∀ x ch, channels w !! x = Some ch → Channel.loop_ ch ≠ l) as Hno.
  { intros x ch Hx Hll. destruct (co_poller _ _ (ro_channel w Hok x ch Hx)). congruence. }
  split; upd_simpl.
  - intros l' p'. rewrite lookup_insert. case_decide; [intros [= <-]; subst l' |].
    + split; upd_simpl; intros *; rewrite ?Hi, ?Hm, lookup_empty; split; try done.
      * intros (x & ch & Hx & ? & _). by eapply Hno in Hx.
      * intros (ch & Hx & ? & _). by eapply Hno in Hx.
    + intros [Ha Hb]%(ro_poller w Hok). by split.
  - intros l1 l2 p1 p2. rewrite !lookup_insert. repeat case_decide; intros; simplify_eq; try done.
    + by edestruct Hne; eauto.
    + by edestruct Hne; eauto.
    + by eapply (ro_epoll_fd w Hok).
  - intros l' p'. rewrite lookup_insert. case_decide; [by intros [= <-] |].
    apply (ro_epoll_open w Hok).
  - intros x ch Hx. destruct (ro_channel w Hok x ch Hx). split; upd_simpl; try done.
    rewrite lookup_insert. by case_decide.
  - apply (ro_fd w Hok).
  - apply (ro_neg w Hok).
Qed.

(** A new channel, on a descriptor of its own. *)
Lemma reactor_ok_add_channel w x ch :
  reactor_ok w → channels w !! x = None → is_Some (pollers w !! Channel.loop_ ch) →
  Channel.index_ ch = kNew → 0 ≤ Channel.events_ ch < 2 ^ 31 →
  Channel.fd_ ch ∈ k_open (obs w) →
  (∀ y chy, channels w !! y = Some chy → Channel.fd_ chy ≠ Channel.fd_ ch) →
  reactor_ok (w <| channels ::= <[x := ch]> |>).
Proof.
  intros Hok Hx Hp Hidx Hev Ho Hne.
  assert (∀ P : nat → Channel.t → Prop, (∀ y, ¬ P y ch) →
    ∀ y, (∃ c, channels w !! y = Some c ∧ P y c) ↔
         (∃ c, <[x := ch]> (channels w) !! y = Some c ∧ P y c)) as Hex.
  { intros P HP y. rewrite lookup_insert. case_decide; [subst y | done].
    split; intros (c & ? & Hc); [congruence | simplify_eq; by apply HP in Hc]. }
  split; upd_simpl.
  - intros l p Hl. destruct (ro_poller w Hok l p Hl) as [Ha Hb]. split; upd_simpl.
    + intros fd ev. rewrite Ha. apply exist_proper. intros y.
      apply (Hex (λ y c, Channel.loop_ c = l ∧ Channel.fd_ c = fd ∧
        Channel.index_ c = kAdded ∧ ev = make_event y c)).
      intros y' (_ & _ & ? & _). by rewrite Hidx in *.
    + intros fd y. rewrite Hb.
      apply (Hex (λ y c, Channel.loop_ c = l ∧ Channel.fd_ c = fd ∧
        registered (Channel.index_ c))).
      intros y' (_ & _ & [?|?]); by rewrite Hidx in *.
  - apply (ro_epoll_fd w Hok).
  - apply (ro_epoll_open w Hok).
  - intros y chy. rewrite lookup_insert. case_decide; [intros [= <-] |].
    + split; upd_simpl; auto.
    + intros []%(ro_channel w Hok). by split.
  - intros y1 y2 c1 c2. rewrite !lookup_insert. repeat case_decide; intros; simplify_eq; try done.
    + by edestruct Hne; eauto.
    + by edestruct Hne; eauto.
    + by eapply (ro_fd w Hok).
  - apply (ro_neg w Hok).
Qed.

(** A channel that was removed from its poller is destroyed. *)
Lemma reactor_ok_del_channel w x ch :
  reactor_ok w → channels w !! x = Some ch → Channel.index_ ch = kNew →
  reactor_ok (w <| channels ::= delete x |>).
Proof.
  intros Hok Hx Hidx.
  assert (∀ P : nat → Channel.t → Prop, (∀ y, ¬ P y ch) →
    ∀ y, (∃ c, channels w !! y = Some c ∧ P y c) ↔
         (∃ c, delete x (channels w) !! y = Some c ∧ P y c)) as Hex.
  { intros P HP y. rewrite lookup_delete. case_decide; [subst y | done].
    split; intros (c & ? & Hc); [simplify_eq; by apply HP in Hc | done]. }
  split; upd_simpl.
  - intros l p Hl. destruct (ro_poller w Hok l p Hl) as [Ha Hb]. split; upd_simpl.
    + intros fd ev. rewrite Ha. apply exist_proper. intros y.
      apply (Hex (λ y c, Channel.loop_ c = l ∧ Channel.fd_ c = fd ∧
        Channel.index_ c = kAdded ∧ ev = make_event y c)).
      intros y' (_ & _ & ? & _). by rewrite Hidx in *.
    + intros fd y. rewrite Hb.
      apply (Hex (λ y c, Channel.loop_ c = l ∧ Channel.fd_ c = fd ∧
        registered (Channel.index_ c))).
      intros y' (_ & _ & [?|?]); by rewrite Hidx in *.
  - apply (ro_epoll_fd w Hok).
  - apply (ro_epoll_open w Hok).
  - intros y chy [_ Hy]%lookup_delete_Some. destruct (ro_channel w Hok y chy Hy). by split.
  - intros y1 y2 c1 c2 [_ ?]%lookup_delete_Some [_ ?]%lookup_delete_Some.
    by eapply (ro_fd w Hok).
  - apply (ro_neg w Hok).
Qed.
End life.
