(* ===== verification/Scenario.v ===== *)
(** * Small worlds the theorems are tried on

    A process with one poller (loop [0], epoll descriptor 3) and one channel
    (key [0]) on the open descriptor 5, on the scripted kernel. *)

From S2P Require Import Prelude Format Kernel SimKernel Buffer Objects PollerOps ChannelOps ReactorInv ReactorLife.

Definition scenario_obs : kobs := mk_kobs ∅ ∅ ∅ ∅ {[3; 4; 5]}.

Definition world_with (e : sim) : World sim :=
  mk_world sim e 1 ∅ [] ∅ ∅ ∅ ∅ ∅ [].

Definition one_poller (e : sim) : World sim :=
  (world_with e) <| pollers ::= <[0%nat := PollerOps.ctor 3]> |>.

Definition one_channel (e : sim) : World sim :=
  (one_poller e) <| channels ::= <[0%nat := ChannelOps.ctor 0 5]> |>.

Lemma one_poller_ok e : sim_obs e = scenario_obs → reactor_ok (one_poller e).
Proof.
  intros He. assert (observe e = scenario_obs) as He' by done.
  apply reactor_ok_add_poller; [apply reactor_ok_empty | done | done | | | done].
  - split_and!; [done | done |]. cbn [env world_with]. rewrite He'. by vm_compute.
  - cbn [env world_with]. by rewrite He'.
  - cbn [env world_with]. rewrite He'. by vm_compute.
Qed.

Lemma one_channel_ok e : sim_obs e = scenario_obs → reactor_ok (one_channel e).
Proof.
  intros He. assert (observe e = scenario_obs) as He' by done.
  apply reactor_ok_add_channel; [by apply one_poller_ok | done | by eexists | done | done | | done].
  change (5 ∈ k_open (observe e)). rewrite He'. by vm_compute.
Qed.
