(* ===== verification/ReactorSpec.v ===== *)
(** * What channels and the poller promise

    A channel's registration is a two-component automaton ([watch]): the
    events asked for and the state [index_].  [channel_ops_refine] runs any
    sequence of calls on any channels and finds the kernel's interest lists
    and [channels_] as the automata say.  The other theorems are on the way
    back: what [Poll] reports, and which callbacks [HandleEvent] runs. *)

From S2P Require Import Prelude Format Kernel SimKernel Buffer Objects PollerOps ChannelOps ReactorInv PollInv ReactorLife Scenario.

(** ** Calls on channels *)

Inductive chan_op :=
  | OpEnableReading | OpDisableReading | OpEnableWriting | OpDisableWriting
  | OpDisableAll | OpRemove.

(** Events asked for, and [index_]. *)
Definition watch : Type := Z * Z.

Definition events_after (op : chan_op) (evs : Z) : Z :=
  match op with
  | OpEnableReading => Z.lor evs 3
  | OpDisableReading => Z.land evs (Z.lnot 3)
  | OpEnableWriting => Z.lor evs 4
  | OpDisableWriting => Z.land evs (Z.lnot 4)
  | OpDisableAll => 0
  | OpRemove => evs
  end.

Definition watch_op (op : chan_op) (s : watch) : watch :=
  let '(evs, index) := s in
  match op with
  | OpRemove => (evs, -1)
  | _ => let evs' := events_after op evs in
         (evs', if (index =? 1) && (evs' =? 0) then 2 else 1)
  end.

(** The automaton of channel [x] under calls on all channels. *)
Definition watch_run (x : nat) (ops : list (chan_op * nat)) (s : watch) : watch :=
  foldl (λ s '(op, y), if decide (y = x) then watch_op op s else s) s ops.

Section ops.
Context {E : Type} `{KernelLaws E}.
Implicit Types w : World E.

Definition run_op (op : chan_op) : nat → M (World E) unit :=
  match op with
  | OpEnableReading => EnableReading
  | OpDisableReading => DisableReading
  | OpEnableWriting => EnableWriting
  | OpDisableWriting => DisableWriting
  | OpDisableAll => DisableAll
  | OpRemove => ChannelOps.Remove
  end.

Definition run_ops (ops : list (chan_op * nat)) : M (World E) unit :=
  sequence_ ((λ '(op, x), run_op op x) <$> ops).

Definition watched (ch : Channel.t) : watch := (Channel.events_ ch, Channel.index_ ch).

Lemma events_after_bound op evs : 0 ≤ evs < 2 ^ 31 → 0 ≤ events_after op evs < 2 ^ 31.
Proof.
  intros ?. destruct op; cbn [events_after]; try done;
    try (by apply lor_mask_bound); by apply land_mask_bound.
Qed.

Lemma wp_run_op op x ch Q w :
  reactor_ok w → channels w !! x = Some ch →
  (∀ w' ch', chan_step w w' x ch' → watched ch' = watch_op op (watched ch) →
     Channel.loop_ ch' = Channel.loop_ ch → Channel.fd_ ch' = Channel.fd_ ch →
     Q tt w') →
  wp fatal_exit (run_op op x) Q w.
Proof.
  intros Hok Hx HQ. pose proof (co_events _ _ (ro_channel w Hok x ch Hx)) as Hev.
  pose proof (events_after_bound op _ Hev) as Hb.
  destruct op; cbn [run_op];
    try (eapply wp_set_events; [done | done | exact Hb |]; intros w' Hw'; by eapply HQ).
  eapply wp_Channel_Remove; [done | done |]. intros w' Hw'. by eapply HQ.
Qed.

(** The descriptors of channels and pollers never change. *)
Definition chan_id (ch : Channel.t) : nat * Z := (Channel.loop_ ch, Channel.fd_ ch).

Record same_ids w w' : Prop := {
  sd_channels x : chan_id <$> channels w' !! x = chan_id <$> channels w !! x;
  sd_pollers l : EpollPoller.epoll_fd_ <$> pollers w' !! l =
                 EpollPoller.epoll_fd_ <$> pollers w !! l;
}.

Lemma chan_step_ids w w' x ch ch' :
  channels w !! x = Some ch → chan_step w w' x ch' → chan_id ch' = chan_id ch →
  same_ids w w'.
Proof.
  intros Hx [Hc _ Hp _] Hid. split; [| done]. intros y. rewrite Hc, lookup_insert.
  destruct (decide (x = y)) as [<-|]; [| done]. rewrite Hx. cbn. by rewrite Hid.
Qed.

Lemma same_ids_trans w1 w2 w3 : same_ids w1 w2 → same_ids w2 w3 → same_ids w1 w3.
Proof. intros [] []. split; intros; etrans; eauto. Qed.

Lemma wp_run_ops ops : ∀ (Q : unit → World E → Prop) w,
  reactor_ok w → (∀ op x, (op, x) ∈ ops → is_Some (channels w !! x)) →
  (∀ w', reactor_ok w' → same_ids w w' →
     (∀ x ch, channels w !! x = Some ch →
        watched <$> channels w' !! x = Some (watch_run x ops (watched ch))) → Q tt w') →
  wp fatal_exit (run_ops ops) Q w.
Proof.
  induction ops as [|[op x] ops IH]; intros Q w Hok Hin HQ.
  { apply HQ; [done | by split |]. intros x ch Hx. by rewrite Hx. }
  destruct (Hin op x ltac:(left)) as [ch Hx].
  change (run_ops ((op, x) :: ops)) with (run_op op x;; run_ops ops).
  wp_step. eapply wp_run_op; [done | done |]. intros w1 ch1 Hs Hw Hl Hf.
  assert (same_ids w w1) as Hids by (eapply chan_step_ids; eauto; unfold chan_id; congruence).
  eapply IH; [apply (cs_ok _ _ _ _ Hs) | |].
  - intros op' y Hy. destruct (Hin op' y ltac:(by right)) as [chy Hchy].
    pose proof (sd_channels _ _ Hids y) as He. rewrite Hchy in He.
    apply fmap_Some in He as (? & ? & _). by eexists.
  - intros w' Hok' Hids' Hrun. apply HQ; [done | by eapply same_ids_trans |].
    intros y chy Hy. cbn. pose proof (cs_channels _ _ _ _ Hs) as Hc1.
    destruct (decide (x = y)) as [<-|Hne].
    + rewrite (Hrun x ch1) by (by rewrite Hc1, lookup_insert_eq).
      rewrite Hw. by rewrite Hx in Hy; simplify_eq.
    + apply Hrun. by rewrite Hc1, lookup_insert_ne.
Qed.

Lemma map_none w x ch p :
  reactor_ok w → channels w !! x = Some ch → pollers w !! Channel.loop_ ch = Some p →
  ¬ registered (Channel.index_ ch) → EpollPoller.channels_ p !! Channel.fd_ ch = None.
Proof.
  intros Hok Hx Hp Hi. apply eq_None_not_Some. intros [y Hy].
  apply (po_map _ _ _ (ro_poller w Hok _ p Hp)) in Hy as (chy & Hy & ? & ? & ?).
  assert (y = x) as -> by (by eapply (ro_fd w Hok)). congruence.
Qed.

(** C20: whatever sequence of [EnableReading], [DisableReading],
    [EnableWriting], [DisableWriting], [DisableAll] and [Remove] is called
    on the channels of a good world, the process either ends with a FATAL
    line in its log ([epoll_ctl] failed to add or modify) or returns to a
    good world in which, for every channel, the kernel's interest list holds
    exactly the events its automaton reached, with the channel's address, or
    nothing when it is not [kAdded]; and [channels_] knows the channel when
    it is [kAdded] or [kDeleted]. *)
Theorem channel_ops_refine ops w :
  reactor_ok w → (∀ op x, (op, x) ∈ ops → is_Some (channels w !! x)) →
  wp fatal_exit (run_ops ops) (λ _ w', reactor_ok w' ∧
    ∀ x ch p, channels w !! x = Some ch → pollers w !! Channel.loop_ ch = Some p →
      let '(evs, index) := watch_run x ops (watched ch) in
      watched <$> channels w' !! x = Some (evs, index) ∧
      interest (obs w') (EpollPoller.epoll_fd_ p) !! Channel.fd_ ch =
        (if decide (index = kAdded) then Some (mk_event evs (DataPtr x)) else None) ∧
      (p' ← pollers w' !! Channel.loop_ ch; EpollPoller.channels_ p' !! Channel.fd_ ch) =
        (if decide (registered index) then Some x else None)) w.
Proof.
  intros Hok Hin. apply wp_run_ops; [done.. |]. intros w' Hok' Hids Hrun. split; [done |].
  intros x ch p Hx Hp. specialize (Hrun x ch Hx). destruct (watch_run _ _ _) as [evs index].
  split; [done |]. apply fmap_Some in Hrun as (ch' & Hx' & [= -> ->]).
  pose proof (sd_channels _ _ Hids x) as Hid. rewrite Hx, Hx' in Hid. injection Hid as Hl Hf.
  pose proof (sd_pollers _ _ Hids (Channel.loop_ ch)) as Hpl. rewrite Hp in Hpl.
  apply fmap_Some in Hpl as (p' & Hp' & ->). rewrite Hp'. cbn [mbind option_bind].
  rewrite <- Hl in Hp'. rewrite <- Hf.
  pose proof (co_events _ _ (ro_channel w' Hok' x ch' Hx')). split.
  - destruct (decide (Channel.index_ ch' = kAdded)); [| by eapply interest_none].
    rewrite (interest_at w' x ch' p') by done. unfold make_event. cbn [ev_events].
    by rewrite u32_small by lia.
  - destruct (decide (registered _)); [by eapply map_at | by eapply map_none].
Qed.

(** C21: in a good world [Poll] neither follows a dangling pointer nor reads
    the wrong member of the union: the channels it appends to the list are
    distinct live channels of the loop that the poller watches, each with
    [revents_] set to events it asked for (or [EPOLLERR], [EPOLLHUP]); no
    other channel changes, and the world stays good. *)
Theorem Poll_reports w l p t active :
  reactor_ok w → pollers w !! l = Some p →
  wp no_exit (PollerOps.Poll l t active) (λ '(_, active') w', ∃ revs : list (nat * Z),
    active' = active ++ revs.*1 ∧ NoDup revs.*1 ∧
    Forall (λ '(x, r), ∃ ch, channels w !! x = Some ch ∧ Channel.loop_ ch = l ∧
      EpollPoller.channels_ p !! Channel.fd_ ch = Some x ∧
      reportable (Channel.events_ ch) r ∧
      channels w' !! x = Some (ch <| Channel.revents_ := r |>)) revs ∧
    (∀ x, x ∉ revs.*1 → channels w' !! x = channels w !! x) ∧
    reactor_ok w') w.
Proof.
  intros Hok Hp. eapply wp_Poll; [done | done |]. intros now revs w' Hpd Hnd Hrep.
  exists revs. rewrite (pd_channels _ _ _ Hpd). split_and!; [done | done | | |].
  - apply Forall_forall. intros [x r] Hin.
    pose proof (proj1 (Forall_forall _ _) Hrep _ Hin) as (ch & Hx & Hl & Hi & Hr).
    cbn [fst snd] in *. exists ch. split_and!; try done.
    + subst l. eapply map_at; [done.. | by left].
    + rewrite (set_revents_lookup _ _ _ r) by done. by rewrite Hx.
  - intros x Hx. by apply set_revents_lookup_ne.
  - by eapply reactor_ok_core; [apply (pd_core _ _ _ Hpd) |].
Qed.

(** ** Dispatch *)

Lemma has_bit r k : 0 ≤ k → has r (2 ^ k) = Z.testbit r k.
Proof.
  intros Hk. unfold has. destruct (Z.testbit r k) eqn:Hb.
  - apply negb_true_iff, Z.eqb_neq. intros Hz%(f_equal (λ z, Z.testbit z k)).
    rewrite Z.land_spec, Z.bits_0, Hb, Z.pow2_bits_true in Hz by done. done.
  - apply negb_false_iff, Z.eqb_eq, Z.bits_inj_0. intros n. rewrite Z.land_spec.
    destruct (decide (n = k)) as [->|]; [by rewrite Hb |].
    rewrite Z.pow2_bits_false by done. by rewrite andb_false_r.
Qed.

Lemma has_lor r a b : has r (Z.lor a b) = has r a || has r b.
Proof.
  unfold has. rewrite Z.land_lor_distr_r.
  destruct (Z.eqb_spec (Z.land r a) 0) as [->|Ha]; [done |]. cbn.
  apply negb_true_iff, Z.eqb_neq. rewrite Z.lor_eq_0_iff. by intros [? _].
Qed.

(** The callbacks for a set of events, in the order they are run: bit 4 is
    [EPOLLHUP], bit 0 [EPOLLIN], bit 3 [EPOLLERR], bit 1 [EPOLLPRI], bit 2
    [EPOLLOUT]. *)
Definition dispatch (ch : Channel.t) : list callback :=
  let bit := Z.testbit (Channel.revents_ ch) in
  (if bit 4 && negb (bit 0) then option_list (Channel.close_callback_ ch) else []) ++
  (if bit 3 then option_list (Channel.error_callback_ ch) else []) ++
  (if bit 0 || bit 1 then option_list (Channel.read_callback_ ch) else []) ++
  (if bit 2 then option_list (Channel.write_callback_ ch) else []).

Definition handlers (ch : Channel.t) :=
  (Channel.revents_ ch, Channel.close_callback_ ch, Channel.error_callback_ ch,
   Channel.read_callback_ ch, Channel.write_callback_ ch).

(** The object a channel is tied to is still there. *)
Definition tie_alive w (ch : Channel.t) : bool :=
  match Channel.tie_ ch with Some c => bool_decide (is_Some (conns w !! c)) | None => false end.

Section dispatch.
Context (call : callback → Z → M (World E) unit) (x : nat) (t : Z).
Context (Hframe : ∀ cb w w' ch, channels w !! x = Some ch → call cb t w = Done tt w' →
  ∃ ch', channels w' !! x = Some ch' ∧ handlers ch' = handlers ch).

#[local] Abbreviation run cbs := (sequence_ ((λ cb, call cb t) <$> cbs)).

Lemma run_frame cbs w w' ch :
  channels w !! x = Some ch → run cbs w = Done tt w' →
  ∃ ch', channels w' !! x = Some ch' ∧ handlers ch' = handlers ch.
Proof.
  revert w ch. induction cbs as [|cb cbs IH]; intros w ch Hx; cbn.
  { intros [= <-]. by exists ch. }
  unfold mbind, M_bind. destruct (call cb t w) as [[] w1| | |] eqn:Hc; [| done..].
  destruct (Hframe cb w w1 ch Hx Hc) as (ch1 & Hx1 & <-). by apply IH.
Qed.

Lemma bind_the_channel {B} w ch (k : Channel.t → M (World E) B) :
  channels w !! x = Some ch → (the_channel x ≫= k) w = k ch w.
Proof. intros Hx. unfold mbind, M_bind, the_channel, deref. by rewrite Hx. Qed.

(** A test of [revents_] and the call it guards, before the rest. *)
Lemma run_guard w ch f g cbs (k : M (World E) unit) :
  channels w !! x = Some ch →
  (∀ w' ch', channels w' !! x = Some ch' → handlers ch' = handlers ch → k w' = run cbs w') →
  ((ch ← the_channel x; when (f ch) (call_if call (g ch) t));; k) w =
    run ((if f ch then option_list (g ch) else []) ++ cbs) w.
Proof.
  intros Hx Hk. rewrite fmap_app, sequence_app.
  unfold mbind at 1 3, M_bind at 1 3. rewrite (bind_the_channel w ch) by done.
  assert (when (f ch) (call_if call (g ch) t) w =
    run (if f ch then option_list (g ch) else []) w) as ->.
  { destruct (f ch); [| done]. destruct (g ch); [| done]. cbn [when call_if option_list].
    by rewrite <- (sequence_one (call _ _)). }
  destruct (run _ w) as [[] w1| | |] eqn:Hr; [| done..].
  destruct (run_frame _ _ _ _ Hx Hr) as (ch1 & Hx1 & He). by eapply Hk.
Qed.

(** C22: [HandleEvent] on a channel tied to an object that is gone does
    nothing; otherwise it logs the events and runs exactly the callbacks of
    [dispatch], in that order: close on a hang-up with nothing to read,
    then error, read (also for urgent data), write; empty callbacks are
    skipped.  The callbacks may change anything but the events and
    callbacks of the channel itself. *)
Theorem HandleEvent_dispatch w ch :
  channels w !! x = Some ch →
  HandleEvent call x t w =
    if Channel.tied_ ch && negb (tie_alive w ch) then Done tt w
    else run (dispatch ch)
      (w <| log ::= cons (Log INFO "channel HandleEvent revents: %d\n"
                            [AInt (Channel.revents_ ch)]) |>).
Proof.
  intros Hx.
  assert (HandleEventWithGuard call x t w = run (dispatch ch)
    (w <| log ::= cons (Log INFO "channel HandleEvent revents: %d\n"
                          [AInt (Channel.revents_ ch)]) |>)) as Hg.
  { unfold HandleEventWithGuard. rewrite (bind_the_channel w ch) by done.
    unfold LOG_INFO, LOG, modify. unfold mbind at 1, M_bind at 1.
    unfold dispatch. rewrite <- !has_bit, <- has_lor by done.
    change (2 ^ 4) with EPOLLHUP. change (2 ^ 0) with EPOLLIN. change (2 ^ 3) with EPOLLERR.
    change (2 ^ 1) with EPOLLPRI. change (2 ^ 2) with EPOLLOUT.
    apply (run_guard _ ch
      (λ ch, has (Channel.revents_ ch) EPOLLHUP && negb (has (Channel.revents_ ch) EPOLLIN))
      Channel.close_callback_); [done |].
    intros w1 ch1 Hx1 [= Hr Hc He Hd Hw]. rewrite <- ?Hr, <- ?Hc, <- ?He, <- ?Hd, <- ?Hw.
    clear Hr Hc He Hd Hw.
    apply (run_guard _ ch1 (λ ch, has (Channel.revents_ ch) EPOLLERR)
      Channel.error_callback_); [done |].
    intros w2 ch2 Hx2 [= Hr Hc He Hd Hw]. rewrite <- ?Hr, <- ?Hc, <- ?He, <- ?Hd, <- ?Hw.
    clear Hr Hc He Hd Hw.
    apply (run_guard _ ch2 (λ ch, has (Channel.revents_ ch) (Z.lor EPOLLIN EPOLLPRI))
      Channel.read_callback_); [done |].
    intros w3 ch3 Hx3 [= Hr Hc He Hd Hw]. rewrite <- ?Hr, <- ?Hc, <- ?He, <- ?Hd, <- ?Hw.
    clear Hr Hc He Hd Hw.
    rewrite (bind_the_channel w3 ch3) by done.
    destruct (has _ EPOLLOUT); [| done]. destruct (Channel.write_callback_ ch3); [| done].
    cbn [when call_if option_list]. by rewrite <- (sequence_one (call _ _)). }
  unfold HandleEvent. rewrite (bind_the_channel w ch) by done.
  destruct (Channel.tied_ ch); [| done]. unfold lock, tie_alive.
  unfold mbind at 1 2, M_bind, get. destruct (Channel.tie_ ch) as [c|]; cbn; [| done].
  by destruct (conns w !! c); cbn.
Qed.
End dispatch.
End ops.

(** ** A second [DisableAll] *)

Section again.
Context {E : Type} `{KernelLaws E}.
Implicit Types w : World E.

(** [DisableAll] on a channel that is not registered with the kernel
    (a second [DisableAll], or one before any [Enable]) registers it: the
    branches for [kNew] and [kDeleted] of [UpdateChannel] do not look at the
    events, so the descriptor comes back into the interest list with an
    empty set of events, for which hang-ups and errors are still reported. *)
Theorem DisableAll_again w x ch p :
  reactor_ok w → channels w !! x = Some ch → pollers w !! Channel.loop_ ch = Some p →
  Channel.index_ ch ≠ kAdded →
  interest (obs w) (EpollPoller.epoll_fd_ p) !! Channel.fd_ ch = None ∧
  wp fatal_exit (DisableAll x) (λ _ w',
    interest (obs w') (EpollPoller.epoll_fd_ p) !! Channel.fd_ ch =
      Some (mk_event 0 (DataPtr x))) w ∧
  reportable 0 EPOLLHUP ∧ reportable 0 EPOLLERR.
Proof.
  intros Hok Hx Hp Hidx. split; [by eapply interest_none |]. split; [| by vm_compute].
  eapply (wp_run_op OpDisableAll); [done | done |]. intros w' ch' Hs Hw Hl Hf.
  assert (watched ch' = (0, kAdded)) as [= He Hi].
  { rewrite Hw. unfold watched, watch_op, events_after. cbn.
    apply Z.eqb_neq in Hidx. change kAdded with 1 in *. by rewrite Hidx. }
  pose proof (cs_pollers _ _ _ _ Hs (Channel.loop_ ch)) as Hpl. rewrite Hp in Hpl.
  apply fmap_Some in Hpl as (p' & Hp' & ->). rewrite <- Hl in Hp'. rewrite <- Hf.
  rewrite (interest_at w' x ch' p'); [| apply (cs_ok _ _ _ _ Hs) | | done | done].
  - unfold make_event. by rewrite He.
  - by rewrite (cs_channels _ _ _ _ Hs), lookup_insert_eq.
Qed.
End again.

(** ** The theorems on a concrete process *)

Definition demo_sim : sim := mk_sim scenario_obs [] [] [{[5 := EPOLLIN + EPOLLHUP]}].
Definition demo_world : World sim := one_channel demo_sim.

Definition demo_ops : list (chan_op * nat) :=
  [(OpEnableReading, 0%nat); (OpEnableWriting, 0%nat); (OpDisableWriting, 0%nat)].

Lemma channel_ops_refine_witness :
  wp fatal_exit (run_ops demo_ops)
    (λ _ w', interest (obs w') 3 !! 5 = Some (mk_event 3 (DataPtr 0))) demo_world.
Proof.
  eapply wp_mono; [apply (channel_ops_refine demo_ops demo_world) |].
  - by apply one_channel_ok.
  - intros op x Hin.
    repeat (apply elem_of_cons in Hin as [[= -> ->]|Hin]; [by eexists |]).
    by apply not_elem_of_nil in Hin.
  - intros _ w' [_ Hall].
    destruct (Hall 0%nat (ChannelOps.ctor 0 5) (PollerOps.ctor 3) eq_refl eq_refl) as (_ & Hi & _).
    exact Hi.
Defined.

Lemma Poll_reports_witness :
  wp no_exit (PollerOps.Poll 0 10000 [7%nat])
    (λ '(_, active) w', reactor_ok w' ∧ ∃ l, active = 7%nat :: l) demo_world.
Proof.
  eapply wp_mono; [apply (Poll_reports demo_world 0%nat (PollerOps.ctor 3)) |].
  - by apply one_channel_ok.
  - reflexivity.
  - intros [now active] w' (revs & -> & _ & _ & _ & Hok). split; [done | by eexists].
Defined.

(** A channel with a read callback on which a hang-up was reported together
    with data. *)
Definition hangup_channel : Channel.t :=
  (ChannelOps.ctor 0 5) <| Channel.revents_ := 17 |>
    <| Channel.read_callback_ := Some (CbConnRead 0) |>
    <| Channel.close_callback_ := Some (CbConnClose 0) |>.
Definition hangup_world : World sim := demo_world <| channels := {[0%nat := hangup_channel]} |>.
Definition log_call (cb : callback) (t : Z) : M (World sim) unit :=
  LOG_INFO "callback %d" [match cb with CbConnRead _ => AInt 1 | _ => AInt 2 end].

Lemma HandleEvent_dispatch_witness :
  HandleEvent log_call 0 5 hangup_world =
    log_call (CbConnRead 0) 5 (hangup_world
      <| log ::= cons (Log INFO "channel HandleEvent revents: %d\n" [AInt 17]) |>).
Proof.
  rewrite (HandleEvent_dispatch log_call 0 5) with (ch := hangup_channel).
  - reflexivity.
  - intros [] w w' ch Hx [= <-]; by exists ch.
  - reflexivity.
Defined.

Lemma DisableAll_again_witness :
  wp fatal_exit (DisableAll 0%nat)
    (λ _ w', interest (obs w') 3 !! 5 = Some (mk_event 0 (DataPtr 0))) demo_world.
Proof.
  apply (DisableAll_again demo_world 0%nat (ChannelOps.ctor 0 5) (PollerOps.ctor 3));
    [by apply one_channel_ok | done..].
Defined.
