(* ===== verification/LoopOps.v ===== *)
(** * EventLoop ([event_loop.hpp], [event_loop.cpp])

    The loop of a thread: it polls, handles the events of the active
    channels, then runs the functors queued by any thread.  What a functor
    and a channel callback do is a parameter ([run_functor], [call]); the
    classes that make them plug theirs in.  [RunInLoop] is given both the
    functor and its body, since in the loop's own thread it runs the body at
    once. *)

From S2P Require Import Prelude Format Kernel Buffer Objects PollerOps ChannelOps.

Definition kPollTimeMs : Z := 10000.

(** The eight bytes of the [uint64_t] 1, little-endian. *)
Definition one_bytes : list byte := [x01; x00; x00; x00; x00; x00; x00; x00].

Section ops.
Context {E : Type} `{Kernel E}.
Abbreviation prog := (M (World E)).

Definition IsInLoopThread (l : nat) : prog bool :=
  lp ← the_loop l;
  t ← gets tid;
  mret (EventLoop.thread_id_ lp =? t).

(** A [ssize_t] printed with [%lu]. *)
Definition Wakeup (l : nat) : prog unit :=
  lp ← the_loop l;
  '(n, errno) ← sys (sys_write (EventLoop.wakeup_fd_ lp) one_bytes);
  when (negb (n =? 8))
    (LOG_ERROR "EventLoop::Wakeup() writes %lu bytes instead of 8\n" [ALong (u64 n)]).

Definition HandleRead (l : nat) : prog unit :=
  lp ← the_loop l;
  '(n, errno) ← sys (sys_read (EventLoop.wakeup_fd_ lp) 8);
  when (negb (n =? 8))
    (LOG_ERROR "EventLoop::HandleRead() reads %lu bytes instead of 8\n" [ALong (u64 n)]).

Definition Quit (l : nat) : prog unit :=
  upd_loop l (λ lp, lp <| EventLoop.quit_ := true |>);;
  b ← IsInLoopThread l;
  when (negb b) (Wakeup l).

Definition QueueInLoop (l : nat) (cb : functor) : prog unit :=
  upd_loop l (λ lp, lp <| EventLoop.pending_functors_ ::= λ fs, fs ++ [cb] |>);;
  b ← IsInLoopThread l;
  lp ← the_loop l;
  when (negb b || EventLoop.calling_pending_functors_ lp) (Wakeup l).

Definition RunInLoop (l : nat) (cb : functor) (body : prog unit) : prog unit :=
  b ← IsInLoopThread l;
  if (b : bool) then body else QueueInLoop l cb.

Definition UpdateChannel (l x : nat) : prog unit := EventLoop_UpdateChannel l x.
Definition RemoveChannel (l x : nat) : prog unit := EventLoop_RemoveChannel l x.
Definition HasChannel (l x : nat) : prog bool := EventLoop_HasChannel l x.

(** ** Construction and destruction *)

Definition CreateEventfd : prog Z :=
  '(evtfd, errno) ← sys sys_eventfd;
  when (evtfd <? 0) (LOG_FATAL "eventfd error:%d\n" [AInt errno]);;
  mret evtfd.

(** [Poller::NewDefaultPoller]: the poller of loop [l]. *)
Definition NewDefaultPoller (l : nat) : prog unit :=
  '(fd, errno) ← sys sys_epoll_create1;
  modify (λ w, w <| pollers ::= <[l := PollerOps.ctor fd]> |>).

(** [new EventLoop] in the current thread. *)
Definition new_loop : prog nat :=
  w ← get;
  let l := fresh (dom (loops w) ∪ dom (pollers w)) in
  NewDefaultPoller l;;
  thread_id ← gets tid;
  wakeup_fd ← CreateEventfd;
  wakeup_channel ← new_channel l wakeup_fd;
  modify (λ w, w <| loops ::= <[l := EventLoop.mk false false 0 [] thread_id wakeup_fd
                                       wakeup_channel [] false]> |>);;
  w ← get;
  match loop_in_this_thread w !! thread_id with
  | Some other => LOG_FATAL "Another EventLoop %p exists in this thread %d\n"
                    [APtr other; AInt thread_id]
  | None => modify (λ w, w <| loop_in_this_thread ::= <[thread_id := l]> |>)
  end;;
  EnableReading wakeup_channel;;
  SetReadCallback wakeup_channel (Some (CbLoopRead l));;
  mret l.

(** [~EventLoop], with the destructors of its members. *)
Definition delete_loop (l : nat) : prog unit :=
  lp ← the_loop l;
  DisableAll (EventLoop.wakeup_channel_ lp);;
  Remove (EventLoop.wakeup_channel_ lp);;
  sys (λ e, (tt, sys_close (EventLoop.wakeup_fd_ lp) e));;
  t ← gets tid;
  modify (λ w, w <| loop_in_this_thread ::= delete t |>);;
  modify (λ w, w <| channels ::= delete (EventLoop.wakeup_channel_ lp) |>);;
  PollerOps.dtor l;;
  modify (λ w, w <| loops ::= delete l |>).

(** ** The loop *)

Section loop.
Context (run_functor : functor → prog unit) (call : callback → Z → prog unit).

Definition DoPendingFunctors (l : nat) : prog unit :=
  upd_loop l (λ lp, lp <| EventLoop.calling_pending_functors_ := true |>);;
  lp ← the_loop l;
  let functors := EventLoop.pending_functors_ lp in
  upd_loop l (λ lp, lp <| EventLoop.pending_functors_ := [] |>);;
  sequence_ (run_functor <$> functors);;
  upd_loop l (λ lp, lp <| EventLoop.calling_pending_functors_ := false |>).

(** The [for] over [active_channels_]: nothing that runs in it changes the
    list. *)
Definition handle_active (l : nat) (active : list nat) : prog unit :=
  sequence_ ((λ x, lp ← the_loop l;
                   HandleEvent call x (EventLoop.poll_return_time_ lp)) <$> active).

(** The body of the [while]. *)
Definition loop_body (l : nat) : prog unit :=
  upd_loop l (λ lp, lp <| EventLoop.active_channels_ := [] |>);;
  lp ← the_loop l;
  '(now, active) ← PollerOps.Poll l kPollTimeMs (EventLoop.active_channels_ lp);
  upd_loop l (λ lp, lp <| EventLoop.active_channels_ := active |>
                       <| EventLoop.poll_return_time_ := now |>);;
  handle_active l active;;
  DoPendingFunctors l.

(** [while (!quit_)], at most [fuel] times round; [false] when that was not
    enough. *)
Fixpoint while_not_quit (fuel : nat) (l : nat) : prog bool :=
  lp ← the_loop l;
  if EventLoop.quit_ lp then mret true
  else match fuel with
       | O => mret false
       | S fuel => loop_body l;; while_not_quit fuel l
       end.

(** [Loop]: [true] when it returned. *)
Definition Loop (fuel : nat) (l : nat) : prog bool :=
  upd_loop l (λ lp, lp <| EventLoop.looping_ := true |> <| EventLoop.quit_ := false |>);;
  LOG_INFO "EventLoop %p start looping\n" [APtr l];;
  finished ← while_not_quit fuel l;
  if (finished : bool) then
    upd_loop l (λ lp, lp <| EventLoop.looping_ := false |>);;
    LOG_INFO "EventLoop %p stop looping\n" [APtr l];;
    mret true
  else mret false.
End loop.
End ops.
