(* ===== verification/LoopInv.v ===== *)
(** * What the operations of a loop change

    [quiet] worlds differ in the log, in what was written to one descriptor,
    and in nothing else but the loops.  The lemmas run the operations of
    [EventLoop] that are called from outside the loop. *)

From S2P Require Import Prelude Format Kernel Buffer Objects PollerOps ChannelOps ReactorInv PollInv ReactorLife LoopOps.

Section loop_inv.
Context {E : Type} `{KernelLaws E}.
Implicit Types w : World E.

(** The objects other than loops are the same, and so is the environment but
    for what was written to [fd]. *)
Record quiet (fd : Z) w w' : Prop := {
  qt_tid : tid w' = tid w;
  qt_this : loop_in_this_thread w' = loop_in_this_thread w;
  qt_channels : channels w' = channels w;
  qt_pollers : pollers w' = pollers w;
  qt_conns : conns w' = conns w;
  qt_servers : servers w' = servers w;
  qt_calls : calls w' = calls w;
  qt_interest : k_interest (obs w') = k_interest (obs w);
  qt_open : k_open (obs w') = k_open (obs w);
  qt_shut : k_shut (obs w') = k_shut (obs w);
  qt_in : k_in (obs w') = k_in (obs w);
  qt_out fd' : fd' ≠ fd → out_stream (obs w') fd' = out_stream (obs w) fd';
}.

#[export] Instance quiet_preorder fd : PreOrder (quiet fd).
Proof.
  split; [done |]. intros w1 w2 w3 [] []. split; try congruence.
  intros fd' ?. transitivity (out_stream (obs w2) fd'); auto.
Qed.

Lemma quiet_reactor fd w w' : quiet fd w w' → reactor_ok w → reactor_ok w'.
Proof. intros [] ?. by apply (reactor_ok_obs w). Qed.

Lemma out_stream_add_out fd fd' d o :
  out_stream (add_out fd d o) fd' =
    if decide (fd = fd') then out_stream o fd ++ d else out_stream o fd'.
Proof.
  unfold out_stream, add_out. upd_simpl. rewrite lookup_insert.
  by destruct (decide (fd = fd')) as [<-|].
Qed.

(** Only the log differs. *)
Lemma quiet_log fd w f : quiet fd w (w <| log ::= f |>).
Proof. done. Qed.

Lemma quiet_add_out fd w e' d :
  observe e' = add_out fd d (obs w) → quiet fd w (w <| env := e' |>).
Proof.
  intros He. split; upd_simpl; rewrite ?He; try done.
  intros fd' ?. by rewrite out_stream_add_out, decide_False.
Qed.

Lemma quiet_same fd w e' : observe e' = obs w → quiet fd w (w <| env := e' |>).
Proof. intros He. split; upd_simpl; by rewrite ?He. Qed.

(** [Wakeup]: eight bytes are written, or an error is logged. *)
Lemma wp_Wakeup X l lp Q w :
  loops w !! l = Some lp →
  (∀ w', quiet (EventLoop.wakeup_fd_ lp) w w' → loops w' = loops w →
     (out_stream (obs w') (EventLoop.wakeup_fd_ lp) =
        out_stream (obs w) (EventLoop.wakeup_fd_ lp) ++ one_bytes ∨
      ∃ n rest, log w' = Log ERROR "EventLoop::Wakeup() writes %lu bytes instead of 8\n"
                           [ALong n] :: rest) → Q tt w') →
  wp X (Wakeup l) Q w.
Proof.
  intros Hl HQ. unfold Wakeup. do 4 wp_step. destruct a as [n errno].
  set (fd := EventLoop.wakeup_fd_ lp) in *.
  assert (quiet fd w (w <| env := e' |>)) as Hq.
  { apply write_law in Hsys as [[_ Ho]|[_ Ho]]; [by apply quiet_same | by eapply quiet_add_out]. }
  wp_step; bool_simpl.
  - wp_step. apply HQ; [| done | right; by eexists _, _].
    etrans; [exact Hq | apply quiet_log].
  - apply write_law in Hsys as [[? _]|[_ Ho]]; [lia |]. apply HQ; [done | done | left].
    upd_simpl. rewrite Ho, out_stream_add_out, decide_True by done. by subst n.
Qed.

Lemma wp_IsInLoopThread X l lp Q w :
  loops w !! l = Some lp →
  Q (EventLoop.thread_id_ lp =? tid w) w → wp X (IsInLoopThread l) Q w.
Proof. intros Hl HQ. unfold IsInLoopThread. by do 5 wp_step. Qed.

(** A functor was queued on loop [l]; the loop was woken up as the code's
    conditions say. *)
Record queued (l : nat) (lp : EventLoop.t) (f : functor) w w' : Prop := {
  qd_quiet : quiet (EventLoop.wakeup_fd_ lp) w w';
  qd_loops : loops w' =
    <[l := lp <| EventLoop.pending_functors_ ::= λ fs, fs ++ [f] |>]> (loops w);
}.

(** The code asks for a wake-up. *)
Definition wakes (lp : EventLoop.t) w : bool :=
  negb (EventLoop.thread_id_ lp =? tid w) || EventLoop.calling_pending_functors_ lp.

Lemma wp_QueueInLoop X l lp f Q w :
  loops w !! l = Some lp →
  (∀ w', queued l lp f w w' →
     (if wakes lp w then
        out_stream (obs w') (EventLoop.wakeup_fd_ lp) =
          out_stream (obs w) (EventLoop.wakeup_fd_ lp) ++ one_bytes ∨
        ∃ n rest, log w' = Log ERROR "EventLoop::Wakeup() writes %lu bytes instead of 8\n"
                             [ALong n] :: rest
      else env w' = env w ∧ log w' = log w) → Q tt w') →
  wp X (QueueInLoop l f) Q w.
Proof.
  intros Hl HQ. unfold QueueInLoop. do 3 wp_step.
  eapply wp_IsInLoopThread; [find_object |]. upd_simpl. do 2 wp_step. upd_simpl.
  fold (wakes lp w). wp_step; rewrite H1 in HQ.
  - eapply wp_Wakeup; [find_object |]. intros w' Hq Hlw Ho. upd_simpl. apply HQ; [| done].
    destruct Hq. by split.
  - by apply HQ.
Qed.

Lemma wp_RunInLoop X l lp f body Q w :
  loops w !! l = Some lp →
  (EventLoop.thread_id_ lp = tid w → wp X body Q w) →
  (EventLoop.thread_id_ lp ≠ tid w → wp X (QueueInLoop l f) Q w) →
  wp X (RunInLoop l f body) Q w.
Proof.
  intros Hl Hin Hout. unfold RunInLoop. wp_step. eapply wp_IsInLoopThread; [done |].
  by wp_step; bool_simpl; [apply Hin | apply Hout].
Qed.

(** The read callback of the wake-up channel. *)
Lemma wp_HandleRead X l lp Q w :
  loops w !! l = Some lp →
  (∀ w', quiet (EventLoop.wakeup_fd_ lp) w w' → loops w' = loops w → Q tt w') →
  wp X (HandleRead l) Q w.
Proof.
  intros Hl HQ. unfold HandleRead. do 4 wp_step. destruct a as [n errno].
  apply read_law in Hsys.
  assert (quiet (EventLoop.wakeup_fd_ lp) w (w <| env := e' |>)) as Hq by by apply quiet_same.
  wp_step; [wp_step |]; (apply HQ; [| done]); [| done].
  etrans; [exact Hq | apply quiet_log].
Qed.

Lemma wp_Quit X l lp Q w :
  loops w !! l = Some lp →
  (∀ w', quiet (EventLoop.wakeup_fd_ lp) w w' →
     loops w' = <[l := lp <| EventLoop.quit_ := true |>]> (loops w) → Q tt w') →
  wp X (Quit l) Q w.
Proof.
  intros Hl HQ. unfold Quit. do 3 wp_step. eapply wp_IsInLoopThread; [find_object |]. upd_simpl.
  wp_step; [| by apply HQ].
  eapply wp_Wakeup; [find_object |]. intros w' Hq Hlw _. upd_simpl. apply HQ; [| done].
  destruct Hq. by split.
Qed.
End loop_inv.
