(* ===== verification/Interleave.v ===== *)
(** * Threads that share a loop

    The operations of [LoopOps] run from start to end.  Between the loop's
    thread and the threads that queue functors on it the finer steps matter:
    pushing on [pending_functors_] (under the mutex), testing
    [calling_pending_functors_] and writing to the eventfd are separate, and
    so are the swap and the running of each functor.  This file is the step
    relation of one loop and any number of other threads, on the same
    [EventLoop.t] as [LoopOps], with these theorems: every functor is run
    exactly once and in the order of the pushes; the loop never sleeps on a
    queued functor without a wake-up that is there or on its way; without new
    calls the threads come to rest with everything run; and the operations of
    [LoopOps] are executions of the relation. *)

From S2P Require Import Prelude Format Kernel SimKernel Buffer Objects PollerOps ChannelOps Scenario LoopOps LoopInv.

Module Interleave.

(** ** States *)

(** Where the loop's thread is. *)
Inductive loop_pc :=
  | AtTest                          (* while (!quit_) *)
  | InPoll                          (* epoll_wait *)
  | InHandlers (readable : bool)    (* the for; the wake-up channel is still to be handled *)
  | AtSwap                          (* calling_pending_functors_ is set *)
  | Running (rest : list functor)   (* the for over the functors *)
  | InWakeup (next : loop_pc)       (* code run here called QueueInLoop, which calls Wakeup *)
  | Returned.

Record state := mk_state {
  the_loop : EventLoop.t;
  counter : Z;                      (* of the eventfd *)
  pc : loop_pc;
  waking : list Z;                  (* other threads between the push and the end of Wakeup *)
  pushed : list functor;            (* all that was pushed, in order *)
  ran : list functor;               (* all that was run, in order *)
}.
#[global] Instance eta_state : Eta state := λ s,
  mk_state (the_loop s) (counter s) (pc s) (waking s) (pushed s) (ran s).

(** An eventfd counts to [2^64 - 2]; a [write] that would take it further
    fails with [EAGAIN]. *)
Definition counter_max : Z := 2 ^ 64 - 2.
Definition signal (c : Z) : Z := if c <? counter_max then c + 1 else c.

(** ** Steps

    The parts of [QueueInLoop], [Quit], [Wakeup], [HandleRead],
    [DoPendingFunctors] and [Loop]. *)

Definition push (f : functor) (s : state) : state :=
  s <| the_loop ::= λ lp, lp <| EventLoop.pending_functors_ ::= λ fs, fs ++ [f] |> |>
    <| pushed ::= λ fs, fs ++ [f] |>.
Definition wakeup (s : state) : state := s <| counter ::= signal |>.
Definition set_quit (s : state) : state :=
  s <| the_loop ::= λ lp, lp <| EventLoop.quit_ := true |> |>.
Definition set_calling (b : bool) (s : state) : state :=
  s <| the_loop ::= λ lp, lp <| EventLoop.calling_pending_functors_ := b |> |>.
Definition swap (s : state) : state :=
  s <| pc := Running (EventLoop.pending_functors_ (the_loop s)) |>
    <| the_loop ::= λ lp, lp <| EventLoop.pending_functors_ := [] |> |>.

(** The steps no caller has to start. *)
Inductive internal : state → state → Prop :=
  | other_wakeup t ws1 ws2 s :
      waking s = ws1 ++ t :: ws2 → internal s (wakeup (s <| waking := ws1 ++ ws2 |>))
  | test_loop s :
      pc s = AtTest → EventLoop.quit_ (the_loop s) = false → internal s (s <| pc := InPoll |>)
  | test_quit s :
      pc s = AtTest → EventLoop.quit_ (the_loop s) = true → internal s (s <| pc := Returned |>)
  | poll_readable s :
      pc s = InPoll → 0 < counter s → internal s (s <| pc := InHandlers true |>)
  | handle_read s :
      pc s = InHandlers true → internal s (s <| counter := 0 |> <| pc := InHandlers false |>)
  | start_calling s :
      pc s = InHandlers false → internal s (set_calling true (s <| pc := AtSwap |>))
  | do_swap s :
      pc s = AtSwap → internal s (swap s)
  | run_next f rest s :
      pc s = Running (f :: rest) →
      internal s (s <| ran ::= λ fs, fs ++ [f] |> <| pc := Running rest |>)
  | own_wakeup p s :
      pc s = InWakeup p → internal s (wakeup (s <| pc := p |>))
  | end_calling s :
      pc s = Running [] → internal s (set_calling false (s <| pc := AtTest |>)).

(** The loop's thread runs code of others. *)
Definition own_code (p : loop_pc) : bool :=
  match p with InHandlers _ | Running _ => true | _ => false end.

(** Calls, and what the kernel does on its own. *)
Inductive external : state → state → Prop :=
  (** Another thread: [QueueInLoop], [Quit]. *)
  | other_push t f s : external s (push f (s <| waking ::= cons t |>))
  | other_quit t s : external s (set_quit (s <| waking ::= cons t |>))
  (** The loop's thread, in a handler or a functor: it wakes itself up when
      the functors are being run. *)
  | own_push f s :
      own_code (pc s) = true →
      external s (push f
        (if EventLoop.calling_pending_functors_ (the_loop s) then s <| pc := InWakeup (pc s) |> else s))
  | own_quit s : own_code (pc s) = true → external s (set_quit s)
  (** [epoll_wait] returns for another descriptor, at the time-out or for a
      signal. *)
  | poll_other s : pc s = InPoll → external s (s <| pc := InHandlers false |>).

Definition step (s s' : state) : Prop := internal s s' ∨ external s s'.

(** When [Loop] is called, after [quit_] was reset: what other threads queued
    before is still there, and they woke the loop up or are about to. *)
Definition initial (s : state) : Prop :=
  pc s = AtTest ∧ ran s = [] ∧ 0 ≤ counter s ≤ counter_max ∧
  EventLoop.quit_ (the_loop s) = false ∧ EventLoop.calling_pending_functors_ (the_loop s) = false ∧
  pushed s = EventLoop.pending_functors_ (the_loop s) ∧
  (EventLoop.pending_functors_ (the_loop s) ≠ [] → 0 < counter s ∨ waking s ≠ []).

Definition reachable (s : state) : Prop := ∃ s0, initial s0 ∧ rtc step s0 s.

(** ** The invariant *)

(** What was swapped out and is still to be run. *)
Fixpoint running (p : loop_pc) : list functor :=
  match p with Running rest => rest | InWakeup p => running p | _ => [] end.

(** The functors queued now will only be looked at after the next
    [epoll_wait]. *)
Fixpoint after_swap (p : loop_pc) : bool :=
  match p with InHandlers _ | AtSwap => false | InWakeup p => after_swap p | _ => true end.

(** In [DoPendingFunctors]. *)
Fixpoint in_functors (p : loop_pc) : bool :=
  match p with AtSwap | Running _ => true | InWakeup p => in_functors p | _ => false end.

(** The eventfd is readable, or a thread is about to write to it. *)
Definition signalled (s : state) : Prop :=
  0 < counter s ∨ waking s ≠ [] ∨ ∃ p, pc s = InWakeup p.

Record inv (s : state) : Prop := {
  in_order : ran s ++ running (pc s) ++ EventLoop.pending_functors_ (the_loop s) = pushed s;
  in_counter : 0 ≤ counter s ≤ counter_max;
  in_signal : after_swap (pc s) = true → EventLoop.pending_functors_ (the_loop s) ≠ [] → signalled s;
  in_quit : pc s = InPoll → EventLoop.quit_ (the_loop s) = true → signalled s;
  in_calling : EventLoop.calling_pending_functors_ (the_loop s) = in_functors (pc s);
  in_nested p : pc s = InWakeup p → ∃ rest, p = Running rest;
  in_readable : pc s = InHandlers true → 0 < counter s;
  in_returned : pc s = Returned → EventLoop.quit_ (the_loop s) = true;
}.

Lemma signal_pos c : 0 ≤ c ≤ counter_max → 0 < signal c ≤ counter_max.
Proof. unfold signal, counter_max. destruct (Z.ltb_spec c (2 ^ 64 - 2)); lia. Qed.

Lemma inv_initial s : initial s → inv s.
Proof.
  intros (Hpc & Hr & Hc & Hq & Hca & Hp & Hs). split; rewrite ?Hpc, ?Hr, ?Hca, ?Hp; try done.
  intros _ Hne. destruct (Hs Hne); [by left | by right; left].
Qed.

(** A state whose signals are those of [s], or that was just woken up. *)
Lemma signalled_mono s s' :
  counter s' = counter s → waking s' = waking s → (∀ p, pc s ≠ InWakeup p) → signalled s → signalled s'.
Proof.
  intros Hc Hw Hp [H|[H|[p H]]]; [left; by rewrite Hc | right; left; by rewrite Hw | by destruct (Hp p)].
Qed.

Lemma signalled_wakeup s c : 0 ≤ c ≤ counter_max → counter s = signal c → signalled s.
Proof. intros Hc Hs. left. rewrite Hs. by apply signal_pos. Qed.

Ltac kept_signal Hs :=
  intros _ Hne; eapply signalled_mono; [| | | exact (Hs eq_refl Hne)];
  [done | done | intros ?; congruence].

Lemma inv_internal s s' : inv s → internal s s' → inv s'.
Proof.
  intros [Ho Hc Hs Hq Hca Hn Hrd Hrt] Hi. pose proof (signal_pos (counter s) Hc) as Hsig.
  destruct Hi as [t ws1 ws2 s Hw | s Hpc Hqt | s Hpc Hqt | s Hpc Hcnt | s Hpc | s Hpc | s Hpc | f rest s Hpc
    | p s Hpc | s Hpc]; unfold wakeup, swap, set_calling in *;
    [| rewrite Hpc in Ho, Hs, Hca ..];
    (split; upd_simpl; [ | | | | | | | ]); cbn [running after_swap in_functors app] in *; try done; try lia;
    try by (intros; by eapply signalled_wakeup).
  - kept_signal Hs.
  - intros _. congruence.
  - kept_signal Hs.
  - by rewrite app_nil_r.
  - by rewrite <- app_assoc.
  - kept_signal Hs.
  - intros p' ->. by destruct (Hn _ Hpc).
  - intros ->. by destruct (Hn _ Hpc).
  - kept_signal Hs.
Qed.

Lemma inv_external s s' : inv s → external s s' → inv s'.
Proof.
  intros [Ho Hc Hs Hq Hca Hn Hrd Hrt] He.
  destruct He as [t f s | t s | f s Hown | s Hown | s Hpc].
  - split; unfold push; upd_simpl; try done; [by rewrite <- Ho, <- !app_assoc | |];
      intros; right; left; done.
  - split; unfold set_quit; upd_simpl; try done; intros; right; left; done.
  - destruct (EventLoop.calling_pending_functors_ (the_loop s)) eqn:Hcall.
    + split; unfold push; upd_simpl; cbn [running after_swap in_functors]; try done; [by rewrite <- Ho, <- !app_assoc | | |].
      * intros _ _. right. right. by eexists.
      * congruence.
      * intros p [= <-]. destruct (pc s); try done. by eexists.
    + destruct (pc s) eqn:Hpc; try done.
      split; unfold push; upd_simpl; rewrite ?Hpc; cbn [running after_swap in_functors] in *; try done.
      by rewrite <- Ho, <- !app_assoc.
  - split; unfold set_quit; upd_simpl; try done; intros Hp; rewrite Hp in Hown; done.
  - rewrite Hpc in *. split; upd_simpl; cbn [running after_swap in_functors] in *; try done.
Qed.

Lemma inv_reachable s : reachable s → inv s.
Proof.
  intros (s0 & H0 & Hr). apply inv_initial in H0. induction Hr as [|s1 s2 s3 Hst _ IH]; [done |].
  apply IH. destruct Hst; [by eapply inv_internal | by eapply inv_external].
Qed.

(** ** At rest *)

(** Nothing is left to do without a new call. *)
Definition at_rest (s : state) : Prop := ∀ s', ¬ internal s s'.

(** The loop returned, or sleeps and nobody is on the way to wake it up. *)
Definition resting (s : state) : Prop :=
  waking s = [] ∧ (pc s = InPoll ∧ counter s = 0 ∨ pc s = Returned).

Lemma resting_at_rest s : resting s → at_rest s.
Proof.
  intros [Hw Hpc] s' Hi. destruct Hi as [t ws1 ws2 s Hws | | | | | | | | |];
    destruct Hpc as [[??]|?]; try congruence; try lia; rewrite Hw in Hws; by destruct ws1.
Qed.

Lemma progress s : inv s → (∃ s', internal s s') ∨ resting s.
Proof.
  intros [Ho Hc Hs Hq Hca Hn Hrd Hrt].
  destruct (waking s) as [|t ws] eqn:Hw; [| left; by eexists; apply (other_wakeup t [] ws)].
  destruct (pc s) as [| | [] | | [|f rest] | p |] eqn:Hpc;
    try by left; eexists; econstructor.
  - left. destruct (EventLoop.quit_ (the_loop s)) eqn:Hqt; eexists; by constructor.
  - destruct (decide (0 < counter s)); [left; eexists; by constructor |].
    right. split; [done | left]. split; [done | lia].
  - right. split; [done | by right].
Qed.

Lemma at_rest_resting s : inv s → at_rest s → resting s.
Proof. intros Hok Hr. by destruct (progress s Hok) as [[s' ?%Hr]|]. Qed.

(** A bound on the steps that are left. *)
Fixpoint pc_weight (p : loop_pc) : nat :=
  match p with
  | InHandlers false => 5 | AtSwap => 4 | Running _ => 3 | AtTest => 2 | InPoll => 1
  | InHandlers true | Returned => 0
  | InWakeup p => 12 + pc_weight p
  end.

Definition weight (s : state) : nat :=
  12 * length (waking s) + (if decide (0 < counter s) then 6 else 0) + pc_weight (pc s) +
  length (running (pc s)) + length (EventLoop.pending_functors_ (the_loop s)).

Lemma weight_internal s s' : inv s → internal s s' → (weight s' < weight s)%nat.
Proof.
  intros [_ Hc _ _ _ _ Hrd _] Hi. pose proof (signal_pos (counter s) Hc) as Hsig. unfold weight.
  destruct Hi as [t ws1 ws2 s Hw | s Hpc Hqt | s Hpc Hqt | s Hpc Hcnt | s Hpc | s Hpc | s Hpc | f rest s Hpc
    | p s Hpc | s Hpc]; unfold wakeup, swap, set_calling; upd_simpl;
    [rewrite Hw, !length_app; cbn [length] | rewrite Hpc ..]; cbn [pc_weight running length];
    try specialize (Hrd Hpc); repeat case_decide; lia.
Qed.

Lemma internal_fixed s s' :
  internal s s' → pushed s' = pushed s ∧ EventLoop.quit_ (the_loop s') = EventLoop.quit_ (the_loop s).
Proof. by intros []. Qed.

Lemma internals_fixed s s' :
  rtc internal s s' → inv s →
  inv s' ∧ pushed s' = pushed s ∧ EventLoop.quit_ (the_loop s') = EventLoop.quit_ (the_loop s).
Proof.
  intros Hr. induction Hr as [|s1 s2 s3 Hi _ IH]; [done |]. intros Hok.
  destruct (internal_fixed _ _ Hi) as [<- <-]. apply IH. by eapply inv_internal.
Qed.

(** ** The properties *)

(** C8: every functor is run at most once and none is lost or overtakes
    another: at any time, under any interleaving of the loop's thread with
    any number of threads that queue functors or quit, what was run, what is
    being run and what is queued make up exactly what was pushed, in the
    order of the pushes. *)
Theorem functors_in_order s :
  reachable s → ran s ++ running (pc s) ++ EventLoop.pending_functors_ (the_loop s) = pushed s.
Proof. intros Hr. apply in_order, inv_reachable, Hr. Qed.

(** C9: no wake-up is lost: whenever the loop is in [epoll_wait] while a
    functor is queued or the loop was told to quit, the eventfd is readable
    or a thread is on its way to write to it. *)
Theorem no_lost_wakeup s :
  reachable s → pc s = InPoll →
  EventLoop.pending_functors_ (the_loop s) ≠ [] ∨ EventLoop.quit_ (the_loop s) = true → signalled s.
Proof.
  intros Hr%inv_reachable Hpc [Hp|Hq].
  - apply (in_signal _ Hr); [by rewrite Hpc | done].
  - by apply (in_quit _ Hr).
Qed.

(** What holds of a state at rest that the calls made so far lead to. *)
Definition all_done (s s' : state) : Prop :=
  if EventLoop.quit_ (the_loop s) then pc s' = Returned
  else pc s' = InPoll ∧ EventLoop.pending_functors_ (the_loop s') = [] ∧ ran s' = pushed s.

Lemma resting_done s s' : inv s → rtc internal s s' → resting s' → all_done s s'.
Proof.
  intros Hr Hi Hrest. destruct (internals_fixed _ _ Hi Hr) as (Hok & Hp & Hq). unfold all_done.
  rewrite <- Hp, <- Hq. destruct Hrest as [Hw [(Hpc & Hc)|Hpc]]; [| by rewrite (in_returned _ Hok Hpc)].
  assert (¬ signalled s') as Hns by (intros [?|[?|[p ?]]]; [lia | done | congruence]).
  destruct (EventLoop.quit_ (the_loop s')) eqn:Hqt; [by destruct Hns; apply (in_quit _ Hok) |].
  destruct (decide (EventLoop.pending_functors_ (the_loop s') = [])) as [He|Hne].
  - pose proof (in_order _ Hok) as Ho. rewrite Hpc, He in Ho. cbn in Ho. by rewrite app_nil_r in Ho.
  - destruct Hns. apply (in_signal _ Hok); [by rewrite Hpc | done].
Qed.

Lemma comes_to_rest n s : inv s → (weight s < n)%nat → ∃ s', rtc internal s s' ∧ resting s'.
Proof.
  revert s. induction n as [|n IH]; intros s Hok Hn; [lia |].
  destruct (progress s Hok) as [[s1 Hi]|Hr]; [| by exists s].
  pose proof (weight_internal _ _ Hok Hi). destruct (IH s1) as (s' & Hr & Hs'); [by eapply inv_internal | lia |].
  exists s'. split; [by eapply rtc_l | done].
Qed.

(** C10: every functor is run in the end: when no new call is made, the
    threads come to rest within [weight s] steps, whatever their order, and
    can do so from any state; and then the loop has returned if it was told
    to quit, and otherwise is in [epoll_wait] with everything that was pushed
    run, in order, and nothing queued. *)
Theorem every_functor_runs s :
  reachable s →
  (∀ n s', nsteps internal n s s' → (n ≤ weight s)%nat) ∧
  (∃ s', rtc internal s s' ∧ at_rest s') ∧
  (∀ s', rtc internal s s' → at_rest s' → all_done s s').
Proof.
  intros Hr%inv_reachable. split_and!.
  - intros n s' Hn. induction Hn as [s | n s1 s2 s3 Hi _ IH]; [lia |].
    pose proof (weight_internal _ _ Hr Hi). specialize (IH (inv_internal _ _ Hr Hi)). lia.
  - destruct (comes_to_rest (S (weight s)) s) as (s' & Hi & Hs'); [done | lia |].
    exists s'. split; [done | by apply resting_at_rest].
  - intros s' Hi Hrest. apply resting_done; [done.. |]. apply at_rest_resting; [| done].
    by destruct (internals_fixed _ _ Hi Hr).
Qed.

(** ** A functor that nobody announced *)

(** The loop about to test [quit_] for the first time, nothing queued. *)
Definition about_to_loop : state :=
  mk_state (EventLoop.mk true false 0 [] 1 5 0 [] false) 0 AtTest [] [] [].

(** A functor that the loop's own thread queues before it calls [Loop]
    wakes nobody up, since [QueueInLoop] writes to the eventfd only for other
    threads and while functors are being run: the loop goes to sleep with the
    functor queued, and leaves it there until something else happens or the
    time-out of [kPollTimeMs]. *)
Theorem early_functor_waits f :
  ∃ s', rtc internal (push f about_to_loop) s' ∧ at_rest s' ∧
    EventLoop.pending_functors_ (the_loop s') = [f] ∧ ran s' = [].
Proof.
  exists (push f about_to_loop <| pc := InPoll |>). split_and!; [| | done | done].
  - apply rtc_once. by apply test_loop.
  - apply resting_at_rest. split; [done | by left].
Qed.

(** C39: a functor that was queued before [Quit] may never be run: when
    another thread queues it and calls [Quit] after the loop has taken out
    what it runs in this round, the loop ends with the functor still queued,
    although it was woken up for it.  So [ConnectDestroyed] may never be run
    for the connections of a server whose threads are told to quit. *)
Theorem quit_leaves_functor t f :
  ∃ s s', let queued := wakeup (push f s) in let told := set_quit (queued <| waking ::= cons t |>) in
    reachable s ∧ rtc step s queued ∧ external queued told ∧ rtc internal told s' ∧
    at_rest s' ∧ pc s' = Returned ∧ ran s' = [] ∧ EventLoop.pending_functors_ (the_loop s') = [f].
Proof.
  set (s1 := about_to_loop <| pc := InPoll |>). set (s2 := s1 <| pc := InHandlers false |>).
  set (s3 := swap (set_calling true (s2 <| pc := AtSwap |>))). set (s4 := wakeup (push f s3)).
  set (s5 := wakeup (set_quit s4)). set (s6 := set_calling false (s5 <| pc := AtTest |>)).
  exists s3, (s6 <| pc := Returned |>). split_and!; [| | by apply other_quit | | | done..].
  - exists about_to_loop. split; [by split_and! |].
    apply rtc_l with s1; [left; by apply test_loop |]. apply rtc_l with s2; [right; by apply poll_other |].
    eapply rtc_l; [left; by apply start_calling |]. apply rtc_once. left. by apply do_swap.
  - eapply rtc_l; [right; apply (other_push t f) |]. apply rtc_once. left. by apply (other_wakeup t [] []).
  - apply rtc_l with s5; [by apply (other_wakeup t [] []) |].
    apply rtc_l with s6; [by apply end_calling |]. apply rtc_once. by apply test_quit.
  - apply resting_at_rest. split; [done | by right].
Qed.

(** ** The operations of [LoopOps] are executions *)

Section refinement.
Context {E : Type} `{KernelLaws E} (X : stop → World E → Prop).
Implicit Types w : World E.

(** The loop of the world is the one of the relation's state; the eventfd's
    counter is the kernel's. *)
Definition matches (l : nat) w (s : state) : Prop := loops w !! l = Some (the_loop s).

(** [m] is an execution that leaves the loop's thread where it is, starts no
    wake-up it does not end, pushes [fs], and runs nothing. *)
Definition executes {A} (l : nat) (m : M (World E) A) (fs : list functor) w (s : state) : Prop :=
  wp X m (λ _ w', ∃ s', rtc step s s' ∧ matches l w' s' ∧ pc s' = pc s ∧ waking s' = waking s ∧
                        pushed s' = pushed s ++ fs ∧ ran s' = ran s) w.

(** The caller is another thread, or the loop's in code it runs. *)
Definition may_call w s : Prop :=
  EventLoop.thread_id_ (the_loop s) = tid w → own_code (pc s) = true.

Lemma QueueInLoop_executes l f w s :
  matches l w s → may_call w s → executes l (QueueInLoop l f) [f] w s.
Proof.
  intros Hl Hown. unfold executes. eapply wp_QueueInLoop; [exact Hl |]. intros w' Hq _.
  assert (∀ s', the_loop s' = (the_loop s) <| EventLoop.pending_functors_ ::= λ fs, fs ++ [f] |> → matches l w' s')
    as Hm by (intros s' Hs; unfold matches; rewrite (qd_loops _ _ _ _ _ Hq), Hs; apply lookup_insert_eq).
  destruct (decide (EventLoop.thread_id_ (the_loop s) = tid w)) as [Ht|Ht].
  - pose proof (own_push f s (Hown Ht)) as Hp.
    destruct (EventLoop.calling_pending_functors_ (the_loop s)) eqn:Hc.
    + set (s1 := push f (s <| pc := InWakeup (pc s) |>)) in *.
      exists (wakeup (s1 <| pc := pc s |>)). split; [| split; [by apply Hm | done]].
      apply (rtc_l _ _ s1); [by right |]. apply rtc_once. left. by apply own_wakeup.
    + exists (push f s). split; [| split; [by apply Hm | done]]. apply rtc_once. by right.
  - set (s1 := push f (s <| waking ::= cons (tid w) |>)).
    exists (wakeup (s1 <| waking := [] ++ waking s |>)). split; [| split; [by apply Hm | done]].
    apply (rtc_l _ _ s1); [right; apply other_push |].
    apply rtc_once. left. by apply (other_wakeup (tid w)).
Qed.

Lemma Quit_executes l w s : matches l w s → may_call w s → executes l (Quit l) [] w s.
Proof.
  intros Hl Hown. unfold executes. eapply wp_Quit; [exact Hl |]. intros w' _ Hls.
  assert (∀ s', the_loop s' = (the_loop s) <| EventLoop.quit_ := true |> → matches l w' s')
    as Hm by (intros s' Hs; unfold matches; rewrite Hls, Hs; apply lookup_insert_eq).
  destruct (decide (EventLoop.thread_id_ (the_loop s) = tid w)) as [Ht|Ht].
  - exists (set_quit s). split; [| split; [by apply Hm | split_and!; try done; by rewrite app_nil_r]].
    apply rtc_once. right. by apply own_quit, Hown.
  - set (s1 := set_quit (s <| waking ::= cons (tid w) |>)).
    exists (wakeup (s1 <| waking := [] ++ waking s |>)).
    split; [| split; [by apply Hm | split_and!; try done; by rewrite app_nil_r]].
    apply (rtc_l _ _ s1); [right; apply other_quit |].
    apply rtc_once. left. by apply (other_wakeup (tid w)).
Qed.

(** A functor, wherever the loop of functors is. *)
Definition runs_ok (l : nat) (run : functor → M (World E) unit) : Prop :=
  ∀ f w s rest, matches l w s → pc s = Running (f :: rest) → ∃ fs, executes l (run f) fs w s.

Lemma functors_execute l run fs w s :
  runs_ok l run → matches l w s → pc s = Running fs →
  wp X (sequence_ (run <$> fs))
    (λ _ w', ∃ s', rtc step s s' ∧ matches l w' s' ∧ pc s' = Running [] ∧ ran s' = ran s ++ fs) w.
Proof.
  intros Hrun. revert w s. induction fs as [|f fs IH]; intros w s Hl Hpc; cbn [fmap list_fmap sequence_].
  - apply wp_ret. exists s. by rewrite app_nil_r.
  - apply wp_bind. destruct (Hrun f w s fs Hl Hpc) as [new Hex].
    eapply wp_mono; [exact Hex |]. intros _ w1 (s1 & Hs1 & Hl1 & Hpc1 & _ & _ & Hran).
    set (s2 := s1 <| ran ::= λ fs, fs ++ [f] |> <| pc := Running fs |>).
    eapply wp_mono; [by apply (IH w1 s2) |].
    intros _ w2 (s3 & Hs3 & Hl3 & Hpc3 & Hran3). exists s3. split_and!; [| done | done |].
    + etrans; [exact Hs1 |]. eapply rtc_l; [left; apply (run_next f fs); congruence | exact Hs3].
    + rewrite Hran3. unfold s2. upd_simpl. by rewrite Hran, <- app_assoc.
Qed.
End refinement.


(** ** A run

    The loop sleeps; a thread queues two functors and has not yet written to
    the eventfd for the second. *)

Definition asleep : state :=
  mk_state (EventLoop.mk true false 0 [] 1 5 0 [] false) 0 InPoll [] [] [].
Definition queued_two : state :=
  push (FnListen 1) ((wakeup (push (FnListen 0) asleep)) <| waking := [2] |>).

Lemma reachable_step s s' : reachable s → step s s' → reachable s'.
Proof. intros (s0 & ? & ?) ?. exists s0. split; [done | by eapply rtc_r]. Qed.

Lemma asleep_reachable : reachable asleep.
Proof.
  refine (reachable_step _ _ _ (or_introl (test_loop (asleep <| pc := AtTest |>) eq_refl eq_refl))).
  exists (asleep <| pc := AtTest |>). split; [by repeat split | done].
Qed.

Lemma queued_two_reachable : reachable queued_two.
Proof.
  set (s1 := push (FnListen 0) (asleep <| waking ::= cons 2 |>)).
  set (s2 := wakeup (s1 <| waking := [] ++ [] |>)).
  refine (reachable_step s2 queued_two _ (or_intror (other_push 2 (FnListen 1) s2))).
  refine (reachable_step s1 s2 _ (or_introl (other_wakeup 2 [] [] s1 eq_refl))).
  exact (reachable_step asleep s1 asleep_reachable (or_intror (other_push 2 (FnListen 0) asleep))).
Qed.

Lemma functors_in_order_witness :
  ran queued_two ++ running (pc queued_two) ++ [FnListen 0; FnListen 1] = [FnListen 0; FnListen 1].
Proof. exact (functors_in_order queued_two queued_two_reachable). Defined.

Lemma no_lost_wakeup_witness : signalled queued_two.
Proof. by apply (no_lost_wakeup queued_two queued_two_reachable); [| left]. Defined.

Lemma every_functor_runs_witness :
  weight queued_two = 21%nat ∧ ∃ s', rtc internal queued_two s' ∧ ran s' = [FnListen 0; FnListen 1].
Proof.
  split; [reflexivity |].
  destruct (every_functor_runs queued_two queued_two_reachable) as (_ & (s' & Hi & Hr) & Hdone).
  exists s'. split; [exact Hi | exact (proj2 (proj2 (Hdone s' Hi Hr)))].
Defined.

(** A functor that queues another, and one that tells the loop to quit. *)
Definition nested (f : functor) : M (World sim) unit :=
  match f with FnListen n => QueueInLoop 0 (FnUser n) | _ => Quit 0 end.

Definition nested_state : state :=
  mk_state (EventLoop.mk true false 0 [] 1 5 0 [FnListen 3; FnShutdownInLoop 4] false) 0
    (InHandlers false) [] [FnListen 3; FnShutdownInLoop 4] [].
Definition nested_world : World sim :=
  (world_with (mk_sim scenario_obs [] [] [])) <| loops := {[0%nat := the_loop nested_state]} |>.

Lemma nested_runs_ok : runs_ok (λ _ _, False) 0 nested.
Proof.
  intros f w s rest Hl Hpc. assert (may_call w s) as Hc by (intros _; by rewrite Hpc).
  destruct f; try (exists []; by apply Quit_executes). eexists. by apply QueueInLoop_executes.
Qed.

End Interleave.
