(* ===== verification/SocketOps.v ===== *)
(** * Socket and InetAddress ([socket.cpp], [inet_address.cpp])

    [Socket] owns a descriptor, which is what a [Socket] member is in the
    model; its methods are system calls on it.  [InetAddress] wraps a
    [sockaddr_in], whose port and address are in network byte order: on the
    little-endian machine the program runs on, the address [a.b.c.d] is the
    integer with the bytes [a], [b], [c], [d] from the lowest up. *)

From S2P Require Import Prelude Format Kernel Buffer Objects.
From Stdlib Require Import Ascii DecimalString.

(** ** InetAddress *)

Definition AF_INET : Z := 2.

(** [htons] and [ntohs] swap the two bytes. *)
Definition htons (port : Z) : Z := u16 (Z.lor (Z.shiftl port 8) (Z.shiftr port 8)).
Definition ntohs (port : Z) : Z := htons port.

Definition octet (addr : Z) (i : Z) : Z := Z.land (Z.shiftr addr (8 * i)) 255.

(** [inet_ntop(AF_INET, ...)] *)
Definition inet_ntop (addr : Z) : string :=
  decimal (octet addr 0) +:+ "." +:+ decimal (octet addr 1) +:+ "." +:+
  decimal (octet addr 2) +:+ "." +:+ decimal (octet addr 3).

(** Decimal digits up to a dot or the end: value, digits read, rest. *)
Fixpoint read_octet (acc : Z) (digits : nat) (s : string) : Z * nat * string :=
  match s with
  | String c s' =>
      let d := Z.of_N (Ascii.N_of_ascii c) - 48 in
      if (0 <=? d) && (d <=? 9) then read_octet (acc * 10 + d) (S digits) s'
      else (acc, digits, s)
  | EmptyString => (acc, digits, EmptyString)
  end.

(** One octet as [inet_pton] takes it: one to three digits, at most 255, no
    leading zero. *)
Definition pton_octet (s : string) : option (Z * string) :=
  let '(v, digits, rest) := read_octet 0 0 s in
  if (Nat.eqb digits 0) || (Nat.ltb 3 digits) || (255 <? v) then None
  else match s with
       | String "0"%char (String c _) =>
           if Nat.ltb 1 digits then None else Some (v, rest)
       | _ => Some (v, rest)
       end.

Definition pton_dot (s : string) : option string :=
  match s with String "."%char s' => Some s' | _ => None end.

(** [inet_pton(AF_INET, ip, &addr)]: the address, if the string is one. *)
Definition inet_pton (ip : string) : option Z :=
  '(a, s) ← pton_octet ip; s ← pton_dot s;
  '(b, s) ← pton_octet s; s ← pton_dot s;
  '(c, s) ← pton_octet s; s ← pton_dot s;
  '(d, s) ← pton_octet s;
  match s with
  | EmptyString => Some (a + 256 * b + 65536 * c + 16777216 * d)
  | _ => None
  end.

(** [InetAddress(port, ip)]: a string that is not an address leaves
    [sin_addr] as it was ([uninit], since [addr_] is not initialised). *)
Definition InetAddress_ctor (uninit : Z) (port : Z) (ip : string) : InetAddress.t :=
  InetAddress.mk (mk_sockaddr AF_INET (htons port) (default uninit (inet_pton ip))).

Definition ToIp (a : InetAddress.t) : string := inet_ntop (sin_addr (InetAddress.addr_ a)).
Definition ToIpPort (a : InetAddress.t) : string :=
  inet_ntop (sin_addr (InetAddress.addr_ a)) +:+ ":" +:+
  decimal (ntohs (sin_port (InetAddress.addr_ a))).
Definition ToPort (a : InetAddress.t) : Z := ntohs (sin_port (InetAddress.addr_ a)).
Definition GetSockAddr (a : InetAddress.t) : sockaddr_in := InetAddress.addr_ a.
Definition SetSockAddr (addr : sockaddr_in) (a : InetAddress.t) : InetAddress.t :=
  a <| InetAddress.addr_ := addr |>.

(** ** Socket *)

Definition IPPROTO_TCP : Z := 6.
Definition TCP_NODELAY : Z := 1.
Definition SOL_SOCKET : Z := 1.
Definition SO_REUSEADDR : Z := 2.
Definition SO_KEEPALIVE : Z := 9.
Definition SO_REUSEPORT : Z := 15.

Section ops.
Context {E : Type} `{Kernel E}.
Abbreviation prog := (M (World E)).

Definition BindAddress (sockfd : Z) (localaddr : InetAddress.t) : prog unit :=
  '(ret, errno) ← sys (sys_bind sockfd (GetSockAddr localaddr));
  when (negb (ret =? 0)) (printf "bind error\n" []).

Definition Listen (sockfd : Z) : prog unit :=
  '(ret, errno) ← sys (sys_listen sockfd 1024);
  when (negb (ret =? 0)) (printf "listen error\n" []).

(** Returns [connfd], [errno], and what [*peeraddr] is afterwards. *)
Definition Accept (sockfd : Z) (peeraddr : InetAddress.t) : prog (Z * Z * InetAddress.t) :=
  '(connfd, errno, addr) ← sys (sys_accept4 sockfd);
  mret (connfd, errno, if 0 <=? connfd then SetSockAddr addr peeraddr else peeraddr).

Definition ShutdownWrite (sockfd : Z) : prog unit :=
  '(ret, errno) ← sys (sys_shutdown_wr sockfd);
  when (ret <? 0) (printf "shutdown error\n" []).

Definition setsockopt (sockfd level name : Z) (on : bool) : prog unit :=
  '(ret, errno) ← sys (sys_setsockopt sockfd level name (if on then 1 else 0));
  mret tt.

Definition SetTcpNoDelay (sockfd : Z) (on : bool) : prog unit :=
  setsockopt sockfd IPPROTO_TCP TCP_NODELAY on.
Definition SetReuseAddr (sockfd : Z) (on : bool) : prog unit :=
  setsockopt sockfd SOL_SOCKET SO_REUSEADDR on.
Definition SetReusePort (sockfd : Z) (on : bool) : prog unit :=
  setsockopt sockfd SOL_SOCKET SO_REUSEPORT on.
Definition SetKeepAlive (sockfd : Z) (on : bool) : prog unit :=
  setsockopt sockfd SOL_SOCKET SO_KEEPALIVE on.

(** [~Socket] *)
Definition Socket_dtor (sockfd : Z) : prog unit :=
  sys (λ e, (tt, sys_close sockfd e)).
End ops.
