(* ===== verification/ConnOps.v ===== *)
(** * TcpConnection ([tcp_connection.hpp], [tcp_connection.cpp])

    A connection owns a socket, the channel on it, and an input and an
    output buffer.  The handlers are the callbacks of the channel; [Send] and
    [Shutdown] are called by the application, from any thread.

    The application's callbacks are programs over the interface the library
    gives it ([client]); which program a callback is, is a parameter
    ([react]), and may depend on all the calls made to the application so
    far. *)

From S2P Require Import Prelude Format Kernel Buffer Objects PollerOps ChannelOps LoopOps SocketOps.

(** ** The application *)

(** What application code does with a connection, its input buffer and its
    loop; the continuation takes what the call returns. *)
Inductive client :=
  | CReturn
  | CSend (conn : nat) (msg : list byte) (k : client)
  | CSendBuffer (conn buffer : nat) (k : client)  (* the input buffer of [buffer] *)
  | CShutdown (conn : nat) (k : client)
  | CIsConnected (conn : nat) (k : bool → client)
  | CGetName (conn : nat) (k : string → client)
  | CGetLocalAddress (conn : nat) (k : InetAddress.t → client)
  | CGetPeerAddress (conn : nat) (k : InetAddress.t → client)
  | CToString (buffer : nat) (k : list byte → client)
  | CRetrieve (buffer : nat) (n : N) (k : client)
  | CRetrieveAllAsString (buffer : nat) (k : list byte → client)
  | CQueueInLoop (conn : nat) (cb : cbid) (k : client)  (* on [conn->GetLoop()] *)
  | CQuit (conn : nat) (k : client)
  | CLogInfo (fmt : string) (args : list arg) (k : client)
  | CSetContext (conn : nat) (context : option nat) (k : client)
  | CGetContext (conn : nat) (k : option nat → client).

Class App := react : call → list call → client.

Section ops.
Context {E : Type} `{Kernel E} `{App}.
Abbreviation prog := (M (World E)).

(** ** Buffers of a connection *)

(** Run an operation of [Buffer] on a member of a connection, with the
    environment. *)
Definition on_buffer {A} (c : nat) (get_buffer : TcpConnection.t → Buffer.t)
    (set_buffer : Buffer.t → TcpConnection.t → TcpConnection.t)
    (m : E → M Buffer.t (A * E)) : prog A := λ w,
  match conns w !! c with
  | None => Undef Dangling
  | Some cn =>
      let put b e := w <| env := e |> <| conns ::= <[c := set_buffer b cn]> |> in
      match m (env w) (get_buffer cn) with
      | Done (a, e) b => Done a (put b e)
      | Exit code b => Exit code (put b (env w))
      | Throw x b => Throw x (put b (env w))
      | Undef u => Undef u
      end
  end.

Definition on_input {A} (c : nat) : (E → M Buffer.t (A * E)) → prog A :=
  on_buffer c TcpConnection.input_buffer_
    (λ b cn, cn <| TcpConnection.input_buffer_ := b |>).
Definition on_output {A} (c : nat) : (E → M Buffer.t (A * E)) → prog A :=
  on_buffer c TcpConnection.output_buffer_
    (λ b cn, cn <| TcpConnection.output_buffer_ := b |>).

(** An operation that makes no system call. *)
Definition pure_op {A} (m : M Buffer.t A) : E → M Buffer.t (A * E) :=
  λ e, a ← m; mret (a, e).

(** ** Accessors *)

Definition SetState (c : nat) (new_s : StateE) : prog unit :=
  upd_conn c (λ cn, cn <| TcpConnection.state_ := new_s |>).

Definition StateToString (cn : TcpConnection.t) : string :=
  match TcpConnection.state_ cn with
  | kConnecting => "kConnecting"
  | kConnected => "kConnected"
  | kDisconnecting => "kDisconnecting"
  | kDisconnected => "kDisconnected"
  end.

Definition GetLoop (cn : TcpConnection.t) : nat := TcpConnection.loop_ cn.
Definition GetName (cn : TcpConnection.t) : string := TcpConnection.name_ cn.
Definition GetLocalAddress (cn : TcpConnection.t) : InetAddress.t := TcpConnection.local_addr_ cn.
Definition GetPeerAddress (cn : TcpConnection.t) : InetAddress.t := TcpConnection.peer_addr_ cn.
Definition IsConnected (cn : TcpConnection.t) : bool :=
  bool_decide (TcpConnection.state_ cn = kConnected).

Definition SetConnectionCallback (c : nat) (cb : option cbid) : prog unit :=
  upd_conn c (λ cn, cn <| TcpConnection.connection_callback_ := cb |>).
Definition SetCloseCallback (c : nat) (cb : option close_callback) : prog unit :=
  upd_conn c (λ cn, cn <| TcpConnection.close_callback_ := cb |>).
Definition SetMessageCallback (c : nat) (cb : option cbid) : prog unit :=
  upd_conn c (λ cn, cn <| TcpConnection.message_callback_ := cb |>).
Definition SetWriteCompleteCallback (c : nat) (cb : option cbid) : prog unit :=
  upd_conn c (λ cn, cn <| TcpConnection.write_complete_callback_ := cb |>).
Definition SetHighWaterMarkCallback (c : nat) (cb : option cbid) (high_water_mark : Z)
    : prog unit :=
  upd_conn c (λ cn, cn <| TcpConnection.high_water_mark_callback_ := cb |>
                       <| TcpConnection.high_water_mark_ := high_water_mark |>).

(** Writing through what [GetMutableContext] returns does as [SetContext]. *)
Definition SetContext (c : nat) (context : option nat) : prog unit :=
  upd_conn c (λ cn, cn <| TcpConnection.context_ := context |>).
Definition GetContext (cn : TcpConnection.t) : option nat := TcpConnection.context_ cn.

(** ** Sending *)

(** The channel of a connection. *)
#[local] Abbreviation conn_channel cn := (the_channel (TcpConnection.channel_ cn)).

(** The end of [SendInLoop]: what was not written is kept. *)
Definition buffer_rest (c : nat) (data : list byte) (nwrote remaining : Z) (fault_error : bool)
    : prog unit :=
  when (negb fault_error && (0 <? remaining))
    (cn ← the_conn c;
     let old_len := Buffer.ReadableBytes (TcpConnection.output_buffer_ cn) in
     when ((TcpConnection.high_water_mark_ cn <=? u64 (old_len + remaining)) &&
           (old_len <? TcpConnection.high_water_mark_ cn) &&
           bool_decide (is_Some (TcpConnection.high_water_mark_callback_ cn)))
       (QueueInLoop (TcpConnection.loop_ cn) (FnHighWaterMark c (u64 (old_len + remaining))));;
     on_output c (pure_op (Buffer.Append (zdrop nwrote data) remaining));;
     ch ← conn_channel cn;
     when (negb (IsWriting ch)) (EnableWriting (TcpConnection.channel_ cn))).

Definition SendInLoop (c : nat) (data : list byte) (len : Z) : prog unit :=
  cn ← the_conn c;
  if decide (TcpConnection.state_ cn = kDisconnected) then
    LOG_ERROR "disconnected, give up writing\n" []
  else
    ch ← conn_channel cn;
    '(nwrote, remaining, fault_error) ←
      (if negb (IsWriting ch) && (Buffer.ReadableBytes (TcpConnection.output_buffer_ cn) =? 0)
       then
         '(nwrote, errno) ← sys (sys_write (Channel.fd_ ch) (ztake len data));
         if 0 <=? nwrote then
           let remaining := u64 (len - nwrote) in
           cn ← the_conn c;
           when ((remaining =? 0) &&
                 bool_decide (is_Some (TcpConnection.write_complete_callback_ cn)))
             (QueueInLoop (TcpConnection.loop_ cn) (FnWriteComplete c));;
           mret (nwrote, remaining, false)
         else if negb (errno =? EWOULDBLOCK) then
           LOG_ERROR "TcpConnection::sendInLoop" [];;
           errno ← sys (log_errno errno);
           mret (0, len, (errno =? EPIPE) || (errno =? ECONNRESET))
         else mret (0, len, false)
       else mret (0, len, false));
    buffer_rest c data nwrote remaining fault_error.

Definition Send (c : nat) (msg : list byte) : prog unit :=
  cn ← the_conn c;
  when (IsConnected cn)
    (b ← IsInLoopThread (TcpConnection.loop_ cn);
     if (b : bool) then SendInLoop c msg (zlen msg)
     else RunInLoop (TcpConnection.loop_ cn) (FnSendInLoop c msg)
            (SendInLoop c msg (zlen msg))).

(** The body of [Send(Buffer ptr)], and of the functor it makes; the buffer is
    the input buffer of connection [bc].  [Peek] points into it. *)
Definition SendBufferInLoop (c bc : nat) : prog unit :=
  data ← on_input bc (λ e, b ← get;
    d ← Buffer.load (Buffer.Peek b) (Buffer.ReadableBytes b); mret (d, e));
  bcn ← the_conn bc;
  SendInLoop c data (Buffer.ReadableBytes (TcpConnection.input_buffer_ bcn));;
  on_input bc (pure_op Buffer.RetrieveAll).

Definition SendBuffer (c bc : nat) : prog unit :=
  cn ← the_conn c;
  when (IsConnected cn)
    (b ← IsInLoopThread (TcpConnection.loop_ cn);
     if (b : bool) then SendBufferInLoop c bc
     else RunInLoop (TcpConnection.loop_ cn) (FnSendBuffer c bc) (SendBufferInLoop c bc)).

Definition ShutdownInLoop (c : nat) : prog unit :=
  cn ← the_conn c;
  ch ← conn_channel cn;
  when (negb (IsWriting ch)) (ShutdownWrite (TcpConnection.socket_ cn)).

Definition Shutdown (c : nat) : prog unit :=
  cn ← the_conn c;
  when (IsConnected cn)
    (SetState c kDisconnecting;;
     RunInLoop (TcpConnection.loop_ cn) (FnShutdownInLoop c) (ShutdownInLoop c)).

(** ** Running the application *)

Fixpoint run_client (p : client) : prog unit :=
  match p with
  | CReturn => mret tt
  | CSend c msg k => Send c msg;; run_client k
  | CSendBuffer c bc k => SendBuffer c bc;; run_client k
  | CShutdown c k => Shutdown c;; run_client k
  | CIsConnected c k => cn ← the_conn c; run_client (k (IsConnected cn))
  | CGetName c k => cn ← the_conn c; run_client (k (GetName cn))
  | CGetLocalAddress c k => cn ← the_conn c; run_client (k (GetLocalAddress cn))
  | CGetPeerAddress c k => cn ← the_conn c; run_client (k (GetPeerAddress cn))
  | CToString bc k => s ← on_input bc (pure_op Buffer.ToString); run_client (k s)
  | CRetrieve bc n k => on_input bc (pure_op (Buffer.Retrieve (Z.of_N n)));; run_client k
  | CRetrieveAllAsString bc k =>
      s ← on_input bc (pure_op Buffer.RetrieveAllAsString); run_client (k s)
  | CQueueInLoop c cb k =>
      cn ← the_conn c; QueueInLoop (GetLoop cn) (FnUser cb);; run_client k
  | CQuit c k => cn ← the_conn c; Quit (GetLoop cn);; run_client k
  | CLogInfo fmt args k => LOG_INFO fmt args;; run_client k
  | CSetContext c context k => SetContext c context;; run_client k
  | CGetContext c k => cn ← the_conn c; run_client (k (GetContext cn))
  end.

(** A call of a callback of the application. *)
Definition invoke (c : call) : prog unit :=
  h ← gets calls;
  record_call c;;
  run_client (react c h).

(** [cb(...)]: calling an empty [std::function] throws. *)
Definition call_fn {A} (cb : option A) (body : A → prog unit) : prog unit :=
  match cb with Some cb => body cb | None => throw BadFunctionCall end.

Definition connection_callback (c : nat) : prog unit :=
  cn ← the_conn c;
  call_fn (TcpConnection.connection_callback_ cn)
    (λ cb, invoke (OnConnection cb c (IsConnected cn))).

Definition message_callback (c : nat) (receive_time : Z) : prog unit :=
  cn ← the_conn c;
  call_fn (TcpConnection.message_callback_ cn)
    (λ cb, invoke (OnMessage cb c (Buffer.content (TcpConnection.input_buffer_ cn)) receive_time)).

Definition write_complete_callback (c : nat) : prog unit :=
  cn ← the_conn c;
  call_fn (TcpConnection.write_complete_callback_ cn) (λ cb, invoke (OnWriteComplete cb c)).

Definition high_water_mark_callback (c : nat) (len : Z) : prog unit :=
  cn ← the_conn c;
  call_fn (TcpConnection.high_water_mark_callback_ cn) (λ cb, invoke (OnHighWaterMark cb c len)).

(** ** [TcpServer::RemoveConnection], the close callback of its connections *)

Definition RemoveConnectionInLoop (s conn_ptr : nat) : prog unit :=
  sv ← the_server s;
  cn ← the_conn conn_ptr;
  LOG_INFO "TcpServer::RemoveConnectionInLoop [%s] - connection %s\n"
    [AStr (TcpServer.name_ sv); AStr (GetName cn)];;
  upd_server s (λ sv, sv <| TcpServer.connections_ ::= delete (GetName cn) |>);;
  QueueInLoop (GetLoop cn) (FnConnectDestroyed conn_ptr).

Definition RemoveConnection (s conn_ptr : nat) : prog unit :=
  sv ← the_server s;
  RunInLoop (TcpServer.loop_ sv) (FnRemoveConnectionInLoop s conn_ptr)
    (RemoveConnectionInLoop s conn_ptr).

Definition close_callback_of (c : nat) : prog unit :=
  cn ← the_conn c;
  call_fn (TcpConnection.close_callback_ cn) (λ cb,
    match cb with
    | CloseUser cb => invoke (OnClose cb c)
    | CloseRemoveConnection s conn_ptr => RemoveConnection s conn_ptr
    end).

(** ** Handlers *)

Definition HandleClose (c : nat) : prog unit :=
  cn ← the_conn c;
  ch ← conn_channel cn;
  LOG_INFO "TcpConnection::HandleClose fd=%d state=%s\n"
    [AInt (Channel.fd_ ch); AStr (StateToString cn)];;
  SetState c kDisconnected;;
  DisableAll (TcpConnection.channel_ cn);;
  connection_callback c;;
  close_callback_of c.

(** [errno] is only what the call just made left in it: the assignment of
    [savedErrno] before [HandleError] is overwritten there. *)
Definition HandleError (c : nat) : prog unit :=
  cn ← the_conn c;
  ch ← conn_channel cn;
  '(ret, errno, optval) ← sys (sys_so_error (Channel.fd_ ch));
  let err := if ret <? 0 then errno else optval in
  LOG_ERROR "TcpConnection::HandleError name:%s - SO_ERROR:%d\n"
    [AStr (TcpConnection.name_ cn); AInt err].

Definition HandleRead (c : nat) (receive_time : Z) : prog unit :=
  cn ← the_conn c;
  ch ← conn_channel cn;
  '(n, savedErrno) ← on_input c (Buffer.ReadFd (Channel.fd_ ch) 0);
  if 0 <? n then message_callback c receive_time
  else if n =? 0 then HandleClose c
  else LOG_ERROR "TcpConnection::handleRead" [];; HandleError c.

Definition HandleWrite (c : nat) : prog unit :=
  cn ← the_conn c;
  ch ← conn_channel cn;
  when (IsWriting ch)
    ('(n, saved_errno) ← on_output c (Buffer.WriteFd (Channel.fd_ ch) 0);
     if 0 <? n then
       cn ← the_conn c;
       if Buffer.ReadableBytes (TcpConnection.output_buffer_ cn) =? 0 then
         DisableWriting (TcpConnection.channel_ cn);;
         when (bool_decide (is_Some (TcpConnection.write_complete_callback_ cn)))
           (QueueInLoop (TcpConnection.loop_ cn) (FnWriteComplete c));;
         cn ← the_conn c;
         when (bool_decide (TcpConnection.state_ cn = kDisconnecting)) (ShutdownInLoop c)
       else LOG_ERROR "TcpConnection::HandleWrite" []
     else LOG_ERROR "TcpConnection fd=%d is down, no more writing" [AInt (Channel.fd_ ch)]).

(** ** Life cycle *)

Definition ConnectEstablished (c : nat) : prog unit :=
  SetState c kConnected;;
  cn ← the_conn c;
  Tie (TcpConnection.channel_ cn) c;;
  EnableReading (TcpConnection.channel_ cn);;
  connection_callback c.

Definition ConnectDestroyed (c : nat) : prog unit :=
  cn ← the_conn c;
  when (IsConnected cn)
    (SetState c kDisconnected;;
     DisableAll (TcpConnection.channel_ cn);;
     connection_callback c);;
  Remove (TcpConnection.channel_ cn).

(** [static EventLoop* CheckLoopNotNull(EventLoop* loop)] *)
Definition CheckLoopNotNull (loop : option nat) : prog nat :=
  match loop with
  | None => LOG_FATAL "%s:%s:%d mainLoop is null!\n"
      [AStr "tcp_connection.cpp"; AStr "CheckLoopNotNull"; AInt 16];; mret 0%nat
  | Some l => mret l
  end.

(** [std::make_shared<TcpConnection>(loop, name_arg, sockfd, ...)] *)
Definition new_connection (loop : option nat) (name_arg : string) (sockfd : Z)
    (local_addr peer_addr : InetAddress.t) : prog nat :=
  loop_ ← CheckLoopNotNull loop;
  channel ← new_channel loop_ sockfd;
  w ← get;
  let c := fresh (dom (conns w)) in
  modify (λ w, w <| conns ::= <[c := TcpConnection.mk loop_ name_arg kConnecting true sockfd
    channel local_addr peer_addr None None None None (64 * 1024 * 1024) None
    (Buffer.ctor Buffer.kInitialSize) (Buffer.ctor Buffer.kInitialSize) None]> |>);;
  SetReadCallback channel (Some (CbConnRead c));;
  SetWriteCallback channel (Some (CbConnWrite c));;
  ChannelOps.SetCloseCallback channel (Some (CbConnClose c));;
  SetErrorCallback channel (Some (CbConnError c));;
  LOG_INFO "TcpConnection::ctor[%s] at fd=%d\n" [AStr name_arg; AInt sockfd];;
  SetKeepAlive sockfd true;;
  mret c.

(** [~TcpConnection], with the destructors of the channel and the socket. *)
Definition delete_connection (c : nat) : prog unit :=
  cn ← the_conn c;
  ch ← conn_channel cn;
  LOG_INFO "TcpConnection::dtor[%s] at fd=%d state=%s\n"
    [AStr (TcpConnection.name_ cn); AInt (Channel.fd_ ch); AStr (StateToString cn)];;
  modify (λ w, w <| channels ::= delete (TcpConnection.channel_ cn) |>);;
  Socket_dtor (TcpConnection.socket_ cn);;
  modify (λ w, w <| conns ::= delete c |>).
End ops.
