(* ===== verification/ServerOps.v ===== *)
(** * Acceptor, EventLoopThreadPool, TcpServer

    ([acceptor.cpp], [event_loop_thread_pool.cpp], [event_loop_thread.cpp],
    [tcp_server.cpp].)  The server accepts connections in the main loop and
    hands each to the next loop of its pool.  At the end of the file the
    callbacks and functors of all classes are tied together:
    [call_callback] and [run_functor] are what the loops run. *)

From S2P Require Import Prelude Format Kernel Buffer Objects PollerOps ChannelOps LoopOps SocketOps ConnOps.

(** ** EventLoopThreadPool *)

Module Pool.
Import EventLoopThreadPool.

Definition ctor (base_loop : nat) (name : string) : t := mk base_loop name false 0 0 [] [].

Definition SetThreadNum (num_threads : Z) (p : t) : t := p <| num_threads_ := num_threads |>.

(** [loops_[next_]] is not checked, and [next_] is converted to [size_t]. *)
Definition GetNextLoop : M t nat :=
  p ← get;
  match loops_ p with
  | [] => mret (base_loop_ p)
  | _ :: _ =>
      match loops_ p !! Z.to_nat (u64 (next_ p)) with
      | None => undef OutOfBounds
      | Some loop =>
          if next_ p =? INT_MAX then undef IntOverflow
          else
            modify (λ p, p <| next_ ::= Z.succ |>);;
            p ← get;
            when (zlen (loops_ p) <=? u64 (next_ p)) (modify (λ p, p <| next_ := 0 |>));;
            mret loop
      end
  end.

Definition GetAllLoops (p : t) : list nat :=
  match loops_ p with [] => [base_loop_ p] | ls => ls end.

Definition started (p : t) : bool := started_ p.
Definition name (p : t) : string := name_ p.
End Pool.

Section ops.
Context {E : Type} `{Kernel E} `{App}.
Abbreviation prog := (M (World E)).

(** ** EventLoopThread *)

(** A thread id no other thread has. *)
Definition new_tid (w : World E) : Z := fresh ({[tid w]} ∪ dom (loop_in_this_thread w)).

(** [if (cb) cb(loop)] *)
Definition thread_init (cb : option cbid) (loop : nat) : prog unit :=
  match cb with Some cb => invoke (OnThreadInit cb loop) | None => mret tt end.

(** [StartLoop] starts the thread and waits until it has made its loop and
    run the initialisation callback: what the two threads do up to there is
    in sequence.  The new thread goes on to call [Loop]. *)
Definition StartLoop (cb : option cbid) : prog nat :=
  caller ← gets tid;
  modify (λ w, w <| tid := new_tid w |>);;
  loop ← new_loop;
  thread_init cb loop;;
  modify (λ w, w <| tid := caller |>);;
  mret loop.

(** [EventLoopThreadPool::Start] of the pool of server [s], from thread [i]
    on: [n] threads to go. *)
Definition upd_pool (s : nat) (f : EventLoopThreadPool.t → EventLoopThreadPool.t) : prog unit :=
  upd_server s (λ sv, sv <| TcpServer.thread_pool_ ::= f |>).

Fixpoint start_threads (s : nat) (cb : option cbid) (i : Z) (n : nat) : prog unit :=
  match n with
  | O => mret tt
  | S n =>
      sv ← the_server s;
      let name_ := EventLoopThreadPool.name_ (TcpServer.thread_pool_ sv) in
      let buf := snprintf (String.length name_ + 32) (name_ +:+ decimal_int i) in
      loop ← StartLoop cb;
      upd_pool s (λ p, p <| EventLoopThreadPool.loops_ ::= λ ls, ls ++ [loop] |>);;
      upd_pool s (λ p, p <| EventLoopThreadPool.threads_ ::= λ ts, ts ++ [buf] |>);;
      start_threads s cb (i + 1) n
  end.

Definition Pool_Start (s : nat) (cb : option cbid) : prog unit :=
  upd_pool s (λ p, p <| EventLoopThreadPool.started_ := true |>);;
  sv ← the_server s;
  start_threads s cb 0
    (Z.to_nat (EventLoopThreadPool.num_threads_ (TcpServer.thread_pool_ sv)));;
  sv ← the_server s;
  when (EventLoopThreadPool.num_threads_ (TcpServer.thread_pool_ sv) =? 0)
    (thread_init cb (EventLoopThreadPool.base_loop_ (TcpServer.thread_pool_ sv))).

(** An operation on the pool of a server. *)
Definition on_pool {A} (s : nat) (m : M EventLoopThreadPool.t A) : prog A := λ w,
  match servers w !! s with
  | None => Undef Dangling
  | Some sv =>
      let put p := w <| servers ::= <[s := sv <| TcpServer.thread_pool_ := p |>]> |> in
      match m (TcpServer.thread_pool_ sv) with
      | Done a p => Done a (put p)
      | Exit code p => Exit code (put p)
      | Throw x p => Throw x (put p)
      | Undef u => Undef u
      end
  end.

(** ** TcpServer: connections *)

Definition server_connection (s c : nat) (conn_name : string) : prog unit :=
  sv ← the_server s;
  upd_server s (λ sv, sv <| TcpServer.connections_ ::= <[conn_name := c]> |>);;
  SetConnectionCallback c (TcpServer.connection_callback_ sv);;
  SetMessageCallback c (TcpServer.message_callback_ sv);;
  SetWriteCompleteCallback c (TcpServer.write_complete_callback_ sv);;
  ConnOps.SetCloseCallback c (Some (CloseRemoveConnection s c)).

Definition NewConnection (s : nat) (connfd : Z) (peer_addr : InetAddress.t) : prog unit :=
  sub_loop ← on_pool s Pool.GetNextLoop;
  sv ← the_server s;
  let id := TcpServer.next_conn_id_ sv in
  (if id =? INT_MAX then undef IntOverflow
   else upd_server s (λ sv, sv <| TcpServer.next_conn_id_ ::= Z.succ |>));;
  let buf := snprintf 64 ("-" +:+ TcpServer.ip_port_ sv +:+ "#" +:+ decimal_int id) in
  let conn_name := TcpServer.name_ sv +:+ buf in
  LOG_INFO "TcpServer::NewConnection [%s] - new connection [%s] from %s\n"
    [AStr (TcpServer.name_ sv); AStr conn_name; AStr (ToIpPort peer_addr)];;
  '(ret, errno, local) ← sys (sys_getsockname connfd);
  when (ret <? 0) (LOG_ERROR "getsockname error\n" []);;
  let local := if ret <? 0 then mk_sockaddr 0 0 0 else local in
  c ← new_connection (Some sub_loop) conn_name connfd (InetAddress.mk local) peer_addr;
  server_connection s c conn_name;;
  RunInLoop sub_loop (FnConnectEstablished c) (ConnectEstablished c).

(** ** Acceptor *)

Definition upd_acceptor (s : nat) (f : Acceptor.t → Acceptor.t) : prog unit :=
  upd_server s (λ sv, sv <| TcpServer.acceptor_ ::= f |>).

Definition CreateNonblocking : prog Z :=
  '(sockfd, errno) ← sys sys_socket;
  when (sockfd <? 0)
    (LOG_FATAL "%s:%s:%d listen socket create err:%d\n"
       [AStr "acceptor.cpp"; AStr "CreateNonblocking"; AInt 14; AInt errno]);;
  mret sockfd.

(** The constructor; the read callback captures the acceptor, which belongs
    to server [s]. *)
Definition new_acceptor (s loop : nat) (listen_addr : InetAddress.t) (reuse_port : bool)
    : prog Acceptor.t :=
  sockfd ← CreateNonblocking;
  channel ← new_channel loop sockfd;
  SetReuseAddr sockfd true;;
  SetReusePort sockfd reuse_port;;
  BindAddress sockfd listen_addr;;
  SetReadCallback channel (Some (CbAcceptorRead s));;
  mret (Acceptor.mk loop sockfd channel false None).

Definition delete_acceptor (a : Acceptor.t) : prog unit :=
  DisableAll (Acceptor.accept_channel_ a);;
  Remove (Acceptor.accept_channel_ a);;
  modify (λ w, w <| channels ::= delete (Acceptor.accept_channel_ a) |>);;
  Socket_dtor (Acceptor.accept_socket_ a).

Definition listening (a : Acceptor.t) : bool := Acceptor.listenning_ a.

Definition Acceptor_Listen (s : nat) : prog unit :=
  upd_acceptor s (λ a, a <| Acceptor.listenning_ := true |>);;
  sv ← the_server s;
  Listen (Acceptor.accept_socket_ (TcpServer.acceptor_ sv));;
  EnableReading (Acceptor.accept_channel_ (TcpServer.acceptor_ sv)).

Definition SetNewConnectionCallback (s : nat) (cb : option nat) : prog unit :=
  upd_acceptor s (λ a, a <| Acceptor.new_connection_callback_ := cb |>).

Definition Acceptor_HandleRead (s : nat) : prog unit :=
  sv ← the_server s;
  let a := TcpServer.acceptor_ sv in
  '(connfd, errno, peer_addr) ←
    Accept (Acceptor.accept_socket_ a) (InetAddress_ctor 0 0 "127.0.0.1");
  if 0 <=? connfd then
    match Acceptor.new_connection_callback_ a with
    | Some s' => NewConnection s' connfd peer_addr
    | None => sys (λ e, (tt, sys_close connfd e))
    end
  else
    LOG_ERROR "%s:%s:%d accept err:%d\n"
      [AStr "acceptor.cpp"; AStr "HandleRead"; AInt 66; AInt errno];;
    errno ← sys (log_errno errno);
    when (errno =? EMFILE)
      (LOG_ERROR "%s:%s:%d sockfd reached limit\n"
         [AStr "acceptor.cpp"; AStr "HandleRead"; AInt 68]).

(** ** TcpServer *)

(** [TcpServer(loop, listen_addr, name, option)] *)
Definition new_server (loop : option nat) (listen_addr : InetAddress.t) (name : string)
    (reuse_port : bool) : prog nat :=
  match loop with
  | None => LOG_FATAL "%s:%s:%d mainLoop is null!\n"
      [AStr "tcp_server.cpp"; AStr "CheckLoopNotNull"; AInt 13];; mret 0%nat
  | Some l =>
      w ← get;
      let s := fresh (dom (servers w)) in
      a ← new_acceptor s l listen_addr reuse_port;
      modify (λ w, w <| servers ::= <[s := TcpServer.mk l (ToIpPort listen_addr) name a
        (Pool.ctor l name) None None None None 0 0 1 ∅]> |>);;
      SetNewConnectionCallback s (Some s);;
      mret s
  end.

Definition SetThreadNum (s : nat) (num_threads : Z) : prog unit :=
  upd_server s (λ sv, sv <| TcpServer.num_threads_ := num_threads |>);;
  upd_pool s (Pool.SetThreadNum num_threads).

Definition SetThreadInitCallback (s : nat) (cb : option cbid) : prog unit :=
  upd_server s (λ sv, sv <| TcpServer.thread_init_callback_ := cb |>).
Definition Server_SetConnectionCallback (s : nat) (cb : option cbid) : prog unit :=
  upd_server s (λ sv, sv <| TcpServer.connection_callback_ := cb |>).
Definition Server_SetMessageCallback (s : nat) (cb : option cbid) : prog unit :=
  upd_server s (λ sv, sv <| TcpServer.message_callback_ := cb |>).
Definition Server_SetWriteCompleteCallback (s : nat) (cb : option cbid) : prog unit :=
  upd_server s (λ sv, sv <| TcpServer.write_complete_callback_ := cb |>).

(** [started_.fetch_add(1)]: an atomic [int] wraps around. *)
Definition Server_Start (s : nat) : prog unit :=
  sv ← the_server s;
  let old := TcpServer.started_ sv in
  upd_server s (λ sv, sv <| TcpServer.started_ := i32 (old + 1) |>);;
  when (old =? 0)
    (Pool_Start s (TcpServer.thread_init_callback_ sv);;
     RunInLoop (TcpServer.loop_ sv) (FnListen s) (Acceptor_Listen s)).

(** [~TcpServer]: the connections, in the order the map lists them, then the
    acceptor.  The threads of the pool end with their loops. *)
Definition delete_server (s : nat) : prog unit :=
  sv ← the_server s;
  sequence_ ((λ '(_, c),
    cn ← the_conn c;
    RunInLoop (GetLoop cn) (FnConnectDestroyed c) (ConnectDestroyed c))
    <$> map_to_list (TcpServer.connections_ sv));;
  delete_acceptor (TcpServer.acceptor_ sv);;
  modify (λ w, w <| servers ::= delete s |>).

(** ** The functors and callbacks of the library *)

Definition run_functor (f : functor) : prog unit :=
  match f with
  | FnSendInLoop c msg => SendInLoop c msg (zlen msg)
  | FnSendBuffer c bc => SendBufferInLoop c bc
  | FnShutdownInLoop c => ShutdownInLoop c
  | FnWriteComplete c => write_complete_callback c
  | FnHighWaterMark c len => high_water_mark_callback c len
  | FnConnectEstablished c => ConnectEstablished c
  | FnConnectDestroyed c => ConnectDestroyed c
  | FnRemoveConnectionInLoop s c => RemoveConnectionInLoop s c
  | FnListen s => Acceptor_Listen s
  | FnUser cb => invoke (OnFunctor cb)
  end.

Definition call_callback (cb : callback) (receive_time : Z) : prog unit :=
  match cb with
  | CbLoopRead l => LoopOps.HandleRead l
  | CbAcceptorRead s => Acceptor_HandleRead s
  | CbConnRead c => ConnOps.HandleRead c receive_time
  | CbConnWrite c => HandleWrite c
  | CbConnClose c => HandleClose c
  | CbConnError c => HandleError c
  end.

(** What a loop does with them. *)
Definition server_loop_body : nat → prog unit := loop_body run_functor call_callback.
Definition server_Loop : nat → nat → prog bool := Loop run_functor call_callback.
End ops.
