(* ===== verification/TurnOps.v ===== *)
(** * A round of a loop, in turns

    The loops of a server run in threads of their own.  Between two callbacks
    and between two functors of one loop, the other threads run.  Here a
    round of [EventLoop::Loop] is cut into turns: waiting for events,
    beginning with the events of a channel, one test of
    [Channel::HandleEventWithGuard] with the callback it guards, taking the
    functors out of the queue, running one of them, and being done with them.
    What a thread has still to do in its round - the local variables of
    [Loop], [HandleEventWithGuard] and [DoPendingFunctors] - is a [turn].
    One after the other, the turns of a loop are its round. *)

From S2P Require Import Prelude Format Kernel Buffer Objects PollerOps ChannelOps LoopOps ConnOps ServerOps.

(** The tests of [HandleEventWithGuard]. *)
Inductive test := TestClose | TestError | TestRead | TestWrite.
Definition all_tests : list test := [TestClose; TestError; TestRead; TestWrite].

Definition test_holds (k : test) (revents : Z) : bool :=
  match k with
  | TestClose => has revents EPOLLHUP && negb (has revents EPOLLIN)
  | TestError => has revents EPOLLERR
  | TestRead => has revents (Z.lor EPOLLIN EPOLLPRI)
  | TestWrite => has revents EPOLLOUT
  end.

Definition test_callback (k : test) (ch : Channel.t) : option callback :=
  match k with
  | TestClose => Channel.close_callback_ ch
  | TestError => Channel.error_callback_ ch
  | TestRead => Channel.read_callback_ ch
  | TestWrite => Channel.write_callback_ ch
  end.

(** Where a thread is in the round of its loop. *)
Inductive turn :=
  | THandle (active : list nat)                       (* the channels still to be handled *)
  | TTests (x : nat) (receiveTime : Z) (ks : list test) (active : list nat)
  | TRun (functors : list functor).                   (* the functors still to be run *)

Section ops.
Context {E : Type} `{Kernel E} `{App}.
Abbreviation prog := (M (World E)).

(** [active_channels_.clear()] and [Poll]. *)
Definition poll_turn (l : nat) : prog (list nat) :=
  upd_loop l (λ lp, lp <| EventLoop.active_channels_ := [] |>);;
  lp ← the_loop l;
  '(now, active) ← PollerOps.Poll l kPollTimeMs (EventLoop.active_channels_ lp);
  upd_loop l (λ lp, lp <| EventLoop.active_channels_ := active |>
                       <| EventLoop.poll_return_time_ := now |>);;
  mret active.

(** [HandleEvent] up to the tests: whether there is something to handle. *)
Definition begin_event (x : nat) : prog bool :=
  ch ← the_channel x;
  guard ← (if Channel.tied_ ch then lock (Channel.tie_ ch) else mret (Some x) : prog (option nat));
  match guard with
  | None => mret false
  | Some _ =>
      ch ← the_channel x;
      LOG_INFO "channel HandleEvent revents: %d\n" [AInt (Channel.revents_ ch)];;
      mret true
  end.

Definition run_test (x : nat) (receiveTime : Z) (k : test) : prog unit :=
  ch ← the_channel x;
  when (test_holds k (Channel.revents_ ch)) (call_if call_callback (test_callback k ch) receiveTime).

(** [calling_pending_functors_ = true] and the swap. *)
Definition take_functors (l : nat) : prog (list functor) :=
  upd_loop l (λ lp, lp <| EventLoop.calling_pending_functors_ := true |>);;
  lp ← the_loop l;
  let functors := EventLoop.pending_functors_ lp in
  upd_loop l (λ lp, lp <| EventLoop.pending_functors_ := [] |>);;
  mret functors.

Definition done_functors (l : nat) : prog unit :=
  upd_loop l (λ lp, lp <| EventLoop.calling_pending_functors_ := false |>).

(** The next turn of the thread of loop [l], which is at [T], or at the
    beginning of a round; where it is then. *)
Definition run_turn (l : nat) (T : option turn) : prog (option turn) :=
  match T with
  | None => active ← poll_turn l; mret (Some (THandle active))
  | Some (THandle []) => functors ← take_functors l; mret (Some (TRun functors))
  | Some (THandle (x :: active)) =>
      lp ← the_loop l;
      b ← begin_event x;
      mret (Some (if (b : bool) then TTests x (EventLoop.poll_return_time_ lp) all_tests active
                  else THandle active))
  | Some (TTests x t [] active) => mret (Some (THandle active))
  | Some (TTests x t (k :: ks) active) => run_test x t k;; mret (Some (TTests x t ks active))
  | Some (TRun []) => done_functors l;; mret None
  | Some (TRun (f :: functors)) => run_functor f;; mret (Some (TRun functors))
  end.

(** ** The pieces make up the round *)

Lemma HandleEventWithGuard_tests x t w :
  HandleEventWithGuard call_callback x t w =
    (ch ← the_channel x;
     LOG_INFO "channel HandleEvent revents: %d\n" [AInt (Channel.revents_ ch)];;
     sequence_ (run_test x t <$> all_tests)) w.
Proof.
  unfold HandleEventWithGuard. apply bind_ext. intros ch w1. apply bind_ext. intros _ w2.
  do 3 (apply bind_ext; intros _ ?w). symmetry. apply sequence_one.
Qed.

Lemma HandleEvent_tests x t w :
  HandleEvent call_callback x t w =
    (b ← begin_event x; when b (sequence_ (run_test x t <$> all_tests))) w.
Proof.
  unfold HandleEvent, begin_event. rewrite bind_assoc. apply bind_ext. intros ch w1. rewrite bind_assoc.
  assert (∀ w0, HandleEventWithGuard call_callback x t w0 =
    ((ch ← the_channel x; LOG_INFO "channel HandleEvent revents: %d\n" [AInt (Channel.revents_ ch)];; mret true)
     ≫= (λ b, when b (sequence_ (run_test x t <$> all_tests)))) w0) as Hg.
  { intros w0. rewrite HandleEventWithGuard_tests, bind_assoc. apply bind_ext. intros ch' w2.
    rewrite bind_assoc. done. }
  destruct (Channel.tied_ ch); [| apply Hg]. apply bind_ext. intros [c|] w2; [apply Hg | done].
Qed.

Lemma DoPendingFunctors_turns l w :
  DoPendingFunctors run_functor l w =
    (functors ← take_functors l; sequence_ (run_functor <$> functors);; done_functors l) w.
Proof.
  unfold DoPendingFunctors, take_functors. rewrite bind_assoc. apply bind_ext. intros _ w1.
  rewrite bind_assoc. apply bind_ext. intros lp w2. by rewrite bind_assoc.
Qed.

Lemma loop_body_turns l w :
  server_loop_body l w =
    (active ← poll_turn l; handle_active call_callback l active;; DoPendingFunctors run_functor l) w.
Proof.
  unfold server_loop_body, loop_body, poll_turn. rewrite bind_assoc. apply bind_ext. intros _ w1.
  rewrite bind_assoc. apply bind_ext. intros lp w2. rewrite bind_assoc. apply bind_ext. intros [now active] w3.
  by rewrite bind_assoc.
Qed.
End ops.
