(* ===== verification/ThreadOps.v ===== *)
(** * Thread and EventLoopThread ([thread.hpp], [thread.cpp],
    [event_loop_thread.hpp], [event_loop_thread.cpp], [current_thread.hpp],
    [current_thread.cpp])

    [StartLoop] of [ServerOps] runs the start of a loop's thread in sequence.
    Here the two threads run step by step: the owner of an [EventLoopThread],
    which starts it and later destroys it, and the new thread, which makes its
    loop, publishes it, and runs it until somebody calls [Quit].  The loop
    itself takes the steps of [Interleave]. *)

From S2P Require Import Prelude Format Kernel Buffer Objects PollerOps ChannelOps LoopOps LoopInv Interleave SocketOps ConnOps ServerOps.

(** ** [current_thread] *)

Module CurrentThread.

(** The cache of a thread and the number of times it asked the kernel. *)
Record t := mk { t_cached_tid : Z; gettid_calls : nat }.
#[global] Instance eta_t : Eta t := λ c, mk (t_cached_tid c) (gettid_calls c).

(** [gettid] is what the kernel answers to this thread. *)
Definition CacheTid (gettid : Z) (c : t) : t :=
  if t_cached_tid c =? 0 then c <| t_cached_tid := i32 gettid |> <| gettid_calls ::= S |> else c.
Definition Tid (gettid : Z) (c : t) : Z * t :=
  let c := if t_cached_tid c =? 0 then CacheTid gettid c else c in (t_cached_tid c, c).
End CurrentThread.

(** ** [Thread] *)

Module Thread.
Record t := mk {
  started_ : bool;
  joined_ : bool;
  thread_ : bool;       (* the [std::thread] was made *)
  tid_ : Z;
  name_ : string;
}.
#[global] Instance eta_t : Eta t := λ h, mk (started_ h) (joined_ h) (thread_ h) (tid_ h) (name_ h).

(** [num_created_] is shared by all threads; the result is its new value. *)
Definition SetDefaultName (num_created_ : Z) (h : t) : Z * t :=
  let num := i32 (num_created_ + 1) in
  (num, if decide (name_ h = "") then h <| name_ := snprintf 32 ("Thread " +:+ decimal_int num) |> else h).
Definition ctor (num_created_ : Z) (name : string) : Z * t :=
  SetDefaultName num_created_ (mk false false false 0 name).

(** [Start] up to the wait, and what the new thread does first. *)
Definition Start (h : t) : t := h <| started_ := true |> <| thread_ := true |>.
Definition body (tid : Z) (h : t) : t := h <| tid_ := tid |>.
(** [Join] when the thread has ended. *)
Definition Join (h : t) : t := h <| joined_ := true |>.
(** The destructor detaches the thread. *)
Definition detaches (h : t) : bool := started_ h && negb (joined_ h).

Definition Started (h : t) : bool := started_ h.
Definition Tid (h : t) : Z := tid_ h.
Definition Name (h : t) : string := name_ h.
End Thread.

(** ** [EventLoopThread] *)

Module LoopThread.

(** Where the owner is: in [StartLoop], between it and the destructor, in the
    destructor. *)
Inductive owner_pc :=
  | Constructed
  | StartWait       (* f.wait() *)
  | LoopWait        (* cv_.wait() *)
  | Serving         (* StartLoop returned *)
  | DtorTest        (* if (loop_) *)
  | DtorQuit        (* loop_->Quit(), before quit_ is set *)
  | DtorWakeup      (* in Quit, before the end of Wakeup *)
  | DtorJoin        (* thread_.Join() *)
  | DtorDone
  | UseAfterFree.   (* the owner used the loop after its end *)

(** Where the new thread is. *)
Inductive runner_pc :=
  | NotRunning | SetTid | MakeLoop | RunInit | Publish | EnterLoop | InLoop
  | ClearLoop | DestroyLoop | Ended.
#[global] Instance runner_pc_eq_dec : EqDecision runner_pc.
Proof. solve_decision. Defined.

Record state := mk {
  thread_ : Thread.t;
  loop_ : bool;               (* loop_ != nullptr *)
  exiting_ : bool;
  promise : bool;             (* p.set_value() was called *)
  owner : owner_pc;
  runner : runner_pc;
  the_loop : Interleave.state;    (* while there is one *)
}.
#[global] Instance eta_state : Eta state := λ s,
  mk (thread_ s) (loop_ s) (exiting_ s) (promise s) (owner s) (runner s) (the_loop s).

(** The local variable [loop] of [ThreadFunc] is there. *)
Definition alive (r : runner_pc) : bool :=
  match r with RunInit | Publish | EnterLoop | InLoop | ClearLoop | DestroyLoop => true | _ => false end.

(** The loop is there and does not run itself. *)
Definition idle (r : runner_pc) : bool := alive r && negb (bool_decide (r = InLoop)).

Section steps.
(** The id of the new thread, that of its owner, the eventfd and the channel
    of the loop. *)
Context (new_tid me wakeup_fd : Z) (wakeup_channel : nat).

Definition fresh_loop : Interleave.state :=
  Interleave.mk_state (EventLoop.mk false false 0 [] new_tid wakeup_fd wakeup_channel [] false) 0
    Interleave.AtTest [] [] [].

(** [Loop] before its first test, and after the last. *)
Definition enter (lp : Interleave.state) : Interleave.state :=
  lp <| Interleave.the_loop ::= λ l, l <| EventLoop.looping_ := true |> <| EventLoop.quit_ := false |> |>.
Definition leave (lp : Interleave.state) : Interleave.state :=
  lp <| Interleave.the_loop ::= λ l, l <| EventLoop.looping_ := false |> |>.

(** *** The owner: [Thread::Start], [StartLoop], [~EventLoopThread] *)

Inductive owner_step : state → state → Prop :=
  | tid_known s : owner s = StartWait → promise s = true → owner_step s (s <| owner := LoopWait |>)
  | loop_known s : owner s = LoopWait → loop_ s = true → owner_step s (s <| owner := Serving |>)
  | dtor_null s : owner s = DtorTest → loop_ s = false → owner_step s (s <| owner := DtorDone |>)
  | dtor_loop s : owner s = DtorTest → loop_ s = true → owner_step s (s <| owner := DtorQuit |>)
  | dtor_quit s : owner s = DtorQuit → alive (runner s) = true →
      owner_step s (s <| the_loop ::= λ lp, Interleave.set_quit (lp <| Interleave.waking ::= cons me |>) |>
                      <| owner := DtorWakeup |>)
  | dtor_quit_dangling s : owner s = DtorQuit → alive (runner s) = false →
      owner_step s (s <| owner := UseAfterFree |>)
  | dtor_woken s : owner s = DtorWakeup → me ∉ Interleave.waking (the_loop s) →
      owner_step s (s <| owner := DtorJoin |>)
  | dtor_wakeup_dangling s : owner s = DtorWakeup → me ∈ Interleave.waking (the_loop s) →
      alive (runner s) = false → owner_step s (s <| owner := UseAfterFree |>)
  | dtor_join s : owner s = DtorJoin → runner s = Ended →
      owner_step s (s <| thread_ ::= Thread.Join |> <| owner := DtorDone |>).

(** *** The new thread: the body given to [std::thread], [ThreadFunc] *)

Inductive runner_step : state → state → Prop :=
  | set_tid s : runner s = SetTid →
      runner_step s (s <| thread_ ::= Thread.body new_tid |> <| promise := true |> <| runner := MakeLoop |>)
  | make_loop s : runner s = MakeLoop →
      runner_step s (s <| the_loop := fresh_loop |> <| runner := RunInit |>)
  | run_init s : runner s = RunInit → runner_step s (s <| runner := Publish |>)
  | publish s : runner s = Publish → runner_step s (s <| loop_ := true |> <| runner := EnterLoop |>)
  | enter_loop s : runner s = EnterLoop →
      runner_step s (s <| the_loop ::= enter |> <| runner := InLoop |>)
  | turn s lp : runner s = InLoop → Interleave.internal (the_loop s) lp →
      runner_step s (s <| the_loop := lp |>)
  | leave_loop s : runner s = InLoop → Interleave.pc (the_loop s) = Interleave.Returned →
      runner_step s (s <| the_loop ::= leave |> <| runner := ClearLoop |>)
  | clear_loop s : runner s = ClearLoop →
      runner_step s (s <| loop_ := false |> <| runner := DestroyLoop |>)
  | destroy_loop s : runner s = DestroyLoop → runner_step s (s <| runner := Ended |>)
  (** The write to the eventfd of a thread that queued a functor or quit
      while the loop does not run. *)
  | finish_wakeup t ws1 ws2 s : idle (runner s) = true →
      Interleave.waking (the_loop s) = ws1 ++ t :: ws2 →
      runner_step s (s <| the_loop ::= λ lp, Interleave.wakeup (lp <| Interleave.waking := ws1 ++ ws2 |>) |>).

(** *** Calls: [StartLoop], the destructor, and what others do with the loop
    they got *)

Inductive call_step : state → state → Prop :=
  | start s : owner s = Constructed →
      call_step s (s <| thread_ ::= Thread.Start |> <| runner := SetTid |> <| owner := StartWait |>)
  | dtor s : owner s = Constructed ∨ owner s = Serving → call_step s (s <| exiting_ := true |> <| owner := DtorTest |>)
  | loop_event s lp : runner s = InLoop → Interleave.external (the_loop s) lp →
      call_step s (s <| the_loop := lp |>)
  | early_push t f s : owner s = Serving → idle (runner s) = true →
      call_step s (s <| the_loop ::= λ lp, Interleave.push f (lp <| Interleave.waking ::= cons t |>) |>)
  | early_quit t s : owner s = Serving → idle (runner s) = true →
      call_step s (s <| the_loop ::= λ lp, Interleave.set_quit (lp <| Interleave.waking ::= cons t |>) |>).

Definition auto_step (s s' : state) : Prop := owner_step s s' ∨ runner_step s s'.
Definition step (s s' : state) : Prop := auto_step s s' ∨ call_step s s'.

(** [EventLoopThread] when it is made. *)
Definition initial (h : Thread.t) : state := mk h false false false Constructed NotRunning fresh_loop.
Definition reachable (h : Thread.t) (s : state) : Prop := rtc step (initial h) s.
End steps.
End LoopThread.
