(* ===== verification/ThreadSpec.v ===== *)
(** * What the threads of the pool promise

    [StartLoop] returns with the loop of the new thread, made and published;
    the destructor of an [EventLoopThread] comes back - but for two races:
    [Quit] is lost when it comes before [Loop] resets [quit_], and its wake-up
    can come after the end of the loop.  Both are shown as executions. *)

From S2P Require Import Prelude Format Kernel Buffer Objects PollerOps ChannelOps LoopOps LoopInv Interleave SocketOps ConnOps ServerOps ThreadOps.

Import LoopThread.

(** The thread told its id; its loop can be reached through [loop_]; the loop
    was handed over; the loop is the one [ThreadFunc] made, untouched. *)
Definition past_tid (r : runner_pc) : bool :=
  match r with NotRunning | SetTid => false | _ => true end.
Definition published (r : runner_pc) : bool :=
  match r with EnterLoop | InLoop | ClearLoop => true | _ => false end.
Definition handed (r : runner_pc) : bool :=
  match r with EnterLoop | InLoop | ClearLoop | DestroyLoop | Ended => true | _ => false end.

Section threads.
Context (new_tid me wakeup_fd : Z) (wakeup_channel : nat) (h0 : Thread.t).
Hypothesis (fresh_h : Thread.started_ h0 = false).
Abbreviation fresh_loop := (fresh_loop new_tid wakeup_fd wakeup_channel).
Abbreviation owner_step := (owner_step me).
Abbreviation runner_step := (runner_step new_tid wakeup_fd wakeup_channel).
Abbreviation auto_step := (auto_step new_tid me wakeup_fd wakeup_channel).
Abbreviation step := (step new_tid me wakeup_fd wakeup_channel).
Abbreviation reachable := (reachable new_tid me wakeup_fd wakeup_channel h0).
Implicit Types s : state.

(** ** The invariant *)

Definition owner_ok (o : owner_pc) (r : runner_pc) : Prop :=
  match o with
  | Constructed => r = NotRunning
  | StartWait => r ≠ NotRunning
  | LoopWait => past_tid r = true
  | DtorTest | DtorDone => r = NotRunning ∨ handed r = true
  | _ => handed r = true
  end.

Definition loop_ok (r : runner_pc) (lp : Interleave.state) : Prop :=
  match r with
  | NotRunning | SetTid | MakeLoop | RunInit | Publish => lp = fresh_loop
  | EnterLoop => Interleave.initial (enter lp)
  | InLoop => Interleave.inv lp
  | _ => 0 ≤ Interleave.counter lp ≤ Interleave.counter_max
  end.

Record inv s : Prop := {
  in_promise : promise s = past_tid (runner s);
  in_tid : promise s = true → Thread.tid_ (thread_ s) = new_tid;
  in_loop_ptr : loop_ s = published (runner s);
  in_started : Thread.started_ (thread_ s) = negb (bool_decide (runner s = NotRunning));
  in_owner : owner_ok (owner s) (runner s);
  in_loop : loop_ok (runner s) (the_loop s);
}.

Lemma threads_inv_initial : inv (initial new_tid wakeup_fd wakeup_channel h0).
Proof. split; cbn; try done. Qed.

Lemma fresh_initial : Interleave.initial (enter fresh_loop).
Proof. split_and!; try done; cbn; by unfold Interleave.counter_max. Qed.

Lemma loop_counter r lp : loop_ok r lp → 0 ≤ Interleave.counter lp ≤ Interleave.counter_max.
Proof.
  destruct r; cbn [loop_ok]; intros Hlp; try exact Hlp; try (subst lp; cbn; unfold Interleave.counter_max; lia).
  - apply Hlp.
  - by apply Interleave.in_counter.
Qed.

(** What other threads do to a loop that does not run. *)
Lemma loop_ok_push r t f lp :
  idle r = true → handed r = true → loop_ok r lp →
  loop_ok r (Interleave.push f (lp <| Interleave.waking ::= cons t |>)).
Proof.
  destruct r; try done. intros _ _ (Hpc & Hr & Hc & Hq & Hca & Hp & Hs). unfold loop_ok, Interleave.initial, Interleave.push, enter in *.
  split_and!; upd_simpl; try done; try lia; [by rewrite Hp | intros _; by right].
Qed.

Lemma loop_ok_quit r t lp :
  idle r = true → handed r = true → loop_ok r lp →
  loop_ok r (Interleave.set_quit (lp <| Interleave.waking ::= cons t |>)).
Proof.
  destruct r; try done. intros _ _ (Hpc & Hr & Hc & Hq & Hca & Hp & Hs). unfold loop_ok, Interleave.initial, Interleave.set_quit, enter in *.
  split_and!; upd_simpl; try done; try lia. intros _. by right.
Qed.

Lemma fresh_no_waking : Interleave.waking fresh_loop = [].
Proof. done. Qed.

Lemma loop_ok_wakeup r t ws1 ws2 lp :
  idle r = true → Interleave.waking lp = ws1 ++ t :: ws2 → loop_ok r lp →
  loop_ok r (Interleave.wakeup (lp <| Interleave.waking := ws1 ++ ws2 |>)).
Proof.
  intros Hi Hw Hlp. pose proof (Interleave.signal_pos _ (loop_counter r lp Hlp)) as Hsig.
  assert (∀ A, lp = fresh_loop → A) as Hfresh by (intros A ->; by destruct ws1).
  destruct r; try done; try (by apply Hfresh, Hlp); unfold loop_ok, Interleave.initial, Interleave.wakeup, enter in *.
  - destruct Hlp as (Hpc & Hr & Hc & Hq & Hca & Hp & Hs).
    split_and!; upd_simpl; try done; try lia; intros _; left; lia.
  - upd_simpl. lia.
  - upd_simpl. lia.
Qed.

Lemma loop_ok_alive_quit r lp :
  alive r = true → handed r = true → loop_ok r lp →
  loop_ok r (Interleave.set_quit (lp <| Interleave.waking ::= cons me |>)).
Proof.
  intros Ha Hh Hlp. destruct (decide (r = InLoop)) as [->|Hr].
  - cbn in *. eapply Interleave.inv_external; [exact Hlp | apply Interleave.other_quit].
  - apply loop_ok_quit; [| done..]. unfold idle. by rewrite Ha, bool_decide_eq_false_2.
Qed.

Lemma inv_owner s s' : inv s → owner_step s s' → inv s'.
Proof.
  intros [Hp Ht Hl Hst Ho Hlp] Hs. destruct Hs as [s Hpc Hpr | s Hpc Hlo | s Hpc Hlo | s Hpc Hlo | s Hpc Ha | s Hpc Ha
    | s Hpc Hw | s Hpc Hw Ha | s Hpc Hr]; rewrite Hpc in Ho; split; upd_simpl; try done; cbn [owner_ok] in *.
  all: try (by rewrite <- Hp); try (destruct (runner s); by auto).
  all: try (rewrite Hlo in Hl; destruct (runner s); by auto).
  by apply loop_ok_alive_quit.
Qed.

Lemma inv_runner s s' : inv s → runner_step s s' → inv s'.
Proof.
  intros [Hp Ht Hl Hst Ho Hlp] Hs. pose proof (loop_counter _ _ Hlp) as Hc.
  destruct Hs as [s Hr | s Hr | s Hr | s Hr | s Hr | s lp Hr Hi | s Hr Hpc | s Hr | s Hr | t ws1 ws2 s Hi Hw];
    try rewrite Hr in *; split; upd_simpl; rewrite ?Hr; try done;
    try (clear -Ho; by destruct (owner s); cbn in *; intuition).
  - cbn in *. rewrite Hlp. apply fresh_initial.
  - by apply Interleave.inv_initial.
  - by eapply Interleave.inv_internal.
  - by eapply loop_ok_wakeup.
Qed.

Lemma inv_call s s' :
  inv s → call_step s s' → inv s'.
Proof.
  intros [Hp Ht Hl Hst Ho Hlp] Hs.
  destruct Hs as [s Hpc | s Hpc | s lp Hr He | t f s Hpc Hi | t s Hpc Hi]; split; upd_simpl; try done.
  1-3: by rewrite Hpc in Ho; cbn in Ho; rewrite Ho in *.
  - destruct Hpc as [Hpc|Hpc]; rewrite Hpc in Ho; [by left | by right].
  - rewrite Hr in *. by eapply Interleave.inv_external.
  - apply loop_ok_push; [done | by rewrite Hpc in Ho | done].
  - apply loop_ok_quit; [done | by rewrite Hpc in Ho | done].
Qed.

Lemma inv_auto s s' : inv s → auto_step s s' → inv s'.
Proof. intros Hs [?|?]; [by eapply inv_owner | by eapply inv_runner]. Qed.

Lemma inv_autos s s' : inv s → rtc auto_step s s' → inv s'.
Proof. intros Hs Hr. induction Hr; eauto using inv_auto. Qed.

Lemma threads_inv_reachable s : reachable s → inv s.
Proof.
  intros Hr. unfold reachable in Hr.
  cut (∀ s0, inv s0 → rtc step s0 s → inv s); [intros Hc; eapply Hc, Hr; apply threads_inv_initial |].
  clear Hr. intros s0 Hs Hr. induction Hr as [|s1 s2 s3 [Ha|Hc] _ IH]; [done | |].
  - apply IH. by eapply inv_auto.
  - apply IH. by eapply inv_call.
Qed.

(** ** Rest *)

(** What can be left when nobody makes a call: the owner is not waiting; or it
    waits in [StartLoop] for a loop that has ended already, because something
    that ran in it called [Quit]; or it waits in [Join] for a loop that sleeps
    and was not told to quit. *)
Definition settled s : Prop :=
  match owner s with
  | Constructed | Serving | DtorDone | UseAfterFree => True
  | LoopWait => runner s = Ended
  | DtorJoin => runner s = InLoop ∧ Interleave.pc (the_loop s) = Interleave.InPoll ∧
      EventLoop.quit_ (Interleave.the_loop (the_loop s)) = false
  | _ => False
  end.

Definition at_rest s : Prop := ∀ s', ¬ auto_step s s'.

Lemma runner_moves s :
  inv s → (∃ s', runner_step s s') ∨
  runner s = NotRunning ∨ runner s = Ended ∨ runner s = InLoop ∧ Interleave.waking (the_loop s) = [] ∧
    Interleave.pc (the_loop s) = Interleave.InPoll ∧ EventLoop.quit_ (Interleave.the_loop (the_loop s)) = false.
Proof.
  intros Hs. destruct (runner s) eqn:Hr; try (by left; eexists; econstructor); [by right; left | | by right; right; left].
  pose proof (in_loop s Hs) as Hlp. rewrite Hr in Hlp.
  destruct (Interleave.progress _ Hlp) as [[lp Hi]|[Hw [[Hpc Hc]|Hpc]]].
  - left. eexists. by apply turn.
  - right. right. right. split_and!; [done.. |].
    destruct (EventLoop.quit_ _) eqn:Hq; [| done].
    destruct (Interleave.in_quit _ Hlp Hpc Hq) as [?|[?|[p ?]]]; [lia | done | congruence].
  - left. eexists. by apply leave_loop.
Qed.

Lemma auto_progress s : inv s → (∃ s', auto_step s s') ∨ settled s.
Proof.
  intros Hs. pose proof (in_owner s Hs) as Ho. pose proof (in_promise s Hs) as Hp.
  pose proof (in_loop_ptr s Hs) as Hl.
  destruct (runner_moves s Hs) as [[s' Hm]|Hm]; [left; exists s'; by right |].
  assert (∀ s', owner_step s s' → (∃ s', auto_step s s') ∨ settled s) as Hn by (left; exists s'; by left).
  assert (handed (runner s) = true → runner s = Ended ∨ runner s = InLoop) as Hh.
  { intros Hh. destruct Hm as [Hm|[?|[? _]]]; [by rewrite Hm in Hh | by left | by right]. }
  destruct (owner s) eqn:Hpc; cbn [owner_ok] in Ho; try (right; unfold settled; by rewrite Hpc).
  - eapply Hn, tid_known; [done |]. rewrite Hp. by destruct Hm as [|[->|[-> _]]].
  - destruct (loop_ s) eqn:Hlo; [by eapply Hn, loop_known |]. right. unfold settled. rewrite Hpc.
    by destruct Hm as [Hm|[Hm|[Hm _]]]; rewrite Hm in *.
  - destruct (loop_ s) eqn:Hlo; [by eapply Hn, dtor_loop | by eapply Hn, dtor_null].
  - destruct (alive (runner s)) eqn:Ha; [by eapply Hn, dtor_quit | by eapply Hn, dtor_quit_dangling].
  - destruct (decide (me ∈ Interleave.waking (the_loop s))) as [Hw|Hw]; [| by eapply Hn, dtor_woken].
    destruct (Hh Ho) as [Hd|Hd]; [eapply Hn, dtor_wakeup_dangling; by rewrite ?Hd |].
    destruct Hm as [?|[?|(_ & Hw' & _)]]; [congruence.. |]. rewrite Hw' in Hw. by apply elem_of_nil in Hw.
  - destruct (Hh Ho) as [Hd|Hd]; [by eapply Hn, dtor_join |]. right. unfold settled. rewrite Hpc.
    destruct Hm as [?|[?|(_ & _ & ? & ?)]]; [congruence.. | done].
Qed.

(** A bound on the steps that are left. *)
Definition owner_weight (o : owner_pc) : nat :=
  match o with
  | StartWait => 2 | LoopWait => 1 | DtorTest => 16 | DtorQuit => 15 | DtorWakeup => 2 | DtorJoin => 1
  | _ => 0
  end.
Definition runner_weight (r : runner_pc) : nat :=
  match r with
  | SetTid => 8 | MakeLoop => 7 | RunInit => 6 | Publish => 5 | EnterLoop => 4 | InLoop => 3
  | ClearLoop => 2 | DestroyLoop => 1 | NotRunning | Ended => 0
  end.
Definition weight s : nat :=
  owner_weight (owner s) + runner_weight (runner s) + Interleave.weight (the_loop s).

Lemma weight_wakeup t ws1 ws2 (lp : Interleave.state) :
  0 ≤ Interleave.counter lp ≤ Interleave.counter_max → Interleave.waking lp = ws1 ++ t :: ws2 →
  (Interleave.weight (Interleave.wakeup (lp <| Interleave.waking := ws1 ++ ws2 |>)) < Interleave.weight lp)%nat.
Proof.
  intros Hc Hw. pose proof (Interleave.signal_pos _ Hc). unfold Interleave.weight, Interleave.wakeup. upd_simpl.
  rewrite Hw, !length_app. cbn [length]. repeat case_decide; lia.
Qed.

Lemma weight_told t (lp : Interleave.state) :
  Interleave.weight (Interleave.set_quit (lp <| Interleave.waking ::= cons t |>)) = (12 + Interleave.weight lp)%nat.
Proof. unfold Interleave.weight, Interleave.set_quit. upd_simpl. cbn [length]. lia. Qed.

Lemma weight_auto s s' : inv s → auto_step s s' → (weight s' < weight s)%nat.
Proof.
  intros Hs [Ho|Hr]; pose proof (in_loop s Hs) as Hlp; pose proof (loop_counter _ _ Hlp) as Hc; unfold weight.
  - destruct Ho as [s Hpc Hpr | s Hpc Hlo | s Hpc Hlo | s Hpc Hlo | s Hpc Ha | s Hpc Ha
      | s Hpc Hw | s Hpc Hw Ha | s Hpc Hr]; upd_simpl; rewrite Hpc; cbn [owner_weight]; try lia.
    rewrite weight_told. lia.
  - destruct Hr as [s Hr | s Hr | s Hr | s Hr | s Hr | s lp Hr Hi | s Hr Hpc | s Hr | s Hr | t ws1 ws2 s Hi Hw];
      upd_simpl; try rewrite Hr in *; cbn [runner_weight loop_ok] in *; try lia.
    + rewrite Hlp. lia.
    + change (Interleave.weight (enter (the_loop s))) with (Interleave.weight (the_loop s)). lia.
    + pose proof (Interleave.weight_internal _ _ Hlp Hi). lia.
    + change (Interleave.weight (leave (the_loop s))) with (Interleave.weight (the_loop s)). lia.
    + pose proof (weight_wakeup t ws1 ws2 _ Hc Hw). lia.
Qed.

Lemma auto_bound n s s' : inv s → nsteps auto_step n s s' → (n ≤ weight s)%nat.
Proof.
  intros Hs Hn. induction Hn as [s | n s1 s2 s3 Ha _ IH]; [lia |].
  pose proof (weight_auto _ _ Hs Ha). specialize (IH (inv_auto _ _ Hs Ha)). lia.
Qed.

Lemma threads_comes_to_rest n s : inv s → (weight s < n)%nat → ∃ s', rtc auto_step s s' ∧ settled s'.
Proof.
  revert s. induction n as [|n IH]; intros s Hs Hn; [lia |].
  destruct (auto_progress s Hs) as [[s1 Ha]|Hd]; [| by exists s].
  pose proof (weight_auto _ _ Hs Ha). destruct (IH s1) as (s' & Hr & Hd); [by eapply inv_auto | lia |].
  exists s'. split; [by eapply rtc_l | done].
Qed.

(** *** A loop that was told to quit while it ran *)

Definition ending s : Prop :=
  match runner s with
  | InLoop => EventLoop.quit_ (Interleave.the_loop (the_loop s)) = true
  | ClearLoop | DestroyLoop | Ended => True
  | _ => False
  end.

(** The destructor joins, or has joined. *)
Definition joining s : Prop :=
  ending s ∧ (owner s = DtorJoin ∨
    owner s = DtorDone ∧ runner s = Ended ∧ Thread.joined_ (thread_ s) = true).

Lemma joining_auto s s' : joining s → auto_step s s' → joining s'.
Proof.
  intros [He Hj] [Ho|Hr]; unfold joining, ending in *.
  - assert (owner s = DtorJoin) as Hd by (destruct Hj as [?|[? _]]; [done | by destruct Ho; congruence]).
    destruct Ho; try congruence. upd_simpl. split; [done | right]. done.
  - destruct Hr as [s Hr | s Hr | s Hr | s Hr | s Hr | s lp Hr Hi | s Hr Hpc | s Hr | s Hr | t ws1 ws2 s Hi Hw];
      upd_simpl; try rewrite Hr in *; try done;
      try (destruct Hj as [?|(_ & ? & _)]; [by auto | congruence]).
    split; [by destruct (Interleave.internal_fixed _ _ Hi) as [_ ->] |].
    destruct Hj as [?|(_ & ? & _)]; [by auto | congruence].
Qed.

Lemma joining_autos s s' : joining s → rtc auto_step s s' → joining s'.
Proof. intros Hj Hr. induction Hr; eauto using joining_auto. Qed.

Lemma joining_settled s : joining s → settled s → owner s = DtorDone ∧ runner s = Ended ∧ Thread.joined_ (thread_ s) = true.
Proof.
  intros [He [Hj|Hj]] Hs; [| done]. unfold settled, ending in *. rewrite Hj in Hs.
  destruct Hs as (Hr & _ & Hq). rewrite Hr in He. congruence.
Qed.
End threads.

(** C28: [StartLoop] hands over a loop that is there: its pointer is only
    taken while the loop lives; and once it has returned, [Thread::Start] has
    seen the thread begin, the thread's id is known, and the loop was made in
    that thread and published. *)
Theorem StartLoop_hands_over new_tid me fd x h s :
  Thread.started_ h = false → reachable new_tid me fd x h s →
  (owner s = Serving → Thread.Tid (thread_ s) = new_tid ∧ Thread.Started (thread_ s) = true ∧
     handed (runner s) = true) ∧
  (owner s = LoopWait → loop_ s = true → alive (runner s) = true).
Proof.
  intros Hh Hr%threads_inv_reachable; [| done]. destruct Hr as [Hp Ht Hl Hst Ho _]. split.
  - intros Hpc. rewrite Hpc in Ho. cbn in Ho. unfold Thread.Tid, Thread.Started. rewrite Hst. split_and!; [| | done].
    + apply Ht. rewrite Hp. by destruct (runner s).
    + by destruct (runner s).
  - intros _ Hlo. rewrite Hl in Hlo. by destruct (runner s).
Qed.

(** C27: starting and ending a loop's thread takes a bounded number of steps,
    whatever their order, when nobody makes further calls; and what can be
    left then is: the owner came back from [StartLoop] or the destructor, or
    used a loop that had ended; it waits in [StartLoop] for a loop that has
    ended already; or it waits in [Join] for a loop that sleeps because its
    [Quit] was lost. *)
Theorem threads_settle new_tid me fd x h s :
  Thread.started_ h = false → reachable new_tid me fd x h s →
  (∀ n s', nsteps (auto_step new_tid me fd x) n s s' → (n ≤ weight s)%nat) ∧
  (∃ s', rtc (auto_step new_tid me fd x) s s' ∧ settled s') ∧
  (∀ s', rtc (auto_step new_tid me fd x) s s' → at_rest new_tid me fd x s' → settled s').
Proof.
  intros Hh Hr%threads_inv_reachable; [| done]. split_and!.
  - intros n s'. by apply auto_bound.
  - apply (threads_comes_to_rest new_tid me fd x (S (weight s))); [done | lia].
  - intros s' Ha Hrest. apply inv_autos in Ha; [| done].
    by destruct (auto_progress _ me _ _ s' Ha) as [[s1 ?%Hrest]|].
Qed.

(** C26: the destructor comes back: when the loop was running as the
    destructor told it to quit and woke it up, the thread ends, whatever is
    still queued on its loop, and [Join] returns. *)
Theorem destructor_joins new_tid me fd x h s s' :
  Thread.started_ h = false → reachable new_tid me fd x h s →
  owner s = DtorJoin → runner s = InLoop → EventLoop.quit_ (Interleave.the_loop (the_loop s)) = true →
  rtc (auto_step new_tid me fd x) s s' → at_rest new_tid me fd x s' →
  owner s' = DtorDone ∧ runner s' = Ended ∧ Thread.joined_ (thread_ s') = true.
Proof.
  intros Hh Hr%threads_inv_reachable Ho Hrun Hq Ha Hrest; [| done].
  assert (joining s) as Hj by (split; [unfold ending; by rewrite Hrun | by left]).
  apply joining_settled; [by eapply joining_autos |]. apply inv_autos in Ha; [| done].
  by destruct (auto_progress _ me _ _ s' Ha) as [[s1 ?%Hrest]|].
Qed.

(** ** Executions

    A thread (id 2, eventfd 5) and its owner (id 1). *)

Definition h0 : Thread.t := (Thread.ctor 0 "").2.
Abbreviation steps := (rtc (step 2 1 5 0)).
Abbreviation start_state := (initial 2 5 0 h0).

Ltac own c := eapply rtc_l; [left; left; eapply c; vm_compute; reflexivity |].
Ltac run c := eapply rtc_l; [left; right; eapply c; vm_compute; reflexivity |].
Ltac turns c := eapply rtc_l; [left; right; eapply turn; [vm_compute; reflexivity | eapply c; vm_compute; reflexivity] |].

Ltac calls c := eapply rtc_l; [right; eapply c; vm_compute; reflexivity |].

(** Up to the return of [StartLoop], with the loop about to be run. *)
Ltac start_loop :=
  calls start; run set_tid; own tid_known; run make_loop; run run_init; run publish; own loop_known.
(** From the test to [DoPendingFunctors] and back, after a wake-up. *)
Ltac idle_round := turns Interleave.start_calling; turns Interleave.do_swap; turns Interleave.end_calling.

(** The owner waits for a loop that sleeps. *)
Lemma hanging_rest new_tid me fd x s :
  owner s = DtorJoin → runner s = InLoop → Interleave.waking (the_loop s) = [] →
  Interleave.pc (the_loop s) = Interleave.InPoll → Interleave.counter (the_loop s) = 0 →
  at_rest new_tid me fd x s.
Proof.
  intros Ho Hr Hw Hpc Hc s' [Hs|Hs].
  - destruct Hs; congruence.
  - destruct Hs as [| | | | |s lp _ Hi| s _ Hret | | |t ws1 ws2 s Hi]; try congruence.
    + eapply Interleave.resting_at_rest; [split; [exact Hw | by left] | exact Hi].
    + by rewrite Hr in Hi.
Qed.

(** C40: a [Quit] can be lost: the owner destroys an [EventLoopThread] as soon
    as [StartLoop] has returned, before the new thread is in [Loop]; [Loop]
    resets [quit_]; the wake-up only makes one round; and the destructor waits
    in [Join] for ever for a loop that sleeps. *)
Theorem quit_lost : ∃ s, reachable 2 1 5 0 h0 s ∧
  exiting_ s = true ∧ owner s = DtorJoin ∧ runner s = InLoop ∧
  Interleave.pc (the_loop s) = Interleave.InPoll ∧ Interleave.counter (the_loop s) = 0 ∧
  at_rest 2 1 5 0 s.
Proof.
  eexists. split; [| split_and!].
  - start_loop. eapply rtc_l; [right; eapply dtor; right; vm_compute; reflexivity |].
    own dtor_loop. own dtor_quit.
    eapply rtc_l; [left; right; eapply (finish_wakeup _ _ _ 1 [] []); vm_compute; reflexivity |].
    eapply rtc_l; [left; left; eapply dtor_woken; [vm_compute; reflexivity | by apply not_elem_of_nil] |].
    run enter_loop. turns Interleave.test_loop. turns Interleave.poll_readable. turns Interleave.handle_read.
    idle_round. turns Interleave.test_loop. apply rtc_refl.
  - vm_compute. reflexivity.
  - vm_compute. reflexivity.
  - vm_compute. reflexivity.
  - vm_compute. reflexivity.
  - vm_compute. reflexivity.
  - apply hanging_rest; vm_compute; reflexivity.
Qed.

(** The wake-up of [Quit] can come too late: the destructor calls [Quit]
    while the loop is in a round; the thread sees [quit_], leaves [Loop] and
    destroys its loop; only then the owner goes on to [Wakeup], on a loop that
    is no more. *)
Theorem wakeup_after_free : ∃ s, reachable 2 1 5 0 h0 s ∧ owner s = UseAfterFree ∧ runner s = Ended.
Proof.
  eexists. split; [| split].
  - start_loop. run enter_loop. turns Interleave.test_loop.
    eapply rtc_l; [right; eapply loop_event; [vm_compute; reflexivity | eapply Interleave.poll_other; vm_compute; reflexivity] |].
    eapply rtc_l; [right; eapply dtor; right; vm_compute; reflexivity |].
    own dtor_loop. own dtor_quit. idle_round. turns Interleave.test_quit.
    run leave_loop. run clear_loop. run destroy_loop.
    eapply rtc_l; [left; left; eapply dtor_wakeup_dangling; [vm_compute; reflexivity | by left | vm_compute; reflexivity] |].
    apply rtc_refl.
  - vm_compute. reflexivity.
  - vm_compute. reflexivity.
Qed.

(** ** [current_thread::Tid] *)

(** The answers to [n] calls of [Tid] of one thread, and its cache then. *)
Fixpoint ask_tid (gettid : Z) (n : nat) (c : CurrentThread.t) : list Z * CurrentThread.t :=
  match n with
  | O => ([], c)
  | S n =>
      let '(a, c) := CurrentThread.Tid gettid c in
      let '(l, c) := ask_tid gettid n c in (a :: l, c)
  end.

Lemma ask_tid_cached gettid n c :
  CurrentThread.t_cached_tid c = gettid → gettid ≠ 0 → ask_tid gettid n c = (replicate n gettid, c).
Proof.
  intros Hc Hg. induction n as [|n IH]; [done |]. cbn [ask_tid]. unfold CurrentThread.Tid.
  rewrite Hc. destruct (Z.eqb_spec gettid 0); [done |]. by rewrite Hc, IH.
Qed.

(** [current_thread::Tid] is the id of the thread, every time, for one
    system call in the life of the thread. *)
Theorem Tid_asks_once gettid n :
  0 < gettid < 2 ^ 31 →
  ask_tid gettid (S n) (CurrentThread.mk 0 0) = (replicate (S n) gettid, CurrentThread.mk gettid 1).
Proof.
  intros Hg. cbn [ask_tid]. unfold CurrentThread.Tid, CurrentThread.CacheTid. cbn.
  rewrite i32_small by lia. rewrite ask_tid_cached; [done | done | lia].
Qed.

(** ** The theorems at work *)

Lemma h0_fresh : Thread.started_ h0 = false.
Proof. reflexivity. Qed.

(** The destructor told a loop that runs to quit, and woke it up. *)
Lemma joining_reachable : ∃ s, steps start_state s ∧
  owner s = DtorJoin ∧ runner s = InLoop ∧ EventLoop.quit_ (Interleave.the_loop (the_loop s)) = true.
Proof.
  eexists. split; [| split_and!].
  - start_loop. run enter_loop. turns Interleave.test_loop.
    eapply rtc_l; [right; eapply dtor; right; vm_compute; reflexivity |]. own dtor_loop. own dtor_quit.
    eapply rtc_l; [left; right; eapply turn; [vm_compute; reflexivity | eapply (Interleave.other_wakeup 1 [] []); vm_compute; reflexivity] |].
    eapply rtc_l; [left; left; eapply dtor_woken; [vm_compute; reflexivity | by apply not_elem_of_nil] |].
    apply rtc_refl.
  - vm_compute. reflexivity.
  - vm_compute. reflexivity.
  - vm_compute. reflexivity.
Qed.

Lemma StartLoop_hands_over_witness : ∃ s, steps start_state s ∧ owner s = Serving ∧
  Thread.Name (thread_ s) = "Thread 1" ∧ Thread.Tid (thread_ s) = 2 ∧ handed (runner s) = true.
Proof.
  eexists. assert (steps start_state _) as Hr by (start_loop; apply rtc_refl).
  split; [exact Hr | split; [reflexivity | split; [reflexivity |]]].
  destruct (StartLoop_hands_over 2 1 5 0 h0 _ h0_fresh Hr) as [Hs _].
  destruct (Hs eq_refl) as (Ht & _ & Hh). split; [exact Ht | exact Hh].
Defined.

Lemma threads_settle_witness : ∃ s, steps start_state s ∧ owner s = StartWait ∧
  ∃ s', rtc (auto_step 2 1 5 0) s s' ∧ settled s'.
Proof.
  eexists. assert (steps start_state _) as Hr by (calls start; apply rtc_refl).
  split; [exact Hr | split; [reflexivity |]].
  exact (proj1 (proj2 (threads_settle 2 1 5 0 h0 _ h0_fresh Hr))).
Defined.

Lemma destructor_joins_witness : ∃ s, steps start_state s ∧ owner s = DtorJoin ∧
  ∀ s', rtc (auto_step 2 1 5 0) s s' → at_rest 2 1 5 0 s' → owner s' = DtorDone.
Proof.
  destruct joining_reachable as (s & Hr & Ho & Hrun & Hq). exists s. split; [exact Hr | split; [exact Ho |]].
  intros s' Ha Hrest. exact (proj1 (destructor_joins 2 1 5 0 h0 s s' h0_fresh Hr Ho Hrun Hq Ha Hrest)).
Defined.

Lemma Tid_asks_once_witness :
  0 < 4321 < 2 ^ 31 ∧ ask_tid 4321 3 (CurrentThread.mk 0 0) = ([4321; 4321; 4321], CurrentThread.mk 4321 1).
Proof. split; [done |]. apply (Tid_asks_once 4321 2). done. Defined.
