(* ===== verification/AddressSpec.v ===== *)
(** * Addresses and names

    [InetAddress] and what the server makes out of it: an address printed
    with [ToIp] and [ToPort] and read back by the constructor is the same
    address; the names of connections are never cut short by the buffer they
    are printed into, so that different ids give different names. *)

From S2P Require Import Prelude Format Kernel Buffer Objects PollerOps ChannelOps LoopOps SocketOps ConnOps ServerOps.
From Stdlib Require Import Ascii DecimalString DecimalN.

(** ** Bytes in the network's order *)

Lemma land_swapped p : 0 ≤ p < 2 ^ 16 → Z.land (Z.shiftl p 8) (Z.shiftr p 8) = 0.
Proof.
  intros Hp. apply Z.bits_inj'. intros i Hi. rewrite Z.land_spec, Z.bits_0, Z.shiftr_spec by done.
  destruct (decide (i < 8)); [by rewrite Z.shiftl_spec_low |].
  replace p with (p mod 2 ^ 16) at 2 by (by apply Z.mod_small).
  rewrite Z.mod_pow2_bits_high, andb_false_r by lia. done.
Qed.

Lemma htons_arith p : 0 ≤ p < 2 ^ 16 → htons p = p mod 256 * 256 + p / 256.
Proof.
  intros Hp. unfold htons, u16.
  pose proof (Z.add_lor_land (Z.shiftl p 8) (Z.shiftr p 8)) as Hor. rewrite land_swapped in Hor by done.
  rewrite Z.add_0_r in Hor. rewrite Hor, Z.shiftl_mul_pow2, Z.shiftr_div_pow2 by lia.
  change (2 ^ 8) with 256. change (2 ^ 16) with 65536 in *.
  pose proof (Z.div_mod p 256 ltac:(lia)). pose proof (Z.mod_pos_bound p 256 ltac:(lia)).
  assert (0 ≤ p / 256 < 256) by (split; [apply Z.div_pos | apply Z.div_lt_upper_bound]; lia).
  symmetry. apply Zmod_unique with (p / 256); lia.
Qed.

Lemma htons_htons p : 0 ≤ p < 2 ^ 16 → htons (htons p) = p.
Proof.
  intros Hp. rewrite (htons_arith p Hp). change (2 ^ 16) with 65536 in *.
  pose proof (Z.mod_pos_bound p 256 ltac:(lia)). pose proof (Z.div_mod p 256 ltac:(lia)).
  assert (0 ≤ p / 256 < 256) by (split; [apply Z.div_pos | apply Z.div_lt_upper_bound]; lia).
  rewrite htons_arith by (change (2 ^ 16) with 65536; lia).
  rewrite <- (Zmod_unique (p mod 256 * 256 + p / 256) 256 (p mod 256) (p / 256)) by lia.
  rewrite <- (Zdiv_unique (p mod 256 * 256 + p / 256) 256 (p mod 256) (p / 256)) by lia. lia.
Qed.

Lemma htons_range p : 0 ≤ htons p < 2 ^ 16.
Proof. by apply Z.mod_pos_bound. Qed.

(** ** Dotted decimal *)

(** [rest] does not go on with a digit. *)
Definition no_digit (rest : string) : Prop :=
  match rest with
  | EmptyString => True
  | String c _ => let d := Z.of_N (Ascii.N_of_ascii c) - 48 in (0 <=? d) && (d <=? 9) = false
  end.

Lemma read_octet_stop acc k rest : no_digit rest → read_octet acc k rest = (acc, k, rest).
Proof. destruct rest as [|c r]; cbn; [done |]. by intros ->. Qed.

Lemma read_octet_app s : ∀ acc k v k' rest,
  read_octet acc k s = (v, k', EmptyString) → read_octet acc k (s +:+ rest) = read_octet v k' rest.
Proof.
  induction s as [|c s IH]; intros acc k v k' rest; [by intros [= <- <-] |].
  change (String c s +:+ rest) with (String c (s +:+ rest)). cbn [read_octet].
  destruct (_ && _); [apply IH | done].
Qed.

(** What the printed form of an octet is: one to three digits that stand for
    it, and no leading zero. *)
Definition octet_text (n : Z) (s : string) : bool :=
  bool_decide (read_octet 0 0 s = (n, String.length s, EmptyString)) &&
  Nat.leb 1 (String.length s) && Nat.leb (String.length s) 3 && (n <=? 255) &&
  match s with String "0"%char s' => bool_decide (s' = EmptyString) | _ => true end.

Lemma octet_text_decimal n : 0 ≤ n < 256 → octet_text n (decimal n) = true.
Proof.
  intros Hn. assert (forallb (λ k, octet_text (Z.of_nat k) (decimal (Z.of_nat k))) (seq 0 256) = true) as Hall
    by (by vm_compute).
  rewrite forallb_forall in Hall. rewrite <- (Z2Nat.id n) by lia. apply Hall, in_seq. lia.
Qed.

Lemma pton_octet_text n s rest : octet_text n s = true → no_digit rest → pton_octet (s +:+ rest) = Some (n, rest).
Proof.
  unfold octet_text, pton_octet. intros [[[[Hr H1]%andb_prop H3]%andb_prop H255]%andb_prop H0]%andb_prop Hrest.
  apply bool_decide_eq_true in Hr. apply Nat.leb_le in H1, H3. apply Z.leb_le in H255.
  rewrite (read_octet_app s 0 0 n (String.length s)), read_octet_stop by done. cbn beta iota.
  destruct (Nat.eqb_spec (String.length s) 0); [lia |].
  destruct (Nat.ltb_spec 3 (String.length s)); [lia |].
  destruct (Z.ltb_spec 255 n); [lia |]. cbn [orb].
  destruct s as [|c s]; [cbn in *; lia |]. change (String c s +:+ rest) with (String c (s +:+ rest)).
  destruct c as [[] [] [] [] [] [] [] []]; try done.
  apply bool_decide_eq_true in H0 as ->. cbn. by destruct rest.
Qed.

Lemma pton_octet_decimal n rest :
  0 ≤ n < 256 → no_digit rest → pton_octet (decimal n +:+ rest) = Some (n, rest).
Proof. intros Hn. apply pton_octet_text, octet_text_decimal, Hn. Qed.

(** The octets of an address. *)
Lemma octet_range addr i : 0 ≤ octet addr i < 256.
Proof.
  unfold octet. change 255 with (Z.ones 8). rewrite Z.land_ones by lia. by apply Z.mod_pos_bound.
Qed.

Lemma octets_addr addr : 0 ≤ addr < 2 ^ 32 →
  octet addr 0 + 256 * octet addr 1 + 65536 * octet addr 2 + 16777216 * octet addr 3 = addr.
Proof.
  intros Ha. unfold octet. change 255 with (Z.ones 8).
  rewrite !Z.land_ones, !Z.shiftr_div_pow2 by lia.
  change (2 ^ (8 * 0)) with 1. change (2 ^ (8 * 1)) with 256. change (2 ^ (8 * 2)) with 65536.
  change (2 ^ (8 * 3)) with 16777216. change (2 ^ 8) with 256. change (2 ^ 32) with 4294967296 in Ha.
  Z.div_mod_to_equations. lia.
Qed.

Lemma append_empty_r (s : string) : s +:+ "" = s.
Proof. induction s as [|c s IH]; [done |]. change (String c s +:+ "") with (String c (s +:+ "")). by rewrite IH. Qed.

Lemma pton_dot_dot s : pton_dot ("." +:+ s) = Some s.
Proof. done. Qed.

Lemma inet_pton_ntop addr : 0 ≤ addr < 2 ^ 32 → inet_pton (inet_ntop addr) = Some addr.
Proof.
  intros Ha. pose proof (octet_range addr) as Ho. unfold inet_pton, inet_ntop.
  do 3 (rewrite pton_octet_decimal by done; cbn [mbind option_bind]; rewrite pton_dot_dot; cbn [mbind option_bind]).
  rewrite <- (append_empty_r (decimal (octet addr 3))).
  rewrite pton_octet_decimal by done. cbn [mbind option_bind]. by rewrite octets_addr.
Qed.

(** ** Decimal numbers *)

Lemma of_uint_acc_bound d : ∀ acc,
  Z.pos acc * 10 ^ Z.of_nat (Decimal.nb_digits d) ≤ Z.pos (Pos.of_uint_acc d acc).
Proof.
  induction d as [|d IH|d IH|d IH|d IH|d IH|d IH|d IH|d IH|d IH|d IH]; intros acc; [cbn; lia |..];
    cbn [Decimal.nb_digits Pos.of_uint_acc]; rewrite Nat2Z.inj_succ, Z.pow_succ_r by lia;
    (etrans; [| apply IH]); rewrite Z.mul_assoc; apply Z.mul_le_mono_nonneg_r; lia.
Qed.

Lemma length_string_of_uint d : String.length (NilEmpty.string_of_uint d) = Decimal.nb_digits d.
Proof. induction d; cbn; congruence. Qed.

Lemma decimal_length n k : (1 ≤ k)%nat → 0 ≤ n < 10 ^ Z.of_nat k → (String.length (decimal n) ≤ k)%nat.
Proof.
  intros Hk Hn. unfold decimal. set (m := Z.to_N n).
  pose proof (DecimalN.Unsigned.to_of (N.to_uint m)) as Hnorm.
  pose proof (DecimalN.Unsigned.of_to m) as Hof. rewrite Hof in Hnorm.
  destruct (N.to_uint m) as [|d|d|d|d|d|d|d|d|d|d] eqn:Hd; [cbn; lia |..].
  { unfold Decimal.unorm in Hnorm. cbn [Decimal.nzhead] in Hnorm. cbn.
    destruct (Decimal.nzhead d) eqn:Hz; try discriminate.
    - injection Hnorm as ->. cbn. lia.
    - exfalso. by eapply DecimalFacts.nzhead_nonzero. }
  all: unfold NilZero.string_of_uint; rewrite length_string_of_uint; cbn [Decimal.nb_digits].
  all: destruct (decide (S (Decimal.nb_digits d) ≤ k)%nat) as [|Hgt]; [done | exfalso].
  all: assert (10 ^ Z.of_nat k ≤ 10 ^ Z.of_nat (Decimal.nb_digits d)) by (apply Z.pow_le_mono_r; lia).
  all: cbn [N.of_uint Pos.of_uint] in Hof.
  all: match type of Hof with N.pos (Pos.of_uint_acc ?e ?a) = _ => pose proof (of_uint_acc_bound e a) end.
  all: assert (n = Z.of_N m) as Hnm by (unfold m; rewrite Z2N.id; lia); rewrite <- Hof in Hnm; cbn in Hnm.
  all: nia.
Qed.

Lemma decimal_inj n m : 0 ≤ n → 0 ≤ m → decimal n = decimal m → n = m.
Proof.
  intros Hn Hm Heq. unfold decimal in Heq. apply (f_equal NilZero.uint_of_string) in Heq.
  assert (∀ k, N.to_uint k ≠ Decimal.Nil) as Hnil.
  { intros k Hk. pose proof (DecimalN.Unsigned.to_of (N.to_uint k)) as Hu.
    rewrite DecimalN.Unsigned.of_to, Hk in Hu. discriminate. }
  rewrite !NilZero.usu in Heq by apply Hnil. injection Heq as Heq.
  apply (f_equal N.of_uint) in Heq. rewrite !DecimalN.Unsigned.of_to in Heq. lia.
Qed.

(** ** The property *)

(** C36: an IPv4 address survives being printed and read back: the address
    constructed from what [ToIp] and [ToPort] return is the address itself,
    whatever was in the memory it is constructed in; and [ToPort] returns the
    port an address was constructed with. *)
Theorem InetAddress_roundtrip a uninit port ip :
  sin_family (InetAddress.addr_ a) = AF_INET →
  0 ≤ sin_port (InetAddress.addr_ a) < 2 ^ 16 → 0 ≤ sin_addr (InetAddress.addr_ a) < 2 ^ 32 →
  0 ≤ port < 2 ^ 16 →
  InetAddress_ctor uninit (ToPort a) (ToIp a) = a ∧ ToPort (InetAddress_ctor uninit port ip) = port.
Proof.
  intros Hf Hp Ha Hport. unfold InetAddress_ctor, ToPort, ToIp, ntohs. cbn [sin_port InetAddress.addr_].
  split; [| by apply htons_htons]. rewrite inet_pton_ntop, htons_htons, <- Hf by done. by destruct a as [[]].
Qed.

Lemma InetAddress_roundtrip_witness :
  let a := InetAddress.mk (mk_sockaddr 2 16540 16777343) in
  ToIp a = "127.0.0.1" ∧ ToPort a = 40000 ∧
  InetAddress_ctor 99 (ToPort a) (ToIp a) = a ∧ ToPort (InetAddress_ctor 99 9012 "::1") = 9012.
Proof.
  intros a. split; [reflexivity | split; [reflexivity |]].
  apply (InetAddress_roundtrip a 99 9012 "::1"); [reflexivity | by split | by split | by split].
Defined.
