(* ===== verification/Frames.v ===== *)
(** * What the operations preserve

    [Pres R m]: every run of [m] that returns goes from a world to one that
    is [R]-related to it.  [R] is a preorder: "this part is
    the same" ([Frame]), or "what holds of the first holds of the second"
    ([Stable]).  The instances follow the structure of the operations, so
    that it is found by resolution once it is known of the primitive changes
    of the world; what may be assumed of those is the context of the section
    [ops]. *)

From S2P Require Import Prelude Format Kernel Buffer Objects PollerOps ChannelOps ReactorInv LoopOps SocketOps ConnOps ServerOps TurnOps.

Section pres.
Context {E : Type} `{Kernel E} (R : World E → World E → Prop) `{!PreOrder R}.

Class Pres {A} (m : M (World E) A) : Prop :=
  pres w : match m w with Done _ w' => R w w' | _ => True end.

#[global] Instance pres_bind {A B} (m : M (World E) A) (k : A → M (World E) B) :
  Pres m → (∀ a, Pres (k a)) → Pres (m ≫= k).
Proof.
  intros Hm Hk w. specialize (Hm w). unfold mbind, M_bind. destruct (m w) as [a w1| | |]; try done.
  specialize (Hk a w1). destruct (k a w1); try done; by etrans.
Qed.

#[global] Instance pres_ret {A} (a : A) : Pres (mret a).
Proof. intros w. change (R w w). reflexivity. Qed.
#[global] Instance pres_get : Pres get.
Proof. intros w. change (R w w). reflexivity. Qed.
#[global] Instance pres_gets {A} (g : World E → A) : Pres (gets g).
Proof. intros w. change (R w w). reflexivity. Qed.
#[global] Instance pres_exit {A} code : Pres (A := A) (exit code).
Proof. done. Qed.
#[global] Instance pres_throw {A} x : Pres (A := A) (throw x).
Proof. done. Qed.
#[global] Instance pres_undef {A} u : Pres (A := A) (undef u).
Proof. done. Qed.
#[global] Instance pres_deref {A} (g : World E → option A) : Pres (deref g).
Proof. intros w. unfold deref. destruct (g w); [reflexivity | done]. Qed.
#[global] Instance pres_when b m : Pres m → Pres (when b m).
Proof. destruct b; [done | intros _ w; change (R w w); reflexivity]. Qed.
Lemma pres_modify g : (∀ w, R w (g w)) → Pres (modify g).
Proof. intros Hg w. apply Hg. Qed.
Lemma pres_sequence ms : Forall Pres ms → Pres (sequence_ ms).
Proof.
  induction 1 as [|m ms Hm _ IH]; cbn [sequence_]; [apply pres_ret | by apply pres_bind].
Qed.

Lemma pres_wp {A} (m : M (World E) A) S Q w :
  Pres m → wp S m Q w → wp S m (λ a w', Q a w' ∧ R w w') w.
Proof. intros Hm. specialize (Hm w). unfold wp. by destruct (m w). Qed.
End pres.

(** [after m Q w]: if [m] returns, it does so in [Q]. *)
Definition after {W A} (m : M W A) (Q : A → W → Prop) (w : W) : Prop :=
  match m w with Done a w' => Q a w' | _ => True end.

Lemma after_bind {W A B} (m : M W A) (k : A → M W B) Q w :
  after m (λ a, after (k a) Q) w → after (m ≫= k) Q w.
Proof. unfold after, mbind, M_bind. by destruct (m w). Qed.
Lemma after_mono {W A} (m : M W A) (Q Q' : A → W → Prop) w :
  after m Q w → (∀ a w', Q a w' → Q' a w') → after m Q' w.
Proof. unfold after. destruct (m w); eauto. Qed.
Lemma wp_after {W A} X (m : M W A) Q w : wp X m Q w → after m Q w.
Proof. unfold wp, after. by destruct (m w). Qed.

Lemma after_deref {W A} (f : W → option A) (Q : A → W → Prop) w :
  (∀ a, f w = Some a → Q a w) → after (deref f) Q w.
Proof. unfold after, deref. destruct (f w); auto. Qed.
Lemma after_ret {W A} (a : A) Q (w : W) : Q a w → after (mret a) Q w.
Proof. done. Qed.
Lemma after_get {W} Q (w : W) : Q w w → after get Q w.
Proof. done. Qed.
Lemma after_gets {W A} (f : W → A) Q w : Q (f w) w → after (gets f) Q w.
Proof. done. Qed.
Lemma after_when {W} b m Q (w : W) :
  (b = true → after m Q w) → (b = false → Q tt w) → after (when b m) Q w.
Proof. destruct b; cbn; auto. Qed.
Lemma after_sys {E A} (f : E → A * E) Q (w : World E) :
  (∀ a e', f (env w) = (a, e') → Q a (w <| env := e' |>)) → after (sys f) Q w.
Proof. intros HQ. unfold after, sys. destruct (f (env w)) as [a e'] eqn:Hf. by apply HQ. Qed.
Lemma after_LOG {E} level fmt args Q (w : World E) :
  Q tt (w <| log ::= cons (Log level fmt args) |>) → after (LOG level fmt args) Q w.
Proof. unfold after, LOG, print_line. by destruct (fmt_ok fmt args). Qed.
Lemma after_LOG_FATAL {E} fmt args Q (w : World E) : after (LOG_FATAL fmt args) Q w.
Proof. unfold after, LOG_FATAL, LOG, print_line. by destruct (fmt_ok fmt args). Qed.
Lemma after_modify {W} f (Q : unit → W → Prop) w : Q tt (f w) → after (modify f) Q w.
Proof. done. Qed.

(** The part [f] of the world stays the same; the property [P] of the world
    stays true. *)
Definition same {E X} (f : World E → X) (w w' : World E) : Prop := f w' = f w.
Definition keeps_true {E} (P : World E → Prop) (w w' : World E) : Prop := P w → P w'.

#[export] Instance same_preorder {E X} (f : World E → X) : PreOrder (same f).
Proof. split; [done | intros w1 w2 w3; unfold same; congruence]. Qed.
#[export] Instance keeps_true_preorder {E} (P : World E → Prop) : PreOrder (keeps_true P).
Proof. split; [by intros w ? | intros w1 w2 w3; unfold keeps_true; tauto]. Qed.

Abbreviation Frame f := (Pres (same f)).
Abbreviation Stable P := (Pres (keeps_true P)).

Lemma pres_after {E : Type} `{Kernel E} {A} R (m : M (World E) A) w : Pres R m → after m (λ _, R w) w.
Proof. intros Hm. apply Hm. Qed.

Lemma stable_after {E : Type} `{Kernel E} {A} P (m : M (World E) A) w :
  Stable P m → P w → after m (λ _, P) w.
Proof. intros Hm HP. specialize (Hm w). unfold after. destruct (m w); [by apply Hm | done..]. Qed.

Lemma stable_intro {E : Type} `{Kernel E} {A} P (m : M (World E) A) :
  (∀ w, P w → after m (λ _, P) w) → Stable P m.
Proof. intros Hm w. specialize (Hm w). unfold after in Hm. destruct (m w); [exact Hm | done..]. Qed.

Lemma frame_wp {E : Type} `{Kernel E} {X A} (f : World E → X) (m : M (World E) A) S Q w :
  Frame f m → wp S m Q w → wp S m (λ a w', Q a w' ∧ f w' = f w) w.
Proof. apply (pres_wp (same f)). Qed.

(** [pres_tac] follows the structure of an operation, down to the operations
    that have an instance. *)
Ltac pres_prim := fail.
Ltac pres_step :=
  cbn beta;
  lazymatch goal with
  | |- Pres _ (_ ≫= _) => apply pres_bind; [apply _ | | intros ?]
  | |- Pres _ (when _ _) => apply pres_when; [apply _ |]
  | |- Pres _ (match ?x with _ => _ end) => destruct x
  | |- Pres _ (sequence_ (_ <$> _)) =>
      apply pres_sequence; [apply _ |]; apply Forall_fmap, Forall_forall; intros ? _; cbn [compose]
  | |- Pres _ _ => first [apply _ | pres_prim]
  end.
Ltac pres_tac :=
  lazymatch goal with
  | |- Pres _ ?m => let h := head_of m in unfold h; repeat pres_step
  end.

(** [after_step] runs the next primitive; what a pointer refers to, if
    anything, is introduced. *)
Ltac after_step :=
  lazymatch goal with
  | |- after (mbind _ _) _ _ => apply after_bind
  | |- after (mret _) _ _ => apply after_ret
  | |- after get _ _ => apply after_get
  | |- after (gets _) _ _ => apply after_gets
  | |- after (modify _) _ _ => apply after_modify
  | |- after (when _ _) _ _ => apply after_when; intros ?
  | |- after (sys _) _ _ => apply after_sys; intros ? ? _
  | |- after (LOG_FATAL _ _) _ _ => apply after_LOG_FATAL
  | |- after (LOG _ _ _) _ _ => apply after_LOG
  | |- after (LOG_INFO _ _) _ _ => apply after_LOG
  | |- after (LOG_ERROR _ _) _ _ => apply after_LOG
  | |- after (the_loop _) _ _ => apply after_deref; intros ? ?
  | |- after (the_conn _) _ _ => apply after_deref; intros ? ?
  | |- after (the_channel _) _ _ => apply after_deref; intros ? ?
  | |- after (the_server _) _ _ => apply after_deref; intros ? ?
  end; cbn beta; upd_simpl_goal.

(** ** Changes of loops and connections that are always allowed *)

(** The change of a loop does not move it to another thread, take back
    [Quit] or lose a queued functor. *)
Definition loop_upd (g : EventLoop.t → EventLoop.t) : Prop :=
  ∀ lp, EventLoop.thread_id_ (g lp) = EventLoop.thread_id_ lp ∧
    (EventLoop.quit_ lp = true → EventLoop.quit_ (g lp) = true) ∧
    EventLoop.pending_functors_ lp `prefix_of` EventLoop.pending_functors_ (g lp).
(** The change of a connection does not rename it or move it to another
    loop. *)
Definition conn_upd (g : TcpConnection.t → TcpConnection.t) : Prop :=
  ∀ cn, TcpConnection.name_ (g cn) = TcpConnection.name_ cn ∧
    TcpConnection.loop_ (g cn) = TcpConnection.loop_ cn.

Ltac solve_loop_upd :=
  intros ?; upd_simpl_goal; split_and!; [done | by auto | first [reflexivity | by eexists]].
Ltac solve_conn_upd := intros ?; by upd_simpl_goal.

(** The change of a server is not about its connections. *)
Definition server_upd (g : TcpServer.t → TcpServer.t) : Prop :=
  ∀ sv, TcpServer.connections_ (g sv) = TcpServer.connections_ sv ∧
    TcpServer.next_conn_id_ (g sv) = TcpServer.next_conn_id_ sv ∧
    TcpServer.name_ (g sv) = TcpServer.name_ sv ∧ TcpServer.ip_port_ (g sv) = TcpServer.ip_port_ sv.

(** Nor does it change what it does when it closes. *)
Definition conn_kept (g : TcpConnection.t → TcpConnection.t) : Prop :=
  conn_upd g ∧ ∀ cn, TcpConnection.close_callback_ (g cn) = TcpConnection.close_callback_ cn.
Ltac solve_conn_kept := split; [solve_conn_upd | intros ?; by upd_simpl_goal].

(** What a preorder must allow for the operations to preserve it that make no
    connection. *)
Class AdmitsConns {E : Type} (R : World E → World E → Prop) : Prop := {
  ac_preorder :: PreOrder R;
  ac_env w e : R w (w <| env := e |>);
  ac_log w x : R w (w <| log ::= cons x |>);
  ac_channels w g : R w (w <| channels ::= g |>);
  ac_pollers w g : R w (w <| pollers ::= g |>);
  ac_calls w c : R w (w <| calls ::= cons c |>);
  ac_loop w l lp g : loops w !! l = Some lp → loop_upd g → R w (w <| loops ::= <[l := g lp]> |>);
  ac_conn w c cn g : conns w !! c = Some cn → conn_kept g → R w (w <| conns ::= <[c := g cn]> |>);
}.

(** What it must allow for all of them. *)
Class Admits {E : Type} (R : World E → World E → Prop) : Prop := {
  ad_preorder :: PreOrder R;
  ad_env w e : R w (w <| env := e |>);
  ad_log w x : R w (w <| log ::= cons x |>);
  ad_channels w g : R w (w <| channels ::= g |>);
  ad_pollers w g : R w (w <| pollers ::= g |>);
  ad_calls w c : R w (w <| calls ::= cons c |>);
  ad_loop w l lp g : loops w !! l = Some lp → loop_upd g → R w (w <| loops ::= <[l := g lp]> |>);
  ad_new_conn w c cn : conns w !! c = None → R w (w <| conns ::= <[c := cn]> |>);
  ad_conn w c cn g : conns w !! c = Some cn → conn_upd g → R w (w <| conns ::= <[c := g cn]> |>);
}.

#[export] Instance admits_conns {E : Type} (R : World E → World E → Prop) `{!Admits R} : AdmitsConns R | 5.
Proof.
  split; [apply _ | apply ad_env | apply ad_log | apply ad_channels | apply ad_pollers | apply ad_calls | apply ad_loop |].
  intros w c cn g Hc [Hg _]. by apply ad_conn.
Qed.

Class AdmitsServer {E : Type} (R : World E → World E → Prop) : Prop :=
  ad_server w s sv g : servers w !! s = Some sv → server_upd g → R w (w <| servers ::= <[s := g sv]> |>).

Section ops.
Context {E : Type} `{Kernel E} (R : World E → World E → Prop) `{!AdmitsConns R}.

Ltac pres_prim ::=
  apply pres_modify; intros ?;
  first [apply ac_log | apply ac_channels | apply ac_pollers | apply ac_calls].

#[export] Instance pres_sys {A} (g : E → A * E) : Pres R (sys g).
Proof. intros w. unfold sys. destruct (g (env w)) as [a e]. apply ac_env. Qed.
#[export] Instance pres_print_line l fmt args : Pres R (print_line l fmt args).
Proof. pres_tac. Qed.
#[export] Instance pres_LOG level fmt args : Pres R (LOG level fmt args).
Proof. pres_tac. Qed.
#[export] Instance pres_LOG_INFO fmt args : Pres R (LOG_INFO fmt args).
Proof. apply pres_LOG. Qed.
#[export] Instance pres_LOG_ERROR fmt args : Pres R (LOG_ERROR fmt args).
Proof. apply pres_LOG. Qed.
#[export] Instance pres_LOG_FATAL fmt args : Pres R (LOG_FATAL fmt args).
Proof. pres_tac. Qed.
#[export] Instance pres_printf fmt args : Pres R (printf fmt args).
Proof. pres_tac. Qed.
#[export] Instance pres_record_call c : Pres R (record_call c).
Proof. pres_tac. Qed.
#[export] Instance pres_the_channel x : Pres R (the_channel x) := pres_deref R _.
#[export] Instance pres_the_poller x : Pres R (the_poller x) := pres_deref R _.
#[export] Instance pres_the_loop x : Pres R (the_loop x) := pres_deref R _.
#[export] Instance pres_the_conn x : Pres R (the_conn x) := pres_deref R _.
#[export] Instance pres_the_server x : Pres R (the_server x) := pres_deref R _.
#[export] Instance pres_upd_channel x g : Pres R (upd_channel x g).
Proof. pres_tac. Qed.
#[export] Instance pres_upd_poller x g : Pres R (upd_poller x g).
Proof. pres_tac. Qed.

Lemma pres_upd_loop l g : loop_upd g → Pres R (upd_loop l g).
Proof.
  intros Hg w. unfold upd_loop, the_loop, deref, mbind, M_bind.
  destruct (loops w !! l) as [lp|] eqn:Hl; [| done]. by apply ac_loop.
Qed.
Lemma pres_any_loop l g : (∀ w h, R w (w <| loops ::= h |>)) → Pres R (upd_loop l g).
Proof.
  intros Hl. unfold upd_loop. apply pres_bind; [apply _ | apply _ | intros lp]. by apply pres_modify.
Qed.
Lemma pres_upd_conn c g : conn_kept g → Pres R (upd_conn c g).
Proof.
  intros Hg w. unfold upd_conn, the_conn, deref, mbind, M_bind.
  destruct (conns w !! c) as [cn|] eqn:Hc; [| done]. by apply ac_conn.
Qed.
Hint Extern 0 (Pres R (upd_loop _ _)) =>
  apply pres_upd_loop; solve_loop_upd : typeclass_instances.
Hint Extern 0 (Pres R (upd_conn _ _)) =>
  apply pres_upd_conn; solve_conn_kept : typeclass_instances.

(** *** Channels and loops *)

#[export] Instance pres_Update l op x : Pres R (PollerOps.Update l op x).
Proof. pres_tac. Qed.
#[export] Instance pres_SetIndex x i : Pres R (SetIndex x i).
Proof. pres_tac. Qed.
#[export] Instance pres_UpdateChannel l x : Pres R (PollerOps.UpdateChannel l x).
Proof. pres_tac. Qed.
#[export] Instance pres_Channel_Update x : Pres R (ChannelOps.Update x).
Proof. unfold ChannelOps.Update, EventLoop_UpdateChannel. repeat pres_step. Qed.
#[export] Instance pres_EnableReading x : Pres R (EnableReading x).
Proof. pres_tac. Qed.
#[export] Instance pres_EnableWriting x : Pres R (EnableWriting x).
Proof. pres_tac. Qed.
#[export] Instance pres_IsInLoopThread l : Pres R (IsInLoopThread l).
Proof. pres_tac. Qed.
#[export] Instance pres_Wakeup l : Pres R (Wakeup l).
Proof. pres_tac. Qed.
#[export] Instance pres_QueueInLoop l cb : Pres R (QueueInLoop l cb).
Proof. pres_tac. Qed.
#[export] Instance pres_RunInLoop l cb body : Pres R body → Pres R (RunInLoop l cb body).
Proof. intros ?. pres_tac. Qed.
#[export] Instance pres_Quit l : Pres R (Quit l).
Proof. pres_tac. Qed.

(** *** Connections *)

Lemma pres_on_buffer {A} c g h (m : E → M Buffer.t (A * E)) :
  (∀ b, conn_kept (h b)) → Pres R (on_buffer c g h m).
Proof.
  intros Hh w. unfold on_buffer. destruct (conns w !! c) as [cn|] eqn:Hc; [| done].
  destruct (m _ _) as [[]| | |]; try done;
    (etrans; [apply ac_env | apply (ac_conn (w <| env := _ |>) c cn (h _)); [done | apply Hh]]).
Qed.
#[export] Instance pres_on_input {A} c (m : E → M Buffer.t (A * E)) : Pres R (on_input c m).
Proof. by apply pres_on_buffer. Qed.
#[export] Instance pres_on_output {A} c (m : E → M Buffer.t (A * E)) : Pres R (on_output c m).
Proof. by apply pres_on_buffer. Qed.
#[export] Instance pres_SetState c s : Pres R (SetState c s).
Proof. pres_tac. Qed.
#[export] Instance pres_SetContext c v : Pres R (SetContext c v).
Proof. pres_tac. Qed.
#[export] Instance pres_buffer_rest c d n r fe : Pres R (buffer_rest c d n r fe).
Proof. pres_tac. Qed.
#[export] Instance pres_SendInLoop c d n : Pres R (SendInLoop c d n).
Proof. pres_tac. Qed.
#[export] Instance pres_Send c d : Pres R (Send c d).
Proof. pres_tac. Qed.
#[export] Instance pres_SendBufferInLoop c d : Pres R (SendBufferInLoop c d).
Proof. pres_tac. Qed.
#[export] Instance pres_SendBuffer c d : Pres R (SendBuffer c d).
Proof. pres_tac. Qed.
#[export] Instance pres_ShutdownWrite fd : Pres R (ShutdownWrite fd).
Proof. pres_tac. Qed.
#[export] Instance pres_ShutdownInLoop c : Pres R (ShutdownInLoop c).
Proof. pres_tac. Qed.
#[export] Instance pres_Shutdown c : Pres R (Shutdown c).
Proof. pres_tac. Qed.

(** Application code. *)
#[export] Instance pres_run_client (p : client) : Pres R (run_client p).
Proof. induction p; cbn [run_client]; repeat pres_step; auto. Qed.

#[global] Instance pres_invoke `{App} c : Pres R (invoke c).
Proof. pres_tac. Qed.

(** *** Events and callbacks *)

#[export] Instance pres_SetRevents x r : Pres R (SetRevents x r).
Proof. pres_tac. Qed.
#[export] Instance pres_fill_active_channels l n : ∀ i xs, Pres R (fill_active_channels l i n xs).
Proof. induction n as [|n IH]; intros i xs; cbn [fill_active_channels]; repeat pres_step. Qed.
#[export] Instance pres_FillActiveChannels l n xs : Pres R (FillActiveChannels l n xs).
Proof. pres_tac. Qed.
#[export] Instance pres_Timestamp_Now : Pres R Timestamp_Now.
Proof. apply pres_sys. Qed.
#[export] Instance pres_Poll l t xs : Pres R (Poll l t xs).
Proof. pres_tac. Qed.
#[export] Instance pres_RemoveChannel l x : Pres R (PollerOps.RemoveChannel l x).
Proof. pres_tac. Qed.
#[export] Instance pres_Remove x : Pres R (Remove x).
Proof. unfold Remove, EventLoop_RemoveChannel. repeat pres_step. Qed.
#[export] Instance pres_DisableAll x : Pres R (DisableAll x).
Proof. pres_tac. Qed.
#[export] Instance pres_DisableWriting x : Pres R (DisableWriting x).
Proof. pres_tac. Qed.
#[export] Instance pres_Tie x c : Pres R (Tie x c).
Proof. pres_tac. Qed.
#[export] Instance pres_LoopRead l : Pres R (LoopOps.HandleRead l).
Proof. pres_tac. Qed.
#[export] Instance pres_Listen fd : Pres R (Listen fd).
Proof. pres_tac. Qed.
#[export] Instance pres_Accept fd a : Pres R (Accept fd a).
Proof. pres_tac. Qed.
#[export] Instance pres_HandleError c : Pres R (HandleError c).
Proof. pres_tac. Qed.
#[export] Instance pres_HandleWrite c : Pres R (HandleWrite c).
Proof. pres_tac. Qed.

Context `{App}.

#[export] Instance pres_call_fn {A} (cb : option A) (body : A → M (World E) unit) :
  (∀ a, Pres R (body a)) → Pres R (call_fn cb body).
Proof. intros Hb. pres_tac. Qed.
#[export] Instance pres_connection_callback c : Pres R (connection_callback c).
Proof. pres_tac. Qed.
#[export] Instance pres_message_callback c t : Pres R (message_callback c t).
Proof. pres_tac. Qed.
#[export] Instance pres_write_complete_callback c : Pres R (write_complete_callback c).
Proof. pres_tac. Qed.
#[export] Instance pres_high_water_mark_callback c n : Pres R (high_water_mark_callback c n).
Proof. pres_tac. Qed.
#[export] Instance pres_ConnectEstablished c : Pres R (ConnectEstablished c).
Proof. pres_tac. Qed.
#[export] Instance pres_ConnectDestroyed c : Pres R (ConnectDestroyed c).
Proof. pres_tac. Qed.

(** *** New objects *)

#[export] Instance pres_new_channel l fd : Pres R (new_channel l fd).
Proof. pres_tac. Qed.
#[export] Instance pres_CheckLoopNotNull l : Pres R (CheckLoopNotNull l).
Proof. pres_tac. Qed.
#[export] Instance pres_SetReadCallback x cb : Pres R (SetReadCallback x cb).
Proof. pres_tac. Qed.
#[export] Instance pres_SetWriteCallback x cb : Pres R (SetWriteCallback x cb).
Proof. pres_tac. Qed.
#[export] Instance pres_SetCloseCallback x cb : Pres R (ChannelOps.SetCloseCallback x cb).
Proof. pres_tac. Qed.
#[export] Instance pres_SetErrorCallback x cb : Pres R (SetErrorCallback x cb).
Proof. pres_tac. Qed.
#[export] Instance pres_setsockopt fd l n on : Pres R (setsockopt fd l n on).
Proof. pres_tac. Qed.
#[export] Instance pres_SetKeepAlive fd on : Pres R (SetKeepAlive fd on).
Proof. pres_tac. Qed.
#[export] Instance pres_SetConnectionCallback c cb : Pres R (SetConnectionCallback c cb).
Proof. pres_tac. Qed.
#[export] Instance pres_SetMessageCallback c cb : Pres R (SetMessageCallback c cb).
Proof. pres_tac. Qed.
#[export] Instance pres_SetWriteCompleteCallback c cb : Pres R (SetWriteCompleteCallback c cb).
Proof. pres_tac. Qed.
(** *** The operations that change a server

    A preorder that is about servers must say itself what these two do. *)

Context `{!AdmitsServer R}.

Lemma pres_upd_server s g : server_upd g → Pres R (upd_server s g).
Proof.
  intros Hg w. unfold upd_server, the_server, deref, mbind, M_bind.
  destruct (servers w !! s) as [sv|] eqn:Hs; [| done]. by apply ad_server.
Qed.
#[export] Instance pres_upd_pool s g : Pres R (upd_pool s g).
Proof. apply pres_upd_server. intros sv. upd_simpl_goal. by auto. Qed.
#[export] Instance pres_upd_acceptor s g : Pres R (upd_acceptor s g).
Proof. apply pres_upd_server. intros sv. upd_simpl_goal. by auto. Qed.
#[export] Instance pres_on_pool {A} s (m : M EventLoopThreadPool.t A) : Pres R (on_pool s m).
Proof.
  intros w. unfold on_pool. destruct (servers w !! s) as [sv|] eqn:Hs; [| done].
  destruct (m (TcpServer.thread_pool_ sv)) as [a p| | |]; try done.
  apply (ad_server w s sv (λ sv, sv <| TcpServer.thread_pool_ := p |>)); [done |].
  intros sv'. upd_simpl_goal. by auto.
Qed.

Hint Extern 0 (Pres R (upd_server _ _)) =>
  apply pres_upd_server; intros ?; upd_simpl_goal; by auto : typeclass_instances.

#[export] Instance pres_Acceptor_Listen s : Pres R (Acceptor_Listen s).
Proof. pres_tac. Qed.

(** *** Starting the threads *)

Section start.
Context (ad_tid : ∀ w t, R w (w <| tid := t |>)) (ad_new_loop : Pres R new_loop).
Existing Instance ad_new_loop.

Instance pres_thread_init cb l : Pres R (thread_init cb l).
Proof. pres_tac. Qed.
Instance pres_set_tid t : Pres R (modify (λ w, w <| tid := t w |>)).
Proof. by apply pres_modify. Qed.
Instance pres_StartLoop cb : Pres R (StartLoop cb).
Proof.
  unfold StartLoop. apply pres_bind; [apply _ | apply _ | intros caller].
  apply pres_bind; [apply _ | apply (pres_set_tid new_tid) | intros _].
  do 2 (apply pres_bind; [apply _ | apply _ | intros ?]).
  apply pres_bind; [apply _ | apply (pres_set_tid (λ _, caller)) | intros _]. apply _.
Qed.
Instance pres_start_threads s cb n : ∀ i, Pres R (start_threads s cb i n).
Proof. induction n as [|n IH]; intros i; cbn [start_threads]; repeat pres_step. Qed.
Instance pres_Pool_Start s cb : Pres R (Pool_Start s cb).
Proof. pres_tac. Qed.
Lemma pres_Server_Start s : Pres R (Server_Start s).
Proof. pres_tac. Qed.
End start.

Section round.
Context (ad_erase : ∀ s name,
    Pres R (upd_server s (λ sv, sv <| TcpServer.connections_ ::= delete name |>)))
  (ad_new : ∀ s fd peer, Pres R (NewConnection s fd peer))
  (ad_swap : ∀ l, Pres R (upd_loop l (λ lp, lp <| EventLoop.pending_functors_ := [] |>))).

Instance pres_RemoveConnectionInLoop s c : Pres R (RemoveConnectionInLoop s c).
Proof. pres_tac. Qed.
Instance pres_RemoveConnection s c : Pres R (RemoveConnection s c).
Proof. pres_tac. Qed.
Instance pres_close_callback_of c : Pres R (close_callback_of c).
Proof. pres_tac. apply pres_call_fn. intros []; apply _. Qed.
Instance pres_HandleClose c : Pres R (HandleClose c).
Proof. pres_tac. Qed.
Instance pres_HandleRead c t : Pres R (ConnOps.HandleRead c t).
Proof. pres_tac. Qed.
Instance pres_Acceptor_HandleRead s : Pres R (Acceptor_HandleRead s).
Proof. pres_tac. Qed.

Lemma pres_run_functor f : Pres R (run_functor f).
Proof. destruct f; cbn [run_functor]; apply _. Qed.
Lemma pres_call_callback cb t : Pres R (call_callback cb t).
Proof. destruct cb; cbn [call_callback]; apply _. Qed.
Existing Instances pres_run_functor pres_call_callback.

Instance pres_call_if cb t : Pres R (call_if call_callback cb t).
Proof. destruct cb; cbn [call_if]; apply _. Qed.
Instance pres_lock tie : Pres R (lock tie).
Proof. pres_tac. Qed.
Instance pres_HandleEventWithGuard x t : Pres R (HandleEventWithGuard call_callback x t).
Proof. pres_tac. Qed.
Instance pres_HandleEvent x t : Pres R (HandleEvent call_callback x t).
Proof. pres_tac. Qed.
Instance pres_handle_active l xs : Pres R (handle_active call_callback l xs).
Proof. pres_tac. Qed.

Lemma pres_functors fs : Pres R (sequence_ (run_functor <$> fs)).
Proof. repeat pres_step. Qed.
Existing Instance pres_functors.
Existing Instance ad_swap.
Instance pres_DoPendingFunctors l : Pres R (DoPendingFunctors run_functor l).
Proof. pres_tac. Qed.
Lemma pres_loop_body l : Pres R (server_loop_body l).
Proof. unfold server_loop_body. pres_tac. Qed.

(** The turns of a round. *)
Instance pres_run_test x t k : Pres R (run_test x t k).
Proof. pres_tac. Qed.
Instance pres_begin_event x : Pres R (begin_event x).
Proof. pres_tac. Qed.
Lemma pres_run_turn l T : Pres R (run_turn l T).
Proof.
  unfold run_turn, poll_turn, take_functors, done_functors.
  destruct T as [[[] | ? ? [] ? | []]|]; repeat pres_step.
Qed.
End round.

End ops.

#[export] Hint Extern 0 (Pres _ (upd_loop _ _)) =>
  apply (pres_upd_loop _); solve_loop_upd : typeclass_instances.
#[export] Hint Extern 0 (Pres _ (upd_conn _ _)) =>
  apply (pres_upd_conn _); solve_conn_kept : typeclass_instances.
#[export] Hint Extern 0 (Pres _ (upd_server _ _)) =>
  apply (pres_upd_server _); intros ?; upd_simpl_goal; by auto : typeclass_instances.


(** ** Making connections *)

Section new.
Context {E : Type} `{Kernel E} `{App} (R : World E → World E → Prop) `{!Admits R}.

#[export] Instance pres_conn_SetCloseCallback c cb : Pres R (ConnOps.SetCloseCallback c cb).
Proof.
  intros w. unfold ConnOps.SetCloseCallback, upd_conn, the_conn, deref, mbind, M_bind.
  destruct (conns w !! c) as [d|] eqn:Hc; [| done].
  apply (ad_conn w c d (λ d, d <| TcpConnection.close_callback_ := cb |>)); [done | solve_conn_upd].
Qed.

Lemma pres_insert_conn {B} (cn : TcpConnection.t) (k : World E → M (World E) B) :
  (∀ w, Pres R (k w)) →
  Pres R (w ← get; modify (λ w', w' <| conns ::= <[fresh (dom (conns w)) := cn]> |>);; k w).
Proof.
  intros Hk w. specialize (Hk w (w <| conns ::= <[fresh (dom (conns w)) := cn]> |>)).
  unfold mbind, M_bind, modify, get. destruct (k w _); try done. etrans; [| exact Hk].
  apply ad_new_conn, not_elem_of_dom, is_fresh.
Qed.

#[export] Instance pres_new_connection l n fd a b : Pres R (new_connection l n fd a b).
Proof.
  unfold new_connection. do 2 (apply pres_bind; [apply _ | apply _ | intros ?]).
  apply pres_insert_conn. intros w. repeat pres_step.
Qed.

(** *** When any change of a server is allowed *)

Context `{!AdmitsServer R} (ad_servers : ∀ w g, R w (w <| servers ::= g |>))
  (ad_swap : ∀ l, Pres R (upd_loop l (λ lp, lp <| EventLoop.pending_functors_ := [] |>))).

Instance pres_any_server s g : Pres R (upd_server s g).
Proof. unfold upd_server. apply pres_bind; [apply _ | apply _ | intros sv]. by apply pres_modify. Qed.
Instance pres_server_connection s c n : Pres R (server_connection s c n).
Proof. pres_tac. Qed.
Instance pres_NewConnection s fd peer : Pres R (NewConnection s fd peer).
Proof. pres_tac. Qed.

Lemma pres_round l : Pres R (server_loop_body l).
Proof. apply pres_loop_body; intros *; apply _. Qed.
End new.

(** ** Parts that stay the same *)

Section parts.
Context {E : Type}.

#[export] Instance admits_tid : Admits (same (E := E) tid).
Proof. by split; [apply _ | ..]. Qed.
#[export] Instance admits_servers : Admits (same (E := E) servers).
Proof. by split; [apply _ | ..]. Qed.
#[export] Instance admits_this : Admits (same (E := E) loop_in_this_thread).
Proof. by split; [apply _ | ..]. Qed.
End parts.

(** ** What has been queued stays queued *)

Section behind.
Context {E : Type}.
Implicit Types w : World E.

(** The thread is the same, and what loops have queued is still there. *)
Record behind w w' : Prop := {
  bh_tid : tid w' = tid w;
  bh_loops l lp : loops w !! l = Some lp → ∃ lp', loops w' !! l = Some lp' ∧
    EventLoop.thread_id_ lp' = EventLoop.thread_id_ lp ∧
    EventLoop.pending_functors_ lp `prefix_of` EventLoop.pending_functors_ lp';
}.

Lemma behind_same w w' : tid w' = tid w → loops w' = loops w → behind w w'.
Proof. intros Ht Hl. split; [done |]. intros l lp. rewrite Hl. eauto. Qed.

#[export] Instance behind_preorder : PreOrder behind.
Proof.
  split; [intros w; by apply behind_same |]. intros w1 w2 w3 [Ht1 Hl1] [Ht2 Hl2]. split; [congruence |].
  intros l lp (lp2 & Hlp2 & Hid & Hp)%Hl1. apply Hl2 in Hlp2 as (lp3 & ? & ? & ?).
  exists lp3. split_and!; [done | congruence | by etrans].
Qed.

#[export] Instance admits_behind : Admits behind.
Proof.
  split; [apply _ | intros; by apply behind_same .. | | intros; by apply behind_same | intros; by apply behind_same].
  intros w l lp g Hl Hg. destruct (Hg lp) as (Hid & _ & Hp). split; [done |]. intros l' lp'. upd_simpl.
  rewrite lookup_insert. case_decide; [subst l'; rewrite Hl; intros [= <-]; eauto | eauto].
Qed.
End behind.

(** ** What makes no difference above the poller

    [Pres same_upper]: the operation changes only channels, pollers, the
    interest lists of the kernel and the log.  A preorder that allows this
    ([AdmitsUpper]) is preserved by all of these operations. *)

Section upper.
Context {E : Type} `{KernelLaws E}.

Lemma pres_weaken (R1 R2 : World E → World E → Prop) {A} (m : M (World E) A) :
  (∀ w w', R1 w w' → R2 w w') → Pres R1 m → Pres R2 m.
Proof. intros HR Hm w. specialize (Hm w). destruct (m w); auto. Qed.

Lemma upper_sys {A} (f : E → A * E) :
  (∀ e a e', f e = (a, e') → same_io (observe e) (observe e')) → Pres same_upper (sys f).
Proof.
  intros Hf w. unfold sys. destruct (f (env w)) as [a e'] eqn:He. split; try done. by eapply Hf.
Qed.

Lemma upper_epoll_ctl ep op fd ev : Pres same_upper (sys (sys_epoll_ctl ep op fd ev)).
Proof.
  apply upper_sys. intros e [n err] e' Hc.
  assert (observe e' = observe e ∨ ∃ m, observe e' = set_interest ep m (observe e)) as [->|[m ->]]; [| done..].
  destruct op; [apply epoll_add_law in Hc as [[_ ->]|(_ & _ & _ & ->)]
    | apply epoll_mod_law in Hc as [[_ ->]|(_ & _ & ->)] | apply epoll_del_law in Hc as [(_ & _ & ->)|(_ & _ & ->)]];
    eauto.
Qed.

Ltac pres_prim ::= first [by apply pres_modify | apply upper_epoll_ctl].

#[export] Instance upper_the_channel x : Pres same_upper (the_channel x) := pres_deref _ _.
#[export] Instance upper_the_poller x : Pres same_upper (the_poller x) := pres_deref _ _.
#[export] Instance upper_the_loop x : Pres same_upper (the_loop x) := pres_deref _ _.
#[export] Instance upper_the_conn x : Pres same_upper (the_conn x) := pres_deref _ _.
#[export] Instance upper_the_server x : Pres same_upper (the_server x) := pres_deref _ _.
#[export] Instance upper_print_line l fmt args : Pres same_upper (print_line l fmt args).
Proof. pres_tac. Qed.
#[export] Instance upper_LOG level fmt args : Pres same_upper (LOG level fmt args).
Proof. pres_tac. Qed.
#[export] Instance upper_LOG_INFO fmt args : Pres same_upper (LOG_INFO fmt args).
Proof. apply upper_LOG. Qed.
#[export] Instance upper_LOG_ERROR fmt args : Pres same_upper (LOG_ERROR fmt args).
Proof. apply upper_LOG. Qed.
#[export] Instance upper_LOG_FATAL fmt args : Pres same_upper (LOG_FATAL fmt args).
Proof. pres_tac. Qed.
#[export] Instance upper_upd_channel x g : Pres same_upper (upd_channel x g).
Proof. pres_tac. Qed.
#[export] Instance upper_upd_poller x g : Pres same_upper (upd_poller x g).
Proof. pres_tac. Qed.
#[export] Instance upper_Update l op x : Pres same_upper (PollerOps.Update l op x).
Proof. pres_tac. Qed.
#[export] Instance upper_SetIndex x i : Pres same_upper (SetIndex x i).
Proof. pres_tac. Qed.
#[export] Instance upper_UpdateChannel l x : Pres same_upper (PollerOps.UpdateChannel l x).
Proof. pres_tac. Qed.
#[export] Instance upper_RemoveChannel l x : Pres same_upper (PollerOps.RemoveChannel l x).
Proof. pres_tac. Qed.
#[export] Instance upper_Channel_Update x : Pres same_upper (ChannelOps.Update x).
Proof. unfold ChannelOps.Update, EventLoop_UpdateChannel. repeat pres_step. Qed.
#[export] Instance upper_Remove x : Pres same_upper (Remove x).
Proof. unfold Remove, EventLoop_RemoveChannel. repeat pres_step. Qed.
#[export] Instance upper_EnableReading x : Pres same_upper (EnableReading x).
Proof. pres_tac. Qed.
#[export] Instance upper_EnableWriting x : Pres same_upper (EnableWriting x).
Proof. pres_tac. Qed.
#[export] Instance upper_DisableWriting x : Pres same_upper (DisableWriting x).
Proof. pres_tac. Qed.
#[export] Instance upper_DisableAll x : Pres same_upper (DisableAll x).
Proof. pres_tac. Qed.
#[export] Instance upper_Tie x c : Pres same_upper (Tie x c).
Proof. pres_tac. Qed.
#[export] Instance upper_IsInLoopThread l : Pres same_upper (IsInLoopThread l).
Proof. pres_tac. Qed.
#[export] Instance upper_Listen fd : Pres same_upper (Listen fd).
Proof.
  assert (∀ n, Pres same_upper (sys (sys_listen fd n))); [| pres_tac].
  intros n. apply upper_sys. by intros e [r err] e' ->%listen_law.
Qed.
#[export] Instance upper_HandleError c : Pres same_upper (HandleError c).
Proof.
  assert (∀ fd, Pres same_upper (sys (sys_so_error fd))); [| pres_tac].
  intros fd. apply upper_sys. by intros e [[r err] v] e' ->%so_error_law.
Qed.
#[export] Instance upper_LoopRead l : Pres same_upper (LoopOps.HandleRead l).
Proof.
  assert (∀ fd n, Pres same_upper (sys (sys_read fd n))); [| pres_tac].
  intros fd n. apply upper_sys. by intros e [r err] e' ->%read_law.
Qed.

Class AdmitsUpper (R : World E → World E → Prop) : Prop := {
  au_preorder :: PreOrder R;
  au_upper w w' : same_upper w w' → R w w';
}.
#[export] Instance pres_upper R `{!AdmitsUpper R} {A} (m : M (World E) A) : Pres same_upper m → Pres R m | 5.
Proof. apply pres_weaken, au_upper. Qed.
End upper.

Lemma after_and {W A} (m : M W A) (Q Q' : A → W → Prop) w :
  after m Q w → after m Q' w → after m (λ a w', Q a w' ∧ Q' a w') w.
Proof. unfold after. destruct (m w); auto. Qed.

Lemma wp_and_after {W A} X (m : M W A) (Q Q' : A → W → Prop) w :
  wp X m Q w → after m Q' w → wp X m (λ a w', Q a w' ∧ Q' a w') w.
Proof. unfold wp, after. destruct (m w); auto. Qed.
