(* ===== verification/WorldInv.v ===== *)
(** * The invariant of the whole program

    [world_ok] says of every object of the heap that what it refers to is
    there and that its own data are consistent; [ext] is the order in which
    worlds grow: objects stay, their fixed members stay the same, and what a
    connection has sent or has still to send only gets longer.  Every fact a
    functor or a callback relies on is monotone in [ext], so that it still
    holds when the functor runs. *)

From S2P Require Import Prelude Format Kernel Buffer Objects PollerOps ChannelOps ReactorInv PollInv ReactorLife LoopOps LoopInv ConnOps ServerOps.

(** A string is shorter than [std::string::max_size()]. *)
Definition string_ok (s : list byte) : Prop := zlen s < 2 ^ 63.

(** ** Fixed members *)

Definition loop_id (lp : EventLoop.t) : Z * Z * nat :=
  (EventLoop.thread_id_ lp, EventLoop.wakeup_fd_ lp, EventLoop.wakeup_channel_ lp).

Definition chan_fixed (ch : Channel.t) :=
  (Channel.loop_ ch, Channel.fd_ ch, Channel.read_callback_ ch, Channel.write_callback_ ch,
   Channel.close_callback_ ch, Channel.error_callback_ ch).

Definition conn_fixed (cn : TcpConnection.t) :=
  (TcpConnection.loop_ cn, TcpConnection.name_ cn, TcpConnection.socket_ cn,
   TcpConnection.channel_ cn, TcpConnection.connection_callback_ cn,
   TcpConnection.close_callback_ cn, TcpConnection.message_callback_ cn,
   TcpConnection.write_complete_callback_ cn, TcpConnection.high_water_mark_ cn,
   TcpConnection.high_water_mark_callback_ cn).

(** The server but for its map of connections, the loops of its pool, the
    state of its acceptor, whether it was started, and the next id. *)
Definition server_fixed (sv : TcpServer.t) :=
  (TcpServer.loop_ sv, TcpServer.name_ sv, TcpServer.ip_port_ sv,
   TcpServer.connection_callback_ sv, TcpServer.message_callback_ sv,
   TcpServer.write_complete_callback_ sv,
   EventLoopThreadPool.base_loop_ (TcpServer.thread_pool_ sv),
   Acceptor.accept_channel_ (TcpServer.acceptor_ sv),
   Acceptor.accept_socket_ (TcpServer.acceptor_ sv),
   Acceptor.new_connection_callback_ (TcpServer.acceptor_ sv)).

(** The order in which a connection goes through its states. *)
Definition rank (s : StateE) : nat :=
  match s with kConnecting => 0 | kConnected => 1 | kDisconnecting => 2 | kDisconnected => 3 end.

(** The connections that queued functors will establish. *)
Definition est_ids (fs : list functor) : list nat :=
  omap (λ f, match f with FnConnectEstablished c => Some c | _ => None end) fs.

Section inv.
Context {E : Type} `{Kernel E}.
Implicit Types w : World E.

(** ** What objects refer to *)

(** The connection was established, and may be down since. *)
Definition established w (c : nat) : Prop :=
  ∃ cn, conns w !! c = Some cn ∧ TcpConnection.state_ cn ≠ kConnecting.

Definition functor_ok w (f : functor) : Prop :=
  match f with
  | FnSendInLoop c msg => established w c ∧ string_ok msg
  | FnSendBuffer c bc => established w c ∧ is_Some (conns w !! bc)
  | FnShutdownInLoop c | FnConnectEstablished c | FnConnectDestroyed c =>
      is_Some (conns w !! c)
  | FnWriteComplete c => ∃ cn, conns w !! c = Some cn ∧
      is_Some (TcpConnection.write_complete_callback_ cn)
  | FnHighWaterMark c _ => ∃ cn, conns w !! c = Some cn ∧
      is_Some (TcpConnection.high_water_mark_callback_ cn)
  | FnRemoveConnectionInLoop s c => is_Some (servers w !! s) ∧ is_Some (conns w !! c)
  | FnListen s => is_Some (servers w !! s)
  | FnUser _ => True
  end.

(** A functor that establishes a connection is queued once, on the loop of
    the connection. *)
Definition est_ok w (l : nat) (fs : list functor) : Prop :=
  NoDup (est_ids fs) ∧
  ∀ c, c ∈ est_ids fs → ∃ cn, conns w !! c = Some cn ∧ TcpConnection.loop_ cn = l ∧
    TcpConnection.state_ cn = kConnecting.

(** A callback of channel [x]. *)
Definition callback_ok w (x : nat) (cb : callback) : Prop :=
  match cb with
  | CbLoopRead l => is_Some (loops w !! l)
  | CbAcceptorRead s => is_Some (servers w !! s)
  | CbConnRead c | CbConnWrite c | CbConnClose c | CbConnError c =>
      ∃ cn, conns w !! c = Some cn ∧ TcpConnection.channel_ cn = x
  end.

Definition channel_callbacks (ch : Channel.t) : list callback :=
  option_list (Channel.close_callback_ ch) ++ option_list (Channel.error_callback_ ch) ++
  option_list (Channel.read_callback_ ch) ++ option_list (Channel.write_callback_ ch).

Definition close_ok w (cb : option close_callback) : Prop :=
  match cb with
  | None => False
  | Some (CloseUser _) => True
  | Some (CloseRemoveConnection s c) => is_Some (servers w !! s) ∧ is_Some (conns w !! c)
  end.

(** The connection a call to the application is about. *)
Definition call_conn (c : call) : option nat :=
  match c with
  | OnConnection _ c _ | OnMessage _ c _ _ | OnWriteComplete _ c | OnHighWaterMark _ c _
  | OnClose _ c => Some c
  | OnFunctor _ | OnThreadInit _ _ => None
  end.

Definition call_ok w (c : call) : Prop :=
  match call_conn c with Some c => is_Some (conns w !! c) | None => True end.

(** ** The invariant *)

(** Writing interest and pending output go together, as long as the
    connection is not down. *)
Record conn_flow (cn : TcpConnection.t) (ch : Channel.t) : Prop := {
  cf_writing : IsWriting ch = true → Buffer.content (TcpConnection.output_buffer_ cn) ≠ [];
  cf_pending : TcpConnection.state_ cn ≠ kDisconnected →
    Buffer.content (TcpConnection.output_buffer_ cn) ≠ [] → IsWriting ch = true;
  cf_connecting : TcpConnection.state_ cn = kConnecting →
    Channel.index_ ch = kNew ∧ Buffer.content (TcpConnection.output_buffer_ cn) = [];
}.

Record conn_ok w (c : nat) (cn : TcpConnection.t) : Prop := {
  ck_loop : is_Some (loops w !! TcpConnection.loop_ cn);
  ck_channel : ∃ ch, channels w !! TcpConnection.channel_ cn = Some ch ∧
    Channel.loop_ ch = TcpConnection.loop_ cn ∧ Channel.fd_ ch = TcpConnection.socket_ cn ∧
    Channel.read_callback_ ch = Some (CbConnRead c) ∧ conn_flow cn ch;
  ck_input : Buffer.wf (TcpConnection.input_buffer_ cn);
  ck_output : Buffer.wf (TcpConnection.output_buffer_ cn);
  ck_connection : is_Some (TcpConnection.connection_callback_ cn);
  ck_message : is_Some (TcpConnection.message_callback_ cn);
  ck_close : close_ok w (TcpConnection.close_callback_ cn);
}.

Record loop_ok w (l : nat) (lp : EventLoop.t) : Prop := {
  lk_poller : is_Some (pollers w !! l);
  lk_wakeup : ∃ ch, channels w !! EventLoop.wakeup_channel_ lp = Some ch ∧
    Channel.loop_ ch = l ∧ Channel.fd_ ch = EventLoop.wakeup_fd_ lp ∧
    Channel.read_callback_ ch = Some (CbLoopRead l);
  lk_pending : Forall (functor_ok w) (EventLoop.pending_functors_ lp);
  lk_est : est_ok w l (EventLoop.pending_functors_ lp);
}.

Record pool_ok w (p : EventLoopThreadPool.t) : Prop := {
  pk_base : is_Some (loops w !! EventLoopThreadPool.base_loop_ p);
  pk_loops : Forall (λ l, is_Some (loops w !! l)) (EventLoopThreadPool.loops_ p);
  pk_size : zlen (EventLoopThreadPool.loops_ p) ≤ INT_MAX;
  pk_next : 0 ≤ EventLoopThreadPool.next_ p <
    1 `max` zlen (EventLoopThreadPool.loops_ p);
}.

Record server_ok w (s : nat) (sv : TcpServer.t) : Prop := {
  sk_loop : is_Some (loops w !! TcpServer.loop_ sv);
  sk_channel : ∃ ch, channels w !! Acceptor.accept_channel_ (TcpServer.acceptor_ sv) = Some ch ∧
    Channel.fd_ ch = Acceptor.accept_socket_ (TcpServer.acceptor_ sv) ∧
    Channel.read_callback_ ch = Some (CbAcceptorRead s);
  sk_new : Acceptor.new_connection_callback_ (TcpServer.acceptor_ sv) = Some s;
  sk_pool : pool_ok w (TcpServer.thread_pool_ sv);
  sk_connection : is_Some (TcpServer.connection_callback_ sv);
  sk_message : is_Some (TcpServer.message_callback_ sv);
  sk_connections : map_Forall (λ _ c, is_Some (conns w !! c)) (TcpServer.connections_ sv);
}.

Record world_ok w : Prop := {
  wo_reactor : reactor_ok w;
  wo_loops l lp : loops w !! l = Some lp → loop_ok w l lp;
  wo_conns c cn : conns w !! c = Some cn → conn_ok w c cn;
  wo_servers s sv : servers w !! s = Some sv → server_ok w s sv;
  wo_callbacks x ch : channels w !! x = Some ch → Forall (callback_ok w x) (channel_callbacks ch);
  wo_calls : Forall (call_ok w) (calls w);
}.

(** ** Growth *)

(** What a connection sent, and has still to send. *)
Definition stream w (cn : TcpConnection.t) : list byte :=
  out_stream (obs w) (TcpConnection.socket_ cn) ++
  Buffer.content (TcpConnection.output_buffer_ cn).

(** [ext k]: at most [k] new connections were numbered. *)
Record ext (k : Z) w w' : Prop := {
  ex_loops l lp : loops w !! l = Some lp →
    ∃ lp', loops w' !! l = Some lp' ∧ loop_id lp' = loop_id lp;
  ex_channels x ch : channels w !! x = Some ch →
    ∃ ch', channels w' !! x = Some ch' ∧ chan_fixed ch' = chan_fixed ch;
  ex_pollers l : is_Some (pollers w !! l) → is_Some (pollers w' !! l);
  ex_conns c cn : conns w !! c = Some cn →
    ∃ cn', conns w' !! c = Some cn' ∧ conn_fixed cn' = conn_fixed cn ∧
      (rank (TcpConnection.state_ cn) ≤ rank (TcpConnection.state_ cn'))%nat ∧
      stream w cn `prefix_of` stream w' cn';
  ex_servers s sv : servers w !! s = Some sv →
    ∃ sv', servers w' !! s = Some sv' ∧ server_fixed sv' = server_fixed sv ∧
      TcpServer.next_conn_id_ sv ≤ TcpServer.next_conn_id_ sv' ≤ TcpServer.next_conn_id_ sv + k;
}.

Lemma ext_refl k w : 0 ≤ k → ext k w w.
Proof. intros Hk. split; eauto with lia. Qed.

Lemma ext_trans k1 k2 w1 w2 w3 : ext k1 w1 w2 → ext k2 w2 w3 → ext (k1 + k2) w1 w3.
Proof.
  intros [] []. split; [| | auto | |].
  - intros l lp (lp2 & Hl2 & <-)%ex_loops0. by apply ex_loops1 in Hl2.
  - intros x ch (ch2 & Hx2 & <-)%ex_channels0. by apply ex_channels1 in Hx2.
  - intros c cn (cn2 & Hc2 & <- & ? & Hp)%ex_conns0. apply ex_conns1 in Hc2 as (cn3 & ? & ? & ? & ?).
    exists cn3. split_and!; [done.. | lia |]. by etrans.
  - intros s sv (sv2 & Hs2 & <- & ?)%ex_servers0. apply ex_servers1 in Hs2 as (sv3 & ? & ? & ?).
    exists sv3. split_and!; [done.. | lia | lia].
Qed.

Lemma ext_0_l k w1 w2 w3 : ext 0 w1 w2 → ext k w2 w3 → ext k w1 w3.
Proof. apply (ext_trans 0 k). Qed.

Lemma ext_0_r k w1 w2 w3 : ext k w1 w2 → ext 0 w2 w3 → ext k w1 w3.
Proof. rewrite <- (Z.add_0_r k) at 2. apply ext_trans. Qed.

Lemma ext_weaken k k' w w' : k ≤ k' → ext k w w' → ext k' w w'.
Proof.
  intros Hk []. split; try done. intros s sv (sv' & ? & ? & ?)%ex_servers0.
  exists sv'. split_and!; [done.. | lia | lia].
Qed.

(** ** Monotonicity *)

Section mono.
Context (k : Z) w w' (Hext : ext k w w').

Lemma ext_conn_some c : is_Some (conns w !! c) → is_Some (conns w' !! c).
Proof. intros [cn (cn' & -> & _)%(ex_conns _ _ _ Hext)]. by eexists. Qed.

Lemma ext_loop_some l : is_Some (loops w !! l) → is_Some (loops w' !! l).
Proof. intros [lp (lp' & -> & _)%(ex_loops _ _ _ Hext)]. by eexists. Qed.

Lemma ext_server_some s : is_Some (servers w !! s) → is_Some (servers w' !! s).
Proof. intros [sv (sv' & -> & _)%(ex_servers _ _ _ Hext)]. by eexists. Qed.

Lemma ext_channel_some x : is_Some (channels w !! x) → is_Some (channels w' !! x).
Proof. intros [ch (ch' & -> & _)%(ex_channels _ _ _ Hext)]. by eexists. Qed.

Hint Resolve ext_conn_some ext_loop_some ext_server_some ext_channel_some : core.

Lemma established_ext c : established w c → established w' c.
Proof.
  intros (cn & (cn' & ? & _ & Hr & _)%(ex_conns _ _ _ Hext) & Hs). exists cn'. split; [done |].
  intros Hs'. rewrite Hs' in Hr. by destruct (TcpConnection.state_ cn); cbn in Hr; [| lia..].
Qed.

Hint Resolve established_ext : core.

Lemma functor_ok_ext f : functor_ok w f → functor_ok w' f.
Proof.
  destruct f; cbn; try tauto; try (intros []; split); eauto;
    intros (cn & (cn' & ? & Hf & _)%(ex_conns _ _ _ Hext) & ?);
    exists cn'; (split; [done |]); unfold conn_fixed in Hf; congruence.
Qed.

Lemma callback_ok_ext x cb : callback_ok w x cb → callback_ok w' x cb.
Proof.
  destruct cb; cbn; auto;
    intros (cn & (cn' & ? & Hf & _)%(ex_conns _ _ _ Hext) & ?);
    exists cn'; (split; [done |]); unfold conn_fixed in Hf; congruence.
Qed.

Lemma close_ok_ext cb : close_ok w cb → close_ok w' cb.
Proof. destruct cb as [[|]|]; cbn; [done | intros []; auto | done]. Qed.

Lemma call_ok_ext c : call_ok w c → call_ok w' c.
Proof. unfold call_ok. destruct (call_conn c); auto. Qed.

(** A connection whose record, and whose channel's events, are the same. *)
Lemma conn_ok_ext c cn :
  (∀ ch, channels w !! TcpConnection.channel_ cn = Some ch →
     ∃ ch', channels w' !! TcpConnection.channel_ cn = Some ch' ∧
       Channel.events_ ch' = Channel.events_ ch ∧ Channel.index_ ch' = Channel.index_ ch) →
  conn_ok w c cn → conn_ok w' c cn.
Proof.
  intros Hev [? (ch & Hx & ? & ? & ? & [Hw Hp Hc]) ?????]. split; eauto using close_ok_ext.
  destruct (ex_channels _ _ _ Hext _ _ Hx) as (ch' & Hx' & Hf).
  destruct (Hev ch Hx) as (ch0 & Hx0 & He & Hi).
  rewrite Hx' in Hx0. injection Hx0 as <-. unfold chan_fixed in Hf.
  exists ch'. split_and!; [done | congruence.. |].
  split; unfold IsWriting in *; by rewrite ?He, ?Hi.
Qed.

Lemma loop_ok_ext l lp lp' :
  loop_id lp' = loop_id lp → Forall (functor_ok w') (EventLoop.pending_functors_ lp') →
  est_ok w' l (EventLoop.pending_functors_ lp') →
  loop_ok w l lp → loop_ok w' l lp'.
Proof.
  intros Hid Hpend Hest [Hp (ch & Hx & ? & ? & ?) _ _].
  destruct (ex_channels _ _ _ Hext _ _ Hx) as (ch' & Hx' & Hf).
  unfold loop_id, chan_fixed in *. split; [by apply (ex_pollers _ _ _ Hext) | | done | done].
  exists ch'. split_and!; congruence.
Qed.

(** What is still to be established stays so, but for connection [e]. *)
Definition keeps (e : option nat) : Prop := ∀ c cn,
  e ≠ Some c → conns w !! c = Some cn → TcpConnection.state_ cn = kConnecting →
  ∃ cn', conns w' !! c = Some cn' ∧ TcpConnection.state_ cn' = kConnecting.

Lemma est_ok_ext e l fs :
  keeps e → (∀ c, e = Some c → c ∉ est_ids fs) → est_ok w l fs → est_ok w' l fs.
Proof.
  intros Hk He [Hnd Hc]. split; [done |]. intros c Hin.
  destruct (Hc c Hin) as (cn & Hcn & Hl & Hst).
  destruct (Hk c cn) as (cn' & Hcn' & Hst'); [by intros Hec; apply (He c) | done | done |].
  exists cn'. split_and!; [done | | done].
  destruct (ex_conns _ _ _ Hext _ _ Hcn) as (cn0 & Hcn0 & Hf & _).
  rewrite Hcn' in Hcn0. injection Hcn0 as <-. unfold conn_fixed in Hf. congruence.
Qed.

Lemma pool_ok_ext p : pool_ok w p → pool_ok w' p.
Proof. intros []. split; eauto using Forall_impl. Qed.

Lemma server_ok_ext s sv : server_ok w s sv → server_ok w' s sv.
Proof.
  intros [? (ch & Hx & ? & ?) ? ? ? ? ?]. split; eauto using pool_ok_ext.
  - destruct (ex_channels _ _ _ Hext _ _ Hx) as (ch' & Hx' & Hf). unfold chan_fixed in Hf.
    exists ch'. split_and!; congruence.
  - eapply map_Forall_impl; [done |]. intros. cbn in *. by apply ext_conn_some.
Qed.
End mono.
End inv.
