(* ===== verification/WorldSteps.v ===== *)
(** * Steps that keep the invariant

    The ways the handlers change the world, each with the proof that
    [world_ok] and [ext] follow from what is local to the change: queueing a
    functor, logging, recording a call, and changing one connection with its
    channel. *)

From S2P Require Import Prelude Format Kernel Buffer Objects PollerOps ChannelOps ReactorInv PollInv ReactorLife LoopOps LoopInv ConnOps ServerOps WorldInv.

Section steps.
Context {E : Type} `{KernelLaws E}.
Implicit Types w : World E.

(** No functor that is queued establishes [e]. *)
Definition not_queued (e : option nat) w : Prop :=
  ∀ c l lp, e = Some c → loops w !! l = Some lp →
    c ∉ est_ids (EventLoop.pending_functors_ lp).

(** The postcondition of the operations: at most [k] connections numbered;
    of those there were, none established and none queued to be but [e]. *)
Record grows (k : Z) (e : option nat) w w' : Prop := {
  gr_ok : world_ok w';
  gr_ext : ext k w w';
  gr_keeps : keeps w w' e;
  gr_queued c : e ≠ Some c → is_Some (conns w !! c) →
    not_queued (Some c) w → not_queued (Some c) w';
  gr_no_server s : servers w !! s = None → servers w' !! s = None;
}.

Lemma keeps_none e w w' : keeps w w' None → keeps w w' e.
Proof. intros Hk c cn _. by apply Hk. Qed.

Lemma keeps_trans e w1 w2 w3 : keeps w1 w2 e → keeps w2 w3 e → keeps w1 w3 e.
Proof.
  intros H1 H2 c cn He Hc Hs. destruct (H1 c cn He Hc Hs) as (cn2 & Hc2 & Hs2). by apply (H2 c cn2).
Qed.

Lemma grows_refl k e w : 0 ≤ k → world_ok w → grows k e w w.
Proof. intros. split; [done | by apply ext_refl | intros c cn _; eauto | done | done]. Qed.

Lemma grows_trans k1 k2 e w1 w2 w3 :
  grows k1 e w1 w2 → grows k2 e w2 w3 → grows (k1 + k2) e w1 w3.
Proof.
  intros [] []. split; [done | by eapply ext_trans | by eapply keeps_trans | | by auto].
  intros c He Hc Hq. apply gr_queued1; [done | by eapply ext_conn_some | auto].
Qed.

Lemma grows_weaken k k' e w w' : k ≤ k' → grows k None w w' → grows k' e w w'.
Proof.
  intros ? []. split; [done | by eapply ext_weaken | by apply keeps_none | | done].
  intros c _. by apply gr_queued0.
Qed.

(** First an operation that neither numbers nor establishes a connection. *)
Lemma grows_0 k e w1 w2 w3 : grows 0 None w1 w2 → grows k e w2 w3 → grows k e w1 w3.
Proof.
  intros H1 H2. apply (grows_trans 0 k e w1 w2 w3); [| done].
  by apply (grows_weaken 0 0).
Qed.

Lemma grows_0_r k e w1 w2 w3 : grows k e w1 w2 → grows 0 None w2 w3 → grows k e w1 w3.
Proof.
  intros H1 H2. rewrite <- (Z.add_0_r k). apply (grows_trans k 0 e w1 w2 w3); [done |].
  by apply (grows_weaken 0 0).
Qed.

(** ** Descriptors of the objects are different *)

Lemma wakeup_fd_other w l lp c cn :
  world_ok w → loops w !! l = Some lp → conns w !! c = Some cn →
  TcpConnection.socket_ cn ≠ EventLoop.wakeup_fd_ lp.
Proof.
  intros Hok Hl Hc Heq.
  destruct (lk_wakeup _ _ _ (wo_loops w Hok l lp Hl)) as (ch1 & Hx1 & _ & Hf1 & Hr1).
  destruct (ck_channel _ _ _ (wo_conns w Hok c cn Hc)) as (ch2 & Hx2 & _ & Hf2 & Hr2 & _).
  assert (EventLoop.wakeup_channel_ lp = TcpConnection.channel_ cn) as Hx
    by (eapply (ro_fd w (wo_reactor w Hok)); eauto; congruence).
  congruence.
Qed.

Lemma conn_channel_inj w c1 c2 cn1 cn2 :
  world_ok w → conns w !! c1 = Some cn1 → conns w !! c2 = Some cn2 →
  TcpConnection.channel_ cn1 = TcpConnection.channel_ cn2 → c1 = c2.
Proof.
  intros Hok Hc1 Hc2 Heq.
  destruct (ck_channel _ _ _ (wo_conns w Hok c1 cn1 Hc1)) as (ch1 & Hx1 & _ & _ & Hr1 & _).
  destruct (ck_channel _ _ _ (wo_conns w Hok c2 cn2 Hc2)) as (ch2 & Hx2 & _ & _ & Hr2 & _).
  rewrite Heq in Hx1. congruence.
Qed.

Lemma conn_socket_inj w c1 c2 cn1 cn2 :
  world_ok w → conns w !! c1 = Some cn1 → conns w !! c2 = Some cn2 →
  TcpConnection.socket_ cn1 = TcpConnection.socket_ cn2 → c1 = c2.
Proof.
  intros Hok Hc1 Hc2 Heq. apply (conn_channel_inj w c1 c2 cn1 cn2); try done.
  destruct (ck_channel _ _ _ (wo_conns w Hok c1 cn1 Hc1)) as (ch1 & Hx1 & _ & Hf1 & _).
  destruct (ck_channel _ _ _ (wo_conns w Hok c2 cn2 Hc2)) as (ch2 & Hx2 & _ & Hf2 & _).
  eapply (ro_fd w (wo_reactor w Hok)); eauto; congruence.
Qed.

(** ** The loops change *)

(** Every loop keeps its identity, and what it has queued is in order: of
    the functors that establish a connection, only that of [e] is new. *)
Record loops_grow (e : option nat) w w' : Prop := {
  lg_dom l : is_Some (loops w !! l) → is_Some (loops w' !! l);
  lg_loop l lp' : loops w' !! l = Some lp' → ∃ lp, loops w !! l = Some lp ∧
    loop_id lp' = loop_id lp ∧
    (∀ f, f ∈ EventLoop.pending_functors_ lp' →
      f ∈ EventLoop.pending_functors_ lp ∨ functor_ok w f) ∧
    (est_ok w l (EventLoop.pending_functors_ lp) →
     est_ok w l (EventLoop.pending_functors_ lp')) ∧
    (∀ c, e ≠ Some c → c ∈ est_ids (EventLoop.pending_functors_ lp') →
     c ∈ est_ids (EventLoop.pending_functors_ lp));
}.

Lemma loops_grow_intro e w w' l lp lp' :
  loops w !! l = Some lp → loops w' = <[l := lp']> (loops w) → loop_id lp' = loop_id lp →
  (∀ f, f ∈ EventLoop.pending_functors_ lp' →
     f ∈ EventLoop.pending_functors_ lp ∨ functor_ok w f) →
  (est_ok w l (EventLoop.pending_functors_ lp) →
   est_ok w l (EventLoop.pending_functors_ lp')) →
  (∀ c, e ≠ Some c → c ∈ est_ids (EventLoop.pending_functors_ lp') →
   c ∈ est_ids (EventLoop.pending_functors_ lp)) →
  loops_grow e w w'.
Proof.
  intros Hl Hls Hid Hp Hest He. split; intros l'; rewrite Hls, lookup_insert.
  - intros ?. by case_decide.
  - intros lp0. case_decide; [intros [= <-]; subst l'; by exists lp |].
    intros Hl'. exists lp0. split_and!; auto.
Qed.

Lemma est_ok_sublist w l fs fs' : est_ids fs' `sublist_of` est_ids fs → est_ok w l fs → est_ok w l fs'.
Proof.
  intros Hs%sublist_submseteq [Hnd Hc]. split.
  - apply submseteq_Permutation in Hs as [k Hk]. rewrite Hk in Hnd. by apply NoDup_app in Hnd as [? _].
  - intros c Hin. apply Hc. exact (elem_of_submseteq _ _ _ Hin Hs).
Qed.

Lemma loops_grow_insert w w' l lp lp' :
  loops w !! l = Some lp → loops w' = <[l := lp']> (loops w) → loop_id lp' = loop_id lp →
  (∀ f, f ∈ EventLoop.pending_functors_ lp' →
     f ∈ EventLoop.pending_functors_ lp ∨ functor_ok w f) →
  est_ids (EventLoop.pending_functors_ lp') `sublist_of`
    est_ids (EventLoop.pending_functors_ lp) →
  loops_grow None w w'.
Proof.
  intros Hl Hls Hid Hp Hs. eapply loops_grow_intro; [done.. | by apply est_ok_sublist |].
  intros c _ Hin. exact (elem_of_submseteq _ _ _ Hin (sublist_submseteq _ _ Hs)).
Qed.

Lemma loops_grow_queued e w w' c :
  loops_grow e w w' → e ≠ Some c → not_queued (Some c) w → not_queued (Some c) w'.
Proof.
  intros Hg He Hq d l lp' [= <-] Hl'. destruct (lg_loop _ _ _ Hg l lp' Hl') as (lp & Hl & _ & _ & _ & Hs).
  intros Hin. by eapply Hq, Hs.
Qed.

Lemma loops_grow_same e w w' : loops w' = loops w → loops_grow e w w'.
Proof. intros He. split; intros l; rewrite He; [done |]. intros lp. exists lp. split_and!; auto. Qed.

Definition chan_state (ch : Channel.t) :=
  (chan_fixed ch, (Channel.events_ ch, Channel.index_ ch)).

(** Connections and servers are the same, and so is what the invariant says
    of the channels of connections. *)
Record same_conns w w' : Prop := {
  sn_channels x : chan_fixed <$> channels w' !! x = chan_fixed <$> channels w !! x;
  sn_events c cn : conns w !! c = Some cn →
    chan_state <$> channels w' !! TcpConnection.channel_ cn =
    chan_state <$> channels w !! TcpConnection.channel_ cn;
  sn_pollers l : is_Some (pollers w !! l) → is_Some (pollers w' !! l);
  sn_conns : conns w' = conns w;
  sn_servers : servers w' = servers w;
  sn_calls c : c ∈ calls w' → c ∈ calls w ∨ call_ok w c;
  sn_out c cn : conns w !! c = Some cn →
    out_stream (obs w') (TcpConnection.socket_ cn) = out_stream (obs w) (TcpConnection.socket_ cn);
}.

Lemma same_conns_channel w w' x ch' :
  same_conns w w' → channels w' !! x = Some ch' → ∃ ch, channels w !! x = Some ch ∧
    chan_fixed ch' = chan_fixed ch.
Proof.
  intros Hs Hx. pose proof (sn_channels _ _ Hs x) as He. rewrite Hx in He. symmetry in He.
  apply fmap_Some in He as (ch & ? & ?). by exists ch.
Qed.

Lemma same_conns_sym_channel w w' x ch :
  same_conns w w' → channels w !! x = Some ch → ∃ ch', channels w' !! x = Some ch' ∧
    chan_fixed ch' = chan_fixed ch.
Proof.
  intros Hs Hx. pose proof (sn_channels _ _ Hs x) as He. rewrite Hx in He.
  apply fmap_Some in He as (ch' & ? & ?). by exists ch'.
Qed.

Lemma same_conns_ext e w w' : same_conns w w' → loops_grow e w w' → ext 0 w w'.
Proof.
  intros Hs [Hd Hl]. split.
  - intros l lp Hlp. destruct (Hd l ltac:(by eexists)) as [lp' Hlp'].
    destruct (Hl l lp' Hlp') as (lp0 & ? & ? & _). exists lp'. split; [done | congruence].
  - intros x ch. by apply same_conns_sym_channel.
  - apply (sn_pollers _ _ Hs).
  - intros c cn Hc. rewrite (sn_conns _ _ Hs). exists cn. split_and!; [done | done | done |].
    unfold stream. by erewrite (sn_out _ _ Hs).
  - intros s sv. rewrite (sn_servers _ _ Hs). eauto with lia.
Qed.

Lemma grows_same_conns e w w' :
  world_ok w → reactor_ok w' → same_conns w w' → loops_grow e w w' → grows 0 e w w'.
Proof.
  intros Hok Hr Hs Hg. pose proof (same_conns_ext e w w' Hs Hg) as Hext.
  assert (keeps w w' None) as Hk
    by (intros c cn _ Hc Hst; exists cn; by rewrite (sn_conns _ _ Hs)).
  split; [| done | by apply keeps_none | by intros c He _; eapply loops_grow_queued |
    by rewrite (sn_servers _ _ Hs)].
  split; [done | | | | |].
  - intros l lp' Hlp'. destruct (lg_loop _ _ _ Hg l lp' Hlp') as (lp & Hlp & Hid & Hf & He & _).
    pose proof (wo_loops w Hok l lp Hlp) as Hlk.
    eapply loop_ok_ext; [done | done | | | done]; last first.
    { eapply est_ok_ext; [done | exact Hk | done |]. apply He, Hlk. }
    apply Forall_forall. intros f Hin.
    eapply functor_ok_ext; [done |]. destruct (Hf f Hin); [| done].
    by eapply (proj1 (Forall_forall _ _) (lk_pending _ _ _ Hlk)).
  - intros c cn. rewrite (sn_conns _ _ Hs). intros Hc.
    eapply conn_ok_ext; [done | | by apply Hok]. intros ch Hx.
    pose proof (sn_events _ _ Hs c cn Hc) as He. rewrite Hx in He.
    apply fmap_Some in He as (ch' & ? & [= _ _ _ _ _ _ ? ?]). by exists ch'.
  - intros s sv. rewrite (sn_servers _ _ Hs). intros Hsv%(wo_servers w Hok).
    by eapply server_ok_ext.
  - intros x ch' (ch & Hx & Hf)%(same_conns_channel _ _ _ _ Hs).
    pose proof (wo_callbacks w Hok x ch Hx) as Hall. unfold channel_callbacks in *.
    injection Hf as _ _ -> -> -> ->.
    eapply Forall_impl; [exact Hall |]. intros. by eapply callback_ok_ext.
  - apply Forall_forall. intros c Hin. eapply call_ok_ext; [done |].
    destruct (sn_calls _ _ Hs c Hin); [| done].
    by eapply (proj1 (Forall_forall _ _) (wo_calls w Hok)).
Qed.

Lemma grows_quiet e fd w w' :
  world_ok w → quiet fd w w' → loops_grow e w w' →
  (∀ c cn, conns w !! c = Some cn → TcpConnection.socket_ cn ≠ fd) →
  grows 0 e w w'.
Proof.
  intros Hok Hq Hg Hfd. apply grows_same_conns; [done | | | done].
  - apply (quiet_reactor _ _ _ Hq), Hok.
  - split; intros *; rewrite ?(qt_tid _ _ _ Hq), ?(qt_channels _ _ _ Hq), ?(qt_pollers _ _ _ Hq),
      ?(qt_conns _ _ _ Hq), ?(qt_servers _ _ _ Hq), ?(qt_calls _ _ _ Hq); auto.
    intros ?. apply (qt_out _ _ _ Hq). by eapply Hfd.
Qed.

Lemma grows_log w f : world_ok w → grows 0 None w (w <| log ::= f |>).
Proof.
  intros Hok. apply grows_same_conns; [done | | | by apply loops_grow_same].
  - apply (reactor_ok_obs w); [apply Hok | done..].
  - split; upd_simpl; auto.
Qed.

Lemma grows_env w e' :
  world_ok w → observe e' = obs w → grows 0 None w (w <| env := e' |>).
Proof.
  intros Hok He. apply grows_same_conns; [done | | | by apply loops_grow_same].
  - apply (reactor_ok_obs w); [apply Hok | ..]; upd_simpl; by rewrite ?He.
  - split; upd_simpl; auto. intros ???. by rewrite He.
Qed.

(** Something was shut down, or came in. *)
Lemma grows_env_io w e' :
  world_ok w → k_interest (observe e') = k_interest (obs w) →
  k_open (observe e') = k_open (obs w) → k_out (observe e') = k_out (obs w) →
  grows 0 None w (w <| env := e' |>).
Proof.
  intros Hok Hi Ho Hk. apply grows_same_conns; [done | | | by apply loops_grow_same].
  - apply (reactor_ok_obs w); [apply Hok | ..]; by upd_simpl.
  - split; upd_simpl; auto. intros ???. unfold out_stream. by rewrite Hk.
Qed.

Lemma grows_call w c : world_ok w → call_ok w c → grows 0 None w (w <| calls ::= cons c |>).
Proof.
  intros Hok Hc. apply grows_same_conns; [done | | | by apply loops_grow_same].
  - apply (reactor_ok_obs w); [apply Hok | done..].
  - split; upd_simpl; auto. intros c' [->|?]%elem_of_cons; auto.
Qed.

Lemma grows_queued l lp f w w' :
  world_ok w → loops w !! l = Some lp → functor_ok w f → est_ids [f] = [] →
  queued l lp f w w' → grows 0 None w w'.
Proof.
  intros Hok Hl Hf He [Hq Hls]. eapply grows_quiet; [done | done | |].
  - eapply loops_grow_insert; [done | done | done | |]; upd_simpl.
    + intros f' [?| ->%list_elem_of_singleton]%elem_of_app; auto.
    + unfold est_ids in *. by rewrite omap_app, He, app_nil_r.
  - intros c cn Hc. by eapply wakeup_fd_other.
Qed.

(** ** A connection and its channel change *)

Record conn_change w w' (c : nat) (cn cn' : TcpConnection.t) (ch ch' : Channel.t) : Prop := {
  cc_conns : conns w' = <[c := cn']> (conns w);
  cc_fixed : conn_fixed cn' = conn_fixed cn;
  cc_channels : channels w' = <[TcpConnection.channel_ cn := ch']> (channels w);
  cc_chan : chan_fixed ch' = chan_fixed ch;
  cc_tid : tid w' = tid w;
  cc_loops : loops w' = loops w;
  cc_servers : servers w' = servers w;
  cc_calls : calls w' = calls w;
  cc_pollers l : is_Some (pollers w !! l) → is_Some (pollers w' !! l);
  cc_out fd : fd ≠ TcpConnection.socket_ cn → out_stream (obs w') fd = out_stream (obs w) fd;
}.

Section change.
Context w w' (c : nat) (cn cn' : TcpConnection.t) (ch ch' : Channel.t).
Context (Hok : world_ok w) (Hc : conns w !! c = Some cn)
  (Hx : channels w !! TcpConnection.channel_ cn = Some ch)
  (Hch : conn_change w w' c cn cn' ch ch').

Lemma change_ext :
  (rank (TcpConnection.state_ cn) ≤ rank (TcpConnection.state_ cn'))%nat →
  stream w cn `prefix_of` stream w' cn' → ext 0 w w'.
Proof.
  intros Hr Hp. split.
  - intros l lp. rewrite (cc_loops _ _ _ _ _ _ _ Hch). eauto.
  - intros x chx Hchx. rewrite (cc_channels _ _ _ _ _ _ _ Hch), lookup_insert.
    case_decide; [subst x | by eauto]. exists ch'. split; [done |].
    rewrite Hx in Hchx. injection Hchx as <-. apply Hch.
  - apply Hch.
  - intros d dn Hd. rewrite (cc_conns _ _ _ _ _ _ _ Hch), lookup_insert.
    case_decide as Hcd; [subst d | exists dn; split_and!; try done].
    + rewrite Hc in Hd. injection Hd as <-. exists cn'. split_and!; [done | apply Hch | done..].
    + unfold stream. rewrite (cc_out _ _ _ _ _ _ _ Hch); [done |]. intros Heq.
      by destruct Hcd; eapply (conn_socket_inj w c d cn dn).
  - intros s sv. rewrite (cc_servers _ _ _ _ _ _ _ Hch). eauto with lia.
Qed.

Lemma change_other_channel d dn :
  c ≠ d → conns w !! d = Some dn →
  channels w' !! TcpConnection.channel_ dn = channels w !! TcpConnection.channel_ dn.
Proof.
  intros Hne Hd. rewrite (cc_channels _ _ _ _ _ _ _ Hch), lookup_insert_ne; [done |].
  intros Heq. by destruct Hne; eapply (conn_channel_inj w c d cn dn).
Qed.

Lemma change_conn_ok :
  ext 0 w w' → Buffer.wf (TcpConnection.input_buffer_ cn') →
  Buffer.wf (TcpConnection.output_buffer_ cn') → conn_flow cn' ch' → conn_ok w' c cn'.
Proof.
  intros Hext Hin Hout Hflow. destruct (wo_conns w Hok c cn Hc) as [Hl Hchan _ _ Hcb Hmb Hcl].
  destruct Hchan as (ch0 & Hx0 & ? & ? & ? & _). rewrite Hx in Hx0. injection Hx0 as <-.
  pose proof (cc_fixed _ _ _ _ _ _ _ Hch) as Hf. pose proof (cc_chan _ _ _ _ _ _ _ Hch) as Hcf.
  unfold conn_fixed, chan_fixed in *. injection Hf as Hf1 _ Hf3 Hchx Hf5 Hf6 Hf7 _ _ _.
  injection Hcf as ? ? ? _ _ _. split; rewrite ?Hf1, ?Hf3, ?Hf5, ?Hf6, ?Hf7; try done.
  - by eapply ext_loop_some.
  - exists ch'. rewrite Hchx, (cc_channels _ _ _ _ _ _ _ Hch), lookup_insert_eq.
    split_and!; [done | congruence.. | done].
  - by eapply close_ok_ext.
Qed.

Lemma grows_conn e :
  reactor_ok w' → Buffer.wf (TcpConnection.input_buffer_ cn') →
  Buffer.wf (TcpConnection.output_buffer_ cn') → conn_flow cn' ch' →
  (rank (TcpConnection.state_ cn) ≤ rank (TcpConnection.state_ cn'))%nat →
  stream w cn `prefix_of` stream w' cn' →
  (e ≠ Some c → TcpConnection.state_ cn = kConnecting → TcpConnection.state_ cn' = kConnecting) →
  not_queued e w → grows 0 e w w'.
Proof.
  intros Hro Hin Hout Hflow Hr Hp Hst Hnq. pose proof (change_ext Hr Hp) as Hext.
  assert (keeps w w' e) as Hk.
  { intros d dn He Hd Hs. rewrite (cc_conns _ _ _ _ _ _ _ Hch), lookup_insert.
    case_decide; [subst d | by eauto]. rewrite Hc in Hd. injection Hd as <-. eauto. }
  split; [| done | done | | by rewrite (cc_servers _ _ _ _ _ _ _ Hch)]; last first.
  { intros d _ _. unfold not_queued. by rewrite (cc_loops _ _ _ _ _ _ _ Hch). }
  split; [done | | | | |].
  - intros l lp. rewrite (cc_loops _ _ _ _ _ _ _ Hch). intros Hl.
    pose proof (wo_loops w Hok l lp Hl) as Hlk.
    eapply loop_ok_ext; [done | done | | | done].
    + eapply Forall_impl; [apply Hlk |]. intros. by eapply functor_ok_ext.
    + eapply est_ok_ext; [done | exact Hk | | apply Hlk]. intros d ?. by eapply Hnq.
  - intros d dn. rewrite (cc_conns _ _ _ _ _ _ _ Hch), lookup_insert.
    case_decide; [intros [= <-]; subst d; by apply change_conn_ok |]. intros Hd.
    eapply conn_ok_ext; [done | | by apply Hok]. intros chd.
    rewrite (change_other_channel d dn) by done. eauto.
  - intros s sv. rewrite (cc_servers _ _ _ _ _ _ _ Hch). intros Hs%(wo_servers w Hok).
    by eapply server_ok_ext.
  - intros x chx. rewrite (cc_channels _ _ _ _ _ _ _ Hch), lookup_insert. case_decide; [subst x |].
    + intros [= <-]. pose proof (wo_callbacks w Hok _ ch Hx) as Hall.
      pose proof (cc_chan _ _ _ _ _ _ _ Hch) as Hcf. unfold channel_callbacks in *.
      injection Hcf as _ _ -> -> -> ->.
      eapply Forall_impl; [exact Hall |]. intros. by eapply callback_ok_ext.
    + intros Hchx. eapply Forall_impl; [by apply (wo_callbacks w Hok) |].
      intros. by eapply callback_ok_ext.
  - rewrite (cc_calls _ _ _ _ _ _ _ Hch). eapply Forall_impl; [apply Hok |].
    intros. by eapply call_ok_ext.
Qed.
End change.

(** The changes of the handlers: members of the connection alone, *)
Lemma conn_change_conn w c cn cn' ch :
  conns w !! c = Some cn → channels w !! TcpConnection.channel_ cn = Some ch →
  conn_fixed cn' = conn_fixed cn →
  conn_change w (w <| conns ::= <[c := cn']> |>) c cn cn' ch ch.
Proof. intros ???. split; upd_simpl; try done. by rewrite insert_id. Qed.

(** the channel alone. *)
Lemma conn_change_chan w w' c cn ch ch' :
  conns w !! c = Some cn → channels w !! TcpConnection.channel_ cn = Some ch →
  chan_step w w' (TcpConnection.channel_ cn) ch' → chan_fixed ch' = chan_fixed ch →
  conn_change w w' c cn cn ch ch'.
Proof.
  intros Hc Hx [Hcs [] Hps _] Hf. split; try done.
  - by rewrite su_conns, insert_id.
  - intros l [p Hp]. pose proof (Hps l) as He. rewrite Hp in He.
    apply fmap_Some in He as (? & ? & _). by eexists.
  - intros fd _. unfold out_stream. by destruct su_io as [-> _ _ _].
Qed.

Lemma conn_change_trans w1 w2 w3 c cn1 cn2 cn3 ch1 ch2 ch3 :
  conn_change w1 w2 c cn1 cn2 ch1 ch2 → conn_change w2 w3 c cn2 cn3 ch2 ch3 →
  conn_change w1 w3 c cn1 cn3 ch1 ch3.
Proof.
  intros [Ha1 Hf1 Hb1] [Ha2 Hf2 Hb2]. 
  assert (TcpConnection.channel_ cn2 = TcpConnection.channel_ cn1 ∧
    TcpConnection.socket_ cn2 = TcpConnection.socket_ cn1) as [Hx Hs]
    by (unfold conn_fixed in Hf1; split; congruence).
  rewrite Hx in *. rewrite Hs in *. split; try congruence; auto.
  - by rewrite Ha2, Ha1, insert_insert_eq.
  - by rewrite Hb2, Hb1, insert_insert_eq.
  - intros fd Hfd. rewrite cc_out1, cc_out0 by done. done.
Qed.

(** ** A server changes *)

Lemma grows_server k w s sv sv' :
  world_ok w → servers w !! s = Some sv → server_fixed sv' = server_fixed sv →
  TcpServer.next_conn_id_ sv ≤ TcpServer.next_conn_id_ sv' ≤ TcpServer.next_conn_id_ sv + k →
  server_ok w s sv' → grows k None w (w <| servers ::= <[s := sv']> |>).
Proof.
  intros Hok Hs Hf Hid Hsv. set (w' := w <| servers ::= <[s := sv']> |>).
  assert (ext k w w') as Hext.
  { split; unfold w'; upd_simpl; eauto.
    intros s0 sv0 Hs0. rewrite lookup_insert.
    case_decide; [subst s0 | exists sv0; split_and!; [done | done | lia | lia]].
    rewrite Hs in Hs0. injection Hs0 as <-. by exists sv'. }
  split; [| done | by intros c cn _ Hc Hst; exists cn | done |]; last first.
  { intros s0 Hs0. unfold w'. upd_simpl. rewrite lookup_insert_ne; [done | congruence]. }
  split; unfold w'; upd_simpl.
  - apply (reactor_ok_obs w); [apply Hok | done..].
  - intros l lp Hl. pose proof (wo_loops w Hok l lp Hl) as Hlk.
    eapply loop_ok_ext; [done | done | | apply Hlk | done].
    eapply Forall_impl; [apply Hlk |]. intros. by eapply functor_ok_ext.
  - intros c cn Hc. eapply conn_ok_ext; [done | | by apply Hok]. unfold w'. upd_simpl. eauto.
  - intros s0 sv0. rewrite lookup_insert. case_decide; [subst s0; intros [= <-] |].
    + by eapply server_ok_ext.
    + intros ?. by eapply server_ok_ext, Hok.
  - intros x ch Hx. eapply Forall_impl; [by apply (wo_callbacks w Hok) |].
    intros. by eapply callback_ok_ext.
  - eapply Forall_impl; [apply Hok |]. intros. by eapply call_ok_ext.
Qed.
End steps.
