(* ===== verification/ConnInv.v ===== *)
(** * Sending, shutting down, and running application code

    Each operation keeps the invariant of the program ([grows]); for sending,
    what became of the bytes is also said exactly ([sent]). *)

From S2P Require Import Prelude Format Kernel Buffer Objects PollerOps ChannelOps ReactorInv PollInv ReactorLife LoopOps LoopInv SocketOps ConnOps ServerOps WorldInv WorldSteps.

(** ** Masks *)

Lemma has_lor_same a b : b ≠ 0 → has (Z.lor a b) b = true.
Proof.
  intros Hb. unfold has. rewrite Z.land_lor_distr_l, Z.land_diag.
  apply negb_true_iff, Z.eqb_neq. rewrite Z.lor_eq_0_iff. tauto.
Qed.

Lemma has_lor_disjoint a b c : Z.land b c = 0 → has (Z.lor a b) c = has a c.
Proof. intros Hd. unfold has. by rewrite Z.land_lor_distr_l, Hd, Z.lor_0_r. Qed.

Lemma has_land_lnot a b : has (Z.land a (Z.lnot b)) b = false.
Proof.
  unfold has. rewrite <- Z.land_assoc, (Z.land_comm _ b), Z.land_lnot_diag, Z.land_0_r. done.
Qed.

Section conn_inv.
Context {E : Type} `{KernelLaws E}.
Implicit Types w : World E.

(** The program stops with a FATAL line, or because a vector cannot grow. *)
Definition may_stop (s : stop) w : Prop := fatal_exit s w ∨ s = SThrow LengthError.

Lemma wp_fatal {A} (m : M (World E) A) Q w : wp fatal_exit m Q w → wp may_stop m Q w.
Proof. intros Hm. eapply wp_weaken; [exact Hm |]. by left. Qed.

(** ** Buffers *)

Lemma wp_on_input {A} c cn (m : E → M Buffer.t (A * E)) Q w :
  conns w !! c = Some cn →
  wp (λ s _, s = SThrow LengthError) (m (env w)) (λ '(a, e) b,
    Q a (w <| env := e |> <| conns ::= <[c := cn <| TcpConnection.input_buffer_ := b |>]> |>))
    (TcpConnection.input_buffer_ cn) →
  wp may_stop (on_input c m) Q w.
Proof.
  intros Hc. unfold wp, on_input, on_buffer. rewrite Hc.
  destruct (m _ _) as [[a e] b|code b|x b|u]; [done | done | | done].
  intros ->. by right.
Qed.

Lemma wp_on_output {A} c cn (m : E → M Buffer.t (A * E)) Q w :
  conns w !! c = Some cn →
  wp (λ s _, s = SThrow LengthError) (m (env w)) (λ '(a, e) b,
    Q a (w <| env := e |> <| conns ::= <[c := cn <| TcpConnection.output_buffer_ := b |>]> |>))
    (TcpConnection.output_buffer_ cn) →
  wp may_stop (on_output c m) Q w.
Proof.
  intros Hc. unfold wp, on_output, on_buffer. rewrite Hc.
  destruct (m _ _) as [[a e] b|code b|x b|u]; [done | done | | done].
  intros ->. by right.
Qed.

(** A change of the input buffer alone. *)
Lemma grows_input w c cn b e' :
  world_ok w → conns w !! c = Some cn → Buffer.wf b →
  k_interest (observe e') = k_interest (obs w) → k_open (observe e') = k_open (obs w) →
  k_out (observe e') = k_out (obs w) →
  grows 0 None w (w <| env := e' |>
    <| conns ::= <[c := cn <| TcpConnection.input_buffer_ := b |>]> |>).
Proof.
  intros Hok Hc Hb Hi Ho Hk. destruct (wo_conns w Hok c cn Hc) as [? (ch & Hx & _ & _ & _ & Hf) ?????].
  eapply (grows_conn w _ c cn (cn <| TcpConnection.input_buffer_ := b |>) ch ch);
    upd_simpl; try done.
  - split; upd_simpl; try done.
    { by rewrite insert_id. }
    intros fd _.
    unfold out_stream. by rewrite Hk.
  - apply (reactor_ok_obs w); [apply Hok | ..]; by upd_simpl.
  - by destruct Hf.
  - unfold stream, out_stream. upd_simpl. by rewrite Hk.
Qed.

(** ** Sending *)

(** The functors queued on a loop. *)
Definition pending w (l : nat) : list functor :=
  match loops w !! l with Some lp => EventLoop.pending_functors_ lp | None => [] end.

(** The kernel took [d] on the socket of a connection. *)
Lemma grows_out w c cn e' d :
  world_ok w → conns w !! c = Some cn →
  observe e' = add_out (TcpConnection.socket_ cn) d (obs w) →
  Buffer.content (TcpConnection.output_buffer_ cn) = [] →
  grows 0 None w (w <| env := e' |>).
Proof.
  intros Hok Hc He Hb. destruct (wo_conns w Hok c cn Hc) as [? (ch & Hx & _ & _ & _ & Hf) ?????].
  eapply (grows_conn w _ c cn cn ch ch); upd_simpl; try done.
  - split; upd_simpl; try done; [by rewrite insert_id.. |]. intros fd Hfd.
    rewrite He. by rewrite out_stream_add_out, decide_False.
  - apply (reactor_ok_obs w); [apply Hok | ..]; upd_simpl; by rewrite ?He.
  - unfold stream. upd_simpl. rewrite He, out_stream_add_out, decide_True, Hb, !app_nil_r by done.
    by eexists.
Qed.

(** What the end of [SendInLoop] does: append to the output buffer, and ask
    to be told when the socket is writable. *)
Lemma wp_append_output c cn d Q w :
  world_ok w → conns w !! c = Some cn → string_ok d → d ≠ [] →
  TcpConnection.state_ cn ≠ kConnecting →
  (∀ w' b, grows 0 None w w' →
     conns w' = <[c := cn <| TcpConnection.output_buffer_ := b |>]> (conns w) →
     Buffer.content b = Buffer.content (TcpConnection.output_buffer_ cn) ++ d →
     loops w' = loops w → k_out (obs w') = k_out (obs w) →
     (∃ ch', channels w' !! TcpConnection.channel_ cn = Some ch' ∧ IsWriting ch' = true) →
     Q tt w') →
  wp may_stop
    (on_output c (pure_op (Buffer.Append d (zlen d)));;
     ch ← the_channel (TcpConnection.channel_ cn);
     when (negb (IsWriting ch)) (EnableWriting (TcpConnection.channel_ cn))) Q w.
Proof.
  intros Hok Hc Hd Hne Hst HQ.
  pose proof (wo_conns w Hok c cn Hc) as [? (ch & Hx & _ & _ & _ & Hf) ? Hout ???].
  wp_step. eapply wp_on_output; [done |]. unfold pure_op. wp_step.
  pose proof (zlen_nonneg d).
  apply Buffer.wp_Append_or_throw; [done | lia | done | done |]. intros b Hb Hcb _. wp_step.
  rewrite ztake_all in Hcb by lia.
  set (cn' := cn <| TcpConnection.output_buffer_ := b |>).
  set (w1 := w <| env := env w |> <| conns ::= <[c := cn']> |>).
  assert (conn_change w w1 c cn cn' ch ch) as Hch1.
  { split; unfold w1; upd_simpl; try done. by rewrite insert_id. }
  assert (reactor_ok w1) as Hro1 by (apply (reactor_ok_obs w); [apply Hok | done..]).
  assert (∀ w2 ch2, reactor_ok w2 → conn_change w w2 c cn cn' ch ch2 → same_io (obs w) (obs w2) →
    IsWriting ch2 = true → Q tt w2) as Hdone.
  { intros w2 ch2 Hro Hcc Hio Hw. apply (HQ w2 b); [| apply Hcc | done | apply Hcc | apply Hio |].
    - eapply (grows_conn w w2 c cn cn' ch ch2); unfold cn'; upd_simpl; try done.
      + split; upd_simpl; [| done | done].
        intros _. rewrite Hcb. by destruct (Buffer.content _); destruct d.
      + unfold stream, out_stream. upd_simpl. rewrite (si_out _ _ Hio), Hcb, app_assoc.
        by eexists.
    - exists ch2. split; [| done]. rewrite (cc_channels _ _ _ _ _ _ _ Hcc). apply lookup_insert_eq. }
  do 2 wp_step. wp_step; bool_simpl.
  - apply wp_fatal. eapply (wp_set_events _ ch).
    + exact Hro1.
    + done.
    + apply lor_mask_bound; [| done]. by eapply co_events, ro_channel.
    + intros w2 Hs. eapply (Hdone w2); [apply Hs | | | ].
      * eapply conn_change_trans; [exact Hch1 |]. eapply conn_change_chan; [| | exact Hs | done].
        -- unfold w1. upd_simpl. by rewrite lookup_insert_eq.
        -- done.
      * apply (su_io _ _ (cs_upper _ _ _ _ Hs)).
      * unfold IsWriting. upd_simpl. by apply has_lor_same.
  - by apply (Hdone w1 ch).
Qed.

(** What [SendInLoop] did with [data]. *)
Inductive sent w w' (c : nat) (cn : TcpConnection.t) (data : list byte) : Prop :=
  | sent_down :
      TcpConnection.state_ cn = kDisconnected → conns w' = conns w →
      k_out (obs w') = k_out (obs w) → loops w' = loops w → sent w w' c cn data
  | sent_fault n err0 err e' e'' :
      sys_write (TcpConnection.socket_ cn) data (env w) = (n, err0, e') → n < 0 →
      err0 ≠ EWOULDBLOCK → log_errno err0 e' = (err, e'') →
      err = EPIPE ∨ err = ECONNRESET → conns w' = conns w →
      k_out (obs w') = k_out (obs w) → loops w' = loops w →
      log w' = Log ERROR "TcpConnection::sendInLoop" [] :: log w → sent w w' c cn data
  | sent_empty :
      data = [] → conns w' = conns w → k_out (obs w') = k_out (obs w) →
      loops w' = loops w → sent w w' c cn data
  | sent_whole :
      Buffer.content (TcpConnection.output_buffer_ cn) = [] → conns w' = conns w →
      out_stream (obs w') (TcpConnection.socket_ cn) =
        out_stream (obs w) (TcpConnection.socket_ cn) ++ data →
      pending w' (TcpConnection.loop_ cn) = pending w (TcpConnection.loop_ cn) ++
        (if decide (is_Some (TcpConnection.write_complete_callback_ cn))
         then [FnWriteComplete c] else []) →
      sent w w' c cn data
  | sent_buffered n b :
      0 ≤ n < zlen data →
      (n = 0 ∨ Buffer.content (TcpConnection.output_buffer_ cn) = []) →
      conns w' = <[c := cn <| TcpConnection.output_buffer_ := b |>]> (conns w) →
      Buffer.content b = Buffer.content (TcpConnection.output_buffer_ cn) ++ zdrop n data →
      out_stream (obs w') (TcpConnection.socket_ cn) =
        out_stream (obs w) (TcpConnection.socket_ cn) ++ ztake n data →
      (∃ ch', channels w' !! TcpConnection.channel_ cn = Some ch' ∧ IsWriting ch' = true) →
      pending w' (TcpConnection.loop_ cn) = pending w (TcpConnection.loop_ cn) ++
        (let old_len := zlen (Buffer.content (TcpConnection.output_buffer_ cn)) in
         let len := old_len + (zlen data - n) in
         if decide (TcpConnection.high_water_mark_ cn ≤ len ∧
                    old_len < TcpConnection.high_water_mark_ cn ∧
                    is_Some (TcpConnection.high_water_mark_callback_ cn))
         then [FnHighWaterMark c len] else []) →
      sent w w' c cn data.

(** A functor of a connection is queued on its loop. *)
Lemma wp_queue_own X c cn f Q w :
  world_ok w → conns w !! c = Some cn → functor_ok w f → est_ids [f] = [] →
  (∀ w', grows 0 None w w' → conns w' = conns w → channels w' = channels w →
     out_stream (obs w') (TcpConnection.socket_ cn) =
       out_stream (obs w) (TcpConnection.socket_ cn) →
     k_shut (obs w') = k_shut (obs w) →
     pending w' (TcpConnection.loop_ cn) = pending w (TcpConnection.loop_ cn) ++ [f] → Q tt w') →
  wp X (QueueInLoop (TcpConnection.loop_ cn) f) Q w.
Proof.
  intros Hok Hc Hf He HQ. destruct (ck_loop _ _ _ (wo_conns w Hok c cn Hc)) as [lp Hl].
  eapply wp_QueueInLoop; [done |]. intros w' Hq _. pose proof Hq as [Hqt Hls]. apply HQ.
  - by eapply grows_queued.
  - apply Hqt.
  - apply Hqt.
  - apply Hqt. by eapply wakeup_fd_other.
  - apply Hqt.
  - unfold pending. rewrite Hls, lookup_insert_eq, Hl. done.
Qed.

(** The part of [SendInLoop] after the attempt to write, which took [n]
    bytes. *)
Lemma wp_send_rest w0 c cn data n Q w :
  world_ok w → conns w !! c = Some cn → string_ok data → 0 ≤ n ≤ zlen data →
  TcpConnection.state_ cn ≠ kConnecting → TcpConnection.state_ cn ≠ kDisconnected →
  (n = 0 ∨ Buffer.content (TcpConnection.output_buffer_ cn) = []) →
  conns w = conns w0 →
  out_stream (obs w) (TcpConnection.socket_ cn) =
    out_stream (obs w0) (TcpConnection.socket_ cn) ++ ztake n data →
  (n < zlen data → pending w (TcpConnection.loop_ cn) = pending w0 (TcpConnection.loop_ cn)) →
  (n = zlen data → Q tt w) →
  (∀ w', grows 0 None w w' → sent w0 w' c cn data → Q tt w') →
  wp may_stop (buffer_rest c data n (zlen data - n) false) Q w.
Proof.
  intros Hok Hc Hd Hn Hst Hst' Hn0 Hcs Hout Hpend Hend HQ. unfold buffer_rest. cbn [negb andb].
  wp_step; bool_simpl; [| apply Hend; lia].
  pose proof (wo_conns w Hok c cn Hc) as [Hlp _ _ Hwf _ _ _].
  pose proof (Buffer.wf_bounds _ Hwf). pose proof (Buffer.content_zlen _ Hwf).
  unfold string_ok in Hd. do 2 wp_step. rewrite Buffer.ReadableBytes_content by done.
  set (old := zlen (Buffer.content (TcpConnection.output_buffer_ cn))) in *.
  rewrite u64_small by lia.
  replace (zlen data - n) with (zlen (zdrop n data)) by (rewrite zlen_zdrop by lia; lia).
  assert (∀ w1 w' b, grows 0 None w w1 → grows 0 None w1 w' →
    conns w1 = conns w → out_stream (obs w1) (TcpConnection.socket_ cn) =
      out_stream (obs w) (TcpConnection.socket_ cn) →
    conns w' = <[c := cn <| TcpConnection.output_buffer_ := b |>]> (conns w1) →
    Buffer.content b = Buffer.content (TcpConnection.output_buffer_ cn) ++ zdrop n data →
    loops w' = loops w1 → k_out (obs w') = k_out (obs w1) →
    (∃ ch', channels w' !! TcpConnection.channel_ cn = Some ch' ∧ IsWriting ch' = true) →
    pending w1 (TcpConnection.loop_ cn) = pending w (TcpConnection.loop_ cn) ++
      (if decide (TcpConnection.high_water_mark_ cn ≤ old + zlen (zdrop n data) ∧
                  old < TcpConnection.high_water_mark_ cn ∧
                  is_Some (TcpConnection.high_water_mark_callback_ cn))
       then [FnHighWaterMark c (old + zlen (zdrop n data))] else []) → Q tt w') as Hdone.
  { intros w1 w' b Hg1 Hg2 Hc1 Ho1 Hc' Hb Hl Hk Hch Hp. apply HQ; [by eapply grows_0 |].
    apply (sent_buffered _ _ _ _ _ n b); try done; [lia | congruence | |].
    - unfold out_stream in *. rewrite Hk. congruence.
    - unfold pending in *. rewrite Hl, Hp, Hpend by lia. fold old.
      by rewrite (zlen_zdrop n), Z.max_l by lia. }
  assert (zdrop n data ≠ []) as Hne.
  { intros Hz%zlen_zero. rewrite zlen_zdrop in Hz by lia. lia. }
  assert (string_ok (zdrop n data)) by (unfold string_ok; rewrite zlen_zdrop by lia; lia).
  wp_step. wp_step; bool_simpl.
  - eapply (wp_queue_own _ c cn); [done | done | | done |].
    { exists cn. done. }
    intros w1 Hg Hc1 Hx1 Ho1 _ Hp1. eapply wp_append_output; [apply Hg | by rewrite Hc1 | done.. |].
    intros w' b Hg' Hc' Hb Hl Hk Hch. eapply (Hdone w1); try done.
    rewrite Hp1. by rewrite decide_True.
  - eapply wp_append_output; [done.. |].
    intros w' b Hg' Hc' Hb Hl Hk Hch. eapply (Hdone w); try done; [by apply grows_refl |].
    rewrite decide_False, app_nil_r; [done |]. intros (? & ? & ?).
    match goal with Hf : _ && _ = false |- _ =>
      rewrite bool_decide_true, andb_true_r in Hf by done; apply andb_false_iff in Hf as [?|?]
    end; bool_simpl; lia.
Qed.

Lemma wp_SendInLoop c cn data Q w :
  world_ok w → conns w !! c = Some cn → TcpConnection.state_ cn ≠ kConnecting →
  string_ok data →
  (∀ w', grows 0 None w w' → sent w w' c cn data → Q tt w') →
  wp may_stop (SendInLoop c data (zlen data)) Q w.
Proof.
  intros Hok Hc Hst Hd HQ. pose proof (zlen_nonneg data).
  pose proof (wo_conns w Hok c cn Hc) as [_ (ch & Hx & _ & Hfd & _) _ Hwf _ _ _].
  unfold SendInLoop. do 2 wp_step. destruct (decide _) as [Hdown|Hup].
  { wp_step. apply HQ; [by apply grows_log | by apply sent_down]. }
  do 2 wp_step. rewrite Buffer.ReadableBytes_content by done.
  wp_step. wp_step.
  - bool_simpl. match goal with Hz : zlen _ = 0 |- _ => apply zlen_zero in Hz as Hempty end.
    rewrite ztake_all by lia. do 2 wp_step. destruct a as [n err]. rewrite Hfd in Hsys.
    pose proof Hsys as [[-> Ho]|[Hn Ho]]%write_law.
    + pose proof (grows_env w e' Hok Ho) as Hg.
      assert (conns (w <| env := e' |>) !! c = Some cn) as Hc1 by done.
      assert (∀ w1, grows 0 None w w1 → conns w1 = conns w → loops w1 = loops w →
        k_out (obs w1) = k_out (obs w) →
        wp may_stop (buffer_rest c data 0 (zlen data) false) Q w1) as Hrest.
      { intros w1 Hg1 Hc' Hl1 Hk1. pose proof (wp_send_rest w c cn data 0 Q w1) as Hr.
        rewrite Z.sub_0_r in Hr. apply Hr; clear Hr; try done.
        - apply Hg1.
        - by rewrite Hc'.
        - by left.
        - unfold out_stream. rewrite Hk1, ztake_0. by rewrite app_nil_r.
        - intros _. unfold pending. by rewrite Hl1.
        - intros Hz. apply HQ; [done |]. apply sent_empty; try done. apply zlen_zero. lia.
        - intros w' Hg' ?. apply HQ; [by eapply grows_0 | done]. }
      wp_step; bool_simpl; [lia |]. wp_step; bool_simpl.
      * do 4 wp_step. rename Hsys0 into Hlog. change (env _) with e' in Hlog.
        pose proof (log_errno_law _ _ _ _ Hlog) as Ho'. wp_step.
        match goal with |- wp _ _ _ ?w => set (w2 := w) end.
        assert (grows 0 None w w2) as Hg2.
        { eapply grows_0; [exact Hg |]. eapply grows_0; [apply grows_log, Hg |].
          apply grows_env; [apply grows_log, Hg | exact Ho']. }
        assert (k_out (obs w2) = k_out (obs w)) as Hk2 by (unfold w2; upd_simpl; by rewrite Ho', Ho).
        set (fault := _ || _). destruct fault eqn:Hf; [| by apply Hrest].
        apply wp_when; [done | intros _]. apply HQ; [done |].
        eapply sent_fault; [exact Hsys | lia | lia | exact Hlog | | done | done | done | done].
        unfold fault in Hf. apply orb_true_iff in Hf as [?|?]; bool_simpl; auto.
      * wp_step. apply Hrest; try done. upd_simpl. by rewrite Ho.
    + pose proof (grows_out w c cn e' _ Hok Hc Ho Hempty) as Hg.
      wp_step; bool_simpl; [| lia]. rewrite u64_small by (unfold string_ok in Hd; lia).
      do 2 wp_step. upd_simpl.
      assert (out_stream (observe e') (TcpConnection.socket_ cn) =
        out_stream (obs w) (TcpConnection.socket_ cn) ++ ztake n data) as Hos
        by (by rewrite Ho, out_stream_add_out, decide_True).
      wp_step. wp_step; bool_simpl.
      * eapply (wp_queue_own _ c cn); [apply Hg | done | by exists cn | done |].
        intros w1 Hg1 Hc1 Hx1 Ho1 _ Hp1. wp_step. replace (zlen data - n) with 0 by lia.
        apply wp_when; [done | intros _].
        apply HQ; [by eapply grows_0 |]. apply sent_whole; try done.
        -- rewrite Ho1. upd_simpl. rewrite Hos, ztake_all by lia. done.
        -- rewrite Hp1. by rewrite decide_True.
      * wp_step. apply (wp_send_rest w c cn data n); try done.
        -- apply Hg.
        -- by right.
        -- intros ->. apply HQ; [done |]. apply sent_whole; try done.
           ++ upd_simpl. by rewrite Hos, ztake_all by lia.
           ++ rewrite decide_False, app_nil_r; [done |]. intros ?.
              rewrite bool_decide_true, Z.sub_diag in * by done. done.
        -- intros w' Hg' ?. apply HQ; [by eapply grows_0 | done].
  - wp_step. pose proof (wp_send_rest w c cn data 0 Q w) as Hr.
    rewrite Z.sub_0_r in Hr. apply Hr; clear Hr; try done.
    + by left.
    + rewrite ztake_0. by rewrite app_nil_r.
    + intros Hz. apply HQ; [by apply grows_refl |]. apply sent_empty; try done. apply zlen_zero. lia.
Qed.
End conn_inv.
