(* ===== verification/HandlerInv.v ===== *)
(** * The handlers keep the invariant

    [safe k e m w]: run from [w], [m] never has undefined behaviour, stops
    the process only after a FATAL line or because a vector cannot grow, and
    otherwise returns to a good world that grew from [w].  This file proves
    it for the operations of [TcpConnection], with any application code that
    uses only connections it was told of. *)

From S2P Require Import Prelude Format Kernel Buffer Objects PollerOps ChannelOps ReactorInv PollInv ReactorLife LoopOps LoopInv SocketOps ConnOps ServerOps WorldInv WorldSteps ConnInv.

(** ** Application code *)

(** The program uses only connections in [C], strings that exist, and
    formats that fit. *)
Fixpoint client_ok (C : nat → Prop) (p : client) : Prop :=
  match p with
  | CReturn => True
  | CSend c msg k => C c ∧ string_ok msg ∧ client_ok C k
  | CSendBuffer c bc k => C c ∧ C bc ∧ client_ok C k
  | CShutdown c k => C c ∧ client_ok C k
  | CIsConnected c k => C c ∧ ∀ b, client_ok C (k b)
  | CGetName c k => C c ∧ ∀ s, client_ok C (k s)
  | CGetLocalAddress c k | CGetPeerAddress c k => C c ∧ ∀ a, client_ok C (k a)
  | CToString bc k => C bc ∧ ∀ s, string_ok s → client_ok C (k s)
  | CRetrieve bc n k => C bc ∧ client_ok C k
  | CRetrieveAllAsString bc k => C bc ∧ ∀ s, string_ok s → client_ok C (k s)
  | CQueueInLoop c cb k => C c ∧ client_ok C k
  | CQuit c k => C c ∧ client_ok C k
  | CLogInfo fmt args k => fmt_ok fmt args = true ∧ client_ok C k
  | CSetContext c _ k => C c ∧ client_ok C k
  | CGetContext c k => C c ∧ ∀ v, client_ok C (k v)
  end.

(** The application uses only connections it was told of, and prints with
    formats that fit. *)
Class AppOk `{App} : Prop :=
  app_ok c h : client_ok (λ x, Exists (λ c', call_conn c' = Some x) (c :: h)) (react c h).

Section handlers.
Context {E : Type} `{KernelLaws E}.
Implicit Types w : World E.

Abbreviation safe k e m w := (wp may_stop m (λ _ w', grows k e w w') w).

Lemma safe_ret {A} k e (a : A) w : 0 ≤ k → world_ok w → safe k e (mret a) w.
Proof. intros. by apply grows_refl. Qed.

Lemma safe_mono {A} k e (m : M (World E) A) w0 w :
  grows 0 None w0 w → safe k e m w → wp may_stop m (λ _ w', grows k e w0 w') w.
Proof. intros Hg Hm. eapply wp_mono; [exact Hm |]. intros. by eapply grows_0. Qed.

Lemma safe_weaken {A} k k' e (m : M (World E) A) w : k ≤ k' → safe k None m w → safe k' e m w.
Proof. intros Hk Hm. eapply wp_mono; [exact Hm |]. intros. by eapply grows_weaken. Qed.

(** In sequence. *)
Lemma safe_bind {A B} k e (m : M (World E) A) (f : A → M (World E) B) w :
  safe 0 None m w → (∀ a w1, grows 0 None w w1 → safe k e (f a) w1) → safe k e (m ≫= f) w.
Proof.
  intros Hm Hf. apply wp_bind. eapply wp_mono; [exact Hm |]. intros a w1 Hg.
  apply safe_mono; [done |]. by apply Hf.
Qed.

Lemma safe_bind_log {B} k e level fmt args (f : unit → M (World E) B) w :
  world_ok w → fmt_ok fmt args = true →
  (∀ w1, grows 0 None w w1 → conns w1 = conns w → channels w1 = channels w →
    safe k e (f tt) w1) → safe k e (LOG level fmt args ≫= f) w.
Proof.
  intros Hok Hfmt Hf. apply wp_bind, wp_LOG; [done |]. apply safe_mono; [by apply grows_log |].
  apply Hf; [by apply grows_log | done | done].
Qed.

Lemma safe_log level fmt args w :
  world_ok w → fmt_ok fmt args = true → safe 0 None (LOG level fmt args) w.
Proof. intros Hok Hfmt. apply wp_LOG; [done |]. by apply grows_log. Qed.

Lemma safe_when k e b (m : M (World E) unit) w :
  0 ≤ k → world_ok w → (b = true → safe k e m w) → safe k e (when b m) w.
Proof. intros ?? Hm. apply wp_when; [done | intros _; by apply grows_refl]. Qed.

(** A live object in a world that grew. *)
Lemma grows_conn_some k e w w' c :
  grows k e w w' → is_Some (conns w !! c) → is_Some (conns w' !! c).
Proof. intros [_ Hext _]. by eapply ext_conn_some. Qed.

Lemma grows_established k e w w' c : grows k e w w' → established w c → established w' c.
Proof. intros [_ Hext _]. by eapply established_ext. Qed.

Lemma established_some w c : established w c → is_Some (conns w !! c).
Proof. intros (cn & ? & _). by eexists. Qed.

(** ** Queueing *)

Lemma safe_QueueInLoop l f w :
  world_ok w → is_Some (loops w !! l) → functor_ok w f → est_ids [f] = [] →
  safe 0 None (QueueInLoop l f) w.
Proof.
  intros Hok [lp Hl] Hf He. eapply wp_QueueInLoop; [done |]. intros w' Hq _.
  by eapply grows_queued.
Qed.

Lemma safe_RunInLoop l f body w :
  world_ok w → is_Some (loops w !! l) → functor_ok w f → est_ids [f] = [] →
  safe 0 None body w → safe 0 None (RunInLoop l f body) w.
Proof.
  intros Hok [lp Hl] Hf He Hb. eapply wp_RunInLoop; [done | by intros _ |].
  intros _. apply safe_QueueInLoop; [done | by eexists | done..].
Qed.

Lemma safe_Quit l w : world_ok w → is_Some (loops w !! l) → safe 0 None (Quit l) w.
Proof.
  intros Hok [lp Hl]. eapply wp_Quit; [done |]. intros w' Hq Hls.
  eapply grows_quiet; [done | exact Hq | |].
  - eapply loops_grow_insert; [done | done | done | by left | done].
  - intros c cn Hc. by eapply wakeup_fd_other.
Qed.

(** ** Sending and shutting down *)

Lemma safe_SendInLoop c data w :
  world_ok w → established w c → string_ok data → safe 0 None (SendInLoop c data (zlen data)) w.
Proof. intros Hok (cn & Hc & Hst) Hd. by eapply wp_SendInLoop. Qed.

Lemma safe_Send c msg w :
  world_ok w → is_Some (conns w !! c) → string_ok msg → safe 0 None (Send c msg) w.
Proof.
  intros Hok [cn Hc] Hm. unfold Send. do 2 wp_step. apply safe_when; [done | done |].
  intros Hst. unfold IsConnected in Hst. bool_simpl.
  assert (established w c) as Hest by (exists cn; by rewrite Hst).
  destruct (ck_loop _ _ _ (wo_conns w Hok c cn Hc)) as [lp Hl].
  wp_step. eapply wp_IsInLoopThread; [done |]. wp_step.
  - by apply safe_SendInLoop.
  - apply safe_RunInLoop; [done | by eexists | done | done |]. by apply safe_SendInLoop.
Qed.

Lemma content_string_ok b : Buffer.wf b → string_ok (Buffer.content b).
Proof.
  intros Hwf. unfold string_ok. rewrite Buffer.content_zlen by done.
  pose proof (Buffer.wf_bounds b Hwf). lia.
Qed.

(** An operation of [Buffer] on an input buffer that makes no system call. *)
Lemma safe_input {A} c cn (m : M Buffer.t A) (P : A → Prop) w (Q : A → World E → Prop) :
  world_ok w → conns w !! c = Some cn →
  wp no_exit m (λ a b, Buffer.wf b ∧ P a) (TcpConnection.input_buffer_ cn) →
  (∀ a w', grows 0 None w w' → P a → k_out (obs w') = k_out (obs w) → Q a w') →
  wp may_stop (on_input c (pure_op m)) Q w.
Proof.
  intros Hok Hc Hm HQ. eapply wp_on_input; [done |]. unfold pure_op. wp_step.
  apply (wp_weaken _ no_exit); [| done]. eapply wp_mono; [exact Hm |]. intros a b [Hb Ha].
  wp_step. apply HQ; [| done | done]. by apply grows_input.
Qed.

Lemma wp_input_load c cn (Q : list byte → World E → Prop) w :
  world_ok w → conns w !! c = Some cn →
  (∀ w', grows 0 None w w' → conns w' !! c = Some cn →
     Q (Buffer.content (TcpConnection.input_buffer_ cn)) w') →
  wp may_stop (on_input c (λ e, b ← get;
    d ← Buffer.load (Buffer.Peek b) (Buffer.ReadableBytes b); mret (d, e))) Q w.
Proof.
  intros Hok Hc HQ. pose proof (ck_input _ _ _ (wo_conns w Hok c cn Hc)) as Hwf.
  eapply wp_on_input; [done |]. do 3 wp_step.
  pose proof (Buffer.wf_bounds _ Hwf). pose proof (Buffer.content_zlen _ Hwf).
  rewrite Buffer.ReadableBytes_content by done. unfold Buffer.Peek.
  apply Buffer.wp_load; [lia.. |]. wp_step.
  replace (Buffer.reader_index_ _ + _)
    with (Buffer.writer_index_ (TcpConnection.input_buffer_ cn)) by lia.
  apply HQ; [by apply grows_input |]. upd_simpl. rewrite lookup_insert_eq. by destruct cn.
Qed.

Lemma safe_SendBufferInLoop c bc w :
  world_ok w → established w c → is_Some (conns w !! bc) →
  safe 0 None (SendBufferInLoop c bc) w.
Proof.
  intros Hok Hest [bcn Hbc]. unfold SendBufferInLoop.
  pose proof (ck_input _ _ _ (wo_conns w Hok bc bcn Hbc)) as Hwf.
  wp_step. eapply wp_input_load; [done | done |]. intros w1 Hg1 Hbc1.
  do 2 wp_step. rewrite Buffer.ReadableBytes_content by done.
  apply safe_mono; [done |]. apply safe_bind.
  - apply safe_SendInLoop; [apply Hg1 | by eapply grows_established | by apply content_string_ok].
  - intros _ w2 Hg2. destruct (grows_conn_some _ _ _ _ bc Hg2 ltac:(by eexists)) as [bcn2 Hbc2].
    eapply (safe_input bc bcn2 _ (λ _, True)); [apply Hg2 | done | | done].
    apply Buffer.wp_RetrieveAll; [| by auto]. by eapply ck_input, (wo_conns w2), Hbc2; apply Hg2.
Qed.

Lemma safe_SendBuffer c bc w :
  world_ok w → is_Some (conns w !! c) → is_Some (conns w !! bc) →
  safe 0 None (SendBuffer c bc) w.
Proof.
  intros Hok [cn Hc] Hbc. unfold SendBuffer. do 2 wp_step. apply safe_when; [done | done |].
  intros Hst. unfold IsConnected in Hst. bool_simpl.
  assert (established w c) as Hest by (exists cn; by rewrite Hst).
  destruct (ck_loop _ _ _ (wo_conns w Hok c cn Hc)) as [lp Hl].
  wp_step. eapply wp_IsInLoopThread; [done |]. wp_step.
  - by apply safe_SendBufferInLoop.
  - apply safe_RunInLoop; [done | by eexists | done | done |]. by apply safe_SendBufferInLoop.
Qed.

(** [ShutdownInLoop] shuts the write side only when nothing waits to be
    written. *)
Lemma wp_ShutdownInLoop c cn Q w :
  world_ok w → conns w !! c = Some cn →
  (∀ w', grows 0 None w w' → conns w' = conns w → channels w' = channels w →
     loops w' = loops w → k_out (obs w') = k_out (obs w) →
     k_shut (obs w') = k_shut (obs w) ∨
     k_shut (obs w') = {[TcpConnection.socket_ cn]} ∪ k_shut (obs w) ∧
       (TcpConnection.state_ cn = kDisconnected ∨
        Buffer.content (TcpConnection.output_buffer_ cn) = []) → Q tt w') →
  wp may_stop (ShutdownInLoop c) Q w.
Proof.
  intros Hok Hc HQ.
  pose proof (wo_conns w Hok c cn Hc) as [_ (ch & Hx & _ & _ & _ & [_ Hp _]) _ _ _ _ _].
  unfold ShutdownInLoop. do 4 wp_step. wp_step; bool_simpl;
    [| apply HQ; [by apply grows_refl | done.. | by left]].
  unfold ShutdownWrite. do 2 wp_step. destruct a as [ret err].
  apply shutdown_law in Hsys as [[-> Ho]|[-> Ho]].
  - pose proof (grows_env w e' Hok Ho) as Hg. wp_step; bool_simpl; [| lia]. wp_step.
    apply HQ; upd_simpl; rewrite ?Ho; [| done.. | by left].
    eapply grows_0; [exact Hg | apply grows_log, Hg].
  - wp_step; bool_simpl; [lia |]. apply HQ; upd_simpl; rewrite ?Ho; [| done.. |].
    + apply grows_env_io; [done | by rewrite Ho..].
    + right. split; [done |]. destruct (decide (TcpConnection.state_ cn = kDisconnected));
        [by left | right].
      destruct (Buffer.content (TcpConnection.output_buffer_ cn)) eqn:Hb; [done |].
      by rewrite Hp in * by done.
Qed.

Lemma safe_ShutdownInLoop c w :
  world_ok w → is_Some (conns w !! c) → safe 0 None (ShutdownInLoop c) w.
Proof. intros Hok [cn Hc]. by eapply wp_ShutdownInLoop. Qed.

(** ** The state of a connection *)

Lemma safe_SetState c s cn e w :
  world_ok w → conns w !! c = Some cn → s ≠ kConnecting →
  (rank (TcpConnection.state_ cn) ≤ rank s)%nat →
  (TcpConnection.state_ cn = kConnecting → e = Some c) → not_queued e w →
  wp may_stop (SetState c s) (λ _ w', grows 0 e w w' ∧
    conns w' = <[c := cn <| TcpConnection.state_ := s |>]> (conns w) ∧ loops w' = loops w) w.
Proof.
  intros Hok Hc Hs Hr He Hnq.
  pose proof (wo_conns w Hok c cn Hc) as [_ (ch & Hx & _ & _ & _ & [Hw Hp _]) Hin Hout _ _ _].
  unfold SetState. wp_step. split; [| done].
  eapply (grows_conn w _ c cn (cn <| TcpConnection.state_ := s |>) ch ch); upd_simpl; try done.
  - by apply conn_change_conn.
  - apply (reactor_ok_obs w); [apply Hok | done..].
  - split; upd_simpl; [done | | done]. intros Hd. apply Hp. intros Heq. apply Hd.
    rewrite Heq in Hr. destruct s; cbn in Hr; try lia. done.
  - by intros Hne ?%He.
Qed.

Lemma not_queued_none w : not_queued None w.
Proof. by intros c l lp. Qed.

Lemma safe_Shutdown c w :
  world_ok w → is_Some (conns w !! c) → safe 0 None (Shutdown c) w.
Proof.
  intros Hok [cn Hc]. unfold Shutdown. do 2 wp_step. apply safe_when; [done | done |].
  intros Hst. unfold IsConnected in Hst. bool_simpl. apply wp_bind.
  eapply wp_mono; [apply (safe_SetState c kDisconnecting cn None); try done |].
  - rewrite Hst. cbn. lia.
  - by rewrite Hst.
  - intros _ w1 (Hg & Hc1 & Hl1). apply safe_mono; [done |].
    assert (is_Some (conns w1 !! c)) by (by eapply grows_conn_some).
    apply safe_RunInLoop; [apply Hg | | done | done |].
    + rewrite Hl1. by eapply ck_loop, wo_conns.
    + apply safe_ShutdownInLoop; [apply Hg | done].
Qed.

(** ** Running the application *)

Lemma conn_loop_some w c cn :
  world_ok w → conns w !! c = Some cn → is_Some (loops w !! TcpConnection.loop_ cn).
Proof. intros Hok Hc. by eapply ck_loop, wo_conns. Qed.

Lemma input_wf w c cn : world_ok w → conns w !! c = Some cn →
  Buffer.wf (TcpConnection.input_buffer_ cn).
Proof. intros Hok Hc. by eapply ck_input, wo_conns. Qed.

Lemma safe_SetContext c v w : world_ok w → is_Some (conns w !! c) → safe 0 None (SetContext c v) w.
Proof.
  intros Hok [cn Hc]. pose proof (wo_conns w Hok c cn Hc) as [_ (ch & Hx & _ & _ & _ & [Hw Hp Hn]) Hin Hout _ _ _].
  unfold SetContext. wp_step.
  eapply (grows_conn w _ c cn (cn <| TcpConnection.context_ := v |>) ch ch); upd_simpl; try done.
  - by apply conn_change_conn.
  - apply (reactor_ok_obs w); [apply Hok | done..].
Qed.

Lemma safe_run_client C p : ∀ w,
  world_ok w → (∀ c, C c → is_Some (conns w !! c)) → client_ok C p →
  safe 0 None (run_client p) w.
Proof.
  assert (∀ w w1, grows 0 None w w1 → (∀ c, C c → is_Some (conns w !! c)) →
    ∀ c, C c → is_Some (conns w1 !! c)) as HC1 by (intros; eapply grows_conn_some; eauto).
  induction p as [|c msg k IH|c bc k IH|c k IH|c k IH|c k IH|c k IH|c k IH|bc k IH|bc n k IH|bc k IH
    |c cb k IH|c k IH|fmt args k IH|c v k IH|c k IH]; intros w Hok HC Hp; cbn [run_client client_ok] in *.
  - by apply safe_ret.
  - destruct Hp as (Hc & Hm & Hk). apply safe_bind; [by apply safe_Send; auto |].
    intros _ w1 Hg. apply IH; [apply Hg | by eapply HC1 | done].
  - destruct Hp as (Hc & Hbc & Hk). apply safe_bind; [by apply safe_SendBuffer; auto |].
    intros _ w1 Hg. apply IH; [apply Hg | by eapply HC1 | done].
  - destruct Hp as [Hc Hk]. apply safe_bind; [by apply safe_Shutdown; auto |].
    intros _ w1 Hg. apply IH; [apply Hg | by eapply HC1 | done].
  - destruct Hp as [Hc Hk]. destruct (HC c Hc) as [cn Hcn]. do 2 wp_step. by apply IH.
  - destruct Hp as [Hc Hk]. destruct (HC c Hc) as [cn Hcn]. do 2 wp_step. by apply IH.
  - destruct Hp as [Hc Hk]. destruct (HC c Hc) as [cn Hcn]. do 2 wp_step. by apply IH.
  - destruct Hp as [Hc Hk]. destruct (HC c Hc) as [cn Hcn]. do 2 wp_step. by apply IH.
  - destruct Hp as [Hc Hk]. destruct (HC bc Hc) as [cn Hcn].
    pose proof (input_wf _ _ _ Hok Hcn) as Hwf.
    wp_step. eapply (safe_input bc cn _ string_ok); [done | done | |].
    + apply Buffer.wp_ToString; [done |]. split; [done | by apply content_string_ok].
    + intros s w1 Hg Hs _. apply safe_mono; [done |]. apply IH; [apply Hg | by eapply HC1 | auto].
  - destruct Hp as [Hc Hk]. destruct (HC bc Hc) as [cn Hcn].
    pose proof (input_wf _ _ _ Hok Hcn) as Hwf.
    wp_step. eapply (safe_input bc cn _ (λ _, True)); [done | done | |].
    + apply Buffer.wp_Retrieve; [done | lia | by auto].
    + intros s w1 Hg _ _. apply safe_mono; [done |]. apply IH; [apply Hg | by eapply HC1 | done].
  - destruct Hp as [Hc Hk]. destruct (HC bc Hc) as [cn Hcn].
    pose proof (input_wf _ _ _ Hok Hcn) as Hwf.
    wp_step. eapply (safe_input bc cn _ string_ok); [done | done | |].
    + apply Buffer.wp_RetrieveAllAsString; [done |]. intros b' Hb' _ _.
      split; [done | by apply content_string_ok].
    + intros s w1 Hg Hs _. apply safe_mono; [done |]. apply IH; [apply Hg | by eapply HC1 | auto].
  - destruct Hp as [Hc Hk]. destruct (HC c Hc) as [cn Hcn]. do 2 wp_step.
    apply safe_bind; [by apply safe_QueueInLoop; [| eapply conn_loop_some | |] |].
    intros _ w1 Hg. apply IH; [apply Hg | by eapply HC1 | done].
  - destruct Hp as [Hc Hk]. destruct (HC c Hc) as [cn Hcn]. do 2 wp_step.
    apply safe_bind; [by apply safe_Quit; [| eapply conn_loop_some] |].
    intros _ w1 Hg. apply IH; [apply Hg | by eapply HC1 | done].
  - destruct Hp as [Hfmt Hp]. apply safe_bind; [by apply safe_log |].
    intros _ w1 Hg. apply IH; [apply Hg | by eapply HC1 | done].
  - destruct Hp as [Hc Hk]. apply safe_bind; [by apply safe_SetContext; auto |].
    intros _ w1 Hg. apply IH; [apply Hg | by eapply HC1 | done].
  - destruct Hp as [Hc Hk]. destruct (HC c Hc) as [cn Hcn]. do 2 wp_step. by apply IH.
Qed.

Context `{AppOk}.

Lemma safe_react c w :
  world_ok w → call_ok w c →
  safe 0 None (run_client (react c (calls w))) (w <| calls ::= cons c |>).
Proof.
  intros Hok Hc. pose proof (grows_call w c Hok Hc) as Hg.
  eapply safe_run_client; [apply Hg | | apply app_ok].
  intros d (c' & Hin & Hd)%Exists_exists.
  pose proof (proj1 (Forall_forall _ _) (wo_calls _ (gr_ok _ _ _ _ Hg)) c' Hin) as Hc'.
  unfold call_ok in Hc'. by rewrite Hd in Hc'.
Qed.

Lemma safe_invoke c w : world_ok w → call_ok w c → safe 0 None (invoke c) w.
Proof.
  intros Hok Hc. unfold invoke. do 2 wp_step. apply wp_bind. wp_step.
  apply safe_mono; [by apply grows_call | by apply safe_react].
Qed.

Lemma safe_connection_callback c w :
  world_ok w → is_Some (conns w !! c) → safe 0 None (connection_callback c) w.
Proof.
  intros Hok [cn Hc]. unfold connection_callback. do 2 wp_step.
  destruct (ck_connection _ _ _ (wo_conns w Hok c cn Hc)) as [cb ->].
  apply safe_invoke; [done |]. by eexists.
Qed.

Lemma safe_message_callback c t w :
  world_ok w → is_Some (conns w !! c) → safe 0 None (message_callback c t) w.
Proof.
  intros Hok [cn Hc]. unfold message_callback. do 2 wp_step.
  destruct (ck_message _ _ _ (wo_conns w Hok c cn Hc)) as [cb ->].
  apply safe_invoke; [done |]. by eexists.
Qed.

Lemma safe_write_complete_callback c w :
  world_ok w → functor_ok w (FnWriteComplete c) → safe 0 None (write_complete_callback c) w.
Proof.
  intros Hok (cn & Hc & cb & Hcb). unfold write_complete_callback. do 2 wp_step.
  rewrite Hcb. apply safe_invoke; [done |]. by eexists.
Qed.

Lemma safe_high_water_mark_callback c len w :
  world_ok w → functor_ok w (FnHighWaterMark c len) →
  safe 0 None (high_water_mark_callback c len) w.
Proof.
  intros Hok (cn & Hc & cb & Hcb). unfold high_water_mark_callback. do 2 wp_step.
  rewrite Hcb. apply safe_invoke; [done |]. by eexists.
Qed.

(** ** The channel of a connection *)

(** The operations on the events of a connection's channel, where they keep
    writing interest and pending output together. *)
Lemma safe_set_events c cn (f : Z → Z) w :
  world_ok w → conns w !! c = Some cn → TcpConnection.state_ cn ≠ kConnecting →
  (∀ evs, 0 ≤ evs < 2 ^ 31 → 0 ≤ f evs < 2 ^ 31) →
  (∀ ch, channels w !! TcpConnection.channel_ cn = Some ch → conn_flow cn ch →
     let ch' := ch <| Channel.events_ ::= f |> in
     (IsWriting ch' = true → Buffer.content (TcpConnection.output_buffer_ cn) ≠ []) ∧
     (TcpConnection.state_ cn ≠ kDisconnected →
      Buffer.content (TcpConnection.output_buffer_ cn) ≠ [] → IsWriting ch' = true)) →
  wp may_stop (upd_channel (TcpConnection.channel_ cn) (λ ch, ch <| Channel.events_ ::= f |>);;
               ChannelOps.Update (TcpConnection.channel_ cn))
    (λ _ w', grows 0 None w w' ∧ same_upper w w') w.
Proof.
  intros Hok Hc Hst Hf Hflow.
  pose proof (wo_conns w Hok c cn Hc) as [_ (ch & Hx & _ & _ & _ & Hfl) Hin Hout _ _ _].
  apply wp_fatal. eapply (wp_set_events _ ch); [apply Hok | done | |].
  { by apply Hf; eapply co_events, ro_channel, Hx; apply Hok. }
  intros w' Hs. split; [| apply Hs].
  match type of Hs with chan_step _ _ _ ?ch' => apply (grows_conn w w' c cn cn ch ch') end;
    try done.
  - by eapply conn_change_chan.
  - apply Hs.
  - destruct (Hflow ch Hx Hfl) as [Hw Hp]. by split.
  - destruct (cs_upper _ _ _ _ Hs) as [_ _ _ _ _ _ [Ho _ _ _]].
    unfold stream, out_stream. by rewrite Ho.
Qed.

Lemma wp_conn_DisableAll c cn w :
  world_ok w → conns w !! c = Some cn → TcpConnection.state_ cn = kDisconnected →
  wp may_stop (DisableAll (TcpConnection.channel_ cn)) (λ _ w', grows 0 None w w' ∧ same_upper w w') w.
Proof.
  intros Hok Hc Hst. apply (safe_set_events c cn (λ _, kNoneEvent)); [done | done | by rewrite Hst | |].
  - intros. unfold kNoneEvent. lia.
  - intros ch Hx _. cbn zeta. by split.
Qed.

Lemma safe_DisableAll c cn w :
  world_ok w → conns w !! c = Some cn → TcpConnection.state_ cn = kDisconnected →
  safe 0 None (DisableAll (TcpConnection.channel_ cn)) w.
Proof. intros. eapply wp_mono; [by apply (wp_conn_DisableAll c) | by intros _ w' [Hg _]]. Qed.

Lemma safe_Remove c cn w :
  world_ok w → conns w !! c = Some cn → safe 0 None (Remove (TcpConnection.channel_ cn)) w.
Proof.
  intros Hok Hc.
  pose proof (wo_conns w Hok c cn Hc) as [_ (ch & Hx & _ & _ & _ & [Hw Hp Hcc]) Hin Hout _ _ _].
  apply wp_fatal. eapply (wp_Channel_Remove _ ch); [apply Hok | done |]. intros w' Hs.
  match type of Hs with chan_step _ _ _ ?ch' => apply (grows_conn w w' c cn cn ch ch') end;
    try done.
  - by eapply conn_change_chan.
  - apply Hs.
  - unfold IsWriting in *. split; upd_simpl; [done | done |]. intros Hs0.
    split; [done | by apply Hcc].
  - destruct (cs_upper _ _ _ _ Hs) as [_ _ _ _ _ _ [Ho _ _ _]].
    unfold stream, out_stream. by rewrite Ho.
Qed.

(** [TcpServer::RemoveConnection]. *)
Lemma safe_RemoveConnectionInLoop s c w :
  world_ok w → functor_ok w (FnRemoveConnectionInLoop s c) →
  safe 0 None (RemoveConnectionInLoop s c) w.
Proof.
  intros Hok [[sv Hs] [cn Hc]]. unfold RemoveConnectionInLoop. do 4 wp_step.
  apply safe_bind_log; [done | done |]. intros w1 Hg1 Hc1 _.
  destruct (ex_servers _ _ _ (gr_ext _ _ _ _ Hg1) s sv Hs) as (sv1 & Hs1 & _).
  pose proof (wo_servers w1 (gr_ok _ _ _ _ Hg1) s sv1 Hs1) as Hsk.
  apply safe_bind.
  - wp_step. eapply grows_server; [apply Hg1 | done | done | cbn; lia |].
    destruct Hsk. split; upd_simpl; try done. intros name d [_ Hd]%lookup_delete_Some.
    by eapply sk_connections.
  - intros _ w2 Hg2. assert (is_Some (conns w2 !! c)) as Hc2.
    { eapply grows_conn_some; [done |]. rewrite Hc1. by eexists. }
    apply safe_QueueInLoop; [apply Hg2 | | done | done].
    destruct (ex_conns _ _ _ (gr_ext _ _ _ _ (grows_0 _ _ _ _ _ Hg1 Hg2)) c cn Hc)
      as (cn2 & Hcn2 & Hf & _).
    unfold conn_fixed, GetLoop in *. injection Hf as <- _ _ _ _ _ _ _ _ _.
    by eapply conn_loop_some, Hcn2; apply Hg2.
Qed.

Lemma safe_close_callback c w :
  world_ok w → is_Some (conns w !! c) → safe 0 None (close_callback_of c) w.
Proof.
  intros Hok [cn Hc]. unfold close_callback_of. do 2 wp_step.
  pose proof (ck_close _ _ _ (wo_conns w Hok c cn Hc)) as Hcl.
  destruct (TcpConnection.close_callback_ cn) as [[cb|s d]|]; cbn in *; [| | done].
  - apply safe_invoke; [done |]. by eexists.
  - destruct Hcl as [[sv Hs] Hd]. unfold RemoveConnection. do 2 wp_step.
    apply safe_RunInLoop; [done | | | done |].
    + by eapply sk_loop, wo_servers.
    + split; [by eexists | done].
    + apply safe_RemoveConnectionInLoop; [done |]. split; [by eexists | done].
Qed.

(** ** The handlers *)

Lemma safe_HandleClose c w : world_ok w → established w c → safe 0 None (HandleClose c) w.
Proof.
  intros Hok (cn & Hc & Hst).
  pose proof (wo_conns w Hok c cn Hc) as [_ (ch & Hx & _) _ _ _ _ _].
  unfold HandleClose. do 4 wp_step. apply safe_bind_log; [done | done |]. intros w1 Hg1 Hc1 _.
  rewrite <- Hc1 in Hc. apply wp_bind.
  eapply wp_mono; [apply (safe_SetState c kDisconnected cn None); try done; [apply Hg1 |] |].
  { by destruct (TcpConnection.state_ cn); cbn; lia. }
  intros _ w2 (Hg2 & Hc2 & _). apply safe_mono; [done |].
  assert (conns w2 !! c = Some (cn <| TcpConnection.state_ := kDisconnected |>)) as Hcn2
    by (by rewrite Hc2, lookup_insert_eq).
  pose proof (safe_DisableAll c _ w2 (gr_ok _ _ _ _ Hg2) Hcn2 eq_refl) as Hd. upd_simpl.
  apply safe_bind; [exact Hd |].
  intros _ w3 Hg3. assert (is_Some (conns w3 !! c)) as Hc3
    by (eapply grows_conn_some; [done |]; by rewrite Hcn2).
  apply safe_bind; [apply safe_connection_callback; [apply Hg3 | done] |].
  intros _ w4 Hg4. apply safe_close_callback; [apply Hg4 | by eapply grows_conn_some].
Qed.

Lemma safe_HandleError c w : world_ok w → is_Some (conns w !! c) → safe 0 None (HandleError c) w.
Proof.
  intros Hok [cn Hc]. pose proof (wo_conns w Hok c cn Hc) as [_ (ch & Hx & _) _ _ _ _ _].
  unfold HandleError. do 6 wp_step. destruct a as [[ret err] optval].
  apply so_error_law in Hsys. pose proof (grows_env w e' Hok Hsys) as Hg.
  apply safe_mono; [done |]. apply safe_log; [apply Hg | done].
Qed.

Lemma safe_HandleRead c t w : world_ok w → established w c → safe 0 None (HandleRead c t) w.
Proof.
  intros Hok Hest. pose proof Hest as (cn & Hc & Hst).
  pose proof (wo_conns w Hok c cn Hc) as [_ (ch & Hx & _) Hin _ _ _ _].
  unfold HandleRead. do 4 wp_step. wp_step. eapply wp_on_input; [done |].
  apply Buffer.wp_ReadFd; [done | done | |].
  - intros err e' Ho. set (w1 := w <| env := e' |> <| conns ::= _ |>).
    assert (grows 0 None w w1) as Hg by (apply grows_input; by rewrite ?Ho).
    apply safe_mono; [done |]. wp_step; bool_simpl; [lia |]. wp_step; bool_simpl; [lia |].
    apply safe_bind_log; [apply Hg | done |]. intros w2 Hg2 _ _.
    apply safe_HandleError; [apply Hg2 |].
    eapply grows_conn_some; [exact Hg2 |]. eapply grows_conn_some; [exact Hg | by eexists].
  - intros d e' b Hb Hcb _ _ Ho. set (w1 := w <| env := e' |> <| conns ::= _ |>).
    assert (grows 0 None w w1) as Hg by (apply grows_input; by rewrite ?Ho).
    apply safe_mono; [done |]. wp_step; [| wp_step; bool_simpl].
    + apply safe_message_callback; [apply Hg |]. eapply grows_conn_some; [exact Hg | by eexists].
    + apply safe_HandleClose; [apply Hg | by eapply grows_established].
    + pose proof (zlen_nonneg d). bool_simpl. lia.
Qed.

(** ** Writing what is pending *)

(** What [HandleWrite] did, on a connection that waits to write. *)
Inductive wrote w w' (c : nat) (cn : TcpConnection.t) : Prop :=
  | wrote_some n b :
      0 ≤ n < zlen (Buffer.content (TcpConnection.output_buffer_ cn)) →
      conns w' = <[c := cn <| TcpConnection.output_buffer_ := b |>]> (conns w) →
      loops w' = loops w → k_shut (obs w') = k_shut (obs w) →
      Buffer.content b = zdrop n (Buffer.content (TcpConnection.output_buffer_ cn)) →
      out_stream (obs w') (TcpConnection.socket_ cn) =
        out_stream (obs w) (TcpConnection.socket_ cn) ++
        ztake n (Buffer.content (TcpConnection.output_buffer_ cn)) → wrote w w' c cn
  | wrote_all b :
      conns w' = <[c := cn <| TcpConnection.output_buffer_ := b |>]> (conns w) →
      Buffer.content b = [] →
      out_stream (obs w') (TcpConnection.socket_ cn) =
        out_stream (obs w) (TcpConnection.socket_ cn) ++
        Buffer.content (TcpConnection.output_buffer_ cn) →
      (∃ ch', channels w' !! TcpConnection.channel_ cn = Some ch' ∧ IsWriting ch' = false) →
      pending w' (TcpConnection.loop_ cn) = pending w (TcpConnection.loop_ cn) ++
        (if decide (is_Some (TcpConnection.write_complete_callback_ cn))
         then [FnWriteComplete c] else []) →
      (k_shut (obs w') = k_shut (obs w) ∨
       k_shut (obs w') = {[TcpConnection.socket_ cn]} ∪ k_shut (obs w) ∧
         TcpConnection.state_ cn = kDisconnecting) → wrote w w' c cn.

(** The end of [HandleWrite], once everything was written. *)
Lemma wp_drained c cn Q w :
  world_ok w → conns w !! c = Some cn → 
  Buffer.content (TcpConnection.output_buffer_ cn) = [] →
  (∀ w', grows 0 None w w' → conns w' = conns w → channels w' = channels w →
     out_stream (obs w') (TcpConnection.socket_ cn) =
       out_stream (obs w) (TcpConnection.socket_ cn) →
     pending w' (TcpConnection.loop_ cn) = pending w (TcpConnection.loop_ cn) ++
        (if decide (is_Some (TcpConnection.write_complete_callback_ cn))
         then [FnWriteComplete c] else []) →
     (k_shut (obs w') = k_shut (obs w) ∨
      k_shut (obs w') = {[TcpConnection.socket_ cn]} ∪ k_shut (obs w) ∧
        TcpConnection.state_ cn = kDisconnecting) → Q tt w') →
  wp may_stop
    (when (bool_decide (is_Some (TcpConnection.write_complete_callback_ cn)))
       (QueueInLoop (TcpConnection.loop_ cn) (FnWriteComplete c));;
     cn ← the_conn c;
     when (bool_decide (TcpConnection.state_ cn = kDisconnecting)) (ShutdownInLoop c)) Q w.
Proof.
  intros Hok Hc Hb HQ.
  assert (∀ w1, grows 0 None w w1 → conns w1 = conns w → channels w1 = channels w →
    out_stream (obs w1) (TcpConnection.socket_ cn) =
      out_stream (obs w) (TcpConnection.socket_ cn) →
    k_shut (obs w1) = k_shut (obs w) →
    pending w1 (TcpConnection.loop_ cn) = pending w (TcpConnection.loop_ cn) ++
      (if decide (is_Some (TcpConnection.write_complete_callback_ cn))
       then [FnWriteComplete c] else []) →
    wp may_stop (cn ← the_conn c;
      when (bool_decide (TcpConnection.state_ cn = kDisconnecting)) (ShutdownInLoop c)) Q w1)
    as Hend.
  { intros w1 Hg1 Hc1 Hx1 Ho1 Hs1 Hp1. rewrite <- Hc1 in Hc. do 2 wp_step. wp_step; bool_simpl.
    - eapply wp_ShutdownInLoop; [apply Hg1 | done |]. intros w2 Hg2 Hc2 Hx2 Hl2 Hk2 Hs2.
      apply HQ; [by eapply grows_0 | congruence | congruence | | |].
      + unfold out_stream in *. by rewrite Hk2.
      + unfold pending in *. by rewrite Hl2.
      + destruct Hs2 as [->|[-> _]]; [by left | right]. by rewrite Hs1.
    - apply HQ; auto. }
  wp_step. wp_step; bool_simpl.
  - eapply (wp_queue_own _ c cn); [done | done | by exists cn | done |].
    intros w1 Hg1 Hc1 Hx1 Ho1 Hs1 Hp1. apply Hend; try done. by rewrite decide_True.
  - apply Hend; [by apply grows_refl | done.. |]. by rewrite decide_False, app_nil_r.
Qed.

Lemma zdrop_nil_inv {A} n (l : list A) : 0 ≤ n ≤ zlen l → zdrop n l = [] → n = zlen l.
Proof. intros ? Hz%zlen_zero. rewrite zlen_zdrop in Hz by lia. lia. Qed.

(** Part of the output was written. *)
Lemma grows_partial c cn ch n e' b w :
  world_ok w → conns w !! c = Some cn → TcpConnection.state_ cn ≠ kConnecting →
  channels w !! TcpConnection.channel_ cn = Some ch → IsWriting ch = true →
  0 ≤ n < zlen (Buffer.content (TcpConnection.output_buffer_ cn)) → Buffer.wf b →
  Buffer.content b = zdrop n (Buffer.content (TcpConnection.output_buffer_ cn)) →
  observe e' = add_out (TcpConnection.socket_ cn)
    (ztake n (Buffer.content (TcpConnection.output_buffer_ cn))) (obs w) ∨
  n = 0 ∧ observe e' = obs w →
  grows 0 None w
    (w <| env := e' |> <| conns ::= <[c := cn <| TcpConnection.output_buffer_ := b |>]> |>).
Proof.
  intros Hok Hc Hst Hx Hwr Hn Hb Hcb Ho.
  set (w1 := w <| env := e' |> <| conns ::= _ |>).
  pose proof (wo_conns w Hok c cn Hc) as [_ (ch0 & Hx0 & _ & _ & _ & Hf) Hin Hout _ _ _].
  assert (∀ fd, out_stream (obs w1) fd = if decide (TcpConnection.socket_ cn = fd)
    then out_stream (obs w) fd ++ ztake n (Buffer.content (TcpConnection.output_buffer_ cn))
    else out_stream (obs w) fd) as Hos.
  { intros fd. unfold w1. upd_simpl. destruct Ho as [->|[-> ->]].
    - rewrite out_stream_add_out. by case_decide; subst.
    - rewrite ztake_0, app_nil_r. by case_decide. }
  assert (k_interest (obs w1) = k_interest (obs w) ∧ k_open (obs w1) = k_open (obs w)) as [Hki Hko].
  { unfold w1. upd_simpl. by destruct Ho as [->|[_ ->]]. }
  eapply (grows_conn w w1 c cn (cn <| TcpConnection.output_buffer_ := b |>) ch ch);
    upd_simpl; try done.
  - split; unfold w1; upd_simpl; try done; [by rewrite insert_id |]. intros fd Hfd.
    specialize (Hos fd). unfold w1 in Hos. upd_simpl. by rewrite Hos, decide_False.
  - apply (reactor_ok_obs w); [apply Hok | done..].
  - split; upd_simpl; [| done | done]. intros _ He.
    rewrite He in Hcb. symmetry in Hcb. apply zdrop_nil_inv in Hcb; lia.
  - unfold stream. upd_simpl. rewrite Hos, decide_True, Hcb, <- app_assoc, ztake_zdrop by done. done.
Qed.

(** When everything is written: [DisableWriting]. *)
Lemma wp_write_pending c cn Q w n e' b :
  world_ok w → conns w !! c = Some cn → TcpConnection.state_ cn ≠ kConnecting →
  0 ≤ n ≤ zlen (Buffer.content (TcpConnection.output_buffer_ cn)) → Buffer.wf b →
  Buffer.content b = zdrop n (Buffer.content (TcpConnection.output_buffer_ cn)) →
  observe e' = add_out (TcpConnection.socket_ cn)
    (ztake n (Buffer.content (TcpConnection.output_buffer_ cn))) (obs w) →
  (∃ ch, channels w !! TcpConnection.channel_ cn = Some ch ∧ IsWriting ch = true) →
  Buffer.content b = [] →
  let w1 := w <| env := e' |> <| conns ::= <[c := cn <| TcpConnection.output_buffer_ := b |>]> |> in
  (∀ w', grows 0 None w w' → conns w' = conns w1 → loops w' = loops w →
     k_out (obs w') = k_out (obs w1) → k_shut (obs w') = k_shut (obs w) →
     (∃ ch', channels w' !! TcpConnection.channel_ cn = Some ch' ∧ IsWriting ch' = false) →
     Q tt w') →
  wp may_stop (DisableWriting (TcpConnection.channel_ cn)) Q w1.
Proof.
  intros Hok Hc Hst Hn Hb Hcb Ho (ch0 & Hx0 & Hwr) He w1 HQ.
  pose proof (wo_conns w Hok c cn Hc) as [_ (ch & Hx & _ & _ & _ & Hf) Hin Hout _ _ _].
  rewrite Hx in Hx0. injection Hx0 as <-.
  set (cn' := cn <| TcpConnection.output_buffer_ := b |>) in *.
  assert (conn_change w w1 c cn cn' ch ch) as Hcc.
  { split; unfold w1; upd_simpl; try done; [by rewrite insert_id |]. intros fd Hfd.
    by rewrite Ho, out_stream_add_out, decide_False. }
  assert (reactor_ok w1) as Hro.
  { apply (reactor_ok_obs w); [apply Hok | ..]; unfold w1; upd_simpl; by rewrite ?Ho. }
  assert (∀ w2, k_out (obs w2) = k_out (obs w1) → stream w cn `prefix_of` stream w2 cn') as Hstream.
  { intros w2 Hk. unfold stream, out_stream, cn'. upd_simpl. rewrite Hk. unfold w1. upd_simpl.
    fold (out_stream (observe e') (TcpConnection.socket_ cn)).
    rewrite Ho, out_stream_add_out, decide_True, Hcb, <- app_assoc, ztake_zdrop by done. done. }
  apply wp_fatal. eapply (wp_set_events _ ch); [done | done | |].
  { apply land_mask_bound. eapply co_events, ro_channel, Hx. apply Hok. }
  intros w2 Hs. pose proof (cs_upper _ _ _ _ Hs) as Hup.
  match type of Hs with chan_step _ _ _ ?ch' => set (ch2 := ch') in * end.
  assert (conn_change w1 w2 c cn' cn' ch ch2) as Hcc2.
  { eapply conn_change_chan; [| | exact Hs | done]; unfold w1; upd_simpl; [| done].
    by rewrite lookup_insert_eq. }
  apply HQ; [| apply Hup | apply Hup | apply Hup | |].
  - apply (grows_conn w w2 c cn cn' ch ch2); unfold cn'; upd_simpl; try done.
    + by eapply conn_change_trans.
    + apply Hs.
    + split; upd_simpl; [| done | done]. unfold IsWriting, ch2. upd_simpl. by rewrite has_land_lnot.
    + apply Hstream. apply (si_out _ _ (su_io _ _ Hup)).
  - rewrite (si_shut _ _ (su_io _ _ Hup)). unfold w1. upd_simpl. by rewrite Ho.
  - eexists. split; [by rewrite (cs_channels _ _ _ _ Hs), lookup_insert_eq |].
    unfold IsWriting, ch2. upd_simpl. apply has_land_lnot.
Qed.

Lemma wp_HandleWrite c cn ch Q w :
  world_ok w → conns w !! c = Some cn → TcpConnection.state_ cn ≠ kConnecting →
  channels w !! TcpConnection.channel_ cn = Some ch →
  (IsWriting ch = false → Q tt w) →
  (∀ w', IsWriting ch = true → grows 0 None w w' → wrote w w' c cn → Q tt w') →
  wp may_stop (HandleWrite c) Q w.
Proof.
  intros Hok Hc Hst Hx Hidle HQ.
  pose proof (wo_conns w Hok c cn Hc) as [_ (ch0 & Hx0 & _ & Hfd & _ & Hf) Hin Hout _ _ _].
  rewrite Hx in Hx0. injection Hx0 as <-.
  unfold HandleWrite. do 4 wp_step. wp_step; [| by apply Hidle].
  match goal with Hw : IsWriting ch = true |- _ => rename Hw into Hwr end.
  pose proof (cf_writing _ _ Hf Hwr) as Hne.
  pose proof (zlen_nonneg (Buffer.content (TcpConnection.output_buffer_ cn))) as Hlen.
  assert (zlen (Buffer.content (TcpConnection.output_buffer_ cn)) ≠ 0) as Hlen0
    by (by intros ?%zlen_zero).
  assert (∀ n e' b fmt args, fmt_ok fmt args = true → 0 ≤ n < zlen (Buffer.content (TcpConnection.output_buffer_ cn)) →
    Buffer.wf b → Buffer.content b = zdrop n (Buffer.content (TcpConnection.output_buffer_ cn)) →
    observe e' = add_out (TcpConnection.socket_ cn)
      (ztake n (Buffer.content (TcpConnection.output_buffer_ cn))) (obs w) ∨
    n = 0 ∧ observe e' = obs w →
    wp may_stop (LOG_ERROR fmt args) Q (w <| env := e' |>
      <| conns ::= <[c := cn <| TcpConnection.output_buffer_ := b |>]> |>)) as Hsome.
  { intros n e' b fmt args Hfmt Hn Hb Hcb Ho.
    assert (grows 0 None w (w <| env := e' |>
      <| conns ::= <[c := cn <| TcpConnection.output_buffer_ := b |>]> |>)) as Hg
      by (apply (grows_partial c cn ch n); try done; lia).
    apply wp_LOG; [done |]. apply HQ; [done | eapply grows_0; [exact Hg | apply grows_log, Hg] |].
    apply (wrote_some _ _ _ _ n b); try done; upd_simpl.
    - by destruct Ho as [->|[_ ->]].
    - destruct Ho as [->|[-> ->]]; [by rewrite out_stream_add_out, decide_True |].
      by rewrite ztake_0, app_nil_r. }
  wp_step. eapply wp_on_output; [done |]. rewrite Hfd.
  apply Buffer.wp_WriteFd; [done | |].
  - intros err e' Ho. wp_step; bool_simpl; [lia |].
    apply (Hsome 0); [done | lia | done | by rewrite zdrop_0 | by right].
  - intros n e' b Hb Hn Hcb _ Ho. wp_step; bool_simpl; [| apply (Hsome n); [done | lia | done | done | by left]].
    do 2 wp_step. rewrite Buffer.ReadableBytes_content by done. wp_step; bool_simpl.
    + match goal with Hz : zlen (Buffer.content b) = 0 |- _ => apply zlen_zero in Hz as Hbe end.
      wp_step. eapply (wp_write_pending c cn); [done..| by eexists | done |].
      intros w1 Hg1 Hc1 Hl1 Ho1 Hs1 Hx1.
      set (cn' := cn <| TcpConnection.output_buffer_ := b |>) in *.
      assert (conns w1 !! c = Some cn') as Hcn1 by (rewrite Hc1; upd_simpl; apply lookup_insert_eq).
      assert (n = zlen (Buffer.content (TcpConnection.output_buffer_ cn))) as ->
        by (apply zdrop_nil_inv; [lia | congruence]).
      apply (wp_drained c cn'); [apply Hg1 | done | done |].
      intros w2 Hg2 Hc2 Hx2 Ho2 Hp2 Hs2. unfold cn' in *. upd_simpl.
      apply HQ; [done | by eapply grows_0 |].
      apply (wrote_all _ _ _ _ b); [by rewrite Hc2, Hc1 | done | | by rewrite Hx2 | | by rewrite <- Hs1].
      * rewrite Ho2. unfold out_stream at 1. rewrite Ho1. upd_simpl.
        fold (out_stream (observe e') (TcpConnection.socket_ cn)).
        by rewrite Ho, out_stream_add_out, decide_True, ztake_all.
      * rewrite Hp2. unfold pending. by rewrite Hl1.
    + apply (Hsome n); [done | | done | done | by left]. split; [lia |].
      destruct (decide (n = zlen (Buffer.content (TcpConnection.output_buffer_ cn)))) as [->|];
        [| lia].
      rewrite Hcb, zdrop_all in * by lia. done.
Qed.
End handlers.
