(* ===== verification/LifeInv.v ===== *)
(** * The life cycle of connections keeps the invariant

    Establishing, destroying and accepting connections; and, with the
    handlers of [HandlerInv], every functor and every channel callback of the
    program. *)

From S2P Require Import Prelude Format Kernel Buffer Objects PollerOps ChannelOps ReactorInv PollInv ReactorLife LoopOps LoopInv SocketOps ConnOps ServerOps WorldInv WorldSteps ConnInv HandlerInv.

Section life.
Context {E : Type} `{KernelLaws E} `{AppOk}.
Implicit Types w : World E.

Abbreviation safe k e m w := (wp may_stop m (λ _ w', grows k e w w') w).

(** First an operation that may establish [e]. *)
Lemma safe_after {A} k e (m : M (World E) A) w0 w :
  grows k e w0 w → safe 0 None m w → wp may_stop m (λ _ w', grows k e w0 w') w.
Proof. intros Hg Hm. eapply wp_mono; [exact Hm |]. intros. by eapply grows_0_r. Qed.

(** ** Establishing *)

Lemma grows_tie w x ch ch' :
  world_ok w → channels w !! x = Some ch → chan_state ch' = chan_state ch →
  grows 0 None w (w <| channels ::= <[x := ch']> |>).
Proof.
  intros Hok Hx Hs. assert (chan_fixed ch' = chan_fixed ch ∧ Channel.events_ ch' = Channel.events_ ch ∧
    Channel.index_ ch' = Channel.index_ ch) as (Hf & He & Hi)
    by (unfold chan_state in Hs; split_and!; congruence).
  assert (∀ {B} (f : Channel.t → B) y, f ch' = f ch →
    f <$> <[x := ch']> (channels w) !! y = f <$> channels w !! y) as Hall.
  { intros B f y Hff. rewrite lookup_insert. case_decide; [subst y | done]. rewrite Hx. cbn. by rewrite Hff. }
  apply grows_same_conns; [done | | | by apply loops_grow_same].
  - apply (reactor_ok_core w); [| apply Hok]. split; upd_simpl; [| done | done].
    intros y. apply Hall. unfold core, chan_fixed in *. congruence.
  - split; upd_simpl; auto.
Qed.

Lemma safe_Tie c x d w :
  world_ok w → conns w !! c = Some d → is_Some (channels w !! x) →
  wp may_stop (Tie x c) (λ _ w', grows 0 None w w' ∧ conns w' = conns w) w.
Proof.
  intros Hok Hc [ch Hx]. unfold Tie. do 2 wp_step.
  assert (∀ w1 ch1 ch2, world_ok w1 → channels w1 !! x = Some ch1 → chan_state ch2 = chan_state ch1 →
    grows 0 None w1 (w1 <| channels ::= <[x := ch2]> |>)) as Hg by (intros; by eapply grows_tie).
  pose (ch1 := ch <| Channel.tie_ := Some c |>).
  pose proof (Hg w ch ch1 Hok Hx ltac:(done)) as Hg1.
  wp_step. split; [| done]. eapply grows_0; [exact Hg1 |]. eapply Hg.
  - apply Hg1.
  - upd_simpl. apply lookup_insert_eq.
  - done.
Qed.

Lemma safe_ConnectEstablished c cn w :
  world_ok w → conns w !! c = Some cn → TcpConnection.state_ cn = kConnecting →
  not_queued (Some c) w → safe 0 (Some c) (ConnectEstablished c) w.
Proof.
  intros Hok Hc Hst Hnq. unfold ConnectEstablished. apply wp_bind.
  eapply wp_mono; [apply (safe_SetState c kConnected cn (Some c)); try done |].
  { rewrite Hst. cbn. lia. }
  intros _ w1 (Hg1 & Hc1 & Hl1). apply (wp_mono _ _ (λ _ w', grows 0 None w1 w'));
    [| intros _ w'; by apply grows_0_r].
  set (cn1 := cn <| TcpConnection.state_ := kConnected |>) in *.
  assert (conns w1 !! c = Some cn1) as Hcn1 by (by rewrite Hc1, lookup_insert_eq).
  pose proof (wo_conns w1 (gr_ok _ _ _ _ Hg1) c cn1 Hcn1) as [_ (ch & Hx & _) _ _ _ _ _].
  do 3 wp_step. eapply wp_mono; [by eapply safe_Tie; [apply Hg1 | | eexists] |].
  intros _ w2 [Hg2 Hc2]. rewrite <- Hc2 in Hcn1.
  apply safe_mono; [done |]. unfold EnableReading. apply wp_bind.
  eapply wp_mono; [apply (safe_set_events c cn1 (λ ev, Z.lor ev kReadEvent)) |].
  - apply Hg2.
  - done.
  - done.
  - intros ev Hev. by apply lor_mask_bound.
  - intros ch2 Hx2 [Hw Hp _]. cbn zeta. unfold IsWriting in *. upd_simpl.
    by rewrite has_lor_disjoint.
  - intros _ w3 [Hg3 Hu3]. apply safe_mono; [done |].
    apply safe_connection_callback; [apply Hg3 |]. rewrite (su_conns _ _ Hu3). by exists cn1.
Qed.

Lemma safe_ConnectDestroyed c w :
  world_ok w → is_Some (conns w !! c) → safe 0 None (ConnectDestroyed c) w.
Proof.
  intros Hok [cn Hc]. unfold ConnectDestroyed. do 2 wp_step.
  assert (∀ w1, grows 0 None w w1 → safe 0 None (Remove (TcpConnection.channel_ cn)) w1) as Hrm.
  { intros w1 Hg. destruct (ex_conns _ _ _ (gr_ext _ _ _ _ Hg) c cn Hc) as (cn1 & Hc1 & Hf & _).
    replace (TcpConnection.channel_ cn) with (TcpConnection.channel_ cn1)
      by (unfold conn_fixed in Hf; congruence).
    by apply (safe_Remove c); [apply Hg |]. }
  apply safe_bind; [| by intros _ w1 Hg; apply Hrm]. apply safe_when; [done | done |].
  intros Hst. unfold IsConnected in Hst. bool_simpl. apply wp_bind.
  eapply wp_mono; [apply (safe_SetState c kDisconnected cn None); try done |].
  { rewrite Hst. cbn. lia. }
  { by rewrite Hst. }
  intros _ w1 (Hg1 & Hc1 & _). apply safe_mono; [done |].
  set (cn1 := cn <| TcpConnection.state_ := kDisconnected |>) in *.
  assert (conns w1 !! c = Some cn1) as Hcn1 by (by rewrite Hc1, lookup_insert_eq).
  apply safe_bind; [apply (safe_DisableAll c cn1); [apply Hg1 | done | done] |].
  intros _ w2 Hg2. apply safe_connection_callback; [apply Hg2 |].
  eapply grows_conn_some; [done |]. by exists cn1.
Qed.

(** ** The channel of an acceptor *)

Lemma accept_channel_other w s sv c cn :
  world_ok w → servers w !! s = Some sv → conns w !! c = Some cn →
  TcpConnection.channel_ cn ≠ Acceptor.accept_channel_ (TcpServer.acceptor_ sv).
Proof.
  intros Hok Hs Hc Heq.
  destruct (sk_channel _ _ _ (wo_servers w Hok s sv Hs)) as (ch1 & Hx1 & _ & Hr1).
  destruct (ck_channel _ _ _ (wo_conns w Hok c cn Hc)) as (ch2 & Hx2 & _ & _ & Hr2 & _).
  congruence.
Qed.

(** A step of a channel that belongs to no connection. *)
Lemma grows_chan_step w w' x ch ch' :
  world_ok w → channels w !! x = Some ch → chan_step w w' x ch' → chan_fixed ch' = chan_fixed ch →
  (∀ c cn, conns w !! c = Some cn → TcpConnection.channel_ cn ≠ x) → grows 0 None w w'.
Proof.
  intros Hok Hx [Hcs [] Hps Hro] Hf Hne. apply grows_same_conns; [done | done | | by apply loops_grow_same].
  split; try done.
  - intros y. rewrite Hcs, lookup_insert. case_decide; [subst y | done]. rewrite Hx. cbn. by rewrite Hf.
  - intros c cn Hc. rewrite Hcs, lookup_insert_ne; [done |]. intros Heq. by eapply Hne.
  - intros l [p Hp]. pose proof (Hps l) as He. rewrite Hp in He.
    apply fmap_Some in He as (? & ? & _). by eexists.
  - rewrite su_calls. auto.
  - intros c cn _. unfold out_stream. by destruct su_io as [-> _ _ _].
Qed.

Lemma safe_Listen sockfd w : world_ok w → safe 0 None (Listen sockfd) w.
Proof.
  intros Hok. unfold Listen. do 2 wp_step. destruct a as [ret err]. apply listen_law in Hsys.
  pose proof (grows_env w e' Hok Hsys) as Hg. apply safe_mono; [done |].
  apply safe_when; [done | apply Hg | intros _]. wp_step. apply grows_log, Hg.
Qed.

Lemma safe_Acceptor_Listen s w :
  world_ok w → is_Some (servers w !! s) → safe 0 None (Acceptor_Listen s) w.
Proof.
  intros Hok [sv Hs]. unfold Acceptor_Listen, upd_acceptor. do 4 wp_step.
  set (sv1 := sv <| TcpServer.acceptor_ ::= _ |>). set (w1 := w <| servers ::= _ |>).
  pose proof (wo_servers w Hok s sv Hs) as Hsk.
  assert (grows 0 None w w1) as Hg1.
  { apply (grows_server _ _ _ sv); [done.. | unfold sv1; upd_simpl; lia |].
    destruct Hsk. by split. }
  apply safe_mono; [done |]. apply safe_bind; [apply safe_Listen, Hg1 |].
  intros _ w2 Hg2. pose proof (grows_0 _ _ _ _ _ Hg1 Hg2) as Hg.
  destruct (ex_servers _ _ _ (gr_ext _ _ _ _ Hg) s sv Hs) as (sv2 & Hs2 & Hf & _).
  unfold sv1. upd_simpl.
  replace (Acceptor.accept_channel_ (TcpServer.acceptor_ sv))
    with (Acceptor.accept_channel_ (TcpServer.acceptor_ sv2))
    by (unfold server_fixed in Hf; congruence).
  pose proof (gr_ok _ _ _ _ Hg) as Hok2.
  destruct (sk_channel _ _ _ (wo_servers w2 Hok2 s sv2 Hs2)) as (ch & Hx & _).
  apply wp_fatal. eapply (wp_set_events _ ch); [apply Hok2 | done | |].
  { apply lor_mask_bound; [| done]. by eapply co_events, ro_channel, Hx; apply Hok2. }
  intros w3 Hst. eapply grows_chan_step; [done | done | exact Hst | done |].
  intros c cn Hc. by eapply accept_channel_other.
Qed.

(** ** Functors *)

(** The connection a functor establishes. *)
Definition est_of (f : functor) : option nat :=
  match f with FnConnectEstablished c => Some c | _ => None end.

(** The functor can run now. *)
Definition functor_ready w (f : functor) : Prop :=
  functor_ok w f ∧ not_queued (est_of f) w ∧
  ∀ c, est_of f = Some c → ∃ cn, conns w !! c = Some cn ∧ TcpConnection.state_ cn = kConnecting.

Lemma safe_run_functor f w :
  world_ok w → functor_ready w f → safe 0 (est_of f) (run_functor f) w.
Proof.
  intros Hok (Hf & Hnq & He). destruct f; cbn [run_functor est_of] in *.
  - destruct Hf. by apply safe_SendInLoop.
  - destruct Hf. by apply safe_SendBufferInLoop.
  - by apply safe_ShutdownInLoop.
  - by apply safe_write_complete_callback.
  - by apply safe_high_water_mark_callback.
  - destruct (He _ eq_refl) as (cn & Hc & Hst). by eapply safe_ConnectEstablished.
  - by apply safe_ConnectDestroyed.
  - by apply safe_RemoveConnectionInLoop.
  - by apply safe_Acceptor_Listen.
  - by apply safe_invoke.
Qed.

End life.
