(* ===== verification/AcceptInv.v ===== *)
(** * Accepting connections keeps the invariant

    The pool's choice of a loop, the construction of a connection and its
    registration with the server, and the acceptor's handler. *)

From S2P Require Import Prelude Format Kernel Buffer Objects PollerOps ChannelOps ReactorInv PollInv ReactorLife LoopOps LoopInv SocketOps ConnOps ServerOps WorldInv WorldSteps ConnInv HandlerInv LifeInv.

(** ** The pool *)

(** The loop a pool hands out next, and the pool after that. *)
Definition next_loop (p : EventLoopThreadPool.t) : nat :=
  default (EventLoopThreadPool.base_loop_ p)
    (EventLoopThreadPool.loops_ p !! Z.to_nat (EventLoopThreadPool.next_ p)).
Definition advance (p : EventLoopThreadPool.t) : EventLoopThreadPool.t :=
  p <| EventLoopThreadPool.next_ := (EventLoopThreadPool.next_ p + 1) mod
    (1 `max` zlen (EventLoopThreadPool.loops_ p)) |>.

(** The index is in range. *)
Definition pool_bounds (p : EventLoopThreadPool.t) : Prop :=
  zlen (EventLoopThreadPool.loops_ p) ≤ INT_MAX ∧
  0 ≤ EventLoopThreadPool.next_ p < 1 `max` zlen (EventLoopThreadPool.loops_ p).

Lemma wp_GetNextLoop X Q p :
  pool_bounds p → Q (next_loop p) (advance p) → wp X Pool.GetNextLoop Q p.
Proof.
  intros [Hs Hn] HQ. unfold Pool.GetNextLoop, next_loop, advance, INT_MAX in *. do 2 wp_step.
  destruct (EventLoopThreadPool.loops_ p) as [|l ls] eqn:Hls.
  - change (zlen (@nil nat)) with 0 in *. assert (EventLoopThreadPool.next_ p = 0) as Hz by lia. rewrite Hz in HQ.
    wp_step. change ((0 + 1) mod (1 `max` 0)) with 0 in HQ.
    replace p with (p <| EventLoopThreadPool.next_ := 0 |>); [done |].
    destruct p. unfold upd. cbn in *. by rewrite Hz.
  - pose proof (zlen_nonneg ls). rewrite zlen_cons in *. rewrite Z.max_r in * by lia.
    rewrite u64_small by lia.
    destruct ((l :: ls) !! Z.to_nat (EventLoopThreadPool.next_ p)) as [l'|] eqn:Hl; last first.
    { apply lookup_ge_None in Hl. unfold zlen in *. cbn [length] in *. lia. }
    wp_step; bool_simpl; [lia |]. do 4 wp_step. upd_simpl. rewrite Hls, zlen_cons.
    rewrite u64_small by lia. wp_step. wp_step; bool_simpl.
    + do 2 wp_step. cbn [default] in HQ.
      replace (_ + 1) with (1 + zlen ls) in HQ by lia. by rewrite Z.mod_same in HQ by lia.
    + wp_step. rewrite Z.mod_small in HQ by lia. done.
Qed.

Lemma advance_ok p : pool_bounds p → pool_bounds (advance p).
Proof.
  intros [Hs Hn]. unfold pool_bounds, advance. upd_simpl. split; [done |].
  apply Z.mod_pos_bound. lia.
Qed.

Section accept.
Context {E : Type} `{KernelLaws E} `{AppOk}.
Implicit Types w : World E.

Abbreviation safe k e m w := (wp may_stop m (λ _ w', grows k e w w') w).

Lemma next_loop_ok w p : pool_ok w p → is_Some (loops w !! next_loop p).
Proof.
  intros [Hb Hl Hs Hn]. unfold next_loop.
  destruct (EventLoopThreadPool.loops_ p !! _) as [l|] eqn:Hl'; [| done]. cbn.
  exact (Forall_lookup_1 _ _ _ _ Hl Hl').
Qed.

Lemma pool_ok_advance w p : pool_ok w p → pool_ok w (advance p).
Proof.
  intros [Hb Hl Hs Hn]. destruct (advance_ok p) as [Hs' Hn']; [by split |].
  split; [exact Hb | exact Hl | exact Hs' | exact Hn'].
Qed.

Lemma wp_on_pool_GetNextLoop X s sv Q w :
  servers w !! s = Some sv → pool_ok w (TcpServer.thread_pool_ sv) →
  Q (next_loop (TcpServer.thread_pool_ sv))
    (w <| servers ::= <[s := sv <| TcpServer.thread_pool_ := advance (TcpServer.thread_pool_ sv) |>]> |>) →
  wp X (on_pool s Pool.GetNextLoop) Q w.
Proof.
  intros Hs Hp HQ. assert (pool_bounds (TcpServer.thread_pool_ sv)) as Hb by (destruct Hp; by split).
  pose proof (wp_GetNextLoop no_exit (λ l p, l = next_loop (TcpServer.thread_pool_ sv) ∧
    p = advance (TcpServer.thread_pool_ sv)) _ Hb (conj eq_refl eq_refl)) as Hg.
  apply wp_done in Hg as (l & p & Hrun & -> & ->). unfold wp, on_pool. by rewrite Hs, Hrun.
Qed.

(** ** A new connection *)

(** The rest of the world is the same. *)
Record same_rest w w' : Prop := {
  sr_tid : tid w' = tid w;
  sr_pollers : pollers w' = pollers w;
  sr_loops : loops w' = loops w;
  sr_calls : calls w' = calls w;
  sr_obs : obs w' = obs w;
}.

#[export] Instance same_rest_preorder : PreOrder same_rest.
Proof. split; [done |]. intros w1 w2 w3 [] []. split; congruence. Qed.

(** The channel and the connection that [new_connection] makes. *)
Definition conn_channel_of (l c : nat) (fd : Z) : Channel.t :=
  Channel.mk l fd 0 0 kNew (Some (CbConnRead c)) (Some (CbConnWrite c)) (Some (CbConnClose c))
    (Some (CbConnError c)) None false.

Definition fresh_conn (l : nat) (name : string) (fd : Z) (x : nat) (local peer : InetAddress.t)
    : TcpConnection.t :=
  TcpConnection.mk l name kConnecting true fd x local peer None None None None
    (64 * 1024 * 1024) None (Buffer.ctor Buffer.kInitialSize) (Buffer.ctor Buffer.kInitialSize) None.

Lemma wp_new_connection X l name fd local peer Q w :
  (∀ w' c x, channels w !! x = None → conns w !! c = None →
     channels w' = <[x := conn_channel_of l c fd]> (channels w) →
     conns w' = <[c := fresh_conn l name fd x local peer]> (conns w) →
     servers w' = servers w → same_rest w w' → Q c w') →
  wp X (new_connection (Some l) name fd local peer) Q w.
Proof.
  intros HQ. unfold new_connection, new_channel, CheckLoopNotNull. do 9 wp_step. upd_simpl.
  set (x := fresh (dom (channels w))). set (c := fresh (dom (conns w))).
  assert (channels w !! x = None) as Hx by (apply not_elem_of_dom, is_fresh).
  assert (conns w !! c = None) as Hc by (apply not_elem_of_dom, is_fresh).
  unfold SetReadCallback, SetWriteCallback, ChannelOps.SetCloseCallback, SetErrorCallback.
  unfold SetKeepAlive, setsockopt. wp_steps.
  destruct a as [ret err]. apply setsockopt_law in Hsys. do 2 wp_step. apply (HQ _ c x); try done.
  upd_simpl. by rewrite !insert_insert_eq.
Qed.

(** [server_connection] enters the connection in the server's map and gives
    it the callbacks of the server. *)
Definition server_conn (s c : nat) (sv : TcpServer.t) (cn : TcpConnection.t) : TcpConnection.t :=
  cn <| TcpConnection.connection_callback_ := TcpServer.connection_callback_ sv |>
     <| TcpConnection.message_callback_ := TcpServer.message_callback_ sv |>
     <| TcpConnection.write_complete_callback_ := TcpServer.write_complete_callback_ sv |>
     <| TcpConnection.close_callback_ := Some (CloseRemoveConnection s c) |>.

Lemma wp_server_connection X s c name sv cn Q w :
  servers w !! s = Some sv → conns w !! c = Some cn →
  (∀ w', channels w' = channels w → conns w' = <[c := server_conn s c sv cn]> (conns w) →
     servers w' = <[s := sv <| TcpServer.connections_ ::= <[name := c]> |>]> (servers w) →
     same_rest w w' → Q tt w') →
  wp X (server_connection s c name) Q w.
Proof.
  intros Hs Hc HQ. unfold server_connection, SetConnectionCallback, SetMessageCallback,
    SetWriteCompleteCallback, ConnOps.SetCloseCallback. wp_steps. apply HQ; try done.
  upd_simpl. by rewrite !insert_insert_eq.
Qed.

Lemma initial_wf : Buffer.wf (Buffer.ctor Buffer.kInitialSize).
Proof. by vm_compute. Qed.

(** What the invariant says of the three objects. *)
Lemma new_conn_ok w s sv x c l name fd local peer :
  server_ok w s sv → is_Some (servers w !! s) → is_Some (loops w !! l) →
  let cn := server_conn s c sv (fresh_conn l name fd x local peer) in
  conns w !! c = Some cn → channels w !! x = Some (conn_channel_of l c fd) → conn_ok w c cn.
Proof.
  intros [] Hs Hl cn Hc Hx. split; try done; [| by apply initial_wf..].
  exists (conn_channel_of l c fd). by split_and!.
Qed.

Lemma server_ok_connection w s sv name c :
  server_ok w s sv → is_Some (conns w !! c) →
  server_ok w s (sv <| TcpServer.connections_ ::= <[name := c]> |>).
Proof.
  intros [] Hc. split; upd_simpl; try done. by apply map_Forall_insert_2.
Qed.

Lemma new_channel_callbacks w x c l fd cn :
  conns w !! c = Some cn → TcpConnection.channel_ cn = x →
  Forall (callback_ok w x) (channel_callbacks (conn_channel_of l c fd)).
Proof. intros Hc Hx. repeat constructor; by exists cn. Qed.

(** The world with a connection more. *)
Lemma grows_new_conn w w' s sv name x c l fd local peer :
  let cn := server_conn s c sv (fresh_conn l name fd x local peer) in
  world_ok w → servers w !! s = Some sv → is_Some (loops w !! l) →
  channels w !! x = None → conns w !! c = None →
  channels w' = <[x := conn_channel_of l c fd]> (channels w) →
  conns w' = <[c := cn]> (conns w) →
  servers w' = <[s := sv <| TcpServer.connections_ ::= <[name := c]> |>]> (servers w) →
  same_rest w w' → fd ∈ k_open (obs w) →
  (∀ y chy, channels w !! y = Some chy → Channel.fd_ chy ≠ fd) →
  grows 0 None w w'.
Proof.
  intros cn Hok Hs [lp Hl] Hx Hc Hchs Hcns Hsvs [Ht Hps Hls Hcl Ho] Hopen Hfd.
  set (sv' := sv <| TcpServer.connections_ ::= <[name := c]> |>) in *.
  assert (ext 0 w w') as Hext.
  { split; rewrite ?Ht, ?Hps, ?Hls, ?Hchs, ?Hcns, ?Hsvs; try done; eauto.
    - intros y chy Hy. exists chy. split; [| done]. rewrite lookup_insert_ne; [done | congruence].
    - intros d dn Hd. exists dn. split_and!; [| done | done |].
      + rewrite lookup_insert_ne; [done | congruence].
      + unfold stream. by rewrite Ho.
    - intros s0 sv0 Hs0. rewrite lookup_insert. case_decide; [subst s0 | by eauto with lia].
      rewrite Hs in Hs0. injection Hs0 as <-. exists sv'. split_and!; unfold sv'; upd_simpl; lia || done. }
  assert (keeps w w' None) as Hk.
  { intros d dn _ Hd Hst. exists dn. rewrite Hcns, lookup_insert_ne; [done | congruence]. }
  pose proof (wo_servers w Hok s sv Hs) as Hsk.
  assert (reactor_ok w') as Hro.
  { apply (reactor_ok_obs (w <| channels ::= <[x := conn_channel_of l c fd]> |>)); upd_simpl;
      rewrite ?Ho; try done.
    apply reactor_ok_add_channel; try done; [apply Hok |]. by eapply lk_poller, Hok. }
  split; [| done | done | |]; last first.
  { intros s0 Hs0. rewrite Hsvs, lookup_insert_ne; [done | congruence]. }
  { intros d _ _. unfold not_queued. by rewrite Hls. }
  split; [done | | | | |].
  - intros l0 lp0. rewrite Hls. intros Hl0. pose proof (wo_loops w Hok l0 lp0 Hl0) as Hlk.
    eapply loop_ok_ext; [done | done | | | done].
    + eapply Forall_impl; [apply Hlk |]. intros. by eapply functor_ok_ext.
    + eapply est_ok_ext; [done | exact Hk | done | apply Hlk].
  - intros d dn. rewrite Hcns, lookup_insert. case_decide; [subst d; intros [= <-] |].
    + apply (new_conn_ok _ _ _ x); [by eapply server_ok_ext | | | |].
      * rewrite Hsvs, lookup_insert_eq. by eexists.
      * rewrite Hls. by eexists.
      * by rewrite Hcns, lookup_insert_eq.
      * by rewrite Hchs, lookup_insert_eq.
    + intros Hd. eapply conn_ok_ext; [done | | by apply Hok]. intros ch Hch.
      rewrite Hchs, lookup_insert_ne by congruence. eauto.
  - intros s0 sv0. rewrite Hsvs, lookup_insert. case_decide; [subst s0; intros [= <-] |].
    + apply server_ok_connection; [by eapply server_ok_ext |].
      rewrite Hcns, lookup_insert_eq. by eexists.
    + intros Hs0. eapply server_ok_ext; [done |]. by apply Hok.
  - intros y chy. rewrite Hchs, lookup_insert. case_decide; [subst y; intros [= <-] |].
    + apply (new_channel_callbacks _ _ _ _ _ cn); [by rewrite Hcns, lookup_insert_eq | done].
    + intros Hy. eapply Forall_impl; [by apply (wo_callbacks w Hok) |]. intros. by eapply callback_ok_ext.
  - rewrite Hcl. eapply Forall_impl; [apply Hok |]. intros. by eapply call_ok_ext.
Qed.
(** ** Handing it to its loop *)

Lemma grows_queued_est w w' c cn lp :
  world_ok w → conns w !! c = Some cn → TcpConnection.state_ cn = kConnecting →
  not_queued (Some c) w → loops w !! TcpConnection.loop_ cn = Some lp →
  queued (TcpConnection.loop_ cn) lp (FnConnectEstablished c) w w' → grows 0 (Some c) w w'.
Proof.
  intros Hok Hc Hst Hnq Hl [Hq Hls]. eapply grows_quiet; [done | done | |].
  - eapply loops_grow_intro; [done | done | done | | |]; upd_simpl.
    + intros f' [?| ->%list_elem_of_singleton]%elem_of_app; [by left | right]. by exists cn.
    + unfold est_ok, est_ids. rewrite omap_app. intros [Hnd Hall]. split.
      * apply NoDup_app. split_and!; [done | | apply NoDup_singleton].
        intros d Hd ->%list_elem_of_singleton. by eapply Hnq.
      * intros d [?| ->%list_elem_of_singleton]%elem_of_app; [by apply Hall | by exists cn].
    + unfold est_ids. rewrite omap_app.
      intros d Hd [?| ->%list_elem_of_singleton]%elem_of_app; [done | congruence].
  - intros d dn Hd. by eapply wakeup_fd_other.
Qed.

Lemma safe_establish l c cn w :
  world_ok w → conns w !! c = Some cn → TcpConnection.state_ cn = kConnecting →
  TcpConnection.loop_ cn = l → not_queued (Some c) w →
  safe 0 (Some c) (RunInLoop l (FnConnectEstablished c) (ConnectEstablished c)) w.
Proof.
  intros Hok Hc Hst <- Hnq. destruct (ck_loop _ _ _ (wo_conns w Hok c cn Hc)) as [lp Hl].
  eapply wp_RunInLoop; [done | |].
  - intros _. by eapply safe_ConnectEstablished.
  - intros _. eapply wp_QueueInLoop; [done |]. intros w' Hq _. by eapply grows_queued_est.
Qed.

(** A functor for a connection that does not exist is not queued. *)
Lemma fresh_not_queued w c : world_ok w → conns w !! c = None → not_queued (Some c) w.
Proof.
  intros Hok Hc d l lp [= <-] Hl Hin.
  destruct (proj2 (lk_est _ _ _ (wo_loops w Hok l lp Hl)) c Hin) as (cn & Hcn & _). congruence.
Qed.

Lemma grows_fresh k c w w1 w2 :
  grows k None w w1 → conns w !! c = None → grows 0 (Some c) w1 w2 → grows k None w w2.
Proof.
  intros [Hok1 Hx1 Hk1 Hq1 Hn1] Hc [Hok2 Hx2 Hk2 Hq2 Hn2]. split; [done | by eapply ext_0_r | | | by auto].
  - intros d dn _ Hd Hst. destruct (Hk1 d dn ltac:(done) Hd Hst) as (dn1 & Hd1 & Hst1).
    apply (Hk2 d dn1); [congruence | done | done].
  - intros d _ [dn Hd] Hnq. apply Hq2; [congruence | | by apply Hq1; [| eexists |]].
    eapply ext_conn_some; [done | by eexists].
Qed.

(** Nothing but the log and what is not observed of the environment. *)
Definition dull w w' : Prop :=
  ∃ lg e', observe e' = obs w ∧ w' = w <| log := lg |> <| env := e' |>.

Lemma grows_dull w w' : world_ok w → dull w w' → grows 0 None w w'.
Proof.
  intros Hok (lg & e' & He & ->). pose proof (grows_log w (λ _, lg) Hok) as Hg.
  eapply grows_0; [exact Hg |]. by apply grows_env; [apply Hg |].
Qed.

(** The part of [NewConnection] after the address is known. *)
Lemma wp_hand_over s sv l name fd local peer Q w :
  world_ok w → servers w !! s = Some sv → is_Some (loops w !! l) → fd ∈ k_open (obs w) →
  (∀ y chy, channels w !! y = Some chy → Channel.fd_ chy ≠ fd) →
  (∀ w' c x, grows 0 None w w' → conns w !! c = None → not_queued (Some c) w' →
     conns w' = <[c := server_conn s c sv (fresh_conn l name fd x local peer)]> (conns w) →
     servers w' = <[s := sv <| TcpServer.connections_ ::= <[name := c]> |>]> (servers w) → same_rest w w' →
     wp may_stop (RunInLoop l (FnConnectEstablished c) (ConnectEstablished c)) Q w') →
  wp may_stop
    (c ← new_connection (Some l) name fd local peer;
     server_connection s c name;;
     RunInLoop l (FnConnectEstablished c) (ConnectEstablished c)) Q w.
Proof.
  intros Hok Hs Hl Hopen Hfd HQ. wp_step. apply wp_new_connection.
  intros w1 c x Hx Hc Hchs1 Hcns1 Hsvs1 Hr1. wp_step. eapply (wp_server_connection _ _ _ _ sv).
  { by rewrite Hsvs1. }
  { by rewrite Hcns1, lookup_insert_eq. }
  intros w2 Hchs2 Hcns2 Hsvs2 Hr2. rewrite Hcns1, insert_insert_eq in Hcns2. rewrite Hsvs1 in Hsvs2.
  assert (same_rest w w2) as Hr by by etrans.
  assert (grows 0 None w w2) as Hg
    by (eapply (grows_new_conn w w2 s sv name x c l fd local peer); try done; congruence).
  eapply (HQ w2 c x); try done. unfold not_queued. rewrite (sr_loops _ _ Hr). by apply (fresh_not_queued w c).
Qed.

Lemma safe_hand_over s l name fd local peer w :
  world_ok w → is_Some (servers w !! s) → is_Some (loops w !! l) → fd ∈ k_open (obs w) →
  (∀ y chy, channels w !! y = Some chy → Channel.fd_ chy ≠ fd) →
  safe 0 None
    (c ← new_connection (Some l) name fd local peer;
     server_connection s c name;;
     RunInLoop l (FnConnectEstablished c) (ConnectEstablished c)) w.
Proof.
  intros Hok [sv Hs] Hl Hopen Hfd. eapply wp_hand_over; [done.. |]. intros w2 c x Hg Hc Hnq Hcns _ _.
  eapply wp_mono; [eapply safe_establish; [apply Hg | by rewrite Hcns, lookup_insert_eq | done..] |].
  intros a w3 Hg3. by eapply grows_fresh.
Qed.

(** No server has more than [k] connections to go until its counter is at
    [INT_MAX]. *)
Definition room k w : Prop := ∀ s sv, servers w !! s = Some sv → TcpServer.next_conn_id_ sv + k ≤ INT_MAX.

Lemma room_weaken k k' w : k ≤ k' → room k' w → room k w.
Proof. intros Hk Hr s sv Hs. specialize (Hr s sv Hs). lia. Qed.

(** [NewConnection] up to there: the next loop of the pool, the next number,
    and the address. *)
Lemma wp_NewConnection s sv connfd peer Q w :
  world_ok w → servers w !! s = Some sv → room 1 w →
  (∀ w' sv' l name local, grows 1 None w w' → servers w' = <[s := sv']> (servers w) →
     server_fixed sv' = server_fixed sv → is_Some (loops w' !! l) → channels w' = channels w →
     conns w' = conns w → same_rest w w' →
     wp may_stop
       (c ← new_connection (Some l) name connfd local peer;
        server_connection s c name;;
        RunInLoop l (FnConnectEstablished c) (ConnectEstablished c)) Q w') →
  wp may_stop (NewConnection s connfd peer) Q w.
Proof.
  intros Hok Hs Hroom HQ. pose proof (wo_servers w Hok s sv Hs) as Hsk.
  pose proof (Hroom s sv Hs) as Hid. unfold NewConnection. wp_step.
  pose proof (sk_pool _ _ _ Hsk) as Hpk.
  eapply wp_on_pool_GetNextLoop; [done | done |].
  set (l := next_loop _). set (p := advance _).
  assert (is_Some (loops w !! l)) as Hl by by apply next_loop_ok.
  set (w1 := w <| servers ::= _ |>).
  assert (grows 0 None w w1) as Hg1.
  { apply (grows_server _ _ _ sv); [done | done | reflexivity | upd_simpl; lia |].
    destruct Hsk. split; upd_simpl; try done. by apply pool_ok_advance. }
  set (sv1 := sv <| TcpServer.thread_pool_ := p |>) in w1.
  assert (servers w1 !! s = Some sv1) as Hs1 by apply lookup_insert_eq.
  do 3 wp_step. change (TcpServer.next_conn_id_ sv1) with (TcpServer.next_conn_id_ sv).
  wp_step; bool_simpl; [lia |]. wp_step.
  set (sv2 := sv1 <| TcpServer.next_conn_id_ ::= Z.succ |>). set (w2 := w1 <| servers ::= _ |>).
  assert (grows 1 None w1 w2) as Hg2.
  { apply (grows_server _ _ s sv1); [apply Hg1 | done | reflexivity | unfold sv2; upd_simpl; lia |].
    destruct (wo_servers w1 (gr_ok _ _ _ _ Hg1) s sv1 Hs1). by split. }
  assert (∀ w3 name local', dull w2 w3 → wp may_stop
    (c ← new_connection (Some l) name connfd local' peer;
     server_connection s c name;;
     RunInLoop l (FnConnectEstablished c) (ConnectEstablished c)) Q w3) as Hlast.
  { intros w3 name local' Hd. pose proof (grows_dull w2 w3 (gr_ok _ _ _ _ Hg2) Hd) as Hg3.
    destruct Hd as (lg & e3 & Ho & ->). apply (HQ _ sv2); try done.
    - eapply grows_0; [exact Hg1 |]. by eapply grows_0_r.
    - unfold w2, w1. upd_simpl. by rewrite insert_insert_eq. }
  do 4 wp_step. destruct a as [[ret err] local]. apply getsockname_law in Hsys. wp_step.
  wp_step; [wp_step |]; apply Hlast; (eexists _, _; split; [exact Hsys | done]).
Qed.

Lemma safe_NewConnection s connfd peer w :
  world_ok w → is_Some (servers w !! s) → room 1 w → connfd ∈ k_open (obs w) →
  (∀ y chy, channels w !! y = Some chy → Channel.fd_ chy ≠ connfd) →
  safe 1 None (NewConnection s connfd peer) w.
Proof.
  intros Hok [sv Hs] Hroom Hopen Hfd. eapply wp_NewConnection; [done.. |].
  intros w' sv' l name local Hg Hs' _ Hl Hx _ Hr.
  eapply wp_mono; [apply safe_hand_over; [apply Hg | | done | | by rewrite Hx] | intros x w2; by apply grows_0_r].
  - rewrite Hs', lookup_insert_eq. by eexists.
  - by rewrite (sr_obs _ _ Hr).
Qed.

Lemma room_grows k k' e w w' : grows k e w w' → room (k + k') w → room k' w'.
Proof.
  intros Hg Hr s sv' Hs'. destruct (servers w !! s) as [sv|] eqn:Hs.
  - destruct (ex_servers _ _ _ (gr_ext _ _ _ _ Hg) s sv Hs) as (sv2 & Hs2 & _ & Hid).
    rewrite Hs2 in Hs'. injection Hs' as <-. specialize (Hr s sv Hs). lia.
  - by rewrite (gr_no_server _ _ _ _ Hg s Hs) in Hs'.
Qed.
(** ** The acceptor *)

(** A channel's descriptor is open. *)
Lemma channel_open w x ch : world_ok w → channels w !! x = Some ch → Channel.fd_ ch ∈ k_open (obs w).
Proof. intros Hok Hx. eapply co_open, ro_channel, Hx. apply Hok. Qed.

Lemma conn_socket_open w c cn : world_ok w → conns w !! c = Some cn → TcpConnection.socket_ cn ∈ k_open (obs w).
Proof.
  intros Hok Hc. destruct (ck_channel _ _ _ (wo_conns w Hok c cn Hc)) as (ch & Hx & _ & <- & _).
  by eapply channel_open.
Qed.

Lemma grows_open w fd e' :
  world_ok w → 0 ≤ fd → fd ∉ k_open (obs w) → observe e' = open_fd fd (obs w) →
  grows 0 None w (w <| env := e' |>).
Proof.
  intros Hok Hpos Hfd He. apply grows_same_conns; [done | | | by apply loops_grow_same].
  - by apply (reactor_ok_open w _ fd); [apply Hok | ..].
  - split; upd_simpl; auto. intros c cn Hc. rewrite He. unfold out_stream, open_fd. upd_simpl.
    rewrite lookup_insert_ne; [done |]. intros ->. by eapply Hfd, conn_socket_open.
Qed.

Lemma safe_Acceptor_HandleRead s w :
  world_ok w → is_Some (servers w !! s) → room 1 w → safe 1 None (Acceptor_HandleRead s) w.
Proof.
  intros Hok [sv Hs] Hroom. pose proof (wo_servers w Hok s sv Hs) as Hsk.
  unfold Acceptor_HandleRead, Accept. do 2 wp_step. rewrite (sk_new _ _ _ Hsk).
  do 3 wp_step. destruct a as [[connfd err] addr]. apply accept4_law in Hsys. wp_step.
  destruct Hsys as [[-> Ho]|(Hfd & Hnew & Ho)].
  - pose proof (grows_env w e' Hok Ho) as Hg. apply safe_mono; [done |].
    wp_step; bool_simpl; [lia |]. apply (safe_weaken 0); [lia |].
    apply safe_bind_log; [apply Hg | done |]. intros w1 Hg1 _ _.
    wp_step. wp_step. apply log_errno_law in Hsys. apply safe_mono; [by apply grows_env, Hsys; apply Hg1 |].
    apply safe_when; [done | apply grows_env, Hsys; apply Hg1 | intros _].
    apply safe_log; [apply grows_env, Hsys; apply Hg1 | done].
  - pose proof (grows_open w connfd e' Hok Hfd Hnew Ho) as Hg. apply safe_mono; [done |].
    wp_step; bool_simpl; [| lia]. apply safe_NewConnection; upd_simpl.
    + apply Hg.
    + by eexists.
    + exact Hroom.
    + rewrite Ho. unfold open_fd. upd_simpl. set_solver.
    + intros y chy Hy Heq. apply Hnew. rewrite <- Heq. by eapply channel_open.
Qed.

(** ** Callbacks of channels *)

(** The callback can run now. *)
Definition callback_ready w (cb : callback) : Prop :=
  match cb with
  | CbLoopRead l => is_Some (loops w !! l)
  | CbAcceptorRead s => is_Some (servers w !! s)
  | CbConnRead c | CbConnWrite c | CbConnClose c | CbConnError c => established w c
  end.

Lemma callback_ready_grows k e w w' cb : grows k e w w' → callback_ready w cb → callback_ready w' cb.
Proof.
  intros [_ Hext _ _ _]. destruct cb; cbn; [by eapply ext_loop_some | by eapply ext_server_some |
    by eapply established_ext..].
Qed.

Lemma safe_LoopRead l w : world_ok w → is_Some (loops w !! l) → safe 0 None (LoopOps.HandleRead l) w.
Proof.
  intros Hok [lp Hl]. eapply wp_HandleRead; [done |]. intros w' Hq Hls.
  eapply grows_quiet; [done | done | by apply loops_grow_same |].
  intros c cn Hc. by eapply wakeup_fd_other.
Qed.

Lemma safe_HandleWrite c w : world_ok w → established w c → safe 0 None (HandleWrite c) w.
Proof.
  intros Hok (cn & Hc & Hst). destruct (ck_channel _ _ _ (wo_conns w Hok c cn Hc)) as (ch & Hx & _).
  eapply wp_HandleWrite; [done.. | intros _; by apply grows_refl | done].
Qed.

(** How many connections a callback numbers. *)
Definition cost (cb : callback) : Z := match cb with CbAcceptorRead _ => 1 | _ => 0 end.

Lemma safe_call_callback cb t w :
  world_ok w → callback_ready w cb → room (cost cb) w → safe (cost cb) None (call_callback cb t) w.
Proof.
  intros Hok Hcb Hroom. destruct cb; cbn [call_callback cost callback_ready] in *.
  - by apply safe_LoopRead.
  - by apply safe_Acceptor_HandleRead.
  - by apply safe_HandleRead.
  - by apply safe_HandleWrite.
  - by apply safe_HandleClose.
  - apply safe_HandleError; [done | by apply established_some].
Qed.
End accept.
