(* ===== verification/SystemInv.v ===== *)
(** * A round of a loop keeps the invariant

    Events are dispatched to channels whose callbacks can run, queued
    functors are run, and so every round of a loop goes from a good world to
    a good world.  This is proved together with any further invariant that
    the callbacks and the functors keep ([Carried]), such as that of an
    application. *)

From S2P Require Import Prelude Format Kernel Buffer Objects PollerOps ChannelOps ReactorInv PollInv ReactorLife LoopOps LoopInv SocketOps ConnOps ServerOps TurnOps Frames WorldInv WorldSteps ConnInv HandlerInv LifeInv AcceptInv.

Section system.
Context {E : Type} `{KernelLaws E} `{AppOk}.
Implicit Types w : World E.

(** ** What the loop itself changes *)

Lemma grows_polled w w' revs : world_ok w → polled w w' revs → grows 0 None w w'.
Proof.
  intros Hok [Hc Hcore Hup _]. apply grows_same_conns; [done | | | by apply loops_grow_same, Hup].
  - by eapply reactor_ok_core, Hok.
  - split; [| | | apply Hup | apply Hup | |].
    + intros x. rewrite Hc. by apply set_revents_fmap.
    + intros c cn _. rewrite Hc. by apply set_revents_fmap.
    + intros l [p Hp]. pose proof (sc_pollers _ _ Hcore l) as He. rewrite Hp in He.
      apply fmap_Some in He as (? & ? & _). by eexists.
    + rewrite (su_calls _ _ Hup). auto.
    + intros c cn _. unfold out_stream. by rewrite (si_out _ _ (su_io _ _ Hup)).
Qed.

Lemma grows_loop w l lp lp' :
  world_ok w → loops w !! l = Some lp → loop_id lp' = loop_id lp →
  EventLoop.pending_functors_ lp' = EventLoop.pending_functors_ lp ∨ EventLoop.pending_functors_ lp' = [] →
  grows 0 None w (w <| loops ::= <[l := lp']> |>).
Proof.
  intros Hok Hl Hid Hp. apply grows_same_conns; [done | | |].
  - apply (reactor_ok_obs w); [apply Hok | done..].
  - split; upd_simpl; auto.
  - eapply loops_grow_insert; [done | done | done | |].
    + destruct Hp as [->| ->]; [by left | by intros f ?%not_elem_of_nil].
    + destruct Hp as [->| ->]; [done |]. apply sublist_nil_l.
Qed.

(** ** Further invariants *)

(** A further invariant [J] of the rounds of loop [l]: it is kept by what the
    loop does itself, by the callbacks of its channels, and by its functors,
    of which [J] says [P]. *)
Class Carried (l : nat) (J : World E → Prop) (P : functor → Prop) : Prop := {
  ca_log w x : J w → J (w <| log ::= cons x |>);
  ca_polled w w' revs : J w → polled w w' revs → J w';
  ca_loop w lp lp' : J w → loops w !! l = Some lp → loop_id lp' = loop_id lp →
    EventLoop.pending_functors_ lp' = EventLoop.pending_functors_ lp ∨ EventLoop.pending_functors_ lp' = [] →
    J (w <| loops ::= <[l := lp']> |>);
  ca_callback w x ch cb t : world_ok w → J w → channels w !! x = Some ch → Channel.loop_ ch = l →
    callback_ok w x cb → callback_ready w cb → room (cost cb) w →
    after (call_callback cb t) (λ _, J) w;
  ca_functor w f : world_ok w → J w → functor_ready w f → P f → after (run_functor f) (λ _, J) w;
  ca_pending w lp : J w → loops w !! l = Some lp → Forall P (EventLoop.pending_functors_ lp);
}.

(** Nothing more than the invariant. *)
#[export] Instance carried_true l : Carried l (λ _, True) (λ _, True).
Proof.
  split; try done; intros.
  - unfold after. by destruct (call_callback _ _ _).
  - unfold after. by destruct (run_functor _ _).
  - apply Forall_true. done.
Qed.

(** *** Invariants that do not depend on the loop *)

(** The current thread is that of loop [l]. *)
Definition here (l : nat) w : Prop := ∃ lp, loops w !! l = Some lp ∧ EventLoop.thread_id_ lp = tid w.

Lemma here_behind l w w' : behind w w' → here l w → here l w'.
Proof.
  intros [Ht Hls] (lp & (lp' & Hl' & Hid & _)%Hls & Hth). exists lp'. split; [done | congruence].
Qed.

Lemma here_loop l w lp lp' :
  loops w !! l = Some lp → loop_id lp' = loop_id lp → here l w → here l (w <| loops ::= <[l := lp']> |>).
Proof.
  intros Hl Hid (lp0 & Hl0 & Ht). exists lp'. upd_simpl. rewrite lookup_insert_eq. unfold loop_id in Hid.
  split; [done | congruence].
Qed.

Lemma here_polled l w w' revs : polled w w' revs → here l w → here l w'.
Proof. intros [_ _ Hup _] (lp & Hl & Ht). exists lp. by rewrite (su_loops _ _ Hup), (su_tid _ _ Hup). Qed.

Lemma behind_servers w g : behind w (w <| servers ::= g |>).
Proof. by apply behind_same. Qed.

#[export] Instance admits_server_behind : AdmitsServer (E := E) behind.
Proof. intros w s sv g _ _. by apply behind_same. Qed.

#[export] Instance behind_call_callback cb t : Pres behind (call_callback cb t).
Proof.
  apply (pres_call_callback behind); intros *; [apply (pres_any_server behind) | apply (pres_NewConnection behind)];
    apply behind_servers.
Qed.
#[export] Instance behind_run_functor f : Pres behind (run_functor f).
Proof. apply (pres_run_functor behind). intros *. apply (pres_any_server behind), behind_servers. Qed.

(** An invariant [J] of the rounds of every loop, whatever the current
    thread is in between. *)
Class CarriedAll (J : World E → Prop) (P : functor → Prop) : Prop := {
  cl_log w x : J w → J (w <| log ::= cons x |>);
  cl_tid w t : J w → J (w <| tid := t |>);
  cl_polled w w' revs : J w → polled w w' revs → J w';
  cl_loop w l lp lp' : J w → loops w !! l = Some lp → loop_id lp' = loop_id lp →
    EventLoop.pending_functors_ lp' = EventLoop.pending_functors_ lp ∨ EventLoop.pending_functors_ lp' = [] →
    J (w <| loops ::= <[l := lp']> |>);
  cl_callback w l x ch cb t : world_ok w → J w → here l w → channels w !! x = Some ch → Channel.loop_ ch = l →
    callback_ok w x cb → callback_ready w cb → room (cost cb) w →
    after (call_callback cb t) (λ _, J) w;
  cl_functor w l f : world_ok w → J w → here l w → functor_ready w f → P f → after (run_functor f) (λ _, J) w;
  cl_pending w l lp : J w → loops w !! l = Some lp → Forall P (EventLoop.pending_functors_ lp);
}.

(** Such an invariant, in a round of loop [l]. *)
Definition in_round (J : World E → Prop) (l : nat) w : Prop := J w ∧ here l w.

Lemma in_round_after {A} J l (m : M (World E) A) w :
  Pres behind m → here l w → after m (λ _, J) w → after m (λ _, in_round J l) w.
Proof.
  intros Hm Hh Ha. eapply after_mono; [apply after_and; [exact Ha | by apply (pres_after behind)] |].
  intros a w' [HJ Hb]. split; [done | by eapply here_behind].
Qed.

#[export] Instance carried_all J P `{!CarriedAll J P} l : Carried l (in_round J l) P.
Proof.
  split.
  - intros w x [HJ Hh]. split; [by apply cl_log | done].
  - intros w w' revs [HJ Hh] Hp. split; [by eapply cl_polled | by eapply here_polled].
  - intros w lp lp' [HJ Hh] Hl Hid Hp. split; [by eapply cl_loop | by eapply here_loop].
  - intros w x ch cb t Hok [HJ Hh] ?????. apply in_round_after; [apply _ | done | by eapply cl_callback].
  - intros w f Hok [HJ Hh] ??. apply in_round_after; [apply _ | done | by eapply cl_functor].
  - intros w lp [HJ Hh]. by eapply cl_pending.
Qed.

(** Nothing more than the invariant. *)
#[export] Instance carried_all_true : CarriedAll (λ _, True) (λ _, True).
Proof.
  split; try done; intros.
  - unfold after. by destruct (call_callback _ _ _).
  - unfold after. by destruct (run_functor _ _).
  - apply Forall_true. done.
Qed.

Section carried.
Context (l : nat) (J : World E → Prop) (P : functor → Prop) `{!Carried l J P}.

(** [kept k m w]: [m] numbers at most [k] connections and keeps both. *)
Abbreviation kept k m w := (wp may_stop m (λ _ w', grows k None w w' ∧ J w') w).

Lemma kept_ret {A} k (a : A) w : 0 ≤ k → world_ok w → J w → kept k (mret a) w.
Proof. intros. split; [by apply grows_refl | done]. Qed.

Lemma kept_bind_add {A B} k1 k2 (m : M (World E) A) (f : A → M (World E) B) w :
  kept k1 m w → (∀ a w1, grows k1 None w w1 → J w1 → kept k2 (f a) w1) → kept (k1 + k2) (m ≫= f) w.
Proof.
  intros Hm Hf. apply wp_bind. eapply wp_mono; [exact Hm |]. intros a w1 [Hg HJ].
  eapply wp_mono; [by apply Hf |]. intros b w2 [Hg2 HJ2]. split; [by eapply grows_trans | done].
Qed.

Lemma kept_weaken {A} k k' (m : M (World E) A) w : k ≤ k' → kept k m w → kept k' m w.
Proof. intros Hk Hm. eapply wp_mono; [exact Hm |]. intros a w' [Hg HJ]. split; [by eapply grows_weaken | done]. Qed.

(** ** Dispatching *)

(** The channel is one of the loop, and its callbacks can run. *)
Definition chan_ready w (x : nat) : Prop :=
  ∃ ch, channels w !! x = Some ch ∧ Channel.loop_ ch = l ∧ Forall (callback_ready w) (channel_callbacks ch).

Lemma chan_ready_grows k e w w' x : grows k e w w' → chan_ready w x → chan_ready w' x.
Proof.
  intros Hg (ch & Hx & Hl & Hall). destruct (ex_channels _ _ _ (gr_ext _ _ _ _ Hg) x ch Hx) as (ch' & Hx' & Hf).
  exists ch'. unfold channel_callbacks. unfold chan_fixed in Hf.
  injection Hf as -> _ -> -> -> ->. split_and!; [done.. |].
  eapply Forall_impl; [exact Hall |]. intros cb. by eapply callback_ready_grows.
Qed.

Lemma callbacks_of ch cb :
  (Channel.close_callback_ ch = Some cb ∨ Channel.error_callback_ ch = Some cb ∨
   Channel.read_callback_ ch = Some cb ∨ Channel.write_callback_ ch = Some cb) →
  cb ∈ channel_callbacks ch.
Proof.
  unfold channel_callbacks. intros [->|[->|[->| ->]]]; set_solver.
Qed.

(** One of the four tests of [HandleEventWithGuard]. *)
Lemma kept_run_test x t k w :
  world_ok w → J w → chan_ready w x → room 1 w → kept 1 (run_test x t k) w.
Proof.
  intros Hok HJ (ch & Hx & Hl & Hall) Hroom. unfold run_test. do 2 wp_step.
  apply wp_when; [intros _ | intros _; split; [by apply grows_refl | done]].
  unfold call_if. destruct (test_callback k ch) as [cb|] eqn:Hcb; [| by apply kept_ret].
  assert (cb ∈ channel_callbacks ch) as Hin by (destruct k; apply callbacks_of; auto).
  assert (0 ≤ cost cb ≤ 1) by (destruct cb; cbn; lia).
  assert (room (cost cb) w) as Hcost by (eapply room_weaken; [| done]; lia).
  assert (callback_ready w cb) as Hr by by eapply Forall_forall.
  apply (kept_weaken (cost cb)); [lia |]. apply wp_and_after; [by apply safe_call_callback |].
  eapply ca_callback; try done. by eapply (proj1 (Forall_forall _ _) (wo_callbacks w Hok x ch Hx)).
Qed.

Lemma kept_tests x t ks : ∀ w,
  world_ok w → J w → chan_ready w x → room (zlen ks) w →
  kept (zlen ks) (sequence_ (run_test x t <$> ks)) w.
Proof.
  induction ks as [|k ks IH]; intros w Hok HJ Hr Hroom; [by apply kept_ret |].
  rewrite zlen_cons in *. pose proof (zlen_nonneg ks). cbn [fmap list_fmap sequence_]. apply kept_bind_add.
  - apply kept_run_test; [done.. |]. eapply room_weaken; [| done]. lia.
  - intros _ w1 Hg HJ1. apply IH; [apply Hg | done | by eapply chan_ready_grows | by eapply room_grows].
Qed.

Lemma kept_begin_event x w :
  world_ok w → J w → chan_ready w x → kept 0 (begin_event x) w.
Proof.
  intros Hok HJ (ch & Hx & _). unfold begin_event. do 3 wp_step.
  assert (∀ o : option nat, kept 0 (match o with
    | None => mret false
    | Some _ => ch ← the_channel x;
        LOG_INFO "channel HandleEvent revents: %d\n" [AInt (Channel.revents_ ch)];; mret true end) w) as Ho.
  { intros [c|]; [| by apply kept_ret]. do 5 wp_step. split; [by apply grows_log | by eapply ca_log]. }
  destruct (Channel.tied_ ch); [| apply (Ho (Some x))].
  unfold lock. do 2 wp_step. apply Ho.
Qed.

Lemma kept_HandleEvent x t w :
  world_ok w → J w → chan_ready w x → room 4 w → kept 4 (HandleEvent call_callback x t) w.
Proof.
  intros Hok HJ Hr Hroom. eapply wp_eq; [apply HandleEvent_tests |].
  apply (kept_bind_add 0 4); [by apply kept_begin_event |]. intros b w1 Hg HJ1.
  apply wp_when; [intros _ | intros _; split; [by apply grows_refl, Hg | done]].
  apply (kept_tests x t all_tests); [apply Hg | done | by eapply chan_ready_grows | by eapply (room_grows 0)].
Qed.

Lemma kept_handle_active xs : ∀ w,
  world_ok w → J w → is_Some (loops w !! l) → Forall (chan_ready w) xs → room (4 * zlen xs) w →
  kept (4 * zlen xs) (handle_active call_callback l xs) w.
Proof.
  unfold handle_active. induction xs as [|x xs IH]; intros w Hok HJ Hl Hall Hroom.
  - by apply kept_ret.
  - apply Forall_cons in Hall as [Hx Hall]. rewrite zlen_cons in *. pose proof (zlen_nonneg xs).
    replace (4 * (1 + zlen xs)) with (4 + 4 * zlen xs) in * by lia. cbn [fmap list_fmap sequence_].
    apply kept_bind_add.
    + destruct Hl as [lp Hl]. do 2 wp_step. apply kept_HandleEvent; [done | done | done |].
      intros s sv Hs. pose proof (Hroom s sv Hs). lia.
    + intros _ w1 Hg HJ1. apply IH; [apply Hg | done | by eapply ext_loop_some; [apply Hg |] | | by eapply room_grows].
      eapply Forall_impl; [exact Hall |]. intros y. by eapply chan_ready_grows.
Qed.

(** ** Polling *)

(** Only a channel that is in the interest list is reported; so the
    connection it belongs to was established. *)
Lemma reported_ready w xr : world_ok w → reported w l xr → chan_ready w xr.1.
Proof.
  intros Hok (ch & Hx & Hl & Hi & _). exists ch. split_and!; [done.. |].
  eapply Forall_impl; [by apply (wo_callbacks w Hok) |]. intros cb Hcb.
  assert (∀ c, (∃ cn, conns w !! c = Some cn ∧ TcpConnection.channel_ cn = xr.1) → established w c) as Hest.
  { intros c (cn & Hc & Hxc). exists cn. split; [done |]. intros Hst.
    destruct (ck_channel _ _ _ (wo_conns w Hok c cn Hc)) as (ch' & Hx' & _ & _ & _ & Hf).
    destruct (cf_connecting _ _ Hf Hst) as [Hi' _]. rewrite Hxc, Hx in Hx'. injection Hx' as <-.
    by rewrite Hi in Hi'. }
  by destruct cb; cbn in *; auto.
Qed.

(** ** The functors *)

(** The functors taken from the queue can run one after the other. *)
Record functors_ready w (fs : list functor) : Prop := {
  fr_ok : Forall (functor_ok w) fs;
  fr_carried : Forall P fs;
  fr_est : est_ok w l fs;
  fr_taken c : c ∈ est_ids fs → not_queued (Some c) w;
}.

Lemma functors_ready_grows k e w w' fs :
  grows k e w w' → (∀ c, c ∈ est_ids fs → e ≠ Some c) → functors_ready w fs → functors_ready w' fs.
Proof.
  intros Hg He [Hf HP Hest Ht]. split.
  - eapply Forall_impl; [exact Hf |]. intros g. by eapply functor_ok_ext, Hg.
  - done.
  - eapply est_ok_ext; [apply Hg | apply Hg | | done]. intros c Hc Hin. by apply (He c).
  - intros c Hc. apply (gr_queued _ _ _ _ Hg); [by apply He | | by apply Ht].
    destruct (proj2 Hest c Hc) as (cn & ? & _). by exists cn.
Qed.

(** One functor is run; the others can still run. *)
Lemma kept_functor f fs w :
  world_ok w → J w → functors_ready w (f :: fs) →
  wp may_stop (run_functor f) (λ _ w', grows 0 (est_of f) w w' ∧ J w' ∧ functors_ready w' fs) w.
Proof.
  intros Hok HJ [Hf HP [Hnd He] Ht].
  apply Forall_cons in Hf as [Hf Hfs]. apply Forall_cons in HP as [HPf HP].
  assert (est_ids (f :: fs) = option_list (est_of f) ++ est_ids fs) as Hids by by destruct f.
  rewrite Hids in Hnd, He, Ht. apply NoDup_app in Hnd as (_ & Hnot & Hnd).
  assert (functor_ready w f) as Hrd.
  { split_and!; [done | |].
    - destruct (est_of f) as [c|] eqn:Hc; [| apply not_queued_none]. apply Ht. set_solver.
    - intros c Hc. destruct (He c) as (cn & ? & _ & ?); [rewrite Hc; set_solver | by exists cn]. }
  eapply wp_mono; [apply wp_and_after; [by apply safe_run_functor | by eapply ca_functor] |].
  intros a w1 [Hg HJ1]. split_and!; [done | done |]. apply functors_ready_grows with 0 (est_of f) w; [done | |].
  - intros c Hc Hfc. apply (Hnot c); [rewrite Hfc; set_solver | done].
  - split; [done | done | split; [done |] |]; intros c Hc; [apply He | apply Ht]; set_solver.
Qed.

Lemma kept_functors fs : ∀ w,
  world_ok w → J w → functors_ready w fs →
  wp may_stop (sequence_ (run_functor <$> fs)) (λ _ w', world_ok w' ∧ ext 0 w w' ∧ J w') w.
Proof.
  induction fs as [|f fs IH]; intros w Hok HJ Hr.
  - split_and!; [done | by apply ext_refl | done].
  - cbn [fmap list_fmap sequence_]. wp_step. eapply wp_mono; [by apply (kept_functor f fs) |].
    intros a w1 (Hg & HJ1 & Hr1). eapply wp_mono; [apply IH; [apply Hg | done | done] |].
    intros _ w2 (Hok2 & Hx2 & HJ2). split_and!; [done | by eapply ext_0_r, Hx2; apply Hg | done].
Qed.

(** The queue after the functors were taken from it. *)
Lemma taken_ready w lp w' : world_ok w → J w → loops w !! l = Some lp → grows 0 None w w' →
  loops w' = <[l := lp <| EventLoop.calling_pending_functors_ := true |>
                       <| EventLoop.pending_functors_ := [] |>]> (loops w) →
  functors_ready w' (EventLoop.pending_functors_ lp).
Proof.
  intros Hok HJ Hl Hg Hls. pose proof (wo_loops w Hok l lp Hl) as Hlk. split.
  - eapply Forall_impl; [apply Hlk |]. intros f. by eapply functor_ok_ext, Hg.
  - by eapply ca_pending.
  - eapply est_ok_ext; [apply Hg | apply Hg | done | apply Hlk].
  - intros c Hc c' l' lp' [= <-]. rewrite Hls, lookup_insert.
    case_decide; [intros [= <-]; apply not_elem_of_nil |]. intros Hl' Hin.
    destruct (proj2 (lk_est _ _ _ Hlk) c Hc) as (cn & Hcn & Hlc & _).
    destruct (proj2 (lk_est _ _ _ (wo_loops w Hok l' lp' Hl')) c Hin) as (cn' & Hcn' & Hlc' & _).
    congruence.
Qed.

Lemma kept_take_functors w :
  world_ok w → J w → is_Some (loops w !! l) →
  wp may_stop (take_functors l) (λ fs w', grows 0 None w w' ∧ J w' ∧ functors_ready w' fs) w.
Proof.
  intros Hok HJ [lp Hl]. unfold take_functors. do 5 wp_step. upd_simpl.
  set (lp1 := lp <| EventLoop.calling_pending_functors_ := true |>). set (w1 := w <| loops ::= _ |>).
  assert (grows 0 None w w1) as Hg1 by (apply (grows_loop w l lp); [done.. | by left]).
  assert (J w1) as HJ1 by (eapply ca_loop; [done.. | by left]).
  assert (loops w1 !! l = Some lp1) as Hl1 by apply lookup_insert_eq. do 2 wp_step.
  set (lp2 := lp1 <| EventLoop.pending_functors_ := [] |>). set (w2 := w1 <| loops ::= _ |>).
  assert (grows 0 None w1 w2) as Hg2 by (apply (grows_loop w1 l lp1); [apply Hg1 | done | done | by right]).
  assert (J w2) as HJ2 by (eapply ca_loop; [done.. | by right]).
  pose proof (grows_0 _ _ _ _ _ Hg1 Hg2) as Hg. split_and!; [done | done |].
  apply (taken_ready w lp w2); try done. apply insert_insert_eq.
Qed.

Lemma kept_done_functors w :
  world_ok w → J w → is_Some (loops w !! l) → kept 0 (done_functors l) w.
Proof.
  intros Hok HJ [lp Hl]. unfold done_functors. wp_step.
  split; [apply (grows_loop w l lp); [done.. | by left] | eapply ca_loop; [done.. | by left]].
Qed.

Lemma kept_DoPendingFunctors w :
  world_ok w → J w → is_Some (loops w !! l) →
  wp may_stop (DoPendingFunctors run_functor l) (λ _ w', world_ok w' ∧ ext 0 w w' ∧ J w') w.
Proof.
  intros Hok HJ Hl. eapply wp_eq; [apply DoPendingFunctors_turns |]. wp_step.
  eapply wp_mono; [by apply kept_take_functors |]. intros fs w1 (Hg1 & HJ1 & Hr). wp_step.
  eapply wp_mono; [apply kept_functors; [apply Hg1 | done | done] |]. intros [] w2 (Hok2 & Hx2 & HJ2).
  pose proof (ext_0_l _ _ _ _ (gr_ext _ _ _ _ Hg1) Hx2) as Hx.
  eapply wp_mono; [apply kept_done_functors; [done | done | by eapply ext_loop_some] |].
  intros [] w3 [Hg3 HJ3]. split_and!; [apply Hg3 | eapply ext_0_l, Hg3; exact Hx | done].
Qed.

(** ** The body of the loop *)

(** A list of channels without repetition is no longer than the heap. *)
Lemma reported_length w revs :
  NoDup revs.*1 → Forall (reported w l) revs → zlen revs.*1 ≤ Z.of_nat (size (channels w)).
Proof.
  intros Hnd Hall. unfold zlen. apply Nat2Z.inj_le. rewrite <- size_dom.
  rewrite <- (size_list_to_set (C := gset nat)) by done. apply subseteq_size.
  intros x Hx%elem_of_list_to_set. apply list_elem_of_fmap in Hx as (xr & -> & Hin).
  destruct (proj1 (Forall_forall _ _) Hall xr Hin) as (ch & Hx & _). by apply elem_of_dom.
Qed.

(** How many connections a round may number: four callbacks on each channel. *)
Definition round_cost w : Z := 4 * Z.of_nat (size (channels w)).

(** The channels [Poll] reports can be handled; there are no more of them
    than channels. *)
Lemma kept_poll_turn w :
  world_ok w → J w → is_Some (loops w !! l) →
  wp may_stop (poll_turn l) (λ active w', grows 0 None w w' ∧ J w' ∧ Forall (chan_ready w') active ∧
    zlen active ≤ Z.of_nat (size (channels w))) w.
Proof.
  intros Hok HJ [lp Hl]. unfold poll_turn. do 3 wp_step.
  set (lp1 := lp <| EventLoop.active_channels_ := [] |>). set (w1 := w <| loops ::= _ |>).
  assert (grows 0 None w w1) as Hg1 by (apply (grows_loop w l lp); [done.. | by left]).
  assert (J w1) as HJ1 by (eapply ca_loop; [done.. | by left]).
  assert (loops w1 !! l = Some lp1) as Hl1 by apply lookup_insert_eq. wp_step.
  destruct (lk_poller _ _ _ (wo_loops w1 (gr_ok _ _ _ _ Hg1) l lp1 Hl1)) as [p Hp].
  wp_step. eapply wp_Poll; [apply Hg1 | done |]. intros now revs w2 Hpd Hnd Hrep.
  pose proof (grows_polled _ _ _ (gr_ok _ _ _ _ Hg1) Hpd) as Hg2.
  assert (J w2) as HJ2 by by eapply ca_polled.
  assert (loops w2 !! l = Some lp1) as Hl2 by (by rewrite (su_loops _ _ (pd_upper _ _ _ Hpd))).
  do 3 wp_step. set (lp3 := lp1 <| EventLoop.active_channels_ := _ |> <| EventLoop.poll_return_time_ := _ |>).
  set (w3 := w2 <| loops ::= _ |>).
  assert (grows 0 None w2 w3) as Hg3 by (apply (grows_loop w2 l lp1); [apply Hg2 | done | done | by left]).
  split_and!; [exact (grows_0 _ _ _ _ _ Hg1 (grows_0 _ _ _ _ _ Hg2 Hg3)) | eapply ca_loop; [done.. | by left] | |].
  - apply Forall_fmap. eapply Forall_impl; [exact Hrep |]. intros xr Hxr. cbn.
    eapply chan_ready_grows; [exact (grows_0 _ _ _ _ _ Hg2 Hg3) |]. by apply reported_ready; [apply Hg1 |].
  - exact (reported_length _ _ Hnd Hrep).
Qed.

Lemma kept_loop_body w :
  world_ok w → J w → is_Some (loops w !! l) → room (round_cost w) w →
  wp may_stop (server_loop_body l) (λ _ w', world_ok w' ∧ ext (round_cost w) w w' ∧ J w') w.
Proof.
  intros Hok HJ Hl Hroom. eapply wp_eq; [apply loop_body_turns |]. wp_step.
  eapply wp_mono; [by apply kept_poll_turn |]. intros active w1 (Hg1 & HJ1 & Hall & Hlen).
  assert (4 * zlen active ≤ round_cost w) by (unfold round_cost; lia).
  wp_step. eapply wp_mono; [apply kept_handle_active; [apply Hg1 | done | | done |] |].
  - by eapply ext_loop_some; [apply Hg1 |].
  - eapply (room_grows 0); [exact Hg1 |]. eapply room_weaken; [| exact Hroom]. lia.
  - intros [] w2 [Hg2 HJ2]. pose proof (grows_0 _ _ _ _ _ Hg1 Hg2) as Hg.
    eapply wp_mono; [apply kept_DoPendingFunctors; [apply Hg2 | done | by eapply ext_loop_some; [apply Hg |]] |].
    intros [] w3 (Hok3 & Hx3 & HJ3). split_and!; [done | | done]. apply (ext_weaken (4 * zlen active)); [done |].
    eapply ext_0_r, Hx3. apply Hg.
Qed.
End carried.

Lemma safe_loop_body l w :
  world_ok w → is_Some (loops w !! l) → room (round_cost w) w →
  wp may_stop (server_loop_body l) (λ _ w', world_ok w' ∧ ext (round_cost w) w w') w.
Proof.
  intros Hok Hl Hroom. eapply wp_mono; [by apply (kept_loop_body l (λ _, True) (λ _, True)) |].
  by intros [] w' (? & ? & _).
Qed.
End system.
