(* ===== verification/SetupInv.v ===== *)
(** * Making loops and servers establishes the invariant

    The constructors of [EventLoop], [EventLoopThread] and [TcpServer], and
    [TcpServer::Start]: from any good world, the empty one for instance, they
    reach a good world or end the process with a FATAL line. *)

From S2P Require Import Prelude Format Kernel Buffer Objects PollerOps ChannelOps ReactorInv PollInv ReactorLife LoopOps LoopInv SocketOps ConnOps ServerOps Frames WorldInv WorldSteps ConnInv HandlerInv LifeInv AcceptInv SystemInv.

Section setup.
Context {E : Type} `{KernelLaws E}.
Implicit Types w : World E.

(** ** A new loop *)

Lemma grows_new_loop w w' l lp x ch :
  world_ok w → reactor_ok w' → loops w !! l = None → channels w !! x = None →
  loops w' = <[l := lp]> (loops w) → channels w' = <[x := ch]> (channels w) →
  is_Some (pollers w' !! l) → (∀ l', is_Some (pollers w !! l') → is_Some (pollers w' !! l')) →
  conns w' = conns w → servers w' = servers w → calls w' = calls w →
  (∀ c cn, conns w !! c = Some cn →
     out_stream (obs w') (TcpConnection.socket_ cn) = out_stream (obs w) (TcpConnection.socket_ cn)) →
  EventLoop.pending_functors_ lp = [] → EventLoop.wakeup_channel_ lp = x →
  Channel.loop_ ch = l → Channel.fd_ ch = EventLoop.wakeup_fd_ lp →
  channel_callbacks ch = [CbLoopRead l] → Channel.read_callback_ ch = Some (CbLoopRead l) →
  grows 0 None w w'.
Proof.
  intros Hok Hro Hl Hx Hls Hchs Hpl Hps Hcns Hsvs Hcl Hout Hpend Hwx Hcl1 Hfd Hcbs Hrd.
  assert (ext 0 w w') as Hext.
  { split; rewrite ?Hls, ?Hchs, ?Hcns, ?Hsvs; try done.
    - intros l0 lp0 Hl0. exists lp0. split; [| done]. rewrite lookup_insert_ne; [done | congruence].
    - intros y chy Hy. exists chy. split; [| done]. rewrite lookup_insert_ne; [done | congruence].
    - intros c cn Hc. exists cn. split_and!; [done | done | done |]. unfold stream. by erewrite Hout.
    - eauto with lia. }
  assert (keeps w w' None) as Hk by (intros d dn _ Hd Hst; exists dn; by rewrite Hcns).
  split; [| done | done | | by rewrite Hsvs]; last first.
  { intros c _ _ Hq c' l0 lp0 Hc'. rewrite Hls, lookup_insert.
    case_decide; [intros [= <-]; rewrite Hpend; apply not_elem_of_nil | by apply Hq]. }
  split; [done | | | | |].
  - intros l0 lp0. rewrite Hls, lookup_insert. case_decide; [subst l0; intros [= <-] |].
    + split; [done | | by rewrite Hpend |].
      * exists ch. by rewrite Hwx, Hchs, lookup_insert_eq.
      * rewrite Hpend. split; [constructor | by intros c ?%not_elem_of_nil].
    + intros Hl0. pose proof (wo_loops w Hok l0 lp0 Hl0) as Hlk.
      eapply loop_ok_ext; [done | done | | | done].
      * eapply Forall_impl; [apply Hlk |]. intros. by eapply functor_ok_ext.
      * eapply est_ok_ext; [done | exact Hk | done | apply Hlk].
  - intros c cn. rewrite Hcns. intros Hc. eapply conn_ok_ext; [done | | by apply Hok].
    intros chc Hchc. rewrite Hchs, lookup_insert_ne; [by eauto | congruence].
  - intros s sv. rewrite Hsvs. intros Hs%(wo_servers w Hok). by eapply server_ok_ext.
  - intros y chy. rewrite Hchs, lookup_insert. case_decide; [subst y; intros [= <-] |].
    + rewrite Hcbs. repeat constructor. cbn. rewrite Hls, lookup_insert_eq. by eexists.
    + intros Hy. eapply Forall_impl; [by apply (wo_callbacks w Hok) |]. intros. by eapply callback_ok_ext.
  - rewrite Hcl. eapply Forall_impl; [apply Hok |]. intros. by eapply call_ok_ext.
Qed.

Lemma chan_step_poller w w' x ch' l :
  chan_step w w' x ch' → is_Some (pollers w !! l) → is_Some (pollers w' !! l).
Proof.
  intros Hs [p Hp]. pose proof (cs_pollers _ _ _ _ Hs l) as He. rewrite Hp in He.
  apply fmap_Some in He as (? & ? & _). by eexists.
Qed.

(** The loop that [new_loop] makes. *)
Definition fresh_loop (thread fd : Z) (x : nat) : EventLoop.t :=
  EventLoop.mk false false 0 [] thread fd x [] false.

(** On an epoll descriptor that is not open, a channel cannot be enabled. *)
Lemma wp_EnableReading_closed x ch p Q w :
  channels w !! x = Some ch → Channel.index_ ch = kNew → pollers w !! Channel.loop_ ch = Some p →
  EpollPoller.epoll_fd_ p ∉ k_open (obs w) → wp fatal_exit (EnableReading x) Q w.
Proof.
  intros Hx Hi Hp Hno. unfold EnableReading, ChannelOps.Update, EventLoop_UpdateChannel, PollerOps.UpdateChannel.
  do 6 wp_step. upd_simpl. rewrite Hi. wp_step; [| done]. unfold SetIndex. do 4 wp_step.
  unfold PollerOps.Update. do 6 wp_step. destruct a as [n err]. upd_simpl.
  apply epoll_add_law in Hsys as [[-> _]|(_ & Ho & _)]; [| by destruct Hno].
  wp_step; bool_simpl; [| lia]. rewrite decide_False by done. wp_step.
Qed.

(** The world when the wake-up channel is enabled, where both descriptors
    could be made. *)
Lemma reactor_ok_new_loop w w' l x ep fd e1 e2 :
  reactor_ok w → pollers w !! l = None → channels w !! x = None →
  pollers w' = <[l := PollerOps.ctor ep]> (pollers w) →
  channels w' = <[x := ChannelOps.ctor l fd]> (channels w) →
  0 ≤ ep → ep ∉ k_open (obs w) → observe e1 = open_fd ep (obs w) →
  0 ≤ fd → fd ∉ k_open (observe e1) → observe e2 = open_fd fd (observe e1) → obs w' = observe e2 →
  reactor_ok w'.
Proof.
  intros Hok Hl Hx Hps Hchs Hep0 Hep He1 Hfd0 Hfd He2 Ho.
  set (w1 := w <| env := e1 |>).
  assert (reactor_ok w1) as Hok1 by by apply (reactor_ok_open w _ ep).
  set (w2 := w1 <| pollers ::= <[l := PollerOps.ctor ep]> |>).
  assert (ep ∈ k_open (observe e1)) as Hin by (rewrite He1; unfold open_fd; upd_simpl; set_solver).
  assert (reactor_ok w2) as Hok2.
  { apply reactor_ok_add_poller; try done.
    - unfold w1. upd_simpl. rewrite He1. unfold interest, open_fd. upd_simpl. by rewrite lookup_delete_eq.
    - intros l' p' Hp' Heq. apply Hep. cbn in Heq. rewrite <- Heq. by eapply (ro_epoll_open w Hok). }
  set (w3 := w2 <| env := e2 |>).
  assert (reactor_ok w3) as Hok3 by by apply (reactor_ok_open w2 _ fd).
  apply (reactor_ok_obs (w3 <| channels ::= <[x := ChannelOps.ctor l fd]> |>)); upd_simpl; try done.
  - apply reactor_ok_add_channel; unfold w3, w2; upd_simpl; try done.
    + rewrite lookup_insert_eq. by eexists.
    + rewrite He2. unfold open_fd. upd_simpl. cbn. set_solver.
    + intros y chy Hy Heq. apply Hfd. cbn in Heq. rewrite <- Heq.
      by apply (co_open w2 chy), (ro_channel w2 Hok2 y).
  - by rewrite Ho.
  - by rewrite Ho.
Qed.

Lemma opens_neg o fd o' : opens o fd o' → -1 ∉ k_open o → -1 ∉ k_open o'.
Proof.
  intros [[_ ->]|(? & _ & ->)]; [done |]. unfold open_fd. upd_simpl.
  intros ? [?%elem_of_singleton|?]%elem_of_union; [lia | done].
Qed.

(** Descriptors that were open are as before. *)
Lemma opens_out o fd o' fd' : opens o fd o' → fd' ∈ k_open o → out_stream o' fd' = out_stream o fd'.
Proof.
  intros [[_ ->]|(_ & Hn & ->)] Hin; [done |]. unfold out_stream, open_fd. upd_simpl.
  rewrite lookup_insert_ne; [done | by intros ->].
Qed.

Lemma opens_open o fd o' fd' : opens o fd o' → fd' ∈ k_open o → fd' ∈ k_open o'.
Proof. intros [[_ ->]|(_ & _ & ->)] Hin; [done |]. unfold open_fd. upd_simpl. set_solver. Qed.

(** [new EventLoop]: the one loop of this thread. *)
Lemma wp_new_loop Q w :
  world_ok w →
  (∀ l w', grows 0 None w w' → loop_in_this_thread w !! tid w = None →
     loop_in_this_thread w' = <[tid w := l]> (loop_in_this_thread w) →
     tid w' = tid w → servers w' = servers w → conns w' = conns w →
     (∃ fd x, loops w' = <[l := fresh_loop (tid w) fd x]> (loops w)) → loops w !! l = None →
     Q l w') →
  wp fatal_exit new_loop Q w.
Proof.
  intros Hok HQ. pose proof (ro_neg w (wo_reactor w Hok)) as Hneg. unfold new_loop, NewDefaultPoller, CreateEventfd. do 2 wp_step.
  set (l := fresh _).
  assert (loops w !! l = None ∧ pollers w !! l = None) as [Hl Hp].
  { pose proof (is_fresh (dom (loops w) ∪ dom (pollers w))) as Hfr. fold l in Hfr.
    split; apply not_elem_of_dom; set_solver. }
  do 3 wp_step. destruct a as [ep err1]. apply epoll_create1_law in Hsys as He1.
  do 6 wp_step. upd_simpl. destruct a as [fd err2]. apply eventfd_law in Hsys0 as He2.
  wp_step. wp_step; bool_simpl; [wp_step |]. unfold new_channel. wp_steps. upd_simpl.
  set (x := fresh (dom (channels w))).
  assert (channels w !! x = None) as Hx by (apply not_elem_of_dom, is_fresh).
  destruct (loop_in_this_thread w !! tid w) as [other|] eqn:Hth; [wp_step |].
  wp_step. set (w1 := _ <| loop_in_this_thread ::= _ |>).
  assert (-1 ∉ k_open (obs w1)) as Hneg1 by by eapply opens_neg, opens_neg.
  assert (channels w1 !! x = Some (ChannelOps.ctor l fd)) as Hx1 by apply lookup_insert_eq.
  assert (pollers w1 !! l = Some (PollerOps.ctor ep)) as Hp1 by apply lookup_insert_eq.
  pose proof He1 as Hop1. pose proof He2 as Hop2.
  wp_step. destruct He1 as [[-> _]|(Hep0 & Hep & Ho1)]; [by eapply wp_EnableReading_closed |].
  destruct He2 as [[-> _]|(Hfd0 & Hfd & Ho2)]; [lia |].
  assert (reactor_ok w1) as Hro1
    by (apply (reactor_ok_new_loop w _ l x ep fd e' e'0); first [apply Hok | done]).
  eapply (wp_set_events x); [done | done | done |]. intros w2 Hs. pose proof (cs_upper _ _ _ _ Hs) as Hup.
  match type of Hs with chan_step _ _ _ ?ch' => set (ch2 := ch') in * end.
  assert (channels w2 = <[x := ch2]> (channels w)) as Hchs2.
  { rewrite (cs_channels _ _ _ _ Hs). unfold w1. upd_simpl. apply insert_insert_eq. }
  assert (channels w2 !! x = Some ch2) as Hx2 by (by rewrite Hchs2, lookup_insert_eq).
  unfold SetReadCallback. do 3 wp_step.
  assert (∀ c cn, conns w !! c = Some cn → out_stream (obs w2) (TcpConnection.socket_ cn) =
    out_stream (obs w) (TcpConnection.socket_ cn)) as Hout.
  { intros c cn Hc. pose proof (conn_socket_open w c cn Hok Hc) as Hsk. unfold out_stream.
    rewrite (si_out _ _ (su_io _ _ Hup)). fold (out_stream (obs w1) (TcpConnection.socket_ cn)).
    unfold w1. upd_simpl. rewrite (opens_out _ _ _ _ Hop2) by by eapply opens_open.
    by rewrite (opens_out _ _ _ _ Hop1). }
  apply HQ; try done; upd_simpl; try apply Hup.
  - apply (grows_new_loop w _ l (fresh_loop (tid w) fd x) x
      (ch2 <| Channel.read_callback_ := Some (CbLoopRead l) |>)); upd_simpl; try done; try apply Hup.
    + apply (reactor_ok_core w2); [by apply (same_core_upd w2 x ch2) | apply Hs].
    + rewrite Hchs2. apply insert_insert_eq.
    + by apply (chan_step_poller w1 w2 x ch2 l Hs), (mk_is_Some _ _ Hp1).
    + intros l' Hl'. apply (chan_step_poller w1 w2 x ch2 l' Hs).
      unfold w1. upd_simpl. rewrite lookup_insert. by case_decide.
  - exists fd, x. rewrite (su_loops _ _ Hup). done.
Qed.
(** ** A new server *)

(** The channel of the acceptor of server [s]. *)
Definition accept_channel (l s : nat) (fd : Z) : Channel.t :=
  Channel.mk l fd 0 0 kNew (Some (CbAcceptorRead s)) None None None None false.

Lemma wp_new_acceptor s l addr rp Q w :
  world_ok w →
  (∀ w1 w' fd x, grows 0 None w w1 → tid w1 = tid w → servers w1 = servers w →
     fd ∈ k_open (obs w1) → (∀ y chy, channels w1 !! y = Some chy → Channel.fd_ chy ≠ fd) →
     channels w1 !! x = None → channels w' = <[x := accept_channel l s fd]> (channels w1) →
     conns w' = conns w1 → servers w' = servers w1 → same_rest w1 w' →
     Q (Acceptor.mk l fd x false None) w') →
  wp fatal_exit (new_acceptor s l addr rp) Q w.
Proof.
  intros Hok HQ. unfold new_acceptor, CreateNonblocking. do 3 wp_step.
  destruct a as [fd err]. apply socket_law in Hsys. wp_step. wp_step; bool_simpl; [wp_step |].
  destruct Hsys as [[-> _]|(Hpos & Hfd & Ho)]; [lia |].
  pose proof (grows_open w fd e' Hok Hpos Hfd Ho) as Hg. set (w1 := w <| env := e' |>) in *.
  unfold new_channel, SetReuseAddr, SetReusePort, BindAddress, setsockopt, SetReadCallback.
  do 6 wp_step. upd_simpl. set (x := fresh (dom (channels w))).
  assert (channels w !! x = None) as Hx by (apply not_elem_of_dom, is_fresh).
  assert (∀ w2, same_rest w1 w2 → channels w2 = <[x := ChannelOps.ctor l fd]> (channels w1) →
    conns w2 = conns w1 → servers w2 = servers w1 →
    wp fatal_exit (upd_channel x (λ ch, ch <| Channel.read_callback_ := Some (CbAcceptorRead s) |>);;
      mret (Acceptor.mk l fd x false None)) Q w2) as Hend.
  { intros w2 Hr Hchs Hcns Hsvs. wp_step.
    eapply wp_upd_channel; [rewrite Hchs; apply lookup_insert_eq |]. wp_step.
    apply (HQ w1 _ fd x); try done; upd_simpl.
    - unfold w1. upd_simpl. rewrite Ho. unfold open_fd. upd_simpl. set_solver.
    - intros y chy Hy Heq. apply Hfd. rewrite <- Heq. by eapply channel_open.
    - by rewrite Hchs, insert_insert_eq.
    - by destruct Hr. }
  change (fresh (dom (channels w1))) with x. do 4 wp_step. destruct a as [r1 err1].
  apply setsockopt_law in Hsys. do 4 wp_step. destruct a as [r2 err2].
  apply setsockopt_law in Hsys0. do 4 wp_step. destruct a as [r3 err3]. apply bind_law in Hsys1.
  upd_simpl. wp_step; [wp_step |]; apply Hend; try done; split; try done; upd_simpl; congruence.
Qed.

(** The server with its callbacks: what the application makes. *)
Definition fresh_server (s l : nat) (addr : InetAddress.t) (name : string) (cc mc : cbid)
    (fd : Z) (x : nat) (n : Z) : TcpServer.t :=
  TcpServer.mk l (ToIpPort addr) name (Acceptor.mk l fd x false (Some s))
    (Pool.SetThreadNum n (Pool.ctor l name)) (Some cc) (Some mc) None None n 0 1 ∅.

Lemma world_ok_new_server w w' s l addr name cc mc fd x n :
  world_ok w → is_Some (loops w !! l) → servers w !! s = None → channels w !! x = None →
  channels w' = <[x := accept_channel l s fd]> (channels w) → conns w' = conns w →
  servers w' = <[s := fresh_server s l addr name cc mc fd x n]> (servers w) →
  same_rest w w' → fd ∈ k_open (obs w) →
  (∀ y chy, channels w !! y = Some chy → Channel.fd_ chy ≠ fd) →
  world_ok w' ∧ ext 0 w w'.
Proof.
  intros Hok [lp Hl] Hs Hx Hchs Hcns Hsvs [Ht Hps Hls Hcl Ho] Hopen Hfd.
  assert (ext 0 w w') as Hext.
  { split; rewrite ?Hps, ?Hls, ?Hchs, ?Hcns, ?Hsvs; try done; eauto.
    - intros y chy Hy. exists chy. split; [| done]. rewrite lookup_insert_ne; [done | congruence].
    - intros c cn Hc. exists cn. split_and!; [done | done | done |]. unfold stream. by rewrite Ho.
    - intros s0 sv0 Hs0. exists sv0. split_and!; [| done | lia | lia].
      rewrite lookup_insert_ne; [done | congruence]. }
  assert (keeps w w' None) as Hk by (intros d dn _ Hd Hst; exists dn; by rewrite Hcns).
  split; [| done]. split.
  - apply (reactor_ok_obs (w <| channels ::= <[x := accept_channel l s fd]> |>)); upd_simpl;
      rewrite ?Ho; try done.
    apply reactor_ok_add_channel; try done; [apply Hok |]. by eapply lk_poller, Hok.
  - intros l0 lp0. rewrite Hls. intros Hl0. pose proof (wo_loops w Hok l0 lp0 Hl0) as Hlk.
    eapply loop_ok_ext; [done | done | | | done].
    + eapply Forall_impl; [apply Hlk |]. intros. by eapply functor_ok_ext.
    + eapply est_ok_ext; [done | exact Hk | done | apply Hlk].
  - intros c cn. rewrite Hcns. intros Hc. eapply conn_ok_ext; [done | | by apply Hok].
    intros ch Hch. rewrite Hchs, lookup_insert_ne by congruence. eauto.
  - intros s0 sv0. rewrite Hsvs, lookup_insert. case_decide; [subst s0; intros [= <-] |].
    + split; cbn; try done.
      * rewrite Hls. by eexists.
      * exists (accept_channel l s fd). by rewrite Hchs, lookup_insert_eq.
      * split; cbn; [rewrite Hls; by eexists | constructor | done | done].
    + intros Hs0. eapply server_ok_ext; [done |]. by apply Hok.
  - intros y chy. rewrite Hchs, lookup_insert. case_decide; [subst y; intros [= <-] |].
    + repeat constructor. cbn. rewrite Hsvs, lookup_insert_eq. by eexists.
    + intros Hy. eapply Forall_impl; [by apply (wo_callbacks w Hok) |]. intros. by eapply callback_ok_ext.
  - rewrite Hcl. eapply Forall_impl; [apply Hok |]. intros. by eapply call_ok_ext.
Qed.

(** Constructing a server and giving it its callbacks and its number of
    threads, as the constructor of an application does. *)
Definition make_server `{App} (l : nat) (addr : InetAddress.t) (name : string) (rp : bool)
    (cc mc : cbid) (n : Z) : M (World E) nat :=
  s ← new_server (Some l) addr name rp;
  Server_SetConnectionCallback s (Some cc);;
  Server_SetMessageCallback s (Some mc);;
  SetThreadNum s n;;
  mret s.

Lemma wp_make_server `{App} l addr name rp cc mc n Q w :
  world_ok w → is_Some (loops w !! l) →
  (∀ s w' fd x, servers w !! s = None → world_ok w' → ext 0 w w' → tid w' = tid w →
     servers w' = <[s := fresh_server s l addr name cc mc fd x n]> (servers w) → Q s w') →
  wp fatal_exit (make_server l addr name rp cc mc n) Q w.
Proof.
  intros Hok Hl HQ. unfold make_server, new_server. do 3 wp_step.
  set (s := fresh (dom (servers w))).
  assert (servers w !! s = None) as Hs by (apply not_elem_of_dom, is_fresh).
  wp_step. apply wp_new_acceptor; [done |]. intros w1 w2 fd x Hg Ht1 Hs1 Hopen Hfd Hx Hchs Hcns Hsvs Hr.
  unfold SetNewConnectionCallback, upd_acceptor, Server_SetConnectionCallback, Server_SetMessageCallback,
    SetThreadNum, upd_pool. wp_steps.
  match goal with |- Q s ?w3 => set (w' := w3) end.
  assert (servers w' = <[s := fresh_server s l addr name cc mc fd x n]> (servers w)) as Hs'.
  { unfold w'. upd_simpl. rewrite !insert_insert_eq, Hsvs, Hs1. done. }
  destruct (world_ok_new_server w1 w' s l addr name cc mc fd x n) as [Hok' Hx']; try done.
  - apply Hg.
  - eapply ext_loop_some; [apply Hg | done].
  - by rewrite Hs1.
  - by rewrite Hs', Hs1.
  - etrans; [exact Hr |]. done.
  - apply (HQ s w' fd x); [done | done | by eapply ext_0_r, Hx'; apply Hg | | done].
    unfold w'. upd_simpl. by rewrite (sr_tid _ _ Hr).
Qed.

(** ** A thread with its loop *)

Lemma grows_tid w t : world_ok w → grows 0 None w (w <| tid := t |>).
Proof.
  intros Hok. apply grows_same_conns; [done | | | by apply loops_grow_same].
  - apply (reactor_ok_obs w); [apply Hok | done..].
  - split; upd_simpl; auto.
Qed.

Context `{AppOk}.

Lemma safe_thread_init cb l w :
  world_ok w → wp may_stop (thread_init cb l)
    (λ _ w', grows 0 None w w' ∧ servers w' = servers w) w.
Proof.
  intros Hok. unfold thread_init. destruct cb as [cb|].
  - apply (frame_wp servers); [apply _ | by apply safe_invoke].
  - wp_step. split; [by apply grows_refl | done].
Qed.

Lemma safe_StartLoop cb w :
  world_ok w → wp may_stop (StartLoop cb) (λ l w', grows 0 None w w' ∧
    servers w' = servers w ∧ tid w' = tid w ∧ is_Some (loops w' !! l) ∧ loops w !! l = None) w.
Proof.
  intros Hok. unfold StartLoop. do 4 wp_step.
  pose proof (grows_tid w (new_tid w) Hok) as Hg1. set (w1 := w <| tid := _ |>) in *.
  wp_step. apply wp_fatal. apply wp_new_loop; [apply Hg1 |].
  intros l w2 Hg2 _ _ _ Hs2 _ (fd & x & Hl2) Hfr. wp_step.
  eapply wp_mono; [apply safe_thread_init, Hg2 |]. intros [] w3 [Hg3 Hs3]. do 3 wp_step.
  pose proof (grows_tid w3 (tid w) (gr_ok _ _ _ _ Hg3)) as Hg4.
  split_and!; [| upd_simpl; by rewrite Hs3, Hs2 | done | | done].
  - eapply grows_0; [exact Hg1 |]. eapply grows_0; [exact Hg2 |]. by eapply grows_0.
  - upd_simpl. eapply ext_loop_some; [apply Hg3 |]. rewrite Hl2, lookup_insert_eq. by eexists.
Qed.

(** ** The threads of a pool *)

(** The server with other loops, or another state of its pool. *)
Lemma grows_pool w s sv p :
  world_ok w → servers w !! s = Some sv → pool_ok w p →
  EventLoopThreadPool.base_loop_ p = EventLoopThreadPool.base_loop_ (TcpServer.thread_pool_ sv) →
  grows 0 None w (w <| servers ::= <[s := sv <| TcpServer.thread_pool_ := p |>]> |>).
Proof.
  intros Hok Hs Hp Hb. apply (grows_server _ _ _ sv); [done | done | | upd_simpl; lia |].
  - unfold server_fixed. upd_simpl. by rewrite Hb.
  - destruct (wo_servers w Hok s sv Hs). by split.
Qed.

Lemma wp_upd_pool X s sv f Q w :
  world_ok w → servers w !! s = Some sv →
  (pool_ok w (TcpServer.thread_pool_ sv) → pool_ok w (f (TcpServer.thread_pool_ sv))) →
  EventLoopThreadPool.base_loop_ (f (TcpServer.thread_pool_ sv)) =
    EventLoopThreadPool.base_loop_ (TcpServer.thread_pool_ sv) →
  (∀ w', grows 0 None w w' → tid w' = tid w → loops w' = loops w →
     servers w' !! s = Some (sv <| TcpServer.thread_pool_ ::= f |>) → Q tt w') →
  wp X (upd_pool s f) Q w.
Proof.
  intros Hok Hs Hf Hb HQ. unfold upd_pool. wp_step. apply HQ; [| done | done | apply lookup_insert_eq].
  apply (grows_pool w s sv (f (TcpServer.thread_pool_ sv))); [done | done | | done].
  by apply Hf, (sk_pool _ _ _ (wo_servers w Hok s sv Hs)).
Qed.

Lemma pool_ok_add w l p :
  is_Some (loops w !! l) → zlen (EventLoopThreadPool.loops_ p) < INT_MAX → pool_ok w p →
  pool_ok w (p <| EventLoopThreadPool.loops_ ::= λ ls, ls ++ [l] |>).
Proof.
  intros Hl Hn [Hb Hls Hsz Hnx]. split; upd_simpl; [done | | |].
  - apply Forall_app. split; [done | by constructor].
  - rewrite zlen_app. change (zlen [l]) with 1. lia.
  - rewrite zlen_app. change (zlen [l]) with 1. lia.
Qed.

(** The pool with threads [i], [i + 1], ... and their loops [ls]. *)
Definition thread_name (p : EventLoopThreadPool.t) (i : Z) : string :=
  snprintf (String.length (EventLoopThreadPool.name_ p) + 32) (EventLoopThreadPool.name_ p +:+ decimal_int i).
Definition with_threads (i : Z) (ls : list nat) (p : EventLoopThreadPool.t) : EventLoopThreadPool.t :=
  p <| EventLoopThreadPool.loops_ ::= λ ls0, ls0 ++ ls |>
    <| EventLoopThreadPool.threads_ ::= λ ts, ts ++ ((λ j, thread_name p (i + Z.of_nat j)) <$> seq 0 (length ls)) |>.

Lemma with_threads_nil i p : with_threads i [] p = p.
Proof. destruct p. unfold with_threads, upd. cbn. by rewrite !app_nil_r. Qed.

Lemma with_threads_cons i l ls p :
  with_threads (i + 1) ls (p <| EventLoopThreadPool.loops_ ::= λ ls, ls ++ [l] |>
    <| EventLoopThreadPool.threads_ ::= λ ts, ts ++ [thread_name p i] |>) = with_threads i (l :: ls) p.
Proof.
  unfold with_threads, upd, thread_name. cbn. rewrite <- !app_assoc. f_equal. cbn. do 2 f_equal.
  - by rewrite Z.add_0_r.
  - rewrite <- fmap_S_seq, <- list_fmap_compose. apply list_fmap_ext. intros _ j _. cbn. do 2 f_equal. f_equal. lia.
Qed.

Lemma safe_start_threads s cb n : ∀ i sv w,
  world_ok w → servers w !! s = Some sv →
  zlen (EventLoopThreadPool.loops_ (TcpServer.thread_pool_ sv)) + Z.of_nat n ≤ INT_MAX →
  wp may_stop (start_threads s cb i n) (λ _ w', grows 0 None w w' ∧ tid w' = tid w ∧
    ∃ ls, servers w' !! s = Some (sv <| TcpServer.thread_pool_ ::= with_threads i ls |>) ∧
      length ls = n ∧ NoDup ls ∧ Forall (λ l, loops w !! l = None) ls) w.
Proof.
  induction n as [|n IH]; intros i sv w Hok Hs Hn; cbn [start_threads].
  - split; [by apply grows_refl | split; [done | exists []]]. split_and!; try done; [| constructor].
    rewrite Hs. f_equal. destruct sv. unfold upd. cbn. by rewrite with_threads_nil.
  - do 3 wp_step. eapply wp_mono; [by apply safe_StartLoop |].
    intros l w1 (Hg1 & Hs1 & Ht1 & Hl & Hfr). rewrite <- Hs1 in Hs.
    wp_step. eapply wp_upd_pool; [apply Hg1 | done | apply pool_ok_add; [done | lia] | done |].
    intros w2 Hg2 Ht2 Hl2 Hs2.
    wp_step. eapply wp_upd_pool; [apply Hg2 | done | by intros [] | done |].
    intros w3 Hg3 Ht3 Hl3 Hs3. eapply wp_mono; [apply (IH _ _ w3 (gr_ok _ _ _ _ Hg3) Hs3) |].
    + upd_simpl. rewrite zlen_app. change (zlen [l]) with 1. lia.
    + intros [] w4 (Hg4 & Ht4 & ls & Hs4 & Hlen & Hnd & Hfrs). split; [| split; [congruence | exists (l :: ls)]].
      { eapply grows_0; [exact Hg1 |]. eapply grows_0; [exact Hg2 |]. by eapply grows_0. }
      assert (is_Some (loops w3 !! l)) as Hl3' by (by rewrite Hl3, Hl2). split_and!.
      * rewrite Hs4. f_equal. unfold upd. cbn -[with_threads thread_name]. f_equal. by rewrite <- with_threads_cons.
      * cbn. by f_equal.
      * constructor; [| done]. intros Hin. rewrite Forall_forall in Hfrs. rewrite (Hfrs l Hin) in Hl3'.
        by apply is_Some_None in Hl3'.
      * constructor; [done |]. eapply Forall_impl; [exact Hfrs |]. cbn. intros l' Hl'.
        apply eq_None_not_Some. intros Hs'. rewrite Hl3, Hl2 in Hl'.
        apply (ext_loop_some _ _ _ (gr_ext _ _ _ _ Hg1)) in Hs'. rewrite Hl' in Hs'. by apply is_Some_None in Hs'.
Qed.

(** ** [TcpServer::Start] *)

(** The pool after [Start]: as many threads as it was set to, each with a loop
    that was not there before. *)
Definition pool_started w w' (s : nat) (sv : TcpServer.t) : Prop := ∃ ls,
  servers w' !! s = Some (sv <| TcpServer.thread_pool_ ::= λ p,
    with_threads 0 ls (p <| EventLoopThreadPool.started_ := true |>) |>) ∧
  length ls = Z.to_nat (EventLoopThreadPool.num_threads_ (TcpServer.thread_pool_ sv)) ∧
  NoDup ls ∧ Forall (λ l, loops w !! l = None) ls.

Lemma wp_Pool_Start s sv cb w :
  world_ok w → servers w !! s = Some sv →
  zlen (EventLoopThreadPool.loops_ (TcpServer.thread_pool_ sv)) +
    Z.max 0 (EventLoopThreadPool.num_threads_ (TcpServer.thread_pool_ sv)) ≤ INT_MAX →
  wp may_stop (Pool_Start s cb) (λ _ w', grows 0 None w w' ∧ pool_started w w' s sv) w.
Proof.
  intros Hok Hs Hn. unfold Pool_Start.
  wp_step. eapply wp_upd_pool; [done | done | by intros [] | done |].
  intros w1 Hg1 Ht1 Hl1 Hs1. do 3 wp_step. upd_simpl.
  eapply wp_mono; [apply (safe_start_threads s cb _ 0 _ w1 (gr_ok _ _ _ _ Hg1) Hs1); upd_simpl; lia |].
  intros [] w2 (Hg2 & _ & ls & Hs2 & Hlen & Hnd & Hfr). pose proof (grows_0 _ _ _ _ _ Hg1 Hg2) as Hg.
  rewrite Hl1 in Hfr. assert (pool_started w w2 s sv) as Hst.
  { exists ls. split_and!; [by rewrite Hs2 | done | done | done]. }
  do 2 wp_step. apply wp_when; [intros _ | by intros _].
  eapply wp_mono; [apply safe_thread_init, Hg2 |]. intros [] w3 [Hg3 Hs3]. split; [by eapply grows_0 |].
  destruct Hst as (ls' & Hst). exists ls'. by rewrite Hs3.
Qed.

Lemma safe_Server_Start s sv w :
  world_ok w → servers w !! s = Some sv →
  zlen (EventLoopThreadPool.loops_ (TcpServer.thread_pool_ sv)) +
    Z.max 0 (EventLoopThreadPool.num_threads_ (TcpServer.thread_pool_ sv)) ≤ INT_MAX →
  wp may_stop (Server_Start s) (λ _ w', grows 0 None w w') w.
Proof.
  intros Hok Hs Hn. unfold Server_Start. do 4 wp_step.
  set (sv1 := sv <| TcpServer.started_ := _ |>). set (w1 := w <| servers ::= _ |>).
  assert (grows 0 None w w1) as Hg1.
  { apply (grows_server _ _ _ sv); [done | done | reflexivity | unfold sv1; upd_simpl; lia |].
    destruct (wo_servers w Hok s sv Hs). by split. }
  assert (servers w1 !! s = Some sv1) as Hs1 by apply lookup_insert_eq.
  apply wp_when; [intros _ | by intros _]. wp_step.
  eapply wp_mono; [by eapply wp_Pool_Start; [apply Hg1 | |] |]. intros [] w2 [Hg2 _].
  pose proof (grows_0 _ _ _ _ _ Hg1 Hg2) as Hg.
  eapply wp_mono; [apply safe_RunInLoop; [apply Hg2 | | | done |] |].
  - eapply ext_loop_some; [apply Hg |]. by eapply sk_loop, wo_servers.
  - eapply ext_server_some; [apply Hg |]. by eexists.
  - apply safe_Acceptor_Listen; [apply Hg2 |]. eapply ext_server_some; [apply Hg |]. by eexists.
  - intros [] w3 Hg3. by eapply grows_0.
Qed.
End setup.
