(* ===== verification/EchoServer.v ===== *)
(** * The echo server ([tests/echo_server.cpp])

    The application that comes with the library: it logs every connection
    that comes up or goes down, and sends every message back.  It is the
    concrete application of the model, and shows that what is proved of every
    application applies to one. *)

From S2P Require Import Prelude Format Kernel Buffer Objects PollerOps ChannelOps ReactorInv PollInv ReactorLife LoopOps LoopInv SocketOps ConnOps ServerOps WorldInv WorldSteps ConnInv HandlerInv LifeInv AcceptInv SystemInv SetupInv.

(** ** The callbacks *)

(** The two lambda expressions of the constructor. *)
Definition kConnectionCallback : cbid := 0%nat.
Definition kMessageCallback : cbid := 1%nat.

Definition UserDefineConnectionCallback (conn_ptr : nat) : client :=
  CGetPeerAddress conn_ptr (λ peer,
  CGetLocalAddress conn_ptr (λ local,
  CIsConnected conn_ptr (λ b,
  CLogInfo "EchoServer - %s -> %s is %s"
    [AStr (ToIpPort peer); AStr (ToIpPort local); AStr (if b then "UP" else "DOWN")] CReturn))).

(** [buf] is the input buffer of connection [buf]. *)
Definition UserDefineMessageCallback (conn_ptr buf : nat) : client :=
  CRetrieveAllAsString buf (λ msg, CSend conn_ptr msg CReturn).

Definition echo : App := λ c _,
  match c with
  | OnConnection _ conn_ptr _ => UserDefineConnectionCallback conn_ptr
  | OnMessage _ conn_ptr _ _ => UserDefineMessageCallback conn_ptr conn_ptr
  | _ => CReturn
  end.
#[export] Existing Instance echo.

#[export] Instance echo_ok : AppOk.
Proof.
  intros c h. destruct c; cbn; try done; split_and!; intros;
    repeat split; intros; try done; by left.
Qed.

(** ** [class EchoServer] and [main] *)

Section ops.
Context {E : Type} `{Kernel E}.
Abbreviation prog := (M (World E)).

Definition EchoServer_ctor (loop : option nat) (addr : InetAddress.t) (name : string) : prog nat :=
  server_ ← new_server loop addr name false;
  Server_SetConnectionCallback server_ (Some kConnectionCallback);;
  Server_SetMessageCallback server_ (Some kMessageCallback);;
  SetThreadNum server_ 4;;
  mret server_.

Definition Start (server_ : nat) : prog unit := Server_Start server_.

(** [main] up to the call of [Loop]. *)
Definition main_setup : prog (nat * nat) :=
  loop ← new_loop;
  let addr := InetAddress_ctor 0 9012 "127.0.0.1" in
  server ← EchoServer_ctor (Some loop) addr "CuteEchoServer";
  Start server;;
  mret (loop, server).

(** What the main thread does, at most [fuel] rounds of the main loop; the
    destructors run when [Loop] has returned. *)
Definition main (fuel : nat) : prog bool :=
  '(loop, server) ← main_setup;
  finished ← server_Loop fuel loop;
  if (finished : bool) then delete_server server;; delete_loop loop;; mret true
  else mret false.
End ops.
