(* ===== verification/EchoClient.v ===== *)
(** * The echo client ([tests/echo_client.cpp])

    A blocking client: it reads a word from the terminal, sends it, and
    prints what comes back.  The socket calls are parameters, and so is the
    terminal: the characters that will be typed.  [std::cin >> buf] is written
    out as the library of C++20 does it for an array: leading white space is
    skipped, and a word of at most [kBuffSize - 1] characters is read up to
    the next white space or the end of the input.

    The theorems: how the client can end, for any network; and that with a
    server that echoes, what is printed is what was typed, however the stream
    is cut into pieces. *)

From S2P Require Import Prelude Format Kernel Buffer Objects PollerOps ChannelOps LoopOps SocketOps Frames.
From Stdlib Require Import Ascii.

Definition kBuffSize : Z := 1024.

(** The calls the client makes; each returns its value and the new state of
    the world outside. *)
Class ClientNet (E : Type) := {
  cl_socket : E → Z * E;
  cl_connect : Z → sockaddr_in → E → Z * E;
  cl_send : Z → list ascii → E → Z * E;
  cl_recv : Z → Z → E → Z * list ascii * E;
  cl_close : Z → E → E;
}.

Record cworld {E : Type} := mk_cworld {
  net : E;
  stdin : list ascii;
  printed : list string;        (* stdout and stderr, newest first *)
}.
Arguments cworld E : clear implicits.
#[global] Instance eta_cworld E : Eta (cworld E) := λ w,
  mk_cworld E (net w) (stdin w) (printed w).

(** ** C strings and the terminal *)

Definition NUL : ascii := ascii_of_nat 0.

(** The characters before the first NUL: what [strlen], [strcmp] and [%s]
    see. *)
Fixpoint cstr (s : list ascii) : list ascii :=
  match s with
  | [] => []
  | c :: s => if bool_decide (c = NUL) then [] else c :: cstr s
  end.

(** [isspace] in the C locale. *)
Definition isspace (c : ascii) : bool :=
  let n := nat_of_ascii c in ((n =? 32) || ((9 <=? n) && (n <=? 13)))%nat.

Fixpoint skip_space (s : list ascii) : list ascii :=
  match s with c :: s' => if isspace c then skip_space s' else s | [] => [] end.

Fixpoint word (k : nat) (s : list ascii) : list ascii * list ascii :=
  match k, s with
  | S k, c :: s' => if isspace c then ([], s) else let '(d, r) := word k s' in (c :: d, r)
  | _, _ => ([], s)
  end.

Definition newline : string := String (ascii_of_nat 10) "".

(** [strcmp(buf, lit) == 0] *)
Definition str_eq (buf : list ascii) (lit : string) : bool := bool_decide (cstr buf = String.list_ascii_of_string lit).

Section ops.
Context {E : Type} `{ClientNet E}.
Abbreviation prog := (M (cworld E)).

Definition net_call {A} (f : E → A * E) : prog A := λ w,
  let '(a, e) := f (net w) in Done a (w <| net := e |>).
Definition print (s : string) : prog unit := modify (λ w, w <| printed ::= cons s |>).

Definition ErrorHandling (message : string) : prog unit := print (message +:+ newline);; exit (-1).

(** [std::cin >> buf] *)
Definition read_word : prog (list ascii) :=
  w ← get;
  let '(buf, rest) := word (Z.to_nat (kBuffSize - 1)) (skip_space (stdin w)) in
  modify (λ w, w <| stdin := rest |>);;
  mret buf.

(** [printf("...%s\n", buf)] of a buffer of [kBuffSize] bytes that was zeroed
    before [d] was received into it: without a NUL it reads on past the end
    of the buffer. *)
Definition reply_line (text : list ascii) : string :=
  "收到服务器发送的消息: " +:+ String.string_of_list_ascii text +:+ newline.
Definition print_received (d : list ascii) : prog unit :=
  if kBuffSize <=? zlen (cstr d) then undef OutOfBounds else print (reply_line (cstr d)).

Definition prompt : string := "输入要发送的消息(Q 退出): ".
Definition closed_line : string := "服务器断开连接" +:+ newline.

(** What the body of [while (true)] does with the loop. *)
Inductive next := Break | Return (code : Z) | Again.

Definition loop_body (sock : Z) : prog next :=
  print prompt;;
  buf ← read_word;
  if str_eq buf ("Q" +:+ newline) || str_eq buf ("q" +:+ newline) then mret Break
  else
    net_call (cl_send sock (cstr buf));;
    '(cnt_msg_rcv, d) ← net_call (cl_recv sock kBuffSize);
    if cnt_msg_rcv =? 0 then
      net_call (λ e, (tt, cl_close sock e));;
      print closed_line;;
      mret (Return (-1))
    else
      print_received d;;
      mret Again.

(** [while (true)], at most [fuel] times round: what [main] returns. *)
Fixpoint loop (fuel : nat) (sock : Z) : prog (option Z) :=
  match fuel with
  | O => mret None
  | S fuel =>
      x ← loop_body sock;
      match x with
      | Break => net_call (λ e, (tt, cl_close sock e));; mret (Some 0)
      | Return code => mret (Some code)
      | Again => loop fuel sock
      end
  end.

(** [serv_addr] is zeroed; [inet_pton] leaves it alone when the string is no
    address. *)
Definition serv_addr : sockaddr_in := mk_sockaddr AF_INET (htons 9012) (default 0 (inet_pton "127.0.0.1")).

Definition main (fuel : nat) : prog (option Z) :=
  sock ← net_call cl_socket;
  ret ← net_call (cl_connect sock serv_addr);
  when (ret =? -1) (ErrorHandling "connect error");;
  loop fuel sock.
End ops.

(** ** How the client ends *)

Section theorems.
Context {E : Type} `{ClientNet E}.

Lemma word_no_space k s : Forall (λ c, isspace c = false) (word k s).1.
Proof.
  revert s. induction k as [|k IH]; intros [|c s]; cbn; try done.
  destruct (isspace c) eqn:Hc; [done |]. specialize (IH s). destruct (word k s). by constructor.
Qed.

Lemma cstr_sub s : cstr s `prefix_of` s.
Proof.
  induction s as [|c s IH]; [done |]. cbn [cstr]. case_bool_decide; [by eexists |]. by apply prefix_cons.
Qed.

(** A word from the terminal ends before the line feed. *)
Lemma word_not_quit k s x : str_eq (word k s).1 (x +:+ newline) = false.
Proof.
  apply bool_decide_eq_false. intros Heq.
  assert (ascii_of_nat 10 ∈ (word k s).1) as Hin.
  { destruct (cstr_sub (word k s).1) as [r Hr]. rewrite Hr, Heq. apply elem_of_app. left.
    clear. induction x as [|c x IH]; [by left | by right]. }
  pose proof (word_no_space k s) as Hall. rewrite Forall_forall in Hall. by specialize (Hall _ Hin).
Qed.

(** [recv] can fill the whole buffer with other bytes than NUL. *)
Definition unterminated : Prop := ∃ fd e n d e', cl_recv fd kBuffSize e = (n, d, e') ∧ kBuffSize ≤ zlen (cstr d).

(** [ends m Q w]: [m] has no outcome but a result in [Q], the end of the
    process by [ErrorHandling], or reading past the end of [buf]. *)
Definition ends {A} (m : M (cworld E) A) (Q : A → cworld E → Prop) (w : cworld E) : Prop :=
  match m w with
  | Done a w' => Q a w'
  | Exit code w' => code = -1 ∧ head (printed w') = Some ("connect error" +:+ newline)
  | Throw _ _ => False
  | Undef u => u = OutOfBounds ∧ unterminated
  end.

Lemma ends_bind {A B} (m : M (cworld E) A) (k : A → M (cworld E) B) Q w :
  ends m (λ a, ends (k a) Q) w → ends (m ≫= k) Q w.
Proof. unfold ends, mbind, M_bind. by destruct (m w). Qed.

Lemma ends_mono {A} (m : M (cworld E) A) (Q Q' : A → cworld E → Prop) w :
  ends m Q w → (∀ a w', Q a w' → Q' a w') → ends m Q' w.
Proof. unfold ends. destruct (m w); eauto. Qed.

Lemma ends_net_call {A} (f : E → A * E) (Q : A → cworld E → Prop) w :
  (∀ a e, f (net w) = (a, e) → Q a (w <| net := e |>)) → ends (net_call f) Q w.
Proof. intros HQ. unfold ends, net_call. destruct (f (net w)) eqn:Hf. by apply HQ. Qed.

Lemma ends_print s (Q : unit → cworld E → Prop) w : Q tt (w <| printed ::= cons s |>) → ends (print s) Q w.
Proof. done. Qed.

Lemma ends_read_word (Q : list ascii → cworld E → Prop) w :
  (let p := word (Z.to_nat (kBuffSize - 1)) (skip_space (stdin w)) in Q p.1 (w <| stdin := p.2 |>)) →
  ends read_word Q w.
Proof. intros HQ. unfold ends, read_word, mbind, M_bind, get. by destruct (word _ _). Qed.

(** A round of the loop: a word is sent and something received; the loop goes
    on unless nothing was. *)
Lemma ends_loop_body sock (Q : next → cworld E → Prop) w :
  (∀ e n d e', let p := word (Z.to_nat (kBuffSize - 1)) (skip_space (stdin w)) in
     let wr := w <| printed ::= cons prompt |> <| stdin := p.2 |> in
     (∃ m, cl_send sock (cstr p.1) (net w) = (m, e)) → cl_recv sock kBuffSize e = (n, d, e') →
     (n ≠ 0 → Q Again (wr <| net := e' |> <| printed ::= cons (reply_line (cstr d)) |>)) ∧
     (n = 0 → Q (Return (-1)) (wr <| net := cl_close sock e' |> <| printed ::= cons closed_line |>))) →
  ends (loop_body sock) Q w.
Proof.
  intros HQ. unfold loop_body. apply ends_bind, ends_print, ends_bind, ends_read_word. cbn zeta.
  upd_simpl. rewrite !word_not_quit. cbn [orb].
  apply ends_bind, ends_net_call. intros m e Hs. apply ends_bind, ends_net_call. intros [n d] e' Hr.
  upd_simpl. destruct (HQ e n d e') as [Hmore Hend]; [by exists m | done |].
  destruct (Z.eqb_spec n 0) as [Hn|Hn].
  - apply ends_bind, ends_net_call. intros [] e'' [= <-]. apply ends_bind, ends_print. exact (Hend Hn).
  - apply ends_bind. unfold print_received. destruct (Z.leb_spec kBuffSize (zlen (cstr d))).
    + split; [done |]. by exists sock, e, n, d, e'.
    + apply ends_print. exact (Hmore Hn).
Qed.

Lemma loop_result fuel sock (w : cworld E) : ends (loop fuel sock) (λ r _, r = None ∨ r = Some (-1)) w.
Proof.
  revert w. induction fuel as [|fuel IH]; intros w; cbn [loop]; [by left |].
  apply ends_bind, ends_loop_body. intros e n d e' p wr _ _. split; [intros _; apply IH | intros _]. by right.
Qed.

Lemma ends_main fuel (Q : option Z → cworld E → Prop) w :
  (∀ sock e r e', cl_socket (net w) = (sock, e) → cl_connect sock serv_addr e = (r, e') →
     ends (loop fuel sock) Q (w <| net := e' |>)) → ends (main fuel) Q w.
Proof.
  intros HQ. unfold main. apply ends_bind, ends_net_call. intros sock e Hs. apply ends_bind, ends_net_call.
  intros ret e' Hc. specialize (HQ _ _ _ _ Hs Hc). apply ends_bind. by destruct (ret =? -1).
Qed.
End theorems.

(** The user cannot quit: [std::cin >> buf] leaves the line feed in the
    input, so that [buf] is never ["Q\n"] or ["q\n"], whatever is typed: the
    word [Q] is sent like any other.  The client only ends with -1, when the
    server closes the connection or, with a message, when it cannot be
    reached; or it reads past the end of [buf], when a reply fills all of
    it. *)
Theorem client_cannot_quit {E} `{ClientNet E} fuel (w : cworld E) :
  ends (main fuel) (λ r _, r = None ∨ r = Some (-1)) w.
Proof. apply ends_main. intros *. intros _ _. apply loop_result. Qed.

(** ** With a server that echoes *)

(** A connection to an echo server, while it stands: [pending] is what was
    sent and has not come back yet.  [send] of a blocking socket takes
    everything; [recv] returns the next bytes, as many as it likes. *)
Class EchoNet (E : Type) `{ClientNet E} := {
  pending : E → list ascii;
  echo_socket e fd e' : cl_socket e = (fd, e') → pending e' = pending e;
  echo_connect fd a e r e' : cl_connect fd a e = (r, e') → pending e' = pending e;
  echo_send fd d e n e' : cl_send fd d e = (n, e') → pending e' = pending e ++ d;
  echo_recv fd k e n d e' : cl_recv fd k e = (n, d, e') → pending e = d ++ pending e' ∧ (n = 0 → d = []);
  echo_close fd e : pending (cl_close fd e) = pending e;
}.

Section echo.
Context {E : Type} `{EchoNet E}.

(** The characters of an input that are no white space. *)
Definition letters (s : list ascii) : list ascii := List.filter (λ c, negb (isspace c)) s.
Definition no_nul (s : list ascii) : Prop := Forall (λ c, c ≠ NUL) s.

Lemma letters_skip s : letters (skip_space s) = letters s.
Proof. induction s as [|c s IH]; cbn; [done |]. destruct (isspace c) eqn:Hc; cbn; [done |]. by rewrite Hc. Qed.

Lemma letters_word k s : letters s = (word k s).1 ++ letters (word k s).2.
Proof.
  revert s. induction k as [|k IH]; intros [|c s]; cbn; try done.
  destruct (isspace c) eqn:Hc; cbn; [by rewrite Hc |].
  rewrite IH. by destruct (word k s).
Qed.

Lemma cstr_id s : no_nul s → cstr s = s.
Proof. induction 1 as [|c s Hc _ IH]; cbn; [done |]. by rewrite bool_decide_eq_false_2, IH. Qed.

(** What a round with reply [d] prints, newest first, and [ds] before it. *)
Definition transcript (ds : list (list ascii)) : list string := ds ≫= λ d, [reply_line d; prompt].

(** What is printed after them. *)
Definition last_lines (r : option Z) : list string :=
  match r with Some _ => [closed_line; prompt] | None => [] end.

(** The state after the replies [ds] (newest first), from [w]: everything
    typed came back, is on its way or was not read yet. *)
Record echoed (w : cworld E) (ds : list (list ascii)) (end_lines : list string) (w' : cworld E) : Prop := {
  echoed_letters : concat (reverse ds) ++ pending (net w') ++ letters (stdin w') = pending (net w) ++ letters (stdin w);
  echoed_printed : printed w' = end_lines ++ transcript ds ++ printed w;
}.

Definition clean (w : cworld E) : Prop := no_nul (pending (net w)) ∧ no_nul (letters (stdin w)).

Lemma echoed_clean w ds w' : clean w → echoed w ds [] w' → clean w'.
Proof.
  intros [Hp Hl] [Heq _]. assert (no_nul (concat (reverse ds) ++ pending (net w') ++ letters (stdin w'))) as Hall.
  { rewrite Heq. by apply Forall_app. }
  unfold no_nul in Hall. rewrite !Forall_app in Hall. by destruct Hall as (_ & ? & ?).
Qed.

(** One round: what was pending and the word typed, less the reply. *)
Lemma round_echoes sock w e n d e' :
  clean w → let p := word (Z.to_nat (kBuffSize - 1)) (skip_space (stdin w)) in
  (∃ m, cl_send sock (cstr p.1) (net w) = (m, e)) → cl_recv sock kBuffSize e = (n, d, e') →
  cstr d = d ∧ d ++ pending e' ++ letters p.2 = pending (net w) ++ letters (stdin w).
Proof.
  intros [Hp Hl] p [m Hs] Hr.
  assert (letters (stdin w) = p.1 ++ letters p.2) as Hw by (by rewrite <- letters_skip; apply letters_word).
  rewrite Hw in Hl. apply Forall_app in Hl as [Hl _].
  rewrite cstr_id in Hs by done. apply echo_send in Hs. apply echo_recv in Hr as [Hr _]. rewrite Hr in Hs.
  split.
  - apply cstr_id. assert (no_nul (d ++ pending e')) as Hall by (rewrite Hs; by apply Forall_app).
    by apply Forall_app in Hall as [? _].
  - by rewrite Hw, app_assoc, Hs, <- app_assoc.
Qed.

Lemma echoed_trans w d w1 ds ls w2 :
  echoed w [d] [] w1 → echoed w1 ds ls w2 → echoed w (ds ++ [d]) ls w2.
Proof.
  intros [H1 P1] [H2 P2]. split.
  - rewrite reverse_app, concat_app, <- app_assoc, H2. exact H1.
  - rewrite P2, P1. unfold transcript. by rewrite bind_app, <- app_assoc.
Qed.

Lemma loop_echoes fuel sock w : clean w →
  ends (loop fuel sock) (λ r w', ∃ ds,
    echoed w ds (last_lines r) w' ∧
    (r = None → length ds = fuel)) w.
Proof.
  revert w. induction fuel as [|fuel IH]; intros w Hw; cbn [loop].
  { exists []. by repeat split. }
  apply ends_bind, ends_loop_body. intros e n d e' p wr Hs Hr.
  destruct (round_echoes _ _ _ _ _ _ Hw Hs Hr) as [Hd Heq]. rewrite Hd. split; intros Hn.
  - assert (echoed w [d] [] (wr <| net := e' |> <| printed ::= cons (reply_line d) |>)) as Hround.
    { split; [| done]. cbn. by rewrite app_nil_r. }
    eapply ends_mono; [apply IH; by eapply echoed_clean |]. intros r w' (ds & He & Hl).
    exists (ds ++ [d]). split; [by eapply echoed_trans |]. intros Hr'. rewrite length_app. cbn. rewrite (Hl Hr'). lia.
  - apply echo_recv in Hr as [_ Hnil]. rewrite (Hnil Hn) in Heq.
    exists []. split; [| done]. split; [| done]. cbn. by rewrite echo_close.
Qed.
End echo.

(** C6: with a server that echoes, the client shows the user what they
    typed: whatever pieces the stream comes back in, the replies printed, in
    order, then what is still on its way, then what was not read yet, are
    the characters typed that are no white space.  Nothing else is printed
    but the prompts and, when the server closed, a line that says so; and
    every round has one reply. *)
Theorem client_prints_echo {E} `{EchoNet E} fuel (w : cworld E) :
  pending (net w) = [] → no_nul (letters (stdin w)) → printed w = [] →
  ends (main fuel) (λ r w', ∃ ds,
    concat (reverse ds) ++ pending (net w') ++ letters (stdin w') = letters (stdin w) ∧
    printed w' = (last_lines r) ++ transcript ds ∧
    (r = None → length ds = fuel)) w.
Proof.
  intros Hp Hl Hpr. apply ends_main. intros sock e r e' Hs%echo_socket Hc%echo_connect.
  rewrite Hs, Hp in Hc. eapply ends_mono.
  { apply loop_echoes. split; [by cbn; rewrite Hc; constructor | done]. }
  cbn beta. intros r' w' (ds & [Heq Hprint] & Hlen). exists ds.
  rewrite <- (app_nil_r (transcript ds)), <- Hpr. upd_simpl. by rewrite Hc in Heq.
Qed.

(** ** An echo server, and runs against it *)

(** The bytes on their way, and the sizes of the pieces they come in; when
    there is nothing on its way the server closes. *)
Definition echo_net : Type := list ascii * list nat.

Definition recv_piece (k : Z) (e : echo_net) : Z * list ascii * echo_net :=
  let size := Nat.min (Z.to_nat k) (default (Z.to_nat k) (head e.2)) in
  let d := take size e.1 in
  (Z.of_nat (length d), d, (drop size e.1, tail e.2)).

#[export] Instance echo_net_calls : ClientNet echo_net := {
  cl_socket e := (3, e);
  cl_connect _ _ e := (0, e);
  cl_send _ d e := (zlen d, (e.1 ++ d, e.2));
  cl_recv _ k e := recv_piece k e;
  cl_close _ e := e;
}.

#[export, refine] Instance echo_net_echoes : EchoNet echo_net := { pending e := e.1 }.
Proof.
  - by intros e fd e' [= _ <-].
  - by intros fd a e r e' [= _ <-].
  - by intros fd d e n e' [= _ <-].
  - intros fd k e n d e' [= <- <- <-]. split; [symmetry; apply take_drop |].
    intros Hz. apply nil_length_inv. lia.
  - done.
Defined.

Definition typed (s : string) (pieces : list nat) : cworld echo_net :=
  mk_cworld _ ([], pieces) (String.list_ascii_of_string s) [].

(** Two words come back in three and four bytes; at the end of the input the
    client sends nothing and waits, until the server closes. *)
Lemma client_prints_echo_witness :
  let w := typed ("hello" +:+ newline +:+ "Q" +:+ newline) [3; 4]%nat in
  match main 9 w with
  | Done r w' => r = Some (-1) ∧ printed w' =
      [closed_line; prompt; reply_line ["l"; "o"; "Q"]%char; prompt; reply_line ["h"; "e"; "l"]%char; prompt]
  | _ => False
  end ∧
  ends (main 9) (λ r w', ∃ ds,
    concat (reverse ds) ++ pending (net w') ++ letters (stdin w') = letters (stdin w) ∧
    printed w' = last_lines r ++ transcript ds ∧ (r = None → length ds = 9%nat)) w.
Proof.
  intros w. split; [by vm_compute | apply client_prints_echo; [done | | done]].
  repeat (constructor; [done |]). constructor.
Defined.

(** A word of the longest size whose first letter comes back alone, then
    another word: the next reply fills the buffer, and [printf] reads on. *)
Lemma client_overreads :
  main 2 (typed (String.string_of_list_ascii (replicate 1023 "a"%char) +:+ " bc") [1]%nat) = Undef OutOfBounds.
Proof. by vm_compute. Qed.
