(* ===== verification/SystemSpec.v ===== *)
(** * The whole program as a transition system

    The program makes a loop and a server and starts it; from there on it is
    a sequence of actions: a round of a loop, in the thread of the loop, or a
    call of the application from any thread.  A round is one step here; in
    [Turns] the threads take turns within rounds.  The interleaving of other
    threads with the queueing of functors, which is what the loops share, is
    [Interleave].

    The theorems: start-up reaches a good world; and from a good world no
    sequence of actions has undefined behaviour, loses or reorders what was
    given to a connection to send, or takes a connection back to an earlier
    state. *)

From S2P Require Import Prelude Format Kernel SimKernel Buffer Objects PollerOps ChannelOps ReactorInv PollInv ReactorLife LoopOps LoopInv SocketOps ConnOps ServerOps Frames WorldInv WorldSteps ConnInv HandlerInv LifeInv AcceptInv SystemInv SetupInv EchoServer.

(** ** Definitions *)

Section defs.
Context {E : Type} `{Kernel E} `{App}.
Implicit Types w : World E.

Inductive action :=
  | ARound (l : nat)
  | AClient (t : Z) (p : client).

Definition in_thread (t : Z) : M (World E) unit := modify (λ w, w <| tid := t |>).

Definition run_action (a : action) : M (World E) unit :=
  match a with
  | ARound l => lp ← the_loop l; in_thread (EventLoop.thread_id_ lp);; server_loop_body l
  | AClient t p => in_thread t;; run_client p
  end.

(** A loop can turn while the ids of connections last; the application uses
    connections that there are. *)
Definition allowed w (a : action) : Prop :=
  match a with
  | ARound l => is_Some (loops w !! l) ∧ room (round_cost w) w
  | AClient _ p => client_ok (λ c, is_Some (conns w !! c)) p
  end.

Inductive reachable w : World E → Prop :=
  | reachable_start : reachable w w
  | reachable_step w1 w2 a :
      reachable w w1 → allowed w1 a → run_action a w1 = Done tt w2 → reachable w w2.

(** What became of the connections there were in [w]. *)
Definition history w w' : Prop := ∀ c cn, conns w !! c = Some cn →
  ∃ cn', conns w' !! c = Some cn' ∧ conn_fixed cn' = conn_fixed cn ∧
    (rank (TcpConnection.state_ cn) ≤ rank (TcpConnection.state_ cn'))%nat ∧
    stream w cn `prefix_of` stream w' cn'.

(** What an application does first: [EventLoop loop; TcpServer server(&loop,
    addr, name); ...; server.Start()]. *)
Definition startup (addr : InetAddress.t) (name : string) (rp : bool) (cc mc : cbid) (n : Z)
    : M (World E) (nat * nat) :=
  l ← new_loop;
  s ← make_server l addr name rp cc mc n;
  Server_Start s;;
  mret (l, s).
End defs.

Section theorems.
Context {E : Type} `{KernelLaws E} `{AppOk}.
Implicit Types w : World E.

(** ** Reaching good worlds *)

Lemma history_ext k w w' : ext k w w' → history w w'.
Proof. intros Hx c cn Hc. by apply (ex_conns _ _ _ Hx). Qed.

#[export] Instance history_preorder : PreOrder (history (E := E)).
Proof.
  split; [by intros w c cn Hc; exists cn |]. intros w1 w2 w3 H12 H23 c cn Hc.
  destruct (H12 c cn Hc) as (cn2 & Hc2 & <- & ? & ?). destruct (H23 c cn2 Hc2) as (cn3 & ? & ? & ? & ?).
  exists cn3. split_and!; [done | done | lia | by etrans].
Qed.

Lemma safe_action a w :
  world_ok w → allowed w a →
  wp may_stop (run_action a) (λ _ w', world_ok w' ∧ history w w') w.
Proof.
  intros Hok Ha. destruct a as [l | t p]; cbn [run_action allowed] in *; unfold in_thread.
  - destruct Ha as [[lp Hl] Hroom]. do 4 wp_step.
    pose proof (grows_tid w (EventLoop.thread_id_ lp) Hok) as Hg.
    eapply wp_mono; [apply safe_loop_body; [apply Hg | by exists lp | done] |].
    intros [] w' [Hok' Hx]. split; [done |].
    etrans; [by eapply history_ext, Hg | by eapply history_ext].
  - do 2 wp_step. pose proof (grows_tid w t Hok) as Hg.
    eapply wp_mono; [by eapply safe_run_client; [apply Hg | | exact Ha] |].
    intros [] w' Hg'. split; [apply Hg' |].
    etrans; [by eapply history_ext, Hg | by eapply history_ext, Hg'].
Qed.

Lemma reachable_ok w w' : world_ok w → reachable w w' → world_ok w' ∧ history w w'.
Proof.
  intros Hok Hr. induction Hr as [|w1 w2 a Hr [Hok1 Hh1] Ha Hrun]; [done |].
  pose proof (safe_action a w1 Hok1 Ha) as Hs. unfold wp in Hs. rewrite Hrun in Hs.
  destruct Hs as [Hok2 Hh2]. split; [done | by etrans].
Qed.

Lemma world_ok_empty w :
  reactor_ok w → loops w = ∅ → channels w = ∅ → conns w = ∅ → servers w = ∅ → calls w = [] → world_ok w.
Proof.
  intros Hr Hl Hx Hc Hs Hcl. split; intros *; rewrite ?Hl, ?Hx, ?Hc, ?Hs, ?Hcl, ?lookup_empty; done.
Qed.

(** ** Start-up *)

Lemma wp_startup addr name rp cc mc n w :
  no_objects w → loops w = ∅ → conns w = ∅ → servers w = ∅ → calls w = [] →
  0 ≤ n < 2 ^ 31 →
  wp may_stop (startup addr name rp cc mc n) (λ '(l, s) w',
    world_ok w' ∧ is_Some (loops w' !! l) ∧ ∃ sv, servers w' !! s = Some sv ∧
      TcpServer.loop_ sv = l ∧ TcpServer.name_ sv = name ∧
      TcpServer.connection_callback_ sv = Some cc ∧ TcpServer.message_callback_ sv = Some mc ∧
      TcpServer.write_complete_callback_ sv = None ∧ ∀ s', s' ≠ s → servers w' !! s' = None) w.
Proof.
  intros Hno Hl Hc Hs Hcl Hn.
  assert (world_ok w) as Hok.
  { apply world_ok_empty; try done; [by apply reactor_ok_empty | apply Hno]. }
  unfold startup. wp_step. apply wp_fatal, wp_new_loop; [done |].
  intros l w1 Hg1 _ _ _ Hs1 _ (fd & x & Hl1) _.
  assert (is_Some (loops w1 !! l)) as Hl1' by (rewrite Hl1, lookup_insert_eq; by eexists).
  wp_step. apply wp_fatal, wp_make_server; [apply Hg1 | done |].
  intros s w2 fd2 x2 _ Hok2 Hx2 _ Hs2. set (sv := fresh_server _ _ _ _ _ _ _ _ _) in *.
  assert (servers w2 !! s = Some sv) as Hsv by (by rewrite Hs2, lookup_insert_eq).
  wp_step. eapply wp_mono; [apply (safe_Server_Start s sv w2 Hok2 Hsv) |].
  { change (0 + Z.max 0 n ≤ INT_MAX). unfold INT_MAX. lia. }
  intros [] w3 Hg3. wp_step. split; [apply Hg3 | split].
  - eapply ext_loop_some; [apply Hg3 |]. by eapply ext_loop_some.
  - destruct (ex_servers _ _ _ (gr_ext _ _ _ _ Hg3) s sv Hsv) as (sv' & Hsv' & Hf & _).
    exists sv'. unfold server_fixed in Hf. injection Hf as ? ? ? ? ? ? ? ? ? ?.
    split_and!; try done. intros s' Hne. apply (gr_no_server _ _ _ _ Hg3).
    by rewrite Hs2, Hs1, Hs, lookup_insert_ne.
Qed.

(** ** The properties *)

(** No sequence of rounds of the loops and calls of the application
    goes wrong: the next action has no undefined behaviour (no dangling
    pointer, no index out of range, no overflow of the connection ids, no
    empty [std::function] called, no [printf] whose arguments do not fit its
    format) and ends the process only after a FATAL
    line or when a vector cannot grow; and then every connection there was
    at the start is still there with the same loop, socket and callbacks, in
    the same or a later state, and what it was given to send - accepted by
    the kernel or waiting in its output buffer - is a prefix of what it is
    now. *)
Theorem system_safe w0 w a :
  world_ok w0 → reachable w0 w → allowed w a →
  wp may_stop (run_action a) (λ _ w', history w0 w') w.
Proof.
  intros Hok Hr Ha. destruct (reachable_ok w0 w Hok Hr) as [Hok1 Hh1].
  eapply wp_mono; [by apply safe_action |]. intros [] w' [_ Hh]. by etrans.
Qed.

(** C7: start-up establishes the invariant: from a process without objects,
    making the main loop and a server with its callbacks and starting it
    either reaches a world in which every object is in order, with the
    server there and started, or ends the process with a FATAL line (a
    descriptor could not be made) or for want of memory. *)
Theorem startup_ok addr name rp cc mc n w :
  no_objects w → loops w = ∅ → conns w = ∅ → servers w = ∅ → calls w = [] →
  0 ≤ n < 2 ^ 31 →
  wp may_stop (startup addr name rp cc mc n) (λ '(l, s) w',
    world_ok w' ∧ is_Some (loops w' !! l) ∧ ∃ sv, servers w' !! s = Some sv ∧
      TcpServer.loop_ sv = l ∧ TcpServer.name_ sv = name ∧
      TcpServer.connection_callback_ sv = Some cc ∧ TcpServer.message_callback_ sv = Some mc) w.
Proof.
  intros. eapply wp_mono; [by apply wp_startup |].
  intros [l s] w' (? & ? & sv & ? & ? & ? & ? & ? & _). split_and!; [done.. | by exists sv].
Qed.
End theorems.

(** ** A run of the echo server

    Four threads; a client connects, sends [hello], and hangs up.  The kernel
    takes the eight bytes of a wake-up, then two bytes of the answer, then
    the rest. *)

Definition hello : list byte := [x68; x65; x6c; x6c; x6f].

Definition echo_sim : sim := mk_sim empty_obs [8; 2] [inr hello; inr []]
  [{[2 := EPOLLIN]}; {[4 := EPOLLIN]}; {[11 := EPOLLIN]}; {[11 := EPOLLOUT]};
   {[11 := Z.lor EPOLLIN EPOLLHUP]}].

Definition empty_world (e : sim) : World sim := mk_world sim e 1 ∅ [] ∅ ∅ ∅ ∅ ∅ [].

(** The world a run reaches; the world it started in if it does not return. *)
Definition ran {A} (m : M (World sim) A) (w : World sim) : World sim :=
  match m w with Done _ w' => w' | _ => w end.

Definition echo_world : World sim := ran main_setup (empty_world echo_sim).

(** The main loop accepts; the first loop of the pool establishes the
    connection, then reads and starts to answer, then writes the rest. *)
Definition echo_loop (n : nat) : nat := match n with O => 0 | _ => 1 end.

Fixpoint echo_run (n : nat) : World sim :=
  match n with
  | O => echo_world
  | S n => ran (run_action (ARound (echo_loop n))) (echo_run n)
  end.

(** A computation that returned. *)
Definition returns {A} (m : M (World sim) A) (w : World sim) : bool :=
  match m w with Done _ _ => true | _ => false end.

Lemma ran_wp {A} X (m : M (World sim) A) Q w :
  wp X m Q w → returns m w = true → ∃ a, m w = Done a (ran m w) ∧ Q a (ran m w).
Proof. unfold wp, returns, ran. destruct (m w); [eauto | done..]. Qed.

Lemma no_objects_empty e : sim_obs e = empty_obs → no_objects (empty_world e).
Proof. intros He. split_and!; [done | done |]. cbn. rewrite He. by vm_compute. Qed.

Lemma echo_world_ok : world_ok echo_world.
Proof.
  destruct (ran_wp may_stop main_setup (λ _ w', world_ok w') (empty_world echo_sim)) as (a & _ & Ha);
    [| by vm_compute | exact Ha].
  eapply wp_mono; [apply (wp_startup (InetAddress_ctor 0 9012 "127.0.0.1") "CuteEchoServer" false
    kConnectionCallback kMessageCallback 4) |]; [by apply no_objects_empty | done.. |].
  intros [l s] w' [? _]. done.
Qed.

Lemma reachable_round `{App} {w0 w : World sim} {l} :
  reachable w0 w → is_Some (loops w !! l) → room (round_cost w) w →
  returns (run_action (ARound l)) w = true → reachable w0 (ran (run_action (ARound l)) w).
Proof.
  intros Hr Hl Hroom Hret. apply (reachable_step w0 w _ (ARound l)); [exact Hr | by split |].
  unfold returns, ran in *. by destruct (run_action (ARound l) w) as [[] w1| c w1|x w1|u].
Qed.

(** There is room for as many connections as the number says. *)
Lemma room_by_compute k (w : World sim) :
  forallb (λ '(_, sv), TcpServer.next_conn_id_ sv + k <=? INT_MAX) (map_to_list (servers w)) = true →
  room k w.
Proof.
  intros Hall s sv Hs. rewrite forallb_forall in Hall.
  specialize (Hall (s, sv)). cbn in Hall. apply Z.leb_le, Hall.
  apply list_elem_of_In. by apply elem_of_map_to_list.
Qed.

Lemma echo_run_S n : echo_run (S n) = ran (run_action (ARound (echo_loop n))) (echo_run n).
Proof. done. Qed.

Lemma echo_reachable_S n :
  reachable echo_world (echo_run n) →
  bool_decide (is_Some (loops (echo_run n) !! echo_loop n)) = true →
  room (round_cost (echo_run n)) (echo_run n) →
  returns (run_action (ARound (echo_loop n))) (echo_run n) = true →
  reachable echo_world (echo_run (S n)).
Proof.
  intros Hr Hl%bool_decide_eq_true Hroom Hret. rewrite echo_run_S.
  by apply (reachable_round Hr).
Qed.

Lemma echo_reachable : reachable echo_world (echo_run 3).
Proof.
  assert (reachable echo_world (echo_run 0)) as H0 by apply reachable_start.
  do 3 (apply echo_reachable_S in H0; [| by vm_compute | apply room_by_compute; by vm_compute | by vm_compute]).
  exact H0.
Qed.

Lemma system_safe_witness :
  world_ok echo_world ∧ reachable echo_world (echo_run 3) ∧
  wp may_stop (run_action (ARound 1)) (λ _ w', history echo_world w') (echo_run 3) ∧
  out_stream (obs (ran (run_action (ARound 1)) (echo_run 3))) 11 = hello.
Proof.
  assert (allowed (echo_run 3) (ARound 1)) as Ha.
  { split; [apply (bool_decide_eq_true_1 (is_Some _)); by vm_compute |]. apply room_by_compute. by vm_compute. }
  split; [apply echo_world_ok | split; [apply echo_reachable | split; [| by vm_compute]]].
  apply (system_safe echo_world (echo_run 3) (ARound 1)); [apply echo_world_ok | apply echo_reachable | exact Ha].
Defined.

Lemma startup_ok_witness :
  let addr := InetAddress_ctor 0 9012 "127.0.0.1" in
  no_objects (empty_world echo_sim) ∧
  wp may_stop (startup addr "CuteEchoServer" false kConnectionCallback kMessageCallback 4)
    (λ '(l, s) w', world_ok w' ∧ is_Some (loops w' !! l) ∧ ∃ sv, servers w' !! s = Some sv ∧
      TcpServer.loop_ sv = l ∧ TcpServer.name_ sv = "CuteEchoServer" ∧
      TcpServer.connection_callback_ sv = Some kConnectionCallback ∧
      TcpServer.message_callback_ sv = Some kMessageCallback) (empty_world echo_sim).
Proof.
  assert (no_objects (empty_world echo_sim)) as Hno by (split_and!; [done | done | by vm_compute]).
  intros addr. split; [exact Hno |].
  apply (startup_ok addr "CuteEchoServer" false 0%nat 1%nat 4 (empty_world echo_sim)); done.
Defined.
