(* ===== verification/Turns.v ===== *)
(** * The threads of the program, turn by turn

    [SystemSpec] runs a whole round of a loop as one step.  Here the threads
    of the loops, and those of the application, take turns between any two
    callbacks and any two functors ([TurnOps]): while a loop still has
    channels to handle or functors to run, other threads make and close
    connections, send on them, and queue functors.  What a thread has still
    to do is in order whatever the others did ([turn_ok]); so no such run goes
    wrong either.  A round that is not interrupted is the round of
    [SystemSpec]. *)

From S2P Require Import Prelude Format Kernel SimKernel Buffer Objects PollerOps ChannelOps ReactorInv PollInv ReactorLife LoopOps LoopInv SocketOps ConnOps ServerOps TurnOps Frames WorldInv WorldSteps ConnInv HandlerInv LifeInv AcceptInv SystemInv SetupInv EchoServer SystemSpec.

(** ** The system *)

(** The heap, and where the threads of loops are that are in a round. *)
Record system {E : Type} := System { heap : World E; turns : gmap nat turn }.
Arguments system E : clear implicits.
#[global] Instance eta_system E : Eta (system E) := λ s, System E (heap s) (turns s).

Inductive event := ETurn (l : nat) | EClient (t : Z) (p : client).

Section defs.
Context {E : Type} `{Kernel E} `{App}.
Implicit Types s : system E.

Definition on_heap {A} (m : M (World E) A) : M (system E) A := λ s,
  match m (heap s) with
  | Done a w => Done a (s <| heap := w |>)
  | Exit code w => Exit code (s <| heap := w |>)
  | Throw x w => Throw x (s <| heap := w |>)
  | Undef u => Undef u
  end.

(** A turn of a loop runs in the thread of the loop. *)
Definition thread_turn (l : nat) (T : option turn) : M (World E) (option turn) :=
  lp ← the_loop l; in_thread (EventLoop.thread_id_ lp);; run_turn l T.

Definition run_event (e : event) : M (system E) unit :=
  match e with
  | ETurn l =>
      s ← get;
      T ← on_heap (thread_turn l (turns s !! l));
      modify (λ s, s <| turns ::= partial_alter (λ _, T) l |>)
  | EClient t p => on_heap (in_thread t;; run_client p)
  end.

(** A turn numbers at most one connection; the application uses connections
    that there are. *)
Definition permitted s (e : event) : Prop :=
  match e with
  | ETurn l => is_Some (loops (heap s) !! l) ∧ room 1 (heap s)
  | EClient _ p => client_ok (λ c, is_Some (conns (heap s) !! c)) p
  end.

(** The runs of events of which [ok] holds. *)
Inductive runs (ok : system E → event → Prop) s : system E → Prop :=
  | runs_start : runs ok s s
  | runs_event s1 s2 e : runs ok s s1 → ok s1 e → run_event e s1 = Done tt s2 → runs ok s s2.

(** The events of which the process is made when the application has no
    threads of its own. *)
Definition only_turns s (e : event) : Prop := permitted s e ∧ ∃ l, e = ETurn l.

Lemma wp_on_heap {A} X (m : M (World E) A) Q s :
  wp X m (λ a w, Q a (s <| heap := w |>)) (heap s) → wp (λ x s, X x (heap s)) (on_heap m) Q s.
Proof. unfold wp, on_heap. by destruct (m (heap s)). Qed.
End defs.

Section safe.
Context {E : Type} `{KernelLaws E} `{AppOk} (J : World E → Prop) (P : functor → Prop) `{!CarriedAll J P}.
Implicit Types w : World E.

(** ** What a thread has still to do stays possible *)

Definition turn_ok w (l : nat) (T : turn) : Prop :=
  match T with
  | THandle active => Forall (chan_ready l w) active
  | TTests x _ ks active => chan_ready l w x ∧ zlen ks ≤ 4 ∧ Forall (chan_ready l w) active
  | TRun functors => functors_ready l P w functors
  end.

(** A step established no connection but one of loop [l]. *)
Definition establishes_in (l : nat) (e : option nat) w : Prop :=
  ∀ c cn, e = Some c → conns w !! c = Some cn → TcpConnection.loop_ cn = l.

Lemma chan_ready_all l k e w w' xs :
  grows k e w w' → Forall (chan_ready l w) xs → Forall (chan_ready l w') xs.
Proof. intros Hg Hall. eapply Forall_impl; [exact Hall |]. intros x. by eapply chan_ready_grows. Qed.

Lemma turn_ok_grows k e l w w' T :
  grows k e w w' → (∀ c cn, e = Some c → conns w !! c = Some cn → TcpConnection.loop_ cn ≠ l) →
  turn_ok w l T → turn_ok w' l T.
Proof.
  intros Hg He. destruct T as [xs | x t ks xs | fs]; cbn.
  - by eapply chan_ready_all.
  - intros (Hx & Hk & Hxs). split_and!; [by eapply chan_ready_grows | done | by eapply chan_ready_all].
  - intros Hr. eapply functors_ready_grows; [exact Hg | | exact Hr]. intros c Hc Heq.
    destruct (proj2 (fr_est _ _ _ _ Hr) c Hc) as (cn & Hcn & Hl & _). by apply (He c cn).
Qed.

Record system_ok (s : system E) : Prop := {
  sy_heap : world_ok (heap s);
  sy_carried : J (heap s);
  sy_turns l T : turns s !! l = Some T → turn_ok (heap s) l T;
}.

Lemma establishes_none l w : establishes_in l None w.
Proof. by intros c cn. Qed.
Hint Resolve establishes_none : core.

(** ** A turn *)

(** What a turn of loop [l] leaves behind. *)
Definition turned (l : nat) w (T' : option turn) w' : Prop := ∃ k e,
  grows k e w w' ∧ establishes_in l e w ∧ J w' ∧ from_option (turn_ok w' l) True T'.

Lemma turned_none {A} l k w (a : A) (T' : A → option turn) w' :
  grows k None w w' ∧ in_round J l w' → from_option (turn_ok w' l) True (T' a) → turned l w (T' a) w'.
Proof. intros [Hg [HJ _]] HT. by exists k, None. Qed.

Lemma safe_run_turn l T w :
  world_ok w → in_round J l w → room 1 w → from_option (turn_ok w l) True T →
  wp may_stop (run_turn l T) (turned l w) w.
Proof.
  intros Hok HJ Hroom HT. assert (is_Some (loops w !! l)) as Hl by (destruct HJ as [_ (lp & ? & _)]; by exists lp).
  pose proof (grows_refl 0 None w ltac:(lia) Hok) as Hg0.
  destruct T as [[[|x xs] | x t [|k ks] xs | [|f fs]]|]; cbn [run_turn from_option turn_ok] in *.
  - wp_step. eapply wp_mono; [by apply (kept_take_functors l (in_round J l) P) |].
    intros fs w' (Hg & HJ' & Hr). wp_step. by apply (turned_none l 0 w fs (λ fs, Some (TRun fs))).
  - apply Forall_cons in HT as [Hx Hxs]. destruct Hl as [lp Hl]. do 3 wp_step.
    eapply wp_mono; [by apply (kept_begin_event l (in_round J l) P) |]. intros b w' [Hg HJ']. wp_step.
    apply (turned_none l 0 w b (λ b : bool, Some (if b then TTests x _ all_tests xs else THandle xs))); [done |].
    assert (Forall (chan_ready l w') xs) by by eapply chan_ready_all.
    destruct b; [split_and!; [by eapply chan_ready_grows | done | done] | done].
  - destruct HT as (_ & _ & Hxs). wp_step. by apply (turned_none l 0 w tt (λ _, Some (THandle xs))).
  - destruct HT as (Hx & Hk & Hxs). rewrite zlen_cons in Hk. wp_step.
    eapply wp_mono; [by apply (kept_run_test l (in_round J l) P) |]. intros [] w' Hw. wp_step.
    apply (turned_none l 1 w tt (λ _, Some (TTests x t ks xs))); [done |].
    split_and!; [by eapply chan_ready_grows, Hx; apply Hw | lia | by eapply chan_ready_all, Hxs; apply Hw].
  - wp_step. eapply wp_mono; [by apply (kept_done_functors l (in_round J l) P) |]. intros [] w' Hw. wp_step.
    by apply (turned_none l 0 w tt (λ _, None)).
  - wp_step. eapply wp_mono; [by apply (kept_functor l (in_round J l) P f fs) |].
    intros [] w' (Hg & HJ' & Hr). wp_step. exists 0, (est_of f). split_and!; [done | | apply HJ' | done].
    intros c cn Hf Hc. destruct (proj2 (fr_est _ _ _ _ HT) c) as (cn' & Hc' & Hlc & _).
    { destruct f; try done. injection Hf as ->. cbn. set_solver. }
    congruence.
  - wp_step. eapply wp_mono; [by apply (kept_poll_turn l (in_round J l) P) |].
    intros xs w' (Hg & HJ' & Hxs & _). wp_step. by apply (turned_none l 0 w xs (λ xs, Some (THandle xs))).
Qed.

(** ** The events *)

Abbreviation may_stop_in := (λ x (s : system E), may_stop x (heap s)).

Lemma system_ok_grows s k e l T' w' :
  system_ok s → grows k e (heap s) w' → establishes_in l e (heap s) → J w' →
  from_option (turn_ok w' l) True T' →
  system_ok (System E w' (partial_alter (λ _, T') l (turns s))).
Proof.
  intros Hs Hg He HJ HT. split; cbn; [apply Hg | done |]. intros l' T.
  destruct (decide (l' = l)) as [->|Hne].
  - rewrite lookup_partial_alter_eq. intros ->. exact HT.
  - rewrite lookup_partial_alter_ne by done. intros Hl'. eapply turn_ok_grows; [done | | by apply Hs].
    intros c cn Hc Hcn. rewrite (He c cn Hc Hcn). done.
Qed.

Lemma safe_turn s l :
  system_ok s → permitted s (ETurn l) →
  wp may_stop_in (run_event (ETurn l)) (λ _ s', system_ok s' ∧ history (heap s) (heap s')) s.
Proof.
  intros Hs [[lp Hl] Hroom]. cbn [run_event]. do 3 wp_step. apply (wp_on_heap may_stop).
  unfold thread_turn, in_thread. do 4 wp_step. set (w := heap s) in *.
  pose proof (grows_tid w (EventLoop.thread_id_ lp) (sy_heap _ Hs)) as Hg. set (w1 := w <| tid := _ |>) in *.
  assert (from_option (turn_ok w1 l) True (turns s !! l)) as HT.
  { destruct (turns s !! l) as [T|] eqn:HT; [| done]. pose proof (sy_turns _ Hs l T HT) as Hok.
    by eapply turn_ok_grows. }
  eapply wp_mono; [apply safe_run_turn; [apply Hg | | done | exact HT] |].
  { split; [by apply cl_tid, Hs | by exists lp]. }
  intros T' w' (k & e & Hg' & He & HJ & HT'). wp_step. upd_simpl.
  assert (grows k e w w') as Hgw by by eapply grows_0.
  split; [exact (system_ok_grows s k e l T' w' Hs Hgw He HJ HT') | by eapply history_ext, Hgw].
Qed.

Lemma runs_turns s s' :
  system_ok s → runs only_turns s s' → system_ok s' ∧ history (heap s) (heap s').
Proof.
  intros Hs Hr. induction Hr as [|s1 s2 e Hr [Hs1 Hh1] [Ha [l ->]] Hrun]; [done |].
  pose proof (safe_turn s1 l Hs1 Ha) as Hw. unfold wp in Hw. rewrite Hrun in Hw.
  destruct Hw as [Hs2 Hh2]. split; [done | by etrans].
Qed.
End safe.

(** ** Loops and the application together *)

Section application.
Context {E : Type} `{KernelLaws E} `{AppOk}.
Implicit Types w : World E.

Abbreviation in_order := (system_ok (λ _ : World E, True) (λ _, True)).

Lemma safe_client s t p :
  in_order s → permitted s (EClient t p) →
  wp (λ x s, may_stop x (heap s)) (run_event (EClient t p))
    (λ _ s', in_order s' ∧ history (heap s) (heap s')) s.
Proof.
  intros Hs Hp. cbn [run_event]. apply (wp_on_heap may_stop). unfold in_thread. do 2 wp_step.
  pose proof (grows_tid (heap s) t (sy_heap _ _ _ Hs)) as Hg.
  eapply wp_mono; [by eapply safe_run_client; [apply Hg | | exact Hp] |]. intros [] w' Hg'.
  pose proof (grows_0 _ _ _ _ _ Hg Hg') as Hgw. upd_simpl.
  split; [split; [apply Hgw | done |] | by eapply history_ext, Hgw]. intros l T HT. cbn in *.
  eapply turn_ok_grows; [exact Hgw | done | by apply Hs].
Qed.

Lemma safe_event s e :
  in_order s → permitted s e →
  wp (λ x s, may_stop x (heap s)) (run_event e) (λ _ s', in_order s' ∧ history (heap s) (heap s')) s.
Proof. destruct e; [apply (safe_turn (λ _, True) (λ _, True)) | apply safe_client]. Qed.

Lemma runs_in_order s s' :
  in_order s → runs permitted s s' → in_order s' ∧ history (heap s) (heap s').
Proof.
  intros Hs Hr. induction Hr as [|s1 s2 e Hr [Hs1 Hh1] Ha Hrun]; [done |].
  pose proof (safe_event s1 e Hs1 Ha) as Hw. unfold wp in Hw. rewrite Hrun in Hw.
  destruct Hw as [Hs2 Hh2]. split; [done | by etrans].
Qed.

Lemma in_order_start w : world_ok w → in_order (System E w ∅).
Proof. by split. Qed.

End application.

(** ** What every turn keeps *)

Section stable.
Context {E : Type} `{Kernel E} `{App} (P : World E → Prop)
  (P_turn : ∀ l T, Stable P (run_turn l T)) (P_client : ∀ p, Stable P (run_client p))
  (P_tid : ∀ w t, P w → P (w <| tid := t |>)).

Lemma stable_on_heap {A} (m : M (World E) A) s a s' :
  Stable P m → on_heap m s = Done a s' → P (heap s) → P (heap s') ∧ turns s' = turns s.
Proof.
  intros Hm. specialize (Hm (heap s)). unfold on_heap. destruct (m (heap s)); [| done..].
  intros [= <- <-] HP. split; [by apply Hm | done].
Qed.

Lemma stable_event e s s' : run_event e s = Done tt s' → P (heap s) → P (heap s').
Proof.
  assert (∀ t, Stable P (in_thread t)) as Ht by (intros t w HP; by apply P_tid).
  intros Hrun HP. destruct e as [l | t p]; cbn [run_event] in Hrun.
  - apply bind_done in Hrun as (s0 & s1 & [= <- <-] & Hrun). apply bind_done in Hrun as (T & s1 & Hturn & [= <-]).
    assert (Stable P (thread_turn l (turns s !! l))) as Hm by (unfold thread_turn; repeat pres_step).
    by destruct (stable_on_heap _ s T s1 Hm Hturn HP).
  - assert (Stable P (in_thread t;; run_client p)) as Hm by repeat pres_step.
    by destruct (stable_on_heap _ s tt s' Hm Hrun HP).
Qed.

Lemma runs_stable ok s s' : runs ok s s' → P (heap s) → P (heap s').
Proof. intros Hr HP. induction Hr as [|s1 s2 e _ IH _ Hrun]; [done |]. by eapply stable_event. Qed.
End stable.

(** Start-up, for what allows any change of a server. *)
Section startup.
Context {E : Type} `{Kernel E} `{App} (R : World E → World E → Prop) `{!AdmitsConns R}
  (ad_tid : ∀ w t, R w (w <| tid := t |>)) (ad_new_loop : Pres R new_loop)
  (ad_servers : ∀ w g, R w (w <| servers ::= g |>)).

#[local] Instance admits_server_any : AdmitsServer R.
Proof. intros w s sv g _ _. apply ad_servers. Qed.

Ltac pres_prim ::= by apply pres_modify.

Lemma pres_startup addr name rp cc mc n : Pres R (startup addr name rp cc mc n).
Proof.
  assert (∀ s g, Pres R (upd_server s g)) by (intros s g; unfold upd_server; repeat pres_step).
  assert (∀ s, Pres R (Server_Start s)) by (intros s; by apply (pres_Server_Start R)).
  unfold startup, make_server, Server_SetConnectionCallback, Server_SetMessageCallback, SetThreadNum.
  unfold new_server, new_acceptor, CreateNonblocking, BindAddress, SetReuseAddr, SetReusePort, SetNewConnectionCallback.
  repeat pres_step.
Qed.
End startup.

(** ** A round is its turns *)

Section rounds.
Context {E : Type} `{KernelLaws E} `{App}.
Implicit Types w : World E.

Section here.
Context (l : nat).
Abbreviation R := (keeps_true (E := E) (here l)).

#[export] Instance admits_here : Admits R.
Proof.
  assert (∀ w w', tid w' = tid w → loops w' = loops w → R w w') as Hsame.
  { intros w w' Ht Hl (lp & ? & ?). exists lp. by rewrite Hl, Ht. }
  split; [apply _ | intros; by apply Hsame.. | | intros; by apply Hsame | intros; by apply Hsame].
  intros w l' lp g Hl' Hg (lp0 & Hl & Ht). destruct (decide (l' = l)) as [->|Hne].
  - exists (g lp). upd_simpl. rewrite lookup_insert_eq. destruct (Hg lp) as [-> _].
    split; [done | congruence].
  - exists lp0. upd_simpl. by rewrite lookup_insert_ne.
Qed.

Lemma here_servers w g : R w (w <| servers ::= g |>).
Proof. intros (lp & ? & ?). by exists lp. Qed.
#[export] Instance admits_server_here : AdmitsServer R.
Proof. intros w s sv g _ _. apply here_servers. Qed.

#[export] Instance here_call_callback cb t : Pres R (call_callback cb t).
Proof.
  apply (pres_call_callback R); intros *; [apply (pres_any_server R) | apply (pres_NewConnection R)];
    apply here_servers.
Qed.
#[export] Instance here_run_functor f : Pres R (run_functor f).
Proof. apply (pres_run_functor R). intros *. apply (pres_any_server R), here_servers. Qed.
#[export] Instance here_run_test x t k : Pres R (run_test x t k).
Proof. pose proof here_call_callback. unfold run_test, call_if. repeat pres_step. Qed.
#[export] Instance here_begin_event x : Pres R (begin_event x).
Proof. unfold begin_event, lock. repeat pres_step. Qed.
#[export] Instance here_take_functors : Pres R (take_functors l).
Proof.
  unfold take_functors. do 2 (apply pres_bind; [apply _ | apply _ | intros ?]).
  apply pres_bind; [apply _ | | intros _; apply _]. apply stable_intro. intros w Hw. unfold upd_loop.
  apply after_bind, after_deref. intros lp Hl. apply after_modify. by apply (here_loop l w lp).
Qed.
#[export] Instance here_poll_turn : Pres R (poll_turn l).
Proof. unfold poll_turn. repeat pres_step. Qed.
End here.

(** A turn of loop [l]; the turns of the others stay as they are. *)
Definition goes (l : nat) (s s' : system E) : Prop := run_event (ETurn l) s = Done tt s'.

Section loop.
Context (l : nat) (ts : gmap nat turn).

Definition at_turn (T : option turn) w : system E := System E w (partial_alter (λ _, T) l ts).

Lemma goes_turn T T' w w' : here l w → run_turn l T w = Done T' w' → goes l (at_turn T w) (at_turn T' w').
Proof.
  intros (lp & Hl & Ht) Hrun. unfold goes, at_turn, run_event, on_heap, thread_turn, the_loop, deref, in_thread.
  unfold mbind, M_bind, get, modify. cbn. rewrite lookup_partial_alter_eq, Hl. cbn.
  assert (w <| tid := EventLoop.thread_id_ lp |> = w) as -> by (rewrite Ht; by destruct w).
  rewrite Hrun. unfold upd. cbn. do 2 f_equal.
  apply map_eq. intros l'. destruct (decide (l' = l)) as [->|Hne]; [by rewrite !lookup_partial_alter_eq |].
  by rewrite !lookup_partial_alter_ne.
Qed.

Lemma at_start w : ts !! l = None → at_turn None w = System E w ts.
Proof. intros Hl. unfold at_turn. f_equal. rewrite <- Hl. apply partial_alter_self. Qed.

(** From where a thread is to where it is then, in its own thread. *)
Definition gets_to (T : option turn) w (T' : option turn) w' : Prop :=
  rtc (goes l) (at_turn T w) (at_turn T' w') ∧ here l w'.

Lemma gets_to_turn {A} (m : M (World E) A) T (T' : A → option turn) a w w' :
  Pres (keeps_true (here l)) m → here l w → m w = Done a w' →
  run_turn l T w = (a ← m; mret (T' a)) w → gets_to T w (T' a) w'.
Proof.
  intros Hm Hh Hrun HT. split.
  - apply rtc_once, goes_turn; [done |]. rewrite HT. unfold mbind, M_bind. by rewrite Hrun.
  - specialize (Hm w). rewrite Hrun in Hm. by apply Hm.
Qed.

Lemma gets_to_trans T1 w1 T2 w2 T3 w3 : gets_to T1 w1 T2 w2 → gets_to T2 w2 T3 w3 → gets_to T1 w1 T3 w3.
Proof. intros [Hg1 _] [Hg2 Hh]. split; [by etrans | done]. Qed.

Lemma turns_of_tests x t xs ks : ∀ w w', here l w →
  sequence_ (run_test x t <$> ks) w = Done tt w' → gets_to (Some (TTests x t ks xs)) w (Some (THandle xs)) w'.
Proof.
  induction ks as [|k ks IH]; intros w w' Hh Hrun.
  - by apply (gets_to_turn (mret tt) _ (λ _, Some (THandle xs)) tt); [apply _ | ..].
  - apply bind_done in Hrun as ([] & w1 & Hk & Hks).
    assert (gets_to (Some (TTests x t (k :: ks) xs)) w (Some (TTests x t ks xs)) w1) as Hg
      by by apply (gets_to_turn (run_test x t k) _ (λ _, Some (TTests x t ks xs)) tt); [apply _ | ..].
    eapply gets_to_trans; [exact Hg |]. apply IH; [apply Hg | done].
Qed.

Lemma turns_of_active xs : ∀ w w', here l w →
  handle_active call_callback l xs w = Done tt w' → gets_to (Some (THandle xs)) w (Some (THandle [])) w'.
Proof.
  induction xs as [|x xs IH]; intros w w' Hh Hrun; [injection Hrun as <-; by split |].
  apply bind_done in Hrun as ([] & w2 & Hx & Hxs). cbn beta in Hx.
  apply bind_done in Hx as (lp & w0 & Hlp & Hx).
  assert (w0 = w) as -> by (unfold the_loop, deref in Hlp; destruct (loops w !! l); by simplify_eq).
  rewrite HandleEvent_tests in Hx. apply bind_done in Hx as (b & w1 & Hb & Hx).
  set (T' := λ b : bool, Some (if b then TTests x (EventLoop.poll_return_time_ lp) all_tests xs else THandle xs)).
  assert (gets_to (Some (THandle (x :: xs))) w (T' b) w1) as Hg1.
  { apply (gets_to_turn (begin_event x) _ T' b); [apply _ | done.. |]. cbn [run_turn].
    unfold mbind at 1, M_bind at 1. by rewrite Hlp. }
  assert (gets_to (T' b) w1 (Some (THandle xs)) w2) as Hg2.
  { destruct b; [by apply turns_of_tests; [apply Hg1 |] | injection Hx as <-]. by split; [| apply Hg1]. }
  do 2 (eapply gets_to_trans; [done |]). apply IH; [apply Hg2 | done].
Qed.

Lemma turns_of_functors fs : ∀ w w', here l w →
  sequence_ (run_functor <$> fs) w = Done tt w' → gets_to (Some (TRun fs)) w (Some (TRun [])) w'.
Proof.
  induction fs as [|f fs IH]; intros w w' Hh Hrun; [injection Hrun as <-; by split |].
  apply bind_done in Hrun as ([] & w1 & Hf & Hfs).
  assert (gets_to (Some (TRun (f :: fs))) w (Some (TRun fs)) w1) as Hg
    by by apply (gets_to_turn (run_functor f) _ (λ _, Some (TRun fs)) tt); [apply _ | ..].
  eapply gets_to_trans; [exact Hg |]. apply IH; [apply Hg | done].
Qed.

Lemma turns_of_round w w' : here l w →
  server_loop_body l w = Done tt w' → ∃ s1, goes l (at_turn None w) s1 ∧ rtc (goes l) s1 (at_turn None w').
Proof.
  intros Hh Hrun. rewrite loop_body_turns in Hrun.
  apply bind_done in Hrun as (xs & w1 & Hpoll & Hrun). apply bind_done in Hrun as ([] & w2 & Hxs & Hrun).
  rewrite DoPendingFunctors_turns in Hrun.
  apply bind_done in Hrun as (fs & w3 & Htake & Hrun). apply bind_done in Hrun as ([] & w4 & Hfs & Hdone).
  assert (here l w1) as Hh1 by (pose proof (here_poll_turn l w) as Hp; rewrite Hpoll in Hp; by apply Hp).
  exists (at_turn (Some (THandle xs)) w1). split.
  { apply goes_turn; [done |]. cbn [run_turn]. unfold mbind, M_bind. by rewrite Hpoll. }
  assert (gets_to (Some (THandle xs)) w1 (Some (THandle [])) w2) as Hg2 by by apply turns_of_active.
  assert (gets_to (Some (THandle [])) w2 (Some (TRun fs)) w3) as Hg3
    by by apply (gets_to_turn (take_functors l) _ (λ fs, Some (TRun fs)) fs); [apply _ | apply Hg2 | ..].
  assert (gets_to (Some (TRun fs)) w3 (Some (TRun [])) w4) as Hg4 by by apply turns_of_functors; [apply Hg3 |].
  eapply gets_to_trans; [exact Hg2 |]. do 2 (eapply gets_to_trans; [done |]).
  apply (gets_to_turn (done_functors l) _ (λ _, None) tt); [unfold done_functors; apply _ | apply Hg4 | done..].
Qed.
End loop.

(** C3: a round of a loop is the turns of its thread, one after the other:
    what [run_action] does in one step, from waiting for events to the last
    functor, the threads can do in turns, with every other thread where it
    was; so whatever holds of all runs of turns holds of all runs of rounds. *)
Theorem round_in_turns l s w' :
  turns s !! l = None → run_action (ARound l) (heap s) = Done tt w' →
  rtc (goes l) s (System E w' (turns s)).
Proof.
  intros Hnone Hrun. destruct s as [w ts]. cbn [heap turns run_action] in *.
  apply bind_done in Hrun as (lp & w0 & Hlp & Hrun). unfold the_loop, deref in Hlp.
  destruct (loops w !! l) as [lp'|] eqn:Hl; [| done]. simplify_eq.
  set (w1 := w0 <| tid := EventLoop.thread_id_ lp |>).
  destruct (turns_of_round l ts w1 w') as (s1 & Hg1 & Hg); [by exists lp | exact Hrun |].
  rewrite !at_start in * by done. eapply rtc_l; [| exact Hg]. revert Hg1.
  unfold goes, run_event, on_heap, thread_turn, the_loop, deref, in_thread, mbind, M_bind, get, modify. cbn.
  by rewrite Hl.
Qed.
End rounds.

(** ** An interleaved run of the echo server

    The main loop begins with the events of the listening socket; before it
    accepts, the first loop of the pool wakes up and begins with its own; then
    the connection is made, and its functor taken by that loop; an application
    thread sends before and after it has run. *)

Definition ran_event (s : system sim) (e : event) : system sim :=
  match run_event e s with Done _ s' => s' | _ => s end.

Definition some_turns (n l : nat) : list event := replicate n (ETurn l).

Definition echo_schedule : list event :=
  some_turns 4 0 ++ some_turns 2 1 ++ some_turns 1 0 ++ some_turns 6 1 ++ some_turns 3 0 ++ some_turns 1 1.

Definition after_events (es : list event) : system sim := fold_left ran_event es (System sim echo_world ∅).

(** The event is a turn that can be taken. *)
Definition turn_runs (s : system sim) (e : event) : bool :=
  match e with
  | ETurn l =>
      bool_decide (is_Some (loops (heap s) !! l)) &&
      forallb (λ '(_, sv), TcpServer.next_conn_id_ sv + 1 <=? INT_MAX) (map_to_list (servers (heap s))) &&
      match run_event e s with Done _ _ => true | _ => false end
  | EClient _ _ => false
  end.

Fixpoint all_run (es : list event) (s : system sim) : bool :=
  match es with
  | [] => true
  | e :: es => turn_runs s e && all_run es (ran_event s e)
  end.

Lemma runs_by_compute es : ∀ s0 s,
  runs only_turns s0 s → all_run es s = true → runs only_turns s0 (fold_left ran_event es s).
Proof.
  induction es as [|e es IH]; intros s0 s Hr Hall; [done |].
  apply andb_true_iff in Hall as [He Hall]. cbn [fold_left]. apply IH; [| done].
  destruct e as [l | t p]; [| done]. apply andb_true_iff in He as [[Hl Hroom]%andb_true_iff Hrun].
  apply (runs_event _ _ s _ (ETurn l)); [done | | ].
  - split; [| by exists l]. split; [by apply bool_decide_eq_true in Hl | by apply room_by_compute].
  - unfold ran_event. by destruct (run_event (ETurn l) s) as [[] s1| | |].
Qed.

Lemma runs_weaken {E} `{Kernel E} `{App} (ok ok' : system E → event → Prop) s s' :
  (∀ s e, ok s e → ok' s e) → runs ok s s' → runs ok' s s'.
Proof. intros Hok Hr. induction Hr as [|s1 s2 e _ IH He Hrun]; [constructor | eapply runs_event; eauto]. Qed.

Lemma echo_schedule_runs : runs permitted (System sim echo_world ∅) (after_events echo_schedule).
Proof.
  apply (runs_weaken only_turns); [by intros s e [? _] |].
  apply runs_by_compute; [constructor | vm_compute; reflexivity].
Qed.


Lemma round_in_turns_witness :
  run_action (ARound 0) echo_world = Done tt (echo_run 1) ∧
  rtc (goes 0) (System sim echo_world ∅) (System sim (echo_run 1) ∅).
Proof.
  assert (run_action (ARound 0) echo_world = Done tt (echo_run 1)) as Hrun by (vm_compute; reflexivity).
  split; [exact Hrun |].
  apply (round_in_turns 0 (System sim echo_world ∅) (echo_run 1)); [reflexivity | exact Hrun].
Defined.
