(* ===== verification/Lifetime.v ===== *)
(** * Who keeps a connection alive

    Connections are owned through [TcpConnectionPtr]s, which are
    [std::shared_ptr]s: the destructor runs when the last one goes.  Here
    these pointers are counted ([pointers]): those in the servers' maps, in
    the functors queued and taken, in the lock a thread holds on the object
    tied to a channel while it handles its events, and in the close
    callbacks; and after every event the connections that have none left are
    destroyed ([collect]).

    The close callback that a server gives a connection captures a pointer
    to that connection.  So the count never comes down to zero: a program
    with the counting does just what it does without it, which is why the
    rest of this development can leave it out; and no connection, and no
    socket of one, is ever let go. *)

From S2P Require Import Prelude Format Kernel SimKernel Buffer Objects PollerOps ChannelOps ReactorInv PollInv ReactorLife LoopOps LoopInv SocketOps ConnOps ServerOps TurnOps Frames WorldInv WorldSteps ConnInv HandlerInv LifeInv AcceptInv SystemInv SetupInv EchoServer SystemSpec Turns.

(** ** The pointers *)

(** What the functors of the library capture: a [conn_ptr], or [this]. *)
Definition functor_pointer (f : functor) : option nat :=
  match f with
  | FnConnectEstablished c | FnConnectDestroyed c | FnRemoveConnectionInLoop _ c => Some c
  | FnSendInLoop _ _ | FnSendBuffer _ _ | FnShutdownInLoop _ | FnWriteComplete _ | FnHighWaterMark _ _
  | FnListen _ | FnUser _ => None
  end.

Definition close_pointer (cb : close_callback) : option nat :=
  match cb with CloseRemoveConnection _ conn_ptr => Some conn_ptr | CloseUser _ => None end.

Section defs.
Context {E : Type} `{Kernel E} `{App}.
Implicit Types (s : system E) (w : World E).

(** The local variables of a thread: the functors it has taken; the [guard]
    of [HandleEvent]. *)
Definition turn_pointers w (T : turn) : list nat :=
  match T with
  | THandle _ => []
  | TTests x _ _ _ =>
      match channels w !! x with
      | Some ch => if Channel.tied_ ch then option_list (Channel.tie_ ch) else []
      | None => []
      end
  | TRun fs => omap functor_pointer fs
  end.

Definition values {A} (m : gmap nat A) : list A := (map_to_list m).*2.

(** Where every [TcpConnectionPtr] of the library points. *)
Definition pointers s : list nat :=
  (values (servers (heap s)) ≫= λ sv, (map_to_list (TcpServer.connections_ sv)).*2) ++
  (values (loops (heap s)) ≫= λ lp, omap functor_pointer (EventLoop.pending_functors_ lp)) ++
  (values (turns s) ≫= turn_pointers (heap s)) ++
  omap (λ cn, cb ← TcpConnection.close_callback_ cn; close_pointer cb) (values (conns (heap s))).

(** [use_count()], with the [held s c] pointers the application keeps. *)
Definition use_count (held : system E → nat → nat) s (c : nat) : nat :=
  length (filter (eq c) (pointers s)) + held s c.

Section counted.
Context (held : system E → nat → nat).

(** The destructors of the connections nothing points to any more. *)
Definition collect : M (system E) unit :=
  s ← get;
  on_heap (sequence_ (delete_connection <$>
    filter (λ c, use_count held s c = 0%nat) (elements (dom (conns (heap s)))))).

Inductive counted_runs s : system E → Prop :=
  | counted_start : counted_runs s s
  | counted_event s1 s2 e :
      counted_runs s s1 → permitted s1 e → (run_event e;; collect) s1 = Done tt s2 → counted_runs s s2.
End counted.
End defs.

(** ** A connection points to itself *)

Section self.
Context {E : Type} `{KernelLaws E}.
Implicit Types w : World E.

(** The close callback of every connection, but perhaps that of [o], captures
    the connection itself. *)
Definition self_held_but (o : option nat) w : Prop := ∀ c cn, o ≠ Some c → conns w !! c = Some cn →
  ∃ s, TcpConnection.close_callback_ cn = Some (CloseRemoveConnection s c).
Definition self_held : World E → Prop := self_held_but None.

Lemma self_held_same o w w' : conns w' = conns w → keeps_true (self_held_but o) w w'.
Proof. intros Hc Hw c cn. rewrite Hc. apply Hw. Qed.

#[export] Instance admits_self_held o : AdmitsConns (keeps_true (self_held_but o)).
Proof.
  split; [apply _ | intros; by apply self_held_same.. |].
  intros w c cn g Hc [_ Hg] Hw c' cn' Ho. upd_simpl. rewrite lookup_insert.
  case_decide; [| by apply Hw]. intros [= <-]. rewrite Hg. subst c'. by apply Hw.
Qed.

Lemma self_held_any_server o w g : keeps_true (self_held_but o) w (w <| servers ::= g |>).
Proof. by apply self_held_same. Qed.
#[export] Instance admits_server_self_held o : AdmitsServer (keeps_true (self_held_but o)).
Proof. intros w s sv g _ _. by apply self_held_same. Qed.

Ltac pres_prim ::= apply pres_modify; intros ?; by apply self_held_same.

#[local] Instance self_held_upd_server o s g : Stable (self_held_but o) (upd_server s g).
Proof. unfold upd_server. repeat pres_step. Qed.

Lemma self_held_SetCloseCallback s c w :
  self_held_but (Some c) w →
  after (ConnOps.SetCloseCallback c (Some (CloseRemoveConnection s c))) (λ _, self_held) w.
Proof.
  intros Hw. unfold ConnOps.SetCloseCallback, upd_conn. repeat after_step. intros c' cn' _. upd_simpl.
  rewrite lookup_insert. case_decide; [intros [= <-]; subst c'; by exists s | apply Hw; congruence].
Qed.

Lemma self_held_server_connection s c name w :
  self_held_but (Some c) w → after (server_connection s c name) (λ _, self_held) w.
Proof.
  intros Hw. unfold server_connection.
  do 5 (apply after_bind; eapply after_mono; [by apply stable_after, Hw; apply _ |]; clear w Hw; intros ? w Hw).
  by apply self_held_SetCloseCallback.
Qed.

Context `{AppOk}.

Lemma self_held_new_connection l name fd local peer w :
  self_held w → after (new_connection (Some l) name fd local peer) (λ c, self_held_but (Some c)) w.
Proof.
  intros Hw. apply (wp_after no_exit), wp_new_connection. intros w' c x _ _ _ Hcs _ _ c' cn' Hne.
  rewrite Hcs, lookup_insert_ne by congruence. by apply Hw.
Qed.

Lemma self_held_NewConnection s fd peer : Stable self_held (NewConnection s fd peer).
Proof.
  unfold NewConnection. do 5 (apply pres_bind; [apply _ | try case_match; apply _ | intros ?]).
  case_match. case_match. apply pres_bind; [apply _ | apply _ | intros _]. apply stable_intro. intros w Hw.
  apply after_bind. eapply after_mono; [by apply self_held_new_connection |]. intros c w1 Hw1.
  apply after_bind. eapply after_mono; [by apply self_held_server_connection |]. intros [] w2 Hw2.
  apply stable_after, Hw2. apply _.
Qed.

Lemma self_held_turn l T : Stable self_held (run_turn l T).
Proof.
  apply (pres_run_turn (keeps_true self_held)); intros *; [apply _ | apply self_held_NewConnection |].
  apply (pres_any_loop (keeps_true self_held)). intros w h. by apply self_held_same.
Qed.

Lemma self_held_startup addr name rp cc mc n : Stable self_held (startup addr name rp cc mc n).
Proof.
  apply (pres_startup (keeps_true self_held)); [intros; by apply self_held_same | | intros; by apply self_held_same].
  unfold new_loop, NewDefaultPoller, CreateEventfd. repeat pres_step.
Qed.

Lemma self_held_runs s s' : runs permitted s s' → self_held (heap s) → self_held (heap s').
Proof.
  intros Hr. eapply (runs_stable self_held); [apply self_held_turn | apply _ | | exact Hr].
  intros w t. by apply self_held_same.
Qed.

(** ** Nothing is ever destroyed *)

Lemma self_held_pointer s c cn : self_held (heap s) → conns (heap s) !! c = Some cn → c ∈ pointers s.
Proof.
  intros Hs Hc. destruct (Hs c cn) as [sv Hcb]; [done.. |].
  unfold pointers. do 3 (apply elem_of_app; right). apply list_elem_of_omap. exists cn. split; [| by rewrite Hcb].
  unfold values. apply list_elem_of_fmap. exists (c, cn). split; [done |]. by apply elem_of_map_to_list.
Qed.

Lemma use_count_positive held s c cn :
  self_held (heap s) → conns (heap s) !! c = Some cn → (0 < use_count held s c)%nat.
Proof.
  intros Hs Hc. unfold use_count. assert (c ∈ filter (eq c) (pointers s)) as Hin.
  { apply list_elem_of_filter. split; [done |]. by eapply self_held_pointer. }
  destruct (filter (eq c) (pointers s)); [by apply not_elem_of_nil in Hin | cbn; lia].
Qed.

Lemma collect_nothing held s : self_held (heap s) → collect held s = Done tt s.
Proof.
  intros Hs. unfold collect, mbind, M_bind, get.
  assert (filter (λ c, use_count held s c = 0%nat) (elements (dom (conns (heap s)))) = []) as ->.
  { destruct (filter _ _) as [|c cs] eqn:Hf; [done |]. exfalso.
    assert (c ∈ c :: cs) as Hin by (left). rewrite <- Hf in Hin. apply list_elem_of_filter in Hin as [Hz Hin].
    apply elem_of_elements, elem_of_dom in Hin as [cn Hc]. pose proof (use_count_positive held s c cn Hs Hc). lia. }
  unfold on_heap. cbn. by destruct s.
Qed.

Lemma counted_runs_iff held s s' :
  self_held (heap s) → counted_runs held s s' ↔ runs permitted s s'.
Proof.
  intros Hs. assert (∀ e s1 s2, runs permitted s s1 → permitted s1 e →
    run_event e s1 = Done tt s2 → (run_event e;; collect held) s1 = Done tt s2) as Hsame.
  { intros e s1 s2 Hr He Hrun. unfold mbind, M_bind. rewrite Hrun. apply collect_nothing.
    apply (self_held_runs s); [by eapply runs_event | done]. }
  split; intros Hr.
  - induction Hr as [|s1 s2 e _ IH He Hrun]; [constructor |].
    apply bind_done in Hrun as ([] & s3 & Hrun & Hcol).
    assert ((run_event e;; collect held) s1 = Done tt s3) as Heq by by apply Hsame.
    unfold mbind, M_bind in Heq. rewrite Hrun, Hcol in Heq. injection Heq as ->. by eapply runs_event.
  - induction Hr as [|s1 s2 e Hr IH He Hrun]; [constructor |]. eapply counted_event; [done.. |]. by apply Hsame.
Qed.
End self.

(** ** The properties *)

Section theorems.
Context {E : Type} `{KernelLaws E} `{AppOk}.
Implicit Types w : World E.

Lemma self_held_started addr name rp cc mc n w ls w0 :
  conns w = ∅ → startup addr name rp cc mc n w = Done ls w0 → self_held w0.
Proof.
  intros Hc Hst. pose proof (self_held_startup addr name rp cc mc n w) as Hs. rewrite Hst in Hs. apply Hs.
  intros c cn _. by rewrite Hc, lookup_empty.
Qed.

(** C4: counting the pointers changes nothing: whatever pointers the
    application keeps, the runs of a started program in which a connection is
    destroyed - its destructor run and its socket closed - as soon as no
    [TcpConnectionPtr] points to it are exactly the runs in which none ever
    is. *)
Theorem counting_changes_nothing addr name rp cc mc n w ls w0 held s :
  conns w = ∅ → startup addr name rp cc mc n w = Done ls w0 →
  counted_runs held (System E w0 ∅) s ↔ runs permitted (System E w0 ∅) s.
Proof. intros Hc Hst. apply counted_runs_iff. by eapply self_held_started. Qed.

(** C38: no connection is ever let go: though the pointers are counted, every
    connection that was ever made is pointed to, by its own close callback
    if by nothing else, and its socket is open; and so it is whatever happens
    afterwards, long after it is down and the server has forgotten it. *)
Theorem connections_leak addr name rp cc mc n w ls w0 held s c cn :
  no_objects w → loops w = ∅ → conns w = ∅ → servers w = ∅ → calls w = [] → 0 ≤ n < 2 ^ 31 →
  startup addr name rp cc mc n w = Done ls w0 →
  counted_runs held (System E w0 ∅) s → conns (heap s) !! c = Some cn →
  (∃ sv, TcpConnection.close_callback_ cn = Some (CloseRemoveConnection sv c)) ∧ (0 < use_count held s c)%nat ∧
  ∀ s', counted_runs held s s' → ∃ cn', conns (heap s') !! c = Some cn' ∧
    TcpConnection.socket_ cn' = TcpConnection.socket_ cn ∧
    TcpConnection.socket_ cn ∈ k_open (obs (heap s')).
Proof.
  intros Hno Hl Hc0 Hs Hcl Hn Hst Hr Hc.
  assert (self_held w0) as Hself by by eapply self_held_started.
  apply counted_runs_iff in Hr; [| done].
  assert (self_held (heap s)) as Hself' by by eapply self_held_runs.
  assert (world_ok w0) as Hok.
  { pose proof (wp_startup addr name rp cc mc n w Hno Hl Hc0 Hs Hcl Hn) as Hw. unfold wp in Hw. rewrite Hst in Hw.
    by destruct ls, Hw. }
  destruct (runs_in_order _ s (in_order_start w0 Hok) Hr) as [Hin _].
  split_and!; [by eapply Hself' | by eapply use_count_positive |].
  intros s' Hr'. apply counted_runs_iff in Hr'; [| done].
  destruct (runs_in_order s s' Hin Hr') as [Hin' Hh]. destruct (Hh c cn Hc) as (cn' & Hc' & Hf & _).
  unfold conn_fixed in Hf. injection Hf as _ _ Hfd _ _ _ _ _ _ _.
  exists cn'. split_and!; [done | done |]. rewrite <- Hfd. eapply conn_socket_open; [apply Hin' | done].
Qed.
End theorems.

(** The run of [Turns] to its end: the client hangs up, the connection is
    closed, the server forgets it, and [ConnectDestroyed] has run.  The one
    pointer to it that is left is its own; its socket is open. *)
Definition closing_schedule : list event :=
  echo_schedule ++ some_turns 28 1 ++ some_turns 5 0 ++ some_turns 6 1.

Definition closed_conn (s : system sim) : TcpConnection.t := 
  let addr := InetAddress_ctor 0 0 "0.0.0.0" in default (fresh_conn 0 "" 0 0 addr addr) (conns (heap s) !! 0%nat).

Lemma closing_runs : runs permitted (System sim echo_world ∅) (after_events closing_schedule).
Proof.
  apply (runs_weaken only_turns); [by intros s e [? _] |].
  apply runs_by_compute; [constructor | vm_compute; reflexivity].
Qed.

Lemma echo_started :
  startup (InetAddress_ctor 0 9012 "127.0.0.1") "CuteEchoServer" false kConnectionCallback kMessageCallback 4
    (empty_world echo_sim) = Done (0, 0)%nat echo_world.
Proof. vm_compute. reflexivity. Qed.

Lemma echo_self_held : self_held echo_world.
Proof.
  apply (self_held_started (InetAddress_ctor 0 9012 "127.0.0.1") "CuteEchoServer" false kConnectionCallback
    kMessageCallback 4 (empty_world echo_sim) (0, 0)%nat echo_world); [reflexivity | apply echo_started].
Qed.

Lemma counting_changes_nothing_witness :
  startup (InetAddress_ctor 0 9012 "127.0.0.1") "CuteEchoServer" false kConnectionCallback kMessageCallback 4
    (empty_world echo_sim) = Done (0, 0)%nat echo_world ∧
  counted_runs (λ _ _, 0%nat) (System sim echo_world ∅) (after_events closing_schedule).
Proof.
  split; [exact echo_started |].
  apply (counting_changes_nothing (InetAddress_ctor 0 9012 "127.0.0.1") "CuteEchoServer" false kConnectionCallback
    kMessageCallback 4 (empty_world echo_sim) (0, 0)%nat echo_world (λ _ _, 0%nat) (after_events closing_schedule));
    [reflexivity | exact echo_started | apply closing_runs].
Defined.

Lemma connections_leak_witness :
  let s := after_events closing_schedule in
  TcpConnection.state_ (closed_conn s) = kDisconnected ∧
  (TcpServer.connections_ <$> servers (heap s) !! 0%nat) = Some ∅ ∧
  pointers s = [0%nat] ∧
  ((∃ sv, TcpConnection.close_callback_ (closed_conn s) = Some (CloseRemoveConnection sv 0)) ∧
   (0 < use_count (λ _ _, 0) s 0)%nat ∧
   ∀ s', counted_runs (λ _ _, 0%nat) s s' → ∃ cn', conns (heap s') !! 0%nat = Some cn' ∧
     TcpConnection.socket_ cn' = TcpConnection.socket_ (closed_conn s) ∧
     TcpConnection.socket_ (closed_conn s) ∈ k_open (obs (heap s'))).
Proof.
  assert (0 ≤ 4 < 2 ^ 31) as Hn by done. assert (no_objects (empty_world echo_sim)) as Hno by by apply no_objects_empty.
  assert (conns (heap (after_events closing_schedule)) !! 0%nat = Some (closed_conn (after_events closing_schedule)))
    as Hc by (vm_compute; reflexivity).
  assert (counted_runs (λ _ _, 0%nat) (System sim echo_world ∅) (after_events closing_schedule)) as Hr.
  { apply counted_runs_iff; [apply echo_self_held | apply closing_runs]. }
  split; [vm_compute; reflexivity | split; [vm_compute; reflexivity | split; [vm_compute; reflexivity |]]].
  apply (connections_leak (InetAddress_ctor 0 9012 "127.0.0.1") "CuteEchoServer" false kConnectionCallback
    kMessageCallback 4 (empty_world echo_sim) (0, 0)%nat echo_world (λ _ _, 0%nat) (after_events closing_schedule) 0
    (closed_conn (after_events closing_schedule))); 
    [exact Hno | reflexivity | reflexivity | reflexivity | reflexivity | exact Hn | exact echo_started | exact Hr | exact Hc].
Defined.
