(* ===== verification/ServerSpec.v ===== *)
(** * The server: what its parts promise

    The pool hands out its loops in turn; every loop has a thread of its own;
    the connections a server knows are exactly named after the ids it gave
    out; starting a server again does nothing. *)

From S2P Require Import Prelude Format Kernel SimKernel Buffer Objects PollerOps ChannelOps ReactorInv PollInv ReactorLife LoopOps LoopInv SocketOps ConnOps ServerOps TurnOps AddressSpec Frames WorldInv WorldSteps ConnInv HandlerInv LifeInv AcceptInv SystemInv SetupInv EchoServer SystemSpec Turns.

(** ** The pool *)

(** [k] calls of [GetNextLoop] in a row. *)
Fixpoint next_loops (k : nat) : M EventLoopThreadPool.t (list nat) :=
  match k with
  | O => mret []
  | S k => l ← Pool.GetNextLoop; ls ← next_loops k; mret (l :: ls)
  end.

(** The loop that call [j] from now gets. *)
Definition loop_in_turn (p : EventLoopThreadPool.t) (j : nat) : nat :=
  default (EventLoopThreadPool.base_loop_ p)
    (EventLoopThreadPool.loops_ p !!
     Z.to_nat ((EventLoopThreadPool.next_ p + Z.of_nat j) mod (1 `max` zlen (EventLoopThreadPool.loops_ p)))).

Definition advance_by (p : EventLoopThreadPool.t) (k : nat) : EventLoopThreadPool.t :=
  p <| EventLoopThreadPool.next_ := (EventLoopThreadPool.next_ p + Z.of_nat k) mod
    (1 `max` zlen (EventLoopThreadPool.loops_ p)) |>.

Lemma GetNextLoop_run p : pool_bounds p → Pool.GetNextLoop p = Done (next_loop p) (advance p).
Proof.
  intros Hp. destruct (wp_done Pool.GetNextLoop (λ l p', l = next_loop p ∧ p' = advance p) p) as (l & p' & -> & -> & ->);
    [| done]. by apply wp_GetNextLoop.
Qed.

Lemma loop_in_turn_0 p : pool_bounds p → loop_in_turn p 0 = next_loop p.
Proof. intros [_ Hn]. unfold loop_in_turn, next_loop. rewrite Z.add_0_r, Z.mod_small by lia. done. Qed.

Lemma loop_in_turn_S p j : loop_in_turn (advance p) j = loop_in_turn p (S j).
Proof.
  unfold loop_in_turn, advance. upd_simpl. rewrite Zplus_mod_idemp_l.
  do 4 f_equal. lia.
Qed.

Lemma advance_by_S p k : advance_by (advance p) k = advance_by p (S k).
Proof.
  unfold advance_by, advance, upd. cbn. rewrite Zplus_mod_idemp_l. do 2 f_equal. lia.
Qed.

Lemma next_loops_run k : ∀ p, pool_bounds p →
  next_loops k p = Done (loop_in_turn p <$> seq 0 k) (advance_by p k).
Proof.
  induction k as [|k IH]; intros p Hp.
  - cbn. f_equal. destruct Hp as [_ Hn]. unfold advance_by, upd. cbn.
    rewrite Z.add_0_r, Z.mod_small by lia. by destruct p.
  - cbn [next_loops]. unfold mbind, M_bind. rewrite GetNextLoop_run by done.
    pose proof (IH (advance p) (advance_ok p Hp)) as HIH. unfold mbind, M_bind in HIH. rewrite HIH, advance_by_S.
    cbn. f_equal. rewrite loop_in_turn_0 by done. f_equal.
    rewrite <- fmap_S_seq, <- list_fmap_compose. apply list_fmap_ext. intros _ j _. apply loop_in_turn_S.
Qed.

Lemma rotation p : pool_bounds p → EventLoopThreadPool.loops_ p ≠ [] →
  loop_in_turn p <$> seq 0 (length (EventLoopThreadPool.loops_ p)) =
  rotate (Z.to_nat (EventLoopThreadPool.next_ p)) (EventLoopThreadPool.loops_ p).
Proof.
  intros [_ Hn] Hne. set (ls := EventLoopThreadPool.loops_ p) in *.
  assert (0 < zlen ls) as Hlen.
  { pose proof (zlen_nonneg ls). destruct (decide (zlen ls = 0)) as [H0%zlen_zero|]; [done | lia]. }
  apply list_eq. intros i. rewrite list_lookup_fmap.
  destruct (decide (i < length ls)%nat) as [Hi|Hi].
  - rewrite lookup_seq_lt by done. rewrite lookup_rotate_r by done. cbn [fmap option_fmap option_map].
    unfold loop_in_turn, rotate_nat_add. fold ls. rewrite Z.max_r, Z2Nat.id by lia.
    assert (zlen ls = Z.of_nat (length ls)) as Hzl by done. rewrite <- Hzl.
    set (k := Z.to_nat _). assert (k < length ls)%nat as Hk.
    { subst k. pose proof (Z.mod_pos_bound (EventLoopThreadPool.next_ p + Z.of_nat (0 + i)) (zlen ls)). lia. }
    destruct (lookup_lt_is_Some_2 ls k Hk) as [l Hl]. cbn [plus] in *. rewrite Hl. done.
  - rewrite lookup_seq_ge by lia. symmetry. apply lookup_ge_None. rewrite length_rotate. lia.
Qed.

Lemma rotate_perm {A} n (l : list A) : rotate n l ≡ₚ l.
Proof. unfold rotate. rewrite (Permutation_app_comm (drop _ _)), take_drop. done. Qed.

Lemma advance_turn p : pool_bounds p → EventLoopThreadPool.loops_ p ≠ [] →
  advance_by p (length (EventLoopThreadPool.loops_ p)) = p.
Proof.
  intros [_ Hn] Hne. unfold advance_by, upd. cbn. fold (zlen (EventLoopThreadPool.loops_ p)).
  assert (0 < zlen (EventLoopThreadPool.loops_ p)) as Hlen.
  { pose proof (zlen_nonneg (EventLoopThreadPool.loops_ p)).
    destruct (decide (zlen (EventLoopThreadPool.loops_ p) = 0)) as [H0%zlen_zero|]; [done | lia]. }
  rewrite Z.max_r in * by lia. rewrite <- (Z.mul_1_l (zlen _)) at 1.
  rewrite Z.mod_add, Z.mod_small by lia. by destruct p.
Qed.

(** C29: [GetNextLoop] is round robin: [k] calls in a row return the loops at
    the positions [next_], [next_ + 1], ... modulo the number of loops (the
    base loop when there are none), never going out of the vector or over
    [INT_MAX]; and as many calls as there are loops return each loop exactly
    once and leave the pool as it was. *)
Theorem GetNextLoop_round_robin p k :
  pool_bounds p →
  next_loops k p = Done (loop_in_turn p <$> seq 0 k) (advance_by p k) ∧
  (EventLoopThreadPool.loops_ p ≠ [] → ∃ ls,
     next_loops (length (EventLoopThreadPool.loops_ p)) p = Done ls p ∧
     ls ≡ₚ EventLoopThreadPool.loops_ p).
Proof.
  intros Hp. split; [by apply next_loops_run |]. intros Hne.
  eexists. rewrite next_loops_run, advance_turn by done. split; [done |].
  by rewrite rotation, rotate_perm.
Qed.

Lemma GetNextLoop_round_robin_witness :
  let p := (Pool.ctor 7 "pool") <| EventLoopThreadPool.loops_ := [1; 2; 3]%nat |>
             <| EventLoopThreadPool.next_ := 2 |> in
  pool_bounds p ∧ next_loops 4 p = Done [3; 1; 2; 3]%nat (p <| EventLoopThreadPool.next_ := 0 |>) ∧
  ∃ ls, next_loops 3 p = Done ls p ∧ ls ≡ₚ [1; 2; 3]%nat.
Proof.
  intros p. assert (pool_bounds p) as Hp by (by split).
  split; [exact Hp | split; [by vm_compute |]].
  apply (GetNextLoop_round_robin p 4); done.
Defined.

(** ** The names of connections *)

(** [snprintf(buf, sizeof(buf), "-%s#%d", ip_port_.c_str(), id)] after the
    name of the server. *)
Definition conn_name (sv : TcpServer.t) (id : Z) : string :=
  TcpServer.name_ sv +:+ snprintf 64 ("-" +:+ TcpServer.ip_port_ sv +:+ "#" +:+ decimal_int id).

Lemma append_length s1 s2 : String.length (s1 +:+ s2) = (String.length s1 + String.length s2)%nat.
Proof.
  induction s1 as [|c s1 IH]; [done |]. change (String c s1 +:+ s2) with (String c (s1 +:+ s2)).
  cbn. by rewrite IH.
Qed.

Lemma substring_all s : ∀ n, (String.length s ≤ n)%nat → String.substring 0 n s = s.
Proof.
  induction s as [|c s IH]; intros [|n] Hn; cbn in *; try done; [lia |]. f_equal. apply IH. lia.
Qed.

Lemma ToIpPort_length a : (String.length (ToIpPort a) ≤ 21)%nat.
Proof.
  unfold ToIpPort, inet_ntop. rewrite !append_length. cbn [String.length].
  assert (∀ i, String.length (decimal (octet (sin_addr (InetAddress.addr_ a)) i)) ≤ 3)%nat as Ho.
  { intros i. apply decimal_length; [lia |]. pose proof (octet_range (sin_addr (InetAddress.addr_ a)) i).
    change (10 ^ Z.of_nat 3) with 1000. lia. }
  assert (String.length (decimal (ntohs (sin_port (InetAddress.addr_ a)))) ≤ 5)%nat as Hp.
  { apply decimal_length; [lia |]. pose proof (htons_range (sin_port (InetAddress.addr_ a))) as Hr.
    change (10 ^ Z.of_nat 5) with 100000. unfold ntohs. change (2 ^ 16) with 65536 in Hr. lia. }
  pose proof (Ho 0). pose proof (Ho 1). pose proof (Ho 2). pose proof (Ho 3). lia.
Qed.

Lemma conn_name_whole sv id a :
  TcpServer.ip_port_ sv = ToIpPort a → 0 ≤ id ≤ INT_MAX →
  conn_name sv id = TcpServer.name_ sv +:+ "-" +:+ TcpServer.ip_port_ sv +:+ "#" +:+ decimal id.
Proof.
  intros Hip Hid. unfold conn_name, snprintf, decimal_int. destruct (Z.ltb_spec id 0); [lia |].
  rewrite substring_all; [done |]. rewrite !append_length, Hip. cbn [String.length].
  pose proof (ToIpPort_length a). assert (String.length (decimal id) ≤ 10)%nat; [| lia].
  apply decimal_length; [lia |]. change (10 ^ Z.of_nat 10) with 10000000000. unfold INT_MAX in Hid. lia.
Qed.

Lemma conn_name_inj sv id1 id2 a :
  TcpServer.ip_port_ sv = ToIpPort a → 0 ≤ id1 ≤ INT_MAX → 0 ≤ id2 ≤ INT_MAX →
  conn_name sv id1 = conn_name sv id2 → id1 = id2.
Proof.
  intros Hip H1 H2. rewrite !(conn_name_whole sv _ a) by done.
  intros Heq. do 4 apply String.app_inj in Heq. apply decimal_inj in Heq; lia.
Qed.

Section names.
Context {E : Type} `{KernelLaws E}.
Implicit Types w : World E.

(** What a server knows of its connections: every entry of the map is under
    the name of the connection it is for, which is made out of an id that was
    given out. *)
Record server_names w (sv : TcpServer.t) : Prop := {
  sn_next : 1 ≤ TcpServer.next_conn_id_ sv ≤ INT_MAX;
  sn_ip : ∃ a, TcpServer.ip_port_ sv = ToIpPort a;
  sn_conns name c : TcpServer.connections_ sv !! name = Some c → ∃ id cn,
    1 ≤ id < TcpServer.next_conn_id_ sv ∧ name = conn_name sv id ∧
    conns w !! c = Some cn ∧ TcpConnection.name_ cn = name;
}.

Definition names_ok w : Prop := ∀ s sv, servers w !! s = Some sv → server_names w sv.

(** Connections keep their names. *)
Lemma names_ok_conns w w' :
  servers w' = servers w →
  (∀ c cn, conns w !! c = Some cn → ∃ cn', conns w' !! c = Some cn' ∧
     TcpConnection.name_ cn' = TcpConnection.name_ cn) →
  names_ok w → names_ok w'.
Proof.
  intros Hs Hc Hn s sv Hsv. rewrite Hs in Hsv. destruct (Hn s sv Hsv) as [Hnext Hip Hconns].
  split; [done | done |]. intros name c (id & cn & ? & ? & (cn' & ? & ?)%Hc & ?)%Hconns.
  exists id, cn'. split; [done | split; [done | split; [done | congruence]]].
Qed.

Lemma names_ok_server w s sv' :
  server_names w sv' → names_ok w → names_ok (w <| servers ::= <[s := sv']> |>).
Proof.
  intros Hsv' Hn s0 sv0. upd_simpl. rewrite lookup_insert.
  case_decide; [intros [= <-]; destruct Hsv'; by split |].
  intros Hs0. destruct (Hn s0 sv0 Hs0); by split.
Qed.

Lemma names_ok_same w w' :
  servers w' = servers w → conns w' = conns w → keeps_true names_ok w w'.
Proof. intros Hs Hc. refine (names_ok_conns w w' Hs _). rewrite Hc. eauto. Qed.

#[export] Instance admits_names : Admits (keeps_true names_ok).
Proof.
  split; [apply _ | intros w x; by apply names_ok_same.. | | |].
  - intros w l lp g Hl _. by apply names_ok_same.
  - intros w c cn Hc. refine (names_ok_conns w _ _ _); [done |]. intros c' cn' Hc'. exists cn'.
    split; [| done]. upd_simpl. rewrite lookup_insert_ne; [done | congruence].
  - intros w c cn g Hc Hg. refine (names_ok_conns w _ _ _); [done |]. intros c' cn' Hc'. upd_simpl.
    rewrite lookup_insert. case_decide; [| by eauto]. subst c'. rewrite Hc in Hc'. injection Hc' as <-.
    destruct (Hg cn). eauto.
Qed.

#[export] Instance admits_server_names : AdmitsServer (keeps_true names_ok).
Proof.
  intros w s sv g Hs Hg Hn. apply (names_ok_server w s); [| done].
  destruct (Hn s sv Hs) as [Hnext Hip Hconns]. destruct (Hg sv) as (Hc & Hx & Hnm & Hi).
  split; rewrite ?Hx, ?Hi, ?Hc; [done | done |]. unfold conn_name. by rewrite Hnm, Hi.
Qed.

(** The operations outside of the server. *)
Lemma names_after {A} (m : M (World E) A) w :
  Pres (same servers) m → Stable names_ok m → names_ok w →
  after m (λ _ w', servers w' = servers w ∧ names_ok w') w.
Proof.
  intros Hs Hn Hok. specialize (Hs w). specialize (Hn w). unfold after. destruct (m w); [| done..].
  split; [done | by apply Hn].
Qed.

Context `{AppOk}.

Lemma names_new_connection l name fd local peer w :
  names_ok w → after (new_connection (Some l) name fd local peer) (λ c w', names_ok w' ∧
    servers w' = servers w ∧ ∃ cn, conns w' !! c = Some cn ∧ TcpConnection.name_ cn = name) w.
Proof.
  intros Hn. apply (wp_after no_exit), wp_new_connection.
  intros w' c x _ Hc _ Hcs Hs _. split_and!; [| done |].
  - refine (names_ok_conns w w' Hs _ Hn). intros c0 cn0 Hc0. exists cn0.
    rewrite Hcs, lookup_insert_ne by congruence. done.
  - eexists. rewrite Hcs, lookup_insert_eq. done.
Qed.

Lemma names_server_connection s sv c cn id w :
  names_ok w → servers w !! s = Some sv → conns w !! c = Some cn →
  TcpConnection.name_ cn = conn_name sv id → 1 ≤ id < TcpServer.next_conn_id_ sv →
  after (server_connection s c (conn_name sv id)) (λ _ w', names_ok w') w.
Proof.
  intros Hn Hs Hc Hname Hid. unfold server_connection. apply after_bind, after_deref.
  intros sv' Hs'. assert (sv' = sv) as -> by congruence.
  apply after_bind. unfold upd_server at 1. apply after_bind, after_deref. intros sv' Hs2.
  assert (sv' = sv) as -> by congruence. apply after_modify. set (w1 := w <| servers ::= _ |>).
  assert (names_ok w1) as Hn1.
  { apply (names_ok_server w s); [| done]. destruct (Hn s sv Hs) as [Hnext Hip Hconns].
    split; upd_simpl; [done | done |]. intros name0 c0. rewrite lookup_insert. case_decide.
    - intros [= <-]. exists id, cn. subst name0. done.
    - apply Hconns. }
  apply stable_after; [| done]. repeat (apply pres_bind; [apply _ | apply _ | intros _]). apply _.
Qed.

Lemma names_number s sv w :
  names_ok w → servers w !! s = Some sv → TcpServer.next_conn_id_ sv ≠ INT_MAX →
  names_ok (w <| servers ::= <[s := sv <| TcpServer.next_conn_id_ ::= Z.succ |>]> |>).
Proof.
  intros Hn Hs Hid. apply (names_ok_server w s); [| done].
  destruct (Hn s sv Hs) as [Hnext Hip Hconns]. split; upd_simpl; [lia | done |].
  intros name c (id & cn & ? & ? & ? & ?)%Hconns. exists id, cn. split; [lia |]. done.
Qed.

Lemma names_NewConnection s fd peer : Stable names_ok (NewConnection s fd peer).
Proof.
  apply stable_intro. intros w Hn. unfold NewConnection.
  apply after_bind. eapply after_mono; [apply stable_after, Hn; apply _ |].
  intros l w1 Hn1. apply after_bind, after_deref. intros sv Hs. apply after_bind.
  destruct (Z.eqb_spec (TcpServer.next_conn_id_ sv) INT_MAX) as [|Hid]; [done |].
  unfold upd_server at 1. apply after_bind, after_deref. intros sv' Hs'.
  assert (sv' = sv) as -> by congruence. apply after_modify.
  pose proof (names_number s sv w1 Hn1 Hs Hid) as Hn2. set (w2 := w1 <| servers ::= _ |>) in *.
  set (sv2 := sv <| TcpServer.next_conn_id_ ::= Z.succ |>) in *.
  assert (servers w2 !! s = Some sv2) as Hs2 by apply lookup_insert_eq. clearbody w2.
  apply after_bind. eapply after_mono; [apply names_after, Hn2; apply _ |]. intros _ w3 [Hs3 Hn3].
  apply after_bind. eapply after_mono; [apply names_after, Hn3; apply _ |]. intros [[ret err] a] w4 [Hs4 Hn4].
  apply after_bind. eapply after_mono; [apply names_after, Hn4; apply _ |]. intros _ w5 [Hs5 Hn5].
  apply after_bind. eapply after_mono; [by apply names_new_connection |].
  intros c w6 (Hn6 & Hs6 & cn & Hc & Hname).
  apply after_bind. eapply after_mono; [apply (names_server_connection s sv2 c cn (TcpServer.next_conn_id_ sv)) |].
  - done.
  - by rewrite Hs6, Hs5, Hs4, Hs3.
  - done.
  - done.
  - destruct (Hn1 s sv Hs) as [Hnext _ _]. unfold sv2. upd_simpl. lia.
  - intros [] w7 Hn7. apply stable_after, Hn7. apply _.
Qed.

Lemma names_erase s name :
  Stable names_ok (upd_server s (λ sv, sv <| TcpServer.connections_ ::= delete name |>)).
Proof.
  apply stable_intro. intros w Hn. unfold upd_server. apply after_bind, after_deref. intros sv Hs.
  apply after_modify, (names_ok_server w s); [| done].
  destruct (Hn s sv Hs) as [Hnext Hip Hconns]. split; upd_simpl; [done | done |].
  intros name' c Hc. apply lookup_delete_Some in Hc as [_ Hc]. by apply Hconns.
Qed.

Lemma names_turn l T : Stable names_ok (run_turn l T).
Proof.
  apply (pres_run_turn (keeps_true names_ok)); intros *; [apply names_erase | apply names_NewConnection |].
  apply (pres_any_loop (keeps_true names_ok)). intros w h. by apply names_ok_same.
Qed.

(** *** Start-up and the turns *)

Ltac pres_prim ::= apply pres_modify; intros ?; by apply names_ok_same.

#[local] Instance names_new_loop : Stable names_ok new_loop.
Proof. unfold new_loop, NewDefaultPoller, CreateEventfd. repeat pres_step. Qed.

Lemma names_new_server l addr name rp : Stable names_ok (new_server l addr name rp).
Proof.
  apply stable_intro. intros w Hn. unfold new_server. destruct l as [l|]; [| done].
  apply after_bind. change (after (W := World E) get ?Q w) with (Q w w). cbn beta.
  unfold new_acceptor, CreateNonblocking, BindAddress, SetReuseAddr, SetReusePort.
  apply after_bind. eapply after_mono; [apply stable_after, Hn; repeat pres_step |].
  intros a w1 Hn1. apply after_bind, after_modify. eapply after_mono; [apply stable_after; [apply _ |] |].
  - apply names_ok_server; [| done]. split; upd_simpl; [done | by eexists |]. done.
  - intros. done.
Qed.

Lemma names_startup addr name rp cc mc n : Stable names_ok (startup addr name rp cc mc n).
Proof.
  unfold startup, make_server, Server_SetConnectionCallback, Server_SetMessageCallback, SetThreadNum.
  pose proof names_new_server.
  assert (∀ s, Stable names_ok (Server_Start s))
    by (intros s; apply (pres_Server_Start (keeps_true names_ok)); [intros; by apply names_ok_same | apply _]).
  repeat pres_step.
Qed.

Lemma names_runs s s' : names_ok (heap s) → runs permitted s s' → names_ok (heap s').
Proof.
  intros Hn Hr. eapply (runs_stable names_ok); [apply names_turn | apply _ | | exact Hr | exact Hn].
  intros w t. by apply names_ok_same.
Qed.
End names.

(** C30: after start-up, whatever the loops and the application do, the map
    of connections of a server is exactly a map from names to the
    connections of that name: an entry's name is the server's name, its
    address, and one of the ids given out so far, never cut off by the buffer
    it is printed into; no connection is entered twice; and the name the next
    connection will get is not in use. *)
Theorem connections_named {E} `{KernelLaws E} `{AppOk} addr name rp cc mc n (w w0 : World E) s1 ls s sv :
  servers w = ∅ → startup addr name rp cc mc n w = Done ls w0 → runs permitted (System E w0 ∅) s1 →
  servers (heap s1) !! s = Some sv →
  (∀ nm c, TcpServer.connections_ sv !! nm = Some c → ∃ id cn,
     1 ≤ id < TcpServer.next_conn_id_ sv ∧
     nm = TcpServer.name_ sv +:+ "-" +:+ TcpServer.ip_port_ sv +:+ "#" +:+ decimal id ∧
     conns (heap s1) !! c = Some cn ∧ TcpConnection.name_ cn = nm) ∧
  (∀ nm1 nm2 c, TcpServer.connections_ sv !! nm1 = Some c →
     TcpServer.connections_ sv !! nm2 = Some c → nm1 = nm2) ∧
  TcpServer.connections_ sv !! conn_name sv (TcpServer.next_conn_id_ sv) = None.
Proof.
  intros Hsv Hst Hr Hs.
  assert (names_ok w0) as Hn0.
  { pose proof (names_startup addr name rp cc mc n w) as Hn. rewrite Hst in Hn. apply Hn.
    intros s' sv'. by rewrite Hsv, lookup_empty. }
  destruct (names_runs (System E w0 ∅) s1 Hn0 Hr s sv Hs) as [Hnext [a Hip] Hconns]. split_and!.
  - intros nm c (id & cn & Hid & -> & Hc & Hname)%Hconns. exists id, cn. split; [done |].
    split; [apply (conn_name_whole sv id a Hip); lia | done].
  - intros nm1 nm2 c (id1 & cn1 & _ & _ & Hc1 & <-)%Hconns (id2 & cn2 & _ & _ & Hc2 & <-)%Hconns. congruence.
  - destruct (TcpServer.connections_ sv !! _) as [c|] eqn:Hc; [| done].
    apply Hconns in Hc as (id & cn & Hid & Heq & _).
    apply (conn_name_inj sv _ _ a Hip) in Heq; lia.
Qed.

Lemma ran_done {A} (m : M (World sim) A) w : returns m w = true → ∃ a, m w = Done a (ran m w).
Proof. unfold returns, ran. destruct (m w); [eauto | done..]. Qed.

Lemma connections_named_witness :
  let s1 := after_events echo_schedule in
  TcpServer.connections_ <$> servers (heap s1) !! 0%nat =
    Some {["CuteEchoServer-127.0.0.1:9012#1" := 0%nat]} ∧
  ∀ sv, servers (heap s1) !! 0%nat = Some sv →
    TcpServer.connections_ sv !! conn_name sv (TcpServer.next_conn_id_ sv) = None.
Proof.
  split; [vm_compute; reflexivity |]. intros sv Hs.
  destruct (ran_done main_setup (empty_world echo_sim)) as [ls Hst]; [vm_compute; reflexivity |].
  apply (connections_named (InetAddress_ctor 0 9012 "127.0.0.1") "CuteEchoServer" false kConnectionCallback
    kMessageCallback 4 (empty_world echo_sim) echo_world (after_events echo_schedule) ls 0%nat sv);
    [reflexivity | exact Hst | apply echo_schedule_runs | exact Hs].
Defined.

(** ** One loop per thread *)

Section threads.
Context {E : Type} `{KernelLaws E}.
Implicit Types w : World E.

(** The loop a thread has is the one whose thread it is. *)
Definition threads_ok w : Prop := ∀ l lp, loops w !! l = Some lp →
  loop_in_this_thread w !! EventLoop.thread_id_ lp = Some l.

Lemma threads_ok_same w w' :
  loops w' = loops w → loop_in_this_thread w' = loop_in_this_thread w → keeps_true threads_ok w w'.
Proof. intros Hl Ht Hw l lp. rewrite Hl, Ht. apply Hw. Qed.

#[export] Instance admits_threads : Admits (keeps_true threads_ok).
Proof.
  split; [apply _ | intros; by apply threads_ok_same.. | | |].
  - intros w l lp g Hl Hg Hw l' lp'. upd_simpl. rewrite lookup_insert. case_decide; [| by apply Hw].
    intros [= <-]. subst l'. rewrite (proj1 (Hg lp)). by apply Hw.
  - intros w c cn _. by apply threads_ok_same.
  - intros w c cn g _ _. by apply threads_ok_same.
Qed.
#[export] Instance admits_server_threads : AdmitsServer (keeps_true threads_ok).
Proof. intros w s sv g _ _. by apply threads_ok_same. Qed.

Context `{AppOk}.

(** A second loop in the thread ends the process. *)
Lemma threads_new_loop : Stable threads_ok new_loop.
Proof.
  apply stable_intro. intros w Hw. unfold new_loop, NewDefaultPoller, CreateEventfd, new_channel.
  repeat after_step. set (l := fresh (dom (loops w) ∪ dom (pollers w))).
  destruct a as [ep err1]. repeat after_step. destruct a as [fd err2]. repeat after_step.
  destruct (loop_in_this_thread w !! tid w) as [other|] eqn:Hthis; [after_step |].
  after_step. apply stable_after; [unfold SetReadCallback; repeat pres_step |].
  intros l' lp'. upd_simpl. rewrite lookup_insert. case_decide.
  - intros [= <-]. cbn. by rewrite lookup_insert_eq; subst l'.
  - intros Hl'. specialize (Hw l' lp' Hl'). rewrite lookup_insert_ne; [done | congruence].
Qed.

Lemma threads_loop w l lp g :
  loops w !! l = Some lp → EventLoop.thread_id_ (g lp) = EventLoop.thread_id_ lp →
  keeps_true threads_ok w (w <| loops ::= <[l := g lp]> |>).
Proof.
  intros Hl Hg Hw l' lp'. upd_simpl. rewrite lookup_insert. case_decide; [| by apply Hw].
  intros [= <-]. subst l'. rewrite Hg. by apply Hw.
Qed.

Lemma threads_swap l : Stable threads_ok (upd_loop l (λ lp, lp <| EventLoop.pending_functors_ := [] |>)).
Proof.
  apply stable_intro. intros w Hw. unfold upd_loop. repeat after_step. by apply (threads_loop w).
Qed.

Ltac pres_prim ::= apply pres_modify; intros ?; by apply threads_ok_same.

Lemma threads_any_server s g : Stable threads_ok (upd_server s g).
Proof. unfold upd_server. repeat pres_step. Qed.

Lemma threads_startup addr name rp cc mc n : Stable threads_ok (startup addr name rp cc mc n).
Proof.
  apply (pres_startup (keeps_true threads_ok)); [intros; by apply threads_ok_same | apply threads_new_loop |].
  intros; by apply threads_ok_same.
Qed.

Lemma threads_runs s s' : threads_ok (heap s) → runs permitted s s' → threads_ok (heap s').
Proof.
  intros Hn Hr. eapply (runs_stable threads_ok); [| apply _ | | exact Hr | exact Hn].
  - intros l T. apply (pres_run_turn (keeps_true threads_ok)); intros *; [apply threads_any_server | | apply threads_swap].
    apply (pres_NewConnection (keeps_true threads_ok)). intros. by apply threads_ok_same.
  - intros w t. by apply threads_ok_same.
Qed.
End threads.

(** C31: one loop per thread: after start-up and whatever follows, the loop
    that a thread has ([loop_in_this_thread]) is the only loop whose thread
    it is; no two loops share a thread. *)
Theorem one_loop_per_thread {E} `{KernelLaws E} `{AppOk} addr name rp cc mc n (w w0 : World E) s1 ls :
  loops w = ∅ → startup addr name rp cc mc n w = Done ls w0 → runs permitted (System E w0 ∅) s1 →
  let w1 := heap s1 in
  (∀ l lp, loops w1 !! l = Some lp → loop_in_this_thread w1 !! EventLoop.thread_id_ lp = Some l) ∧
  (∀ l1 l2 lp1 lp2, loops w1 !! l1 = Some lp1 → loops w1 !! l2 = Some lp2 →
     EventLoop.thread_id_ lp1 = EventLoop.thread_id_ lp2 → l1 = l2).
Proof.
  intros Hl Hst Hr.
  assert (threads_ok w0) as Hn0.
  { pose proof (threads_startup addr name rp cc mc n w) as Hn. rewrite Hst in Hn. apply Hn.
    intros l lp. by rewrite Hl, lookup_empty. }
  pose proof (threads_runs (System E w0 ∅) s1 Hn0 Hr) as Hn. split; [exact Hn |].
  intros l1 l2 lp1 lp2 Hl1%Hn Hl2%Hn Heq. congruence.
Qed.

Lemma one_loop_per_thread_witness :
  let w := heap (after_events echo_schedule) in
  (EventLoop.thread_id_ <$> loops w) = {[0%nat := 1; 1%nat := 2; 2%nat := 3; 3%nat := 4; 4%nat := 5]} ∧
  ∀ l lp, loops w !! l = Some lp → loop_in_this_thread w !! EventLoop.thread_id_ lp = Some l.
Proof.
  split; [vm_compute; reflexivity |].
  destruct (ran_done main_setup (empty_world echo_sim)) as [ls Hst]; [vm_compute; reflexivity |].
  apply (one_loop_per_thread (InetAddress_ctor 0 9012 "127.0.0.1") "CuteEchoServer" false kConnectionCallback
    kMessageCallback 4 (empty_world echo_sim) echo_world (after_events echo_schedule) ls);
    [reflexivity | exact Hst | apply echo_schedule_runs].
Defined.

(** ** Starting *)

Section start.
Context {E : Type} `{KernelLaws E} `{AppOk}.
Implicit Types w : World E.

(** [EventLoopThreadPool::Start] starts the threads it was set to start:
    the loops it adds are as many as the number of threads (none when it is
    not positive), all different and all new, and each thread is named after
    the pool and its index. *)
Theorem Pool_Start_threads s sv cb w :
  let p := TcpServer.thread_pool_ sv in
  let n := Z.to_nat (EventLoopThreadPool.num_threads_ p) in
  world_ok w → servers w !! s = Some sv →
  zlen (EventLoopThreadPool.loops_ p) + Z.of_nat n ≤ INT_MAX →
  wp may_stop (Pool_Start s cb) (λ _ w', ∃ sv' ls,
    servers w' !! s = Some sv' ∧
    EventLoopThreadPool.loops_ (TcpServer.thread_pool_ sv') = EventLoopThreadPool.loops_ p ++ ls ∧
    EventLoopThreadPool.threads_ (TcpServer.thread_pool_ sv') = EventLoopThreadPool.threads_ p ++
      ((λ i, thread_name p (Z.of_nat i)) <$> seq 0 n) ∧
    Pool.started (TcpServer.thread_pool_ sv') = true ∧
    length ls = n ∧ NoDup ls ∧ Forall (λ l, loops w !! l = None ∧ is_Some (loops w' !! l)) ls) w.
Proof.
  intros p n Hok Hs Hn. eapply wp_mono; [apply (wp_Pool_Start s sv cb w Hok Hs); subst n p; lia |].
  intros [] w' [Hg (ls & Hs' & Hlen & Hnd & Hfr)]. eexists _, ls. split; [exact Hs' |]. unfold with_threads. upd_simpl.
  split_and!; try done; [by rewrite Hlen |].
  pose proof (pk_loops _ _ (sk_pool _ _ _ (wo_servers _ (gr_ok _ _ _ _ Hg) s _ Hs'))) as Hls.
  upd_simpl. apply Forall_app in Hls as [_ Hls]. apply Forall_and. by split.
Qed.

(** [TcpServer::Start] takes effect once: on a server that was started
    before it only counts the call - no thread is started, the socket is not
    listened on again - until the counter has wrapped around to 0. *)
Theorem Server_Start_again s sv w :
  servers w !! s = Some sv → TcpServer.started_ sv ≠ 0 →
  Server_Start s w = Done tt (w <| servers ::= <[s := sv <| TcpServer.started_ := i32 (TcpServer.started_ sv + 1) |>]> |>).
Proof.
  intros Hs Hst. unfold Server_Start, upd_server, the_server, deref, mbind, M_bind. rewrite Hs. cbn beta iota. rewrite Hs.
  destruct (Z.eqb_spec (TcpServer.started_ sv) 0); done.
Qed.
End start.

(** The echo server before it is started. *)
Definition echo_unstarted : World sim :=
  ran (l ← new_loop; EchoServer_ctor (Some l) (InetAddress_ctor 0 9012 "127.0.0.1") "CuteEchoServer")
    (empty_world echo_sim).

Lemma echo_unstarted_ok : world_ok echo_unstarted.
Proof.
  destruct (ran_wp may_stop (l ← new_loop; EchoServer_ctor (Some l) (InetAddress_ctor 0 9012 "127.0.0.1") "CuteEchoServer")
    (λ _ w', world_ok w') (empty_world echo_sim)) as (a & _ & Ha); [| by vm_compute | exact Ha].
  apply wp_fatal, wp_bind, wp_new_loop.
  - apply world_ok_empty; done.
  - intros l w1 Hg1 _ _ _ _ _ (fd & x & Hl1) _.
    apply (wp_make_server l _ "CuteEchoServer" false kConnectionCallback kMessageCallback 4); [apply Hg1 | |].
    + rewrite Hl1, lookup_insert_eq. by eexists.
    + intros s w2 fd2 x2 _ Hok2 _ _ _. exact Hok2.
Qed.

Lemma Pool_Start_threads_witness :
  ∃ sv, servers echo_unstarted !! 0%nat = Some sv ∧
    wp may_stop (Pool_Start 0 None) (λ _ w', ∃ sv' ls, servers w' !! 0%nat = Some sv' ∧
      EventLoopThreadPool.threads_ (TcpServer.thread_pool_ sv') =
        ["CuteEchoServer0"; "CuteEchoServer1"; "CuteEchoServer2"; "CuteEchoServer3"] ∧
      EventLoopThreadPool.loops_ (TcpServer.thread_pool_ sv') = ls ∧ length ls = 4%nat) echo_unstarted.
Proof.
  assert (TcpServer.thread_pool_ <$> servers echo_unstarted !! 0%nat =
    Some (EventLoopThreadPool.mk 0 "CuteEchoServer" false 4 0 [] [])) as Hp by (vm_compute; reflexivity).
  destruct (servers echo_unstarted !! 0%nat) as [sv|] eqn:Hs; [| discriminate Hp]. injection Hp as Hp.
  exists sv. split; [reflexivity |].
  eapply wp_mono; [apply (Pool_Start_threads 0 sv None echo_unstarted echo_unstarted_ok Hs);
    rewrite Hp; vm_compute; discriminate |].
  intros [] w' (sv' & ls & Hs' & Hls & Hth & _ & Hlen & _). rewrite Hp in Hls, Hth, Hlen. exists sv', ls.
  split; [exact Hs' | split; [rewrite Hth; vm_compute; reflexivity | split; [exact Hls | exact Hlen]]].
Defined.

Lemma Server_Start_again_witness :
  ∃ sv, servers echo_world !! 0%nat = Some sv ∧ TcpServer.started_ sv = 1 ∧
    Server_Start 0 echo_world = Done tt (echo_world <| servers ::= <[0%nat := sv <| TcpServer.started_ := 2 |>]> |>).
Proof.
  assert (TcpServer.started_ <$> servers echo_world !! 0%nat = Some 1) as Hst by (vm_compute; reflexivity).
  destruct (servers echo_world !! 0%nat) as [sv|] eqn:Hs; [| discriminate Hst]. injection Hst as Hst.
  exists sv. split; [reflexivity | split; [exact Hst |]].
  pose proof (Server_Start_again 0 sv echo_world Hs) as Hw. rewrite Hst in Hw. apply Hw. discriminate.
Defined.
