(* ===== verification/ConnSpec.v ===== *)
(** * TcpConnection: what its operations promise

    Functional theorems on sending, shutting down, receiving and closing, on
    every branch of the handlers, in a good world. *)

From S2P Require Import Prelude Format Kernel SimKernel Buffer Objects PollerOps ChannelOps ReactorInv PollInv ReactorLife LoopOps LoopInv SocketOps ConnOps ServerOps AddressSpec Frames WorldInv WorldSteps ConnInv HandlerInv LifeInv AcceptInv SystemInv SetupInv EchoServer SystemSpec ServerSpec.

Section conn_spec.
Context {E : Type} `{KernelLaws E}.
Implicit Types w : World E.

(** ** Sending *)

(** C12: [SendInLoop] in every case: on a connection that is down nothing
    changes; when [write] fails and [errno] is [EPIPE] or [ECONNRESET] once that was
    logged, the data are given up; otherwise
    all of [data] is accounted for - either the kernel took everything and,
    if there is such a callback, the write-complete callback is queued, or
    what the kernel did not take is at the end of the output buffer, in
    order, the channel waits to write, and the high-water-mark callback is
    queued exactly when the pending length crosses the mark from below. *)
Theorem SendInLoop_outcomes c cn data w :
  world_ok w → conns w !! c = Some cn → TcpConnection.state_ cn ≠ kConnecting → string_ok data →
  wp may_stop (SendInLoop c data (zlen data)) (λ _ w', sent w w' c cn data) w.
Proof. intros Hok Hc Hst Hd. by eapply wp_SendInLoop. Qed.

(** The loop of a connection. *)
Lemma conn_loop_lookup w c cn :
  world_ok w → conns w !! c = Some cn → ∃ lp, loops w !! TcpConnection.loop_ cn = Some lp.
Proof. intros Hok Hc. by apply (ck_loop _ _ _ (wo_conns w Hok c cn Hc)). Qed.

(** C17: [Send] follows the thread it is called in: not at all on a
    connection that is not up; at once in the thread of the connection's
    loop; from any other thread it only queues a copy of the data on that
    loop and wakes it up, and touches neither the connection nor its
    socket. *)
Theorem Send_outcomes c cn lp msg w :
  world_ok w → conns w !! c = Some cn → loops w !! TcpConnection.loop_ cn = Some lp → string_ok msg →
  wp may_stop (Send c msg) (λ _ w',
    (TcpConnection.state_ cn ≠ kConnected ∧ w' = w) ∨
    (TcpConnection.state_ cn = kConnected ∧ EventLoop.thread_id_ lp = tid w ∧ sent w w' c cn msg) ∨
    (TcpConnection.state_ cn = kConnected ∧ EventLoop.thread_id_ lp ≠ tid w ∧
     queued (TcpConnection.loop_ cn) lp (FnSendInLoop c msg) w w' ∧
     conns w' = conns w ∧
     out_stream (obs w') (TcpConnection.socket_ cn) = out_stream (obs w) (TcpConnection.socket_ cn) ∧
     (out_stream (obs w') (EventLoop.wakeup_fd_ lp) =
        out_stream (obs w) (EventLoop.wakeup_fd_ lp) ++ one_bytes ∨
      ∃ n rest, log w' = Log ERROR "EventLoop::Wakeup() writes %lu bytes instead of 8\n"
                           [ALong n] :: rest))) w.
Proof.
  intros Hok Hc Hl Hd. unfold Send. do 2 wp_step. unfold IsConnected. wp_step; bool_simpl; [| by left].
  match goal with Hst : TcpConnection.state_ cn = kConnected |- _ => rename Hst into Hup end.
  wp_step. eapply wp_IsInLoopThread; [done |]. wp_step; bool_simpl.
  - eapply wp_SendInLoop; [done | done | by rewrite Hup | done |]. intros w' _ Hs. right. by left.
  - eapply wp_RunInLoop; [done | done | intros _].
    eapply wp_QueueInLoop; [done |]. intros w' Hq Hw. right. right.
    split_and!; [done | done | done | apply Hq | | ].
    + apply (qt_out _ _ _ (qd_quiet _ _ _ _ _ Hq)). by eapply wakeup_fd_other.
    + unfold wakes in Hw. by destruct (Z.eqb_spec (EventLoop.thread_id_ lp) (tid w)).
Qed.

(** ** Writing what is pending *)


(** ** Shutting down *)

Lemma SetState_run c s cn w :
  conns w !! c = Some cn →
  SetState c s w = Done tt (w <| conns ::= <[c := cn <| TcpConnection.state_ := s |>]> |>).
Proof. intros Hc. unfold SetState, upd_conn, the_conn, deref, mbind, M_bind. by rewrite Hc. Qed.

Lemma grows_SetState c s cn e w :
  world_ok w → conns w !! c = Some cn → s ≠ kConnecting →
  (rank (TcpConnection.state_ cn) ≤ rank s)%nat →
  (TcpConnection.state_ cn = kConnecting → e = Some c) → not_queued e w →
  grows 0 e w (w <| conns ::= <[c := cn <| TcpConnection.state_ := s |>]> |>).
Proof.
  intros Hok Hc Hs Hr He Hq. pose proof (safe_SetState c s cn e w Hok Hc Hs Hr He Hq) as Hw.
  unfold wp in Hw. rewrite (SetState_run c s cn w Hc) in Hw. apply Hw.
Qed.

(** The connection but for its buffers. *)
Definition conn_same (cn cn' : TcpConnection.t) : Prop :=
  conn_fixed cn' = conn_fixed cn ∧ TcpConnection.state_ cn' = TcpConnection.state_ cn.

(** What was written is a first part of the stream, and the whole of it once
    the write side is shut. *)
Lemma wrote_stream w w' c cn :
  wrote w w' c cn →
  ∃ cn', conns w' !! c = Some cn' ∧ conn_same cn cn' ∧
    TcpConnection.input_buffer_ cn' = TcpConnection.input_buffer_ cn ∧ stream w' cn' = stream w cn ∧
    (k_shut (obs w') = k_shut (obs w) ∨
     k_shut (obs w') = {[TcpConnection.socket_ cn]} ∪ k_shut (obs w) ∧
     out_stream (obs w') (TcpConnection.socket_ cn) = stream w cn).
Proof.
  intros [n b Hn Hc _ Hs Hb Ho | b Hc Hb Ho _ _ Hs]; (eexists; split; [by rewrite Hc, lookup_insert_eq |]);
    split_and!; try done; unfold stream; upd_simpl.
  - by rewrite Ho, Hb, <- app_assoc, ztake_zdrop.
  - by left.
  - by rewrite Ho, Hb, app_nil_r.
  - destruct Hs as [Hs|[Hs _]]; [by left | right]. done.
Qed.

(** C11: a graceful shutdown loses nothing: called in the thread of the loop
    with output pending, [Shutdown] leaves the write side open; when
    [HandleWrite] runs after it, the write side is shut only if the kernel
    has accepted all of the output, in order. *)
Theorem Shutdown_drains_first c cn lp w :
  world_ok w → conns w !! c = Some cn → TcpConnection.state_ cn = kConnected →
  loops w !! TcpConnection.loop_ cn = Some lp → EventLoop.thread_id_ lp = tid w →
  Buffer.content (TcpConnection.output_buffer_ cn) ≠ [] →
  wp may_stop (Shutdown c;; w1 ← get; HandleWrite c;; mret w1) (λ w1 w2,
    k_shut (obs w1) = k_shut (obs w) ∧
    (∃ cn2, conns w2 !! c = Some cn2 ∧ TcpConnection.state_ cn2 = kDisconnecting ∧
       stream w2 cn2 = stream w cn ∧
       (k_shut (obs w2) = k_shut (obs w) ∨
        k_shut (obs w2) = {[TcpConnection.socket_ cn]} ∪ k_shut (obs w) ∧
        out_stream (obs w2) (TcpConnection.socket_ cn) = stream w cn))) w.
Proof.
  intros Hok Hc Hst Hl Ht Hne.
  pose proof (wo_conns w Hok c cn Hc) as [_ (ch & Hx & _ & _ & _ & Hf) _ _ _ _ _].
  assert (IsWriting ch = true) as Hwr by (apply (cf_pending _ _ Hf); [by rewrite Hst | done]).
  assert (grows 0 None w (w <| conns ::= <[c := cn <| TcpConnection.state_ := kDisconnecting |>]> |>)) as Hg
    by (apply grows_SetState; try done; rewrite Hst; [cbn; lia | done]).
  set (w1 := w <| conns ::= _ |>) in *. set (cn1 := cn <| TcpConnection.state_ := kDisconnecting |>) in *.
  assert (conns w1 !! c = Some cn1) as Hc1 by apply lookup_insert_eq.
  unfold Shutdown. do 3 wp_step. unfold IsConnected. wp_step; bool_simpl; [| done].
  apply wp_bind. unfold wp at 1. rewrite (SetState_run c _ cn w Hc). fold cn1 w1.
  eapply wp_RunInLoop; [done | intros _ | done].
  unfold ShutdownInLoop. do 4 wp_step. rewrite Hwr. wp_step; [done |]. do 3 wp_step.
  eapply (wp_HandleWrite c cn1 ch); [apply Hg | done | done | done | by rewrite Hwr |].
  intros w2 _ _ Hw. wp_step. split; [done |].
  apply wrote_stream in Hw as (cn2 & Hc2 & [_ Hst2] & _ & Hs2 & Hsh). exists cn2.
  unfold cn1 in *. upd_simpl. split_and!; done.
Qed.

(** ** Calls to the application are only added *)

Definition calls_grow (w w' : World E) : Prop := calls w `suffix_of` calls w'.

#[export] Instance calls_grow_preorder : PreOrder calls_grow.
Proof. split; [intros w; by exists [] | intros w1 w2 w3; unfold calls_grow; by etrans]. Qed.
#[export] Instance admits_calls : Admits calls_grow.
Proof.
  split; [apply _ | ..]; unfold calls_grow; intros; upd_simpl; try by exists []. by apply suffix_cons_r.
Qed.
#[export] Instance admits_server_calls : AdmitsServer calls_grow.
Proof. intros w s sv g _ _. by exists []. Qed.

Lemma calls_any_server s g : Pres calls_grow (upd_server s g).
Proof.
  unfold upd_server. apply pres_bind; [apply _ | apply _ | intros sv]. apply pres_modify.
  intros w. by exists [].
Qed.

Context `{AppOk}.

Lemma calls_close c : Pres calls_grow (close_callback_of c).
Proof. apply (pres_close_callback_of calls_grow). intros *. apply calls_any_server. Qed.

(** ** Closing *)

(** The server was told that connection [d] is gone: in the thread of its
    loop it has forgotten it and left its destruction to the connection's
    loop, otherwise it is about to. *)
Definition told w (s d : nat) : Prop := ∃ sv lp cn,
  servers w !! s = Some sv ∧ loops w !! TcpServer.loop_ sv = Some lp ∧ conns w !! d = Some cn ∧
  if EventLoop.thread_id_ lp =? tid w then
    TcpServer.connections_ sv !! TcpConnection.name_ cn = None ∧
    FnConnectDestroyed d ∈ pending w (TcpConnection.loop_ cn)
  else FnRemoveConnectionInLoop s d ∈ pending w (TcpServer.loop_ sv).

Lemma pending_queued w w' l lp f :
  queued l lp f w w' → f ∈ pending w' l.
Proof.
  intros [_ Hl]. unfold pending. rewrite Hl, lookup_insert_eq. upd_simpl. set_solver.
Qed.

Lemma wp_RemoveConnection s d w :
  world_ok w → functor_ok w (FnRemoveConnectionInLoop s d) →
  wp may_stop (RemoveConnection s d) (λ _ w', told w' s d) w.
Proof.
  intros Hok [[sv Hs] [cn Hc]]. pose proof (wo_servers w Hok s sv Hs) as Hsv.
  destruct (sk_loop _ _ _ Hsv) as [lp Hl]. destruct (conn_loop_lookup w d cn Hok Hc) as [lpc Hlc].
  unfold RemoveConnection. do 2 wp_step. eapply wp_RunInLoop; [done | intros Ht | intros Ht].
  - unfold RemoveConnectionInLoop. repeat wp_step. unfold GetLoop.
    set (w1 := w <| log ::= _ |> <| servers ::= _ |>).
    eapply (wp_QueueInLoop _ _ lpc); [done |]. intros w2 Hq _.
    destruct Hq as [Hq Hl2].
    set (lp' := if decide (TcpServer.loop_ sv = TcpConnection.loop_ cn)
      then lpc <| EventLoop.pending_functors_ ::= λ fs, fs ++ [FnConnectDestroyed d] |> else lp).
    assert (EventLoop.thread_id_ lp' = tid w) as Ht'.
    { unfold lp'. case_decide; [upd_simpl; congruence | done]. }
    eexists _, lp', cn.
    rewrite (qt_servers _ _ _ Hq), (qt_conns _ _ _ Hq), Hl2, (qt_tid _ _ _ Hq).
    split; [by apply lookup_insert_eq | upd_simpl]. split; [unfold lp'; rewrite lookup_insert; by do 2 case_decide |].
    split; [done |].
    change (tid w1) with (tid w). rewrite (proj2 (Z.eqb_eq _ _) Ht').
    split; [by apply lookup_delete_eq |]. unfold pending. rewrite Hl2, lookup_insert_eq. upd_simpl. set_solver.
  - eapply wp_QueueInLoop; [done |]. intros w1 Hq _. pose proof Hq as [Hqt Hl1].
    exists sv, (lp <| EventLoop.pending_functors_ ::= λ fs, fs ++ [FnRemoveConnectionInLoop s d] |>), cn.
    rewrite (qt_servers _ _ _ Hqt), (qt_conns _ _ _ Hqt), Hl1, lookup_insert_eq, (qt_tid _ _ _ Hqt).
    upd_simpl. split_and!; [done.. |].
    destruct (Z.eqb_spec (EventLoop.thread_id_ lp) (tid w)); [done |]. by eapply pending_queued.
Qed.

Lemma wp_close_callback c cn w :
  world_ok w → conns w !! c = Some cn →
  wp may_stop (close_callback_of c) (λ _ w', ∀ s d,
    TcpConnection.close_callback_ cn = Some (CloseRemoveConnection s d) → told w' s d) w.
Proof.
  intros Hok Hc. pose proof (ck_close _ _ _ (wo_conns w Hok c cn Hc)) as Hcl.
  unfold close_callback_of. do 2 wp_step.
  destruct (TcpConnection.close_callback_ cn) as [[cb|s d]|]; cbn in *; [| | done].
  - eapply wp_mono; [apply safe_invoke; [done | by eexists] | by intros _ w' _].
  - eapply wp_mono; [by apply wp_RemoveConnection | intros [] w' Ht s' d' [= <- <-]; exact Ht].
Qed.

Lemma down_stays k w w' c cn :
  grows k None w w' → conns w !! c = Some cn → TcpConnection.state_ cn = kDisconnected →
  ∃ cn', conns w' !! c = Some cn' ∧ TcpConnection.state_ cn' = kDisconnected ∧
    conn_fixed cn' = conn_fixed cn ∧ stream w cn `prefix_of` stream w' cn'.
Proof.
  intros Hg Hc Hst. destruct (ex_conns _ _ _ (gr_ext _ _ _ _ Hg) c cn Hc) as (cn' & Hc' & Hf & Hr & Hs).
  exists cn'. rewrite Hst in Hr. split_and!; try done. destruct (TcpConnection.state_ cn'); cbn in Hr; lia || done.
Qed.

Lemma wp_invoke k w :
  world_ok w → call_ok w k →
  wp may_stop (invoke k) (λ _ w', grows 0 None w w' ∧ (k :: calls w) `suffix_of` calls w') w.
Proof.
  intros Hok Hk. unfold invoke. do 2 wp_step. apply wp_bind. wp_step.
  eapply wp_mono; [apply (pres_wp calls_grow); [apply _ | by apply safe_react] |].
  intros [] w' [Hg Hs]. split; [eapply grows_0; [by apply grows_call | exact Hg] | exact Hs].
Qed.

(** What [HandleClose] leaves. *)
Record closed w w' (c : nat) (cn : TcpConnection.t) (cb : cbid) : Prop := {
  cl_call : (OnConnection cb c false :: calls w) `suffix_of` calls w';
  cl_down : ∃ cn', conns w' !! c = Some cn' ∧ TcpConnection.state_ cn' = kDisconnected ∧
    stream w cn `prefix_of` stream w' cn';
  cl_told s d : TcpConnection.close_callback_ cn = Some (CloseRemoveConnection s d) → told w' s d;
}.

Lemma wp_HandleClose c cn cb w :
  world_ok w → conns w !! c = Some cn → TcpConnection.state_ cn ≠ kConnecting →
  TcpConnection.connection_callback_ cn = Some cb →
  wp may_stop (HandleClose c) (λ _ w', closed w w' c cn cb) w.
Proof.
  intros Hok Hc Hst Hcb. pose proof (wo_conns w Hok c cn Hc) as [_ (ch & Hx & _) _ _ _ _ _].
  unfold HandleClose. do 6 wp_step. apply wp_bind.
  match goal with |- wp _ _ _ ?wl => set (w1 := wl) end.
  assert (grows 0 None w w1) as Hg1 by by apply grows_log.
  assert (conns w1 !! c = Some cn) as Hc1 by done.
  unfold wp at 1. rewrite (SetState_run c _ cn w1 Hc1).
  set (cn2 := cn <| TcpConnection.state_ := kDisconnected |>). set (w2 := w1 <| conns ::= _ |>).
  assert (grows 0 None w1 w2) as Hg2.
  { apply grows_SetState; [apply Hg1 | done.. | | done | done]. by destruct (TcpConnection.state_ cn); cbn; lia. }
  assert (conns w2 !! c = Some cn2) as Hc2 by apply lookup_insert_eq.
  wp_step. eapply wp_mono; [apply (wp_conn_DisableAll c cn2); [apply Hg2 | done | done] |].
  intros [] w3 [Hg3 Hu3]. assert (conns w3 !! c = Some cn2) as Hc3 by (by rewrite (su_conns _ _ Hu3)).
  wp_step. unfold connection_callback. do 2 wp_step.
  change (TcpConnection.connection_callback_ cn2) with (TcpConnection.connection_callback_ cn). rewrite Hcb.
  cbn [call_fn]. eapply wp_mono; [apply wp_invoke; [apply Hg3 | by exists cn2] |].
  intros [] w4 [Hg4 Hcalls]. pose proof (su_calls _ _ Hu3) as Hcalls3.
  destruct (down_stays _ _ _ c cn2 Hg4 Hc3 eq_refl) as (cn4 & Hc4 & Hst4 & Hf4 & Hs4).
  pose proof (pres_wp calls_grow _ may_stop _ w4 (calls_close c) (safe_close_callback c w4 (gr_ok _ _ _ _ Hg4) (mk_is_Some _ _ Hc4))) as H5.
  pose proof (wp_close_callback c cn4 w4 (gr_ok _ _ _ _ Hg4) Hc4) as Ht.
  eapply wp_mono; [exact (wp_and _ _ _ _ _ H5 Ht) |]. intros [] w5 [[Hg5 Hcalls5] Htold].
  destruct (down_stays _ _ _ c cn4 Hg5 Hc4 Hst4) as (cn5 & Hc5 & Hst5 & _ & Hs5). split.
  - unfold calls_grow in Hcalls5. rewrite Hcalls3 in Hcalls. etrans; [exact Hcalls | exact Hcalls5].
  - exists cn5. split_and!; [done.. |]. etrans; [| exact Hs5]. etrans; [| exact Hs4].
    pose proof (grows_0 _ _ _ _ _ Hg1 (grows_0 _ _ _ _ _ Hg2 Hg3)) as Hg.
    destruct (ex_conns _ _ _ (gr_ext _ _ _ _ Hg) c cn Hc) as (cn3 & Hc3' & _ & _ & Hs). congruence.
  - unfold conn_fixed in Hf4. injection Hf4 as _ _ _ _ _ Hcl _ _ _ _. rewrite Hcl in Htold. exact Htold.
Qed.


(** ** Receiving *)

(** What [HandleRead] did when [ReadFd] read nothing. *)
Inductive nothing_read w w' (c : nat) (cn : TcpConnection.t) (ccb : cbid) : Prop :=
  | read_end e' b :
      Buffer.ReadFd (TcpConnection.socket_ cn) 0 (env w) (TcpConnection.input_buffer_ cn) = Done (0, 0, e') b →
      closed w w' c cn ccb → nothing_read w w' c cn ccb
  | read_error err e' :
      Buffer.ReadFd (TcpConnection.socket_ cn) 0 (env w) (TcpConnection.input_buffer_ cn) =
        Done (-1, err, e') (TcpConnection.input_buffer_ cn) →
      calls w' = calls w → conns w' = conns w →
      (∃ so_error, log w' =
        Log ERROR "TcpConnection::HandleError name:%s - SO_ERROR:%d\n"
          [AStr (TcpConnection.name_ cn); AInt so_error] ::
        Log ERROR "TcpConnection::handleRead" [] :: log w) → nothing_read w w' c cn ccb.

(** [ReadFd] read [d], behind what was in the buffer; the callback is called
    in the world [loaded]. *)
Record data_read w (cn : TcpConnection.t) (d : list byte) (e' : E) (b : Buffer.t) : Prop := {
  dr_run : Buffer.ReadFd (TcpConnection.socket_ cn) 0 (env w) (TcpConnection.input_buffer_ cn) = Done (zlen d, 0, e') b;
  dr_some : d ≠ [];
  dr_in : observe e' = add_in (TcpConnection.socket_ cn) d (obs w);
  dr_content : Buffer.content b = Buffer.content (TcpConnection.input_buffer_ cn) ++ d;
}.
Definition loaded w (c : nat) (cn : TcpConnection.t) (e' : E) (b : Buffer.t) : World E :=
  w <| env := e' |> <| conns ::= <[c := cn <| TcpConnection.input_buffer_ := b |>]> |>.

(** [ReadFd] read nothing: the end of the stream, *)
Record end_read w (cn : TcpConnection.t) (e' : E) (b : Buffer.t) : Prop := {
  er_run : Buffer.ReadFd (TcpConnection.socket_ cn) 0 (env w) (TcpConnection.input_buffer_ cn) = Done (0, 0, e') b;
  er_in : observe e' = add_in (TcpConnection.socket_ cn) [] (obs w);
  er_content : Buffer.content b = Buffer.content (TcpConnection.input_buffer_ cn);
}.
(** or an error. *)
Record error_read w w' (cn : TcpConnection.t) : Prop := {
  xr_run : ∃ err e', Buffer.ReadFd (TcpConnection.socket_ cn) 0 (env w) (TcpConnection.input_buffer_ cn) =
    Done (-1, err, e') (TcpConnection.input_buffer_ cn);
  xr_calls : calls w' = calls w;
  xr_conns : conns w' = conns w;
  xr_loops : loops w' = loops w;
  xr_servers : servers w' = servers w;
  xr_obs : obs w' = obs w;
  xr_log : ∃ so_error, log w' =
    Log ERROR "TcpConnection::HandleError name:%s - SO_ERROR:%d\n"
      [AStr (TcpConnection.name_ cn); AInt so_error] ::
    Log ERROR "TcpConnection::handleRead" [] :: log w;
}.

(** The three ways [HandleRead] goes. *)
Lemma wp_conn_HandleRead c cn mcb t Q w :
  world_ok w → conns w !! c = Some cn → TcpConnection.message_callback_ cn = Some mcb →
  (∀ d e' b, data_read w cn d e' b → grows 0 None w (loaded w c cn e' b) →
     wp may_stop (invoke (OnMessage mcb c (Buffer.content b) t)) Q (loaded w c cn e' b)) →
  (∀ e' b, end_read w cn e' b → grows 0 None w (loaded w c cn e' b) →
     wp may_stop (HandleClose c) Q (loaded w c cn e' b)) →
  (∀ w', error_read w w' cn → Q tt w') →
  wp may_stop (ConnOps.HandleRead c t) Q w.
Proof.
  intros Hok Hc Hmcb Hdata Hend Herr.
  pose proof (wo_conns w Hok c cn Hc) as [_ (ch & Hx & _ & Hfd & _) Hin _ _ _ _].
  unfold ConnOps.HandleRead. do 4 wp_step. wp_step. rewrite Hfd. eapply wp_on_input; [done |].
  apply wp_run. apply Buffer.wp_ReadFd; [done | done | |].
  - intros err e' Ho Hrun. wp_step; bool_simpl; [lia |]. wp_step; bool_simpl; [lia |].
    do 2 wp_step. unfold HandleError.
    assert (cn <| TcpConnection.input_buffer_ := TcpConnection.input_buffer_ cn |> = cn) as -> by (by destruct cn).
    do 6 wp_step. destruct a as [[ret err2] optval]. apply so_error_law in Hsys. wp_step. upd_simpl.
    apply Herr. split; upd_simpl; try done; [by eexists _, _ | by apply insert_id | congruence | by eexists].
  - intros d e' b Hb Hcb _ _ Ho Hrun. set (cn1 := cn <| TcpConnection.input_buffer_ := b |>).
    fold (loaded w c cn e' b). set (w1 := loaded w c cn e' b).
    assert (grows 0 None w w1) as Hg by (apply grows_input; by rewrite ?Ho).
    assert (conns w1 !! c = Some cn1) as Hc1 by apply lookup_insert_eq.
    pose proof (zlen_nonneg d). wp_step; [| wp_step]; bool_simpl; [| | lia].
    + unfold message_callback. do 2 wp_step. unfold cn1 at 1. upd_simpl. rewrite Hmcb. cbn [call_fn].
      apply (Hdata d e' b); [| exact Hg]. split; [exact Hrun | | exact Ho | exact Hcb].
      intros ->. by change (zlen []) with 0 in *.
    + assert (zlen d = 0) as Hz by lia. rewrite Hz in Hrun. apply zlen_zero in Hz as ->. rewrite app_nil_r in Hcb.
      by apply (Hend e' b).
Qed.

(** The end of the stream closes the connection. *)
Lemma closed_loaded w w' c cn ccb e' b :
  conns w !! c = Some cn → grows 0 None w (loaded w c cn e' b) →
  closed (loaded w c cn e' b) w' c (cn <| TcpConnection.input_buffer_ := b |>) ccb → closed w w' c cn ccb.
Proof.
  intros Hc Hg [Hcl (cn' & Hc' & Hst' & Hs') Htold]. split; [exact Hcl | | exact Htold].
  exists cn'. split_and!; [done | done |]. destruct (ex_conns _ _ _ (gr_ext _ _ _ _ Hg) c cn Hc) as (cn2 & Hc2 & _ & _ & Hs).
  etrans; [exact Hs |]. unfold loaded in Hc2. upd_simpl. rewrite lookup_insert_eq in Hc2. by injection Hc2 as <-.
Qed.

Lemma wp_nothing_read c cn ccb mcb t Q w :
  world_ok w → conns w !! c = Some cn → TcpConnection.state_ cn ≠ kConnecting →
  TcpConnection.connection_callback_ cn = Some ccb → TcpConnection.message_callback_ cn = Some mcb →
  (∀ d e' b, data_read w cn d e' b → grows 0 None w (loaded w c cn e' b) →
     wp may_stop (invoke (OnMessage mcb c (Buffer.content b) t)) Q (loaded w c cn e' b)) →
  (∀ w', nothing_read w w' c cn ccb → Q tt w') →
  wp may_stop (ConnOps.HandleRead c t) Q w.
Proof.
  intros Hok Hc Hst Hccb Hmcb Hdata Hnone. apply (wp_conn_HandleRead c cn mcb); try done.
  - intros e' b [Hrun _ _] Hg.
    eapply wp_mono; [apply (wp_HandleClose c (cn <| TcpConnection.input_buffer_ := b |>) ccb);
      [apply Hg | apply lookup_insert_eq | done..] |].
    intros [] w' Hcl. apply Hnone. eapply read_end; [exact Hrun | by eapply closed_loaded].
  - intros w' [(err & e' & Hrun) ? ? _ _ _ ?]. apply Hnone. by eapply read_error.
Qed.

(** What [HandleRead] did, for any application. *)
Inductive received w w' (c : nat) (cn : TcpConnection.t) (ccb mcb : cbid) (t : Z) : Prop :=
  | received_data d e' b :
      data_read w cn d e' b →
      (OnMessage mcb c (Buffer.content (TcpConnection.input_buffer_ cn) ++ d) t :: calls w)
        `suffix_of` calls w' → received w w' c cn ccb mcb t
  | received_nothing : nothing_read w w' c cn ccb → received w w' c cn ccb mcb t.

(** C15: [HandleRead] in every case: what [readv] delivered is put behind
    what is in the input buffer and the message callback is called with all
    of it; at the end of the stream the connection is closed; an error is
    logged, with the pending error of the socket, and changes nothing. *)
Theorem HandleRead_outcomes c cn ccb mcb t w :
  world_ok w → conns w !! c = Some cn → TcpConnection.state_ cn ≠ kConnecting →
  TcpConnection.connection_callback_ cn = Some ccb → TcpConnection.message_callback_ cn = Some mcb →
  wp may_stop (ConnOps.HandleRead c t) (λ _ w', received w w' c cn ccb mcb t) w.
Proof.
  intros Hok Hc Hst Hccb Hmcb. apply (wp_nothing_read c cn ccb mcb); try done; [| intros; by apply received_nothing].
  intros d e' b Hd Hg. eapply wp_mono; [apply wp_invoke; [apply Hg | eexists; apply lookup_insert_eq] |].
  intros [] w' [_ Hcalls]. eapply received_data; [exact Hd |]. by rewrite (dr_content _ _ _ _ _ Hd) in Hcalls.
Qed.

(** ** The end of a connection *)

(** Neither the poller nor the kernel knows the channel. *)
Definition unregistered w (x : nat) : Prop := ∃ ch p,
  channels w !! x = Some ch ∧ pollers w !! Channel.loop_ ch = Some p ∧ Channel.index_ ch = kNew ∧
  EpollPoller.channels_ p !! Channel.fd_ ch = None ∧
  interest (obs w) (EpollPoller.epoll_fd_ p) !! Channel.fd_ ch = None.

Lemma unregistered_new w x ch :
  reactor_ok w → channels w !! x = Some ch → Channel.index_ ch = kNew → unregistered w x.
Proof.
  intros Hok Hx Hi. destruct (ro_channel w Hok x ch Hx) as [[p Hp] _ _ _]. exists ch, p.
  assert (Channel.index_ ch ≠ kAdded) as Hna by (by rewrite Hi). split_and!; try done.
  - apply eq_None_not_Some. intros [y Hy].
    apply (po_map _ _ _ (ro_poller w Hok _ p Hp)) in Hy as (chy & Hy & _ & Hfd & Hr).
    assert (y = x) as -> by (by eapply (ro_fd w Hok)). rewrite Hx in Hy. injection Hy as <-.
    rewrite Hi in Hr. by destruct Hr.
  - by eapply interest_none.
Qed.

Lemma grows_channel k e w w' x : grows k e w w' → is_Some (channels w !! x) → is_Some (channels w' !! x).
Proof. intros Hg. apply (ext_channel_some _ _ _ (gr_ext _ _ _ _ Hg)). Qed.

Lemma wp_ConnectDestroyed c cn cb w :
  world_ok w → conns w !! c = Some cn → TcpConnection.connection_callback_ cn = Some cb →
  wp may_stop (ConnectDestroyed c) (λ _ w',
    unregistered w' (TcpConnection.channel_ cn) ∧
    if decide (TcpConnection.state_ cn = kConnected)
    then (OnConnection cb c false :: calls w) `suffix_of` calls w' ∧
      ∃ cn', conns w' !! c = Some cn' ∧ TcpConnection.state_ cn' = kDisconnected
    else calls w' = calls w ∧ conns w' = conns w) w.
Proof.
  intros Hok Hc Hcb. pose proof (wo_conns w Hok c cn Hc) as [_ (ch & Hx & _) _ _ _ _ _].
  unfold ConnectDestroyed. do 3 wp_step. unfold IsConnected.
  destruct (decide (TcpConnection.state_ cn = kConnected)) as [Hst|Hst]; wp_step; bool_simpl; try done; last first.
  { apply wp_fatal. eapply (wp_Channel_Remove _ ch); [apply Hok | done |].
    intros w' Hs. split; [| split; apply (cs_upper _ _ _ _ Hs)].
    eapply unregistered_new; [apply Hs | by rewrite (cs_channels _ _ _ _ Hs), lookup_insert_eq | done]. }
  apply wp_bind. unfold wp at 1. rewrite (SetState_run c _ cn w Hc).
  set (cn2 := cn <| TcpConnection.state_ := kDisconnected |>). set (w2 := w <| conns ::= _ |>).
  assert (grows 0 None w w2) as Hg2 by (apply grows_SetState; rewrite ?Hst; cbn; done || lia).
  assert (conns w2 !! c = Some cn2) as Hc2 by apply lookup_insert_eq.
  wp_step. eapply wp_mono; [apply (wp_conn_DisableAll c cn2); [apply Hg2 | done | done] |].
  intros [] w3 [Hg3 Hu3]. assert (conns w3 !! c = Some cn2) as Hc3 by (by rewrite (su_conns _ _ Hu3)).
  unfold connection_callback. do 2 wp_step.
  change (TcpConnection.connection_callback_ cn2) with (TcpConnection.connection_callback_ cn). rewrite Hcb.
  cbn [call_fn]. eapply wp_mono; [apply wp_invoke; [apply Hg3 | by exists cn2] |].
  intros [] w4 [Hg4 Hcalls]. rewrite (su_calls _ _ Hu3) in Hcalls.
  destruct (down_stays _ _ _ c cn2 Hg4 Hc3 eq_refl) as (cn4 & Hc4 & Hst4 & _).
  assert (is_Some (channels w4 !! TcpConnection.channel_ cn)) as [ch4 Hx4].
  { eapply grows_channel; [exact Hg4 |]. eapply grows_channel; [exact Hg3 |].
    eapply grows_channel; [exact Hg2 | by eexists]. }
  apply wp_fatal. eapply (wp_Channel_Remove _ ch4); [apply Hg4 | done |]. intros w5 Hs.
  pose proof (cs_upper _ _ _ _ Hs) as Hu. split; [| split].
  - eapply unregistered_new; [apply Hs | by rewrite (cs_channels _ _ _ _ Hs), lookup_insert_eq | done].
  - by rewrite (su_calls _ _ Hu).
  - exists cn4. by rewrite (su_conns _ _ Hu).
Qed.

(** C16: [ConnectDestroyed] ends a connection: a connection that is still up
    goes down and its connection callback is called; one that was closed
    before is not reported again; in both cases its channel is afterwards
    unknown to the poller of its loop and to the kernel. *)
Theorem ConnectDestroyed_outcomes c cn cb w :
  world_ok w → conns w !! c = Some cn → TcpConnection.connection_callback_ cn = Some cb →
  wp may_stop (ConnectDestroyed c) (λ _ w',
    unregistered w' (TcpConnection.channel_ cn) ∧
    if decide (TcpConnection.state_ cn = kConnected)
    then (OnConnection cb c false :: calls w) `suffix_of` calls w' ∧
      ∃ cn', conns w' !! c = Some cn' ∧ TcpConnection.state_ cn' = kDisconnected
    else calls w' = calls w ∧ conns w' = conns w) w.
Proof. intros. by apply wp_ConnectDestroyed. Qed.
End conn_spec.

(** ** At the echo server *)

Section witnesses.

Lemma echo_run_ok : world_ok (echo_run 2) ∧ world_ok (echo_run 3).
Proof.
  assert (reachable echo_world (echo_run 2)) as H2.
  { assert (reachable echo_world (echo_run 0)) as H0 by apply reachable_start.
    do 2 (apply echo_reachable_S in H0; [| by vm_compute | apply room_by_compute; by vm_compute | by vm_compute]).
    exact H0. }
  split; [apply (reachable_ok echo_world _ echo_world_ok H2) |].
  apply (reachable_ok echo_world _ echo_world_ok echo_reachable).
Qed.

(** The connection, its channel and its loop after [n] rounds: established
    after two, with part of the answer pending after three. *)
Definition echo_conn (n : nat) : TcpConnection.t :=
  default (fresh_conn 0 "" 0 0 (InetAddress.mk sim_addr) (InetAddress.mk sim_addr)) (conns (echo_run n) !! 0%nat).
Definition echo_channel (n : nat) : Channel.t := default (ChannelOps.ctor 0 0) (channels (echo_run n) !! 6%nat).
Definition echo_own_loop (n : nat) : EventLoop.t := default (fresh_loop 0 0 0) (loops (echo_run n) !! 1%nat).

Lemma SendInLoop_outcomes_witness :
  TcpConnection.state_ (echo_conn 2) ≠ kConnecting ∧ string_ok hello ∧
  wp may_stop (SendInLoop 0 hello 5) (λ _ w', sent (echo_run 2) w' 0 (echo_conn 2) hello) (echo_run 2).
Proof.
  assert (TcpConnection.state_ (echo_conn 2) ≠ kConnecting) as Hst by (vm_compute; discriminate).
  assert (string_ok hello) as Hd by (vm_compute; reflexivity).
  split; [exact Hst | split; [exact Hd |]].
  apply (SendInLoop_outcomes 0 (echo_conn 2) hello (echo_run 2)); [apply echo_run_ok | vm_compute; reflexivity | exact Hst | exact Hd].
Defined.

Lemma Send_outcomes_witness :
  TcpConnection.state_ (echo_conn 2) = kConnected ∧
  EventLoop.thread_id_ (echo_own_loop 2) ≠ 1 ∧
  let w := (echo_run 2) <| tid := 1 |> in
  wp may_stop (Send 0 hello) (λ _ w',
    FnSendInLoop 0 hello ∈ pending w' (TcpConnection.loop_ (echo_conn 2)) ∧ conns w' = conns w) w.
Proof.
  assert (TcpConnection.state_ (echo_conn 2) = kConnected) as Hst by (vm_compute; reflexivity).
  assert (EventLoop.thread_id_ (echo_own_loop 2) ≠ 1) as Ht by (vm_compute; discriminate).
  split; [exact Hst | split; [exact Ht |]]. intros w.
  eapply wp_mono; [apply (Send_outcomes 0 (echo_conn 2) (echo_own_loop 2) hello w) |].
  - apply (gr_ok 0 None (echo_run 2)). apply grows_tid, echo_run_ok.
  - vm_compute; reflexivity.
  - vm_compute; reflexivity.
  - vm_compute; reflexivity.
  - intros [] w' [[Hd _]|[(_ & Htid & _)|(_ & _ & Hq & Hc & _)]]; [destruct (Hd Hst) | |].
    + exfalso. apply Ht. rewrite Htid. reflexivity.
    + split; [exact (pending_queued _ _ _ _ _ Hq) | exact Hc].
Defined.


Lemma Shutdown_drains_first_witness :
  stream (echo_run 3) (echo_conn 3) = hello ∧
  wp may_stop (Shutdown 0;; w1 ← get; HandleWrite 0;; mret w1) (λ w1 w2,
    k_shut (obs w1) = k_shut (obs (echo_run 3)) ∧
    (k_shut (obs w2) = k_shut (obs (echo_run 3)) ∨ out_stream (obs w2) 11 = hello)) (echo_run 3).
Proof.
  assert (stream (echo_run 3) (echo_conn 3) = hello) as Hs by (vm_compute; reflexivity).
  assert (TcpConnection.socket_ (echo_conn 3) = 11) as Hfd by (vm_compute; reflexivity).
  split; [exact Hs |].
  eapply wp_mono; [apply (Shutdown_drains_first 0 (echo_conn 3) (echo_own_loop 3) (echo_run 3));
    [apply echo_run_ok | vm_compute; reflexivity.. | vm_compute; discriminate] |].
  intros w1 w2 (H1 & cn2 & _ & _ & _ & H2). split; [exact H1 |].
  rewrite Hs, Hfd in H2. destruct H2 as [H2|[_ H2]]; [left | right]; exact H2.
Defined.


Lemma HandleRead_outcomes_witness :
  wp may_stop (ConnOps.HandleRead 0 1700000000) (λ _ w',
    received (echo_run 2) w' 0 (echo_conn 2) kConnectionCallback kMessageCallback 1700000000) (echo_run 2) ∧
  head (calls (ran (ConnOps.HandleRead 0 1700000000) (echo_run 2))) = Some (OnMessage kMessageCallback 0 hello 1700000000).
Proof.
  split; [| vm_compute; reflexivity].
  apply (HandleRead_outcomes 0 (echo_conn 2) kConnectionCallback kMessageCallback 1700000000 (echo_run 2));
    [apply echo_run_ok | vm_compute; reflexivity | vm_compute; discriminate | vm_compute; reflexivity | vm_compute; reflexivity].
Defined.

Lemma ConnectDestroyed_outcomes_witness :
  TcpConnection.state_ (echo_conn 3) = kConnected ∧
  wp may_stop (ConnectDestroyed 0) (λ _ w', unregistered w' 6 ∧
    (OnConnection kConnectionCallback 0 false :: calls (echo_run 3)) `suffix_of` calls w') (echo_run 3).
Proof.
  assert (TcpConnection.state_ (echo_conn 3) = kConnected) as Hst by (vm_compute; reflexivity).
  split; [exact Hst |].
  eapply wp_mono; [apply (ConnectDestroyed_outcomes 0 (echo_conn 3) kConnectionCallback (echo_run 3));
    [apply echo_run_ok | vm_compute; reflexivity | vm_compute; reflexivity] |].
  intros [] w' [Hu Hc]. rewrite decide_True in Hc by exact Hst. split; [exact Hu | apply Hc].
Defined.
End witnesses.

(** ** [errno] after a line was logged

    The scripted kernel, but for a standard output whose writing leaves
    [errno] cleared. *)
Definition clearing_kernel : Kernel sim := {|
  observe := observe;
  sys_write := sys_write;
  sys_readv := sys_readv;
  sys_read := sys_read;
  sys_epoll_ctl := sys_epoll_ctl;
  sys_epoll_wait := sys_epoll_wait;
  sys_shutdown_wr := sys_shutdown_wr;
  sys_so_error := sys_so_error;
  sys_close := sys_close;
  sys_time := sys_time;
  sys_eventfd := sys_eventfd;
  sys_epoll_create1 := sys_epoll_create1;
  sys_socket := sys_socket;
  sys_accept4 := sys_accept4;
  sys_bind := sys_bind;
  sys_listen := sys_listen;
  sys_getsockname := sys_getsockname;
  sys_setsockopt := sys_setsockopt;
  log_errno := λ _ s, (0, s);
|}.

Lemma clearing_laws : @KernelLaws sim clearing_kernel.
Proof. destruct sim_laws. split; try assumption. by intros err e err' e' [= <- <-]. Qed.

(** The established connection, whose other side is gone. *)
Definition gone_world : World sim := (echo_run 2) <| env ::= λ s, s <| sim_writes := [- EPIPE] |> |>.

Definition output_after (w : World sim) : list byte :=
  match conns w !! 0%nat with
  | Some cn => Buffer.content (TcpConnection.output_buffer_ cn)
  | None => []
  end.

(** A [write] fails with [EPIPE].  The data are given up if logging leaves
    [errno] alone; if it does not, they are kept, and the channel waits to
    write to a socket that nobody reads. *)
Theorem SendInLoop_errno_of_log :
  let kept := ran (@SendInLoop sim sim_kernel 0 hello 5) gone_world in
  let lost := ran (@SendInLoop sim clearing_kernel 0 hello 5) gone_world in
  output_after kept = [] ∧ (IsWriting <$> channels kept !! 6%nat) = Some false ∧
  output_after lost = hello ∧ (IsWriting <$> channels lost !! 6%nat) = Some true ∧
  head (log kept) = head (log lost).
Proof. vm_compute. split_and!; reflexivity. Qed.
