(* ===== verification/LoopSpec.v ===== *)
(** * Leaving the loop ([EventLoop::Loop], [Quit])

    [Loop] of [LoopOps] with the callbacks and functors of the whole program:
    that it ends once something that runs in it calls [Quit], and that a
    [Quit] before [Loop] is without effect. *)

From S2P Require Import Prelude Format Kernel SimKernel Buffer Objects PollerOps ChannelOps ReactorInv PollInv ReactorLife LoopOps LoopInv SocketOps ConnOps ServerOps Frames WorldInv WorldSteps ConnInv HandlerInv LifeInv AcceptInv SystemInv SetupInv EchoServer SystemSpec ConnSpec.

(** The program calls [Quit] on the loop of connection [c], whatever the
    calls it makes before return. *)
Fixpoint quits (c : nat) (p : client) : Prop :=
  match p with
  | CReturn => False
  | CQuit c' k => c' = c ∨ quits c k
  | CSend _ _ k | CSendBuffer _ _ k | CShutdown _ k | CRetrieve _ _ k | CQueueInLoop _ _ k
  | CLogInfo _ _ k | CSetContext _ _ k => quits c k
  | CIsConnected _ k => ∀ b, quits c (k b)
  | CGetName _ k => ∀ s, quits c (k s)
  | CGetLocalAddress _ k | CGetPeerAddress _ k => ∀ a, quits c (k a)
  | CToString _ k | CRetrieveAllAsString _ k => ∀ s, quits c (k s)
  | CGetContext _ k => ∀ v, quits c (k v)
  end.

Section quit.
Context {E : Type} `{KernelLaws E}.
Implicit Types w : World E.

(** ** What stays until the loop ends *)

(** Loop [l] was told to quit. *)
Definition told_to_quit (l : nat) w : Prop :=
  ∃ lp, loops w !! l = Some lp ∧ EventLoop.quit_ lp = true.

(** Connection [c] belongs to loop [l], and the application was called at
    least as often as in [h]. *)
Definition known (l c : nat) (h : list call) w : Prop :=
  (∃ cn, conns w !! c = Some cn ∧ TcpConnection.loop_ cn = l) ∧ h `suffix_of` calls w.

(** Moreover functor [f] is queued on [l]. *)
Definition armed (l c : nat) (h : list call) (f : functor) w : Prop :=
  known l c h w ∧ ∃ lp, loops w !! l = Some lp ∧ f ∈ EventLoop.pending_functors_ lp.

Lemma known_same l c h w w' :
  conns w' = conns w → calls w' = calls w → keeps_true (known l c h) w w'.
Proof. intros Hc Hcl. unfold keeps_true, known. by rewrite Hc, Hcl. Qed.

Lemma armed_same l c h f w w' :
  conns w' = conns w → calls w' = calls w → loops w' = loops w → keeps_true (armed l c h f) w w'.
Proof. intros Hc Hcl Hl. unfold keeps_true, armed, known. by rewrite Hc, Hcl, Hl. Qed.

Lemma known_more l c h w w' :
  (∀ c cn, conns w !! c = Some cn →
     ∃ cn', conns w' !! c = Some cn' ∧ TcpConnection.loop_ cn' = TcpConnection.loop_ cn) →
  calls w `suffix_of` calls w' → keeps_true (known l c h) w w'.
Proof.
  intros Hc Hcl [(cn & Hcn & <-) Hh]. split; [| by etrans].
  destruct (Hc c cn Hcn) as (cn' & ? & ?). by exists cn'.
Qed.

Lemma conns_new w c0 cn0 c cn :
  conns w !! c0 = None → conns w !! c = Some cn → <[c0 := cn0]> (conns w) !! c = Some cn.
Proof. intros ??. rewrite lookup_insert_ne; [done | congruence]. Qed.

Lemma conns_upd w c0 cn0 g c cn :
  conns w !! c0 = Some cn0 → conn_upd g → conns w !! c = Some cn →
  ∃ cn', <[c0 := g cn0]> (conns w) !! c = Some cn' ∧ TcpConnection.loop_ cn' = TcpConnection.loop_ cn.
Proof.
  intros Hc0 Hg Hc. rewrite lookup_insert. case_decide; [subst c0 | by eauto].
  rewrite Hc0 in Hc. injection Hc as ->. eexists. split; [done | apply Hg].
Qed.

#[export] Instance admits_quit l : Admits (keeps_true (told_to_quit l)).
Proof.
  split; [apply _ | intros; by unfold keeps_true.. | | intros; by unfold keeps_true | intros; by unfold keeps_true].
  intros w l' lp g Hl Hg (lp0 & Hl0 & Hq). unfold told_to_quit. upd_simpl. rewrite lookup_insert.
  case_decide; [subst l' | by eauto]. rewrite Hl in Hl0. injection Hl0 as ->.
  eexists. split; [done | by apply Hg].
Qed.

#[export] Instance admits_known l c h : Admits (keeps_true (known l c h)).
Proof.
  split; [apply _ | intros; by apply known_same.. | | | |].
  - intros w x. apply known_more; [by eauto | by eexists [_]].
  - intros. by apply known_same.
  - intros w c0 cn0 Hc0. apply known_more; [| done]. intros c' cn' Hc'. exists cn'.
    split; [by apply conns_new | done].
  - intros w c0 cn0 g Hc0 Hg. apply known_more; [| done]. intros. by apply conns_upd.
Qed.

Lemma armed_known l c h f w w' :
  loops w' = loops w → keeps_true (known l c h) w w' → keeps_true (armed l c h f) w w'.
Proof. intros Hl Hk [Hkn Hq]. split; [by apply Hk |]. by rewrite Hl. Qed.

#[export] Instance admits_armed l c h f : Admits (keeps_true (armed l c h f)).
Proof.
  split; [apply _ | intros; by apply armed_same.. | | | |].
  - intros w x. apply armed_known; [done | apply (ad_calls w)].
  - intros w l' lp g Hl Hg [Hkn (lp0 & Hl0 & Hf)]. split; [exact Hkn |]. upd_simpl.
    rewrite lookup_insert. case_decide; [subst l' | by eauto]. rewrite Hl in Hl0. injection Hl0 as ->.
    eexists. split; [done |]. destruct (Hg lp0) as (_ & _ & [new ->]). set_solver.
  - intros w c0 cn0 Hc0. apply armed_known; [done | by apply (ad_new_conn w)].
  - intros w c0 cn0 g Hc0 Hg. apply armed_known; [done | by apply (ad_conn w)].
Qed.

#[export] Instance admits_server_quit l : AdmitsServer (keeps_true (told_to_quit l)).
Proof. intros w s sv g _ _. by unfold keeps_true. Qed.
#[export] Instance admits_server_known l c h : AdmitsServer (keeps_true (known l c h)).
Proof. intros w s sv g _ _. by apply known_same. Qed.
#[export] Instance admits_server_armed l c h f : AdmitsServer (keeps_true (armed l c h f)).
Proof. intros w s sv g _ _. by apply armed_same. Qed.
End quit.

(** The operations of a round that need an instance for every server. *)
Ltac any_server :=
  intros *; first [apply _ | apply pres_any_server; [apply _ |] | apply pres_NewConnection; [apply _.. |]];
  intros; by unfold keeps_true.

Section rounds.
Context {E : Type} `{KernelLaws E} `{AppOk}.
Implicit Types w : World E.

(** ** A round in which the application quits *)

Lemma after_stable {A} P (m : M (World E) A) Q w :
  Stable P m → P w → (∀ a w', P w' → Q a w') → after m Q w.
Proof. intros Hm Hw HQ. eapply after_mono; [by apply (stable_after P) | auto]. Qed.

Lemma after_Quit l lp w : loops w !! l = Some lp → after (Quit l) (λ _, told_to_quit l) w.
Proof.
  intros Hl. eapply (wp_after may_stop), wp_Quit; [done |]. intros w' _ Hls. unfold told_to_quit.
  rewrite Hls, lookup_insert_eq. by eexists.
Qed.

Lemma after_Quit_any l w : after (Quit l) (λ _, told_to_quit l) w.
Proof.
  destruct (loops w !! l) as [lp|] eqn:Hl; [by eapply after_Quit |].
  unfold after, Quit, upd_loop, the_loop, deref, mbind, M_bind. by rewrite Hl.
Qed.

Lemma client_quits l c h p w :
  known l c h w → quits c p → after (run_client p) (λ _, told_to_quit l) w.
Proof.
  revert w. induction p; intros w Hk Hq; cbn [run_client quits] in *; try done.
  all: try (apply after_bind;
    apply (after_stable (known l c h)); [apply _ | exact Hk |]; intros a w' Hk'; by auto).
  - apply after_bind. apply (after_stable (known l c h)); [apply _ | exact Hk |]. intros cn' w' Hk'.
    apply after_bind. apply (after_stable (known l c h)); [apply _ | exact Hk' |]. by auto.
  - destruct Hq as [->|Hq].
    + apply after_bind. destruct Hk as [(cn & Hc & Hl) Hh]. after_step.
      replace a with cn by congruence. apply after_bind. unfold GetLoop. rewrite Hl.
      eapply after_mono; [apply after_Quit_any |]. intros [] w' Hq. by apply stable_after; [apply _ |].
    + apply after_bind. apply (after_stable (known l c h)); [apply _ | exact Hk |]. intros cn' w' Hk'.
      apply after_bind. apply (after_stable (known l c h)); [apply _ | exact Hk' |]. by auto.
Qed.

(** Functor [cb] of the application quits the loop of [c], whenever it is
    run after the calls [h]. *)
Definition quitter (c : nat) (h : list call) (cb : cbid) : Prop :=
  ∀ h', h `suffix_of` h' → quits c (react (OnFunctor cb) h').

Lemma functor_quits l c h cb w :
  quitter c h cb → known l c h w → after (run_functor (FnUser cb)) (λ _, told_to_quit l) w.
Proof.
  intros Hq Hk. cbn [run_functor]. unfold invoke. do 2 after_step. apply after_bind.
  apply (after_stable (known l c h)); [apply _ | exact Hk |]. intros [] w' Hk'.
  eapply client_quits; [exact Hk' |]. apply Hq, Hk.
Qed.

(** Nothing but [Loop] itself takes [Quit] back. *)
Lemma any_functor l c h f :
  Stable (known l c h) (run_functor f) ∧ Stable (told_to_quit l) (run_functor f).
Proof.
  split; apply pres_run_functor; any_server.
Qed.

Lemma functors_quit l c h cb fs w :
  quitter c h cb → known l c h w → FnUser cb ∈ fs →
  after (sequence_ (run_functor <$> fs)) (λ _, told_to_quit l) w.
Proof.
  intros Hq. revert w. induction fs as [|f fs IH]; intros w Hk Hin; [by apply elem_of_nil in Hin |].
  cbn [fmap list_fmap sequence_]. apply after_bind.
  assert (Stable (told_to_quit l) (sequence_ (run_functor <$> fs))) as Hst.
  { apply pres_sequence; [apply _ |]. apply Forall_fmap, Forall_forall. intros g _. apply (any_functor l c h). }
  apply elem_of_cons in Hin as [<-|Hin].
  - eapply after_mono; [by apply (functor_quits l c h) |]. intros [] w' Ht. by apply stable_after.
  - apply (after_stable (known l c h)); [apply any_functor | exact Hk |]. intros _ w' Hk'. by apply IH.
Qed.

Lemma DoPendingFunctors_quits l c h cb w :
  quitter c h cb → armed l c h (FnUser cb) w →
  after (DoPendingFunctors run_functor l) (λ _, told_to_quit l) w.
Proof.
  intros Hq Ha. unfold DoPendingFunctors. apply after_bind.
  apply (after_stable (armed l c h (FnUser cb))); [apply _ | exact Ha |].
  intros [] w1 [Hk1 (lp & Hl & Hf)]. do 2 after_step. replace a with lp by congruence.
  apply after_bind. apply (after_stable (known l c h)); [| exact Hk1 |].
  { apply pres_any_loop; [apply _ |]. intros. by unfold keeps_true. }
  intros [] w2 Hk2. apply after_bind. eapply after_mono; [by apply (functors_quit l c h cb) |].
  intros [] w3 Ht. apply stable_after; [apply _ | exact Ht].
Qed.

Lemma round_quits l c h cb w :
  quitter c h cb → armed l c h (FnUser cb) w →
  after (server_loop_body l) (λ _, told_to_quit l) w.
Proof.
  intros Hq Ha. unfold server_loop_body, loop_body.
  assert (∀ xs, Stable (armed l c h (FnUser cb)) (handle_active call_callback l xs)).
  { intros xs. apply pres_handle_active; any_server. }
  do 5 (apply after_bind; apply (after_stable (armed l c h (FnUser cb))); [apply _ | exact Ha |];
        clear w Ha; intros ? w Ha; try match goal with a : prod _ _ |- _ => destruct a end).
  by eapply DoPendingFunctors_quits.
Qed.

(** ** [Loop] *)

(** The state of the loop in which [Loop] begins its first round, and the
    world then. *)
Definition entered (lp : EventLoop.t) : EventLoop.t :=
  lp <| EventLoop.looping_ := true |> <| EventLoop.quit_ := false |>.
Definition entered_world (l : nat) (lp : EventLoop.t) w : World E :=
  w <| loops ::= <[l := entered lp]> |>
    <| log ::= cons (Log INFO "EventLoop %p start looping\n" [APtr l]) |>.

Lemma grows_entered l lp w :
  world_ok w → loops w !! l = Some lp → grows 0 None w (entered_world l lp w).
Proof.
  intros Hok Hl. pose proof (grows_loop w l lp (entered lp) Hok Hl eq_refl (or_introl eq_refl)) as Hg.
  eapply grows_0; [exact Hg |]. apply grows_log, Hg.
Qed.

(** Leaving the loop after a round that ended in [w3]. *)
Lemma wp_loop_left l Q w3 :
  world_ok w3 → told_to_quit l w3 →
  (∀ w', grows 0 None w3 w' →
    (∃ lp', loops w' !! l = Some lp' ∧ EventLoop.quit_ lp' = true ∧ EventLoop.looping_ lp' = false) → Q true w') →
  wp may_stop (while_not_quit run_functor call_callback 0 l) (λ finished, wp may_stop
    (if (finished : bool) then
      upd_loop l (λ lp, lp <| EventLoop.looping_ := false |>);;
      LOG_INFO "EventLoop %p stop looping\n" [APtr l];;
      mret true
    else mret false) Q) w3.
Proof.
  intros Hok (lp & Hl & Hq) HQ. cbn [while_not_quit]. do 2 wp_step. rewrite Hq. do 5 wp_step.
  set (w4 := w3 <| loops ::= _ |>).
  assert (grows 0 None w3 w4) as Hg by (apply (grows_loop w3 l lp); [done.. | by left]).
  wp_step. apply HQ.
  - eapply grows_0; [exact Hg |]. apply grows_log, Hg.
  - eexists. split; [apply lookup_insert_eq | done].
Qed.
End rounds.

(** C24: [Loop] ends: when a functor is queued on the loop that calls [Quit],
    whatever handlers and functors run before and after it and whatever they
    queue, [Loop] returns after one round, with [looping_] reset and
    everything in order. *)
Theorem Loop_ends {E} `{KernelLaws E} `{AppOk} l lp c cn cb (w : World E) :
  world_ok w → room (round_cost w) w → loops w !! l = Some lp →
  conns w !! c = Some cn → TcpConnection.loop_ cn = l →
  FnUser cb ∈ EventLoop.pending_functors_ lp → quitter c (calls w) cb →
  wp may_stop (server_Loop 1 l) (λ finished w', finished = true ∧ world_ok w' ∧ history w w' ∧
    ∃ lp', loops w' !! l = Some lp' ∧ EventLoop.quit_ lp' = true ∧ EventLoop.looping_ lp' = false) w.
Proof.
  intros Hok Hroom Hl Hc Hcl Hf Hq. unfold server_Loop, Loop.
  pose proof (grows_entered l lp w Hok Hl) as Hg. do 4 wp_step.
  change (w <| loops ::= _ |> <| log ::= _ |>) with (entered_world l lp w).
  assert (loops (entered_world l lp w) !! l = Some (entered lp)) as Hl1 by apply lookup_insert_eq.
  cbn [while_not_quit]. do 3 wp_step. change (EventLoop.quit_ (entered lp)) with false. cbn iota. wp_step.
  eapply wp_mono; [apply wp_and_after; [apply (safe_loop_body l (entered_world l lp w)) | apply (round_quits l c (calls w) cb)] |].
  - apply Hg.
  - by eexists.
  - exact Hroom.
  - exact Hq.
  - split; [split; [by exists cn | done] | by exists (entered lp)].
  - intros [] w3 [[Hok3 Hx3] Ht]. apply wp_loop_left; [done.. |].
    intros w4 Hg4 Hlp. split_and!; [done | apply Hg4 | | done].
    etrans; [by eapply history_ext, Hg | etrans; [by eapply history_ext | by eapply history_ext, Hg4]].
Qed.

(** [quit_] as [Quit] leaves it. *)
Definition quit_called {E} (l : nat) (w : World E) : World E :=
  match loops w !! l with
  | Some lp => w <| loops ::= <[l := lp <| EventLoop.quit_ := true |>]> |>
  | None => w
  end.

(** What [Loop] does first hides whether somebody called [Quit] before. *)
Lemma enter_forgets {E} l (w : World E) :
  upd_loop l entered (quit_called l w) = upd_loop l entered w.
Proof.
  unfold quit_called. destruct (loops w !! l) as [lp|] eqn:Hl; [| done].
  unfold upd_loop, the_loop, deref, mbind, M_bind. upd_simpl. rewrite Hl, lookup_insert_eq.
  unfold modify, upd. cbn. by rewrite insert_insert_eq.
Qed.

(** A [Quit] that comes before [Loop] is without effect: [Loop] starts
    by resetting [quit_], and goes on exactly as if nobody had called it. *)
Theorem Quit_before_Loop {E} `{Kernel E} run call fuel l (w : World E) :
  Loop run call fuel l (quit_called l w) = Loop run call fuel l w.
Proof.
  pose proof (enter_forgets l w) as He. unfold entered in He.
  unfold Loop, mbind, M_bind. by rewrite He.
Qed.

(** ** A run of an application that quits

    The connection callback queues a functor on the loop of the connection;
    the functor tells that loop, the one of the oldest connection, to
    quit. *)

Definition one_shot : App := λ c h,
  match c with
  | OnConnection _ d true => CQueueInLoop d 7 CReturn
  | OnFunctor _ => match last (omap call_conn h) with Some d => CQuit d CReturn | None => CReturn end
  | _ => CReturn
  end.
#[local] Existing Instance one_shot.

#[local] Instance one_shot_ok : AppOk.
Proof.
  intros c h. destruct c as [cb d []| | | | |cb|]; cbn; try done.
  - split; [by left | done].
  - destruct (last (omap call_conn h)) as [d|] eqn:Hd; [| done]. split; [| done]. right.
    apply last_Some_elem_of, list_elem_of_omap in Hd as (c & Hc & Hd). apply Exists_exists. eauto.
Qed.

Lemma one_shot_quits h d cb : last (omap call_conn h) = Some d → quitter d h cb.
Proof.
  intros Hd h' [k ->]. cbn. rewrite omap_app, last_app, Hd. by left.
Qed.

Definition started : M (World sim) (nat * nat) :=
  startup (InetAddress_ctor 0 9012 "127.0.0.1") "CuteEchoServer" false 0%nat 1%nat 4.
Definition started_world : World sim := ran started (empty_world echo_sim).
Definition accepted_world : World sim := ran (run_action (ARound 0)) started_world.
Definition quit_world : World sim := ran (run_action (ARound 1)) accepted_world.

Ltac round_by_compute :=
  lazymatch goal with
  | |- is_Some _ => apply (bool_decide_eq_true_1 (is_Some _)); by vm_compute
  | |- room _ _ => apply room_by_compute; by vm_compute
  | |- _ => by vm_compute
  end.

Lemma quit_world_ok : world_ok quit_world.
Proof.
  destruct (ran_wp may_stop started (λ _ w', world_ok w') (empty_world echo_sim)) as (a & _ & Ha);
    [| by vm_compute |].
  { eapply wp_mono; [apply (wp_startup (InetAddress_ctor 0 9012 "127.0.0.1") "CuteEchoServer" false 0%nat 1%nat 4);
      [by apply no_objects_empty | done.. ] |]. intros [l s] w' [? _]. done. }
  apply (reachable_ok started_world quit_world); [exact Ha |].
  apply (reachable_round (l := 1%nat)); [| round_by_compute..].
  apply (reachable_round (l := 0%nat)); [| round_by_compute..]. apply reachable_start.
Qed.

Lemma Loop_ends_witness :
  calls quit_world = [OnConnection 0 0 true] ∧
  ∃ lp, loops quit_world !! 1%nat = Some lp ∧ EventLoop.pending_functors_ lp = [FnUser 7] ∧
  wp may_stop (server_Loop 1 1) (λ finished w', finished = true ∧ world_ok w' ∧ history quit_world w' ∧
    ∃ lp', loops w' !! 1%nat = Some lp' ∧ EventLoop.quit_ lp' = true ∧ EventLoop.looping_ lp' = false) quit_world.
Proof.
  assert (calls quit_world = [OnConnection 0 0 true]) as Hcalls by (vm_compute; reflexivity).
  split; [exact Hcalls |]. eexists.
  assert (loops quit_world !! 1%nat = Some _) as Hl by (vm_compute; reflexivity).
  split; [exact Hl | split; [reflexivity |]].
  eapply (Loop_ends 1 _ 0 _ 7 quit_world);
    [apply quit_world_ok | apply room_by_compute; vm_compute; reflexivity | exact Hl
    | vm_compute; reflexivity | reflexivity | apply list_elem_of_singleton; reflexivity |].
  apply one_shot_quits. rewrite Hcalls. reflexivity.
Defined.
