(* ===== verification/EchoSpec.v ===== *)
(** * The echo server echoes

    The message callback of [tests/echo_server.cpp] with the library under
    it: what a client sent is what it is sent back. *)

From S2P Require Import Prelude Format Kernel SimKernel Buffer Objects PollerOps ChannelOps ReactorInv PollInv ReactorLife LoopOps LoopInv SocketOps ConnOps ServerOps Frames WorldInv WorldSteps ConnInv HandlerInv LifeInv AcceptInv SystemInv SetupInv EchoServer SystemSpec ConnSpec.

Section echo.
Context {E : Type} `{KernelLaws E}.
Implicit Types w : World E.

(** Sending failed because the other side is gone. *)
Definition broken w (fd : Z) (data : list byte) : Prop := ∃ n err0 err e' e'',
  sys_write fd data (env w) = (n, err0, e') ∧ n < 0 ∧ err0 ≠ EWOULDBLOCK ∧
  log_errno err0 e' = (err, e'') ∧ (err = EPIPE ∨ err = ECONNRESET).

(** It was logged that a send failed. *)
Definition gave_up w : Prop := Log ERROR "TcpConnection::sendInLoop" [] ∈ log w.

Lemma sent_stream w w' c cn data :
  sent w w' c cn data → conns w !! c = Some cn → TcpConnection.state_ cn ≠ kDisconnected → data ≠ [] →
  ∃ cn', conns w' !! c = Some cn' ∧ conn_same cn cn' ∧
    TcpConnection.input_buffer_ cn' = TcpConnection.input_buffer_ cn ∧
    (stream w' cn' = stream w cn ++ data ∨
     stream w' cn' = stream w cn ∧ broken w (TcpConnection.socket_ cn) data ∧ gave_up w').
Proof.
  intros Hs Hc Hup Hne. unfold stream.
  destruct Hs as [? | n err0 err e' e'' Hw Hn Hne' Hl He Hcs Hk _ Hlog | ? | Ho Hcs Hst _ | n b Hn Hor Hcs Hb Hst _ _]; try done.
  - exists cn. rewrite Hcs. split_and!; [done.. |]. right. unfold out_stream, gave_up. rewrite Hk, Hlog.
    split_and!; [done | by exists n, err0, err, e', e'' | by left].
  - exists cn. rewrite Hcs. split_and!; [done.. |]. left. by rewrite Hst, Ho, !app_nil_r.
  - eexists. rewrite Hcs, lookup_insert_eq. split_and!; [done.. |]. left. upd_simpl. rewrite Hst, Hb.
    rewrite <- (ztake_zdrop n data) at 3. destruct Hor as [->| ->]; [by rewrite ztake_0, app_nil_r, <- !app_assoc |].
    by rewrite app_nil_r, <- !app_assoc.
Qed.

(** The message callback, on input [msg]. *)
Definition answered w w' (c : nat) (cn : TcpConnection.t) (msg : list byte) : Prop :=
  ∃ cn', conns w' !! c = Some cn' ∧ conn_same cn cn' ∧ Buffer.content (TcpConnection.input_buffer_ cn') = [] ∧
    (stream w' cn' = stream w cn ++ msg ∨
     stream w' cn' = stream w cn ∧ (∃ w1, broken w1 (TcpConnection.socket_ cn) msg) ∧ gave_up w').

(** The message callback takes all of the input and, if the connection is up,
    sends it. *)
Lemma wp_UserDefineMessageCallback c cn lp Q w :
  world_ok w → conns w !! c = Some cn →
  loops w !! TcpConnection.loop_ cn = Some lp → EventLoop.thread_id_ lp = tid w →
  (∀ b w1 msg, Buffer.content b = [] → w1 = w <| conns ::= <[c := cn <| TcpConnection.input_buffer_ := b |>]> |> →
     grows 0 None w w1 → msg = Buffer.content (TcpConnection.input_buffer_ cn) → string_ok msg →
     if decide (TcpConnection.state_ cn = kConnected) then wp may_stop (SendInLoop c msg (zlen msg)) Q w1
     else Q tt w1) →
  wp may_stop (run_client (UserDefineMessageCallback c c)) Q w.
Proof.
  intros Hok Hc Hl Ht HQ. pose proof (ck_input _ _ _ (wo_conns w Hok c cn Hc)) as Hwf.
  cbn [run_client UserDefineMessageCallback]. wp_step. eapply wp_on_input; [done |]. unfold pure_op. wp_step.
  apply Buffer.wp_RetrieveAllAsString; [done |]. intros b Hb Hcb _. wp_step.
  set (cn1 := cn <| TcpConnection.input_buffer_ := b |>). set (w1 := w <| env := env w |> <| conns ::= _ |>).
  assert (grows 0 None w w1) as Hg by (by apply grows_input).
  specialize (HQ b w1 _ Hcb eq_refl Hg eq_refl (content_string_ok _ Hwf)).
  assert (conns w1 !! c = Some cn1) as Hc1 by apply lookup_insert_eq.
  wp_step. unfold Send. do 2 wp_step. unfold IsConnected.
  change (TcpConnection.state_ cn1) with (TcpConnection.state_ cn).
  destruct (decide (TcpConnection.state_ cn = kConnected)) as [Hup|Hdown];
    [rewrite bool_decide_eq_true_2 by exact Hup | rewrite bool_decide_eq_false_2 by exact Hdown]; cbn [when];
    [| by do 2 wp_step].
  wp_step. eapply (wp_IsInLoopThread _ _ lp); [exact Hl |].
  change (tid w1) with (tid w). rewrite Ht, Z.eqb_refl. eapply wp_mono; [exact HQ | by intros [] w']. 
Qed.

Lemma wp_answers c cn lp w :
  world_ok w → conns w !! c = Some cn → TcpConnection.state_ cn = kConnected →
  loops w !! TcpConnection.loop_ cn = Some lp → EventLoop.thread_id_ lp = tid w →
  Buffer.content (TcpConnection.input_buffer_ cn) ≠ [] →
  wp may_stop (run_client (UserDefineMessageCallback c c)) (λ _ w',
    answered w w' c cn (Buffer.content (TcpConnection.input_buffer_ cn))) w.
Proof.
  intros Hok Hc Hup Hl Ht Hne. apply (wp_UserDefineMessageCallback c cn lp); [done.. |].
  intros b w1 msg Hb Hw1 Hg -> Hmsg. rewrite decide_True by done. set (cn1 := cn <| TcpConnection.input_buffer_ := b |>).
  assert (conns w1 !! c = Some cn1) as Hc1 by (subst w1; apply lookup_insert_eq).
  assert (TcpConnection.state_ cn1 = kConnected) as Hup1 by done.
  eapply (wp_SendInLoop c cn1); [apply Hg | done | by rewrite Hup1 | done |].
  intros w2 _ Hs.
  destruct (sent_stream _ _ _ _ _ Hs Hc1) as (cn2 & Hc2 & Hsm & Hin & Hst); [by rewrite Hup1 | done |].
  assert (stream w1 cn1 = stream w cn) as Hs1 by by subst w1. rewrite Hs1 in Hst.
  exists cn2. split_and!; [done | exact Hsm | by rewrite Hin |].
  destruct Hst as [Hst|(Hst & Hbr & Hlog)]; [by left | right]. split_and!; [exact Hst | by exists w1 | exact Hlog].
Qed.

(** What [HandleRead] of the echo server did. *)
Inductive echoed w w' (c : nat) (cn : TcpConnection.t) : Prop :=
  | echoed_data d e' b :
      data_read w cn d e' b →
      answered w w' c cn (Buffer.content (TcpConnection.input_buffer_ cn) ++ d) → echoed w w' c cn
  | echoed_nothing : nothing_read w w' c cn kConnectionCallback → echoed w w' c cn.
End echo.

(** C5: the echo server echoes: in the thread of the connection's loop, when
    a client's data arrive, [HandleRead] reads them, and what was in the input
    buffer and what came is, in order, behind all that was sent to the client
    before - in the socket or at the end of the output buffer - and the input
    buffer is empty; unless the other side is gone, when it is given up, with
    a line in the log.  At
    the end of the stream, and on an error, [HandleRead] does as for every
    application. *)
Theorem echo_answers {E} `{KernelLaws E} c cn lp t (w : World E) :
  world_ok w → conns w !! c = Some cn → TcpConnection.state_ cn = kConnected →
  loops w !! TcpConnection.loop_ cn = Some lp → EventLoop.thread_id_ lp = tid w →
  TcpConnection.connection_callback_ cn = Some kConnectionCallback →
  TcpConnection.message_callback_ cn = Some kMessageCallback →
  wp may_stop (ConnOps.HandleRead c t) (λ _ w', echoed w w' c cn) w.
Proof.
  intros Hok Hc Hup Hl Ht Hccb Hmcb.
  apply (wp_nothing_read c cn kConnectionCallback kMessageCallback); try done; [by rewrite Hup | |];
    [| intros; by apply echoed_nothing].
  intros d e' b Hd Hg. unfold invoke. do 4 wp_step. set (w1 := loaded w c cn e' b) in *.
  set (cn1 := cn <| TcpConnection.input_buffer_ := b |>).
  assert (conns w1 !! c = Some cn1) as Hc1 by apply lookup_insert_eq.
  set (w2 := w1 <| calls ::= _ |>).
  assert (grows 0 None w1 w2) as Hg2 by (apply grows_call; [apply Hg | by exists cn1]).
  assert (Buffer.content b ≠ []) as Hne.
  { rewrite (dr_content _ _ _ _ _ Hd). intros [_ ?]%app_eq_nil. by apply (dr_some _ _ _ _ _ Hd). }
  eapply wp_mono; [apply (wp_answers c cn1 lp w2); [apply Hg2 | done..] |].
  intros [] w' (cn' & Hc' & Hsm & Hin & Hst). eapply echoed_data; [exact Hd |]. exists cn'.
  change (TcpConnection.input_buffer_ cn1) with b in Hst. rewrite (dr_content _ _ _ _ _ Hd) in Hst.
  assert (stream w2 cn1 = stream w cn) as Hs.
  { unfold stream, w2, w1, loaded. upd_simpl. unfold out_stream. by rewrite (dr_in _ _ _ _ _ Hd). }
  rewrite Hs in Hst. split_and!; done.
Qed.

(** In the run of [SystemSpec] the kernel takes two of the five bytes at
    once. *)
Lemma echo_answers_witness :
  wp may_stop (ConnOps.HandleRead 0 1700000000) (λ _ w', echoed (echo_run 2) w' 0 (echo_conn 2)) (echo_run 2) ∧
  out_stream (obs (ran (ConnOps.HandleRead 0 1700000000) (echo_run 2))) 11 = [x68; x65].
Proof.
  split; [| vm_compute; reflexivity].
  apply (echo_answers 0 (echo_conn 2) (echo_own_loop 2) 1700000000 (echo_run 2));
    [apply echo_run_ok | vm_compute; reflexivity | vm_compute; reflexivity | vm_compute; reflexivity
    | vm_compute; reflexivity | vm_compute; reflexivity | vm_compute; reflexivity].
Defined.
