(* ===== verification/ConnFlow.v ===== *)
(** * What sending leaves alone

    [SendInLoop], [HandleWrite] and [ShutdownInLoop] of a connection without
    write-complete and high-water-mark callbacks change nothing but the
    connection, its channel, what its socket took, and the log. *)

From S2P Require Import Prelude Format Kernel Buffer Objects PollerOps ChannelOps ReactorInv LoopOps LoopInv SocketOps ConnOps ServerOps Frames.

Section only_out.
Context {E : Type} `{KernelLaws E}.
Implicit Types w : World E.

Record only_out (c : nat) (fd : Z) w w' : Prop := {
  oo_conns d : d ≠ c → conns w' !! d = conns w !! d;
  oo_loops : loops w' = loops w;
  oo_servers : servers w' = servers w;
  oo_in : k_in (obs w') = k_in (obs w);
  oo_out fd' : fd' ≠ fd → out_stream (obs w') fd' = out_stream (obs w) fd';
}.

#[export] Instance only_out_preorder c fd : PreOrder (only_out c fd).
Proof.
  split; [done |]. intros w1 w2 w3 [] []. split; try congruence; intros x Hx.
  - transitivity (conns w2 !! x); auto.
  - transitivity (out_stream (obs w2) x); auto.
Qed.

#[export] Instance only_out_upper c fd : AdmitsUpper (only_out c fd).
Proof.
  split; [apply _ |]. intros w w' [_ _ Hl Hc Hs _ [Ho Hi _ _]]. split; try done; [by rewrite Hc |].
  intros fd' _. unfold out_stream. by rewrite Ho.
Qed.

(** Only what the socket took differs. *)
Lemma only_out_env c fd w e' :
  (observe e' = obs w ∨ ∃ d, observe e' = add_out fd d (obs w)) → only_out c fd w (w <| env := e' |>).
Proof.
  intros Ho. split; upd_simpl; try done.
  - by destruct Ho as [->|[d ->]].
  - intros fd' Hfd. destruct Ho as [->|[d ->]]; [done |]. by rewrite out_stream_add_out, decide_False.
Qed.

Lemma only_out_conn c fd w cn : only_out c fd w (w <| conns ::= <[c := cn]> |>).
Proof. split; upd_simpl; try done. intros d Hd. by rewrite lookup_insert_ne. Qed.

Lemma sys_write_obs fd d e n err e' :
  sys_write fd d e = (n, err, e') → observe e' = observe e ∨ ∃ d', observe e' = add_out fd d' (observe e).
Proof. intros [[_ ->]|[_ ->]]%write_law; eauto. Qed.

(** ** Buffers *)

Lemma after_on_output {A} c cn (m : E → M Buffer.t (A * E)) Q w :
  conns w !! c = Some cn →
  (∀ a e b, m (env w) (TcpConnection.output_buffer_ cn) = Done (a, e) b →
    Q a (w <| env := e |> <| conns ::= <[c := cn <| TcpConnection.output_buffer_ := b |>]> |>)) →
  after (on_output c m) Q w.
Proof.
  intros Hc HQ. unfold after, on_output, on_buffer. rewrite Hc.
  destruct (m _ _) as [[a e] b| | |] eqn:Hm; [by apply HQ | done..].
Qed.

#[export] Instance only_out_on_buffer {A} c fd g h (m : M Buffer.t A) :
  Pres (only_out c fd) (on_buffer c g h (pure_op m)).
Proof.
  intros w. unfold on_buffer, pure_op, mbind, M_bind. destruct (conns w !! c) as [cn|]; [| done].
  destruct (m _) as [a b| | |]; [| done..]. cbn. split; upd_simpl; try done.
  intros d Hd. by rewrite lookup_insert_ne.
Qed.
#[export] Instance only_out_on_output {A} c fd (m : M Buffer.t A) : Pres (only_out c fd) (on_output c (pure_op m)).
Proof. apply only_out_on_buffer. Qed.
#[export] Instance only_out_on_input {A} c fd (m : M Buffer.t A) : Pres (only_out c fd) (on_input c (pure_op m)).
Proof. apply only_out_on_buffer. Qed.

Lemma WriteFd_obs fd s e b0 n err e' b :
  Buffer.WriteFd fd s e b0 = Done (n, err, e') b →
  observe e' = observe e ∨ ∃ d, observe e' = add_out fd d (observe e).
Proof.
  unfold Buffer.WriteFd, mbind, M_bind, get. destruct (Buffer.load _ _ _) as [d b1| | |]; try done.
  destruct (sys_write fd d e) as [[k err1] e1] eqn:Hw. apply sys_write_obs in Hw.
  destruct (k <? 0); [intros [= _ _ <- _]; exact Hw |].
  destruct (Buffer.Retrieve _ _) as [[] b2| | |]; try done. intros [= _ _ <- _]. exact Hw.
Qed.
(** ** Sending and shutting down *)

Lemma only_out_sys_write c fd d : Pres (only_out c fd) (sys (sys_write fd d)).
Proof.
  intros w. unfold sys. destruct (sys_write fd d (env w)) as [[n err] e'] eqn:Hw.
  by eapply only_out_env, sys_write_obs.
Qed.

#[export] Instance only_out_ShutdownInLoop c fd d : Pres (only_out c fd) (ShutdownInLoop d).
Proof.
  assert (∀ s, Pres (only_out c fd) (sys (sys_shutdown_wr s))).
  { intros s w. unfold sys. destruct (sys_shutdown_wr s (env w)) as [[n err] e'] eqn:Hs.
    split; upd_simpl; try done; [|intros fd' _]; by apply shutdown_law in Hs as [[_ ->]|[_ ->]]. }
  assert (∀ s, Pres (only_out c fd) (ShutdownWrite s)) by (intros s; pres_tac). pres_tac.
Qed.

(** No callback is called when data are sent. *)
Definition no_send_callbacks (cn : TcpConnection.t) : Prop :=
  TcpConnection.write_complete_callback_ cn = None ∧ TcpConnection.high_water_mark_callback_ cn = None.

Lemma buffer_rest_only_out c fd cn data n r fault w :
  conns w !! c = Some cn → no_send_callbacks cn →
  after (buffer_rest c data n r fault) (λ _, only_out c fd w) w.
Proof.
  intros Hc [_ Hh]. unfold buffer_rest. apply after_when; [intros _ | done].
  apply after_bind, after_deref. rewrite Hc. intros _ [= <-]. cbn zeta.
  rewrite Hh, (bool_decide_eq_false_2 (is_Some None)), andb_false_r by by intros [].
  apply (pres_after (only_out c fd)). cbn [when]. repeat pres_step.
Qed.

Lemma SendInLoop_only_out c cn ch data n w :
  conns w !! c = Some cn → channels w !! TcpConnection.channel_ cn = Some ch →
  Channel.fd_ ch = TcpConnection.socket_ cn → no_send_callbacks cn →
  after (SendInLoop c data n) (λ _, only_out c (TcpConnection.socket_ cn) w) w.
Proof.
  intros Hc Hx Hfd Hn. unfold SendInLoop. apply after_bind, after_deref. rewrite Hc. intros _ [= <-].
  destruct (decide _); [apply pres_after, _ |].
  apply after_bind, after_deref. rewrite Hx. intros _ [= <-]. apply after_bind.
  assert (∀ w1 k r fault, only_out c (TcpConnection.socket_ cn) w w1 → conns w1 = conns w →
    after (buffer_rest c data k r fault) (λ _, only_out c (TcpConnection.socket_ cn) w) w1) as Hrest.
  { intros w1 k r fault Ho Hcs. eapply after_mono; [by apply (buffer_rest_only_out c (TcpConnection.socket_ cn) cn); [rewrite Hcs |] |].
    intros x w2 Hr. by etrans. }
  destruct (_ && _); [| by apply after_ret, Hrest].
  apply after_bind, after_sys. intros [k err] e' Hw%sys_write_obs. rewrite Hfd in Hw.
  pose proof (only_out_env c _ w e' Hw) as Ho. destruct (0 <=? k).
  - apply after_bind, after_deref. upd_simpl. rewrite Hc. intros _ [= <-].
    rewrite (proj1 Hn), (bool_decide_eq_false_2 (is_Some None)), andb_false_r by by intros [].
    by apply after_bind, after_ret, after_ret, Hrest.
  - destruct (negb _); [| by apply after_ret, Hrest].
    apply after_bind, after_LOG, after_bind, after_sys. intros err' e'' Hl%log_errno_law.
    apply after_ret, Hrest; [| done].
    etrans; [exact Ho |]. etrans; [apply au_upper | apply only_out_env; by left]. done.
Qed.

Lemma HandleWrite_only_out c cn ch w :
  conns w !! c = Some cn → channels w !! TcpConnection.channel_ cn = Some ch →
  Channel.fd_ ch = TcpConnection.socket_ cn → no_send_callbacks cn →
  after (HandleWrite c) (λ _, only_out c (TcpConnection.socket_ cn) w) w.
Proof.
  intros Hc Hx Hfd [Hn _]. unfold HandleWrite. apply after_bind, after_deref. rewrite Hc. intros _ [= <-].
  apply after_bind, after_deref. rewrite Hx. intros _ [= <-]. apply after_when; [intros _ | done].
  apply after_bind. eapply after_on_output; [done |]. intros [n err] e' b Hw%WriteFd_obs. rewrite Hfd in Hw.
  set (w1 := _ <| conns ::= _ |>). assert (only_out c (TcpConnection.socket_ cn) w w1) as Ho.
  { etrans; [by apply only_out_env | apply only_out_conn]. }
  destruct (0 <? n); [| eapply after_mono; [apply (pres_after (only_out c (TcpConnection.socket_ cn))), _ | intros x w2 Hr; by etrans]].
  apply after_bind, after_deref. unfold w1 at 1. upd_simpl. rewrite lookup_insert_eq. intros _ [= <-]. upd_simpl.
  rewrite Hn, (bool_decide_eq_false_2 (is_Some None)) by by intros [].
  eapply after_mono; [apply (pres_after (only_out c (TcpConnection.socket_ cn))) | intros x w2 Hr; by etrans].
  cbn [when]. repeat pres_step.
Qed.
End only_out.
