(* ===== verification/EchoRun.v ===== *)
(** * A run of the echo server

    From its start on, whatever clients do and however the kernel behaves,
    the echo server sends every client what came from it.  The invariant of
    the application ([echo_inv]) is carried through the turns of the loops
    by [CarriedAll]: most operations do not touch what it is about ([Stable]);
    the handlers that receive and send are looked at one by one. *)

From S2P Require Import Prelude Format Kernel SimKernel Buffer Objects PollerOps ChannelOps ReactorInv PollInv ReactorLife LoopOps LoopInv SocketOps ConnOps ServerOps TurnOps Frames WorldInv WorldSteps ConnInv HandlerInv LifeInv AcceptInv SystemInv SetupInv EchoServer SystemSpec Turns ConnSpec EchoSpec ConnFlow.

(** The functors of the library that send nothing. *)
Definition plain (f : functor) : Prop :=
  match f with
  | FnConnectEstablished _ | FnConnectDestroyed _ | FnRemoveConnectionInLoop _ _ | FnListen _ => True
  | _ => False
  end.

(** The server has the callbacks of [EchoServer]. *)
Definition echo_server (sv : TcpServer.t) : Prop :=
  TcpServer.connection_callback_ sv = Some kConnectionCallback ∧
  TcpServer.message_callback_ sv = Some kMessageCallback ∧
  TcpServer.write_complete_callback_ sv = None.

Section inv.
Context {E : Type} `{KernelLaws E}.
Implicit Types w : World E.

(** ** The invariant *)

(** What came in on the connection was sent back, in order and from the
    start, unless [G] - all of it, while the connection is not down - and
    nothing else, ever. *)
Record echoes (G : Prop) w (cn : TcpConnection.t) : Prop := {
  ec_connection : TcpConnection.connection_callback_ cn = Some kConnectionCallback;
  ec_message : TcpConnection.message_callback_ cn = Some kMessageCallback;
  ec_send : no_send_callbacks cn;
  ec_up : TcpConnection.state_ cn ≠ kDisconnecting;
  ec_input : Buffer.content (TcpConnection.input_buffer_ cn) = [];
  ec_sub : stream w cn `sublist_of` in_stream (obs w) (TcpConnection.socket_ cn);
  ec_pre : G ∨ stream w cn `prefix_of` in_stream (obs w) (TcpConnection.socket_ cn);
  ec_all : TcpConnection.state_ cn ≠ kDisconnected →
    G ∨ stream w cn = in_stream (obs w) (TcpConnection.socket_ cn);
}.

Record echo_inv (G : Prop) w : Prop := {
  ei_conns c cn : conns w !! c = Some cn → echoes G w cn;
  ei_servers s sv : servers w !! s = Some sv → echo_server sv;
  ei_pending l lp : loops w !! l = Some lp → Forall plain (EventLoop.pending_functors_ lp);
  ei_apart l lp c cn : loops w !! l = Some lp → conns w !! c = Some cn →
    TcpConnection.socket_ cn ≠ EventLoop.wakeup_fd_ lp;
}.

(** Nothing went through the connection. *)
Record same_flow w w' (cn cn' : TcpConnection.t) : Prop := {
  sw_fixed : conn_fixed cn' = conn_fixed cn;
  sw_state : TcpConnection.state_ cn' = TcpConnection.state_ cn ∨ TcpConnection.state_ cn' = kDisconnected ∨
    TcpConnection.state_ cn' = kConnected ∧ TcpConnection.state_ cn = kConnecting;
  sw_input : Buffer.content (TcpConnection.input_buffer_ cn') = Buffer.content (TcpConnection.input_buffer_ cn);
  sw_stream : stream w' cn' = stream w cn;
  sw_in : in_stream (obs w') (TcpConnection.socket_ cn) = in_stream (obs w) (TcpConnection.socket_ cn);
}.

Lemma echoes_flow G w w' cn cn' : same_flow w w' cn cn' → echoes G w cn → echoes G w' cn'.
Proof.
  intros [Hf Hst Hi Hs Hin] [? ? Hn Hup Hin0 Hsub Hpre Hall]. unfold conn_fixed, no_send_callbacks in *.
  injection Hf as _ _ Hfd _ Hcc _ Hm Hw _ Hh.
  split; unfold no_send_callbacks; rewrite ?Hfd, ?Hin, ?Hs, ?Hi, ?Hw, ?Hh, ?Hcc, ?Hm; try done.
  - destruct Hst as [->|[->|[-> _]]]; done.
  - intros Hne. apply Hall. destruct Hst as [<-|[?|[_ ->]]]; done.
Qed.

Lemma echoes_weaken (G G' : Prop) w cn : (G → G') → echoes G w cn → echoes G' w cn.
Proof. intros HG []. split; auto; [by destruct ec_pre0; auto |]. intros Hd. destruct (ec_all0 Hd); auto. Qed.

Lemma echo_inv_weaken (G G' : Prop) w : (G → G') → echo_inv G w → echo_inv G' w.
Proof. intros HG []. split; [intros; by eapply echoes_weaken, ei_conns0 | done..]. Qed.

Lemma echo_inv_flow G w w' : echo_inv G w → loops w' = loops w → servers w' = servers w →
  (∀ c cn', conns w' !! c = Some cn' → ∃ cn, conns w !! c = Some cn ∧ same_flow w w' cn cn') → echo_inv G w'.
Proof.
  intros [Hc Hs Hp Ha] Hls Hsv Hcn. split; rewrite ?Hls, ?Hsv; try done.
  - intros c cn' (cn & Hcn' & Hf)%Hcn. eapply echoes_flow; [done | by eapply Hc].
  - intros l lp c cn' Hl (cn & Hcn' & Hf)%Hcn. pose proof (sw_fixed _ _ _ _ Hf) as Hfix.
    unfold conn_fixed in Hfix. injection Hfix as _ _ Hfd _ _ _ _ _ _ _. rewrite Hfd. by eapply Ha.
Qed.

(** The connections are the same, and their sockets. *)
Lemma echo_inv_same G w w' : echo_inv G w → loops w' = loops w → servers w' = servers w → conns w' = conns w →
  (∀ c cn, conns w !! c = Some cn →
     out_stream (obs w') (TcpConnection.socket_ cn) = out_stream (obs w) (TcpConnection.socket_ cn) ∧
     in_stream (obs w') (TcpConnection.socket_ cn) = in_stream (obs w) (TcpConnection.socket_ cn)) → echo_inv G w'.
Proof.
  intros Hi Hls Hsv Hcn Ho. apply (echo_inv_flow G w); try done. rewrite Hcn. intros c cn Hc.
  destruct (Ho c cn Hc) as [Ho1 Ho2]. exists cn. split; [done |]. split; auto. unfold stream. by rewrite Ho1.
Qed.

Lemma echo_conns_same G w w' c cn : echo_inv G w → conns w' = conns w → obs w' = obs w →
  conns w' !! c = Some cn → echoes G w' cn.
Proof.
  intros He -> Ho Hc. apply (echoes_flow G w w' cn); [| by eapply ei_conns].
  split; auto; [unfold stream |]; by rewrite Ho.
Qed.

(** A loop changes. *)
Lemma echo_inv_loop G w l lp lp' : echo_inv G w → loops w !! l = Some lp →
  EventLoop.wakeup_fd_ lp' = EventLoop.wakeup_fd_ lp → Forall plain (EventLoop.pending_functors_ lp') →
  echo_inv G (w <| loops ::= <[l := lp']> |>).
Proof.
  intros He Hl Hfd Hp'. pose proof He as [_ Hs Hp Ha]. split; upd_simpl; [| done | |].
  - intros c cn Hcn. by apply (echo_conns_same G w _ c).
  - intros l' lp0. rewrite lookup_insert. case_decide; [by intros [= <-] | apply Hp].
  - intros l' lp0 c cn. rewrite lookup_insert. case_decide; [intros [= <-]; rewrite Hfd; by eapply Ha | apply Ha].
Qed.

(** ** Operations that do not touch it *)

Section stable.
Context (G : Prop).
Abbreviation R := (keeps_true (echo_inv G)).

#[export] Instance echo_upper : AdmitsUpper R.
Proof.
  split; [apply _ |]. intros w w' [_ _ Hl Hc Hs _ [Ho Hi _ _]] He. apply (echo_inv_same G w); try done.
  intros c cn _. unfold out_stream, in_stream. by rewrite Ho, Hi.
Qed.

#[export] Instance echo_gets {A} (f : World E → A) : Pres R (gets f) := pres_gets R f.
#[export] Instance echo_record_call c : Pres R (record_call c).
Proof. apply pres_modify. intros w He. by apply (echo_inv_same G w). Qed.

#[export] Instance echo_SetState c : Pres R (SetState c kDisconnected).
Proof.
  apply stable_intro. intros w He. unfold SetState, upd_conn. apply after_bind, after_deref. intros cn Hc.
  apply after_modify, (echo_inv_flow G w); try done. intros d dn. upd_simpl. rewrite lookup_insert.
  case_decide; [subst d; intros [= <-]; exists cn | intros Hd; exists dn]; (split; [done |]); split; upd_simpl; auto.
Qed.

#[export] Instance echo_Wakeup l : Pres R (Wakeup l).
Proof.
  apply stable_intro. intros w He. unfold Wakeup. apply after_bind, after_deref. intros lp Hl.
  apply after_bind, after_sys. intros [n err] e' Hw%sys_write_obs.
  apply (stable_after (echo_inv G)); [apply _ |]. apply (echo_inv_same G w); try done. intros c cn Hc.
  pose proof (ei_apart _ _ He l lp c cn Hl Hc) as Hne. upd_simpl.
  destruct Hw as [->|[d ->]]; [done |]. by rewrite out_stream_add_out, decide_False.
Qed.

#[export] Instance echo_QueueInLoop l f : plain f → Pres R (QueueInLoop l f).
Proof.
  intros Hf. unfold QueueInLoop. apply pres_bind; [apply _ | | intros _; repeat pres_step].
  apply stable_intro. intros w He. unfold upd_loop. apply after_bind, after_deref. intros lp Hl.
  apply after_modify, (echo_inv_loop G w l lp); try done. upd_simpl.
  apply Forall_app. split; [by eapply ei_pending | by repeat constructor].
Qed.

#[export] Instance echo_RunInLoop l f body : plain f → Pres R body → Pres R (RunInLoop l f body).
Proof. intros Hf Hb. pose proof (echo_QueueInLoop l f Hf). pres_tac. Qed.

Lemma echo_upd_server s g :
  (∀ sv, echo_server sv → echo_server (g sv)) → Pres R (upd_server s g).
Proof.
  intros Hg. apply stable_intro. intros w He. unfold upd_server. apply after_bind, after_deref. intros sv Hs.
  apply after_modify. pose proof He as [_ Hsv Hp Ha]. split; upd_simpl; [| | done..].
  { intros c cn Hcn. by apply (echo_conns_same G w _ c). }
  intros s' sv'. rewrite lookup_insert. case_decide; [intros [= <-]; eauto | apply Hsv].
Qed.

(** *** Callbacks and handlers *)

#[export] Instance echo_OnConnection cb c b : Pres R (invoke (OnConnection cb c b)).
Proof. unfold invoke. cbn [react echo UserDefineConnectionCallback run_client]. repeat pres_step. Qed.
#[export] Instance echo_OnClose cb c : Pres R (invoke (OnClose cb c)).
Proof. unfold invoke. cbn [react echo run_client]. repeat pres_step. Qed.

Instance echo_call_fn {A} (cb : option A) (body : A → M (World E) unit) :
  (∀ a, Pres R (body a)) → Pres R (call_fn cb body).
Proof. intros Hb. pres_tac. Qed.
#[export] Instance echo_connection_callback c : Pres R (connection_callback c).
Proof. pres_tac. Qed.

#[export] Instance echo_RemoveConnectionInLoop s c : Pres R (RemoveConnectionInLoop s c).
Proof.
  unfold RemoveConnectionInLoop. do 3 (apply pres_bind; [apply _ | apply _ | intros ?]).
  apply pres_bind; [apply _ | by apply echo_upd_server | intros _; by apply echo_QueueInLoop].
Qed.
#[export] Instance echo_close_callback_of c : Pres R (close_callback_of c).
Proof.
  pres_tac. apply echo_call_fn. intros [cb|s d]; [apply _ |].
  unfold RemoveConnection. apply pres_bind; [apply _ | apply _ | intros sv]. apply echo_RunInLoop; [done | apply _].
Qed.
#[export] Instance echo_HandleClose c : Pres R (HandleClose c).
Proof. pres_tac. Qed.
#[export] Instance echo_ConnectDestroyed c : Pres R (ConnectDestroyed c).
Proof. pres_tac. Qed.
#[export] Instance echo_Acceptor_Listen s : Pres R (Acceptor_Listen s).
Proof. unfold Acceptor_Listen. apply pres_bind; [apply _ | by apply echo_upd_server | intros _]. repeat pres_step. Qed.

(** Establishing a connection. *)
Lemma echo_ConnectEstablished c cn w :
  echo_inv G w → conns w !! c = Some cn → TcpConnection.state_ cn = kConnecting →
  after (ConnectEstablished c) (λ _, echo_inv G) w.
Proof.
  intros He Hc Hst. unfold ConnectEstablished, SetState, upd_conn.
  apply after_bind, after_bind, after_deref. rewrite Hc. intros _ [= <-]. apply after_modify.
  apply (stable_after (echo_inv G)); [repeat pres_step |]. apply (echo_inv_flow G w); try done.
  intros d dn. upd_simpl. rewrite lookup_insert.
  case_decide; [subst d; intros [= <-]; exists cn | intros Hd; exists dn]; (split; [done |]); split; upd_simpl; auto.
Qed.
End stable.

(** ** Sending *)

(** One connection changes. *)
Record only_conn w w' (c : nat) (cn cn' : TcpConnection.t) : Prop := {
  oc_conn : conns w' !! c = Some cn';
  oc_same : conn_same cn cn';
  oc_conns d : d ≠ c → conns w' !! d = conns w !! d;
  oc_loops : loops w' = loops w;
  oc_servers : servers w' = servers w;
  oc_io fd : fd ≠ TcpConnection.socket_ cn →
    out_stream (obs w') fd = out_stream (obs w) fd ∧ in_stream (obs w') fd = in_stream (obs w) fd;
}.

Lemma only_conn_out w w' c cn cn' :
  only_out c (TcpConnection.socket_ cn) w w' → conns w' !! c = Some cn' → conn_same cn cn' → only_conn w w' c cn cn'.
Proof. intros [Hd Hl Hs Hi Ho] Hc Hsm. split; try done. intros fd Hfd. unfold in_stream. rewrite Hi. auto. Qed.

Lemma only_conn_in w w' c cn cn' d :
  conns w' = <[c := cn']> (conns w) → conn_same cn cn' → loops w' = loops w → servers w' = servers w →
  obs w' = add_in (TcpConnection.socket_ cn) d (obs w) → only_conn w w' c cn cn'.
Proof.
  intros Hcs Hsm Hl Hs Ho. split; try done; rewrite ?Hcs.
  - apply lookup_insert_eq.
  - intros x Hx. by apply lookup_insert_ne.
  - intros fd Hfd. rewrite Ho. unfold in_stream, add_in. upd_simpl. by rewrite lookup_insert_ne.
Qed.

Lemma only_conn_trans w1 w2 w3 c cn1 cn2 cn3 :
  only_conn w1 w2 c cn1 cn2 → only_conn w2 w3 c cn2 cn3 → only_conn w1 w3 c cn1 cn3.
Proof.
  intros [Hc1 [Hf1 Hst1] Hd1 Hl1 Hs1 Ho1] [Hc2 [Hf2 Hst2] Hd2 Hl2 Hs2 Ho2].
  assert (TcpConnection.socket_ cn2 = TcpConnection.socket_ cn1) as Hfd by (unfold conn_fixed in Hf1; congruence).
  split; [done | split; congruence | | congruence | congruence |].
  - intros d Hd. by rewrite Hd2, Hd1.
  - intros fd Hne. destruct (Ho1 fd Hne) as [<- <-]. apply Ho2. by rewrite Hfd.
Qed.

Lemma echo_only_conn (G G' : Prop) w w' c cn cn' :
  world_ok w → echo_inv G w → (G → G') → conns w !! c = Some cn → only_conn w w' c cn cn' →
  echoes G' w' cn' → echo_inv G' w'.
Proof.
  intros Hok He HG Hc [Hc' [Hf _] Hcs Hls Hsv Ho] Hcn'. pose proof He as [Hcn Hs Hp Ha].
  assert (∀ d dn', conns w' !! d = Some dn' → d = c ∧ dn' = cn' ∨ d ≠ c ∧ conns w !! d = Some dn') as Hd.
  { intros d dn' Hd. destruct (decide (d = c)) as [->|Hne]; [left | right; by rewrite <- Hcs]. split; congruence. }
  split; rewrite ?Hls, ?Hsv; try done.
  - intros d dn [[-> ->]|[Hne Hdn]]%Hd; [done |]. apply (echoes_weaken G); [done |].
    assert (TcpConnection.socket_ dn ≠ TcpConnection.socket_ cn) as Hfd
      by (intros Heq; by eapply Hne, conn_socket_inj).
    destruct (Ho _ Hfd) as [Ho1 Ho2]. apply (echoes_flow G w w' dn); [| by eapply Hcn].
    split; auto. unfold stream. by rewrite Ho1.
  - intros l lp d dn Hl [[-> ->]|[Hne Hdn]]%Hd; [| by eapply Ha].
    unfold conn_fixed in Hf. replace (TcpConnection.socket_ cn') with (TcpConnection.socket_ cn) by congruence.
    by eapply Ha.
Qed.

Lemma echo_HandleWrite G c w :
  world_ok w → established w c → echo_inv G w → after (HandleWrite c) (λ _, echo_inv G) w.
Proof.
  intros Hok (cn & Hc & Hst) He. destruct (ck_channel _ _ _ (wo_conns w Hok c cn Hc)) as (ch & Hx & _ & Hfd & _).
  pose proof (ei_conns _ _ He c cn Hc) as Hcn.
  apply (wp_after may_stop), (wp_mono _ _ (λ _ w', (w' = w ∨ wrote w w' c cn) ∧ only_out c (TcpConnection.socket_ cn) w w')).
  { apply wp_and_after; [| by apply (HandleWrite_only_out c cn ch), Hcn].
    apply (wp_HandleWrite c cn ch); try done; auto. }
  intros _ w' [[->|Hw] Ho]; [done |]. apply wrote_stream in Hw as (cn' & Hc' & Hsm & Hin & Hs & _).
  apply (echo_only_conn G G w w' c cn cn'); [done.. | by apply only_conn_out |].
  apply (echoes_flow G w w' cn); [| done]. destruct Hsm as [Hf Hst']. split; [done | by left | by rewrite Hin | done |].
  unfold in_stream. by rewrite (oo_in _ _ _ _ Ho).
Qed.
(** ** Receiving *)

(** [d] came in, and was sent back. *)
Lemma echoes_read (G G' : Prop) w w' cn cn' d :
  echoes G w cn → (G → G') → conn_same cn cn' → Buffer.content (TcpConnection.input_buffer_ cn') = [] →
  in_stream (obs w') (TcpConnection.socket_ cn) = in_stream (obs w) (TcpConnection.socket_ cn) ++ d →
  stream w' cn' = stream w cn ++ d ∧ (d = [] ∨ TcpConnection.state_ cn ≠ kDisconnected) ∨
    stream w' cn' = stream w cn ∧ (G' ∨ TcpConnection.state_ cn = kDisconnected) →
  echoes G' w' cn'.
Proof.
  intros [? ? Hn Hup Hin0 Hsub Hpre Hall] HG [Hf Hst] Hb Hin Hs. unfold conn_fixed in Hf.
  injection Hf as _ _ Hfd _ Hcc _ Hm Hw _ Hh.
  split; unfold no_send_callbacks in *; rewrite ?Hfd, ?Hin, ?Hst, ?Hw, ?Hh, ?Hcc, ?Hm; try done.
  - destruct Hs as [[-> _]|[-> _]]; [by apply sublist_app | by apply sublist_inserts_r].
  - destruct Hs as [[-> [->|Hup']]|[-> _]].
    + rewrite !app_nil_r. destruct Hpre; auto.
    + destruct (Hall Hup') as [?| ->]; [left; by apply HG | by right].
    + destruct Hpre; [left; by apply HG | right; by apply prefix_app_r].
  - intros Hne. destruct Hs as [[-> _]|[_ [?|?]]]; [| by left | done].
    destruct (Hall Hne) as [?| ->]; [left; by apply HG | by right].
Qed.

Lemma loaded_read w c cn e' b d :
  observe e' = add_in (TcpConnection.socket_ cn) d (obs w) →
  in_stream (obs (loaded w c cn e' b)) (TcpConnection.socket_ cn) =
    in_stream (obs w) (TcpConnection.socket_ cn) ++ d ∧
  stream (loaded w c cn e' b) (cn <| TcpConnection.input_buffer_ := b |>) = stream w cn.
Proof.
  intros Ho. unfold loaded, stream, in_stream, out_stream. upd_simpl. rewrite Ho. split; [| done].
  unfold add_in. upd_simpl. by rewrite lookup_insert_eq.
Qed.

Lemma echo_message G c cn lp d e' b k w :
  world_ok w → conns w !! c = Some cn → TcpConnection.state_ cn ≠ kConnecting →
  loops w !! TcpConnection.loop_ cn = Some lp → EventLoop.thread_id_ lp = tid w → echo_inv G w →
  data_read w cn d e' b → grows 0 None w (loaded w c cn e' b) → call_ok (loaded w c cn e' b) k →
  wp may_stop (run_client (UserDefineMessageCallback c c)) (λ _ w', echo_inv (G ∨ gave_up w') w')
    ((loaded w c cn e' b) <| calls ::= cons k |>).
Proof.
  intros Hok Hc Hst Hl Ht He Hd Hg1 Hk. pose proof (ei_conns _ _ He c cn Hc) as Hcn.
  destruct (ck_channel _ _ _ (wo_conns w Hok c cn Hc)) as (ch & Hx & _ & Hfd & _).
  destruct (loaded_read w c cn e' b d (dr_in _ _ _ _ _ Hd)) as [Hin Hstr].
  set (w2 := _ <| calls ::= _ |>). set (cn1 := cn <| TcpConnection.input_buffer_ := b |>) in *.
  assert (grows 0 None (loaded w c cn e' b) w2) as Hg2 by (by apply grows_call; [apply Hg1 |]).
  assert (conns w2 !! c = Some cn1) as Hc2 by apply lookup_insert_eq.
  apply (wp_UserDefineMessageCallback c cn1 lp); [apply Hg2 | done | done | done |].
  intros b' w3 msg Hb' -> Hg3 -> Hmsg. set (cn3 := cn1 <| TcpConnection.input_buffer_ := b' |>). set (w3 := w2 <| conns ::= _ |>) in *.
  change (TcpConnection.input_buffer_ cn1) with b in *. change (TcpConnection.state_ cn1) with (TcpConnection.state_ cn).
  rewrite (dr_content _ _ _ _ _ Hd), (ec_input _ _ _ Hcn) in *. cbn [app] in *.
  assert (only_conn w w3 c cn cn3) as Ho3
    by (apply (only_conn_in _ _ _ _ _ d); try done; [apply insert_insert_eq | apply (dr_in _ _ _ _ _ Hd)]).
  case_decide as Hup.
  - assert (TcpConnection.state_ cn3 = kConnected) as Hup3 by exact Hup.
    eapply wp_mono; [eapply wp_and_after;
      [apply (wp_SendInLoop c cn3 d (λ _ w', sent w3 w' c cn3 d)); [apply Hg3 | apply Ho3 | by rewrite Hup3 | done | done]
      | apply (SendInLoop_only_out c cn3 ch); [apply Ho3 | exact Hx | exact Hfd | apply Hcn]] |].
    intros _ w4 [Hs Ho]. apply (sent_stream _ _ _ cn3) in Hs as (cn4 & Hc4 & Hsm & Hin4 & Hs4);
      [| apply Ho3 | by rewrite Hup3 | by apply Hd].
    assert (only_conn w w4 c cn cn4) as Ho4 by (eapply only_conn_trans; [exact Ho3 | by apply only_conn_out]).
    apply (echo_only_conn G _ w w4 c cn cn4); [done | done | by left | done | done |].
    apply (echoes_read G _ w w4 cn cn4 d); [done | by left | apply Ho4 | by rewrite Hin4 | |].
    + unfold in_stream. rewrite (oo_in _ _ _ _ Ho). exact Hin.
    + change (stream w3 cn3) with (stream (loaded w c cn e' b) cn1) in Hs4. rewrite Hstr in Hs4.
      destruct Hs4 as [->|(-> & _ & ?)]; [left | right]; (split; [done |]); [right; by rewrite Hup | by left; right].
  - assert (TcpConnection.state_ cn = kDisconnected) as Hdown
      by (pose proof (ec_up _ _ _ Hcn); by destruct (TcpConnection.state_ cn)).
    apply (echo_only_conn G _ w w3 c cn cn3); [done | done | by left | done | done |].
    apply (echoes_read G _ w w3 cn cn3 d); [done | by left | done | done | exact Hin |].
    right. split; [exact Hstr | by right].
Qed.

Lemma echo_HandleRead G c cn lp t w :
  world_ok w → conns w !! c = Some cn → TcpConnection.state_ cn ≠ kConnecting →
  loops w !! TcpConnection.loop_ cn = Some lp → EventLoop.thread_id_ lp = tid w → echo_inv G w →
  wp may_stop (ConnOps.HandleRead c t) (λ _ w', echo_inv (G ∨ gave_up w') w') w.
Proof.
  intros Hok Hc Hst Hl Ht He. pose proof (ei_conns _ _ He c cn Hc) as Hcn.
  apply (wp_conn_HandleRead c cn kMessageCallback); [done | done | apply Hcn | | |].
  - intros d e' b Hd Hg. unfold invoke. do 4 wp_step. apply (echo_message G c cn lp d); try done.
    eexists. apply lookup_insert_eq.
  - intros e' b [_ Ho Hb] Hg. destruct (loaded_read w c cn e' b [] Ho) as [Hin Hstr].
    assert (echo_inv G (loaded w c cn e' b)) as He1.
    { apply (echo_only_conn G G w _ c cn (cn <| TcpConnection.input_buffer_ := b |>)); [done.. | |].
      - by apply (only_conn_in _ _ _ _ _ []).
      - apply (echoes_read G G w _ cn _ []); [done.. | | done |]; [| left; rewrite app_nil_r; split; [done | by left]].
        upd_simpl. rewrite Hb. apply Hcn. }
    eapply wp_mono; [apply wp_and_after; [apply safe_HandleClose; [apply Hg |] | by apply (stable_after (echo_inv G)); [apply _ |]] |].
    + eexists. split; [apply lookup_insert_eq | done].
    + intros _ w' [_ He']. eapply echo_inv_weaken; [by left | exact He'].
  - intros w' [_ _ Hcs Hls Hsv Ho _]. eapply echo_inv_weaken; [by left |]. apply (echo_inv_same G w); try done.
    intros d dn _. by rewrite Ho.
Qed.
(** ** Accepting *)

Lemma echo_establish G l c cn w :
  echo_inv G w → conns w !! c = Some cn → TcpConnection.state_ cn = kConnecting →
  after (RunInLoop l (FnConnectEstablished c) (ConnectEstablished c)) (λ _, echo_inv G) w.
Proof.
  intros He Hc Hst. unfold RunInLoop, IsInLoopThread.
  apply after_bind, after_bind, after_deref. intros lp Hl. apply after_bind, after_gets, after_ret.
  destruct (_ =? _); [by apply (echo_ConnectEstablished G c cn) |].
  apply (stable_after (echo_inv G)); [by apply echo_QueueInLoop | done].
Qed.

Lemma echo_server_fixed sv sv' : server_fixed sv' = server_fixed sv → echo_server sv → echo_server sv'.
Proof. unfold server_fixed, echo_server. intros [= _ _ _ -> -> -> _ _ _ _]. done. Qed.

(** A server changes, but not its callbacks. *)
Lemma echo_inv_server G w w' s sv : echo_inv G w → conns w' = conns w → loops w' = loops w → obs w' = obs w →
  servers w' = <[s := sv]> (servers w) → echo_server sv → echo_inv G w'.
Proof.
  intros He Hcs Hls Ho Hsv Hs. pose proof He as [_ Hss Hp Ha]. split; rewrite ?Hls, ?Hcs; try done.
  - intros c cn Hc. apply (echo_conns_same G w w' c); [done.. | by rewrite Hcs].
  - intros s' sv'. rewrite Hsv, lookup_insert. case_decide; [by intros [= <-] | apply Hss].
Qed.

(** A connection more, on a descriptor that is new. *)
Lemma echo_inv_new G w w' s sv c l name fd x local peer :
  echo_inv G w → servers w !! s = Some sv → conns w !! c = None → same_rest w w' →
  conns w' = <[c := server_conn s c sv (fresh_conn l name fd x local peer)]> (conns w) →
  servers w' = <[s := sv <| TcpServer.connections_ ::= <[name := c]> |>]> (servers w) →
  out_stream (obs w) fd = [] → in_stream (obs w) fd = [] →
  (∀ l lp, loops w !! l = Some lp → fd ≠ EventLoop.wakeup_fd_ lp) → echo_inv G w'.
Proof.
  intros He Hs Hc [_ _ Hls _ Ho] Hcs Hsv Hout Hin Hfd. pose proof He as [Hcn Hss Hp Ha].
  pose proof (Hss s sv Hs) as (Hcc & Hm & Hw). split; rewrite ?Hls; try done.
  - intros d dn. rewrite Hcs, lookup_insert. case_decide; [intros [= <-] | intros Hd].
    + assert (stream w' (server_conn s c sv (fresh_conn l name fd x local peer)) = []) as Hst.
      { unfold stream, server_conn. upd_simpl. cbn [fresh_conn TcpConnection.socket_]. by rewrite Ho, Hout. }
      split; rewrite ?Hst; try done; unfold server_conn; upd_simpl;
        cbn [fresh_conn TcpConnection.socket_]; rewrite Ho, Hin; [done | by right | by right].
    + apply (echoes_flow G w w' dn); [| by eapply Hcn]. split; auto; [unfold stream |]; by rewrite Ho.
  - intros s' sv'. rewrite Hsv, lookup_insert. case_decide; [by intros [= <-] | apply Hss].
  - intros l' lp d dn Hl. rewrite Hcs, lookup_insert. case_decide; [intros [= <-]; by eapply Hfd | by eapply Ha].
Qed.

Lemma echo_NewConnection G s fd peer w :
  world_ok w → echo_inv G w → is_Some (servers w !! s) → room 1 w → fd ∈ k_open (obs w) →
  (∀ y chy, channels w !! y = Some chy → Channel.fd_ chy ≠ fd) →
  out_stream (obs w) fd = [] → in_stream (obs w) fd = [] →
  wp may_stop (NewConnection s fd peer) (λ _, echo_inv G) w.
Proof.
  intros Hok He [sv Hs] Hroom Hopen Hfd Hout Hin. eapply wp_NewConnection; [done.. |].
  intros w1 sv1 l name local Hg1 Hs1 Hf1 Hl Hx1 Hc1 [_ _ Hl1 _ Ho1].
  assert (echo_server sv1) as Hes by (eapply echo_server_fixed; [done | by eapply ei_servers]).
  assert (echo_inv G w1) as He1 by (by eapply (echo_inv_server G w w1 s sv1)).
  assert (servers w1 !! s = Some sv1) as Hsv1 by (rewrite Hs1; apply lookup_insert_eq).
  apply (wp_hand_over s sv1); [apply Hg1 | done | done | by rewrite Ho1 | by rewrite Hx1 |].
  intros w2 c x Hg2 Hc Hnq Hc2 Hs2 Hr2. set (cn := server_conn _ _ _ _) in Hc2.
  assert (conns w2 !! c = Some cn) as Hcn by (rewrite Hc2; apply lookup_insert_eq).
  assert (echo_inv G w2) as He2.
  { apply (echo_inv_new G w1 w2 s sv1 c l name fd x local peer); try done; rewrite ?Ho1; try done.
    intros l' lp Hl' Heq. destruct (lk_wakeup _ _ _ (wo_loops w1 (gr_ok _ _ _ _ Hg1) l' lp Hl')) as (ch & Hx & _ & Hfd' & _).
    rewrite Hx1 in Hx. apply (Hfd _ ch Hx). congruence. }
  eapply wp_mono; [apply wp_and_after;
    [apply (safe_establish l c cn); [apply Hg2 | done..] | by apply (echo_establish G l c cn)] | by intros _ w3 [_ ?]].
Qed.

Lemma echo_Acceptor_HandleRead G s w :
  world_ok w → echo_inv G w → is_Some (servers w !! s) → room 1 w →
  wp may_stop (Acceptor_HandleRead s) (λ _, echo_inv G) w.
Proof.
  intros Hok He [sv Hs] Hroom. pose proof (wo_servers w Hok s sv Hs) as Hsk.
  unfold Acceptor_HandleRead, Accept. do 2 wp_step. rewrite (sk_new _ _ _ Hsk).
  do 3 wp_step. destruct a as [[connfd err] addr]. apply accept4_law in Hsys. wp_step.
  destruct Hsys as [[-> Ho]|(Hfd & Hnew & Ho)]; (wp_step; bool_simpl; [| try lia]; try lia).
  - assert (echo_inv G (w <| env := e' |>)) as He1.
    { apply (echo_inv_same G w); try done. intros c cn _. upd_simpl. by rewrite Ho. }
    pose proof (grows_env w e' Hok Ho) as Hg. wp_step. wp_step.
    assert (echo_inv G (w <| env := e' |> <| log ::= cons (Log ERROR "%s:%s:%d accept err:%d\n"
      [AStr "acceptor.cpp"; AStr "HandleRead"; AInt 66; AInt err]) |>)) as He2 by (by apply (echo_inv_same G _ _ He1)).
    do 2 wp_step. apply log_errno_law in Hsys.
    match goal with |- wp _ _ _ ?w => assert (echo_inv G w) as He3 end.
    { apply (echo_inv_same G _ _ He2); try done. intros c cn _. upd_simpl. by rewrite Hsys. }
    wp_step; [wp_step |]; [by apply (echo_inv_same G _ _ He3) | done].
  - pose proof (grows_open w connfd e' Hok Hfd Hnew Ho) as Hg. set (w1 := w <| env := e' |>) in *.
    assert (∀ fd, out_stream (obs w1) fd = (if decide (connfd = fd) then [] else out_stream (obs w) fd) ∧
      in_stream (obs w1) fd = (if decide (connfd = fd) then [] else in_stream (obs w) fd)) as Hio.
    { intros fd. unfold w1, out_stream, in_stream. upd_simpl. rewrite Ho. unfold open_fd. upd_simpl.
      rewrite !lookup_insert. by case_decide. }
    apply echo_NewConnection; [apply Hg | | by exists sv | exact Hroom | | |..].
    + apply (echo_inv_same G w); try done. intros c cn Hc. destruct (Hio (TcpConnection.socket_ cn)) as [-> ->].
      assert (connfd ≠ TcpConnection.socket_ cn) by (intros ->; by eapply Hnew, conn_socket_open).
      by rewrite !decide_False.
    + unfold w1. upd_simpl. rewrite Ho. unfold open_fd. upd_simpl. clear. set_solver.
    + intros y chy Hy Heq. apply Hnew. rewrite <- Heq. by eapply channel_open.
    + destruct (Hio connfd) as [-> _]. by rewrite decide_True.
    + destruct (Hio connfd) as [_ ->]. by rewrite decide_True.
Qed.
(** ** Rounds *)

(** That a send failed is never forgotten. *)
Abbreviation forth := (keeps_true (E := E) gave_up).

Lemma forth_same w w' : log w' = log w → forth w w'.
Proof. unfold keeps_true, gave_up. by intros ->. Qed.
#[export] Instance admits_forth : Admits forth.
Proof. split; [apply _ | try (intros; by apply forth_same)..]. intros w x. unfold keeps_true, gave_up. by right. Qed.
#[export] Instance admits_server_forth : AdmitsServer forth.
Proof. intros w s sv g _ _. by apply forth_same. Qed.

Lemma forth_call_callback cb t : Pres forth (call_callback cb t).
Proof.
  apply (pres_call_callback forth); intros *; [apply (pres_any_server forth) | apply (pres_NewConnection forth)];
    intros; by apply forth_same.
Qed.
Lemma forth_run_functor f : Pres forth (run_functor f).
Proof. apply (pres_run_functor forth). intros *. apply (pres_any_server forth). intros. by apply forth_same. Qed.

(** The invariant of the server, with what was logged. *)
Definition echo_ok w : Prop := echo_inv (gave_up w) w.

(** An operation that keeps the invariant but for what it logs. *)
Lemma echo_ok_after {A} (m : M (World E) A) w :
  Pres forth m → after m (λ _ w', echo_inv (gave_up w ∨ gave_up w') w') w → after m (λ _, echo_ok) w.
Proof.
  intros Hm Ha. eapply after_mono; [apply after_and; [exact Ha | by apply (pres_after forth)] |].
  intros a w' [He' Hgu]. eapply echo_inv_weaken; [| exact He']. unfold keeps_true in Hgu. tauto.
Qed.

Lemma echo_ok_stable {A} (m : M (World E) A) w :
  Pres forth m → after m (λ _, echo_inv (gave_up w)) w → after m (λ _, echo_ok) w.
Proof.
  intros Hm Ha. apply echo_ok_after; [done |]. eapply after_mono; [exact Ha |].
  intros a w'. apply echo_inv_weaken. by left.
Qed.

Lemma echo_callback l w x ch cb t :
  world_ok w → echo_ok w → here l w → channels w !! x = Some ch → Channel.loop_ ch = l →
  callback_ok w x cb → callback_ready w cb → room (cost cb) w →
  after (call_callback cb t) (λ _ w', echo_inv (gave_up w ∨ gave_up w') w') w.
Proof.
  intros Hok He (lp & Hl & Ht) Hx Hlx Hcb Hr Hroom. unfold echo_ok in He.
  assert (∀ m : M (World E) unit, after m (λ _, echo_inv (gave_up w)) w →
    after m (λ _ w', echo_inv (gave_up w ∨ gave_up w') w') w) as Hkeep.
  { intros m Hm. eapply after_mono; [exact Hm |]. intros a w'. apply echo_inv_weaken. by left. }
  destruct cb as [l' | s | c | c | c | c]; cbn [call_callback callback_ok callback_ready cost] in *.
  - apply Hkeep, (stable_after (echo_inv _)); [apply _ | done].
  - by apply Hkeep, (wp_after may_stop), echo_Acceptor_HandleRead.
  - destruct Hcb as (cn & Hc & Hxc), Hr as (cn' & Hc' & Hst). rewrite Hc in Hc'. injection Hc' as <-.
    apply (wp_after may_stop), (echo_HandleRead _ c cn lp); try done.
    destruct (ck_channel _ _ _ (wo_conns w Hok c cn Hc)) as (ch' & Hx' & <- & _). congruence.
  - by apply Hkeep, echo_HandleWrite.
  - apply Hkeep, (stable_after (echo_inv _)); [apply _ | done].
  - apply Hkeep, (stable_after (echo_inv _)); [apply _ | done].
Qed.

Lemma echo_functor G w f :
  echo_inv G w → functor_ready w f → plain f → after (run_functor f) (λ _, echo_inv G) w.
Proof.
  intros He (_ & _ & Hest) Hp. destruct f as [| | | | | c | c | s c | s |]; try done; cbn [run_functor].
  - destruct (Hest c eq_refl) as (cn & Hc & Hst). by apply (echo_ConnectEstablished G c cn).
  - by apply (stable_after (echo_inv G)); [apply _ |].
  - by apply (stable_after (echo_inv G)); [apply _ |].
  - by apply (stable_after (echo_inv G)); [apply _ |].
Qed.

#[export] Instance echo_carried : CarriedAll echo_ok plain.
Proof.
  split.
  - intros w x He. eapply echo_inv_weaken; [| by apply (echo_inv_same _ w _ He)].
    unfold gave_up. upd_simpl. by right.
  - intros w t He. by apply (echo_inv_same _ w _ He).
  - intros w w' revs He [_ _ Hup [lg Hlog]].
    eapply echo_inv_weaken; [| by eapply (au_upper (R := keeps_true (echo_inv (gave_up w))))].
    unfold gave_up. rewrite Hlog. intros ?. apply elem_of_app. by right.
  - intros w l lp lp' He Hl [= Hid Hfd _] Hp. apply (echo_inv_loop _ w l lp); [done.. |].
    destruct Hp as [->| ->]; [by eapply ei_pending | done].
  - intros w l x ch cb t Hok He Hh Hx Hlx Hcb Hrd Hroom. apply echo_ok_after; [apply forth_call_callback |].
    by apply (echo_callback l w x ch).
  - intros w l f Hok He _ Hf Hp. apply echo_ok_stable; [apply forth_run_functor | by apply echo_functor].
  - intros w l lp He Hl. by eapply ei_pending.
Qed.
End inv.

(** ** Start-up *)

Section start.
Context {E : Type} `{KernelLaws E}.
Implicit Types w : World E.

(** There are no connections, and nothing is queued that sends. *)
Definition no_conns w : Prop :=
  conns w = ∅ ∧ ∀ l lp, loops w !! l = Some lp → Forall plain (EventLoop.pending_functors_ lp).

Abbreviation R := (keeps_true no_conns).

#[export] Instance no_conns_upper : AdmitsUpper R.
Proof. split; [apply _ |]. intros w w' [_ _ Hl Hc _ _ _]. unfold keeps_true, no_conns. by rewrite Hl, Hc. Qed.

Lemma no_conns_modify g : (∀ w, conns (g w) = conns w) → (∀ w, loops (g w) = loops w) → Pres R (modify g).
Proof. intros Hc Hl. apply pres_modify. intros w. unfold keeps_true, no_conns. by rewrite Hc, Hl. Qed.

Ltac pres_prim ::= by apply no_conns_modify.

#[export] Instance no_conns_sys {A} (f : E → A * E) : Pres R (sys f).
Proof. intros w. unfold sys. destruct (f (env w)) as [a e]. intros Hw. exact Hw. Qed.
#[export] Instance no_conns_upd_server s g : Pres R (upd_server s g).
Proof. pres_tac. Qed.
#[export] Instance no_conns_upd_pool s g : Pres R (upd_pool s g).
Proof. pres_tac. Qed.
#[export] Instance no_conns_upd_acceptor s g : Pres R (upd_acceptor s g).
Proof. pres_tac. Qed.
#[export] Instance no_conns_new_channel l fd : Pres R (new_channel l fd).
Proof. pres_tac. Qed.
#[export] Instance no_conns_new_loop : Pres R new_loop.
Proof.
  assert (∀ l lp, EventLoop.pending_functors_ lp = [] → Pres R (modify (λ w, w <| loops ::= <[l := lp]> |>))) as Hl.
  { intros l lp Hp. apply pres_modify. intros w [Hc Hw]. split; [done |]. intros l' lp'. upd_simpl.
    rewrite lookup_insert. case_decide; [intros [= <-]; by rewrite Hp | apply Hw]. }
  unfold new_loop, NewDefaultPoller, CreateEventfd, SetReadCallback. repeat pres_step. by apply Hl.
Qed.
#[export] Instance no_conns_new_acceptor s l addr rp : Pres R (new_acceptor s l addr rp).
Proof.
  unfold new_acceptor, CreateNonblocking, SetReuseAddr, SetReusePort, setsockopt, BindAddress, SetReadCallback.
  repeat pres_step.
Qed.
#[export] Instance no_conns_new_server l addr name rp : Pres R (new_server l addr name rp).
Proof. unfold new_server, SetNewConnectionCallback. repeat pres_step. Qed.
#[export] Instance no_conns_start_threads s cb n : ∀ i, Pres R (start_threads s cb i n).
Proof.
  assert (∀ l, Pres R (thread_init cb l)).
  { intros l. unfold thread_init, invoke. destruct cb; cbn [react echo run_client]; repeat pres_step. }
  induction n as [|n IH]; intros i; cbn [start_threads]; unfold StartLoop; repeat pres_step.
Qed.
#[export] Instance no_conns_QueueInLoop l s : Pres R (QueueInLoop l (FnListen s)).
Proof.
  unfold QueueInLoop, Wakeup. apply pres_bind; [apply _ | | intros _; repeat pres_step].
  apply stable_intro. intros w [Hc Hp]. unfold upd_loop. apply after_bind, after_deref. intros lp Hl.
  apply after_modify. split; [done |]. intros l' lp'. upd_simpl. rewrite lookup_insert.
  case_decide; [intros [= <-]; upd_simpl; apply Forall_app; split; [by eapply Hp | by repeat constructor] | apply Hp].
Qed.
#[export] Instance no_conns_Server_Start s : Pres R (Server_Start s).
Proof.
  assert (∀ cb l, Pres R (thread_init cb l)).
  { intros cb l. unfold thread_init, invoke. destruct cb; cbn [react echo run_client]; repeat pres_step. }
  unfold Server_Start, Pool_Start, RunInLoop, Acceptor_Listen. repeat pres_step.
Qed.
#[export] Instance no_conns_main_setup : Pres R main_setup.
Proof.
  unfold main_setup, EchoServer_ctor, Server_SetConnectionCallback, Server_SetMessageCallback, ServerOps.SetThreadNum, Start.
  repeat pres_step.
Qed.

Lemma wp_main_setup w :
  no_objects w → loops w = ∅ → conns w = ∅ → servers w = ∅ → calls w = [] →
  wp may_stop main_setup (λ _ w', world_ok w' ∧ ∀ G, echo_inv G w') w.
Proof.
  intros Hno Hl Hc Hs Hcl.
  eapply wp_mono; [apply wp_and_after;
    [by apply (wp_startup (InetAddress_ctor 0 9012 "127.0.0.1") "CuteEchoServer" false kConnectionCallback kMessageCallback 4)
    | apply (stable_after no_conns); [apply _ | split; [done | by rewrite Hl]]] |].
  intros [l s] w' [(Hok & _ & sv & Hsv & _ & _ & Hcc & Hm & Hw & Hone) [Hc' Hp']].
  split; [done |]. intros G. split; [by rewrite Hc' | | done | by rewrite Hc'].
  intros s' sv' Hs'. destruct (decide (s' = s)) as [->|Hne]; [| by rewrite Hone in Hs'].
  rewrite Hsv in Hs'. injection Hs' as <-. by split_and!.
Qed.
End start.

(** ** The property *)

(** C2: the echo server is faithful, from [main] on: started in a process
    without objects, after any turns of the threads of its loops, whatever came
    from clients and however the kernel behaved, on every connection there
    ever was: nothing is left in the input buffer; what the kernel took to
    send, with what waits in the output buffer behind it, is made of bytes
    that came in on that connection, in their order, none twice; and unless
    a failed send was logged it is all that came in, from the first byte on,
    while the connection is not down, and a first part of it for good. *)
Theorem echo_faithful {E} `{KernelLaws E} p c cn (w0 w1 : World E) (s : system E) :
  no_objects w0 → loops w0 = ∅ → conns w0 = ∅ → servers w0 = ∅ → calls w0 = [] →
  main_setup w0 = Done p w1 → runs only_turns (System E w1 ∅) s → conns (heap s) !! c = Some cn →
  let received := in_stream (obs (heap s)) (TcpConnection.socket_ cn) in
  Buffer.content (TcpConnection.input_buffer_ cn) = [] ∧
  stream (heap s) cn `sublist_of` received ∧
  (gave_up (heap s) ∨ stream (heap s) cn `prefix_of` received ∧
     (TcpConnection.state_ cn ≠ kDisconnected → stream (heap s) cn = received)).
Proof.
  intros Hno Hl Hc0 Hs Hcl Hrun Hr Hc received.
  pose proof (wp_main_setup w0 Hno Hl Hc0 Hs Hcl) as Hm. unfold wp in Hm. rewrite Hrun in Hm. destruct Hm as [Hok He].
  assert (system_ok echo_ok plain (System E w1 ∅)) as Hs0 by (by split; [| apply He |]).
  destruct (runs_turns echo_ok plain _ s Hs0 Hr) as [[_ He' _] _].
  destruct (ei_conns _ _ He' c cn Hc) as [_ _ _ _ Hin Hsub Hpre Hall].
  split_and!; [done | done |]. destruct Hpre as [?|Hpre]; [by left |].
  destruct (decide (TcpConnection.state_ cn = kDisconnected)) as [Hd|Hd]; [by right |].
  destruct (Hall Hd) as [?|?]; [by left | by right].
Qed.

(** The run of [Turns] goes on: the loop of the connection reads the client's
    five bytes and answers, in two writes, while the main loop is still in its
    first round. *)
Definition echoed_schedule : list event := echo_schedule ++ some_turns 19 1.
Definition echoed_conn : TcpConnection.t :=
  default (echo_conn 4) (conns (heap (after_events echoed_schedule)) !! 0%nat).

Lemma echo_faithful_witness :
  let w := heap (after_events echoed_schedule) in let cn := echoed_conn in
  main_setup (empty_world echo_sim) = Done (0, 0)%nat echo_world ∧
  turns (after_events echoed_schedule) !! 0%nat = Some (TRun []) ∧
  (Buffer.content (TcpConnection.input_buffer_ cn) = [] ∧
   stream w cn `sublist_of` in_stream (obs w) (TcpConnection.socket_ cn) ∧
   (gave_up w ∨ stream w cn `prefix_of` in_stream (obs w) (TcpConnection.socket_ cn) ∧
      (TcpConnection.state_ cn ≠ kDisconnected → stream w cn = in_stream (obs w) (TcpConnection.socket_ cn)))) ∧
  out_stream (obs w) (TcpConnection.socket_ cn) = hello.
Proof.
  assert (main_setup (empty_world echo_sim) = Done (0, 0)%nat echo_world) as Hrun by (vm_compute; reflexivity).
  assert (runs only_turns (System sim echo_world ∅) (after_events echoed_schedule)) as Hr.
  { apply runs_by_compute; [constructor | vm_compute; reflexivity]. }
  assert (conns (heap (after_events echoed_schedule)) !! 0%nat = Some echoed_conn) as Hc by (vm_compute; reflexivity).
  split; [exact Hrun | split; [vm_compute; reflexivity | split; [| vm_compute; reflexivity]]].
  apply (echo_faithful (0, 0)%nat 0 echoed_conn (empty_world echo_sim) echo_world (after_events echoed_schedule));
    [by apply no_objects_empty | reflexivity | reflexivity | reflexivity | reflexivity | exact Hrun | exact Hr | exact Hc].
Defined.
