(* ===== verification/ServerEnd.v ===== *)
(** * The end of a server ([TcpServer::~TcpServer])

    The destructor gives every connection of the server to its own loop to be
    destroyed, and takes the acceptor down.  In between, the connection
    callbacks of the application run. *)

From S2P Require Import Prelude Format Kernel SimKernel Buffer Objects PollerOps ChannelOps ReactorInv PollInv ReactorLife LoopOps LoopInv SocketOps ConnOps ServerOps Frames WorldInv WorldSteps ConnInv HandlerInv LifeInv AcceptInv SystemInv SetupInv EchoServer SystemSpec ConnSpec.

Section destructor.
Context {E : Type} `{KernelLaws E} `{AppOk}.
Implicit Types w : World E.

(** ** One connection *)

(** Connection [c], as seen by thread [t], is on its way out: in the thread
    of its loop it is not connected any more; otherwise its destruction is
    queued on its loop. *)
Definition let_go (t : Z) w (c : nat) : Prop := ∃ cn lp,
  conns w !! c = Some cn ∧ loops w !! TcpConnection.loop_ cn = Some lp ∧
  if decide (EventLoop.thread_id_ lp = t) then TcpConnection.state_ cn ≠ kConnected
  else FnConnectDestroyed c ∈ EventLoop.pending_functors_ lp.

Lemma let_go_mono t w w' c : grows 0 None w w' → behind w w' → let_go t w c → let_go t w' c.
Proof.
  intros Hg Hb (cn & lp & Hc & Hl & Hgo).
  destruct (ex_conns _ _ _ (gr_ext _ _ _ _ Hg) c cn Hc) as (cn' & Hc' & Hf & Hr & _).
  destruct (bh_loops _ _ Hb _ _ Hl) as (lp' & Hl' & Hid & Hp). exists cn', lp'.
  assert (TcpConnection.loop_ cn' = TcpConnection.loop_ cn) as -> by (unfold conn_fixed in Hf; congruence).
  split_and!; [done.. |]. rewrite Hid. case_decide as Ht.
  - intros Hst'. rewrite Hst' in Hr. destruct (TcpConnection.state_ cn) eqn:Hst; cbn in Hr; try lia; [| done].
    destruct (gr_keeps _ _ _ _ Hg c cn) as (cn2 & Hc2 & Hst2); [done.. | congruence].
  - by eapply elem_of_prefix.
Qed.

Lemma ConnectDestroyed_not_connected c cn w : world_ok w → conns w !! c = Some cn →
  wp may_stop (ConnectDestroyed c) (λ _ w', ∃ cn', conns w' !! c = Some cn' ∧ TcpConnection.state_ cn' ≠ kConnected) w.
Proof.
  intros Hok Hc. destruct (ck_connection _ _ _ (wo_conns w Hok c cn Hc)) as [cb Hcb].
  eapply wp_mono; [by apply (wp_ConnectDestroyed c cn cb) |]. intros [] w' [_ Hd]. case_decide.
  - destruct Hd as (_ & cn' & ? & Hst). exists cn'. by rewrite Hst.
  - destruct Hd as [_ ->]. by exists cn.
Qed.

Definition destroy (c : nat) : M (World E) unit :=
  cn ← the_conn c; RunInLoop (GetLoop cn) (FnConnectDestroyed c) (ConnectDestroyed c).

Lemma wp_destroy c w : world_ok w → is_Some (conns w !! c) →
  wp may_stop (destroy c) (λ _ w', grows 0 None w w' ∧ behind w w' ∧ let_go (tid w) w' c) w.
Proof.
  intros Hok [cn Hc]. destruct (ck_loop _ _ _ (wo_conns w Hok c cn Hc)) as [lp Hl].
  unfold destroy. do 2 wp_step. eapply wp_RunInLoop; [exact Hl | |]; intros Ht.
  - eapply wp_mono; [apply wp_and; [apply (pres_wp behind); [apply _ | apply safe_ConnectDestroyed; [done | by eexists]] |] |].
    { by apply (ConnectDestroyed_not_connected c cn). }
    intros [] w' [[Hg Hb] (cn' & Hc' & Hst)]. split_and!; [done.. |].
    destruct (ex_conns _ _ _ (gr_ext _ _ _ _ Hg) c cn Hc) as (cn2 & Hc2 & Hf & _).
    destruct (bh_loops _ _ Hb _ _ Hl) as (lp' & Hl' & Hid & _). exists cn', lp'. rewrite Hc' in Hc2. injection Hc2 as <-.
    assert (TcpConnection.loop_ cn' = TcpConnection.loop_ cn) as -> by (unfold conn_fixed in Hf; congruence).
    split_and!; [done.. |]. rewrite Hid. by rewrite decide_True.
  - eapply wp_mono; [apply wp_and; [apply (pres_wp behind); [apply _ | by apply safe_QueueInLoop; [| eexists | eexists |]] |] |].
    { eapply (wp_QueueInLoop _ _ lp _ (λ _ w', queued (GetLoop cn) lp (FnConnectDestroyed c) w w')); [done |]. by intros w' ? _. }
    intros [] w' [[Hg Hb] [Hq Hls]]. split_and!; [done.. |].
    destruct (ex_conns _ _ _ (gr_ext _ _ _ _ Hg) c cn Hc) as (cn' & Hc' & Hf & _). eexists cn', _.
    assert (TcpConnection.loop_ cn' = TcpConnection.loop_ cn) as -> by (unfold conn_fixed in Hf; congruence).
    split; [done |]. split; [rewrite Hls; apply lookup_insert_eq |]. upd_simpl. rewrite decide_False by done. set_solver.
Qed.

(** ** All of them *)

Lemma wp_destroy_all {K} (xs : list (K * nat)) : ∀ w, world_ok w → Forall (λ x, is_Some (conns w !! x.2)) xs →
  wp may_stop (sequence_ ((λ '(_, c), destroy c) <$> xs))
    (λ _ w', grows 0 None w w' ∧ behind w w' ∧ Forall (λ x, let_go (tid w) w' x.2) xs) w.
Proof.
  induction xs as [|[k c] xs IH]; intros w Hok Hxs; cbn [fmap list_fmap sequence_].
  { split_and!; [by apply grows_refl | done | done]. }
  apply Forall_cons in Hxs as [Hc Hxs]. wp_step. eapply wp_mono; [by apply wp_destroy |].
  intros [] w1 (Hg1 & Hb1 & Hc1). eapply wp_mono; [apply IH; [apply Hg1 |] |].
  { eapply Forall_impl; [exact Hxs |]. intros [k' c']. by apply grows_conn_some with (1 := Hg1). }
  intros [] w2 (Hg2 & Hb2 & Hall). split; [by eapply grows_0 |]. split; [by etrans |].
  rewrite (bh_tid _ _ Hb1) in Hall. constructor; [by eapply let_go_mono | done].
Qed.

(** ** The acceptor *)

(** Its channel is gone from the heap, the poller and the kernel, and its
    socket is closed. *)
Record acceptor_gone w' (l : nat) (x : nat) (fd : Z) : Prop := {
  ag_channel : channels w' !! x = None;
  ag_poller : ∃ p, pollers w' !! l = Some p ∧ EpollPoller.channels_ p !! fd = None ∧
    interest (obs w') (EpollPoller.epoll_fd_ p) !! fd = None;
  ag_closed : fd ∉ k_open (obs w');
}.

Lemma wp_delete_acceptor a ch w : reactor_ok w → channels w !! Acceptor.accept_channel_ a = Some ch →
  Channel.fd_ ch = Acceptor.accept_socket_ a →
  wp may_stop (delete_acceptor a) (λ _ w', conns w' = conns w ∧ loops w' = loops w ∧
    acceptor_gone w' (Channel.loop_ ch) (Acceptor.accept_channel_ a) (Acceptor.accept_socket_ a)) w.
Proof.
  intros Hok Hx Hfd. apply wp_fatal. unfold delete_acceptor.
  wp_step. eapply (wp_set_events _ ch (λ _, kNoneEvent)); [exact Hok | exact Hx | by unfold kNoneEvent |].
  intros w1 Hs1. wp_step. eapply wp_Channel_Remove; [apply Hs1 | rewrite (cs_channels _ _ _ _ Hs1); apply lookup_insert_eq |].
  intros w2 Hs2. do 2 wp_step. unfold Socket_dtor. wp_step. upd_simpl.
  pose proof (cs_upper _ _ _ _ Hs1) as Hu1. pose proof (cs_upper _ _ _ _ Hs2) as Hu2.
  split_and!; [by rewrite (su_conns _ _ Hu2), (su_conns _ _ Hu1) | by rewrite (su_loops _ _ Hu2), (su_loops _ _ Hu1) |].
  destruct (unregistered_new w2 (Acceptor.accept_channel_ a) _ (cs_ok _ _ _ _ Hs2)
    ltac:(rewrite (cs_channels _ _ _ _ Hs2); apply lookup_insert_eq) eq_refl) as (ch2 & p & Hx2 & Hp & _ & Hm & Hi).
  rewrite (cs_channels _ _ _ _ Hs2), lookup_insert_eq in Hx2. injection Hx2 as <-. upd_simpl. rewrite Hfd in Hm, Hi.
  destruct a0. injection Hsys as <-. split.
  - apply lookup_delete_eq.
  - exists p. split_and!; [done.. |]. upd_simpl. by rewrite close_law, interest_close_fd.
  - upd_simpl. rewrite close_law. unfold close_fd. upd_simpl.
    intros [_ Hfd']%elem_of_difference. by apply Hfd', elem_of_singleton.
Qed.

End destructor.

(** ** At the echo server *)

